(* ===== verification/_CoqProject ===== *)
-Q . S2P
Prelude.v
Bytes.v
Text.v
MuxFrame.v
MuxTarget.v
MuxStream.v
MuxSched.v
MuxState.v
MuxInv.v
MuxProps.v
MuxEffect.v
MuxFlow.v
MuxLink.v
MuxStable.v
MuxConn.v
MuxWorld.v
MuxConnSim.v
MuxConnStep.v
MuxConnNew.v
MuxConnLink.v
MuxConnTask.v
DnsBase32.v
DnsName.v
DnsMsg.v
DnsArq.v
DnsStream.v
DnsLink.v
DnsServe.v
Migration.v
SessionFrames.v
SessionLink.v
SessionStream.v
SessionEnvelope.v
CircuitCell.v
CircuitExtend.v
CircuitOnion.v
CircuitClient.v
CircuitBridge.v
CircuitBridgeStep.v
CircuitBridgeInv.v
CircuitBridgeProps.v
CircuitReassembly.v
CircuitBridgeRuns.v
CircuitPath.v
Signature.v
Token.v
HandshakeWire.v
Rendezvous.v
RendezvousInv.v
RendezvousLog.v
RendezvousRouter.v
SplitExit.v
SplitExitState.v
SplitExitRun.v
ReplayLog.v
ReplaySet.v
RealityProbe.v
SeenNonce.v
Handshake.v
HandshakeRun.v
HandshakeAuth.v
HandshakeTunnel.v
HandshakeDuplex.v
Socks5.v
HandshakeSession.v
HandshakeOnce.v
HandshakeDemo.v
