(* ===== verification/Prelude.v ===== *)
(** * Mirage: verification of the protocol cores

    Mirage is a censorship-resistant proxy. A client reaches a bridge through
    some transport (one of them tunnels through DNS), runs an encrypted session
    over it, multiplexes streams inside the session, migrates the session
    between network paths, builds onion circuits over several bridges, and meets
    hidden services at rendezvous points. This development models the parts of
    the Rust workspace (src/crates) that decide what those layers do, as
    executable functions translated from the source, and proves that the layers
    keep their promises: only holders of a credential get a session and a
    client only reaches the bridge it knows, bytes arrive in order and complete,
    limits hold, no nonce is used twice, no token or probe is accepted twice,
    errors leave the state as documented.

    ** Conventions

    Integers are [Z] with the width written out where it matters; bytes are
    [Byte.byte]; hash maps are [gmap]. A method on [&mut self] that returns a
    [Result] is a function from the state to the state it leaves and its result
    ([stm] in Prelude.v), so a mutation before an early return stays. Where Rust
    leaves an order open (the iteration of a hash map), the order is an
    argument and the theorems hold for every order. Instants are nanoseconds.
    Code outside the repository is a parameter: the session's AEAD, hash, key
    expansion and Noise transport are the class [SessionCrypto] with the laws
    [SessionCryptoLaws]; the keyed hash of the circuits is added by
    [CircuitCrypto]; the Noise handshake is [Snow] with [SnowLaws], the
    post-quantum encapsulation [MlKem768] with [MlKemLaws], signatures are
    [Ed25519] with [Ed25519Laws], the key agreement and hash of the probe
    [ProbeCrypto] with [ProbeCryptoLaws]; random generators are arguments. Each class has an instance, used by the witnesses,
    that shows the laws can hold. System calls that can fail (the writes of the
    replay log, lookups and dials of the exit) take their outcome as an argument.
    A task that reads and writes a stream is a tree of its reads and writes
    ([proc] in HandshakeTunnel.v), run against any environment ([returns]) or
    against another such program ([dstep], in HandshakeDuplex.v).

    ** The parts and their files

    - Prelude.v, Bytes.v, Text.v: results, the state monad, machine integers,
      lists, big-endian codecs, UTF-8 and string functions of the standard
      library.

    - crates/mux, stream multiplexing. MuxFrame.v (frame.rs), MuxTarget.v
      (target.rs), MuxStream.v (stream.rs, policy.rs), MuxSched.v (the deficit
      round robin of state.rs) and MuxState.v (state.rs) are the definitions;
      MuxInv.v and MuxProps.v prove the invariant of one endpoint and that a
      failing operation changes nothing. MuxEffect.v, MuxFlow.v and MuxLink.v
      join two endpoints by an ordered carrier: flow control is never violated
      and every stream delivers in order what was sent. MuxStable.v is about
      finished directions. MuxConn.v models the drivers (conn.rs) with shared
      buffers, routing and the two tasks; MuxWorld.v joins two of them by byte
      carriers, MuxConnSim.v, MuxConnStep.v, MuxConnNew.v and MuxConnLink.v
      prove that they refine the link of MuxLink.v, which gives the end-to-end
      integrity and completeness theorems of the streams that applications see.
      MuxConnTask.v is about the reader task and a race it loses.

    - crates/transport-dnstt, the DNS tunnel. DnsBase32.v, DnsName.v, DnsMsg.v
      (dns.rs), DnsArq.v (arq.rs), DnsStream.v (stream.rs): codecs with their
      round trips, the bound on the work of the name decoder, the reliable
      endpoint. DnsLink.v joins two endpoints by a network that loses, delays,
      reorders and duplicates: safety, completeness and progress. DnsServe.v
      (transport.rs) is the server's session table and the answer to one query.

    - crates/migration. Migration.v: validation of a new path by challenge, the
      limits on migrations.

    - crates/session. SessionFrames.v (frames.rs) is the framer with its
      ratchet; SessionLink.v joins two framers; SessionStream.v (stream.rs) is
      the byte stream over any carrier; SessionEnvelope.v (padding.rs,
      udp_frame.rs) the padding and the datagram envelope. The theorems: no
      frame is sealed under a nonce used before, a refused frame changes nothing,
      the stream delivers a prefix of what was written and, while no side writes
      in an epoch more than one past the newest it has received, all of it; a
      theorem of SessionLink.v shows a loss beyond that.

    - Credentials. Signature.v is the interface of Ed25519; Token.v
      (discovery/token.rs, token_fs.rs and the tokens of refresh.rs) holds
      bootstrap, forward-secure and refresh tokens: what is minted verifies, and
      a signature over one kind is never one over another.

    - The session handshake. HandshakeWire.v (session/wire.rs) has the messages,
      Handshake.v (session/handshake.rs, crypto/hybrid_kem.rs) the two state
      machines and the token verifier, HandshakeTunnel.v (session/tunnel.rs) the
      drivers connect and accept. HandshakeRun.v proves that honest ends agree on
      their keys, HandshakeAuth.v what makes a verifier accept, HandshakeSession.v
      that an honest client always gets a session over which bytes arrive intact,
      that a session is only given for an issued, unexpired, unused credential,
      that a client's session is with the bridge it named, and that the size of
      message 3 does not show the kind of token. HandshakeOnce.v
      (run_authenticated_session of bridge/main.rs) adds the replay set: a token
      opens at most one session in the life of a bridge. HandshakeDemo.v has
      lawful instances, the concrete runs, and a run in which a stale clock
      lets a used token in again.

    - The exit. Socks5.v (socks5/server.rs) has the SOCKS5 negotiation and
      request, the destination policy and the dialling of a target: the bit tests
      of the policy are exactly the reserved address blocks, and nothing outside
      the policy is ever dialled for a client.

    - crates/circuit. CircuitCell.v (cell.rs, stream.rs), CircuitExtend.v
      (extend.rs), CircuitOnion.v (onion.rs, keys.rs): formats, onion layers and
      keys, with round trips and the agreement of the hop keys with the
      session's. CircuitClient.v (circuit.rs, builder.rs): the client's circuit
      never reuses a nonce; the builder always knows its next step and what to
      tear down. CircuitBridge.v (bridge_circuit.rs) is the bridge;
      CircuitBridgeStep.v classifies what its handlers may do to a circuit;
      CircuitBridgeInv.v and CircuitBridgeProps.v prove the invariant of every
      reachable state, teardown exactly once, and that a relay session carries
      nothing for an unverified circuit. CircuitReassembly.v: fragmented
      handshakes arrive whole. CircuitPath.v puts a client and the one to
      three bridges of a circuit in line and proves it transparent in both
      directions for payloads that no hop takes for a command.
      CircuitBridgeRuns.v holds concrete runs.

    - Rendezvous. Rendezvous.v (circuit/rendezvous.rs) is the table of
      introduction and rendezvous points, RendezvousInv.v its invariant,
      RendezvousLog.v what a log of its operations says: a parked cookie joins
      once and only who presented it, a registered key cannot be hijacked.
      RendezvousRouter.v (bridge/rendezvous_router.rs) delivers across sessions:
      cells pass only between circuits that met, and a client and a service that
      follow the protocol do meet.

    - Split exit. SplitExit.v (circuit/split_exit.rs) holds the bodies and their
      round trips, SplitExitState.v the resolver and the forwarder with their
      invariants, SplitExitRun.v the two together: an open stream is connected
      to the destination that was asked for, hostnames never pass the resolver,
      and the exchange completes unless the answer is an IPv4-mapped address. A concrete run shows why stream ids must not
      be requested again while a result is in flight.

    - Replay defences. ReplayLog.v (discovery/replay_log.rs) is the log on disk
      under write failures, ReplaySet.v (discovery/replay.rs) the token set over
      kills and restarts, with a run in which a torn write loses a record.
      RealityProbe.v (transport-reality/probe.rs, replay.rs) is the probe hidden
      in a TLS hello: honest probes pass, none passes twice. SeenNonce.v
      (common/replay_nonce.rs) is the shared set of seen nonces.

    ** Bounds and fuel

    Loops without a structural measure carry fuel, with a theorem that the fuel
    is enough: the scheduler gets the byte cost of its queue
    ([drr_terminates]), the name decoder 385 iterations
    ([decode_name_terminates]), the frame loop of a reader one more than its
    buffered bytes, the chunking of payloads their length, the reader of the
    replay log the length of the file. The allocator of outgoing circuit
    identifiers tries 256 times because the code does.

    Theorems about streams assume what the types give (lengths fit their
    integers) and, where a counter is finite, that it is not used up: 2^64 cells
    per hop, the 31 bits of stream ids of each side of a multiplexed connection,
    2^32 - 1 bytes per direction of a DNS tunnel. What happens beyond the last
    two is a theorem of its own (allocator_reuses_ids_after_wrap in MuxStream.v,
    dnstt_wrap_stalls in DnsLink.v). The steps of a connection driver in
    MuxConn.v are atomic; poll_read copies under the lock of its buffer and then
    grants credit under the lock of the state, which the model makes one step.

    ** Not modelled

    The computations of Noise, ML-KEM and the signatures are in other packages
    and enter by their laws. The refresh, cohort and claim services a bridge runs
    for its clients, cover traffic and the relaying of datagrams are left out.
    The daemons (client, bridge, core, runtime)
    wire sockets, configuration and tasks around the modelled machines. The
    transports other than the DNS tunnel either delegate their protocol to
    packages (quinn, webrtc-rs, smoltcp, HTTP clients) or imitate traffic by
    sampling random distributions in floating point; transport selection scores
    in floating point as well. The rest of discovery and the onion services are
    signed and sealed records around network channels. What a disk loses when
    the power fails is not modelled, only what a process loses when it dies.
    Wiping memory, logging, metrics and
    wakers have no effect on what the operations return and are left out. *)

From stdpp Require Import base numbers list option gmap.
From Stdlib Require Import ZArith Lia.

#[global] Open Scope Z_scope.

Declare Scope mirage_scope.
Delimit Scope mirage_scope with mirage.
#[global] Open Scope mirage_scope.

(** ** Results

    Rust's [Result<A, E>]. The error type comes first so that partial
    application [result E] is the functor. *)
Inductive result (E A : Type) : Type :=
| Ok (a : A)
| Err (e : E).
Arguments Ok {E A} a.
Arguments Err {E A} e.

(** [r.map_err(f)] *)
Definition map_err {E F A} (f : E → F) (r : result E A) : result F A :=
  match r with Ok a => Ok a | Err e => Err (f e) end.

(** [o.ok_or(e)] *)
Definition ok_or {E A} (o : option A) (e : E) : result E A :=
  match o with Some a => Ok a | None => Err e end.

(** The [?] operator on a plain result. *)
Notation "'let?' x := r 'in' k" :=
  (match r with Ok x => k | Err e => Err e end)
  (at level 10, x pattern, r at level 100, k at level 200) : mirage_scope.

#[export] Instance result_eq_dec {E A} `{EqDecision E, EqDecision A} :
  EqDecision (result E A).
Proof. solve_decision. Defined.

(** ** Fallible methods on [&mut self]

    A method [fn m(&mut self, ..) -> Result<A, E>] is a function from the
    state to the state it leaves and its result: the mutations made before an
    early return stay, which is what Rust does and what a plain error monad
    over states would lose. *)
Definition stm (S E A : Type) : Type := S → S * result E A.

Definition st_ret {S E A} (a : A) : stm S E A := λ s, (s, Ok a).
Definition st_err {S E A} (e : E) : stm S E A := λ s, (s, Err e).
Definition st_get {S E} : stm S E S := λ s, (s, Ok s).
Definition st_mod {S E} (f : S → S) : stm S E unit := λ s, (f s, Ok tt).
Definition st_lift {S E A} (r : result E A) : stm S E A := λ s, (s, r).
Definition st_bind {S E A B} (m : stm S E A) (k : A → stm S E B) : stm S E B :=
  λ s, match m s with
       | (s', Ok a) => k a s'
       | (s', Err e) => (s', Err e)
       end.

Notation "x <- m ;; k" := (st_bind m (λ x, k))
  (at level 100, m at next level, right associativity) : mirage_scope.
Notation "' x <- m ;; k" := (st_bind m (λ x, k))
  (at level 100, x strict pattern, m at next level, right associativity) : mirage_scope.
Notation "m ;;; k" := (st_bind m (λ _, k))
  (at level 100, k at level 200, right associativity) : mirage_scope.

(** ** Machine integers

    Unsigned integers of width [w] are values of [Z] in [0 .. 2^w). The
    operations below are the ones of Rust's standard library. *)
Definition u8_max : Z := 255.
Definition u16_max : Z := 65535.
Definition u32_max : Z := 4294967295.
Definition u64_max : Z := 18446744073709551615.

Definition in_u8 (z : Z) : Prop := 0 ≤ z ≤ u8_max.
Definition in_u16 (z : Z) : Prop := 0 ≤ z ≤ u16_max.
Definition in_u32 (z : Z) : Prop := 0 ≤ z ≤ u32_max.
Definition in_u64 (z : Z) : Prop := 0 ≤ z ≤ u64_max.

Definition wrap_u32 (z : Z) : Z := z `mod` (u32_max + 1).
Definition wrapping_add_u32 (a b : Z) : Z := wrap_u32 (a + b).
Definition wrapping_sub_u32 (a b : Z) : Z := wrap_u32 (a - b).
Definition saturating_add_u32 (a b : Z) : Z := Z.min (a + b) u32_max.
Definition saturating_add_u64 (a b : Z) : Z := Z.min (a + b) u64_max.
Definition saturating_sub (a b : Z) : Z := Z.max (a - b) 0.
Definition checked_add_u64 (a b : Z) : option Z :=
  if bool_decide (a + b ≤ u64_max) then Some (a + b) else None.
Definition checked_sub (a b : Z) : option Z :=
  if bool_decide (b ≤ a) then Some (a - b) else None.

(** ** Time

    Instants and durations are nanoseconds. *)
Definition secs (n : Z) : Z := n * 10 ^ 9.

(** [a.duration_since(b)], which saturates at zero. *)
Definition duration_since (a b : Z) : Z := Z.max 0 (a - b).

#[global] Instance in_u8_dec z : Decision (in_u8 z).
Proof. unfold in_u8. apply _. Defined.
#[global] Instance in_u16_dec z : Decision (in_u16 z).
Proof. unfold in_u16. apply _. Defined.
#[global] Instance in_u32_dec z : Decision (in_u32 z).
Proof. unfold in_u32. apply _. Defined.

(** ** Lists *)

(** [xs.len()] as a [usize]. *)
Definition zlen {A} (l : list A) : Z := Z.of_nat (length l).

(** [&l[a..b]] *)
Definition slice {A} (l : list A) (a b : nat) : list A := take (b - a) (drop a l).

Lemma zlen_nil {A} : zlen (@nil A) = 0.
Proof. reflexivity. Qed.
Lemma zlen_cons {A} (x : A) l : zlen (x :: l) = 1 + zlen l.
Proof. unfold zlen. simpl. lia. Qed.
Lemma zlen_app {A} (l k : list A) : zlen (l ++ k) = zlen l + zlen k.
Proof. unfold zlen. rewrite length_app. lia. Qed.
Lemma zlen_nonneg {A} (l : list A) : 0 ≤ zlen l.
Proof. unfold zlen. lia. Qed.
Lemma zlen_zero {A} (l : list A) : zlen l = 0 ↔ l = [].
Proof. unfold zlen. destruct l; simpl; split; intros; [done|done|lia|done]. Qed.
Lemma zlen_take {A} (l : list A) n : zlen (take n l) = Z.min (Z.of_nat n) (zlen l).
Proof. unfold zlen. rewrite length_take. lia. Qed.
Lemma zlen_drop {A} (l : list A) n : zlen (drop n l) = Z.max 0 (zlen l - Z.of_nat n).
Proof. unfold zlen. rewrite length_drop. lia. Qed.

(** ** Results *)
Lemma Ok_inj {E A} (a b : A) : @Ok E A a = Ok b → a = b.
Proof. by injection 1. Qed.

(** ** Finite maps *)
Lemma size_insert_le {K A} `{Countable K} (m : gmap K A) k x :
  (size (<[k:=x]> m) ≤ S (size m))%nat.
Proof. rewrite map_size_insert. destruct (m !! k); cbn; lia. Qed.

Lemma size_filter_le {K A} `{Countable K} (P : K * A → Prop) `{∀ x, Decision (P x)} (m : gmap K A) :
  (size (filter P m) ≤ size m)%nat.
Proof. apply map_subseteq_size, map_filter_subseteq. Qed.

Lemma size_delete_le {K A} `{Countable K} (m : gmap K A) k : (size (delete k m) ≤ size m)%nat.
Proof. apply map_subseteq_size, delete_subseteq. Qed.

(** Removing a list of keys one by one. *)
Lemma lookup_deletes {K A} `{Countable K} (l : list K) (m : gmap K A) k :
  foldl (λ m c, delete c m) m l !! k = if bool_decide (k ∈ l) then None else m !! k.
Proof.
  revert m. induction l as [|c l IH]; intros m; cbn [foldl].
  { rewrite bool_decide_false; [done|apply not_elem_of_nil]. }
  rewrite IH. destruct (decide (k = c)) as [->|Hne].
  - rewrite lookup_delete_eq, (bool_decide_true (c ∈ c :: l)) by left. by case_bool_decide.
  - rewrite lookup_delete_ne by done. erewrite (bool_decide_ext (k ∈ l)); [done|].
    rewrite elem_of_cons. naive_solver.
Qed.

Create HintDb mirage.
Create Rewrite HintDb mirage.
#[export] Hint Rewrite @zlen_nil @zlen_cons @zlen_app @zlen_take @zlen_drop : mirage.
#[export] Hint Resolve zlen_nonneg : mirage.

(** Case analysis on every test of the model that the goal or the hypotheses
    still contain, turning boolean tests into propositions. *)
Ltac case_step :=
  match goal with
  | H : context [bool_decide ?P] |- _ => destruct (bool_decide_reflect P)
  | |- context [bool_decide ?P] => destruct (bool_decide_reflect P)
  | H : context [match ?x with _ => _ end] |- _ =>
      lazymatch x with context [match _ with _ => _ end] => fail | _ => idtac end;
      destruct x eqn:?
  | |- context [match ?x with _ => _ end] =>
      lazymatch x with context [match _ with _ => _ end] => fail | _ => idtac end;
      destruct x eqn:?
  end.
Ltac case_all := repeat (case_step; simplify_eq/=).

(** The same on one hypothesis only. *)
Ltac case_in H :=
  repeat (match type of H with
    | context [bool_decide ?P] => destruct (bool_decide_reflect P)
    | context [match ?x with _ => _ end] =>
        lazymatch x with context [match _ with _ => _ end] => fail | _ => idtac end;
        destruct x eqn:?
    end; simplify_eq/=).

(** Case analysis on the first test of the goal, ignoring the hypotheses. *)
Tactic Notation "goal_decide" "as" simple_intropattern(E) :=
  match goal with
  | |- context [bool_decide ?P] => destruct (bool_decide_reflect P) as [E|E]
  end.

(** Decide a closed proposition by evaluation. *)
Ltac vm_decide := apply (bool_decide_unpack _); vm_compute; exact I.
