(* ===== verification/Bytes.v ===== *)
(** * Bytes and their big-endian codecs

    The byte-level part of Rust's standard library that the wire formats use:
    [u8], [to_be_bytes]/[from_be_bytes] at every width, byte-string equality,
    and [std::str::from_utf8]. Bytes are [Byte.byte], so a byte string needs no
    range side condition. *)

From stdpp Require Import base numbers list countable.
From Stdlib Require Import ZArith Lia Strings.Byte.
From S2P Require Import Prelude.

Abbreviation byte := Byte.byte.

#[global] Instance byte_eq_dec : EqDecision byte := Byte.byte_eq_dec.
#[global] Program Instance byte_countable : Countable byte :=
  inj_countable Byte.to_N Byte.of_N _.
Next Obligation. apply Byte.of_to_N. Qed.

(** ** Single bytes *)

(** The numeric value of a byte. *)
Definition u8 (b : byte) : Z := Z.of_N (Byte.to_N b).

(** [z as u8]: the low eight bits. *)
Definition b8 (z : Z) : byte :=
  match Byte.of_N (Z.to_N (z `mod` 256)) with
  | Some b => b
  | None => x00
  end.

Lemma u8_range b : 0 ≤ u8 b < 256.
Proof. unfold u8. pose proof (Byte.to_N_bounded b). lia. Qed.

Lemma u8_b8 z : u8 (b8 z) = z `mod` 256.
Proof.
  unfold b8, u8. pose proof (Z.mod_pos_bound z 256 ltac:(lia)).
  destruct (Byte.of_N _) eqn:E.
  - apply Byte.to_of_N in E. lia.
  - apply Byte.of_N_None_iff in E. lia.
Qed.

Lemma b8_u8 b : b8 (u8 b) = b.
Proof.
  unfold b8, u8. pose proof (Byte.to_N_bounded b).
  rewrite Z.mod_small by lia. rewrite N2Z.id, Byte.of_to_N. done.
Qed.

Lemma u8_inj a b : u8 a = u8 b → a = b.
Proof. intros H. by rewrite <- (b8_u8 a), <- (b8_u8 b), H. Qed.

Lemma u8_b8_small z : 0 ≤ z < 256 → u8 (b8 z) = z.
Proof. intros. rewrite u8_b8. by apply Z.mod_small. Qed.

(** ** Big-endian integers *)

(** [z.to_be_bytes()] for an [n]-byte integer. *)
Fixpoint be_bytes (n : nat) (z : Z) : list byte :=
  match n with
  | O => []
  | S n' => be_bytes n' (z / 256) ++ [b8 z]
  end.

(** [from_be_bytes] of a byte string of any width. *)
Definition be_val (l : list byte) : Z :=
  foldl (λ acc b, acc * 256 + u8 b) 0 l.

Lemma be_val_snoc l b : be_val (l ++ [b]) = be_val l * 256 + u8 b.
Proof. unfold be_val. by rewrite foldl_app. Qed.

Lemma length_be_bytes n z : length (be_bytes n z) = n.
Proof.
  revert z. induction n as [|n IH]; intros z; simpl; [done|].
  rewrite length_app, IH. simpl. lia.
Qed.

Lemma be_val_be_bytes n z : be_val (be_bytes n z) = z `mod` 256 ^ Z.of_nat n.
Proof.
  revert z. induction n as [|n IH]; intros z; simpl be_bytes.
  - simpl. by rewrite Z.mod_1_r.
  - rewrite be_val_snoc, IH, u8_b8.
    replace (Z.of_nat (S n)) with (Z.succ (Z.of_nat n)) by lia.
    rewrite Z.pow_succ_r by lia.
    rewrite (Z.rem_mul_r z 256 (256 ^ Z.of_nat n)) by lia. lia.
Qed.

Lemma be_val_be_bytes_small n z :
  0 ≤ z < 256 ^ Z.of_nat n → be_val (be_bytes n z) = z.
Proof. intros. rewrite be_val_be_bytes. by apply Z.mod_small. Qed.

Lemma be_bytes_be_val l : be_bytes (length l) (be_val l) = l.
Proof.
  induction l as [|b l IH] using rev_ind; [done|].
  rewrite length_app, be_val_snoc. simpl length. rewrite Nat.add_1_r. simpl.
  pose proof (u8_range b).
  rewrite Z.div_add_l by lia. rewrite (Z.div_small (u8 b)) by lia.
  rewrite Z.add_0_r, IH. f_equal. f_equal.
  apply u8_inj. rewrite u8_b8.
  rewrite Z.add_comm, Z.mod_add by lia. by apply Z.mod_small.
Qed.

Lemma be_val_range l : 0 ≤ be_val l < 256 ^ zlen l.
Proof.
  rewrite <- (be_bytes_be_val l) at 1 2. rewrite be_val_be_bytes.
  apply Z.mod_pos_bound. unfold zlen. lia.
Qed.

Lemma be_val_inj l k : length l = length k → be_val l = be_val k → l = k.
Proof.
  intros Hl Hv. rewrite <- (be_bytes_be_val l), <- (be_bytes_be_val k).
  by rewrite Hl, Hv.
Qed.

Lemma zlen_be_bytes n z : zlen (be_bytes n z) = Z.of_nat n.
Proof. unfold zlen. by rewrite length_be_bytes. Qed.

#[export] Hint Rewrite length_be_bytes zlen_be_bytes : mirage.
Arguments be_bytes : simpl never.
Arguments be_val : simpl never.

(** The value of a two-, four- or eight-byte field is in the range of the
    Rust type it is read into. *)
Lemma be_val_u16 a b : in_u16 (be_val [a; b]).
Proof.
  pose proof (be_val_range [a; b]) as H.
  change (256 ^ zlen [a; b]) with 65536 in H. unfold in_u16, u16_max. lia.
Qed.
Lemma be_val_u32 a b c d : in_u32 (be_val [a; b; c; d]).
Proof.
  pose proof (be_val_range [a; b; c; d]) as H.
  change (256 ^ zlen [a; b; c; d]) with 4294967296 in H. unfold in_u32, u32_max. lia.
Qed.

Lemma be_u16_roundtrip z : in_u16 z → be_val (be_bytes 2 z) = z.
Proof. unfold in_u16, u16_max. intros. apply be_val_be_bytes_small. lia. Qed.
Lemma be_u32_roundtrip z : in_u32 z → be_val (be_bytes 4 z) = z.
Proof. unfold in_u32, u32_max. intros. apply be_val_be_bytes_small. lia. Qed.
Lemma be_u64_roundtrip z : in_u64 z → be_val (be_bytes 8 z) = z.
Proof. unfold in_u64, u64_max. intros. apply be_val_be_bytes_small. lia. Qed.

(** ** Exclusive or *)
Definition bxor (a b : byte) : byte := b8 (Z.lxor (u8 a) (u8 b)).

Lemma u8_lxor_range a b : 0 ≤ Z.lxor (u8 a) (u8 b) < 256.
Proof.
  pose proof (u8_range a). pose proof (u8_range b).
  split; [apply Z.lxor_nonneg; lia|].
  destruct (Z.eq_dec (Z.lxor (u8 a) (u8 b)) 0) as [->|Hn]; [lia|].
  apply Z.log2_lt_cancel. eapply Z.le_lt_trans; [apply Z.log2_lxor; lia|].
  change (Z.log2 256) with 8.
  apply Z.max_lub_lt; (destruct (Z.eq_dec (u8 a) 0), (Z.eq_dec (u8 b) 0);
    try (replace (u8 a) with 0 by lia; simpl; lia);
    try (replace (u8 b) with 0 by lia; simpl; lia));
    apply Z.log2_lt_pow2; lia.
Qed.

Lemma bxor_cancel a k : bxor (bxor a k) k = a.
Proof.
  apply u8_inj. unfold bxor at 1. rewrite u8_b8_small by apply u8_lxor_range.
  unfold bxor. rewrite u8_b8_small by apply u8_lxor_range.
  by rewrite Z.lxor_assoc, Z.lxor_nilpotent, Z.lxor_0_r.
Qed.

(** ** UTF-8

    [std::str::from_utf8] accepts exactly the well-formed sequences of
    Unicode table 3-7: one to four bytes, no overlong form, no surrogate, no
    code point above U+10FFFF. *)
Definition in_range (lo hi : Z) (b : byte) : bool :=
  bool_decide (lo ≤ u8 b ≤ hi).
Definition is_cont (b : byte) : bool := in_range 128 191 b.

Fixpoint utf8_valid (l : list byte) : bool :=
  match l with
  | [] => true
  | b0 :: l0 =>
    if in_range 0 127 b0 then utf8_valid l0
    else if in_range 194 223 b0 then
      match l0 with
      | b1 :: l1 => is_cont b1 && utf8_valid l1
      | _ => false
      end
    else if in_range 224 239 b0 then
      match l0 with
      | b1 :: b2 :: l2 =>
        in_range (if bool_decide (u8 b0 = 224) then 160 else 128)
                 (if bool_decide (u8 b0 = 237) then 159 else 191) b1
        && is_cont b2 && utf8_valid l2
      | _ => false
      end
    else if in_range 240 244 b0 then
      match l0 with
      | b1 :: b2 :: b3 :: l3 =>
        in_range (if bool_decide (u8 b0 = 240) then 144 else 128)
                 (if bool_decide (u8 b0 = 244) then 143 else 191) b1
        && is_cont b2 && is_cont b3 && utf8_valid l3
      | _ => false
      end
    else false
  end.

Lemma ascii_utf8_valid l : Forall (λ b, u8 b ≤ 127) l → utf8_valid l = true.
Proof.
  induction 1 as [|b l Hb Hl IH]; simpl; [done|].
  unfold in_range at 1. rewrite bool_decide_true; [done|].
  pose proof (u8_range b). lia.
Qed.

(** ** Indexing and in-place writes *)

(** [buf[i]], used only where a length check guards the index. *)
Definition at_ (l : list byte) (i : nat) : byte := nth i l x00.

(** [buf[off..off + src.len()].copy_from_slice(src)] *)
Definition splice {A} (buf : list A) (off : nat) (src : list A) : list A :=
  take off buf ++ src ++ drop (off + length src) buf.

Lemma at_app_r (l k : list byte) n : at_ (l ++ k) (length l + n) = at_ k n.
Proof. unfold at_. by rewrite app_nth2_plus. Qed.

Lemma at_app_0 (l k : list byte) : at_ (l ++ k) (length l) = at_ k 0.
Proof. rewrite <- (Nat.add_0_r (length l)). apply at_app_r. Qed.

Lemma splice_app {A} (a l b : list A) n : n = length a →
  splice (a ++ l) n b = a ++ b ++ drop (length b) l.
Proof.
  intros ->. unfold splice. rewrite take_app_length. f_equal. f_equal.
  rewrite drop_app_ge by lia. f_equal. lia.
Qed.

(** A write over a field of the same length. *)
Lemma splice_mid {A} (a mid c src : list A) off :
  off = length a → length mid = length src → splice (a ++ mid ++ c) off src = a ++ src ++ c.
Proof. intros -> Hl. by rewrite splice_app, <- Hl, drop_app_length. Qed.

Lemma splice_head {A} (mid c src : list A) :
  length mid = length src → splice (mid ++ c) 0 src = src ++ c.
Proof. apply (splice_mid [] mid c src 0); done. Qed.

Lemma slice_mid {A} (pre mid post : list A) n m :
  n = length pre → m = (length pre + length mid)%nat → slice (pre ++ mid ++ post) n m = mid.
Proof.
  intros -> ->. unfold slice. rewrite drop_app_length.
  replace (length pre + length mid - length pre)%nat with (length mid) by lia. apply take_app_length.
Qed.

Lemma length_slice {A} (l : list A) n m : (n ≤ m ≤ length l)%nat → length (slice l n m) = (m - n)%nat.
Proof. intros. unfold slice. rewrite length_take, length_drop. lia. Qed.

Lemma be_bytes_2 z : be_bytes 2 z = [b8 (z / 256); b8 z].
Proof. reflexivity. Qed.
Lemma be_bytes_4 z :
  be_bytes 4 z = [b8 (z / 256 / 256 / 256); b8 (z / 256 / 256); b8 (z / 256); b8 z].
Proof. reflexivity. Qed.

(** A list of at least [n] elements starts with [n] of them. *)
Lemma split_at_len {A} (l : list A) (n : nat) :
  Z.of_nat n ≤ zlen l → ∃ h t, l = h ++ t ∧ length h = n.
Proof.
  unfold zlen. intros H. exists (take n l), (drop n l).
  split; [by rewrite take_drop|]. rewrite length_take. lia.
Qed.
