(* ===== verification/Text.v ===== *)
(** * Strings of the Rust standard library

    [str] values are lists of UTF-8 bytes. This file models the string
    functions the sources use (split, join, trim, strip_suffix, ASCII case,
    lossy UTF-8 conversion) and their shared lemmas. *)

From stdpp Require Import base numbers list.
From Stdlib Require Import ZArith Lia Strings.Byte.
From S2P Require Import Prelude Bytes.

Definition DOT : byte := x2e.

(** [str::split(c)] on a one-byte separator. *)
Fixpoint split_on (sep : byte) (l : list byte) : list (list byte) :=
  match l with
  | [] => [[]]
  | b :: l' =>
    if bool_decide (b = sep) then [] :: split_on sep l'
    else match split_on sep l' with
         | h :: t => (b :: h) :: t
         | [] => [[b]]
         end
  end.

(** [slice.join(sep)] *)
Fixpoint join (sep : byte) (ls : list (list byte)) : list byte :=
  match ls with
  | [] => []
  | [l] => l
  | l :: ls => l ++ sep :: join sep ls
  end.

Definition nonempty (l : list byte) : bool := negb (bool_decide (l = [])).

Definition to_ascii_lowercase_byte (b : byte) : byte :=
  if in_range 65 90 b then b8 (u8 b + 32) else b.
Definition to_ascii_lowercase (l : list byte) : list byte := to_ascii_lowercase_byte <$> l.

(** [str::trim_start_matches(c)], [str::trim_end_matches(c)] *)
Fixpoint trim_start (c : byte) (l : list byte) : list byte :=
  match l with
  | b :: l' => if bool_decide (b = c) then trim_start c l' else l
  | [] => []
  end.
Definition trim_end (c : byte) (l : list byte) : list byte := reverse (trim_start c (reverse l)).

(** [str::strip_suffix(suf)] *)
Definition strip_suffix (suf l : list byte) : option (list byte) :=
  let n := (length l - length suf)%nat in
  if bool_decide (drop n l = suf) then Some (take n l) else None.

(** [String::from_utf8_lossy]: every maximal invalid part becomes U+FFFD. *)
Definition REPLACEMENT : list byte := [xef; xbf; xbd].

Fixpoint utf8_lossy (l : list byte) : list byte :=
  match l with
  | [] => []
  | b0 :: l0 =>
    if in_range 0 127 b0 then b0 :: utf8_lossy l0
    else if in_range 194 223 b0 then
      match l0 with
      | b1 :: l1 => if is_cont b1 then b0 :: b1 :: utf8_lossy l1 else REPLACEMENT ++ utf8_lossy l0
      | [] => REPLACEMENT
      end
    else if in_range 224 239 b0 then
      match l0 with
      | b1 :: l1 =>
        if in_range (if bool_decide (u8 b0 = 224) then 160 else 128)
                    (if bool_decide (u8 b0 = 237) then 159 else 191) b1
        then match l1 with
             | b2 :: l2 =>
               if is_cont b2 then b0 :: b1 :: b2 :: utf8_lossy l2
               else REPLACEMENT ++ utf8_lossy l1
             | [] => REPLACEMENT
             end
        else REPLACEMENT ++ utf8_lossy l0
      | [] => REPLACEMENT
      end
    else if in_range 240 244 b0 then
      match l0 with
      | b1 :: l1 =>
        if in_range (if bool_decide (u8 b0 = 240) then 144 else 128)
                    (if bool_decide (u8 b0 = 244) then 143 else 191) b1
        then match l1 with
             | b2 :: l2 =>
               if is_cont b2
               then match l2 with
                    | b3 :: l3 =>
                      if is_cont b3 then b0 :: b1 :: b2 :: b3 :: utf8_lossy l3
                      else REPLACEMENT ++ utf8_lossy l2
                    | [] => REPLACEMENT
                    end
               else REPLACEMENT ++ utf8_lossy l1
             | [] => REPLACEMENT
             end
        else REPLACEMENT ++ utf8_lossy l0
      | [] => REPLACEMENT
      end
    else REPLACEMENT ++ utf8_lossy l0
  end.

(** ** Lemmas *)

Lemma split_on_flat sep l P :
  forallb (forallb P) (split_on sep l) = true →
  Forall (λ b, b = sep ∨ P b = true) l.
Proof.
  induction l as [|b l IH]; simpl; [done|]. case_bool_decide; simpl.
  - intros Hs. constructor; [by left|]. by apply IH.
  - destruct (split_on sep l) as [|h t]; simpl in *.
    + intros H1. constructor; [right; by destruct (P b)|]. by apply IH.
    + intros H1. apply andb_prop in H1 as [H1 H2]. apply andb_prop in H1 as [H1 H3].
      constructor; [by right|]. apply IH. by rewrite H2, H3.
Qed.

Definition ascii (l : list byte) : Prop := Forall (λ b, u8 b ≤ 127) l.

Lemma utf8_lossy_ascii l : ascii l → utf8_lossy l = l.
Proof.
  induction 1 as [|b l Hb Hl IH]; [done|]. cbn [utf8_lossy]. unfold in_range at 1.
  pose proof (u8_range b). rewrite bool_decide_true by lia. by rewrite IH.
Qed.

Lemma split_on_nonnil sep l : split_on sep l ≠ [].
Proof. destruct l as [|b l]; simpl; [done|]. case_bool_decide; [done|]. by destruct (split_on sep l). Qed.

Lemma split_on_none sep l : Forall (λ b, b ≠ sep) l → split_on sep l = [l].
Proof.
  induction 1 as [|b l Hb Hl IH]; simpl; [done|]. by rewrite bool_decide_false, IH.
Qed.

Lemma split_on_app sep l k :
  Forall (λ b, b ≠ sep) l → split_on sep (l ++ sep :: k) = l :: split_on sep k.
Proof.
  induction 1 as [|b l Hb Hl IH]; simpl; [by rewrite bool_decide_true|].
  by rewrite bool_decide_false, IH.
Qed.

Lemma split_on_join sep ls :
  ls ≠ [] → Forall (Forall (λ b, b ≠ sep)) ls → split_on sep (join sep ls) = ls.
Proof.
  intros Hne H. induction H as [|l ls Hl Hls IH]; [done|].
  destruct ls as [|l' ls]; [by apply split_on_none|].
  cbn [join]. rewrite split_on_app by done. f_equal. by apply IH.
Qed.

Lemma join_split_on sep l : join sep (split_on sep l) = l.
Proof.
  induction l as [|b l IH]; [done|]. cbn [split_on]. pose proof (split_on_nonnil sep l).
  case_bool_decide as Hb.
  - destruct (split_on sep l) as [|h t]; [done|]. cbn [join app] in *. by rewrite IH, Hb.
  - destruct (split_on sep l) as [|h [|h' t]]; [done|..]; cbn [join app] in *; by rewrite IH.
Qed.

Lemma split_on_no_sep sep l : Forall (Forall (λ b, b ≠ sep)) (split_on sep l).
Proof.
  induction l as [|b l IH]; simpl; [by repeat constructor|]. case_bool_decide; [by constructor|].
  destruct (split_on sep l) as [|h t]; [by repeat constructor|].
  inversion IH; subst. constructor; [by constructor|done].
Qed.

Lemma trim_start_id c l : head l ≠ Some c → trim_start c l = l.
Proof. destruct l as [|b l]; simpl; [done|]. intros H. rewrite bool_decide_false; congruence. Qed.

Lemma trim_end_id c l : last l ≠ Some c → trim_end c l = l.
Proof.
  intros H. unfold trim_end. rewrite trim_start_id; [apply reverse_involutive|].
  destruct l as [|b l _] using rev_ind; [done|]. rewrite last_snoc in H. by rewrite reverse_snoc.
Qed.

Lemma trim_end_snoc c l : last l ≠ Some c → trim_end c (l ++ [c]) = l.
Proof.
  intros H. unfold trim_end. rewrite reverse_snoc. cbn [trim_start].
  rewrite bool_decide_true by done. by apply trim_end_id.
Qed.

Lemma strip_suffix_app l suf : strip_suffix suf (l ++ suf) = Some l.
Proof.
  unfold strip_suffix. rewrite length_app. replace (length l + length suf - length suf)%nat
    with (length l) by lia.
  rewrite drop_app_length, take_app_length. by rewrite bool_decide_true.
Qed.

Lemma split_on_dotted sep ls k :
  Forall (Forall (λ b, b ≠ sep)) ls →
  split_on sep (concat ((λ l, l ++ [sep]) <$> ls) ++ k) = ls ++ split_on sep k.
Proof.
  induction 1 as [|l ls Hl Hls IH]; [done|]. rewrite fmap_cons. cbn [concat].
  rewrite <- !app_assoc. cbn [app]. by rewrite split_on_app, IH.
Qed.

(** ** Decimal numerals
    [format!("{}", n)] for an unsigned integer. A [u64] has at most 20 decimal
    digits, so 20 rounds of division suffice. *)
Fixpoint decimal_loop (fuel : nat) (n : Z) : list byte :=
  match fuel with
  | O => []
  | S fuel' =>
    if bool_decide (n < 10) then [b8 (48 + n)]
    else decimal_loop fuel' (n / 10) ++ [b8 (48 + n `mod` 10)]
  end.

Definition decimal (n : Z) : list byte := decimal_loop 20 n.
