(* ===== verification/MuxFrame.v ===== *)
(** * The multiplexer's frame wire format (crates/mux/src/frame.rs)

    A frame is [frame_len (u16) | stream_id (u32) | cmd (u8) | body], all
    integers big-endian, [frame_len] counting the seven header bytes. *)

From stdpp Require Import base numbers list.
From Stdlib Require Import ZArith Lia Strings.Byte.
From S2P Require Import Prelude Bytes.

Abbreviation MAX_MUX_FRAME_LEN := 16384 (only parsing).
Abbreviation MUX_HEADER_LEN := (2 + 4 + 1) (only parsing).
Abbreviation MAX_MUX_FRAME_BODY := (MAX_MUX_FRAME_LEN - MUX_HEADER_LEN) (only parsing).

(** ** Commands *)
Inductive MuxCmd : Set :=
| Begin | BeginOk | Data | WindowUpdate | EndLocal | Reset.

#[global] Instance MuxCmd_eq_dec : EqDecision MuxCmd.
Proof. solve_decision. Defined.

(** The discriminants of [#[repr(u8)] enum MuxCmd]: [command as u8]. *)
Definition MuxCmd_to_byte (c : MuxCmd) : byte :=
  match c with
  | Begin => x01 | BeginOk => x02 | Data => x03
  | WindowUpdate => x04 | EndLocal => x05 | Reset => x06
  end.

Inductive MuxFrameError : Set :=
| Truncated (claimed buf_len : Z)
| TooLarge (n : Z)
| TooSmall (n : Z)
| BodyLength
| UnknownCommand (b : byte)
| ReservedStreamId.

#[global] Instance MuxFrameError_eq_dec : EqDecision MuxFrameError.
Proof. solve_decision. Defined.

Definition MuxCmd_from_byte (b : byte) : result MuxFrameError MuxCmd :=
  match b with
  | x01 => Ok Begin
  | x02 => Ok BeginOk
  | x03 => Ok Data
  | x04 => Ok WindowUpdate
  | x05 => Ok EndLocal
  | x06 => Ok Reset
  | _ => Err (UnknownCommand b)
  end.

(** ** Frames *)
Record MuxFrame : Set := mkMuxFrame {
  stream_id : Z;
  command : MuxCmd;
  body : list byte;
}.

#[global] Instance MuxFrame_eq_dec : EqDecision MuxFrame.
Proof. solve_decision. Defined.

Definition MuxFrame_new (sid : Z) (c : MuxCmd) (b : list byte)
  : result MuxFrameError MuxFrame :=
  if bool_decide (sid = 0) then Err ReservedStreamId
  else if bool_decide (MUX_HEADER_LEN + zlen b > MAX_MUX_FRAME_LEN)
  then Err (TooLarge (MUX_HEADER_LEN + zlen b))
  else Ok (mkMuxFrame sid c b).

Definition wire_size (f : MuxFrame) : Z := MUX_HEADER_LEN + zlen (body f).

Definition MuxFrame_encode (f : MuxFrame) : list byte :=
  be_bytes 2 (wire_size f) ++ be_bytes 4 (stream_id f)
    ++ [MuxCmd_to_byte (command f)] ++ body f.

(** The buffer after the call, and the result. *)
Definition MuxFrame_encode_into (f : MuxFrame) (buf : list byte)
  : list byte * result MuxFrameError Z :=
  let total := wire_size f in
  if bool_decide (zlen buf < total) then (buf, Err (Truncated total (zlen buf)))
  else
    let buf := splice buf 0 (be_bytes 2 total) in
    let buf := splice buf 2 (be_bytes 4 (stream_id f)) in
    let buf := splice buf 6 [MuxCmd_to_byte (command f)] in
    let buf := splice buf 7 (body f) in
    (buf, Ok total).

Definition MuxFrame_decode_one (buf : list byte)
  : result MuxFrameError (MuxFrame * Z) :=
  if bool_decide (zlen buf < MUX_HEADER_LEN)
  then Err (Truncated MUX_HEADER_LEN (zlen buf))
  else
    let frame_len := be_val [at_ buf 0; at_ buf 1] in
    if bool_decide (frame_len < MUX_HEADER_LEN) then Err (TooSmall frame_len)
    else if bool_decide (frame_len > MAX_MUX_FRAME_LEN) then Err (TooLarge frame_len)
    else if bool_decide (zlen buf < frame_len)
    then Err (Truncated frame_len (zlen buf))
    else
      let sid := be_val [at_ buf 2; at_ buf 3; at_ buf 4; at_ buf 5] in
      if bool_decide (sid = 0) then Err ReservedStreamId
      else
        let? c := MuxCmd_from_byte (at_ buf 6) in
        let b := slice buf 7 (Z.to_nat frame_len) in
        Ok (mkMuxFrame sid c b, frame_len).

(** ** Well-formed frames

    What [MuxFrame::new] and [decode_one] establish: a non-zero 32-bit id and
    a body that fits. *)
Definition frame_wf (f : MuxFrame) : Prop :=
  0 < stream_id f ≤ u32_max ∧ zlen (body f) ≤ MAX_MUX_FRAME_BODY.

#[global] Instance frame_wf_dec f : Decision (frame_wf f).
Proof. unfold frame_wf. apply _. Defined.

Lemma MuxFrame_new_Ok sid c b f :
  0 ≤ sid ≤ u32_max → MuxFrame_new sid c b = Ok f →
  f = mkMuxFrame sid c b ∧ frame_wf f.
Proof.
  unfold MuxFrame_new, frame_wf.
  intros Hs H. case_all. split; [done|]. simpl. lia.
Qed.

Lemma MuxCmd_roundtrip c : MuxCmd_from_byte (MuxCmd_to_byte c) = Ok c.
Proof. by destruct c. Qed.

Lemma MuxCmd_from_byte_Ok b c : MuxCmd_from_byte b = Ok c → MuxCmd_to_byte c = b.
Proof. destruct b; simpl; intros [= <-]; done. Qed.

Lemma frame_wf_size f :
  frame_wf f → 7 ≤ wire_size f ≤ MAX_MUX_FRAME_LEN ∧ in_u16 (wire_size f).
Proof.
  unfold frame_wf, wire_size, in_u16, u16_max.
  pose proof (zlen_nonneg (body f)). lia.
Qed.

Lemma MuxFrame_encode_cons f :
  MuxFrame_encode f =
    b8 (wire_size f / 256) :: b8 (wire_size f) ::
    b8 (stream_id f / 256 / 256 / 256) :: b8 (stream_id f / 256 / 256) ::
    b8 (stream_id f / 256) :: b8 (stream_id f) ::
    MuxCmd_to_byte (command f) :: body f.
Proof. reflexivity. Qed.

Lemma zlen_MuxFrame_encode f : zlen (MuxFrame_encode f) = wire_size f.
Proof.
  rewrite MuxFrame_encode_cons. autorewrite with mirage.
  unfold wire_size. lia.
Qed.

(** The decoder on a buffer that starts with the header of a frame: which of
    the length checks decides, whatever follows the header. *)
Lemma MuxFrame_decode_header f tail :
  frame_wf f →
  MuxFrame_decode_one (take 7 (MuxFrame_encode f) ++ tail) =
    if bool_decide (zlen tail < zlen (body f))
    then Err (Truncated (wire_size f) (MUX_HEADER_LEN + zlen tail))
    else Ok (mkMuxFrame (stream_id f) (command f)
               (take (Z.to_nat (zlen (body f))) tail), wire_size f).
Proof.
  intros Hwf. pose proof (frame_wf_size f Hwf) as [Hsz H16].
  destruct Hwf as [Hid Hb]. pose proof (zlen_nonneg tail).
  rewrite MuxFrame_encode_cons. unfold MuxFrame_decode_one.
  cbn [take app at_ nth]. rewrite take_0, !zlen_cons. cbn [app].
  rewrite (bool_decide_false (_ < MUX_HEADER_LEN)) by lia.
  rewrite <- be_bytes_2, <- be_bytes_4, (be_u16_roundtrip _ H16).
  rewrite be_u32_roundtrip by (unfold in_u32; lia).
  rewrite (bool_decide_false (wire_size f < MUX_HEADER_LEN))
    by lia.
  rewrite (bool_decide_false (wire_size f > _)) by lia.
  rewrite (bool_decide_false (stream_id f = 0)) by lia.
  rewrite MuxCmd_roundtrip. unfold slice. cbn [drop]. rewrite ?drop_0.
  replace (Z.to_nat (wire_size f) - 7)%nat with (Z.to_nat (zlen (body f)))
    by (unfold wire_size in *; lia).
  replace (1 + (1 + (1 + (1 + (1 + (1 + (1 + zlen tail)))))))
    with (MUX_HEADER_LEN + zlen tail) by lia.
  rewrite (bool_decide_ext (_ < wire_size f) (zlen tail < zlen (body f)));
    [done|unfold wire_size; lia].
Qed.

(** ** Round trips *)

Lemma MuxFrame_decode_encode f rest :
  frame_wf f →
  MuxFrame_decode_one (MuxFrame_encode f ++ rest) = Ok (f, zlen (MuxFrame_encode f)).
Proof.
  intros Hwf.
  change (MuxFrame_encode f) with (take 7 (MuxFrame_encode f) ++ body f) at 1.
  rewrite <- app_assoc, MuxFrame_decode_header by done.
  rewrite zlen_MuxFrame_encode, bool_decide_false
    by (rewrite zlen_app; pose proof (zlen_nonneg rest); lia).
  unfold zlen. rewrite Nat2Z.id, take_app_length. by destruct f.
Qed.

(** A well-formed frame survives encoding and decoding whatever follows it
    in the receive buffer: the decoder returns exactly that frame and the
    number of bytes to drain, so back-to-back frames are split correctly. *)
Theorem mux_frame_roundtrip f rest :
  frame_wf f →
  MuxFrame_decode_one (MuxFrame_encode f ++ rest) = Ok (f, zlen (MuxFrame_encode f)).
Proof. apply MuxFrame_decode_encode. Qed.

Lemma mux_frame_roundtrip_witness :
  frame_wf (mkMuxFrame 42 Data [x68; x69]) ∧
  MuxFrame_decode_one (MuxFrame_encode (mkMuxFrame 42 Data [x68; x69]) ++ [xff])
    = Ok (mkMuxFrame 42 Data [x68; x69], 9).
Proof.
  split; [vm_decide|].
  apply (mux_frame_roundtrip (mkMuxFrame 42 Data [x68; x69]) [xff]). vm_decide.
Defined.

(** The wire form is canonical. Whatever bytes the decoder accepts, the
    frame it returns is well formed and re-encodes to exactly the bytes
    consumed, at least a header and never more than the buffer holds. *)
Theorem mux_frame_canonical buf f n :
  MuxFrame_decode_one buf = Ok (f, n) →
  frame_wf f ∧ MUX_HEADER_LEN ≤ n ≤ zlen buf ∧
  take (Z.to_nat n) buf = MuxFrame_encode f.
Proof.
  unfold MuxFrame_decode_one. intros H.
  destruct (bool_decide_reflect (zlen buf < MUX_HEADER_LEN)) as [|Hl]; [done|].
  do 7 (destruct buf as [|?b buf]; [exfalso; apply Hl; vm_decide|]).
  cbn [at_ nth] in H.
  destruct (MuxCmd_from_byte b5) as [c|] eqn:Hc; [|by case_all]. case_all.
  pose proof (be_val_u16 b b0) as H16. pose proof (be_val_u32 b1 b2 b3 b4) as H32.
  rewrite !zlen_cons in *.
  set (n := be_val [b; b0]) in *. unfold slice. cbn [drop]. rewrite ?drop_0.
  assert (Hbody : zlen (take (Z.to_nat n - 7) buf) = n - 7)
    by (rewrite zlen_take; lia).
  assert (Hw : wire_size (mkMuxFrame (be_val [b1; b2; b3; b4]) c
                 (take (Z.to_nat n - 7) buf)) = n)
    by (unfold wire_size; cbn [body]; lia).
  split; [|split; [lia|]].
  - unfold frame_wf.
    unfold in_u32 in H32. cbn [stream_id body]. lia.
  - unfold MuxFrame_encode. rewrite Hw. cbn [stream_id command body].
    change (be_bytes 2 n) with (be_bytes (length [b; b0]) (be_val [b; b0])).
    change 4%nat with (length [b1; b2; b3; b4]). rewrite !be_bytes_be_val.
    rewrite (MuxCmd_from_byte_Ok _ _ Hc).
    replace (Z.to_nat n) with (7 + (Z.to_nat n - 7))%nat at 1 by lia. done.
Qed.

Lemma mux_frame_canonical_witness :
  let buf := [x00; x08; x00; x00; x00; x05; x06; x02; xaa] in
  MuxFrame_decode_one buf = Ok (mkMuxFrame 5 Reset [x02], 8) ∧
  take 8 buf = MuxFrame_encode (mkMuxFrame 5 Reset [x02]).
Proof.
  split; [reflexivity|].
  refine (proj2 (proj2 (mux_frame_canonical _ _ 8 _))). reflexivity.
Defined.

(** An incomplete frame is never mistaken for a malformed one. On every
    strict prefix of a frame's encoding the decoder reports [Truncated], the
    one error on which the connection's reader waits for more bytes instead of
    tearing the connection down. *)
Theorem mux_frame_prefix_truncated f k :
  frame_wf f → (k < length (MuxFrame_encode f))%nat →
  ∃ claimed, MuxFrame_decode_one (take k (MuxFrame_encode f))
               = Err (Truncated claimed (Z.of_nat k)) ∧ Z.of_nat k < claimed.
Proof.
  intros Hwf Hk. pose proof (zlen_MuxFrame_encode f) as Hlen. unfold zlen in Hlen.
  destruct (decide (k < 7)%nat) as [Hk7|Hk7].
  - exists MUX_HEADER_LEN. unfold MuxFrame_decode_one.
    rewrite zlen_take. unfold zlen.
    rewrite bool_decide_true by lia.
    split; [do 2 f_equal; lia|lia].
  - exists (wire_size f).
    replace (take k (MuxFrame_encode f))
      with (take 7 (MuxFrame_encode f) ++ take (k - 7) (body f))
      by (replace k with (7 + (k - 7))%nat at 2 by lia; done).
    rewrite MuxFrame_decode_header by done.
    rewrite zlen_take. unfold wire_size in *.
    rewrite bool_decide_true by (unfold zlen in *; lia).
    split; [do 2 f_equal; unfold zlen in *; lia|lia].
Qed.

Lemma mux_frame_prefix_truncated_witness :
  frame_wf (mkMuxFrame 1 Data [x61; x62; x63]) ∧
  ∃ claimed, MuxFrame_decode_one
      (take 8 (MuxFrame_encode (mkMuxFrame 1 Data [x61; x62; x63])))
    = Err (Truncated claimed 8) ∧ 8 < claimed.
Proof.
  split; [vm_decide|].
  apply (mux_frame_prefix_truncated (mkMuxFrame 1 Data [x61; x62; x63]) 8);
    [vm_decide|simpl; lia].
Defined.

(** ** [encode_into] *)
(** One [copy_from_slice] right after a prefix already written. *)
Lemma splice_next {A} (pre src buf : list A) off :
  off = length pre → (length pre + length src ≤ length buf)%nat →
  splice (pre ++ drop (length pre) buf) off src
    = (pre ++ src) ++ drop (length (pre ++ src)) buf.
Proof.
  intros -> ?. unfold splice.
  rewrite take_app_length, <- drop_drop, drop_app_length, drop_drop.
  by rewrite length_app, app_assoc.
Qed.

(** [encode_into] is [encode] performed in place: on a buffer that is large
    enough it writes exactly the encoding over the front and leaves the rest
    of the buffer alone, and on a smaller one it changes nothing. *)
Theorem mux_encode_into_spec f buf :
  MuxFrame_encode_into f buf =
    if bool_decide (zlen buf < wire_size f)
    then (buf, Err (Truncated (wire_size f) (zlen buf)))
    else (MuxFrame_encode f ++ drop (length (MuxFrame_encode f)) buf,
          Ok (wire_size f)).
Proof.
  unfold MuxFrame_encode_into. case_bool_decide as Hlen; [done|]. f_equal.
  pose proof (zlen_MuxFrame_encode f) as He.
  assert (Hl : (length (MuxFrame_encode f) ≤ length buf)%nat) by (unfold zlen in *; lia).
  unfold MuxFrame_encode in Hl |- *.
  set (p1 := be_bytes 2 (wire_size f)) in *. set (p2 := be_bytes 4 (stream_id f)) in *.
  set (p3 := [MuxCmd_to_byte (command f)]) in *.
  assert (length p1 = 2%nat ∧ length p2 = 4%nat ∧ length p3 = 1%nat) as (H1 & H2 & H3)
    by (unfold p1, p2; by rewrite !length_be_bytes).
  rewrite !length_app in Hl.
  change buf with ([] ++ drop (length (@nil byte)) buf) at 1.
  rewrite (splice_next [] p1), (splice_next ([] ++ p1) p2),
    (splice_next (([] ++ p1) ++ p2) p3), (splice_next ((([] ++ p1) ++ p2) ++ p3));
    rewrite ?length_app; simpl; try lia.
  done.
Qed.
