(* ===== verification/MuxTarget.v ===== *)
(** * Stream targets (crates/mux/src/target.rs)

    The SOCKS5-style destination in the body of a [Begin] frame: its wire
    codec, the hostname validator and the canonical-address rule. A Rust
    [String] is the list of its UTF-8 bytes. *)

From stdpp Require Import base numbers list strings.
From Stdlib Require Import ZArith Lia Strings.Byte.
From S2P Require Import Prelude Bytes Text.

Inductive TargetError : Set :=
| Wire (msg : string)
| DomainLength (n : Z)
| DomainEncoding
| DomainNotLdh
| ZeroPort
| Ipv4MappedIpv6.

#[global] Instance TargetError_eq_dec : EqDecision TargetError.
Proof. solve_decision. Defined.

Inductive MuxTarget : Set :=
| Ipv4 (addr : list byte) (port : Z)
| Ipv6 (addr : list byte) (port : Z)
| Domain (domain : list byte) (port : Z).

#[global] Instance MuxTarget_eq_dec : EqDecision MuxTarget.
Proof. solve_decision. Defined.

Definition target_port (t : MuxTarget) : Z :=
  match t with Ipv4 _ p | Ipv6 _ p | Domain _ p => p end.

(** ** Validators *)

Definition is_ipv4_mapped (addr : list byte) : bool :=
  bool_decide (take 10 addr = replicate 10 x00)
  && bool_decide (at_ addr 10 = xff) && bool_decide (at_ addr 11 = xff).

Definition starts_with (c : byte) (l : list byte) : bool :=
  bool_decide (head l = Some c).
Definition ends_with (c : byte) (l : list byte) : bool :=
  bool_decide (last l = Some c).

Definition HYPHEN : byte := x2d.

Definition is_ascii_alphanumeric (b : byte) : bool :=
  in_range 48 57 b || in_range 65 90 b || in_range 97 122 b.

(** The body of the loop over the labels: [false] is its early return. *)
Definition label_ok (label : list byte) : bool :=
  negb (bool_decide (label = []) || bool_decide (zlen label > 63))
  && negb (starts_with HYPHEN label || ends_with HYPHEN label)
  && forallb (λ b, is_ascii_alphanumeric b || bool_decide (b = HYPHEN)) label.

Definition is_ldh_hostname (host : list byte) : bool :=
  if bool_decide (host = []) || bool_decide (zlen host > 253) then false
  else if starts_with DOT host || ends_with DOT host then false
  else forallb label_ok (split_on DOT host).

(** ** Codec *)

Definition MuxTarget_encode (t : MuxTarget) : result TargetError (list byte) :=
  if bool_decide (target_port t = 0) then Err ZeroPort
  else match t with
  | Ipv4 addr port => Ok ([x01] ++ addr ++ be_bytes 2 port)
  | Domain domain port =>
    if bool_decide (domain = []) || bool_decide (zlen domain > 253)
    then Err (DomainLength (zlen domain))
    else if negb (is_ldh_hostname domain) then Err DomainNotLdh
    else Ok ([x03] ++ [b8 (zlen domain)] ++ domain ++ be_bytes 2 port)
  | Ipv6 addr port =>
    if is_ipv4_mapped addr then Err Ipv4MappedIpv6
    else Ok ([x04] ++ addr ++ be_bytes 2 port)
  end.

(** The closure [port_at]. *)
Definition port_at (buf : list byte) (port_off : nat) : result TargetError Z :=
  if bool_decide (zlen buf < Z.of_nat port_off + 2) then Err (Wire "truncated at port")
  else
    let port := be_val [at_ buf port_off; at_ buf (port_off + 1)] in
    if bool_decide (port = 0) then Err ZeroPort
    else if bool_decide (zlen buf ≠ Z.of_nat port_off + 2)
    then Err (Wire "trailing bytes after port")
    else Ok port.

Definition MuxTarget_decode (buf : list byte) : result TargetError MuxTarget :=
  if bool_decide (buf = []) then Err (Wire "empty")
  else match at_ buf 0 with
  | x01 =>
    if bool_decide (zlen buf < 1 + 4 + 2) then Err (Wire "ipv4 truncated")
    else
      let addr := slice buf 1 5 in
      let? port := port_at buf 5 in
      Ok (Ipv4 addr port)
  | x03 =>
    if bool_decide (zlen buf < 2) then Err (Wire "domain truncated at len")
    else
      let dlen := u8 (at_ buf 1) in
      if bool_decide (dlen = 0) || bool_decide (dlen > 253) then Err (DomainLength dlen)
      else if bool_decide (zlen buf < 2 + dlen + 2) then Err (Wire "domain truncated")
      else
        let domain := slice buf 2 (2 + Z.to_nat dlen) in
        if negb (utf8_valid domain) then Err DomainEncoding
        else if negb (is_ldh_hostname domain) then Err DomainNotLdh
        else
          let? port := port_at buf (2 + Z.to_nat dlen) in
          Ok (Domain domain port)
  | x04 =>
    if bool_decide (zlen buf < 1 + 16 + 2) then Err (Wire "ipv6 truncated")
    else
      let addr := slice buf 1 17 in
      if is_ipv4_mapped addr then Err Ipv4MappedIpv6
      else
        let? port := port_at buf 17 in
        Ok (Ipv6 addr port)
  | other =>
    Err (Wire (if bool_decide (other = x02) then "atyp 0x02 reserved (legacy)"
               else "unknown atyp"))
  end.

(** ** Values the Rust types allow *)
Definition target_typed (t : MuxTarget) : Prop :=
  in_u16 (target_port t) ∧
  match t with
  | Ipv4 addr _ => length addr = 4%nat
  | Ipv6 addr _ => length addr = 16%nat
  | Domain domain _ => utf8_valid domain = true
  end.

#[global] Instance target_typed_dec t : Decision (target_typed t).
Proof. unfold target_typed. destruct t; apply _. Defined.

(** ** Lemmas *)

(** An accepted hostname consists of letters, digits, hyphens and dots. *)
Definition ldh_byte (b : byte) : Prop :=
  b = DOT ∨ (is_ascii_alphanumeric b || bool_decide (b = HYPHEN)) = true.

Lemma is_ldh_hostname_bytes host : is_ldh_hostname host = true → Forall ldh_byte host.
Proof.
  unfold is_ldh_hostname. intros H. case_all.
  apply split_on_flat. rewrite forallb_forall in H |- *.
  intros x Hx. specialize (H x Hx). unfold label_ok in H.
  by apply andb_prop in H as [_ H].
Qed.

Lemma ldh_byte_ascii b : ldh_byte b → u8 b ≤ 127.
Proof.
  intros [->|H]; [vm_decide|]. apply orb_prop in H as [H|H].
  - unfold is_ascii_alphanumeric, in_range in H.
    repeat (apply orb_prop in H as [H|H]); apply bool_decide_eq_true in H; lia.
  - apply bool_decide_eq_true in H as ->. vm_decide.
Qed.

Lemma ldh_utf8_valid host : is_ldh_hostname host = true → utf8_valid host = true.
Proof.
  intros H. apply ascii_utf8_valid. eapply Forall_impl; [by apply is_ldh_hostname_bytes|].
  apply ldh_byte_ascii.
Qed.

Lemma zlen_addr pre port : zlen (pre ++ be_bytes 2 port) = Z.of_nat (length pre) + 2.
Proof. unfold zlen. rewrite length_app, length_be_bytes. lia. Qed.

Lemma port_at_app pre port :
  in_u16 port → port ≠ 0 →
  port_at (pre ++ be_bytes 2 port) (length pre) = Ok port.
Proof.
  intros H16 Hnz. unfold port_at. rewrite at_app_r, at_app_0.
  assert (Hl : zlen (pre ++ be_bytes 2 port) = Z.of_nat (length pre) + 2)
    by apply zlen_addr.
  rewrite Hl, bool_decide_false by lia.
  change (be_val [at_ (be_bytes 2 port) 0; at_ (be_bytes 2 port) 1])
    with (be_val (be_bytes 2 port)).
  rewrite be_u16_roundtrip by done. rewrite bool_decide_false by done.
  by rewrite bool_decide_false by auto.
Qed.

Lemma port_at_Ok buf off port :
  port_at buf off = Ok port →
  in_u16 port ∧ port ≠ 0 ∧ ∃ pre, length pre = off ∧ buf = pre ++ be_bytes 2 port.
Proof.
  unfold port_at. intros H. case_all.
  split; [apply be_val_u16|]. split; [done|].
  destruct (split_at_len buf off) as (pre & t & -> & <-); [lia|].
  exists pre. split; [done|]. f_equal. rewrite at_app_r, at_app_0.
  destruct t as [|a [|b [|? t]]]; autorewrite with mirage in *;
    unfold zlen in *; try lia.
  symmetry. apply (be_bytes_be_val [a; b]).
Qed.

(** ** Round trips *)

(** Whatever the encoder emits, the decoder maps back to the same target;
    in particular the encoder never emits bytes the peer would refuse. *)
Theorem mux_target_roundtrip t bs :
  target_typed t → MuxTarget_encode t = Ok bs → MuxTarget_decode bs = Ok t.
Proof.
  intros [Hp Ht] He. unfold MuxTarget_encode in He.
  destruct t as [addr port|addr port|domain port]; cbn [target_port] in *; case_in He;
    unfold MuxTarget_decode; rewrite (bool_decide_false (_ = [])) by done.
  - cbn [at_ nth app].
    rewrite app_comm_cons, bool_decide_false by (rewrite zlen_addr; simpl; lia).
    replace 5%nat with (length (x01 :: addr)) by (simpl; lia).
    rewrite port_at_app by done. unfold slice. cbn [app drop].
    by rewrite drop_0, take_app_length' by (simpl; lia).
  - cbn [at_ nth app].
    rewrite app_comm_cons, bool_decide_false by (rewrite zlen_addr; simpl; lia).
    replace 17%nat with (length (x04 :: addr)) by (simpl; lia).
    rewrite port_at_app by done. unfold slice. cbn [app drop].
    rewrite drop_0, take_app_length' by (simpl; lia).
    by destruct (is_ipv4_mapped addr).
  - pose proof (zlen_nonneg domain) as Hnn.
    assert (Hd : u8 (b8 (zlen domain)) = zlen domain) by (apply u8_b8_small; lia).
    assert (Hnz : zlen domain ≠ 0) by (by rewrite zlen_zero).
    cbn [at_ nth app]. rewrite Hd.
    rewrite !app_comm_cons, bool_decide_false by (rewrite zlen_addr; simpl; lia).
    rewrite (bool_decide_false (zlen domain = 0)), (bool_decide_false (zlen domain > 253))
      by lia.
    rewrite bool_decide_false by (rewrite zlen_addr; unfold zlen; simpl; lia).
    unfold slice. cbn [app drop].
    rewrite drop_0, take_app_length' by (unfold zlen; lia). rewrite Ht.
    destruct (is_ldh_hostname domain) eqn:Hldh; [|done]. cbn [negb orb].
    rewrite !app_comm_cons.
    replace (2 + Z.to_nat (zlen domain))%nat
      with (length (x03 :: b8 (zlen domain) :: domain)) by (unfold zlen; simpl; lia).
    by rewrite port_at_app by done.
Qed.

Lemma mux_target_roundtrip_witness :
  let t := Domain [x65; x78; x2e; x63; x6f] 443 in
  let bs := [x03; x05; x65; x78; x2e; x63; x6f; x01; xbb] in
  target_typed t ∧ MuxTarget_encode t = Ok bs ∧ MuxTarget_decode bs = Ok t.
Proof.
  split; [vm_decide|]. split; [vm_compute; reflexivity|].
  apply mux_target_roundtrip; [vm_decide|vm_compute; reflexivity].
Defined.

Lemma MuxTarget_decode_Ok bs t :
  MuxTarget_decode bs = Ok t → target_typed t ∧ MuxTarget_encode t = Ok bs.
Proof.
  unfold MuxTarget_decode. intros H.
  destruct bs as [|tag bs]; [done|]. cbn [at_ nth] in H.
  rewrite bool_decide_false in H by done.
  destruct tag; try discriminate H.
  - destruct (bool_decide_reflect (zlen (x01 :: bs) < 1 + 4 + 2)); [done|].
    destruct (port_at _ _) as [port|] eqn:Hp; simplify_eq/=.
    apply port_at_Ok in Hp as (H16 & Hnz & [|p pre] & Hpre & Hbs); simplify_eq/=.
    unfold slice. cbn [drop]. rewrite drop_0, take_app_length' by (simpl; lia).
    split; [split; [done|simpl; lia]|].
    unfold MuxTarget_encode. by rewrite bool_decide_false by done.
  - destruct (bool_decide_reflect (zlen (x03 :: bs) < 2)); [done|].
    destruct bs as [|dl bs]; [done|]. cbn [at_ nth] in H.
    pose proof (u8_range dl).
    destruct (bool_decide_reflect (u8 dl = 0)); [done|].
    destruct (bool_decide_reflect (u8 dl > 253)); [done|]. cbn [orb] in H.
    case_bool_decide; [done|].
    destruct (utf8_valid _) eqn:Hu; [|done].
    destruct (is_ldh_hostname _) eqn:Hldh; [|done]. cbn [negb] in H.
    destruct (port_at _ _) as [port|] eqn:Hp; simplify_eq/=.
    apply port_at_Ok in Hp as (H16 & Hnz & [|p [|p' pre]] & Hpre & Hbs); simplify_eq/=.
    unfold slice in *. cbn [drop] in *.
    rewrite drop_0, take_app_length' in * by lia.
    assert (Hz : zlen pre = u8 p') by (unfold zlen; lia).
    split; [by split|].
    unfold MuxTarget_encode. cbn [target_port].
    rewrite bool_decide_false by done. rewrite Hz, Hldh, b8_u8.
    rewrite (bool_decide_false (pre = [])) by (intros ->; done).
    by rewrite bool_decide_false by done.
  - destruct (bool_decide_reflect (zlen (x04 :: bs) < 1 + 16 + 2)); [done|].
    destruct (is_ipv4_mapped _) eqn:Hm; [done|].
    destruct (port_at _ _) as [port|] eqn:Hp; simplify_eq/=.
    apply port_at_Ok in Hp as (H16 & Hnz & [|p pre] & Hpre & Hbs); simplify_eq/=.
    unfold slice in *. cbn [drop] in *.
    rewrite drop_0, take_app_length' in * by (simpl; lia).
    split; [split; [done|simpl; lia]|].
    unfold MuxTarget_encode. rewrite bool_decide_false by done. by rewrite Hm.
Qed.

(** One target has one wire form. Every accepted byte string is exactly
    the encoding of the target it decodes to: no trailing bytes, no port 0, no
    IPv4-mapped IPv6 address and no hostname outside the letter-digit-hyphen
    grammar gets through, and the decoded value is a legal one. *)
Theorem mux_target_canonical bs t :
  MuxTarget_decode bs = Ok t → target_typed t ∧ MuxTarget_encode t = Ok bs.
Proof. apply MuxTarget_decode_Ok. Qed.

Lemma mux_target_canonical_witness :
  let bs := [x01; x7f; x00; x00; x01; x00; x50] in
  MuxTarget_decode bs = Ok (Ipv4 [x7f; x00; x00; x01] 80) ∧
  MuxTarget_encode (Ipv4 [x7f; x00; x00; x01] 80) = Ok bs.
Proof.
  split; [vm_compute; reflexivity|].
  apply (mux_target_canonical _ (Ipv4 [x7f; x00; x00; x01] 80)).
  vm_compute; reflexivity.
Defined.
