(* ===== verification/MuxStream.v ===== *)
(** * Stream identifiers and connection policy
      (crates/mux/src/stream.rs, crates/mux/src/policy.rs) *)

From stdpp Require Import base numbers list.
From Stdlib Require Import ZArith Lia.
From S2P Require Import Prelude.

(** ** Roles and identifiers *)
Inductive StreamRole : Set := Initiator | Responder.

#[global] Instance StreamRole_eq_dec : EqDecision StreamRole.
Proof. solve_decision. Defined.

(** [StreamId::new]: the raw id, refused when zero. *)
Abbreviation StreamId_new id := (if bool_decide (id = 0) then None else Some id) (only parsing).

Abbreviation is_initiator id := (bool_decide (id `mod` 2 = 0)) (only parsing).
Abbreviation is_responder id := (bool_decide (id `mod` 2 = 1)) (only parsing).

(** The ids a role allocates. *)
Definition role_owns (r : StreamRole) (id : Z) : bool :=
  match r with Initiator => is_initiator id | Responder => is_responder id end.

Definition opposite_role (r : StreamRole) : StreamRole :=
  match r with Initiator => Responder | Responder => Initiator end.

(** ** The allocator *)
Record StreamIdAllocator : Set := mkAllocator {
  alloc_role : StreamRole;
  next : Z;
}.

Definition StreamIdAllocator_new (role : StreamRole) : StreamIdAllocator :=
  mkAllocator role (match role with Initiator => 2 | Responder => 1 end).

(** [fetch_add(2)] returns the old value and wraps around; the parity test
    follows. *)
Definition StreamIdAllocator_next (a : StreamIdAllocator)
  : StreamIdAllocator * option Z :=
  let id := next a in
  let a' := mkAllocator (alloc_role a) (wrapping_add_u32 id 2) in
  let ok := match alloc_role a with
            | Initiator => bool_decide (id `mod` 2 = 0) && bool_decide (id ≠ 0)
            | Responder => bool_decide (id `mod` 2 = 1)
            end in
  if negb ok then (a', None) else (a', StreamId_new id).

(** [n] calls in a row. *)
Fixpoint alloc_many (n : nat) (a : StreamIdAllocator)
  : StreamIdAllocator * list (option Z) :=
  match n with
  | O => (a, [])
  | S n' =>
    let '(a1, id) := StreamIdAllocator_next a in
    let '(a2, ids) := alloc_many n' a1 in
    (a2, id :: ids)
  end.

(** ** Policy *)
Record MuxPolicy : Set := mkMuxPolicy {
  initial_window : Z;
  max_concurrent_streams : Z;
  stream_idle_timeout : Z;          (** milliseconds *)
  max_pending_outbound : Z;
  drr_quantum_bytes : Z;
}.

Abbreviation MuxPolicy_default := (mkMuxPolicy 65536 256 120000 1024 4096) (only parsing).

(** The ranges of the fields' Rust types. *)
Definition policy_typed (p : MuxPolicy) : Prop :=
  in_u32 (initial_window p) ∧ in_u32 (max_concurrent_streams p) ∧
  0 ≤ max_pending_outbound p ∧ 0 ≤ drr_quantum_bytes p.

#[global] Instance policy_typed_dec p : Decision (policy_typed p).
Proof. unfold policy_typed. apply _. Defined.

(** ** Allocator lemmas *)

Definition alloc_wf (a : StreamIdAllocator) : Prop :=
  in_u32 (next a) ∧ role_owns (alloc_role a) (next a) = true.

Lemma alloc_new_wf r : alloc_wf (StreamIdAllocator_new r).
Proof. destruct r; split; vm_decide. Qed.

Lemma role_owns_mod r id :
  role_owns r id = true ↔ id `mod` 2 = match r with Initiator => 0 | Responder => 1 end.
Proof. by destruct r; apply bool_decide_eq_true. Qed.

Lemma role_owns_opposite r id : role_owns (opposite_role r) id = negb (role_owns r id).
Proof.
  pose proof (Z.mod_pos_bound id 2 ltac:(lia)).
  destruct r; simpl; repeat case_bool_decide;
    simpl; try done; lia.
Qed.

Lemma wrapping_add_2_mod2 z : in_u32 z → wrapping_add_u32 z 2 `mod` 2 = z `mod` 2.
Proof.
  unfold in_u32, u32_max, wrapping_add_u32, wrap_u32, u32_max. intros.
  destruct (decide (z + 2 < 4294967296)).
  - rewrite (Z.mod_small (z + 2)) by lia.
    replace (z + 2) with (z + 1 * 2) by lia. by rewrite Z.mod_add by lia.
  - replace ((z + 2) `mod` (4294967295 + 1)) with (z + 2 - 4294967296).
    + replace (z + 2 - 4294967296) with (z + (-2147483647) * 2) by lia.
      by rewrite Z.mod_add by lia.
    + apply (Z.mod_unique _ _ 1); lia.
Qed.

(** The step adds two and wraps at [2^32], an even number, so the parity the
    allocator checks never changes: what is handed out is decided by the
    counter alone. *)
Lemma alloc_next_spec a :
  alloc_wf a →
  alloc_wf (StreamIdAllocator_next a).1 ∧
  alloc_role (StreamIdAllocator_next a).1 = alloc_role a ∧
  next (StreamIdAllocator_next a).1 = wrapping_add_u32 (next a) 2 ∧
  (StreamIdAllocator_next a).2 = if bool_decide (next a = 0) then None else Some (next a).
Proof.
  intros [Hu Hr]. pose proof Hr as Hm. apply role_owns_mod in Hm.
  assert (alloc_wf (mkAllocator (alloc_role a) (wrapping_add_u32 (next a) 2))) as Hwf.
  { split; simpl.
    - unfold wrapping_add_u32, wrap_u32, in_u32.
      pose proof (Z.mod_pos_bound (next a + 2) (u32_max + 1) ltac:(vm_decide)). lia.
    - apply role_owns_mod. by rewrite wrapping_add_2_mod2. }
  unfold StreamIdAllocator_next.
  destruct (alloc_role a) eqn:Ea; rewrite Hm.
  - rewrite (bool_decide_true (0 = 0)) by done.
    destruct (decide (next a = 0)) as [E|E].
    + rewrite (bool_decide_false (next a ≠ 0)) by auto.
      by rewrite (bool_decide_true (next a = 0)).
    + rewrite (bool_decide_true (next a ≠ 0)) by auto.
      by rewrite (bool_decide_false (next a = 0)).
  - by rewrite (bool_decide_true (1 = 1)).
Qed.

Lemma alloc_many_spec n a :
  alloc_wf a → 0 < next a → next a + 2 * Z.of_nat n ≤ u32_max + 1 →
  (alloc_many n a).2 = (λ i, Some (next a + 2 * Z.of_nat i)) <$> seq 0 n.
Proof.
  revert a. induction n as [|n IH]; intros a Hwf Hpos Hle; [done|].
  simpl. pose proof (alloc_next_spec a Hwf) as (Hwf' & Hr & Hn & Ho).
  destruct (StreamIdAllocator_next a) as [a1 id]. simpl in *.
  rewrite bool_decide_false in Ho by lia. subst id.
  destruct (decide (n = 0%nat)) as [->|Hn0]; [simpl; f_equal; f_equal; lia|].
  assert (next a1 = next a + 2) as Hn1.
  { rewrite Hn. unfold wrapping_add_u32, wrap_u32. apply Z.mod_small. lia. }
  specialize (IH a1 Hwf' ltac:(lia) ltac:(lia)).
  destruct (alloc_many n a1) as [a2 ids]. simpl in *. subst ids.
  rewrite Hn1, Z.add_0_r. f_equal. rewrite <- fmap_S_seq, <- list_fmap_compose.
  apply list_fmap_ext. intros ? ? _. simpl. f_equal. lia.
Qed.

(** Identifiers are unique as long as the allocator is used for fewer than
    [2^31] streams: the ids it hands out are the consecutive members of the
    role's parity class, none of them zero, without repetition. *)
Theorem allocator_unique r n :
  Z.of_nat n < 2147483648 →
  (alloc_many n (StreamIdAllocator_new r)).2
    = (λ i, Some (next (StreamIdAllocator_new r) + 2 * Z.of_nat i)) <$> seq 0 n ∧
  NoDup (alloc_many n (StreamIdAllocator_new r)).2 ∧
  Forall (λ o, ∃ id, o = Some id ∧ 0 < id ≤ u32_max ∧ role_owns r id = true)
         (alloc_many n (StreamIdAllocator_new r)).2.
Proof.
  intros Hn. set (a := StreamIdAllocator_new r).
  assert (0 < next a ≤ 2) as Hs by (destruct r; vm_decide).
  rewrite (alloc_many_spec n a (alloc_new_wf r)); [|lia|unfold u32_max; lia].
  split; [done|]. split.
  - apply NoDup_fmap_2; [|apply NoDup_seq]. intros i j [= Hij]. clear Hs. lia.
  - apply Forall_fmap, Forall_seq. intros i [_ Hi].
    eexists. split; [done|]. split; [unfold u32_max; lia|].
    apply role_owns_mod. rewrite Z.mul_comm, Z.mod_add by lia. by destruct r.
Qed.

Lemma allocator_unique_witness :
  Z.of_nat 3 < 2147483648 ∧
  (alloc_many 3 (StreamIdAllocator_new Responder)).2 = [Some 1; Some 3; Some 5].
Proof.
  split; [lia|]. exact (proj1 (allocator_unique Responder 3 ltac:(lia))).
Defined.

(** Exhaustion is not sticky. The counter passes [u32::MAX] with its parity
    unchanged, so the check meant to detect the wrap never fires for a
    responder, whose next id is 1 again, and fires exactly once for an
    initiator, whose call after that returns 2 again. *)
Theorem allocator_reuses_ids_after_wrap r :
  let last := mkAllocator r (match r with Initiator => 4294967294 | Responder => 4294967295 end) in
  alloc_wf last ∧
  (alloc_many 3 last).2 = match r with
    | Initiator => [Some 4294967294; None; Some 2]
    | Responder => [Some 4294967295; Some 1; Some 3]
    end.
Proof. destruct r; (split; [split; vm_decide|vm_compute; reflexivity]). Qed.
