(* ===== verification/MuxSched.v ===== *)
(** * Deficit round-robin over the outbound queue
      (crates/mux/src/state.rs, [deficit_round_robin])

    The drained queue is regrouped per stream and the groups are interleaved.
    The model keeps the code's four pieces of state (active ring, per-stream
    queues, deficits, output); the loop carries a fuel argument, and
    [drr_terminates] shows that the total byte cost of the queue is enough. *)

From stdpp Require Import base numbers list gmap.
From Stdlib Require Import ZArith Lia Strings.Byte.
From S2P Require Import Prelude Bytes MuxFrame.

(** [front.body.len().max(1)] *)
Definition frame_cost (f : MuxFrame) : Z := Z.max (zlen (body f)) 1.

Definition total_cost (l : list MuxFrame) : Z :=
  foldr (λ f acc, frame_cost f + acc) 0 l.

(** The frames of one stream, in order. *)
Definition of_stream (s : Z) (l : list MuxFrame) : list MuxFrame :=
  filter (λ f, stream_id f = s) l.

(** ** Grouping *)
Definition queue_of (queues : gmap Z (list MuxFrame)) (s : Z) : list MuxFrame :=
  default [] (queues !! s).

Definition drr_push (st : list Z * gmap Z (list MuxFrame)) (f : MuxFrame)
  : list Z * gmap Z (list MuxFrame) :=
  let '(order, queues) := st in
  let q := queue_of queues (stream_id f) in
  let order := if bool_decide (q = []) then order ++ [stream_id f] else order in
  (order, <[stream_id f := q ++ [f]]> queues).

Definition drr_group (frames : list MuxFrame) : list Z * gmap Z (list MuxFrame) :=
  foldl drr_push ([], ∅) frames.

(** ** The round-robin walk *)

(** The inner [while let Some(front)] loop: frames emitted, frames left, and
    the deficit left. *)
Fixpoint drr_emit (q : list MuxFrame) (d : Z) : list MuxFrame * list MuxFrame * Z :=
  match q with
  | [] => ([], [], d)
  | front :: q' =>
    let cost := frame_cost front in
    if bool_decide (cost > d) then ([], q, d)
    else let '(e, r, d') := drr_emit q' (d - cost) in (front :: e, r, d')
  end.

Record drr_state : Type := mkDrr {
  active : list Z;
  queues : gmap Z (list MuxFrame);
  deficit : gmap Z Z;
  out : list MuxFrame;
}.

(** One iteration of the outer loop, after [pop_front] returned [sid]. *)
Definition drr_visit (quantum : Z) (sid : Z) (st : drr_state) : drr_state :=
  match queues st !! sid with
  | None => st
  | Some q =>
    if bool_decide (q = []) then st
    else
      let d := default 0 (deficit st !! sid) + quantum in
      let '(e, r, d') := drr_emit q d in
      let st' := mkDrr (active st) (<[sid := r]> (queues st))
                   (<[sid := d']> (deficit st)) (out st ++ e) in
      if bool_decide (r = [])
      then mkDrr (active st') (queues st') (<[sid := 0]> (deficit st')) (out st')
      else mkDrr (active st' ++ [sid]) (queues st') (deficit st') (out st')
  end.

Fixpoint drr_loop (fuel : nat) (quantum : Z) (st : drr_state) : option (list MuxFrame) :=
  match fuel with
  | O => None
  | S fuel' =>
    match active st with
    | [] => Some (out st)
    | sid :: rest =>
      drr_loop fuel' quantum
        (drr_visit quantum sid (mkDrr rest (queues st) (deficit st) (out st)))
    end
  end.

Definition drr_init (frames : list MuxFrame) : drr_state :=
  let '(order, qs) := drr_group frames in
  mkDrr order qs (list_to_map ((λ s, (s, 0)) <$> order)) [].

Definition drr_fuel (frames : list MuxFrame) : nat := S (Z.to_nat (total_cost frames)).

Definition deficit_round_robin (frames : list MuxFrame) (quantum : Z) : list MuxFrame :=
  if bool_decide (quantum = 0) || bool_decide (zlen frames < 2) then frames
  else
    let '(order, qs) := drr_group frames in
    if bool_decide (zlen order < 2)
    then match order with
         | [] => []
         | s :: _ => queue_of qs s
         end
    else default [] (drr_loop (drr_fuel frames) quantum (drr_init frames)).

(** ** Costs *)
Lemma frame_cost_pos f : 1 ≤ frame_cost f.
Proof. unfold frame_cost. lia. Qed.

Lemma total_cost_app l k : total_cost (l ++ k) = total_cost l + total_cost k.
Proof. induction l as [|f l IH]; simpl; [done|]. rewrite IH. lia. Qed.

Lemma total_cost_nonneg l : 0 ≤ total_cost l.
Proof. induction l as [|f l IH]; simpl; [done|]. pose proof (frame_cost_pos f). lia. Qed.

Lemma total_cost_pos l : l ≠ [] → 0 < total_cost l.
Proof.
  destruct l as [|f l]; [done|]. intros _. simpl.
  pose proof (frame_cost_pos f). pose proof (total_cost_nonneg l). lia.
Qed.

(** What one visit emits: a prefix of the queue, paid for by the deficit,
    stopping only when the deficit does not cover the next frame. *)
Lemma drr_emit_spec q d e r d' :
  0 ≤ d → drr_emit q d = (e, r, d') →
  q = e ++ r ∧ total_cost e = d - d' ∧ 0 ≤ d' ∧
  match r with [] => True | f :: _ => d' < frame_cost f end.
Proof.
  revert d e r d'. induction q as [|f q IH]; intros d e r d' Hd; simpl.
  { intros [= <- <- <-]. simpl. auto with lia. }
  case_bool_decide as Hc.
  { intros [= <- <- <-]. simpl. auto with lia. }
  destruct (drr_emit q (d - frame_cost f)) as [[e0 r0] d0] eqn:E.
  intros [= <- <- <-]. apply IH in E as (-> & Ht & Hd0 & Hr); [|lia].
  simpl. split; [done|]. split; [lia|]. done.
Qed.

Lemma drr_emit_head f q d :
  frame_cost f ≤ d → ∃ e r d', drr_emit (f :: q) d = (f :: e, r, d').
Proof.
  intros. simpl. rewrite bool_decide_false by lia.
  destruct (drr_emit q _) as [[e r] d']. eauto.
Qed.

Lemma of_stream_app s l k : of_stream s (l ++ k) = of_stream s l ++ of_stream s k.
Proof. apply filter_app. Qed.

Lemma of_stream_all s l : Forall (λ f, stream_id f = s) l → of_stream s l = l.
Proof.
  unfold of_stream. induction 1 as [|f l Hf Hl IH]; [done|].
  rewrite filter_cons_True by done. by rewrite IH.
Qed.

Lemma of_stream_none s s' l :
  s ≠ s' → Forall (λ f, stream_id f = s') l → of_stream s l = [].
Proof.
  unfold of_stream. intros Hne. induction 1 as [|f l Hf Hl IH]; [done|].
  rewrite filter_cons_False by congruence. done.
Qed.

(** ** The invariant of the walk *)
Definition deficit_of (st : drr_state) (s : Z) : Z := default 0 (deficit st !! s).

Record drr_inv (frames : list MuxFrame) (st : drr_state) : Prop := {
  inv_split : ∀ s, of_stream s (out st) ++ queue_of (queues st) s = of_stream s frames;
  inv_nodup : NoDup (active st);
  inv_active : ∀ s, s ∈ active st ↔ queue_of (queues st) s ≠ [];
  inv_deficit : ∀ s, 0 ≤ deficit_of st s;
  inv_owed : ∀ s f q, queue_of (queues st) s = f :: q → deficit_of st s < frame_cost f;
}.

(** Bytes still owed to the active streams: the loop's measure. *)
Definition owed (st : drr_state) (s : Z) : Z :=
  total_cost (queue_of (queues st) s) - deficit_of st s.
Definition drr_potential (st : drr_state) : Z :=
  foldr (λ s acc, owed st s + acc) 0 (active st).

Lemma queue_of_insert qs s s' q :
  queue_of (<[s := q]> qs) s' = if bool_decide (s = s') then q else queue_of qs s'.
Proof.
  unfold queue_of. case_bool_decide as E; [subst; by rewrite lookup_insert_eq|].
  by rewrite lookup_insert_ne.
Qed.

Lemma drr_inv_queue_ids frames st s :
  drr_inv frames st → Forall (λ f, stream_id f = s) (queue_of (queues st) s).
Proof.
  intros I. assert (Forall (λ f, stream_id f = s) (of_stream s frames)) as H.
  { apply Forall_forall. intros f Hf. by apply list_elem_of_filter in Hf as [? _]. }
  rewrite <- (inv_split _ _ I s) in H. by apply Forall_app in H as [_ ?].
Qed.

Lemma drr_potential_ext st st' l :
  (∀ s, s ∈ l → owed st s = owed st' s) →
  foldr (λ s acc, owed st s + acc) 0 l = foldr (λ s acc, owed st' s + acc) 0 l.
Proof.
  induction l as [|s l IH]; intros H; simpl; [done|].
  rewrite (H s), IH; [done| |by left]. intros s' Hs. apply H. by right.
Qed.

Lemma drr_potential_snoc st l s :
  foldr (λ s acc, owed st s + acc) 0 (l ++ [s])
    = foldr (λ s acc, owed st s + acc) 0 l + owed st s.
Proof. induction l as [|s' l IH]; simpl; [lia|]. rewrite IH. lia. Qed.

(** What one visit of the head of the ring does: it emits a prefix [e] of that
    stream's queue, costing at most the stream's credit, and nothing else. *)
Lemma drr_visit_spec frames quantum sid rest st :
  0 < quantum → drr_inv frames st → active st = sid :: rest →
  ∃ e r d,
    queue_of (queues st) sid = e ++ r ∧
    0 ≤ d ∧ total_cost e ≤ deficit_of st sid + quantum ∧
    (frame_cost (hd (mkMuxFrame 0 Begin []) (queue_of (queues st) sid))
       ≤ deficit_of st sid + quantum → e ≠ []) ∧
    let st' := drr_visit quantum sid (mkDrr rest (queues st) (deficit st) (out st)) in
    out st' = out st ++ e ∧
    active st' = rest ++ (if bool_decide (r = []) then [] else [sid]) ∧
    (∀ s, queue_of (queues st') s = if bool_decide (sid = s) then r else queue_of (queues st) s) ∧
    (∀ s, deficit_of st' s = if bool_decide (sid = s) then d else deficit_of st s) ∧
    match r with
    | [] => d = 0
    | f :: _ => d < frame_cost f ∧ total_cost e + d = deficit_of st sid + quantum
    end.
Proof.
  intros Hq I Ha. pose proof (inv_deficit _ _ I sid) as Hd.
  assert (queue_of (queues st) sid ≠ []) as Hne.
  { apply (inv_active _ _ I). rewrite Ha. by left. }
  unfold drr_visit. cbn [queues deficit active out]. unfold queue_of in Hne.
  destruct (queues st !! sid) as [q|] eqn:Hl; [|done]. simpl in Hne.
  assert (queue_of (queues st) sid = q) as Hqo by (unfold queue_of; by rewrite Hl).
  rewrite Hqo, bool_decide_false by done. fold (deficit_of st sid).
  destruct (drr_emit q (deficit_of st sid + quantum)) as [[e r] d] eqn:He.
  apply drr_emit_spec in He as Hem; [|lia]. destruct Hem as (Hsplit & Hcost & Hd0 & Hstop).
  assert (frame_cost (hd (mkMuxFrame 0 Begin []) q) ≤ deficit_of st sid + quantum → e ≠ [])
    as Hhd.
  { intros Hc. destruct q as [|f q']; [done|].
    destruct (drr_emit_head f q' _ Hc) as (? & ? & ? & E). rewrite E in He. by simplify_eq. }
  assert (∀ m x s, default 0 ((<[sid := x]> m : gmap Z Z) !! s)
            = if bool_decide (sid = s) then x else default 0 (m !! s)) as Hins.
  { intros m x s. case_bool_decide; [subst; by rewrite lookup_insert_eq|].
    by rewrite lookup_insert_ne. }
  destruct r as [|f r].
  - exists e, [], 0. rewrite (bool_decide_true (@nil MuxFrame = [])) by done.
    cbn [out active queues deficit]. rewrite !app_nil_r in *.
    split; [done|]. split; [lia|]. split; [lia|].
    split; [done|]. split; [done|]. split; [done|].
    split; [intros s; apply queue_of_insert|]. split; [|done].
    intros s. unfold deficit_of. cbn [deficit]. rewrite !Hins. by case_bool_decide.
  - exists e, (f :: r), d. rewrite (bool_decide_false (f :: r = [])) by done.
    cbn [out active queues deficit].
    split; [done|]. split; [lia|]. split; [lia|].
    split; [done|]. split; [done|]. split; [done|].
    split; [intros s; apply queue_of_insert|]. split; [|lia].
    intros s. unfold deficit_of. cbn [deficit]. by rewrite Hins.
Qed.

Lemma drr_visit_inv frames quantum sid rest st :
  0 < quantum → drr_inv frames st → active st = sid :: rest →
  let st' := drr_visit quantum sid (mkDrr rest (queues st) (deficit st) (out st)) in
  drr_inv frames st' ∧ drr_potential st' < drr_potential st.
Proof.
  intros Hq I Ha st'.
  destruct (drr_visit_spec frames quantum sid rest st Hq I Ha)
    as (e & r & d & Hsplit & Hd & _ & _ & Hout & Hact & Hqs & Hds & Hr).
  fold st' in Hout, Hact, Hqs, Hds.
  pose proof (inv_nodup _ _ I) as Hnd. rewrite Ha in Hnd.
  apply NoDup_cons in Hnd as [Hnin Hnd].
  pose proof (drr_inv_queue_ids _ _ sid I) as Hids. rewrite Hsplit in Hids.
  apply Forall_app in Hids as [Hide _].
  split; [split|].
  - intros s. rewrite Hout, Hqs, of_stream_app, <- app_assoc.
    rewrite <- (inv_split _ _ I s). f_equal. goal_decide as E.
    + subst s. by rewrite of_stream_all, Hsplit.
    + by rewrite (of_stream_none s sid).
  - rewrite Hact. apply NoDup_app. split; [done|].
    goal_decide as E; [split; [set_solver|constructor]|].
    split; [set_solver|apply NoDup_singleton].
  - intros s. rewrite Hact, Hqs. pose proof (inv_active _ _ I s) as Hs.
    rewrite Ha in Hs. clear -Hs Hnin.
    repeat goal_decide as ?; subst; set_solver.
  - intros s. rewrite Hds. goal_decide as E; [done|]. apply (inv_deficit _ _ I).
  - intros s f q. rewrite Hqs, Hds. goal_decide as E; [|apply (inv_owed _ _ I)].
    intros ->. by destruct Hr.
  - assert (∀ s, s ∈ rest → owed st' s = owed st s) as Hext.
    { intros s Hs. unfold owed. rewrite Hqs, Hds.
      by rewrite bool_decide_false by (intros ->; done). }
    unfold drr_potential. rewrite Hact, Ha. cbn [foldr].
    rewrite <- (drr_potential_ext st' st rest Hext).
    assert (owed st sid = total_cost e + total_cost r - deficit_of st sid) as Hs.
    { unfold owed. by rewrite Hsplit, total_cost_app. }
    assert (0 < owed st sid) as Hpos.
    { destruct (queue_of (queues st) sid) as [|f q] eqn:Eq.
      - exfalso. assert (sid ∈ active st) as Hin by (rewrite Ha; by left).
        apply (inv_active _ _ I) in Hin. by rewrite Eq in Hin.
      - pose proof (inv_owed _ _ I sid f q Eq). unfold owed. rewrite Eq. simpl.
        pose proof (total_cost_nonneg q). lia. }
    goal_decide as Er.
    + rewrite app_nil_r. lia.
    + rewrite drr_potential_snoc. unfold owed at 2. rewrite Hqs, Hds.
      rewrite !bool_decide_true by done. destruct r as [|f r]; [done|].
      destruct Hr as [_ Hr]. lia.
Qed.

(** ** Grouping is per-stream filtering *)
Lemma drr_group_spec frames :
  (∀ s, queue_of (drr_group frames).2 s = of_stream s frames) ∧
  NoDup (drr_group frames).1 ∧
  (∀ s, s ∈ (drr_group frames).1 ↔ of_stream s frames ≠ []).
Proof.
  unfold drr_group. induction frames as [|f l IH] using rev_ind.
  { split; [done|]. split; [constructor|]. intros s. simpl. split; [set_solver|done]. }
  rewrite foldl_app. simpl. destruct (foldl drr_push ([], ∅) l) as [order qs].
  simpl in IH. destruct IH as (Hq & Hnd & Hin).
  assert (∀ s, of_stream s (l ++ [f])
            = of_stream s l ++ if bool_decide (stream_id f = s) then [f] else []) as Hfl.
  { intros s. rewrite of_stream_app. f_equal. unfold of_stream. rewrite filter_cons.
    repeat case_bool_decide; simpl; by case_decide. }
  simpl. repeat split.
  - intros s. rewrite queue_of_insert, Hfl, !Hq.
    case_bool_decide; [by subst|by rewrite app_nil_r].
  - rewrite Hq. case_bool_decide as E; [|done]. apply NoDup_app. split; [done|].
    split; [|apply NoDup_singleton]. intros s Hs Hs'. apply list_elem_of_singleton in Hs'.
    subst. by apply Hin in Hs.
  - rewrite Hfl, Hq. intros H. case_bool_decide as E1; case_bool_decide as E2; subst;
      [by destruct (of_stream _ l)|rewrite app_nil_r; set_solver
      |by destruct (of_stream _ l)|rewrite app_nil_r; set_solver].
  - rewrite Hfl, Hq. intros H. case_bool_decide as E1; case_bool_decide as E2; subst;
      rewrite ?app_nil_r in H; set_solver.
Qed.

Lemma total_cost_by_stream frames (l : list Z) :
  NoDup l → (∀ f, f ∈ frames → stream_id f ∈ l) →
  foldr (λ s acc, total_cost (of_stream s frames) + acc) 0 l = total_cost frames.
Proof.
  intros Hnd. induction frames as [|f frames IH]; intros Hin.
  { clear. induction l as [|s l IH]; [done|]. exact IH. }
  simpl. rewrite <- IH by (intros g Hg; apply Hin; by right).
  assert (stream_id f ∈ l) as Hf by (apply Hin; by left).
  assert (∀ s, total_cost (of_stream s (f :: frames))
     = total_cost (of_stream s frames) + if decide (s = stream_id f) then frame_cost f else 0)
    as Hs.
  { intros s. unfold of_stream. rewrite filter_cons. repeat case_decide; simpl; try lia.
    all: congruence. }
  clear Hin IH. induction l as [|s l IHl]; [by apply elem_of_nil in Hf|].
  apply NoDup_cons in Hnd as [Hn Hnd]. simpl. rewrite Hs.
  apply elem_of_cons in Hf as [E|Hf].
  - rewrite decide_True by done.
    assert (foldr (λ s acc, total_cost (of_stream s (f :: frames)) + acc) 0 l
            = foldr (λ s acc, total_cost (of_stream s frames) + acc) 0 l) as ->; [|lia].
    clear -Hn Hs E. induction l as [|s' l IH]; simpl; [done|].
    apply not_elem_of_cons in Hn as [Hn1 Hn2].
    rewrite Hs, decide_False by congruence. rewrite IH by done. lia.
  - rewrite decide_False by (intros ->; done). rewrite IHl by done. lia.
Qed.

Lemma deficit_init frames s : deficit_of (drr_init frames) s = 0.
Proof.
  unfold deficit_of, drr_init. destruct (drr_group frames) as [order qs]. simpl.
  destruct (list_to_map _ !! s) as [d|] eqn:E; [|done].
  apply elem_of_list_to_map_2 in E. by apply list_elem_of_fmap in E as (? & [= _ ->] & _).
Qed.

Lemma drr_init_inv frames : drr_inv frames (drr_init frames).
Proof.
  destruct (drr_group_spec frames) as (Hq & Hnd & Hin).
  pose proof (deficit_init frames) as Hd. unfold drr_init in *.
  destruct (drr_group frames) as [order qs]. simpl in *. split; simpl.
  - intros s. by rewrite Hq.
  - done.
  - intros s. by rewrite Hq.
  - intros s. by rewrite Hd.
  - intros s f q _. rewrite Hd. pose proof (frame_cost_pos f). lia.
Qed.

Lemma drr_init_potential frames : drr_potential (drr_init frames) = total_cost frames.
Proof.
  destruct (drr_group_spec frames) as (Hq & Hnd & Hin).
  rewrite <- (total_cost_by_stream frames (drr_group frames).1 Hnd).
  - unfold drr_potential.
    assert (∀ s, owed (drr_init frames) s = total_cost (of_stream s frames)) as Ho.
    { intros s. unfold owed. rewrite deficit_init, <- Hq. unfold drr_init.
      destruct (drr_group frames). simpl. lia. }
    unfold drr_init at 2. destruct (drr_group frames) as [order qs]. simpl.
    clear -Ho. induction order as [|s l IH]; simpl; [done|]. by rewrite Ho, IH.
  - intros f Hf. apply Hin. intros Hnil.
    assert (f ∈ of_stream (stream_id f) frames) as H
      by (apply list_elem_of_filter; done).
    rewrite Hnil in H. by apply elem_of_nil in H.
Qed.

(** ** The loop *)
Lemma drr_potential_nonneg frames st : drr_inv frames st → 0 ≤ drr_potential st.
Proof.
  intros I. unfold drr_potential.
  assert (∀ s, s ∈ active st → 0 < owed st s) as Hpos.
  { intros s Hs. apply (inv_active _ _ I) in Hs. unfold owed.
    destruct (queue_of (queues st) s) as [|f q] eqn:E; [done|].
    pose proof (inv_owed _ _ I s f q E). simpl. pose proof (total_cost_nonneg q). lia. }
  induction (active st) as [|s l IH]; simpl; [done|].
  pose proof (Hpos s ltac:(by left)).
  enough (0 ≤ foldr (λ s acc, owed st s + acc) 0 l) by lia. apply IH.
  intros s' Hs'. apply Hpos. by right.
Qed.

Lemma drr_loop_spec frames quantum fuel st :
  0 < quantum → drr_inv frames st → drr_potential st < Z.of_nat fuel →
  ∃ res, drr_loop fuel quantum st = Some res ∧
    (∃ post, res = out st ++ post) ∧ (∀ s, of_stream s res = of_stream s frames).
Proof.
  intros Hq. revert st. induction fuel as [|fuel IH]; intros st I Hf.
  { pose proof (drr_potential_nonneg _ _ I). lia. }
  simpl. destruct (active st) as [|sid rest] eqn:Ha.
  - exists (out st). split; [done|]. split; [exists []; by rewrite app_nil_r|].
    intros s. rewrite <- (inv_split _ _ I s).
    destruct (queue_of (queues st) s) as [|f q] eqn:E; [by rewrite app_nil_r|].
    exfalso. assert (s ∈ active st) as Hs by (apply (inv_active _ _ I); by rewrite E).
    rewrite Ha in Hs. by apply elem_of_nil in Hs.
  - destruct (drr_visit_inv frames quantum sid rest st Hq I Ha) as [I' Hp].
    destruct (IH _ I' ltac:(lia)) as (res & Hl & (post & ->) & Hs).
    exists (out (drr_visit quantum sid (mkDrr rest (queues st) (deficit st) (out st))) ++ post).
    split; [done|]. split; [|done].
    destruct (drr_visit_spec frames quantum sid rest st Hq I Ha)
      as (e & ? & ? & _ & _ & _ & _ & Hout & _).
    rewrite Hout. exists (e ++ post). by rewrite app_assoc.
Qed.

Lemma of_stream_perm l k : (∀ s, of_stream s l = of_stream s k) → l ≡ₚ k.
Proof.
  revert k. induction l as [|f l IH]; intros k H.
  - destruct k as [|g k]; [done|]. specialize (H (stream_id g)).
    unfold of_stream in H. rewrite filter_cons_True in H by done. done.
  - assert (f ∈ of_stream (stream_id f) k) as Hin.
    { rewrite <- H. apply list_elem_of_filter. split; [done|by left]. }
    apply list_elem_of_filter in Hin as [_ Hin].
    assert (∃ k1 k2, k = k1 ++ f :: k2 ∧ of_stream (stream_id f) k1 = []) as (k1 & k2 & -> & Hk1).
    { specialize (H (stream_id f)). unfold of_stream in H at 1.
      rewrite filter_cons_True in H by done. clear IH Hin. induction k as [|g k IHk].
      - done.
      - unfold of_stream in H. rewrite filter_cons in H. case_decide as E.
        + simplify_eq. by exists [], k.
        + destruct IHk as (k1 & k2 & -> & E1); [done|].
          exists (g :: k1), k2. split; [done|]. unfold of_stream.
          by rewrite filter_cons_False. }
    rewrite <- Permutation_middle. constructor. apply IH. intros s.
    specialize (H s). rewrite !of_stream_app in *. unfold of_stream in *.
    rewrite !filter_cons in H. case_decide as E; [|done]. subst s.
    rewrite Hk1 in *. simpl in *. by simplify_eq.
Qed.

Lemma drr_streams frames quantum s :
  0 ≤ quantum → of_stream s (deficit_round_robin frames quantum) = of_stream s frames.
Proof.
  intros Hq. unfold deficit_round_robin.
  destruct (bool_decide_reflect (quantum = 0)); [done|].
  destruct (bool_decide_reflect (zlen frames < 2)); [done|]. cbn [orb].
  destruct (drr_group_spec frames) as (Hqs & Hnd & Hin).
  destruct (drr_group frames) as [order qs] eqn:Hg. cbn [fst snd] in *.
  destruct (bool_decide_reflect (zlen order < 2)) as [Ho|Ho].
  - destruct order as [|s' [|? ?]]; [| |autorewrite with mirage in Ho; unfold zlen in Ho; lia].
    + destruct (of_stream s frames) eqn:E; [done|].
      exfalso. assert (s ∈ []) as Hs by (apply Hin; by rewrite E). by apply elem_of_nil in Hs.
    + rewrite Hqs. destruct (decide (s = s')) as [->|Hne].
      * apply of_stream_all, Forall_forall. intros f Hf. by apply list_elem_of_filter in Hf as [? _].
      * transitivity (@nil MuxFrame).
        -- apply (of_stream_none s s' _ Hne), Forall_forall. intros f Hf.
           by apply list_elem_of_filter in Hf as [? _].
        -- destruct (of_stream s frames) eqn:E; [done|].
           exfalso. assert (s ∈ [s']) as Hs by (apply Hin; by rewrite E).
           by apply list_elem_of_singleton in Hs.
  - destruct (drr_loop_spec frames quantum (drr_fuel frames) (drr_init frames))
      as (res & -> & _ & Hs); [lia|apply drr_init_inv| |simpl; apply Hs].
    rewrite drr_init_potential. unfold drr_fuel.
    pose proof (total_cost_nonneg frames). lia.
Qed.

(** The scheduler only interleaves. Every stream's frames leave in the
    order in which they were queued (so [Begin] still precedes the stream's
    data and [EndLocal] follows it), and no frame is lost or duplicated. *)
Theorem drr_preserves_streams frames quantum :
  0 ≤ quantum →
  (∀ s, of_stream s (deficit_round_robin frames quantum) = of_stream s frames) ∧
  deficit_round_robin frames quantum ≡ₚ frames.
Proof.
  intros Hq. split; [intros s; by apply drr_streams|].
  apply of_stream_perm. intros s. by apply drr_streams.
Qed.

Lemma drr_preserves_streams_witness :
  let d s n := mkMuxFrame s Data (replicate n x00) in
  let frames := [d 1 3%nat; d 1 3%nat; d 3 1%nat; d 1 2%nat] in
  0 ≤ 4 ∧ of_stream 1 (deficit_round_robin frames 4) = of_stream 1 frames ∧
  deficit_round_robin frames 4 = [d 1 3%nat; d 3 1%nat; d 1 3%nat; d 1 2%nat].
Proof.
  intros d frames. split; [lia|]. split; [|vm_compute; reflexivity].
  exact (proj1 (drr_preserves_streams frames 4 ltac:(lia)) 1).
Defined.

(** The round-robin loop terminates. For every queue and every positive
    quantum, including quanta smaller than a frame, the walk ends within as
    many visits as there are queued bytes. *)
Theorem drr_terminates frames quantum :
  0 < quantum →
  ∃ res, drr_loop (S (Z.to_nat (total_cost frames))) quantum (drr_init frames) = Some res.
Proof.
  intros Hq. destruct (drr_loop_spec frames quantum (drr_fuel frames) (drr_init frames))
    as (res & H & _); [done|apply drr_init_inv| |by exists res].
  rewrite drr_init_potential. unfold drr_fuel. pose proof (total_cost_nonneg frames). lia.
Qed.

Lemma drr_terminates_witness :
  0 < 1 ∧
  ∃ res, drr_loop (S (Z.to_nat (total_cost [mkMuxFrame 2 Data [x00; x01; x02]]))) 1
           (drr_init [mkMuxFrame 2 Data [x00; x01; x02]]) = Some res.
Proof.
  split; [lia|]. apply (drr_terminates [mkMuxFrame 2 Data [x00; x01; x02]] 1). lia.
Defined.

(** ** Head-of-line delay *)

Lemma drr_loop_prefix frames quantum fuel st res :
  0 < quantum → drr_inv frames st → drr_loop fuel quantum st = Some res →
  ∃ post, res = out st ++ post.
Proof.
  intros Hq. revert st res. induction fuel as [|fuel IH]; intros st res I Hl; [done|].
  simpl in Hl. destruct (active st) as [|sid rest] eqn:Ha.
  { exists []. rewrite app_nil_r. by simplify_eq. }
  destruct (drr_visit_inv frames quantum sid rest st Hq I Ha) as [I' _].
  destruct (IH _ _ I' Hl) as (post & ->).
  destruct (drr_visit_spec frames quantum sid rest st Hq I Ha)
    as (e & ? & ? & _ & _ & _ & _ & Hout & _).
  rewrite Hout. exists (e ++ post). by rewrite app_assoc.
Qed.

(** While the streams ahead of [s] in the ring are visited for the first time
    each emits at most one quantum; then [s] is visited. *)
Lemma drr_first_round frames quantum s f q ahead rest fuel st res :
  0 < quantum → drr_inv frames st → active st = ahead ++ s :: rest →
  (∀ s', s' ∈ ahead → deficit_of st s' = 0) →
  queue_of (queues st) s = f :: q → frame_cost f ≤ quantum →
  drr_loop fuel quantum st = Some res →
  ∃ mid post, res = out st ++ mid ++ f :: post ∧
    total_cost mid ≤ quantum * zlen ahead ∧ of_stream s mid = [].
Proof.
  intros Hq. revert rest fuel st. induction ahead as [|a ahead IH];
    intros rest fuel st I Ha Hd Hqs Hc Hl.
  - destruct fuel as [|fuel]; [done|]. simpl in Hl, Ha. rewrite Ha in Hl.
    destruct (drr_visit_spec frames quantum s rest st Hq I Ha)
      as (e & r & d & Hsplit & Hd0 & _ & Hhd & Hout & _).
    rewrite Hqs in *. simpl in Hhd. pose proof (inv_deficit _ _ I s).
    destruct e as [|f' e]; [exfalso; apply Hhd; [lia|done]|]. simplify_eq/=.
    destruct (drr_visit_inv frames quantum s rest st Hq I Ha) as [I' _].
    assert (∃ post, res = out (drr_visit quantum s (mkDrr rest (queues st) (deficit st) (out st))) ++ post)
      as (post & ->).
    { by eapply drr_loop_prefix. }
    exists [], (e ++ post). rewrite Hout, <- app_assoc.
    split; [done|]. split; [unfold zlen; simpl; lia|done].
  - destruct fuel as [|fuel]; [done|]. simpl in Hl, Ha. rewrite Ha in Hl.
    destruct (drr_visit_spec frames quantum a (ahead ++ s :: rest) st Hq I Ha)
      as (e & r & d & Hsplit & Hd0 & Hcost & _ & Hout & Hact & Hq' & Hd' & _).
    destruct (drr_visit_inv frames quantum a (ahead ++ s :: rest) st Hq I Ha) as [I' _].
    pose proof (inv_nodup _ _ I) as Hnd. rewrite Ha in Hnd.
    apply NoDup_cons in Hnd as [Hna _].
    assert (a ≠ s) as Has by (intros ->; apply Hna; set_solver).
    rewrite <- app_assoc in Hact. cbn [app] in Hact.
    destruct (IH _ fuel _ I' Hact) as (mid & post & -> & Hm & Hs); [| |done|done|].
    + intros s' Hs'. rewrite Hd', bool_decide_false by (intros ->; set_solver).
      apply Hd. by right.
    + by rewrite Hq', bool_decide_false.
    + exists (e ++ mid), post. rewrite Hout, <- !app_assoc. split; [done|]. split.
      * rewrite total_cost_app, zlen_cons. rewrite (Hd a ltac:(by left)) in Hcost. lia.
      * rewrite of_stream_app, Hs, app_nil_r. pose proof (drr_inv_queue_ids _ _ a I) as Hids.
        rewrite Hsplit in Hids. apply Forall_app in Hids as [Hids _].
        by apply (of_stream_none s a).
Qed.

(** C35: the bound the scheduler exists for. Let [s] be the [i]-th stream in
    order of first appearance in the queue, and let its first frame fit in a
    quantum. However much the other streams have queued, at most [i] quanta of
    their bytes are sent before that frame. *)
Theorem drr_head_of_line frames quantum i s f :
  0 < quantum → (drr_group frames).1 !! i = Some s →
  head (of_stream s frames) = Some f → frame_cost f ≤ quantum →
  ∃ pre post, deficit_round_robin frames quantum = pre ++ f :: post ∧
    total_cost pre ≤ quantum * Z.of_nat i ∧ of_stream s pre = [].
Proof.
  intros Hq Hi Hh Hc.
  destruct (of_stream s frames) as [|f' q] eqn:Hs; simplify_eq/=.
  destruct (drr_group_spec frames) as (Hqs & Hnd & Hin). unfold deficit_round_robin.
  rewrite (bool_decide_false (quantum = 0)) by lia. cbn [orb].
  destruct (bool_decide_reflect (zlen frames < 2)) as [Hl|Hl].
  { destruct frames as [|g [|? ?]]; [done| |autorewrite with mirage in Hl; unfold zlen in Hl; lia].
    unfold of_stream in Hs. rewrite filter_cons in Hs. case_decide; simplify_eq/=.
    exists [], []. split; [done|]. split; [simpl; lia|done]. }
  destruct (drr_group frames) as [order qs] eqn:Hg. cbn [fst snd] in *.
  destruct (bool_decide_reflect (zlen order < 2)) as [Ho|Ho].
  { destruct order as [|s' [|? ?]]; [done| |autorewrite with mirage in Ho; unfold zlen in Ho; lia].
    destruct i as [|i]; [|done]. simplify_eq/=. rewrite Hqs, Hs.
    exists [], q. split; [done|]. split; [simpl; lia|done]. }
  destruct (drr_loop_spec frames quantum (drr_fuel frames) (drr_init frames))
    as (res & Hloop & _); [done|apply drr_init_inv| |].
  { rewrite drr_init_potential. unfold drr_fuel. pose proof (total_cost_nonneg frames). lia. }
  rewrite Hloop. cbn [default].
  assert (active (drr_init frames) = take i order ++ s :: drop (S i) order) as Ha.
  { unfold drr_init. rewrite Hg. cbn [active]. symmetry. by apply take_drop_middle. }
  destruct (drr_first_round frames quantum s f q (take i order) (drop (S i) order)
              (drr_fuel frames) (drr_init frames) res) as (mid & post & -> & Hm & Hsm);
    [done|apply drr_init_inv|done|intros; apply deficit_init| |done|done|].
  { unfold drr_init. rewrite Hg. cbn [queues]. by rewrite Hqs. }
  exists mid, post. assert (out (drr_init frames) = []) as ->
    by (unfold drr_init; by rewrite Hg).
  split; [done|]. split; [|done]. rewrite zlen_take in Hm. nia.
Qed.

Lemma drr_head_of_line_witness :
  let bulk := replicate 20 (mkMuxFrame 1 Data (replicate 40 x00)) in
  let f := mkMuxFrame 3 Data [x61] in
  ∃ pre post, deficit_round_robin (bulk ++ [f]) 40 = pre ++ f :: post ∧
    total_cost pre ≤ 40 * 1 ∧ of_stream 3 pre = [].
Proof.
  intros bulk f. apply (drr_head_of_line (bulk ++ [f]) 40 1 3 f);
    [lia|vm_compute; reflexivity|vm_compute; reflexivity|vm_decide].
Defined.
