(* ===== verification/MuxState.v ===== *)
(** * The connection state machine (crates/mux/src/state.rs)

    [MuxState] with every method that changes it, as fallible methods on
    [&mut self] ([stm]): a mutation made before an early return stays. *)

From stdpp Require Import base numbers list gmap strings.
From Stdlib Require Import ZArith Lia Strings.Byte.
From S2P Require Import Prelude Bytes MuxFrame MuxTarget MuxStream MuxSched.

(** ** Data *)
Inductive StreamState : Set :=
| SynSent | SynReceived | Open | HalfClosedLocal | HalfClosedRemote | Closed.

#[global] Instance StreamState_eq_dec : EqDecision StreamState.
Proof. solve_decision. Defined.

Record Stream : Set := mkStream {
  state : StreamState;
  send_credit : Z;
  recv_window : Z;
  pending_target : option MuxTarget;
}.

Inductive MuxStateError : Set :=
| Frame (e : MuxFrameError)
| Target (e : TargetError)
| UnknownStream (id : Z)
| ForeignStreamId (id : Z)
| BadState (stream : Z) (st : StreamState)
| InsufficientCredit (asked available : Z)
| StreamLimit (cap : Z)
| StreamIdExhausted
| OutboundQueueFull (cap : Z)
| Internal (msg : string).

#[global] Instance MuxStateError_eq_dec : EqDecision MuxStateError.
Proof. solve_decision. Defined.

Record MuxState : Type := mkMuxState {
  role : StreamRole;
  policy : MuxPolicy;
  streams : gmap Z Stream;
  id_allocator : StreamIdAllocator;
  outbound : list MuxFrame;
  open_count : Z;
}.

Inductive MuxEvent : Set :=
| EvIncoming (id : Z) (target : MuxTarget)
| EvEstablished (id : Z)
| EvData (id : Z) (bytes : list byte)
| EvWindowUpdate (id : Z) (delta : Z)
| EvPeerEndLocal (id : Z)
| EvReset (id : Z) (error_code : byte).

#[global] Instance MuxEvent_eq_dec : EqDecision MuxEvent.
Proof. solve_decision. Defined.

(** Field assignments. *)
Definition set_streams (m : gmap Z Stream) (s : MuxState) : MuxState :=
  mkMuxState (role s) (policy s) m (id_allocator s) (outbound s) (open_count s).
Definition set_allocator (a : StreamIdAllocator) (s : MuxState) : MuxState :=
  mkMuxState (role s) (policy s) (streams s) a (outbound s) (open_count s).
Definition set_outbound (q : list MuxFrame) (s : MuxState) : MuxState :=
  mkMuxState (role s) (policy s) (streams s) (id_allocator s) q (open_count s).
Definition set_open_count (n : Z) (s : MuxState) : MuxState :=
  mkMuxState (role s) (policy s) (streams s) (id_allocator s) (outbound s) n.
Definition set_state (x : StreamState) (s : Stream) : Stream :=
  mkStream x (send_credit s) (recv_window s) (pending_target s).
Definition set_send_credit (c : Z) (s : Stream) : Stream :=
  mkStream (state s) c (recv_window s) (pending_target s).
Definition set_recv_window (w : Z) (s : Stream) : Stream :=
  mkStream (state s) (send_credit s) w (pending_target s).
Definition set_pending (t : option MuxTarget) (s : Stream) : Stream :=
  mkStream (state s) (send_credit s) (recv_window s) t.

Abbreviation mux := (stm MuxState MuxStateError).

(** [if let Some(s) = self.streams.get_mut(&id) { *s = f(s) }] *)
Definition modify_stream (id : Z) (f : Stream → Stream) : mux unit :=
  st_mod (λ st, set_streams (alter f id (streams st)) st).

Abbreviation MuxState_new r p := (mkMuxState r p ∅ (StreamIdAllocator_new r) [] 0) (only parsing).

(** ** Helpers *)
Definition enqueue (frame : MuxFrame) : mux unit :=
  st <- st_get ;;
  if bool_decide (zlen (outbound st) >= max_pending_outbound (policy st))
  then st_err (OutboundQueueFull (max_pending_outbound (policy st)))
  else st_mod (λ st, set_outbound (outbound st ++ [frame]) st).

(** [MuxFrame::new(..).map_err(MuxStateError::Frame)?] then [self.enqueue(frame)?]. *)
Definition send_frame (id : Z) (c : MuxCmd) (b : list byte) : mux unit :=
  frame <- st_lift (map_err Frame (MuxFrame_new id c b)) ;;
  enqueue frame.

Definition close_stream (id : Z) : mux unit :=
  st_mod (λ st,
    match streams st !! id with
    | None => st
    | Some s =>
      let st := set_streams (delete id (streams st)) st in
      if bool_decide (state s ≠ Closed)
      then set_open_count (saturating_sub (open_count st) 1) st
      else st
    end).

(** [self.streams.get(&id).ok_or(UnknownStream(id))?] *)
Definition get_stream (id : Z) : mux Stream :=
  st <- st_get ;;
  st_lift (ok_or (streams st !! id) (UnknownStream id)).

(** [self.id_allocator.next().ok_or(StreamIdExhausted)?] *)
Definition alloc_id : mux Z :=
  st <- st_get ;;
  let '(a, id) := StreamIdAllocator_next (id_allocator st) in
  st_mod (set_allocator a) ;;;
  st_lift (ok_or id StreamIdExhausted).

(** ** Local operations *)
Definition open_local (target : MuxTarget) : mux Z :=
  st <- st_get ;;
  if bool_decide (open_count st >= max_concurrent_streams (policy st))
  then st_err (StreamLimit (max_concurrent_streams (policy st)))
  else
    id <- alloc_id ;;
    target_bytes <- st_lift (map_err Target (MuxTarget_encode target)) ;;
    send_frame id Begin target_bytes ;;;
    st_mod (λ st, set_streams
      (<[id := mkStream SynSent (initial_window (policy st))
                 (initial_window (policy st)) None]> (streams st)) st) ;;;
    st_mod (λ st, set_open_count (open_count st + 1) st) ;;;
    st_ret id.

Definition accept (id : Z) : mux MuxTarget :=
  s <- get_stream id ;;
  if bool_decide (state s ≠ SynReceived) then st_err (BadState id (state s))
  else
    modify_stream id (set_pending None) ;;;
    target <- st_lift (ok_or (pending_target s)
                         (Internal "SynReceived missing pending_target")) ;;
    modify_stream id (set_state Open) ;;;
    send_frame id BeginOk [] ;;;
    st_ret target.

Definition reject (id : Z) : mux unit :=
  s <- get_stream id ;;
  if bool_decide (state s ≠ SynReceived) then st_err (BadState id (state s))
  else
    send_frame id Reset [x01] ;;;
    close_stream id.

Definition send_data (id : Z) (payload : list byte) : mux Z :=
  s <- get_stream id ;;
  if negb (bool_decide (state s = Open ∨ state s = HalfClosedRemote))
  then st_err (BadState id (state s))
  else if bool_decide (send_credit s = 0) then st_ret 0
  else
    let max_chunk :=
      Z.min (Z.min MAX_MUX_FRAME_BODY (send_credit s)) (zlen payload) in
    if bool_decide (max_chunk = 0) then st_ret 0
    else
      send_frame id Data (take (Z.to_nat max_chunk) payload) ;;;
      modify_stream id (λ s2, set_send_credit (saturating_sub (send_credit s2) max_chunk) s2) ;;;
      st_ret max_chunk.

Definition end_local (id : Z) : mux unit :=
  s <- get_stream id ;;
  next <- match state s with
          | Open => st_ret HalfClosedLocal
          | HalfClosedRemote => st_ret Closed
          | other => st_err (BadState id other)
          end ;;
  send_frame id EndLocal [] ;;;
  if bool_decide (next = Closed) then close_stream id
  else modify_stream id (set_state next).

Definition reset (id : Z) (error_code : byte) : mux unit :=
  get_stream id ;;;
  send_frame id Reset [error_code] ;;;
  close_stream id.

Definition grant_credit (id : Z) (delta : Z) : mux unit :=
  s <- get_stream id ;;
  if bool_decide (state s = Closed) then st_err (BadState id (state s))
  else
    send_frame id WindowUpdate (be_bytes 4 delta) ;;;
    modify_stream id (λ s2, set_recv_window (saturating_add_u32 (recv_window s2) delta) s2).

(** ** Inbound frames: the arms of [recv] *)
Definition peer_id_ok (r : StreamRole) (id : Z) : bool :=
  match r with
  | Initiator => bool_decide (id `mod` 2 = 1)
  | Responder => bool_decide (id `mod` 2 = 0)
  end.

Definition recv_begin (id : Z) (b : list byte) : mux MuxEvent :=
  st <- st_get ;;
  if negb (peer_id_ok (role st) id)
  then send_frame id Reset [x03] ;;; st_err (ForeignStreamId id)
  else
    target <- st_lift (map_err Target (MuxTarget_decode b)) ;;
    match streams st !! id with
    | Some existing => st_err (BadState id (state existing))
    | None =>
      if bool_decide (open_count st >= max_concurrent_streams (policy st))
      then send_frame id Reset [x02] ;;;
           st_err (StreamLimit (max_concurrent_streams (policy st)))
      else
        st_mod (λ st, set_streams
          (<[id := mkStream SynReceived (initial_window (policy st))
                     (initial_window (policy st)) (Some target)]> (streams st)) st) ;;;
        st_mod (λ st, set_open_count (open_count st + 1) st) ;;;
        st_ret (EvIncoming id target)
    end.

Definition recv_begin_ok (id : Z) : mux MuxEvent :=
  s <- get_stream id ;;
  if bool_decide (state s ≠ SynSent) then st_err (BadState id (state s))
  else modify_stream id (set_state Open) ;;; st_ret (EvEstablished id).

Definition recv_data (id : Z) (b : list byte) : mux MuxEvent :=
  s <- get_stream id ;;
  if negb (bool_decide (state s = Open ∨ state s = HalfClosedLocal))
  then st_err (BadState id (state s))
  else
    let bytes := wrap_u32 (zlen b) in
    if bool_decide (bytes > recv_window s)
    then
      send_frame id Reset [x03] ;;;
      close_stream id ;;;
      st_err (BadState id Closed)
    else
      modify_stream id (set_recv_window (saturating_sub (recv_window s) bytes)) ;;;
      st_ret (EvData id b).

Definition recv_window_update (id : Z) (b : list byte) : mux MuxEvent :=
  if bool_decide (zlen b ≠ 4) then st_err (Frame BodyLength)
  else
    s <- get_stream id ;;
    let delta := be_val [at_ b 0; at_ b 1; at_ b 2; at_ b 3] in
    modify_stream id (set_send_credit (saturating_add_u32 (send_credit s) delta)) ;;;
    st_ret (EvWindowUpdate id delta).

Definition recv_end_local (id : Z) : mux MuxEvent :=
  s <- get_stream id ;;
  close <- match state s with
           | Open => modify_stream id (set_state HalfClosedRemote) ;;; st_ret false
           | HalfClosedLocal => st_ret true
           | other => st_err (BadState id other)
           end ;;
  (if (close : bool) then close_stream id else st_ret tt) ;;;
  st_ret (EvPeerEndLocal id).

Definition recv_reset (id : Z) (b : list byte) : mux MuxEvent :=
  get_stream id ;;;
  close_stream id ;;;
  st_ret (EvReset id (default xff (head b))).

Definition recv (frame : MuxFrame) : mux MuxEvent :=
  let id := stream_id frame in
  match command frame with
  | Begin => recv_begin id (body frame)
  | BeginOk => recv_begin_ok id
  | Data => recv_data id (body frame)
  | WindowUpdate => recv_window_update id (body frame)
  | EndLocal => recv_end_local id
  | Reset => recv_reset id (body frame)
  end.

(** ** Draining and observers *)
Definition pending_outbound (st : MuxState) : MuxState * list MuxFrame :=
  (set_outbound [] st, deficit_round_robin (outbound st) (drr_quantum_bytes (policy st))).

Definition stream_state (st : MuxState) (id : Z) : option StreamState :=
  state <$> streams st !! id.
