(* ===== verification/MuxInv.v ===== *)
(** * Invariant of the connection state machine

    A type and well-formedness invariant of [MuxState] and its preservation by
    every operation, then by every sequence of operations. *)

From stdpp Require Import base numbers list gmap strings.
From Stdlib Require Import ZArith Lia Strings.Byte.
From S2P Require Import Prelude Bytes MuxFrame MuxTarget MuxStream MuxSched MuxState.

(** ** The invariant *)

(** One entry of the stream map: a 32-bit non-zero id, credits in range, never
    [Closed] (closed streams are evicted), and a pending target exactly while
    the stream waits for [accept]/[reject]; streams waiting for the peer's
    answer carry our parity, streams waiting for ours carry the peer's. *)
Definition stream_ok (r : StreamRole) (id : Z) (s : Stream) : Prop :=
  0 < id ≤ u32_max ∧ in_u32 (send_credit s) ∧ in_u32 (recv_window s) ∧
  match state s with
  | Closed => False
  | SynSent => role_owns r id = true ∧ pending_target s = None
  | SynReceived => role_owns r id = false ∧
                   ∃ t, pending_target s = Some t ∧ target_typed t
  | _ => pending_target s = None
  end.

Record mux_inv (st : MuxState) : Prop := {
  mi_policy : policy_typed (policy st);
  mi_role : alloc_role (id_allocator st) = role st;
  mi_alloc : alloc_wf (id_allocator st);
  mi_next : 0 < next (id_allocator st);
  mi_count : open_count st = Z.of_nat (size (streams st));
  mi_cap : open_count st ≤ max_concurrent_streams (policy st);
  mi_queue : zlen (outbound st) ≤ max_pending_outbound (policy st);
  mi_frames : Forall frame_wf (outbound st);
  mi_streams : ∀ id s, streams st !! id = Some s → stream_ok (role st) id s;
  mi_fresh : ∀ id s, streams st !! id = Some s → role_owns (role st) id = true →
             id < next (id_allocator st);
}.

(** The allocator is still at least one id away from wrapping around. *)
Definition ids_left (st : MuxState) : Prop := next (id_allocator st) + 2 ≤ u32_max.

(** ** Unfolding a method to its outcomes *)
Ltac stm_unfold :=
  unfold get_stream, alloc_id, send_frame, enqueue, modify_stream, close_stream,
    st_bind, st_get, st_mod, st_ret, st_err, st_lift, ok_or, map_err in *.

Lemma mux_inv_new r p : policy_typed p → mux_inv (MuxState_new r p).
Proof.
  intros Hp. pose proof Hp as (? & Hm & ? & ?). unfold in_u32 in Hm.
  split; simpl; try done.
  - apply alloc_new_wf.
  - by destruct r.
  - lia.
Qed.

(** ** The state changes operations are made of *)
Lemma mux_inv_enqueue st f :
  mux_inv st → frame_wf f → zlen (outbound st) < max_pending_outbound (policy st) →
  mux_inv (set_outbound (outbound st ++ [f]) st).
Proof.
  intros [] Hf Hl. split; simpl; try done.
  - autorewrite with mirage. lia.
  - by apply Forall_app_2; [|constructor].
Qed.

Lemma mux_inv_drain st : mux_inv st → mux_inv (set_outbound [] st).
Proof.
  intros []. split; simpl; try done. destruct mi_policy0 as (_ & _ & ? & _).
  unfold zlen. simpl. lia.
Qed.

Lemma mux_inv_alter st id s f :
  mux_inv st → streams st !! id = Some s → stream_ok (role st) id (f s) →
  mux_inv (set_streams (alter f id (streams st)) st).
Proof.
  intros [] Hs Hok. split; simpl; try done.
  - rewrite mi_count0. f_equal.
    rewrite <- !size_dom. by rewrite dom_alter_L.
  - intros id' s' H. apply lookup_alter_Some in H as [(<- & s0 & H & ->)|[_ H]]; [|eauto].
    by simplify_eq.
  - intros id' s' H. apply lookup_alter_Some in H as [(<- & s0 & H & ->)|[_ H]]; eauto.
Qed.

Lemma mux_inv_delete st id s :
  mux_inv st → streams st !! id = Some s →
  mux_inv (set_open_count (saturating_sub (open_count st) 1)
             (set_streams (delete id (streams st)) st)).
Proof.
  intros [] Hs.
  assert (size (streams st) = S (size (delete id (streams st)))) as Hsz.
  { rewrite <- (insert_delete_id (streams st) id s Hs) at 1.
    apply map_size_insert_None, lookup_delete_eq. }
  split; simpl; unfold saturating_sub; try done; try lia.
  - intros id' s' H. apply lookup_delete_Some in H as [_ H]. eauto.
  - intros id' s' H. apply lookup_delete_Some in H as [_ H]. eauto.
Qed.

Lemma mux_inv_insert st id s :
  mux_inv st → streams st !! id = None → stream_ok (role st) id s →
  open_count st < max_concurrent_streams (policy st) →
  (role_owns (role st) id = true → id < next (id_allocator st)) →
  mux_inv (set_open_count (open_count st + 1) (set_streams (<[id := s]> (streams st)) st)).
Proof.
  intros [] Hn Hok Hc Hf. split; simpl; try done; try lia.
  - rewrite map_size_insert_None by done. lia.
  - intros id' s' H. apply lookup_insert_Some in H as [[<- <-]|[_ H]]; eauto.
  - intros id' s' H. apply lookup_insert_Some in H as [[<- <-]|[_ H]]; eauto.
Qed.

Lemma mux_inv_alloc st :
  mux_inv st → ids_left st →
  StreamIdAllocator_next (id_allocator st)
    = (mkAllocator (role st) (next (id_allocator st) + 2), Some (next (id_allocator st))) ∧
  mux_inv (set_allocator (mkAllocator (role st) (next (id_allocator st) + 2)) st) ∧
  streams st !! next (id_allocator st) = None ∧
  role_owns (role st) (next (id_allocator st)) = true ∧
  0 < next (id_allocator st) ≤ u32_max.
Proof.
  intros I Hl. pose proof I as []. unfold ids_left in Hl.
  pose proof (alloc_next_spec _ mi_alloc0) as (Hwf & Hr & Hn & Hid).
  destruct (StreamIdAllocator_next (id_allocator st)) as [a o] eqn:E. simpl in *.
  rewrite bool_decide_false in Hid by lia.
  assert (next a = next (id_allocator st) + 2) as Hn'.
  { rewrite Hn. unfold wrapping_add_u32, wrap_u32. apply Z.mod_small. lia. }
  assert (a = mkAllocator (role st) (next (id_allocator st) + 2)) as ->.
  { destruct a. simpl in *. congruence. }
  split; [by subst|]. split; [|split; [|split]].
  - split; simpl; try done; try lia. intros id s H Ho. specialize (mi_fresh0 id s H Ho). lia.
  - destruct (streams st !! next (id_allocator st)) eqn:Es; [|done].
    destruct mi_alloc0 as [_ Hown]. rewrite mi_role0 in Hown.
    specialize (mi_fresh0 _ _ Es Hown). lia.
  - destruct mi_alloc0 as [_ Hown]. by rewrite mi_role0 in Hown.
  - lia.
Qed.

#[export] Hint Resolve mux_inv_enqueue mux_inv_drain mux_inv_delete : mirage.

(** ** Outcome equations

    Each operation on a state satisfying the invariant, with the monad and the
    checks that cannot fail there computed away. *)
Definition queue_full (st : MuxState) : bool :=
  bool_decide (zlen (outbound st) >= max_pending_outbound (policy st)).
Definition full_err {A} (st : MuxState) : MuxState * result MuxStateError A :=
  (st, Err (OutboundQueueFull (max_pending_outbound (policy st)))).
Definition push (f : MuxFrame) (st : MuxState) : MuxState :=
  set_outbound (outbound st ++ [f]) st.
Definition drop_stream (id : Z) (st : MuxState) : MuxState :=
  set_open_count (saturating_sub (open_count st) 1) (set_streams (delete id (streams st)) st).
Definition update_stream (id : Z) (f : Stream → Stream) (st : MuxState) : MuxState :=
  set_streams (alter f id (streams st)) st.

Lemma send_frame_eq id c b st :
  0 < id → zlen b ≤ MAX_MUX_FRAME_BODY →
  send_frame id c b st =
    if queue_full st then full_err st else (push (mkMuxFrame id c b) st, Ok tt).
Proof.
  intros Hid Hb. stm_unfold. unfold MuxFrame_new, queue_full, full_err, push.
  rewrite (bool_decide_false (id = 0)) by lia.
  rewrite (bool_decide_false (_ > MAX_MUX_FRAME_LEN))
    by lia.
  by case_bool_decide.
Qed.

Lemma close_stream_eq id s st :
  streams st !! id = Some s → state s ≠ Closed →
  close_stream id st = (drop_stream id st, Ok tt).
Proof. intros Hs Hc. stm_unfold. rewrite Hs. by rewrite bool_decide_true. Qed.

Lemma get_stream_eq id st :
  get_stream id st = (st, ok_or (streams st !! id) (UnknownStream id)).
Proof. done. Qed.

Lemma stream_ok_open st id s :
  mux_inv st → streams st !! id = Some s → 0 < id ≤ u32_max ∧ state s ≠ Closed.
Proof.
  intros I Hs. pose proof (mi_streams _ I id s Hs) as (? & _ & _ & H).
  split; [done|]. by intros E; rewrite E in H.
Qed.

Lemma small_body_2 (b : byte) : zlen [b] ≤ MAX_MUX_FRAME_BODY.
Proof. vm_decide. Qed.
Lemma small_body_0 : zlen (@nil byte) ≤ MAX_MUX_FRAME_BODY.
Proof. vm_decide. Qed.
Lemma small_body_4 z : zlen (be_bytes 4 z) ≤ MAX_MUX_FRAME_BODY.
Proof. unfold zlen. rewrite length_be_bytes. vm_decide. Qed.

#[local] Hint Resolve small_body_0 small_body_2 small_body_4 : core.

(** Run [send_frame] and the following [close_stream] on a known stream. *)
Ltac run_known I Hs :=
  let Hid := fresh "Hid" in let Hc := fresh "Hc" in
  destruct (stream_ok_open _ _ _ I Hs) as [Hid Hc];
  unfold st_bind, st_ret, st_err, st_lift, modify_stream, st_mod;
  rewrite ?send_frame_eq by (lia || auto);
  unfold full_err; destruct (queue_full _) eqn:?; simpl; try done;
  try (erewrite close_stream_eq by (simpl; eauto); done);
  try (rewrite Hs, bool_decide_true by done; done).

Lemma reject_eq id st :
  mux_inv st →
  reject id st =
    match streams st !! id with
    | None => (st, Err (UnknownStream id))
    | Some s =>
      if bool_decide (state s ≠ SynReceived) then (st, Err (BadState id (state s)))
      else if queue_full st then full_err st
      else (drop_stream id (push (mkMuxFrame id Reset [x01]) st), Ok tt)
    end.
Proof.
  intros I. unfold reject, st_bind at 1. rewrite get_stream_eq.
  destruct (streams st !! id) as [s|] eqn:Hs; [|done]. simpl.
  case_bool_decide as Hst; [done|]. run_known I Hs.
Qed.

Lemma reset_eq id code st :
  mux_inv st →
  reset id code st =
    match streams st !! id with
    | None => (st, Err (UnknownStream id))
    | Some s =>
      if queue_full st then full_err st
      else (drop_stream id (push (mkMuxFrame id Reset [code]) st), Ok tt)
    end.
Proof.
  intros I. unfold reset, st_bind at 1. rewrite get_stream_eq.
  destruct (streams st !! id) as [s|] eqn:Hs; [|done]. simpl. run_known I Hs.
Qed.

Lemma accept_eq id st :
  mux_inv st →
  accept id st =
    match streams st !! id with
    | None => (st, Err (UnknownStream id))
    | Some s =>
      match pending_target s with
      | None => (st, Err (BadState id (state s)))
      | Some t =>
        let st1 := update_stream id (λ s, set_state Open (set_pending None s)) st in
        if queue_full st then full_err st1
        else (push (mkMuxFrame id BeginOk []) st1, Ok t)
      end
    end.
Proof.
  intros I. unfold accept, st_bind at 1. rewrite get_stream_eq.
  destruct (streams st !! id) as [s|] eqn:Hs; [|done]. simpl.
  pose proof (mi_streams _ I id s Hs) as (Hid & _ & _ & Hok).
  destruct (bool_decide_reflect (state s ≠ SynReceived)) as [Hst|Hst].
  { assert (pending_target s = None) as -> by (destruct (state s); naive_solver). done. }
  apply dec_stable in Hst. rewrite Hst in Hok. destruct Hok as (_ & t & Ht & _). rewrite Ht.
  unfold st_bind, modify_stream, st_mod, st_lift, st_ret. simpl.
  rewrite send_frame_eq by (lia || auto). unfold queue_full, full_err. simpl.
  assert (update_stream id (set_state Open) (update_stream id (set_pending None) st)
          = update_stream id (λ s, set_state Open (set_pending None s)) st) as E.
  { unfold update_stream, set_streams. simpl. by rewrite alter_alter_eq. }
  unfold update_stream in E at 1 2. simpl in E. rewrite E. by case_bool_decide.
Qed.

Lemma send_data_eq id payload st :
  mux_inv st →
  send_data id payload st =
    match streams st !! id with
    | None => (st, Err (UnknownStream id))
    | Some s =>
      if negb (bool_decide (state s = Open ∨ state s = HalfClosedRemote))
      then (st, Err (BadState id (state s)))
      else
        let n := Z.min (Z.min MAX_MUX_FRAME_BODY (send_credit s)) (zlen payload) in
        if bool_decide (n = 0) then (st, Ok 0)
        else if queue_full st then full_err st
        else (update_stream id (λ s, set_send_credit (send_credit s - n) s)
                (push (mkMuxFrame id Data (take (Z.to_nat n) payload)) st), Ok n)
    end.
Proof.
  intros I. unfold send_data, st_bind at 1. rewrite get_stream_eq.
  destruct (streams st !! id) as [s|] eqn:Hs; [|done]. simpl.
  pose proof (mi_streams _ I id s Hs) as (Hid & Hsc & _ & _). unfold in_u32 in Hsc.
  destruct (negb _); [done|]. pose proof (zlen_nonneg payload).
  set (n := Z.min _ (zlen payload)).
  assert (0 ≤ n ≤ MAX_MUX_FRAME_BODY ∧ n ≤ send_credit s ∧ n ≤ zlen payload) as Hn
    by (unfold n in *; lia).
  destruct (bool_decide_reflect (send_credit s = 0)).
  { by rewrite bool_decide_true by lia. }
  destruct (bool_decide_reflect (n = 0)); [done|].
  unfold st_bind, modify_stream, st_mod, st_ret.
  rewrite send_frame_eq by (try lia; rewrite zlen_take; lia).
  unfold full_err. destruct (queue_full st); [done|].
  unfold update_stream, set_streams, push. simpl. do 2 f_equal.
  apply alter_ext. intros x Hx. simplify_eq.
  unfold set_send_credit, saturating_sub. f_equal. lia.
Qed.

Lemma end_local_eq id st :
  mux_inv st →
  end_local id st =
    match streams st !! id with
    | None => (st, Err (UnknownStream id))
    | Some s =>
      let sent := push (mkMuxFrame id EndLocal []) st in
      match state s with
      | Open => if queue_full st then full_err st
                else (update_stream id (set_state HalfClosedLocal) sent, Ok tt)
      | HalfClosedRemote => if queue_full st then full_err st
                            else (drop_stream id sent, Ok tt)
      | other => (st, Err (BadState id other))
      end
    end.
Proof.
  intros I. unfold end_local, st_bind at 1. rewrite get_stream_eq.
  destruct (streams st !! id) as [s|] eqn:Hs; [|done]. simpl.
  destruct (state s) eqn:Est; try done.
  - run_known I Hs.
  - run_known I Hs.
Qed.

Lemma grant_credit_eq id delta st :
  mux_inv st →
  grant_credit id delta st =
    match streams st !! id with
    | None => (st, Err (UnknownStream id))
    | Some s =>
      if queue_full st then full_err st
      else (update_stream id (λ s, set_recv_window (saturating_add_u32 (recv_window s) delta) s)
              (push (mkMuxFrame id WindowUpdate (be_bytes 4 delta)) st), Ok tt)
    end.
Proof.
  intros I. unfold grant_credit, st_bind at 1. rewrite get_stream_eq.
  destruct (streams st !! id) as [s|] eqn:Hs; [|done]. simpl.
  destruct (stream_ok_open _ _ _ I Hs) as [? Hc]. rewrite bool_decide_false by done.
  run_known I Hs.
Qed.

Lemma MuxTarget_encode_len t bs :
  target_typed t → MuxTarget_encode t = Ok bs → zlen bs ≤ MAX_MUX_FRAME_BODY.
Proof.
  intros [_ Ht] H. unfold MuxTarget_encode in H.
  assert (∀ p, zlen (be_bytes 2 p) = 2) as Hp by (intros p; unfold zlen; by rewrite length_be_bytes).
  destruct t; case_in H; autorewrite with mirage; rewrite ?Hp;
    unfold zlen in *; lia.
Qed.

Lemma open_local_eq t st :
  mux_inv st → ids_left st → target_typed t →
  open_local t st =
    if bool_decide (open_count st >= max_concurrent_streams (policy st))
    then (st, Err (StreamLimit (max_concurrent_streams (policy st))))
    else
      let id := next (id_allocator st) in
      let st1 := set_allocator (mkAllocator (role st) (id + 2)) st in
      match MuxTarget_encode t with
      | Err e => (st1, Err (Target e))
      | Ok bs =>
        if queue_full st then full_err st1
        else
          let st2 := push (mkMuxFrame id Begin bs) st1 in
          (set_open_count (open_count st + 1)
             (set_streams (<[id := mkStream SynSent (initial_window (policy st))
                                     (initial_window (policy st)) None]> (streams st)) st2), Ok id)
      end.
Proof.
  intros I Hl Ht. unfold open_local, st_bind at 1, st_get at 1.
  case_bool_decide; [done|].
  destruct (mux_inv_alloc st I Hl) as (Hal & _ & _ & _ & Hid).
  unfold st_bind at 1, alloc_id, st_bind at 1, st_get. rewrite Hal.
  unfold st_bind at 1, st_mod at 1, st_lift at 1. cbn [ok_or].
  unfold st_bind at 1, st_lift. destruct (MuxTarget_encode t) as [bs|e] eqn:He; [|done].
  cbn [map_err]. unfold st_bind, st_mod, st_ret.
  rewrite send_frame_eq by (lia || by eapply MuxTarget_encode_len).
  unfold queue_full, full_err. simpl. by case_bool_decide.
Qed.

Lemma peer_id_ok_eq r id : peer_id_ok r id = role_owns (opposite_role r) id.
Proof. by destruct r. Qed.

Lemma recv_begin_eq id b st :
  mux_inv st → 0 < id →
  recv_begin id b st =
    if role_owns (role st) id
    then if queue_full st then full_err st
         else (push (mkMuxFrame id Reset [x03]) st, Err (ForeignStreamId id))
    else match MuxTarget_decode b with
    | Err e => (st, Err (Target e))
    | Ok t =>
      match streams st !! id with
      | Some s => (st, Err (BadState id (state s)))
      | None =>
        if bool_decide (open_count st >= max_concurrent_streams (policy st))
        then if queue_full st then full_err st
             else (push (mkMuxFrame id Reset [x02]) st,
                   Err (StreamLimit (max_concurrent_streams (policy st))))
        else (set_open_count (open_count st + 1)
                (set_streams (<[id := mkStream SynReceived (initial_window (policy st))
                   (initial_window (policy st)) (Some t)]> (streams st)) st),
              Ok (EvIncoming id t))
      end
    end.
Proof.
  intros I Hid. unfold recv_begin, st_bind at 1, st_get.
  rewrite peer_id_ok_eq, role_owns_opposite, negb_involutive.
  destruct (role_owns (role st) id).
  { unfold st_bind. rewrite send_frame_eq by (lia || auto). unfold full_err.
    by destruct (queue_full st). }
  unfold st_bind at 1, st_lift. destruct (MuxTarget_decode b) as [t|]; [|done]. simpl.
  destruct (streams st !! id); [done|]. case_bool_decide; [|done].
  unfold st_bind. rewrite send_frame_eq by (lia || auto). unfold full_err.
  by destruct (queue_full st).
Qed.

Lemma recv_begin_ok_eq id st :
  recv_begin_ok id st =
    match streams st !! id with
    | None => (st, Err (UnknownStream id))
    | Some s =>
      if bool_decide (state s ≠ SynSent) then (st, Err (BadState id (state s)))
      else (update_stream id (set_state Open) st, Ok (EvEstablished id))
    end.
Proof.
  unfold recv_begin_ok, st_bind at 1. rewrite get_stream_eq.
  destruct (streams st !! id); [|done]. simpl. by case_bool_decide.
Qed.

Lemma recv_data_eq id b st :
  mux_inv st → zlen b ≤ u32_max →
  recv_data id b st =
    match streams st !! id with
    | None => (st, Err (UnknownStream id))
    | Some s =>
      if negb (bool_decide (state s = Open ∨ state s = HalfClosedLocal))
      then (st, Err (BadState id (state s)))
      else if bool_decide (zlen b > recv_window s)
      then if queue_full st then full_err st
           else (drop_stream id (push (mkMuxFrame id Reset [x03]) st), Err (BadState id Closed))
      else (update_stream id (set_recv_window (recv_window s - zlen b)) st, Ok (EvData id b))
    end.
Proof.
  intros I Hb. unfold recv_data, st_bind at 1. rewrite get_stream_eq.
  destruct (streams st !! id) as [s|] eqn:Hs; [|done]. simpl.
  destruct (negb _); [done|]. pose proof (zlen_nonneg b).
  assert (wrap_u32 (zlen b) = zlen b) as -> by (apply Z.mod_small; lia).
  goal_decide as Hw; [run_known I Hs|].
  unfold update_stream, saturating_sub. rewrite Z.max_l by lia. done.
Qed.

Lemma recv_window_update_eq id b st :
  recv_window_update id b st =
    if bool_decide (zlen b ≠ 4) then (st, Err (Frame BodyLength))
    else match streams st !! id with
    | None => (st, Err (UnknownStream id))
    | Some s =>
      (update_stream id (set_send_credit (saturating_add_u32 (send_credit s) (be_val b))) st,
       Ok (EvWindowUpdate id (be_val b)))
    end.
Proof.
  unfold recv_window_update. case_bool_decide as Hl; [done|].
  unfold st_bind at 1. rewrite get_stream_eq.
  destruct b as [|b0 [|b1 [|b2 [|b3 [|]]]]]; try done; [|unfold zlen in Hl; simpl in Hl; lia].
  by destruct (streams st !! id).
Qed.

Lemma recv_end_local_eq id st :
  mux_inv st →
  recv_end_local id st =
    match streams st !! id with
    | None => (st, Err (UnknownStream id))
    | Some s =>
      match state s with
      | Open => (update_stream id (set_state HalfClosedRemote) st, Ok (EvPeerEndLocal id))
      | HalfClosedLocal => (drop_stream id st, Ok (EvPeerEndLocal id))
      | other => (st, Err (BadState id other))
      end
    end.
Proof.
  intros I. unfold recv_end_local, st_bind at 1. rewrite get_stream_eq.
  destruct (streams st !! id) as [s|] eqn:Hs; [|done]. simpl.
  destruct (state s) eqn:Est; try done.
  unfold st_bind, st_ret. by erewrite close_stream_eq by (eauto; congruence).
Qed.

Lemma recv_reset_eq id b st :
  mux_inv st →
  recv_reset id b st =
    match streams st !! id with
    | None => (st, Err (UnknownStream id))
    | Some _ => (drop_stream id st, Ok (EvReset id (default xff (head b))))
    end.
Proof.
  intros I. unfold recv_reset, st_bind at 1. rewrite get_stream_eq.
  destruct (streams st !! id) as [s|] eqn:Hs; [|done]. simpl.
  destruct (stream_ok_open _ _ _ I Hs) as [? Hc].
  unfold st_bind, st_ret. by erewrite close_stream_eq by eauto.
Qed.
