(* ===== verification/MuxProps.v ===== *)
(** * Properties of the connection state machine *)

From stdpp Require Import base numbers list gmap strings.
From Stdlib Require Import ZArith Lia Strings.Byte.
From S2P Require Import Prelude Bytes MuxFrame MuxTarget MuxStream MuxSched MuxState MuxInv.

(** ** Sequences of operations *)
Inductive mux_op : Type :=
| OpOpen (t : MuxTarget)
| OpAccept (id : Z)
| OpReject (id : Z)
| OpSend (id : Z) (payload : list byte)
| OpEnd (id : Z)
| OpReset (id : Z) (code : byte)
| OpGrant (id : Z) (delta : Z)
| OpRecv (f : MuxFrame)
| OpDrain.

(** The arguments the Rust types and the frame decoder allow. *)
Definition op_typed (op : mux_op) : Prop :=
  match op with
  | OpOpen t => target_typed t
  | OpGrant _ delta => in_u32 delta
  | OpRecv f => frame_wf f
  | _ => True
  end.

Definition mux_exec (op : mux_op) (st : MuxState) : MuxState :=
  match op with
  | OpOpen t => (open_local t st).1
  | OpAccept id => (accept id st).1
  | OpReject id => (reject id st).1
  | OpSend id payload => (send_data id payload st).1
  | OpEnd id => (end_local id st).1
  | OpReset id code => (reset id code st).1
  | OpGrant id delta => (grant_credit id delta st).1
  | OpRecv f => (recv f st).1
  | OpDrain => (pending_outbound st).1
  end.

(** States the connection can be in: streams are opened while the id space
    lasts, everything else may go on after that. *)
Inductive mux_reachable (r : StreamRole) (p : MuxPolicy) : MuxState → Prop :=
| reach_new : mux_reachable r p (MuxState_new r p)
| reach_step st op :
    mux_reachable r p st → op_typed op → (∀ t, op = OpOpen t → ids_left st) →
    mux_reachable r p (mux_exec op st).

(** ** Preservation *)
Lemma queue_full_false st :
  queue_full st = false → zlen (outbound st) < max_pending_outbound (policy st).
Proof. unfold queue_full. intros H%bool_decide_eq_false. lia. Qed.

Lemma inv_push st id c b :
  mux_inv st → queue_full st = false → 0 < id ≤ u32_max → zlen b ≤ MAX_MUX_FRAME_BODY →
  mux_inv (push (mkMuxFrame id c b) st).
Proof.
  intros I Hf Hid Hb. apply mux_inv_enqueue; [done|by split|by apply queue_full_false].
Qed.

Lemma inv_drop st id s : mux_inv st → streams st !! id = Some s → mux_inv (drop_stream id st).
Proof. apply mux_inv_delete. Qed.

Lemma inv_update st id s f :
  mux_inv st → streams st !! id = Some s → stream_ok (role st) id (f s) →
  mux_inv (update_stream id f st).
Proof. apply mux_inv_alter. Qed.

Lemma take_body (n : Z) (l : list byte) :
  n ≤ MAX_MUX_FRAME_BODY → zlen (take (Z.to_nat n) l) ≤ MAX_MUX_FRAME_BODY.
Proof. intros. rewrite zlen_take. pose proof (zlen_nonneg l). lia. Qed.

Lemma u32_sat_add a b : in_u32 a → in_u32 b → in_u32 (saturating_add_u32 a b).
Proof. unfold in_u32, saturating_add_u32. lia. Qed.

Lemma u32_be4 b : zlen b = 4 → in_u32 (be_val b).
Proof. intros H. pose proof (be_val_range b) as Hr. rewrite H in Hr. unfold in_u32, u32_max. lia. Qed.

Lemma stream_ok_recv_window r id s w :
  stream_ok r id s → in_u32 w → stream_ok r id (set_recv_window w s).
Proof. intros (? & ? & ? & ?) ?. done. Qed.
Lemma stream_ok_send_credit r id s c :
  stream_ok r id s → in_u32 c → stream_ok r id (set_send_credit c s).
Proof. intros (? & ? & ? & ?) ?. done. Qed.
Lemma stream_ok_state r id s x :
  stream_ok r id s → pending_target s = None →
  x = Open ∨ x = HalfClosedLocal ∨ x = HalfClosedRemote → stream_ok r id (set_state x s).
Proof. intros (? & ? & ? & ?) ? [->|[->| ->]]; done. Qed.

Create HintDb mux.
#[local] Hint Resolve inv_push inv_drop take_body u32_sat_add u32_be4 : mux.
#[local] Hint Extern 1 (zlen _ ≤ MAX_MUX_FRAME_BODY) => vm_compute; discriminate : mux.

Lemma open_local_inv t st :
  mux_inv st → ids_left st → target_typed t → mux_inv (open_local t st).1.
Proof.
  intros I Hl Ht. rewrite open_local_eq by done.
  destruct (mux_inv_alloc st I Hl) as (_ & I1 & Hnone & Hown & Hid).
  goal_decide as Hc; [done|]. cbv zeta.
  destruct (MuxTarget_encode t) as [bs|] eqn:He; [|done].
  destruct (queue_full st) eqn:Hf; [done|]. cbn [fst].
  apply (mux_inv_insert (push (mkMuxFrame _ Begin bs) (set_allocator _ st))).
  - apply inv_push; [done|done|done|by eapply MuxTarget_encode_len].
  - done.
  - destruct (mi_policy _ I) as (Hw & _). split; [done|]. split; [exact Hw|]. split; [exact Hw|].
    by split.
  - simpl. lia.
  - simpl. intros _. lia.
Qed.

Lemma accept_inv id st : mux_inv st → mux_inv (accept id st).1.
Proof.
  intros I. rewrite accept_eq by done. destruct (streams st !! id) as [s|] eqn:Hs; [|done].
  pose proof (mi_streams _ I id s Hs) as (Hid & ? & ? & Hok).
  destruct (pending_target s) as [t|] eqn:Hp; [|done]. cbv zeta.
  assert (mux_inv (update_stream id (λ s, set_state Open (set_pending None s)) st)) as I1
    by (by eapply inv_update).
  destruct (queue_full st) eqn:Hf; [done|]. apply inv_push; auto with mux.
Qed.

Lemma reject_inv id st : mux_inv st → mux_inv (reject id st).1.
Proof.
  intros I. rewrite reject_eq by done. destruct (streams st !! id) as [s|] eqn:Hs; [|done].
  destruct (stream_ok_open _ _ _ I Hs). case_bool_decide; [done|].
  destruct (queue_full st) eqn:Hf; [done|]. eapply inv_drop; [|done]. auto with mux.
Qed.

Lemma reset_inv id code st : mux_inv st → mux_inv (reset id code st).1.
Proof.
  intros I. rewrite reset_eq by done. destruct (streams st !! id) as [s|] eqn:Hs; [|done].
  destruct (stream_ok_open _ _ _ I Hs).
  destruct (queue_full st) eqn:Hf; [done|]. eapply inv_drop; [|done]. auto with mux.
Qed.

Lemma send_data_inv id payload st : mux_inv st → mux_inv (send_data id payload st).1.
Proof.
  intros I. rewrite send_data_eq by done. destruct (streams st !! id) as [s|] eqn:Hs; [|done].
  pose proof (mi_streams _ I id s Hs) as Hok. pose proof Hok as (Hid & Hsc & _).
  destruct (negb _); [done|]. cbv zeta. pose proof (zlen_nonneg payload).
  case_bool_decide; [done|]. destruct (queue_full st) eqn:Hf; [done|].
  eapply inv_update; [|done|].
  - apply inv_push; auto with mux. apply take_body. lia.
  - apply stream_ok_send_credit; [done|].
    unfold in_u32 in *. lia.
Qed.

Lemma end_local_inv id st : mux_inv st → mux_inv (end_local id st).1.
Proof.
  intros I. rewrite end_local_eq by done. destruct (streams st !! id) as [s|] eqn:Hs; [|done].
  pose proof (mi_streams _ I id s Hs) as Hok. pose proof Hok as (Hid & _ & _ & Hst).
  destruct (state s) eqn:Est; try done; cbv zeta; (destruct (queue_full st) eqn:Hf; [done|]).
  - eapply inv_update; [by auto with mux|done|]. apply stream_ok_state; auto.
  - eapply inv_drop; [|done]. auto with mux.
Qed.

Lemma grant_credit_inv id delta st :
  mux_inv st → in_u32 delta → mux_inv (grant_credit id delta st).1.
Proof.
  intros I Hd. rewrite grant_credit_eq by done.
  destruct (streams st !! id) as [s|] eqn:Hs; [|done].
  pose proof (mi_streams _ I id s Hs) as Hok. pose proof Hok as (Hid & _ & Hrw & _).
  destruct (queue_full st) eqn:Hf; [done|]. eapply inv_update; [|done|].
  - apply inv_push; auto with mux.
  - apply stream_ok_recv_window; auto with mux.
Qed.

Lemma recv_inv f st : mux_inv st → frame_wf f → mux_inv (recv f st).1.
Proof.
  intros I [Hid Hb]. unfold recv. destruct (command f).
  - rewrite recv_begin_eq by (done || lia). destruct (role_owns (role st) (stream_id f)) eqn:Ho.
    { destruct (queue_full st) eqn:Hf; [done|]. cbn [fst]. auto with mux. }
    destruct (MuxTarget_decode (body f)) as [t|] eqn:Ht; [|done].
    destruct (streams st !! stream_id f) eqn:Hs; [done|]. goal_decide as Hc.
    { destruct (queue_full st) eqn:Hf; [done|]. cbn [fst]. auto with mux. }
    apply (mux_inv_insert st); try done; [|lia|congruence].
    destruct (mi_policy _ I) as (? & _). apply MuxTarget_decode_Ok in Ht as [Ht _].
    split; [done|]. split; [done|]. split; [done|]. split; [done|]. by exists t.
  - rewrite recv_begin_ok_eq. destruct (streams st !! _) as [s|] eqn:Hs; [|done].
    pose proof (mi_streams _ I _ s Hs) as Hok. pose proof Hok as (_ & _ & _ & Hp).
    goal_decide as Hst; [done|]. apply dec_stable in Hst. rewrite Hst in Hp.
    eapply inv_update; [done|done|]. apply stream_ok_state; [done|by destruct Hp|auto].
  - rewrite recv_data_eq by (done || (unfold u32_max in *; lia)).
    destruct (streams st !! _) as [s|] eqn:Hs; [|done].
    pose proof (mi_streams _ I _ s Hs) as Hok. destruct (negb _); [done|]. goal_decide as Hw.
    { destruct (queue_full st) eqn:Hf; [done|]. eapply inv_drop; [|done]. auto with mux. }
    eapply inv_update; [done|done|]. pose proof Hok as (_ & _ & Hrw & _).
    apply stream_ok_recv_window; [done|]. pose proof (zlen_nonneg (body f)).
    unfold in_u32 in *. lia.
  - rewrite recv_window_update_eq. goal_decide as Hl; [done|]. apply dec_stable in Hl.
    destruct (streams st !! _) as [s|] eqn:Hs; [|done].
    pose proof (mi_streams _ I _ s Hs) as Hok. pose proof Hok as (_ & Hsc & _).
    eapply inv_update; [done|done|]. apply stream_ok_send_credit; auto with mux.
  - rewrite recv_end_local_eq by done. destruct (streams st !! _) as [s|] eqn:Hs; [|done].
    pose proof (mi_streams _ I _ s Hs) as Hok. pose proof Hok as (_ & _ & _ & Hp).
    destruct (state s) eqn:Est; try done; [|by eapply inv_drop].
    eapply inv_update; [done|done|]. apply stream_ok_state; auto.
  - rewrite recv_reset_eq by done. destruct (streams st !! _) as [s|] eqn:Hs; [|done].
    by eapply inv_drop.
Qed.

Lemma mux_exec_inv op st :
  mux_inv st → op_typed op → (∀ t, op = OpOpen t → ids_left st) → mux_inv (mux_exec op st).
Proof.
  intros I Ht Hl. destruct op; simpl;
    [by apply open_local_inv; [|eapply Hl|]|by apply accept_inv|by apply reject_inv|by apply send_data_inv
    |by apply end_local_inv|by apply reset_inv|by apply grant_credit_inv|by apply recv_inv
    |by apply mux_inv_drain].
Qed.

(** ** Guarantees *)

(** C33: the well-formedness invariant is established by [new] and preserved by
    every operation and every inbound frame, errors included, where the caller
    opens no stream once the allocator of stream ids is within one step of its
    32-bit wrap-around (beyond it ids are handed out again). In every state
    reached so, the stream counter equals the number of live streams and
    respects the policy cap, the outbound queue respects its cap and holds only
    encodable frames, credits fit their 32 bits, no closed stream lingers in
    the map, and a stream waits for [accept] exactly when its target is held. *)
Theorem mux_reachable_inv r p st :
  policy_typed p → mux_reachable r p st → mux_inv st.
Proof.
  intros Hp. induction 1 as [|st op H IH Ht Hl]; [by apply mux_inv_new|].
  by apply mux_exec_inv.
Qed.

Definition demo_target : MuxTarget := Ipv4 [x7f; x00; x00; x01] 80.
Definition demo_open : MuxState :=
  mux_exec (OpRecv (mkMuxFrame 2 BeginOk []))
    (mux_exec (OpOpen demo_target) (MuxState_new Initiator MuxPolicy_default)).

Lemma mux_reachable_inv_witness :
  policy_typed MuxPolicy_default ∧ stream_state demo_open 2 = Some Open ∧ mux_inv demo_open.
Proof.
  split; [vm_decide|]. split; [vm_compute; reflexivity|].
  apply (mux_reachable_inv Initiator MuxPolicy_default); [vm_decide|].
  unfold demo_open. apply reach_step; [apply reach_step; [apply reach_new|..]|..];
    first [vm_decide | vm_compute; discriminate].
Defined.

(** ** Failed operations *)

(** The error an operation returns, if any. *)
Definition res_error {A} (r : result MuxStateError A) : option MuxStateError :=
  match r with Ok _ => None | Err e => Some e end.

Definition op_error (op : mux_op) (st : MuxState) : option MuxStateError :=
  match op with
  | OpOpen t => res_error (open_local t st).2
  | OpAccept id => res_error (accept id st).2
  | OpReject id => res_error (reject id st).2
  | OpSend id payload => res_error (send_data id payload st).2
  | OpEnd id => res_error (end_local id st).2
  | OpReset id code => res_error (reset id code st).2
  | OpGrant id delta => res_error (grant_credit id delta st).2
  | OpRecv f => res_error (recv f st).2
  | OpDrain => None
  end.

(** Equal except for the id counter. *)
Definition same_but_ids (st st' : MuxState) : Prop :=
  st' = set_allocator (id_allocator st') st.

Definition is_accept (op : mux_op) : bool :=
  match op with OpAccept _ => true | _ => false end.
Definition is_local (op : mux_op) : bool :=
  match op with OpRecv _ | OpDrain => false | _ => true end.

Lemma same_but_ids_refl st : same_but_ids st st.
Proof. by destruct st. Qed.

(** A local operation that fails leaves no trace. Whatever error
    [open_local], [reject], [send_data], [end_local], [reset] or
    [grant_credit] returns (a full outbound queue included), the streams, their
    credits, the stream count and the queue are what they were, so the caller
    can retry; only an id may have been consumed. *)
Theorem mux_failed_op_atomic op st e :
  mux_inv st → ids_left st → op_typed op → is_local op = true → is_accept op = false →
  op_error op st = Some e → same_but_ids st (mux_exec op st).
Proof.
  intros I Hl Ht Hloc Hacc He. destruct op; try done; simpl in *.
  - rewrite open_local_eq in * by done. goal_decide as Hc; [apply same_but_ids_refl|].
    cbv zeta in *.
    destruct (MuxTarget_encode t); [|done]. by destruct (queue_full st).
  - rewrite reject_eq in * by done. destruct (streams st !! id); [|apply same_but_ids_refl].
    case_bool_decide; [apply same_but_ids_refl|].
    destruct (queue_full st); [apply same_but_ids_refl|done].
  - rewrite send_data_eq in * by done. destruct (streams st !! id); [|apply same_but_ids_refl].
    destruct (negb _); [apply same_but_ids_refl|]. cbv zeta in *.
    case_bool_decide; [done|]. destruct (queue_full st); [apply same_but_ids_refl|done].
  - rewrite end_local_eq in * by done. destruct (streams st !! id) as [s|]; [|apply same_but_ids_refl].
    destruct (state s); try apply same_but_ids_refl; cbv zeta in *;
      (destruct (queue_full st); [apply same_but_ids_refl|done]).
  - rewrite reset_eq in * by done. destruct (streams st !! id); [|apply same_but_ids_refl].
    destruct (queue_full st); [apply same_but_ids_refl|done].
  - rewrite grant_credit_eq in * by done. destruct (streams st !! id); [|apply same_but_ids_refl].
    destruct (queue_full st); [apply same_but_ids_refl|done].
Qed.

(** A policy whose queue holds one frame, and a responder that has received a
    [Begin] and already has one frame queued. *)
Definition tiny_policy : MuxPolicy := mkMuxPolicy 65536 256 120000 1 4096.
Definition demo_begin (id : Z) : MuxFrame :=
  mkMuxFrame id Begin [x01; x7f; x00; x00; x01; x00; x50].
Definition demo_full : MuxState :=
  mux_exec (OpGrant 2 7)
    (mux_exec (OpRecv (demo_begin 2)) (MuxState_new Responder tiny_policy)).

Lemma demo_full_inv : mux_inv demo_full.
Proof.
  unfold demo_full. repeat apply mux_exec_inv; try apply mux_inv_new;
    first [vm_decide | vm_compute; discriminate].
Qed.

Lemma mux_failed_op_atomic_witness :
  op_error (OpGrant 2 9) demo_full = Some (OutboundQueueFull 1) ∧
  same_but_ids demo_full (mux_exec (OpGrant 2 9) demo_full).
Proof.
  split; [vm_compute; reflexivity|].
  apply (mux_failed_op_atomic (OpGrant 2 9) demo_full (OutboundQueueFull 1));
    [apply demo_full_inv|vm_compute; discriminate|vm_decide|reflexivity|reflexivity
    |vm_compute; reflexivity].
Defined.

(** [accept] is the exception. On a full queue it has already taken the
    target and moved the stream to [Open] when it returns
    [OutboundQueueFull]: no [BeginOk] is queued, and draining the queue and
    retrying as the error's documentation asks can only fail, with the
    [BadState] of an open stream. The peer never learns that its stream was
    accepted. *)
Theorem accept_loses_begin_ok st id s :
  mux_inv st → streams st !! id = Some s → state s = SynReceived → queue_full st = true →
  let st' := mux_exec (OpAccept id) st in
  (accept id st).2 = Err (OutboundQueueFull (max_pending_outbound (policy st))) ∧
  stream_state st' id = Some Open ∧ outbound st' = outbound st ∧
  accept id (pending_outbound st').1 = ((pending_outbound st').1, Err (BadState id Open)).
Proof.
  intros I Hs Hst Hf. cbv zeta. cbn [mux_exec].
  pose proof (accept_inv id st I) as I'.
  pose proof (mi_streams _ I id s Hs) as (_ & _ & _ & Hok). rewrite Hst in Hok.
  destruct Hok as (_ & t & Ht & _).
  assert (accept id st = full_err (update_stream id (λ s, set_state Open (set_pending None s)) st))
    as E by (rewrite accept_eq by done; by rewrite Hs, Ht, Hf).
  rewrite E in *. cbn [full_err fst snd] in *.
  assert (streams (update_stream id (λ s, set_state Open (set_pending None s)) st) !! id
          = Some (set_state Open (set_pending None s))) as Hs'
    by (simpl; by rewrite lookup_alter_eq, Hs).
  split; [done|]. split; [unfold stream_state; by rewrite Hs'|]. split; [done|].
  rewrite accept_eq by (by apply mux_inv_drain). cbn [pending_outbound fst set_outbound streams].
  by rewrite Hs'.
Qed.

Lemma accept_loses_begin_ok_witness :
  stream_state demo_full 2 = Some SynReceived ∧ queue_full demo_full = true ∧
  (accept 2 demo_full).2 = Err (OutboundQueueFull 1) ∧
  stream_state (accept 2 demo_full).1 2 = Some Open.
Proof.
  split; [vm_compute; reflexivity|]. split; [vm_compute; reflexivity|].
  destruct (accept_loses_begin_ok demo_full 2
              (mkStream SynReceived 65536 65543 (Some demo_target)))
    as (H1 & H2 & _); [apply demo_full_inv|vm_compute; reflexivity..|].
  split; [exact H1|exact H2].
Defined.
