(* ===== verification/MuxEffect.v ===== *)
(** * What one operation does to one stream

    Each operation of [MuxState] is classified by its effect on a single
    stream: how the entry of the stream map changes, which frames are queued
    for the stream, which payload bytes it took from or handed to the
    application. The link of two endpoints (MuxLink.v) is proved correct
    against these effects, stream by stream. *)

From stdpp Require Import base numbers list gmap strings.
From Stdlib Require Import ZArith Lia Strings.Byte.
From S2P Require Import Prelude Bytes MuxFrame MuxTarget MuxStream MuxSched MuxState MuxInv MuxProps.

(** The payload bytes in a run of frames of one stream. *)
Definition data_of (f : MuxFrame) : list byte :=
  match command f with Data => body f | _ => [] end.
Definition datab (l : list MuxFrame) : list byte := concat (data_of <$> l).

Lemma datab_app l k : datab (l ++ k) = datab l ++ datab k.
Proof. unfold datab. by rewrite fmap_app, concat_app. Qed.

Definition receiving (s : Stream) : Prop := state s = Open ∨ state s = HalfClosedLocal.
Definition sending (s : Stream) : Prop := state s = Open ∨ state s = HalfClosedRemote.

(** ** Effects *)
Inductive local_effect (p : MuxPolicy) (id : Z)
  : option Stream → option Stream → list MuxFrame → Prop :=
| le_same o : local_effect p id o o []
| le_open b :
    local_effect p id None
      (Some (mkStream SynSent (initial_window p) (initial_window p) None))
      [mkMuxFrame id Begin b]
| le_accept s fs :
    state s = SynReceived → fs = [mkMuxFrame id BeginOk []] ∨ fs = [] →
    local_effect p id (Some s) (Some (set_state Open (set_pending None s))) fs
| le_drop s c b :
    c = Reset ∨ c = EndLocal ∧ state s = HalfClosedRemote →
    local_effect p id (Some s) None [mkMuxFrame id c b]
| le_send s b :
    sending s → zlen b ≤ send_credit s →
    local_effect p id (Some s) (Some (set_send_credit (send_credit s - zlen b) s))
      [mkMuxFrame id Data b]
| le_half s :
    state s = Open →
    local_effect p id (Some s) (Some (set_state HalfClosedLocal s))
      [mkMuxFrame id EndLocal []]
| le_grant s delta :
    in_u32 delta → recv_window s + delta ≤ u32_max →
    local_effect p id (Some s) (Some (set_recv_window (recv_window s + delta) s))
      [mkMuxFrame id WindowUpdate (be_bytes 4 delta)].

(** Entry before and after, frames queued in reply, bytes delivered. *)
Inductive recv_effect (p : MuxPolicy) (f : MuxFrame)
  : option Stream → option Stream → list MuxFrame → list byte → Prop :=
| re_same o :
    (∀ s, o = Some s → command f = Data → ¬ receiving s) →
    (∀ s, o = Some s → command f = BeginOk → state s ≠ SynSent) →
    recv_effect p f o o [] []
| re_refuse o b :
    command f = Begin → recv_effect p f o o [mkMuxFrame (stream_id f) Reset b] []
| re_begin t :
    command f = Begin →
    recv_effect p f None
      (Some (mkStream SynReceived (initial_window p) (initial_window p) (Some t))) [] []
| re_begin_ok s :
    command f = BeginOk → state s = SynSent →
    recv_effect p f (Some s) (Some (set_state Open s)) [] []
| re_data s :
    command f = Data → receiving s → zlen (body f) ≤ recv_window s →
    recv_effect p f (Some s) (Some (set_recv_window (recv_window s - zlen (body f)) s))
      [] (body f)
| re_oversend s o' fs :
    command f = Data → recv_window s < zlen (body f) → recv_effect p f (Some s) o' fs []
| re_window s :
    command f = WindowUpdate →
    recv_effect p f (Some s)
      (Some (set_send_credit (saturating_add_u32 (send_credit s) (be_val (body f))) s)) [] []
| re_half s :
    command f = EndLocal → state s = Open →
    recv_effect p f (Some s) (Some (set_state HalfClosedRemote s)) [] []
| re_close s :
    command f = EndLocal ∨ command f = Reset → recv_effect p f (Some s) None [] [].

(** A grant that fits the window it enlarges. *)
Definition grant_ok (op : mux_op) (st : MuxState) : Prop :=
  match op with
  | OpGrant id delta => ∀ s, streams st !! id = Some s → recv_window s + delta ≤ u32_max
  | _ => True
  end.

(** The bytes [send_data] reports as taken, and those [recv] delivers. *)
Definition op_sent (op : mux_op) (st : MuxState) (id : Z) : list byte :=
  match op with
  | OpSend i payload =>
    if decide (id = i) then
      match (send_data i payload st).2 with Ok n => take (Z.to_nat n) payload | Err _ => [] end
    else []
  | _ => []
  end.
Definition recv_rcvd (f : MuxFrame) (st : MuxState) (id : Z) : list byte :=
  match (recv f st).2 with
  | Ok (EvData i b) => if decide (id = i) then b else []
  | _ => []
  end.

(** ** Classification *)
Section classify.
Context (st : MuxState) (I : mux_inv st).

Definition has_effect (st' : MuxState) (sent : Z → list byte) : Prop :=
  ∀ id, ∃ fs,
    of_stream id (outbound st') = of_stream id (outbound st) ++ fs ∧
    local_effect (policy st) id (streams st !! id) (streams st' !! id) fs ∧
    datab fs = sent id.

Abbreviation nothing := (λ _ : Z, @nil byte).

Lemma no_effect st' :
  streams st' = streams st → outbound st' = outbound st → has_effect st' nothing.
Proof.
  intros Hs Ho id. exists []. rewrite Hs, Ho, app_nil_r. split_and!; [done|constructor|done].
Qed.

(** A push of one frame together with a change of that frame's stream. *)
Lemma push_effect st' f m :
  streams st' = m → outbound st' = outbound st ++ [f] →
  (∀ id, id ≠ stream_id f → m !! id = streams st !! id) →
  local_effect (policy st) (stream_id f) (streams st !! stream_id f) (m !! stream_id f) [f] →
  has_effect st' (λ id, if decide (id = stream_id f) then data_of f else []).
Proof.
  intros <- Ho Hm He id. rewrite Ho, of_stream_app. case_decide as Hne.
  - subst id. exists [f]. split_and!; [|done|apply app_nil_r].
    f_equal. apply of_stream_all. by constructor.
  - exists []. rewrite Hm by done. split_and!; [|constructor|done].
    f_equal. apply (of_stream_none id (stream_id f)); [done|]. by constructor.
Qed.

Lemma effect_ext st' g h : has_effect st' g → (∀ id, g id = h id) → has_effect st' h.
Proof. intros H E id. destruct (H id) as (fs & ? & ? & ?). exists fs. by rewrite <- E. Qed.

(** The same for a frame that carries no payload. *)
Lemma push_effect' st' f m :
  streams st' = m → outbound st' = outbound st ++ [f] → command f ≠ Data →
  (∀ id, id ≠ stream_id f → m !! id = streams st !! id) →
  local_effect (policy st) (stream_id f) (streams st !! stream_id f) (m !! stream_id f) [f] →
  has_effect st' nothing.
Proof.
  intros Hs Ho Hc Hm He. eapply effect_ext; [by eapply push_effect|].
  intros id. simpl. case_decide; [|done]. unfold data_of. by destruct (command f).
Qed.

Lemma drop_effect i s c b :
  streams st !! i = Some s → c = Reset ∨ c = EndLocal ∧ state s = HalfClosedRemote →
  has_effect (drop_stream i (push (mkMuxFrame i c b) st)) nothing.
Proof.
  intros Hs Hc. eapply push_effect'; [done|done| | |]; simpl.
  - by destruct Hc as [->|[-> _]].
  - intros id Hne. by rewrite lookup_delete_ne.
  - rewrite lookup_delete_eq, Hs. by constructor.
Qed.

Lemma update_effect i s f c b :
  c ≠ Data → streams st !! i = Some s →
  local_effect (policy st) i (Some s) (Some (f s)) [mkMuxFrame i c b] →
  has_effect (update_stream i f (push (mkMuxFrame i c b) st)) nothing.
Proof.
  intros Hc Hs He. eapply push_effect'; [done|done|done| |]; simpl.
  - intros id Hne. by rewrite lookup_alter_ne.
  - by rewrite lookup_alter_eq, Hs.
Qed.

Lemma open_effect t : ids_left st → target_typed t → has_effect (open_local t st).1 nothing.
Proof.
  intros Hl Ht. rewrite open_local_eq by done. goal_decide as Hc; [by apply no_effect|].
  cbv zeta. destruct (MuxTarget_encode t) as [bs|]; [|by apply no_effect].
  destruct (queue_full st); [by apply no_effect|].
  destruct (mux_inv_alloc st I Hl) as (_ & _ & Hnone & _).
  eapply push_effect'; [done|done|done| |]; simpl.
  - intros id Hne. by rewrite lookup_insert_ne.
  - rewrite lookup_insert_eq, Hnone. constructor.
Qed.

Lemma accept_effect i : has_effect (accept i st).1 nothing.
Proof.
  rewrite accept_eq by done. destruct (streams st !! i) as [s|] eqn:Hs; [|by apply no_effect].
  destruct (pending_target s) as [t|] eqn:Hp; [|by apply no_effect]. cbv zeta.
  assert (state s = SynReceived) as Hst.
  { pose proof (mi_streams _ I i s Hs) as (_ & _ & _ & Hok).
    destruct (state s); rewrite ?Hp in Hok; naive_solver. }
  destruct (queue_full st).
  - intros id. simpl. exists []. rewrite app_nil_r. split_and!; [done| |done].
    destruct (decide (id = i)) as [->|Hne]; [|rewrite lookup_alter_ne by done; constructor].
    rewrite lookup_alter_eq, Hs. constructor; [done|by right].
  - eapply push_effect'; [done|done|done| |]; simpl.
    + intros id Hne. by rewrite lookup_alter_ne.
    + rewrite lookup_alter_eq, Hs. constructor; [done|by left].
Qed.

Lemma send_effect i payload : has_effect (send_data i payload st).1 (op_sent (OpSend i payload) st).
Proof.
  unfold op_sent. rewrite send_data_eq by done.
  assert (∀ r : result MuxStateError Z, (∀ n, r = Ok n → n = 0) → has_effect st (λ id, if decide (id = i) then
    match r with Ok n => take (Z.to_nat n) payload | Err _ => [] end else [])) as Hno.
  { intros r Hr. eapply effect_ext; [by apply no_effect|]. intros id. case_decide; [|done].
    destruct r as [n|]; [|done]. by rewrite (Hr n). }
  destruct (streams st !! i) as [s|] eqn:Hs; [|by apply Hno].
  destruct (bool_decide_reflect (state s = Open ∨ state s = HalfClosedRemote)) as [Hst|];
    [|by apply Hno]. cbn [negb]. cbv zeta.
  pose proof (mi_streams _ I i s Hs) as (_ & Hsc & _). unfold in_u32 in Hsc.
  pose proof (zlen_nonneg payload). set (n := Z.min _ (zlen payload)).
  assert (zlen (take (Z.to_nat n) payload) = n) as Hn.
  { rewrite zlen_take. unfold n. lia. }
  case_bool_decide; [by apply (Hno (Ok 0)); intros ? [= <-]|].
  destruct (queue_full st); [by apply Hno|].
  refine (push_effect _ (mkMuxFrame i Data (take (Z.to_nat n) payload)) _ _ _ _ _);
    [done|done|..]; simpl.
  - intros id Hne. by rewrite lookup_alter_ne.
  - rewrite lookup_alter_eq, Hs. simpl. rewrite <- Hn at 1. apply le_send; [done|].
    rewrite Hn. unfold n. lia.
Qed.

Lemma local_effect_exec op :
  ids_left st → op_typed op → is_local op = true → grant_ok op st →
  has_effect (mux_exec op st) (op_sent op st).
Proof.
  intros Hl Ht Hloc Hg. destruct op as [t|i|i|i payload|i|i code|i delta| |]; try done; simpl.
  - by apply open_effect.
  - apply accept_effect.
  - rewrite reject_eq by done. destruct (streams st !! i) as [s|] eqn:Hs; [|by apply no_effect].
    case_bool_decide; [by apply no_effect|]. destruct (queue_full st); [by apply no_effect|].
    apply (drop_effect i s); auto.
  - apply send_effect.
  - rewrite end_local_eq by done. destruct (streams st !! i) as [s|] eqn:Hs; [|by apply no_effect].
    destruct (state s) eqn:Est; try by apply no_effect; cbv zeta.
    all: destruct (queue_full st); [by apply no_effect|].
    + apply (update_effect i s); [done|done|by constructor].
    + apply (drop_effect i s); auto.
  - rewrite reset_eq by done. destruct (streams st !! i) as [s|] eqn:Hs; [|by apply no_effect].
    destruct (queue_full st); [by apply no_effect|]. apply (drop_effect i s); auto.
  - rewrite grant_credit_eq by done. destruct (streams st !! i) as [s|] eqn:Hs; [|by apply no_effect].
    destruct (queue_full st); [by apply no_effect|]. apply (update_effect i s); [done|done|].
    specialize (Hg s Hs).
    assert (saturating_add_u32 (recv_window s) delta = recv_window s + delta) as ->
      by (unfold saturating_add_u32; lia).
    by constructor.
Qed.

(** ** Inbound frames: the frame's own stream, and only it, changes. *)
Definition has_recv_effect (f : MuxFrame) (st' : MuxState) (rcvd : list byte) : Prop :=
  (∀ id, id ≠ stream_id f →
     streams st' !! id = streams st !! id ∧
     of_stream id (outbound st') = of_stream id (outbound st)) ∧
  ∃ fs, of_stream (stream_id f) (outbound st') = of_stream (stream_id f) (outbound st) ++ fs ∧
    recv_effect (policy st) f (streams st !! stream_id f) (streams st' !! stream_id f) fs rcvd.

(** No reply. *)
Lemma recv_quiet f st' rcvd :
  outbound st' = outbound st →
  (∀ id, id ≠ stream_id f → streams st' !! id = streams st !! id) →
  recv_effect (policy st) f (streams st !! stream_id f) (streams st' !! stream_id f) [] rcvd →
  has_recv_effect f st' rcvd.
Proof.
  intros Ho Hm He. split; [intros id Hne; rewrite Ho; by auto|].
  exists []. by rewrite Ho, app_nil_r.
Qed.

(** A [Reset] in reply. *)
Lemma recv_reply f st' b :
  outbound st' = outbound st ++ [mkMuxFrame (stream_id f) Reset b] →
  (∀ id, id ≠ stream_id f → streams st' !! id = streams st !! id) →
  recv_effect (policy st) f (streams st !! stream_id f) (streams st' !! stream_id f)
    [mkMuxFrame (stream_id f) Reset b] [] →
  has_recv_effect f st' [].
Proof.
  intros Ho Hm He. split.
  - intros id Hne. split; [by auto|]. rewrite Ho, of_stream_app.
    rewrite (of_stream_none id (stream_id f) [_]), app_nil_r; [done|done|by constructor].
  - eexists. rewrite Ho, of_stream_app. split; [|done]. f_equal.
    apply of_stream_all. by constructor.
Qed.

Lemma recv_none f :
  command f ≠ Data → command f ≠ BeginOk → has_recv_effect f st [].
Proof. intros. by apply recv_quiet; [done|done|constructor]. Qed.

Lemma recv_update f g s rcvd :
  streams st !! stream_id f = Some s →
  recv_effect (policy st) f (Some s) (Some (g s)) [] rcvd →
  has_recv_effect f (update_stream (stream_id f) g st) rcvd.
Proof.
  intros Hs He. apply recv_quiet; [done| |]; simpl.
  - intros id Hne. by rewrite lookup_alter_ne.
  - by rewrite lookup_alter_eq, Hs.
Qed.

Lemma recv_drop f s :
  streams st !! stream_id f = Some s → command f = EndLocal ∨ command f = Reset →
  has_recv_effect f (drop_stream (stream_id f) st) [].
Proof.
  intros Hs Hc. apply recv_quiet; [done| |]; simpl.
  - intros id Hne. by rewrite lookup_delete_ne.
  - rewrite lookup_delete_eq, Hs. by constructor.
Qed.

(** The bytes an outcome of [recv] hands to the application. *)
Definition rcvd_of (id : Z) (r : result MuxStateError MuxEvent) : list byte :=
  match r with Ok (EvData i b) => if decide (id = i) then b else [] | _ => [] end.

Lemma recv_begin_effect f :
  frame_wf f → command f = Begin →
  has_recv_effect f (recv_begin (stream_id f) (body f) st).1
    (rcvd_of (stream_id f) (recv_begin (stream_id f) (body f) st).2).
Proof.
  intros [Hid Hb] Hc. rewrite recv_begin_eq by (done || lia).
  assert (has_recv_effect f st []) by (by apply recv_none; rewrite Hc).
  assert (∀ b, has_recv_effect f (push (mkMuxFrame (stream_id f) Reset b) st) []) as Hreset
    by (intros b; eapply recv_reply; [done|done|by constructor]).
  destruct (role_owns (role st) (stream_id f)); [by destruct (queue_full st); [|apply Hreset]|].
  destruct (MuxTarget_decode (body f)) as [t|]; [|done].
  destruct (streams st !! stream_id f) eqn:Hs; [done|].
  goal_decide as Hm; [by destruct (queue_full st); [|apply Hreset]|].
  apply recv_quiet; [done| |]; simpl.
  - intros id Hne. by rewrite lookup_insert_ne.
  - rewrite lookup_insert_eq, Hs. by constructor.
Qed.

Lemma recv_data_effect f :
  frame_wf f → command f = Data →
  has_recv_effect f (recv_data (stream_id f) (body f) st).1
    (rcvd_of (stream_id f) (recv_data (stream_id f) (body f) st).2).
Proof.
  intros [Hid Hb] Hc. rewrite recv_data_eq by (done || (unfold u32_max in *; lia)).
  assert (∀ o, streams st !! stream_id f = o → (∀ s, o = Some s → ¬ receiving s) →
    has_recv_effect f st []) as Hno.
  { intros o E Ho. apply recv_quiet; [done|done|]. rewrite E.
    constructor; [by auto|by rewrite Hc]. }
  destruct (streams st !! stream_id f) as [s|] eqn:Hs; [|by apply (Hno _ eq_refl)].
  destruct (bool_decide_reflect (state s = Open ∨ state s = HalfClosedLocal)) as [Hr|Hr];
    cbn [negb]; [|by apply (Hno _ eq_refl); intros ? [= <-]].
  goal_decide as Hw.
  - assert (∀ o' fs, recv_effect (policy st) f (streams st !! stream_id f) o' fs []) as He
      by (intros; rewrite Hs; constructor; [done|lia]).
    destruct (queue_full st); [by apply recv_quiet|].
    eapply recv_reply; [done| |done]. intros id Hne. simpl. by rewrite lookup_delete_ne.
  - simpl. rewrite decide_True by done. apply (recv_update f _ s); [done|].
    constructor; [done..|lia].
Qed.

Lemma recv_effect_exec f :
  frame_wf f → has_recv_effect f (mux_exec (OpRecv f) st) (recv_rcvd f st (stream_id f)).
Proof.
  intros Hwf. pose proof Hwf as [Hid Hb]. change (recv_rcvd f st (stream_id f))
    with (rcvd_of (stream_id f) (recv f st).2). simpl. unfold recv.
  pose proof (recv_none f) as Hno.
  destruct (command f) eqn:Hc;
    [by apply recv_begin_effect| |by apply recv_data_effect|..]; try specialize (Hno ltac:(done) ltac:(done)).
  - rewrite recv_begin_ok_eq. destruct (streams st !! stream_id f) as [s|] eqn:Hs.
    + goal_decide as Hst; [|by apply (recv_update f _ s); [|apply re_begin_ok; [|apply dec_stable]]].
      apply recv_quiet; [done|done|]. simpl. rewrite Hs.
      apply re_same; [by rewrite Hc|by intros ? [= <-]].
    + apply recv_quiet; [done|done|]. simpl. rewrite Hs. by constructor.
  - rewrite recv_window_update_eq. goal_decide as Hl; [done|].
    destruct (streams st !! stream_id f) as [s|] eqn:Hs; [|done].
    apply (recv_update f _ s); [done|by constructor].
  - rewrite recv_end_local_eq by done.
    destruct (streams st !! stream_id f) as [s|] eqn:Hs; [|done].
    destruct (state s) eqn:Est; try done; [|by eapply recv_drop; eauto].
    apply (recv_update f _ s); [done|by constructor].
  - rewrite recv_reset_eq by done.
    destruct (streams st !! stream_id f) as [s|] eqn:Hs; [|done].
    by eapply recv_drop; eauto.
Qed.
End classify.
