(* ===== verification/MuxFlow.v ===== *)
(** * One direction of one stream

    The invariant that ties the sender of a direction, the frames in flight and
    the receiver together: the receiver's window covers everything the sender
    can still put in flight, the bytes delivered are a prefix of the bytes
    sent, and nothing is missing while the receiver still reads. It is
    preserved by every effect of MuxEffect.v on either end. *)

From stdpp Require Import base numbers list gmap strings.
From Stdlib Require Import ZArith Lia Strings.Byte.
From S2P Require Import Prelude Bytes MuxFrame MuxTarget MuxStream MuxSched MuxState MuxInv MuxProps MuxEffect.

(** ** Runs of frames *)
Definition nocmd (c : MuxCmd) (l : list MuxFrame) : Prop := Forall (λ f, command f ≠ c) l.

(** Credit granted by the window updates in flight. *)
Definition wu_of (f : MuxFrame) : Z :=
  match command f with WindowUpdate => be_val (body f) | _ => 0 end.
Definition wu_sum (l : list MuxFrame) : Z := foldr (λ f n, wu_of f + n) 0 l.

(** No payload follows an [EndLocal]. *)
Fixpoint eof (l : list MuxFrame) : Prop :=
  match l with
  | [] => True
  | f :: l => (command f = EndLocal → nocmd Data l) ∧ eof l
  end.

(** Everything [sent] follows the [BeginOk], if one is in flight. *)
Fixpoint ready (sent : list byte) (l : list MuxFrame) : Prop :=
  match l with
  | [] => True
  | f :: l =>
    match command f with
    | BeginOk => datab l = sent
    | Data => nocmd BeginOk l
    | _ => ready sent l
    end
  end.

Lemma wu_sum_app l k : wu_sum (l ++ k) = wu_sum l + wu_sum k.
Proof. induction l as [|f l IH]; simpl; lia. Qed.

Lemma wu_of_nonneg f : 0 ≤ wu_of f.
Proof. unfold wu_of. pose proof (be_val_range (body f)). destruct (command f); lia. Qed.

Lemma wu_sum_nonneg l : 0 ≤ wu_sum l.
Proof. induction l as [|f l IH]; simpl; [done|]. pose proof (wu_of_nonneg f). lia. Qed.

Lemma nocmd_snoc c l f : nocmd c l → command f ≠ c → nocmd c (l ++ [f]).
Proof. intros. by apply Forall_app_2; [|constructor]. Qed.

Lemma datab_cons f l : datab (f :: l) = data_of f ++ datab l.
Proof. done. Qed.

Lemma datab_snoc l f : datab (l ++ [f]) = datab l ++ data_of f.
Proof. by rewrite datab_app, datab_cons, app_nil_r. Qed.

Lemma data_of_nil f : command f ≠ Data → data_of f = [].
Proof. unfold data_of. by destruct (command f). Qed.

Lemma nocmd_data l : nocmd Data l → datab l = [].
Proof.
  induction 1 as [|f l Hf Hl IH]; [done|]. rewrite datab_cons, IH.
  unfold data_of. by destruct (command f).
Qed.

Lemma eof_snoc l f : eof l → nocmd EndLocal l ∨ command f ≠ Data → eof (l ++ [f]).
Proof.
  induction l as [|g l IH]; simpl; [by split; [constructor|]|].
  intros [Hg Hl] H. split; [|apply IH; [done|]].
  - intros E. apply nocmd_snoc; [by auto|]. destruct H as [H|H]; [|done].
    by inversion H.
  - destruct H as [H|H]; [left; by inversion H|by right].
Qed.

Lemma nodata_eof l : nocmd Data l → eof l.
Proof. induction 1; simpl; auto. Qed.

Lemma ready_snoc sent l f :
  ready sent l → command f ≠ BeginOk → ready (sent ++ data_of f) (l ++ [f]).
Proof.
  intros H Hf. induction l as [|g l IH]; simpl in *.
  - destruct (command f); try done. constructor.
  - destruct (command g); try by auto.
    + by rewrite datab_snoc, H.
    + by apply nocmd_snoc.
Qed.

Lemma nodata_ready l f : nocmd Data l → command f ≠ Data → ready [] (l ++ [f]).
Proof.
  intros H Hf. induction H as [|g l Hg Hl IH]; simpl.
  - by destruct (command f).
  - destruct (command g); try done. by apply nocmd_data, nocmd_snoc.
Qed.

(** ** The invariant of a direction *)

(** What the sender can still put in flight. *)
Definition potential (oS : option Stream) (back : list MuxFrame) : Z :=
  match oS with Some s => send_credit s + wu_sum back | None => 0 end.

Record dir (oS oR : option Stream) (chan back : list MuxFrame) (sent rcvd : list byte)
  : Prop := {
  d_flow : ∀ r, oR = Some r → zlen (datab chan) + potential oS back ≤ recv_window r;
  d_begin : nocmd Begin chan;
  d_prefix : rcvd `prefix_of` sent;
  d_open : ∀ r, oR = Some r → receiving r → rcvd ++ datab chan = sent;
  d_pending : ∀ r, oR = Some r → state r = SynReceived →
    rcvd = [] ∧ sent = [] ∧ nocmd Data chan ∧ nocmd BeginOk back ∧
    (∀ s, oS = Some s → state s = SynSent);
  d_waiting : ∀ r, oR = Some r → state r = SynSent → rcvd = [] ∧ ready sent chan;
  d_early : ∀ s, oS = Some s → state s = SynSent ∨ state s = SynReceived →
    sent = [] ∧ nocmd Data chan;
  d_sending : ∀ s, oS = Some s → state s ≠ HalfClosedLocal → nocmd EndLocal chan;
  d_eof : eof chan;
  d_done : ∀ r, oR = Some r → state r = HalfClosedRemote →
    rcvd = sent ∧ (∀ s, oS = Some s → state s = HalfClosedLocal);
}.

(** State changes a sender can make: by itself, or on a frame from [back]. *)
Definition sender_step (back : list MuxFrame) (a b : StreamState) : Prop :=
  a = b ∨ (a = SynReceived ∧ b = Open) ∨ (a = Open ∧ b = HalfClosedLocal) ∨
  (a = Open ∧ b = HalfClosedRemote) ∨ (a = SynSent ∧ b = Open ∧ ¬ nocmd BeginOk back).

(** State changes a receiver can make by itself. *)
Definition receiver_step (a b : StreamState) : Prop :=
  a = b ∨ (a = SynReceived ∧ b = Open) ∨ (a = Open ∧ b = HalfClosedLocal).

Section dir.
Context (oS oR : option Stream) (chan back : list MuxFrame) (sent rcvd : list byte).
Context (D : dir oS oR chan back sent rcvd).

(** The sender changes without queueing anything. *)
Lemma dir_sender oS' back' :
  potential oS' back' ≤ potential oS back →
  (nocmd BeginOk back → nocmd BeginOk back') →
  (∀ s', oS' = Some s' → ∃ s, oS = Some s ∧ sender_step back (state s) (state s')) →
  dir oS' oR chan back' sent rcvd.
Proof.
  intros Hp Hb Hs. destruct D. split; try done.
  - intros r Hr. specialize (d_flow0 r Hr). lia.
  - intros r Hr Hst. destruct (d_pending0 r Hr Hst) as (? & ? & ? & Hbk & HS).
    split_and!; auto. intros s' Hs'. destruct (Hs s' Hs') as (s & E & Hstep).
    specialize (HS s E). unfold sender_step in Hstep. naive_solver congruence.
  - intros s' Hs' Hst. destruct (Hs s' Hs') as (s & E & Hstep). apply (d_early0 s E).
    unfold sender_step in Hstep. naive_solver congruence.
  - intros s' Hs' Hst. destruct (Hs s' Hs') as (s & E & Hstep). apply (d_sending0 s E).
    unfold sender_step in Hstep. naive_solver congruence.
  - intros r Hr Hst. destruct (d_done0 r Hr Hst) as [? HS]. split; [done|].
    intros s' Hs'. destruct (Hs s' Hs') as (s & E & Hstep). specialize (HS s E).
    unfold sender_step in Hstep. naive_solver congruence.
Qed.

(** The sender queues one frame, and changes accordingly. *)
Definition push_step (g : MuxFrame) (a b : StreamState) : Prop :=
  match command g with
  | Begin => False
  | BeginOk => a = SynReceived ∧ b = Open
  | Data => a = b ∧ (a = Open ∨ a = HalfClosedRemote)
  | EndLocal => a = Open ∧ b = HalfClosedLocal
  | _ => a = b
  end.

(** What [push_step] means for the frame itself. *)
Lemma push_step_frame oS' g :
  (∀ s', oS' = Some s' → ∃ s, oS = Some s ∧ push_step g (state s) (state s')) →
  (oS' = None → command g = Reset ∨ command g = EndLocal) →
  command g ≠ Begin ∧
  (command g = Data → ∃ s, oS = Some s ∧ sending s) ∧
  (command g = BeginOk → ∃ s, oS = Some s ∧ state s = SynReceived).
Proof.
  intros Hs Hn. unfold push_step, sending in *. destruct oS' as [s'|].
  - destruct (Hs s' eq_refl) as (s & E & H). destruct (command g); naive_solver.
  - destruct (command g); naive_solver.
Qed.

Lemma dir_push oS' g :
  zlen (data_of g) + potential oS' back ≤ potential oS back →
  (∀ s', oS' = Some s' → ∃ s, oS = Some s ∧ push_step g (state s) (state s')) →
  (oS' = None → command g = Reset ∨ command g = EndLocal) →
  dir oS' oR (chan ++ [g]) back (sent ++ data_of g) rcvd.
Proof.
  intros Hp Hs Hn. destruct (push_step_frame _ _ Hs Hn) as (Hb & Hdat & Hok).
  destruct D. split; rewrite ?datab_snoc.
  - intros r Hr. specialize (d_flow0 r Hr). rewrite zlen_app. lia.
  - by apply nocmd_snoc.
  - by apply prefix_app_r.
  - intros r Hr Hrec. by rewrite app_assoc, (d_open0 r Hr Hrec).
  - intros r Hr Hst. destruct (d_pending0 r Hr Hst) as (-> & -> & ? & ? & HS).
    assert (command g ≠ Data) as Hd.
    { intros E. destruct (Hdat E) as (s & E' & Hsd). specialize (HS s E').
      unfold sending in Hsd. naive_solver congruence. }
    rewrite data_of_nil by done. split_and!; try done; [by apply nocmd_snoc|].
    intros s' Hs'. destruct (Hs s' Hs') as (s & E & Hps). specialize (HS s E).
    unfold push_step in Hps. destruct (command g); naive_solver congruence.
  - intros r Hr Hst. destruct (d_waiting0 r Hr Hst) as [-> Hrd]. split; [done|].
    destruct (decide (command g = BeginOk)) as [E|E]; [|by apply ready_snoc].
    destruct (Hok E) as (s & E' & H). destruct (d_early0 s E') as [-> ?]; [by right|].
    rewrite data_of_nil by congruence. apply nodata_ready; congruence.
  - intros s' Hs' Hst. destruct (Hs s' Hs') as (s & E & Hps).
    assert (state s = state s' ∧ command g ≠ Data) as [Est Hd]
      by (unfold push_step in Hps; destruct (command g); naive_solver congruence).
    rewrite data_of_nil, app_nil_r by done. destruct (d_early0 s E) as [? ?]; [by rewrite Est|].
    split; [done|by apply nocmd_snoc].
  - intros s' Hs' Hst. destruct (Hs s' Hs') as (s & E & Hps).
    apply nocmd_snoc; [apply (d_sending0 s E)|]; intros ?;
      unfold push_step in Hps; destruct (command g); naive_solver congruence.
  - apply eof_snoc; [done|]. destruct (decide (command g = Data)) as [E|]; [|by right].
    destruct (Hdat E) as (s & E' & Hsd). left. apply (d_sending0 s E').
    unfold sending in Hsd. naive_solver congruence.
  - intros r Hr Hst. destruct (d_done0 r Hr Hst) as [-> HS]. split.
    + rewrite data_of_nil, app_nil_r; [done|]. intros E. destruct (Hdat E) as (s & E' & Hsd).
      specialize (HS s E'). unfold sending in Hsd. naive_solver congruence.
    + intros s' Hs'. destruct (Hs s' Hs') as (s & E & Hps). specialize (HS s E).
      unfold push_step in Hps. destruct (command g); naive_solver congruence.
Qed.

(** The receiver changes by itself and queues frames back. *)
Lemma dir_receiver oR' back' :
  (∀ r', oR' = Some r' → ∃ r, oR = Some r ∧ receiver_step (state r) (state r') ∧
     potential oS back' + recv_window r ≤ potential oS back + recv_window r' ∧
     (state r' = SynReceived → nocmd BeginOk back → nocmd BeginOk back')) →
  dir oS oR' chan back' sent rcvd.
Proof.
  intros H. destruct D. split; try done; intros r' Hr'; destruct (H r' Hr') as (r & E & Hst & Hp & Hb);
    unfold receiver_step, receiving in *.
  - specialize (d_flow0 r E). lia.
  - intros Hrec. destruct Hst as [Hst|[[Hst _]|[Hst _]]].
    + apply (d_open0 r E). by rewrite Hst.
    + destruct (d_pending0 r E Hst) as (-> & -> & Hn & _). by apply nocmd_data.
    + apply (d_open0 r E). by left.
  - intros Hst'. assert (state r = SynReceived) as Hr by naive_solver congruence.
    destruct (d_pending0 r E Hr) as (? & ? & ? & ? & ?). split_and!; auto.
  - intros Hst'. apply (d_waiting0 r E). naive_solver congruence.
  - intros Hst'. apply (d_done0 r E). naive_solver congruence.
Qed.
End dir.

(** ** Effects on either end *)
Ltac flow_lia := unfold data_of; simpl; change (zlen (@nil byte)) with 0; lia.

Lemma dir_sender_local p id oS oS' oR chan back sent rcvd fs :
  dir oS oR chan back sent rcvd → local_effect p id oS oS' fs → (oS = None → oS' = None) →
  (∀ s, oS = Some s → 0 ≤ send_credit s) →
  dir oS' oR (chan ++ fs) back (sent ++ datab fs) rcvd.
Proof.
  intros D He Hnew Hc. pose proof (wu_sum_nonneg back) as Hw.
  assert (∀ g, datab [g] = data_of g) as Hg by (intros g; apply (app_nil_r (data_of g))).
  inversion He as [o|b|s fs' Hst Hfs|s c b Hcs|s b Hst Hb|s Hst|s delta Hd Hr]; subst;
    rewrite ?Hg.
  - by rewrite !app_nil_r.
  - by specialize (Hnew eq_refl).
  - destruct Hfs as [->| ->].
    + rewrite Hg. eapply dir_push; [exact D|flow_lia| |done]. intros s' [= <-]. by exists s.
    + rewrite !app_nil_r. eapply dir_sender; [exact D|flow_lia|done|]. intros s' [= <-].
      exists s. split; [done|]. right. by left.
  - specialize (Hc s eq_refl). eapply dir_push; [exact D| |done|simpl; intros _; tauto].
    destruct Hcs as [->|[-> _]]; flow_lia.
  - eapply dir_push; [exact D|flow_lia| |done]. intros s' [= <-]. by exists s.
  - eapply dir_push; [exact D|flow_lia| |done]. intros s' [= <-]. by exists s.
  - eapply dir_push; [exact D|flow_lia| |done]. intros s' [= <-]. by exists s.
Qed.

Lemma dir_receiver_local p id oS oR oR' chan back sent rcvd fs :
  dir oS oR chan back sent rcvd → local_effect p id oR oR' fs → (oR = None → oR' = None) →
  dir oS oR' chan (back ++ fs) sent rcvd.
Proof.
  intros D He Hnew. eapply dir_receiver; [exact D|]. intros r' ->.
  assert (∀ fs, wu_sum fs = 0 → potential oS (back ++ fs) = potential oS back) as Hpot.
  { intros k Hk. destruct oS; simpl; rewrite ?wu_sum_app; lia. }
  inversion He as [o|b|s fs' Hst Hfs| |s b Hst Hb|s Hst|s delta Hd Hr]; subst.
  - exists r'. rewrite app_nil_r. split_and!; try done. by left.
  - by specialize (Hnew eq_refl).
  - exists s. rewrite Hpot by (destruct Hfs as [->| ->]; done).
    split_and!; simpl; try done. right. by left.
  - exists s. rewrite Hpot by done. split_and!; try done; [by left|].
    intros ? ?. by apply nocmd_snoc.
  - exists s. rewrite Hpot by done. split_and!; try done. by right; right.
  - exists s. split_and!; try done; [by left| |intros ? ?; by apply nocmd_snoc].
    destruct oS; simpl; [|unfold in_u32 in Hd; lia]. rewrite wu_sum_app. simpl. unfold wu_of. simpl.
    rewrite be_val_be_bytes_small; [lia|]. unfold in_u32, u32_max in Hd. lia.
Qed.

(** A frame other than [Begin] that respects the window: no reply, and the
    entry changes as a sender's may. *)
Lemma recv_effect_sender p f o o' fs dl :
  recv_effect p f o o' fs dl → command f ≠ Begin →
  (∀ s, o = Some s → zlen (data_of f) ≤ recv_window s) →
  fs = [] ∧
  ∀ s', o' = Some s' → ∃ s, o = Some s ∧ sender_step [f] (state s) (state s') ∧
    send_credit s' ≤ send_credit s + wu_of f.
Proof.
  intros He Hb Hfl. pose proof (wu_of_nonneg f) as Hwf. unfold sender_step.
  inversion He as [o1 Hdt Hok|o1 b|t|s Hcm Hst|s Hcm Hst Hl|s o1 fs' Hcm Hl|s Hcm|s Hcm Hst|s Hcm];
    subst; try done; try (split; [done|]; intros s' [= <-]; exists s; simpl).
  - split; [done|]. intros s' ->. exists s'. split_and!; [done|by left|lia].
  - split_and!; [done| |lia]. do 4 right. split_and!; [done|done|]. inversion 1. congruence.
  - split_and!; [done|by left|lia].
  - specialize (Hfl s eq_refl). unfold data_of in Hfl. rewrite Hcm in Hfl. lia.
  - split_and!; [done|by left|]. unfold wu_of. rewrite Hcm. unfold saturating_add_u32. lia.
  - split_and!; [done| |lia]. do 3 right. by left.
Qed.

(** The sender takes a frame the other direction carried. *)
Lemma dir_sender_recv p f oS oS' oR chan back sent rcvd fs dl :
  dir oS oR chan (f :: back) sent rcvd → recv_effect p f oS oS' fs dl →
  command f ≠ Begin → (∀ s, oS = Some s → 0 ≤ send_credit s) →
  (∀ s, oS = Some s → zlen (data_of f) ≤ recv_window s) →
  fs = [] ∧ dir oS' oR chan back sent rcvd.
Proof.
  intros D He Hb Hc Hfl. pose proof (wu_sum_nonneg back) as Hw. pose proof (wu_of_nonneg f) as Hwf.
  destruct (recv_effect_sender _ _ _ _ _ _ He Hb Hfl) as [-> Hs]. split; [done|].
  eapply dir_sender; [exact D| |by inversion 1|].
  - destruct oS' as [s'|]; simpl.
    + destruct (Hs s' eq_refl) as (s & -> & _ & ?). simpl. lia.
    + destruct oS as [s|]; simpl; [|done]. specialize (Hc s eq_refl). lia.
  - intros s' Hs'. destruct (Hs s' Hs') as (s & E & Hst & _). exists s. split; [done|].
    unfold sender_step in *. destruct Hst as [?|[?|[?|[?|(? & ? & Hn)]]]]; auto 6.
    do 4 right. split_and!; try done. intros Hn'. apply Hn. constructor; [by inversion Hn'|done].
Qed.

(** The receiver takes the next frame of the direction. *)
Lemma dir_pop oS oR f chan back sent rcvd :
  dir oS oR (f :: chan) back sent rcvd →
  (∀ r, oR = Some r → command f = Data → ¬ receiving r) →
  (∀ r, oR = Some r → command f = BeginOk → state r ≠ SynSent) →
  dir oS oR chan back sent rcvd.
Proof.
  intros [] Hdt Hok. pose proof (zlen_nonneg (data_of f)) as Hz. rewrite datab_cons in *.
  split; try done.
  - intros r Hr. specialize (d_flow0 r Hr). rewrite zlen_app in d_flow0. lia.
  - by inversion d_begin0.
  - intros r Hr Hrec. rewrite <- (d_open0 r Hr Hrec), (data_of_nil f); [done|]. naive_solver.
  - intros r Hr Hst. destruct (d_pending0 r Hr Hst) as (? & ? & Hn & ?).
    by inversion Hn.
  - intros r Hr Hst. destruct (d_waiting0 r Hr Hst) as [? Hrd]. split; [done|].
    simpl in Hrd. destruct (command f) eqn:E; try done; [naive_solver|].
    clear -Hrd. induction Hrd as [|g l Hg Hl IH]; simpl; [done|]. by destruct (command g).
  - intros s Hs Hst. destruct (d_early0 s Hs Hst) as [? Hn]. by inversion Hn.
  - intros s Hs Hst. specialize (d_sending0 s Hs Hst) as Hn. by inversion Hn.
  - apply d_eof0.
Qed.

(** After a frame is taken, only the receiver's own clauses remain to be shown. *)
Lemma dir_take oS oR oR' f chan back sent rcvd rcvd' :
  dir oS oR (f :: chan) back sent rcvd → rcvd' `prefix_of` sent →
  (∀ r, oR' = Some r →
     zlen (datab chan) + potential oS back ≤ recv_window r ∧
     (receiving r → rcvd' ++ datab chan = sent) ∧
     state r ≠ SynReceived ∧ state r ≠ SynSent ∧
     (state r = HalfClosedRemote →
        rcvd' = sent ∧ (∀ s, oS = Some s → state s = HalfClosedLocal))) →
  dir oS oR' chan back sent rcvd'.
Proof.
  intros [] Hp Hr. split; try done; try (intros r Hr'; by destruct (Hr r Hr') as (? & ? & ? & ? & ?)).
  - by inversion d_begin0.
  - intros s Hs Hst. destruct (d_early0 s Hs Hst) as [? Hn]. by inversion Hn.
  - intros s Hs Hst. specialize (d_sending0 s Hs Hst) as Hn. by inversion Hn.
  - apply d_eof0.
Qed.

Lemma dir_window oS oR f chan back sent rcvd r :
  dir oS oR (f :: chan) back sent rcvd → oR = Some r →
  zlen (data_of f) + zlen (datab chan) + potential oS back ≤ recv_window r.
Proof. intros D Hr. pose proof (d_flow _ _ _ _ _ _ D r Hr) as H. rewrite datab_cons, zlen_app in H. lia. Qed.

(** An [EndLocal] in flight: nothing follows it, and the sender is done. *)
Lemma dir_end oS oR f chan back sent rcvd r :
  dir oS oR (f :: chan) back sent rcvd → command f = EndLocal → oR = Some r → receiving r →
  rcvd = sent ∧ (∀ s, oS = Some s → state s = HalfClosedLocal).
Proof.
  intros [] Hf Hr Hrec. split.
  - rewrite <- (d_open0 r Hr Hrec). simpl in d_eof0. destruct d_eof0 as [He _].
    rewrite datab_cons, data_of_nil, (nocmd_data chan), app_nil_r by (congruence || auto). done.
  - intros s Hs. destruct (decide (state s = HalfClosedLocal)) as [|Hn]; [done|].
    specialize (d_sending0 s Hs Hn) as H. by inversion H.
Qed.

Lemma dir_receiver_recv p f oS oR oR' chan back sent rcvd fs dl :
  dir oS oR (f :: chan) back sent rcvd → recv_effect p f oR oR' fs dl →
  potential oS back >= 0 → dir oS oR' chan back sent (rcvd ++ dl).
Proof.
  intros D He Hpot. pose proof (λ r, dir_window _ _ _ _ _ _ _ r D) as Hw.
  pose proof (zlen_nonneg (datab chan)) as Hz. pose proof (zlen_nonneg (data_of f)) as Hzf.
  pose proof (d_begin _ _ _ _ _ _ D) as Hb. inversion Hb as [|? ? Hbf _]; subst.
  pose proof (d_prefix _ _ _ _ _ _ D) as Hpre.
  inversion He as [o1 Hdt Hok|o1 b|t|r Hcm Hst|r Hcm Hst Hl|r o1 fs' Hcm Hl|r Hcm|r Hcm Hst|r Hcm];
    subst; rewrite ?app_nil_r; try done; try specialize (Hw r eq_refl).
  - by eapply dir_pop.
  - eapply dir_take; [exact D|done|]. intros r' [= <-]. simpl.
    destruct (d_waiting _ _ _ _ _ _ D r eq_refl Hst) as [-> Hrd]. simpl in Hrd. rewrite Hcm in Hrd.
    split_and!; try done. lia.
  - assert (data_of f = body f) as Hd by (unfold data_of; by rewrite Hcm). rewrite Hd in Hw.
    pose proof (d_open _ _ _ _ _ _ D r eq_refl Hst) as Ho. rewrite datab_cons, Hd in Ho.
    eapply dir_take; [exact D| |].
    + rewrite <- Ho, app_assoc. by apply prefix_app_r.
    + intros r' [= <-]. simpl. rewrite <- app_assoc. unfold receiving in Hst.
      split_and!; try done; [lia|naive_solver congruence..].
  - unfold data_of in Hw. rewrite Hcm in Hw. lia.
  - assert (dir oS (Some r) chan back sent rcvd) as D' by (eapply dir_pop; [done|congruence..]).
    eapply dir_receiver; [exact D'|]. intros r' [= <-]. exists r. split_and!; try done; [by left].
  - destruct (dir_end _ _ _ _ _ _ _ r D Hcm eq_refl) as [-> HS]; [by left|].
    eapply dir_take; [exact D|done|]. intros r' [= <-]. unfold receiving. simpl.
    split_and!; try done; [lia|naive_solver].
  - by eapply dir_take.
Qed.
