(* ===== verification/MuxLink.v ===== *)
(** * Two multiplexers joined by a carrier

    Two [MuxState]s, one per role, exchange frames over a reliable ordered
    carrier in each direction, which is what the encrypted session gives the
    driver (crates/mux/src/conn.rs). Each side may call any local operation at
    any time, drain its queue onto the carrier (through the scheduler, which
    reorders across streams), or take the next frame off the carrier, in any
    interleaving. Per-stream flow control is then sound, and a stream carries
    its bytes in order and without loss. *)

From stdpp Require Import base numbers list gmap strings.
From Stdlib Require Import ZArith Lia Strings.Byte.
From S2P Require Import Prelude Bytes MuxFrame MuxTarget MuxStream MuxSched MuxState MuxInv MuxProps MuxEffect MuxFlow.

(** ** Both directions of one stream

    [ox], [oy]: the entries at the side that opens the stream (the owner of its
    id) and at its peer; [xy], [yx]: the frames in flight; [sx], [rx]: the bytes
    the owner sent and received. *)
Inductive stream_inv (iw : Z) : bool → option Stream → option Stream →
    list MuxFrame → list MuxFrame →
    list byte → list byte → list byte → list byte → Prop :=
| si_idle opened : stream_inv iw opened None None [] [] [] [] [] []
| si_begin ox f rest :
    command f = Begin → nocmd Begin rest → nocmd Data rest → nocmd EndLocal rest →
    (∀ s, ox = Some s → state s = SynSent ∧ send_credit s ≤ iw ∧
                        iw + wu_sum rest ≤ recv_window s) →
    stream_inv iw true ox None (f :: rest) [] [] [] [] []
| si_run ox oy xy yx sx rx sy ry :
    dir ox oy xy yx sx ry → dir oy ox yx xy sy rx →
    stream_inv iw true ox oy xy yx sx rx sy ry.

Lemma dir_empty oS : dir oS None [] [] [] [].
Proof. split; try done; intros; try split; by constructor. Qed.

Definition credit_ok (o : option Stream) : Prop :=
  ∀ s, o = Some s → 0 ≤ send_credit s.

Lemma potential_nonneg o l : credit_ok o → 0 ≤ potential o l.
Proof.
  intros H. destruct o as [s|]; simpl; [|done]. specialize (H s eq_refl).
  pose proof (wu_sum_nonneg l). lia.
Qed.

Section stream.
Context (p : MuxPolicy) (id : Z) (ox oy : option Stream) (xy yx : list MuxFrame).
Context (opened : bool) (sx rx sy ry : list byte).
Context (SI : stream_inv (initial_window p) opened ox oy xy yx sx rx sy ry).
Context (Cx : credit_ok ox) (Cy : credit_ok oy) (Hiw : 0 ≤ initial_window p).

Lemma si_opened : stream_inv (initial_window p) true ox oy xy yx sx rx sy ry.
Proof. destruct SI; by econstructor. Qed.

Lemma si_owner_local ox' fs opened' :
  local_effect p id ox ox' fs →
  (opened = true → opened' = true ∧ (ox = None → ox' = None)) →
  (ox = None → ox' ≠ None → opened' = true) →
  stream_inv (initial_window p) opened' ox' oy (xy ++ fs) yx (sx ++ datab fs) rx sy ry.
Proof.
  intros He Hop Hnew. destruct SI as [op|ox f rest Hf Hb Hd He' Hs|ox oy xy yx sx rx sy ry D1 D2].
  - inversion He; subst; [constructor|]. rewrite Hnew by done.
    apply si_begin; try by constructor. intros s' [= <-]. split_and!; simpl; [done|lia..].
  - destruct (Hop eq_refl) as [-> Hn].
    assert (∀ fs', datab fs' = [] → nocmd Begin fs' → nocmd Data fs' → nocmd EndLocal fs' →
      (∀ s, ox' = Some s → state s = SynSent ∧ send_credit s ≤ initial_window p ∧
         initial_window p + wu_sum (rest ++ fs') ≤ recv_window s) →
      stream_inv (initial_window p) true ox' None ((f :: rest) ++ fs') [] (datab fs') [] [] []) as Hgo.
    { intros fs' Hfs' ? ? ? ?. rewrite Hfs'. by apply si_begin; try apply Forall_app_2. }
    inversion He as [o|b|s fs' Hst Hfs|s c b Hcs|s b Hst Hbd|s Hst|s delta Hdl Hr]; subst; simpl app.
    + apply (Hgo []); try done; [constructor..|by rewrite app_nil_r].
    + by specialize (Hn eq_refl).
    + destruct (Hs s eq_refl). congruence.
    + destruct Hcs as [->|[-> Hst]].
      * apply (Hgo [_]); try done; by repeat constructor.
      * destruct (Hs s eq_refl). congruence.
    + unfold sending in Hst. destruct (Hs s eq_refl). naive_solver congruence.
    + destruct (Hs s eq_refl). congruence.
    + apply (Hgo [_]); try done; try by repeat constructor. intros s' [= <-].
      destruct (Hs s eq_refl) as (? & ? & ?). split_and!; try done.
      rewrite wu_sum_app. simpl. unfold wu_of. simpl. unfold in_u32, u32_max in Hdl.
      rewrite be_val_be_bytes_small; lia.
  - destruct (Hop eq_refl) as [-> Hn]. apply si_run.
    + by eapply dir_sender_local.
    + by eapply dir_receiver_local.
Qed.

Lemma si_peer_local oy' fs :
  local_effect p id oy oy' fs → (oy = None → oy' = None) →
  stream_inv (initial_window p) opened ox oy' xy (yx ++ fs) sx rx (sy ++ datab fs) ry.
Proof.
  intros He Hn. destruct SI as [op|ox f rest|ox oy xy yx sx rx sy ry D1 D2].
  - inversion He; subst; [constructor|]. by specialize (Hn eq_refl).
  - inversion He; subst; [by apply si_begin|]. by specialize (Hn eq_refl).
  - apply si_run; [by eapply dir_receiver_local|by eapply dir_sender_local].
Qed.
End stream.

(** A frame the direction carries never exceeds the receiver's window. *)
Lemma dir_head_fits oS oR f chan back sent rcvd r :
  dir oS oR (f :: chan) back sent rcvd → credit_ok oS → oR = Some r →
  zlen (data_of f) ≤ recv_window r.
Proof.
  intros D C Hr. pose proof (dir_window _ _ _ _ _ _ _ r D Hr).
  pose proof (potential_nonneg _ back C). pose proof (zlen_nonneg (datab chan)). lia.
Qed.

(** The receiver of a direction takes its next frame: both directions. *)
Lemma dirs_recv p f oS oR oR' chan back sent rcvd sent' rcvd' fs dl :
  dir oS oR (f :: chan) back sent rcvd → dir oR oS back (f :: chan) sent' rcvd' →
  credit_ok oS → credit_ok oR → recv_effect p f oR oR' fs dl →
  dir oS oR' chan (back ++ fs) sent (rcvd ++ dl) ∧ dir oR' oS (back ++ fs) chan sent' rcvd'.
Proof.
  intros D1 D2 CS CR He. pose proof (d_begin _ _ _ _ _ _ D1) as Hb. inversion Hb; subst.
  destruct (dir_sender_recv _ _ _ _ _ _ _ _ _ _ _ D2 He) as [-> D2']; try done.
  { intros s Hs. by eapply dir_head_fits. }
  rewrite app_nil_r. split; [|done]. eapply dir_receiver_recv; [exact D1|exact He|].
  pose proof (potential_nonneg _ back CS). lia.
Qed.

Lemma si_owner_recv p f opened ox oy ox' xy yx sx rx sy ry fs dl iw :
  stream_inv iw opened ox oy xy (f :: yx) sx rx sy ry →
  credit_ok ox → credit_ok oy → recv_effect p f ox ox' fs dl →
  stream_inv iw opened ox' oy (xy ++ fs) yx sx (rx ++ dl) sy ry.
Proof.
  intros SI Cx Cy He. inversion SI; subst.
  edestruct (dirs_recv p f oy ox) as [? ?]; eauto. by apply si_run.
Qed.

(** The peer takes the [Begin]. *)
Lemma si_begin_recv p f ox rest oy' fs dl :
  command f = Begin → nocmd Begin rest → nocmd Data rest → nocmd EndLocal rest →
  (∀ s, ox = Some s → state s = SynSent ∧ send_credit s ≤ initial_window p ∧
                      initial_window p + wu_sum rest ≤ recv_window s) →
  0 ≤ initial_window p → recv_effect p f None oy' fs dl →
  dir ox oy' rest fs [] dl ∧ dir oy' ox fs rest [] [].
Proof.
  intros Hf Hb Hd He Hs Hiw Heff. pose proof (nocmd_data _ Hd) as Hdb.
  assert (∀ s, ox = Some s → state s = SynSent) as Hsyn by (intros s E; by destruct (Hs s E)).
  assert (dl = [] ∧ ∀ r, oy' = Some r → state r = SynReceived ∧
    send_credit r = initial_window p ∧ recv_window r = initial_window p ∧ fs = []) as [-> Hr].
  { inversion Heff; subst; try done; split; try done; by intros r [= <-]. }
  assert (nocmd Begin fs ∧ nocmd Data fs ∧ nocmd BeginOk fs ∧ nocmd EndLocal fs ∧ wu_sum fs = 0) as
    (Fb & Fd & Fo & Fe & Fw) by (inversion Heff; subst; try done; split_and!; by repeat constructor).
  split; split; rewrite ?Hdb, ?(nocmd_data _ Fd); try done; try by apply nodata_eof.
  - intros r E. destruct (Hr r E) as (_ & _ & -> & _). rewrite zlen_nil.
    destruct ox as [s|]; simpl; [|lia]. destruct (Hs s eq_refl). lia.
  - intros r E ?. destruct (Hr r E). congruence.
  - intros r E ?. destruct (Hr r E). congruence.
  - intros r E. destruct (Hs r E) as (_ & _ & ?). rewrite zlen_nil.
    pose proof (wu_sum_nonneg rest). destruct oy' as [s|]; simpl; [|lia].
    destruct (Hr s eq_refl) as (_ & -> & _). lia.
  - intros r E ?. specialize (Hsyn r E). congruence.
  - intros r E ?. split; [done|]. inversion Heff; subst; simpl; done.
  - intros r E ?. specialize (Hsyn r E). congruence.
Qed.

Lemma si_peer_recv p f opened ox oy oy' xy yx sx rx sy ry fs dl :
  stream_inv (initial_window p) opened ox oy (f :: xy) yx sx rx sy ry →
  credit_ok ox → credit_ok oy → 0 ≤ initial_window p → recv_effect p f oy oy' fs dl →
  stream_inv (initial_window p) opened ox oy' xy (yx ++ fs) sx rx sy (ry ++ dl).
Proof.
  intros SI Cx Cy Hiw He. inversion SI; subst.
  - edestruct (si_begin_recv p f) as [? ?]; eauto. by apply si_run.
  - edestruct (dirs_recv p f ox oy) as [? ?]; eauto. by apply si_run.
Qed.

(** ** What an operation leaves alone *)
Definition next_id (st : MuxState) : Z := next (id_allocator st).

Ltac config_cases := repeat case_match; simpl; split_and!; (done || lia).

Lemma recv_config f st :
  mux_inv st → frame_wf f →
  role (recv f st).1 = role st ∧ policy (recv f st).1 = policy st ∧
  id_allocator (recv f st).1 = id_allocator st.
Proof.
  intros I [Hid Hb]. unfold recv. destruct (command f).
  - rewrite recv_begin_eq by (done || lia). config_cases.
  - rewrite recv_begin_ok_eq. config_cases.
  - rewrite recv_data_eq by (done || (unfold u32_max in *; lia)). config_cases.
  - rewrite recv_window_update_eq. config_cases.
  - rewrite recv_end_local_eq by done. config_cases.
  - rewrite recv_reset_eq by done. config_cases.
Qed.

Lemma local_config op st :
  mux_inv st → ids_left st → op_typed op → is_local op = true →
  role (mux_exec op st) = role st ∧ policy (mux_exec op st) = policy st ∧
  next_id st ≤ next_id (mux_exec op st).
Proof.
  intros I Hl Ht Hloc. unfold next_id.
  destruct op as [t|i|i|i payload|i|i code|i delta| |]; try done; simpl.
  - rewrite open_local_eq by done. config_cases.
  - rewrite accept_eq by done. config_cases.
  - rewrite reject_eq by done. config_cases.
  - rewrite send_data_eq by done. cbv zeta. config_cases.
  - rewrite end_local_eq by done. config_cases.
  - rewrite reset_eq by done. config_cases.
  - rewrite grant_credit_eq by done. config_cases.
Qed.

(** Only [open_local] creates an entry, under the id the allocator held. *)
Lemma local_creates op st id :
  mux_inv st → ids_left st → op_typed op → is_local op = true →
  streams st !! id = None → streams (mux_exec op st) !! id ≠ None →
  id = next_id st ∧ role_owns (role st) id = true ∧ id < next_id (mux_exec op st).
Proof.
  intros I Hl Ht Hloc Hno. unfold next_id.
  assert (∀ i f, alter f i (streams st) !! id = None) as Ha.
  { intros i f. destruct (decide (id = i)) as [->|];
      [rewrite lookup_alter_eq, Hno|rewrite lookup_alter_ne]; done. }
  assert (∀ i, delete i (streams st) !! id = None) as Hd.
  { intros i. destruct (decide (id = i)) as [->|];
      [apply lookup_delete_eq|by rewrite lookup_delete_ne]. }
  destruct op as [t|i|i|i payload|i|i code|i delta| |]; try done; simpl.
  - destruct (mux_inv_alloc st I Hl) as (_ & _ & _ & Hr & _).
    rewrite open_local_eq by done. repeat case_match; simpl; try done.
    intros Hne. destruct (decide (id = next (id_allocator st))) as [->|];
      [split_and!; (done || lia)|]. by rewrite lookup_insert_ne in Hne.
  - rewrite accept_eq by done. repeat case_match; simpl; rewrite ?Ha; done.
  - rewrite reject_eq by done. repeat case_match; simpl; rewrite ?Hd; done.
  - rewrite send_data_eq by done. cbv zeta. repeat case_match; simpl; rewrite ?Ha; done.
  - rewrite end_local_eq by done. repeat case_match; simpl; rewrite ?Ha, ?Hd; done.
  - rewrite reset_eq by done. repeat case_match; simpl; rewrite ?Hd; done.
  - rewrite grant_credit_eq by done. repeat case_match; simpl; rewrite ?Ha; done.
Qed.

Lemma recv_rcvd_other f st id :
  mux_inv st → frame_wf f → id ≠ stream_id f → recv_rcvd f st id = [].
Proof.
  intros I [Hid Hb] Hne. unfold recv_rcvd, recv. destruct (command f).
  - rewrite recv_begin_eq by (done || lia). repeat case_match; simplify_eq/=; done.
  - rewrite recv_begin_ok_eq. repeat case_match; simplify_eq/=; done.
  - rewrite recv_data_eq by (done || (unfold u32_max in *; lia)). repeat case_match; simplify_eq/=; done.
  - rewrite recv_window_update_eq. repeat case_match; simplify_eq/=; done.
  - rewrite recv_end_local_eq by done. repeat case_match; simplify_eq/=; done.
  - rewrite recv_reset_eq by done. repeat case_match; simplify_eq/=; done.
Qed.

(** ** Endpoints and the link *)

(** A multiplexer, and per stream the bytes its application handed to
    [send_data] (as far as it took them) and got from [recv]. *)
Record endpoint : Type := mkEnd {
  mx : MuxState;
  sent_log : Z → list byte;
  rcvd_log : Z → list byte;
}.

Record link : Type := mkLink {
  ea : endpoint; eb : endpoint;
  ab : list MuxFrame; ba : list MuxFrame;
}.

Definition ep_local (op : mux_op) (e : endpoint) : endpoint :=
  mkEnd (mux_exec op (mx e)) (λ id, sent_log e id ++ op_sent op (mx e) id) (rcvd_log e).
Definition ep_recv (f : MuxFrame) (e : endpoint) : endpoint :=
  mkEnd (mux_exec (OpRecv f) (mx e)) (sent_log e)
    (λ id, rcvd_log e id ++ recv_rcvd f (mx e) id).
Definition ep_drain (e : endpoint) : endpoint :=
  mkEnd (mux_exec OpDrain (mx e)) (sent_log e) (rcvd_log e).

Definition swap (l : link) : link := mkLink (eb l) (ea l) (ba l) (ab l).

(** A step of the first endpoint. *)
Inductive side_step (l : link) : link → Prop :=
| side_local op :
    op_typed op → is_local op = true → ids_left (mx (ea l)) → grant_ok op (mx (ea l)) →
    side_step l (mkLink (ep_local op (ea l)) (eb l) (ab l) (ba l))
| side_drain :
    side_step l (mkLink (ep_drain (ea l)) (eb l)
                   (ab l ++ (pending_outbound (mx (ea l))).2) (ba l))
| side_recv f rest :
    ba l = f :: rest →
    side_step l (mkLink (ep_recv f (ea l)) (eb l) (ab l) rest).

Inductive link_step (l l' : link) : Prop :=
| step_a : side_step l l' → link_step l l'
| step_b : side_step (swap l) (swap l') → link_step l l'.

Definition ep_new (r : StreamRole) (p : MuxPolicy) : endpoint :=
  mkEnd (MuxState_new r p) (λ _, []) (λ _, []).

Inductive link_reachable (r : StreamRole) (pa pb : MuxPolicy) : link → Prop :=
| link_new :
    link_reachable r pa pb (mkLink (ep_new r pa) (ep_new (opposite_role r) pb) [] [])
| link_next l l' :
    link_reachable r pa pb l → link_step l l' → link_reachable r pa pb l'.

(** ** Invariant of the link *)
Definition flight (chan : list MuxFrame) (x : endpoint) (id : Z) : list MuxFrame :=
  of_stream id (chan ++ outbound (mx x)).

Definition view (iw : Z) (x y : endpoint) (xy yx : list MuxFrame) (id : Z) : Prop :=
  stream_inv iw (bool_decide (id < next_id (mx x)))
    (streams (mx x) !! id) (streams (mx y) !! id) (flight xy x id) (flight yx y id)
    (sent_log x id) (rcvd_log x id) (sent_log y id) (rcvd_log y id).

Record link_inv (iw : Z) (l : link) : Prop := {
  li_a : mux_inv (mx (ea l));
  li_b : mux_inv (mx (eb l));
  li_role : role (mx (eb l)) = opposite_role (role (mx (ea l)));
  li_iwa : initial_window (policy (mx (ea l))) = iw;
  li_iwb : initial_window (policy (mx (eb l))) = iw;
  li_ab : Forall frame_wf (ab l);
  li_ba : Forall frame_wf (ba l);
  li_va : ∀ id, role_owns (role (mx (ea l))) id = true →
            view iw (ea l) (eb l) (ab l) (ba l) id;
  li_vb : ∀ id, role_owns (role (mx (eb l))) id = true →
            view iw (eb l) (ea l) (ba l) (ab l) id;
}.

Lemma link_inv_swap iw l : link_inv iw l → link_inv iw (swap l).
Proof.
  intros []. split; simpl; try done. rewrite li_role0. by destruct (role (mx (ea l))).
Qed.

Lemma mux_credit_ok st id : mux_inv st → credit_ok (streams st !! id).
Proof.
  intros I s Hs. destruct (mi_streams _ I id s Hs) as (_ & Hc & _). unfold in_u32 in Hc. lia.
Qed.

Lemma mux_iw_nonneg st : mux_inv st → 0 ≤ initial_window (policy st).
Proof. intros I. destruct (mi_policy _ I) as (Hc & _). unfold in_u32 in Hc. lia. Qed.

Section local.
Context (op : mux_op) (x y : endpoint) (xy yx : list MuxFrame) (iw : Z) (id : Z).
Context (Ix : mux_inv (mx x)) (Iy : mux_inv (mx y)).
Context (Hiw : initial_window (policy (mx x)) = iw).
Context (Ht : op_typed op) (Hloc : is_local op = true).
Context (Hl : ids_left (mx x)) (Hg : grant_ok op (mx x)).

Lemma local_flight : ∃ fs,
  flight xy (ep_local op x) id = flight xy x id ++ fs ∧
  local_effect (policy (mx x)) id (streams (mx x) !! id)
    (streams (mx (ep_local op x)) !! id) fs ∧
  sent_log (ep_local op x) id = sent_log x id ++ datab fs.
Proof.
  destruct (local_effect_exec _ Ix op Hl Ht Hloc Hg id) as (fs & Ho & He & Hd).
  exists fs. split_and!; [|done|by rewrite Hd].
  unfold flight. simpl. by rewrite !of_stream_app, Ho, app_assoc.
Qed.

Lemma view_owner_local : view iw x y xy yx id → view iw (ep_local op x) y xy yx id.
Proof.
  intros V. destruct local_flight as (fs & Hf & He & Hs). unfold view in *.
  rewrite Hf, Hs. rewrite <- Hiw in *.
  destruct (local_config op (mx x)) as (_ & _ & Hn); try done.
  eapply si_owner_local; [exact V|apply mux_credit_ok, Ix|apply mux_credit_ok, Iy|exact He| |].
  - intros Ho%bool_decide_eq_true. split; [apply bool_decide_eq_true; simpl; lia|].
    intros Hno. destruct (streams (mx (ep_local op x)) !! id) eqn:E; [|done].
    destruct (local_creates op (mx x) id) as (-> & _); try done; [by simpl in E; rewrite E|lia].
  - intros Hno Hnew. apply bool_decide_eq_true. simpl.
    destruct (local_creates op (mx x) id) as (_ & _ & ?); done.
Qed.

Lemma view_peer_local :
  role_owns (role (mx x)) id = false →
  view iw y x yx xy id → view iw y (ep_local op x) yx xy id.
Proof.
  intros Hr V. destruct local_flight as (fs & Hf & He & Hs). unfold view in *.
  rewrite Hf, Hs. rewrite <- Hiw in *.
  eapply si_peer_local; [exact V|apply mux_credit_ok, Iy|apply mux_credit_ok, Ix|exact He|].
  intros Hno. destruct (streams (mx (ep_local op x)) !! id) eqn:E; [|done].
  destruct (local_creates op (mx x) id) as (_ & ? & _); try done; [by simpl in E; rewrite E|congruence].
Qed.
End local.

Section recv.
Context (f : MuxFrame) (x y : endpoint) (xy yx : list MuxFrame) (iw : Z) (id : Z).
Context (Ix : mux_inv (mx x)) (Iy : mux_inv (mx y)).
Context (Hiw : initial_window (policy (mx x)) = iw) (Hf : frame_wf f).

Lemma recv_flight_other :
  id ≠ stream_id f →
  flight (f :: yx) y id = flight yx y id ∧
  flight xy (ep_recv f x) id = flight xy x id ∧
  streams (mx (ep_recv f x)) !! id = streams (mx x) !! id ∧
  rcvd_log (ep_recv f x) id = rcvd_log x id.
Proof.
  intros Hne. destruct (recv_effect_exec _ Ix f Hf) as [Ho _]. destruct (Ho id Hne) as [Hs Hout].
  split_and!; [| |done|].
  - unfold flight, of_stream. simpl. rewrite filter_cons_False; [done|]. intros E. congruence.
  - unfold flight. simpl in *. by rewrite !of_stream_app, Hout.
  - simpl. by rewrite recv_rcvd_other, app_nil_r.
Qed.

Lemma recv_flight_own :
  id = stream_id f →
  flight (f :: yx) y id = f :: flight yx y id ∧
  ∃ fs, flight xy (ep_recv f x) id = flight xy x id ++ fs ∧
    recv_effect (policy (mx x)) f (streams (mx x) !! id) (streams (mx (ep_recv f x)) !! id)
      fs (recv_rcvd f (mx x) id).
Proof.
  intros ->. destruct (recv_effect_exec _ Ix f Hf) as [_ (fs & Ho & He)].
  split; [unfold flight, of_stream; simpl; by rewrite filter_cons_True|].
  exists fs. split; [|done]. unfold flight. simpl in *. by rewrite !of_stream_app, Ho, app_assoc.
Qed.

Lemma view_owner_recv : view iw x y xy (f :: yx) id → view iw (ep_recv f x) y xy yx id.
Proof.
  intros V. destruct (recv_config f (mx x) Ix Hf) as (_ & _ & Ha).
  assert (next_id (mx (ep_recv f x)) = next_id (mx x)) as Hn by (unfold next_id; simpl; by rewrite Ha).
  unfold view in *. rewrite Hn. destruct (decide (id = stream_id f)) as [E|E].
  - destruct (recv_flight_own E) as (Hin & fs & Hout & He). rewrite Hin in V. rewrite Hout.
    eapply si_owner_recv; [exact V| | |exact He]; by apply mux_credit_ok.
  - destruct (recv_flight_other E) as (Hin & -> & -> & ->). by rewrite Hin in V.
Qed.

Lemma view_peer_recv : view iw y x (f :: yx) xy id → view iw y (ep_recv f x) yx xy id.
Proof.
  intros V. unfold view in *. destruct (decide (id = stream_id f)) as [E|E].
  - destruct (recv_flight_own E) as (Hin & fs & Hout & He). rewrite Hin in V. rewrite Hout.
    rewrite <- Hiw in *.
    eapply si_peer_recv; [exact V| | |by apply mux_iw_nonneg|exact He]; by apply mux_credit_ok.
  - destruct (recv_flight_other E) as (Hin & -> & -> & ->). by rewrite Hin in V.
Qed.
End recv.

Lemma drain_flight x xy id :
  mux_inv (mx x) →
  flight (xy ++ (pending_outbound (mx x)).2) (ep_drain x) id = flight xy x id.
Proof.
  intros I. unfold flight. simpl. rewrite app_nil_r, !of_stream_app. f_equal.
  apply drr_streams. by destruct (mi_policy _ I) as (_ & _ & _ & ?).
Qed.

Lemma drr_wf frames q : 0 ≤ q → Forall frame_wf frames → Forall frame_wf (deficit_round_robin frames q).
Proof.
  intros Hq Hf. assert (deficit_round_robin frames q ≡ₚ frames) as ->; [|done].
  apply of_stream_perm. intros s. by apply drr_streams.
Qed.

Lemma side_step_inv iw l l' : link_inv iw l → side_step l l' → link_inv iw l'.
Proof.
  intros [] Hs. destruct Hs as [op Ht Hloc Hl Hg| |f rest E].
  - destruct (local_config op (mx (ea l))) as (Hr & Hp & _); try done.
    split; simpl; rewrite ?Hr, ?Hp; try done.
    + by apply mux_exec_inv.
    + intros id Ho. by eapply view_owner_local; auto.
    + intros id Ho. eapply view_peer_local; auto.
      rewrite li_role0, role_owns_opposite in Ho. by apply negb_true_iff in Ho.
  - pose proof (mi_policy _ li_a0) as (_ & _ & _ & Hq).
    split; cbn [ea eb ab ba]; try done.
    + by apply mux_inv_drain.
    + apply Forall_app_2; [done|]. apply drr_wf; [done|apply (mi_frames _ li_a0)].
    + intros id Ho. unfold view. rewrite drain_flight by done. by apply li_va0.
    + intros id Ho. unfold view. rewrite drain_flight by done. by apply li_vb0.
  - rewrite E in *. inversion li_ba0 as [|? ? Hf Hrest]; subst.
    destruct (recv_config f (mx (ea l))) as (Hr & Hp & _); try done.
    split; simpl; rewrite ?Hr, ?Hp; try done.
    + by apply recv_inv.
    + intros id Ho. by apply view_owner_recv; auto.
    + intros id Ho. by apply view_peer_recv; auto.
Qed.

Lemma link_reachable_inv r pa pb l :
  policy_typed pa → policy_typed pb → initial_window pa = initial_window pb →
  link_reachable r pa pb l → link_inv (initial_window pa) l.
Proof.
  intros Ha Hb Hw. induction 1 as [|l l' _ IH [Hs|Hs]].
  - split; simpl; try done; try (by apply mux_inv_new); intros id Ho; constructor.
  - by eapply side_step_inv.
  - assert (link_inv (initial_window pa) (swap l')) as H
      by (eapply side_step_inv; [|exact Hs]; by apply link_inv_swap).
    apply link_inv_swap in H. by destruct l'.
Qed.

(** The direction from the first endpoint to the second, for any stream. *)
Lemma link_dir iw l id :
  link_inv iw l →
  dir (streams (mx (ea l)) !! id) (streams (mx (eb l)) !! id)
    (flight (ab l) (ea l) id) (flight (ba l) (eb l) id)
    (sent_log (ea l) id) (rcvd_log (eb l) id) ∨
  (streams (mx (eb l)) !! id = None ∧ sent_log (ea l) id = [] ∧ rcvd_log (eb l) id = []).
Proof.
  intros L. destruct (role_owns (role (mx (ea l))) id) eqn:Ho.
  - pose proof (li_va _ _ L id Ho) as V. unfold view in V.
    inversion V; auto.
  - assert (role_owns (role (mx (eb l))) id = true) as Ho'
      by (rewrite (li_role _ _ L), role_owns_opposite, Ho; done).
    pose proof (li_vb _ _ L id Ho') as V. unfold view in V.
    inversion V as [| ox f rest Hf Hb Hd He Hs|]; auto. left.
    pose proof (mux_iw_nonneg _ (li_b _ _ L)) as Hiw. rewrite (li_iwb _ _ L) in Hiw.
    split; try done; try by constructor.
    + intros r Hr. destruct (Hs r Hr) as (_ & _ & ?). pose proof (wu_sum_nonneg rest).
      change (zlen (datab [])) with 0. simpl. lia.
    + intros r Hr Hst. destruct (Hs r Hr). congruence.
Qed.

(** The frame at the head of a carrier is the head of its stream's flight. *)
Lemma flight_head f rest x : flight (f :: rest) x (stream_id f) = f :: flight rest x (stream_id f).
Proof. unfold flight, of_stream. simpl. by rewrite filter_cons_True. Qed.

Lemma link_head_fits iw l f rest s :
  link_inv iw l → ab l = f :: rest → streams (mx (eb l)) !! stream_id f = Some s →
  zlen (data_of f) ≤ recv_window s.
Proof.
  intros L E Hs. destruct (link_dir _ _ (stream_id f) L) as [D|(Hn & _)]; [|congruence].
  rewrite E, flight_head in D. eapply dir_head_fits; [exact D| |exact Hs].
  apply mux_credit_ok, (li_a _ _ L).
Qed.

Lemma link_eof iw l f rest id :
  link_inv iw l → ab l = f :: rest → (recv f (mx (eb l))).2 = Ok (EvPeerEndLocal id) →
  rcvd_log (eb l) id = sent_log (ea l) id.
Proof.
  intros L E Hev. pose proof (li_ab _ _ L) as Hwf. rewrite E in Hwf. inversion Hwf as [|? ? [Hid Hb] _]; subst.
  pose proof (li_b _ _ L) as I. unfold recv in Hev. destruct (command f) eqn:Hc.
  - rewrite recv_begin_eq in Hev by (done || lia). by repeat case_match; simplify_eq/=.
  - rewrite recv_begin_ok_eq in Hev. by repeat case_match; simplify_eq/=.
  - rewrite recv_data_eq in Hev by (done || (unfold u32_max in *; lia)). by repeat case_match; simplify_eq/=.
  - rewrite recv_window_update_eq in Hev. by repeat case_match; simplify_eq/=.
  - rewrite recv_end_local_eq in Hev by done.
    destruct (streams (mx (eb l)) !! stream_id f) as [s|] eqn:Hs; [|done].
    assert (receiving s ∧ stream_id f = id) as [Hr <-]
      by (unfold receiving; destruct (state s); simplify_eq/=; auto).
    destruct (link_dir _ _ (stream_id f) L) as [D|(_ & -> & ->)]; [|done].
    rewrite E, flight_head in D. by destruct (dir_end _ _ _ _ _ _ _ s D Hc Hs Hr).
  - rewrite recv_reset_eq in Hev by done. by repeat case_match; simplify_eq/=.
Qed.

Lemma link_data iw l id :
  link_inv iw l →
  rcvd_log (eb l) id `prefix_of` sent_log (ea l) id ∧
  ∀ s, streams (mx (eb l)) !! id = Some s → receiving s →
    sent_log (ea l) id = rcvd_log (eb l) id ++ datab (of_stream id (ab l ++ outbound (mx (ea l)))).
Proof.
  intros L. destruct (link_dir _ _ id L) as [D|(Hn & -> & ->)]; [|split; [done|congruence]].
  split; [apply D|]. intros s Hs Hr. symmetry. by apply (d_open _ _ _ _ _ _ D s).
Qed.

(** ** The guarantees *)


(** A stream is an ordered, loss-free byte pipe in both directions. What
    an application has received on a stream is a prefix of what the other
    application sent on it; while the receiving side of the stream is open, the
    rest is exactly the payload in flight, on the carrier or still queued. *)
Theorem mux_stream_integrity r pa pb l id :
  policy_typed pa → policy_typed pb → initial_window pa = initial_window pb →
  link_reachable r pa pb l →
  (rcvd_log (eb l) id `prefix_of` sent_log (ea l) id ∧
   ∀ s, streams (mx (eb l)) !! id = Some s → receiving s →
     sent_log (ea l) id
       = rcvd_log (eb l) id ++ datab (of_stream id (ab l ++ outbound (mx (ea l))))) ∧
  (rcvd_log (ea l) id `prefix_of` sent_log (eb l) id ∧
   ∀ s, streams (mx (ea l)) !! id = Some s → receiving s →
     sent_log (eb l) id
       = rcvd_log (ea l) id ++ datab (of_stream id (ba l ++ outbound (mx (eb l))))).
Proof.
  intros Ha Hb Hw Hl. pose proof (link_reachable_inv _ _ _ _ Ha Hb Hw Hl) as L.
  split; [by eapply link_data|]. apply link_inv_swap in L. by eapply (link_data _ (swap l)).
Qed.

(** End of stream means everything arrived. When [recv] reports
    [PeerEndLocal] for a stream, the application has received every byte the
    peer ever sent on it. *)
Theorem mux_eof_complete r pa pb l f rest id :
  policy_typed pa → policy_typed pb → initial_window pa = initial_window pb →
  link_reachable r pa pb l → ab l = f :: rest →
  (recv f (mx (eb l))).2 = Ok (EvPeerEndLocal id) →
  rcvd_log (eb l) id = sent_log (ea l) id.
Proof.
  intros Ha Hb Hw Hl E Hev. pose proof (link_reachable_inv _ _ _ _ Ha Hb Hw Hl) as L.
  by eapply link_eof.
Qed.

(** ** A concrete run *)
Inductive act : Type := ALocal (op : mux_op) | ADrain | ARecv.

Definition side_exec (a : act) (l : link) : link :=
  match a with
  | ALocal op => mkLink (ep_local op (ea l)) (eb l) (ab l) (ba l)
  | ADrain => mkLink (ep_drain (ea l)) (eb l) (ab l ++ (pending_outbound (mx (ea l))).2) (ba l)
  | ARecv =>
    match ba l with
    | f :: rest => mkLink (ep_recv f (ea l)) (eb l) (ab l) rest
    | [] => l
    end
  end.

Definition side_ok (a : act) (l : link) : Prop :=
  match a with
  | ALocal op =>
    op_typed op ∧ is_local op = true ∧ ids_left (mx (ea l)) ∧ grant_ok op (mx (ea l))
  | ADrain => True
  | ARecv => ba l ≠ []
  end.

(** [true]: a step of the first endpoint. *)
Definition link_exec (s : bool * act) (l : link) : link :=
  if s.1 then side_exec s.2 l else swap (side_exec s.2 (swap l)).
Definition link_ok (s : bool * act) (l : link) : Prop :=
  if s.1 then side_ok s.2 l else side_ok s.2 (swap l).
Definition link_run (ss : list (bool * act)) (l : link) : link :=
  foldl (λ l s, link_exec s l) l ss.
Fixpoint link_run_ok (ss : list (bool * act)) (l : link) : Prop :=
  match ss with [] => True | s :: ss => link_ok s l ∧ link_run_ok ss (link_exec s l) end.

Lemma swap_swap l : swap (swap l) = l.
Proof. by destruct l. Qed.

Lemma side_exec_step a l : side_ok a l → side_step l (side_exec a l).
Proof.
  destruct a as [op| |]; simpl.
  - intros (? & ? & ? & ?). by constructor.
  - constructor.
  - intros Hne. destruct (ba l) as [|f rest] eqn:E; [done|]. by constructor.
Qed.

Lemma link_run_reachable r pa pb ss l :
  link_reachable r pa pb l → link_run_ok ss l → link_reachable r pa pb (link_run ss l).
Proof.
  revert l. induction ss as [|[[|] a] ss IH]; intros l Hl; simpl; [done|..]; intros [Hok Hrest];
    apply IH; try done; eapply link_next; try exact Hl.
  - by apply step_a, side_exec_step.
  - apply step_b. unfold link_exec. simpl. rewrite swap_swap. by apply side_exec_step.
Qed.

(** The initiator opens stream 2, the responder accepts it, the initiator sends
    three bytes and half-closes. *)
Definition demo_steps : list (bool * act) :=
  [(true, ALocal (OpOpen (Ipv4 [x7f; x00; x00; x01] 80))); (true, ADrain); (false, ARecv);
   (false, ALocal (OpAccept 2)); (false, ADrain); (true, ARecv);
   (true, ALocal (OpSend 2 [x61; x62; x63])); (true, ALocal (OpEnd 2)); (true, ADrain)].
Definition demo_link : link :=
  link_run demo_steps (mkLink (ep_new Initiator MuxPolicy_default)
                              (ep_new Responder MuxPolicy_default) [] []).
Definition demo_data : MuxFrame := mkMuxFrame 2 Data [x61; x62; x63].
Definition demo_end : MuxFrame := mkMuxFrame 2 EndLocal [].

Lemma demo_link_reachable :
  link_reachable Initiator MuxPolicy_default MuxPolicy_default demo_link.
Proof.
  apply link_run_reachable; [apply (link_new Initiator)|].
  vm_compute. repeat split; discriminate.
Qed.

(** The responder has taken the data; the [EndLocal] is next. *)
Definition demo_link2 : link := link_run [(false, ARecv)] demo_link.

Lemma demo_link2_reachable :
  link_reachable Initiator MuxPolicy_default MuxPolicy_default demo_link2.
Proof.
  apply link_run_reachable; [apply demo_link_reachable|]. vm_compute. repeat split; discriminate.
Qed.


Lemma mux_stream_integrity_witness :
  sent_log (ea demo_link2) 2 = [x61; x62; x63] ∧
  rcvd_log (eb demo_link2) 2 = [x61; x62; x63] ∧
  rcvd_log (eb demo_link2) 2 `prefix_of` sent_log (ea demo_link2) 2.
Proof.
  split; [vm_compute; reflexivity|]. split; [vm_compute; reflexivity|].
  apply (mux_stream_integrity Initiator MuxPolicy_default MuxPolicy_default demo_link2 2);
    [vm_decide|vm_decide|reflexivity|apply demo_link2_reachable].
Defined.

Lemma mux_eof_complete_witness :
  (recv demo_end (mx (eb demo_link2))).2 = Ok (EvPeerEndLocal 2) ∧
  rcvd_log (eb demo_link2) 2 = sent_log (ea demo_link2) 2.
Proof.
  split; [vm_compute; reflexivity|].
  apply (mux_eof_complete Initiator MuxPolicy_default MuxPolicy_default demo_link2 demo_end [] 2);
    [vm_decide|vm_decide|reflexivity|apply demo_link2_reachable
    |vm_compute; reflexivity|vm_compute; reflexivity].
Defined.
