(* ===== verification/MuxStable.v ===== *)
(** * What stays true of a stream on the link

    Facts about one stream id that no later step of the link undoes: that the
    stream has begun (its [Begin] has been delivered, so the id is never opened
    again), and that one direction of it has finished (the end of the stream was
    delivered, after which neither log of the direction moves). *)

From stdpp Require Import base numbers list gmap strings.
From Stdlib Require Import ZArith Lia Strings.Byte.
From S2P Require Import Prelude Bytes MuxFrame MuxTarget MuxStream MuxSched MuxState MuxInv MuxProps MuxEffect MuxFlow MuxLink.

(** Whoever owns the id has allocated it, and no [Begin] for it is in flight. *)
Record begun (l : link) (id : Z) : Prop := {
  bg_a : role_owns (role (mx (ea l))) id = true → id < next_id (mx (ea l));
  bg_b : role_owns (role (mx (eb l))) id = true → id < next_id (mx (eb l));
  bg_ab : nocmd Begin (flight (ab l) (ea l) id);
  bg_ba : nocmd Begin (flight (ba l) (eb l) id);
}.

(** The direction from the first endpoint to the second is over. *)
Record finished (l : link) (id : Z) : Prop := {
  fin_logs : rcvd_log (eb l) id = sent_log (ea l) id;
  fin_sender : ∀ t, streams (mx (ea l)) !! id = Some t → state t = HalfClosedLocal;
  fin_begun : begun l id;
}.

Lemma begun_swap l id : begun l id → begun (swap l) id.
Proof. by intros []; split. Qed.

(** ** Frames in flight *)

Lemma flight_recv_head f rest y id :
  ∃ pre, flight (f :: rest) y id = pre ++ flight rest y id ∧
    pre = if decide (id = stream_id f) then [f] else [].
Proof.
  case_decide as E.
  - exists [f]. subst. by rewrite flight_head.
  - exists []. split; [|done]. unfold flight, of_stream. simpl. rewrite filter_cons_False; congruence.
Qed.

(** The replies [recv] queues: none, or one [Reset]. *)
Lemma recv_replies iw l f rest id :
  link_inv iw l → ba l = f :: rest →
  ∃ fs, flight (ab l) (ep_recv f (ea l)) id = flight (ab l) (ea l) id ++ fs ∧
    Forall (λ g, command g = Reset) fs.
Proof.
  intros L E. pose proof (li_ba _ _ L) as Hwf. rewrite E in Hwf. inversion Hwf as [|? ? Hf _]; subst.
  destruct (decide (id = stream_id f)) as [->|Hne].
  - destruct (recv_flight_own f (ea l) (eb l) (ab l) (ba l) (stream_id f) (li_a _ _ L) Hf eq_refl)
      as (_ & fs & Hfs & He). exists fs. split; [done|].
    inversion He as [| | | | |s o' fs' Hc Hw| | |]; subst; try by repeat constructor.
    pose proof (link_head_fits iw (swap l) f rest s (link_inv_swap _ _ L) E) as Hfit.
    simpl in Hfit. unfold data_of in Hfit. rewrite Hc in Hfit.
    match goal with H : Some s = _ |- _ => specialize (Hfit (eq_sym H)) end. lia.
  - exists []. rewrite app_nil_r.
    by destruct (recv_flight_other f (ea l) (eb l) (ab l) (ba l) id (li_a _ _ L) Hf Hne) as (_ & ? & _).
Qed.

(** The frames a local operation queues contain a [Begin] only for a new id. *)
Lemma local_begin op e chan id :
  mux_inv (mx e) → op_typed op → is_local op = true → ids_left (mx e) → grant_ok op (mx e) →
  (role_owns (role (mx e)) id = true → id < next_id (mx e)) →
  nocmd Begin (flight chan e id) → nocmd Begin (flight chan (ep_local op e) id).
Proof.
  intros I Ht Hl Hi Hg Ho Hn.
  destruct (local_flight op e chan id I Ht Hl Hi Hg) as (fs & -> & He & _).
  apply Forall_app_2; [done|]. inversion He as [|b Hold Hnew|s fs' Hst Hfs|s c b Hc| | |]; subst;
    try by repeat constructor.
  - destruct (local_creates op (mx e) id) as (-> & Hr & _); try done.
    + by simpl in Hnew; rewrite <- Hnew.
    + specialize (Ho Hr). unfold next_id in *. lia.
  - destruct Hfs as [->| ->]; by repeat constructor.
  - constructor; [|done]. simpl. by destruct Hc as [->|[-> _]].
Qed.

(** ** Begun is stable *)
Lemma begun_side iw l l' id : link_inv iw l → side_step l l' → begun l id → begun l' id.
Proof.
  intros L Hs [Ha Hb Hab Hba]. destruct Hs as [op Ht Hloc Hi Hg| |f rest E].
  - destruct (local_config op (mx (ea l)) (li_a _ _ L) Hi Ht Hloc) as (Hr & _ & Hn).
    split; cbn [ea eb ab ba]; try done.
    + cbn [ep_local mx]. rewrite Hr. intros H. specialize (Ha H). lia.
    + apply local_begin; auto. apply (li_a _ _ L).
  - split; cbn [ea eb ab ba]; try done. by rewrite drain_flight by apply (li_a _ _ L).
  - pose proof (li_ba _ _ L) as Hwf. rewrite E in Hwf. inversion Hwf as [|? ? Hf _]; subst.
    destruct (recv_config f (mx (ea l)) (li_a _ _ L) Hf) as (Hr & _ & Hal).
    split; cbn [ea eb ab ba]; try done.
    + cbn [ep_recv mx]. unfold next_id in *. cbn [mux_exec]. by rewrite Hr, Hal.
    + destruct (recv_replies iw l f rest id L E) as (fs & -> & Hfs). apply Forall_app_2; [done|].
      eapply Forall_impl; [exact Hfs|]. intros g Hg. simpl in *. congruence.
    + rewrite E in Hba. destruct (flight_recv_head f rest (eb l) id) as (pre & Hp & _).
      rewrite Hp in Hba. by apply Forall_app in Hba as [_ ?].
Qed.

(** A [Begin] that is delivered: the id is new to its receiver. *)
Section begin.
Context (iw : Z) (l : link) (f : MuxFrame) (rest : list MuxFrame) (id : Z) (t : MuxTarget).
Context (L : link_inv iw l) (E : ba l = f :: rest).
Context (Hev : (recv f (mx (ea l))).2 = Ok (EvIncoming id t)).

Lemma recv_incoming :
  id = stream_id f ∧ command f = Begin ∧ role_owns (role (mx (ea l))) id = false ∧
  outbound (recv f (mx (ea l))).1 = outbound (mx (ea l)) ∧
  streams (recv f (mx (ea l))).1 !! id =
    Some (mkStream SynReceived (initial_window (policy (mx (ea l))))
            (initial_window (policy (mx (ea l)))) (Some t)).
Proof.
  pose proof (li_ba _ _ L) as Hwf. rewrite E in Hwf. inversion Hwf as [|? ? [Hid Hb] _]; subst.
  pose proof (li_a _ _ L) as I. unfold recv in *. destruct (command f).
  - rewrite recv_begin_eq in * by (done || lia). repeat case_match; simplify_eq/=.
    rewrite lookup_insert_eq. done.
  - rewrite recv_begin_ok_eq in Hev. by repeat case_match; simplify_eq/=.
  - rewrite recv_data_eq in Hev by (done || (unfold u32_max in *; lia)). by repeat case_match; simplify_eq/=.
  - rewrite recv_window_update_eq in Hev. by repeat case_match; simplify_eq/=.
  - rewrite recv_end_local_eq in Hev by done. by repeat case_match; simplify_eq/=.
  - rewrite recv_reset_eq in Hev by done. by repeat case_match; simplify_eq/=.
Qed.

Lemma begin_view :
  ¬ begun l id ∧ begun (mkLink (ep_recv f (ea l)) (eb l) (ab l) rest) id ∧
  flight (ab l) (ea l) id = [] ∧ flight (ab l) (ep_recv f (ea l)) id = [] ∧
  sent_log (ea l) id = [] ∧ rcvd_log (ea l) id = [] ∧
  sent_log (eb l) id = [] ∧ rcvd_log (eb l) id = [].
Proof.
  destruct recv_incoming as (Hid & Hc & Hr & Hout & _).
  assert (role_owns (role (mx (eb l))) id = true) as Hr'
    by (rewrite (li_role _ _ L), role_owns_opposite, Hr; done).
  pose proof (li_vb _ _ L id Hr') as V. unfold view in V.
  rewrite E in V. subst id. rewrite flight_head in V.
  assert (flight (ab l) (ep_recv f (ea l)) (stream_id f) = flight (ab l) (ea l) (stream_id f)) as Hfl
    by (unfold flight; simpl; by rewrite Hout).
  rewrite Hfl.
  inversion V as [|ox g rest' Hg Hnb Hd He Hs Hop|ox oy xy yx sx rx sy ry D1 D2]; subst; last first.
  { pose proof (d_begin _ _ _ _ _ _ D1) as Hb. inversion Hb; subst. congruence. }
  split; [|split; [|done]].
  - intros [_ _ _ Hba]. rewrite E, flight_head in Hba. inversion Hba; subst. congruence.
  - pose proof (li_ba _ _ L) as Hwf. rewrite E in Hwf. inversion Hwf as [|? ? Hf _]; subst.
    destruct (recv_config f (mx (ea l)) (li_a _ _ L) Hf) as (Hro & _ & Hal).
    split; cbn [ea eb ab ba].
    + cbn [ep_recv mx mux_exec]. rewrite Hro, Hr. done.
    + intros _. symmetry in Hop. by apply bool_decide_eq_true in Hop.
    + rewrite Hfl. match goal with H : [] = flight (ab l) _ _ |- _ => rewrite <- H end. constructor.
    + done.
Qed.
End begin.

(** An id not yet allocated: nothing has happened on it. *)
Lemma unopened iw l id :
  link_inv iw l → role_owns (role (mx (ea l))) id = true → next_id (mx (ea l)) ≤ id →
  ¬ begun l id ∧ streams (mx (ea l)) !! id = None ∧
  flight (ab l) (ea l) id = [] ∧ flight (ba l) (eb l) id = [] ∧
  sent_log (ea l) id = [] ∧ rcvd_log (ea l) id = [] ∧
  sent_log (eb l) id = [] ∧ rcvd_log (eb l) id = [].
Proof.
  intros L Hr Hn. pose proof (li_va _ _ L id Hr) as V. unfold view in V.
  rewrite bool_decide_false in V by lia. split; [intros [Ha _ _ _]; specialize (Ha Hr); lia|].
  inversion V; subst; auto 10.
Qed.

(** A stream that receives has begun. *)
Lemma live_begun iw l s id :
  link_inv iw l → streams (mx (eb l)) !! id = Some s → receiving s → begun l id.
Proof.
  intros L Hs Hr. pose proof (li_role _ _ L) as Hro.
  destruct (role_owns (role (mx (ea l))) id) eqn:Ho.
  - pose proof (li_va _ _ L id Ho) as V. unfold view in V. rewrite Hs in V.
    inversion V as [| |? ? ? ? ? ? ? ? D1 D2 Hop]; subst. symmetry in Hop. apply bool_decide_eq_true in Hop.
    split; try done; [|apply D1|apply D2]. rewrite Hro, role_owns_opposite, Ho. done.
  - assert (role_owns (role (mx (eb l))) id = true) as Ho' by (rewrite Hro, role_owns_opposite, Ho; done).
    pose proof (li_vb _ _ L id Ho') as V. unfold view in V. rewrite Hs in V.
    inversion V as [|? ? ? ? ? ? ? Hsyn|? ? ? ? ? ? ? ? D1 D2 Hop]; subst.
    + destruct (Hsyn s eq_refl). unfold receiving in Hr. naive_solver congruence.
    + symmetry in Hop. apply bool_decide_eq_true in Hop. split; try done; [by rewrite Ho|apply D2|apply D1].
Qed.

(** ** Finished is stable *)

(** The sender of a finished direction cannot send again. *)
Lemma finished_local op e id :
  mux_inv (mx e) → op_typed op → is_local op = true → ids_left (mx e) → grant_ok op (mx e) →
  (role_owns (role (mx e)) id = true → id < next_id (mx e)) →
  (∀ t, streams (mx e) !! id = Some t → state t = HalfClosedLocal) →
  sent_log (ep_local op e) id = sent_log e id ∧
  (∀ t, streams (mx (ep_local op e)) !! id = Some t → state t = HalfClosedLocal).
Proof.
  intros I Ht Hl Hi Hg Ho Hs.
  destruct (local_flight op e [] id I Ht Hl Hi Hg) as (fs & _ & He & Hlog). rewrite Hlog.
  remember (streams (mx e) !! id) as o eqn:Eo. remember (streams (mx (ep_local op e)) !! id) as o' eqn:Eo'.
  clear Hlog. destruct He as [o|b|s fs Hst Hfs|s c b Hc|s b Hst Hb|s Hst|s d Hd Hw];
    try specialize (Hs s eq_refl); rewrite ?app_nil_r; try done.
  - destruct (local_creates op (mx e) id) as (-> & Hr & _); try done; [by simpl in Eo'; rewrite <- Eo'|].
    specialize (Ho Hr). unfold next_id in *. lia.
  - congruence.
  - by destruct Hc as [->|[-> _]]; rewrite app_nil_r.
  - unfold sending in Hst. naive_solver congruence.
  - congruence.
  - split; [done|]. by intros t [= <-].
Qed.

Lemma finished_side_a iw l l' id : link_inv iw l → side_step l l' → finished l id → finished l' id.
Proof.
  intros L Hs [Hlog Hst Hbg]. pose proof (begun_side iw l l' id L Hs Hbg) as Hbg'.
  destruct Hs as [op Ht Hloc Hi Hg| |f rest E].
  - destruct (finished_local op (ea l) id (li_a _ _ L) Ht Hloc Hi Hg (bg_a _ _ Hbg) Hst) as [Hl Hn].
    by split; cbn [ea eb]; rewrite ?Hl.
  - by split.
  - split; [done| |done]. cbn [ea].
    pose proof (li_ba _ _ L) as Hwf. rewrite E in Hwf. inversion Hwf as [|? ? Hf _]; subst.
    destruct (decide (id = stream_id f)) as [->|Hne].
    + destruct (recv_flight_own f (ea l) (eb l) (ab l) rest (stream_id f) (li_a _ _ L) Hf eq_refl)
        as (_ & fs & _ & He).
      pose proof (bg_ba _ _ Hbg) as Hn. rewrite E, flight_head in Hn.
      inversion Hn as [|? ? Hnb _]; subst.
      assert (∀ s, streams (mx (ea l)) !! stream_id f = Some s → command f = Data →
                zlen (body f) ≤ recv_window s) as Hfit.
      { intros s Hs Hc. pose proof (link_head_fits iw (swap l) f rest s (link_inv_swap _ _ L) E Hs) as Hfit.
        unfold data_of in Hfit. by rewrite Hc in Hfit. }
      remember (streams (mx (ea l)) !! stream_id f) as o eqn:Eo.
      remember (streams (mx (ep_recv f (ea l))) !! stream_id f) as o' eqn:Eo'.
      destruct He as [o Hd Hok|o b Hc|t Hc|s Hc Hs0|s Hc Hr Hl|s o' fs Hc Hw|s Hc|s Hc Hs0|s Hc];
        try done; try specialize (Hst s eq_refl); try congruence; try by intros ? [= <-].
      specialize (Hfit s eq_refl Hc). lia.
    + destruct (recv_flight_other f (ea l) (eb l) (ab l) rest id (li_a _ _ L) Hf Hne) as (_ & _ & -> & _).
      done.
Qed.

Lemma finished_side_b iw l l' id :
  link_inv iw l → side_step (swap l) l' → finished l id → finished (swap l') id.
Proof.
  intros L Hs [Hlog Hst Hbg].
  assert (begun (swap l') id) as Hbg'
    by (apply begun_swap, (begun_side iw (swap l)); [by apply link_inv_swap|done|by apply begun_swap]).
  assert (ea (swap l') = ea l) as Hea by (by destruct Hs).
  assert (link_inv iw (swap l')) as L'
    by (apply link_inv_swap; eapply side_step_inv; [by apply link_inv_swap|exact Hs]).
  split; rewrite ?Hea; [|done|done].
  pose proof (link_data iw _ id L') as [Hpre _]. rewrite Hea in Hpre.
  assert (∃ k, rcvd_log (eb (swap l')) id = rcvd_log (eb l) id ++ k) as [k Hk].
  { destruct Hs; cbn; [exists []; by rewrite app_nil_r|exists []; by rewrite app_nil_r|by eexists]. }
  rewrite Hk, Hlog in *. destruct k as [|b k]; [by rewrite app_nil_r|].
  apply prefix_length in Hpre. rewrite length_app in Hpre. simpl in Hpre. lia.
Qed.

(** The end of a stream, reported by [recv], finishes the direction. *)
Lemma finish_intro iw l f rest id :
  link_inv iw l → ab l = f :: rest → (recv f (mx (eb l))).2 = Ok (EvPeerEndLocal id) →
  finished l id ∧ id = stream_id f ∧ command f = EndLocal.
Proof.
  intros L E Hev. pose proof (link_eof _ _ _ _ _ L E Hev) as Hlog.
  pose proof (li_ab _ _ L) as Hwf. rewrite E in Hwf. inversion Hwf as [|? ? [Hid Hb] _]; subst.
  pose proof (li_b _ _ L) as I.
  assert (command f = EndLocal ∧ id = stream_id f ∧
          ∃ s, streams (mx (eb l)) !! id = Some s ∧ receiving s) as (Hc & -> & s & Hs & Hr).
  { unfold recv in Hev. destruct (command f) eqn:Hc.
    - rewrite recv_begin_eq in Hev by (done || lia). by repeat case_match; simplify_eq/=.
    - rewrite recv_begin_ok_eq in Hev. by repeat case_match; simplify_eq/=.
    - rewrite recv_data_eq in Hev by (done || (unfold u32_max in *; lia)). by repeat case_match; simplify_eq/=.
    - rewrite recv_window_update_eq in Hev. by repeat case_match; simplify_eq/=.
    - rewrite recv_end_local_eq in Hev by done. unfold receiving.
      repeat case_match; simplify_eq/=; eauto 10.
    - rewrite recv_reset_eq in Hev by done. by repeat case_match; simplify_eq/=. }
  split; [|done]. split; [done| |].
  - destruct (link_dir _ _ (stream_id f) L) as [D|(Hn & _)]; [|congruence].
    rewrite E, flight_head in D. by destruct (dir_end _ _ _ _ _ _ _ s D Hc Hs Hr).
  - by eapply live_begun.
Qed.
