(* ===== verification/MuxConn.v ===== *)
(** * The connection driver (crates/mux/src/conn.rs)

    [MuxConnection], its stream handles and its two tasks, as operations on one
    shared connection: the state machine, the routing map from stream ids to the
    shared buffers of each stream, and the openers waiting for an answer. The
    [Arc<StreamShared>] that a handle and the routing map share is an index into
    an arena, so a stream that has been unrouted keeps its buffers, as in Rust.
    Wakers and the notification of the writer only decide when a task runs
    again; in the model any operation may run at any time, so they are left out. *)

From stdpp Require Import base numbers list gmap strings.
From Stdlib Require Import ZArith Lia Strings.Byte.
From S2P Require Import Prelude Bytes MuxFrame MuxTarget MuxStream MuxSched MuxState.

Inductive MuxConnError : Set :=
| CeClosed
| CeRejected (code : byte)
| CeStreamLimit
| CeState (e : MuxStateError).

(** ** Buffers *)

Record OutBuf : Type := mkOut {
  ob_buf : list byte;
  ending : bool;
  ended_sent : bool;
  ob_closed : bool;
}.

Record InBuf : Type := mkIn {
  chunks : list (list byte);
  cursor : nat;
  buffered : Z;
  unacked : Z;
  in_eof : bool;
  in_reset : option byte;
}.

Record StreamShared : Type := mkShared {
  sh_id : Z;
  window : Z;
  out : OutBuf;
  inb : InBuf;
}.

Abbreviation StreamShared_new id window := (mkShared id window (mkOut [] false false false) (mkIn [] 0 0 0 false None)) (only parsing).

Definition set_out (o : OutBuf) (s : StreamShared) : StreamShared :=
  mkShared (sh_id s) (window s) o (inb s).
Definition set_inb (i : InBuf) (s : StreamShared) : StreamShared :=
  mkShared (sh_id s) (window s) (out s) i.
Definition set_ob_buf (b : list byte) (o : OutBuf) : OutBuf :=
  mkOut b (ending o) (ended_sent o) (ob_closed o).

(** The opener's end of the [oneshot] channel. *)
Inductive oneshot : Type := Waiting | Answered (r : result byte unit) | SenderDropped.

(** ** The connection
    [routes] is the map [streams]; [arena] and [cells] hold what its [Arc]s and
    the [oneshot] channels point to; [incoming] is the channel of peer-opened
    streams and [acceptor] whether its receiver still exists. *)
Record Conn : Type := mkConn {
  cstate : MuxState;
  routes : gmap Z nat;
  arena : list StreamShared;
  open_waiters : gmap Z nat;
  cells : list oneshot;
  incoming : list (nat * MuxTarget);
  acceptor : bool;
  conn_closed : bool;
}.

Definition set_cstate (st : MuxState) (c : Conn) : Conn :=
  mkConn st (routes c) (arena c) (open_waiters c) (cells c) (incoming c) (acceptor c) (conn_closed c).
Definition set_routes (m : gmap Z nat) (c : Conn) : Conn :=
  mkConn (cstate c) m (arena c) (open_waiters c) (cells c) (incoming c) (acceptor c) (conn_closed c).
Definition set_arena (l : list StreamShared) (c : Conn) : Conn :=
  mkConn (cstate c) (routes c) l (open_waiters c) (cells c) (incoming c) (acceptor c) (conn_closed c).
Definition set_waiters (m : gmap Z nat) (c : Conn) : Conn :=
  mkConn (cstate c) (routes c) (arena c) m (cells c) (incoming c) (acceptor c) (conn_closed c).
Definition set_cells (l : list oneshot) (c : Conn) : Conn :=
  mkConn (cstate c) (routes c) (arena c) (open_waiters c) l (incoming c) (acceptor c) (conn_closed c).
Definition set_incoming (l : list (nat * MuxTarget)) (c : Conn) : Conn :=
  mkConn (cstate c) (routes c) (arena c) (open_waiters c) (cells c) l (acceptor c) (conn_closed c).
Definition set_closed (b : bool) (c : Conn) : Conn :=
  mkConn (cstate c) (routes c) (arena c) (open_waiters c) (cells c) (incoming c) (acceptor c) b.

(** [MuxConnection::new]; [acc] says whether the caller keeps the acceptor. *)
Abbreviation Conn_new r p acc := (mkConn (MuxState_new r p) ∅ [] ∅ [] [] acc false) (only parsing).

Definition upd (h : nat) (f : StreamShared → StreamShared) (c : Conn) : Conn :=
  set_arena (alter f h (arena c)) c.

(** ** Tear-down *)

Definition close_shared (s : StreamShared) : StreamShared :=
  let i := inb s in
  let i := if bool_decide (in_reset i = None) && negb (in_eof i)
           then mkIn (chunks i) (cursor i) (buffered i) (unacked i) (in_eof i) (Some xff)
           else i in
  let o := out s in
  set_out (mkOut (ob_buf o) (ending o) (ended_sent o) true) (set_inb i s).

(** Every routed stream fails, every waiting opener loses its sender. *)
Definition close_connection (c : Conn) : Conn :=
  if conn_closed c then c
  else
    let c := set_closed true c in
    let c' := set_arena (imap (λ h s, if bool_decide (routes c !! sh_id s = Some h)
                                      then close_shared s else s) (arena c)) c in
    let c' := set_routes ∅ c' in
    let c' := set_cells (imap (λ h x, if bool_decide (h ∈ (map_to_list (open_waiters c)).*2)
                                      then SenderDropped else x) (cells c)) c' in
    set_waiters ∅ c'.

Definition fault_shared (code : byte) (s : StreamShared) : StreamShared :=
  let i := inb s in
  let i := if bool_decide (in_reset i = None)
           then mkIn (chunks i) (cursor i) (buffered i) (unacked i) (in_eof i) (Some code)
           else i in
  let o := out s in
  set_out (mkOut (ob_buf o) (ending o) (ended_sent o) true) (set_inb i s).

Definition fault_stream (id : Z) (code : byte) (c : Conn) : Conn :=
  match routes c !! id with
  | None => c
  | Some h => upd h (fault_shared code) (set_routes (delete id (routes c)) c)
  end.

(** ** Opening *)

Definition map_open_err (e : MuxStateError) : MuxConnError :=
  match e with
  | StreamLimit _ => CeStreamLimit
  | other => CeState other
  end.

(** [MuxConnection::open] up to its await: the handle of the new stream. *)
Definition conn_open (target : MuxTarget) (c : Conn) : Conn * result MuxConnError nat :=
  if conn_closed c then (c, Err CeClosed)
  else
    match open_local target (cstate c) with
    | (st, Err e) => (set_cstate st c, Err (map_open_err e))
    | (st, Ok id) =>
      let h := length (arena c) in
      let c := set_cstate st c in
      let c := set_arena (arena c ++ [StreamShared_new id (initial_window (policy st))]) c in
      let c := set_routes (<[id := h]> (routes c)) c in
      let c := set_cells (cells c ++ [Waiting]) c in
      (set_waiters (<[id := h]> (open_waiters c)) c, Ok h)
    end.

(** The second look at [is_closed] that guards the race with a close. *)
Definition conn_open_recheck (h : nat) (c : Conn) : Conn * option MuxConnError :=
  if conn_closed c then
    match arena c !! h with
    | None => (c, Some CeClosed)
    | Some s =>
      (set_routes (delete (sh_id s) (routes c))
         (set_waiters (delete (sh_id s) (open_waiters c)) c), Some CeClosed)
    end
  else (c, None).

(** Polling [rx.await]: [None] while the answer is outstanding. *)
Definition conn_open_poll (h : nat) (c : Conn) : option (result MuxConnError nat) :=
  match cells c !! h with
  | Some (Answered (Ok _)) => Some (Ok h)
  | Some (Answered (Err code)) => Some (Err (CeRejected code))
  | Some SenderDropped | None => Some (Err CeClosed)
  | Some Waiting => None
  end.

(** ** Peer-opened streams *)

Definition incoming_accept (h : nat) (c : Conn) : Conn :=
  match arena c !! h with
  | None => c
  | Some s => set_cstate (accept (sh_id s) (cstate c)).1 c
  end.

Definition incoming_reject (h : nat) (code : byte) (c : Conn) : Conn :=
  match arena c !! h with
  | None => c
  | Some s =>
    let c := set_cstate (reset (sh_id s) code (cstate c)).1 c in
    set_routes (delete (sh_id s) (routes c)) c
  end.

(** [Drop for IncomingStream] without a decision. *)
Definition incoming_drop (h : nat) (c : Conn) : Conn :=
  match arena c !! h with
  | None => c
  | Some s =>
    let st :=
      match reject (sh_id s) (cstate c) with
      | (st, Ok _) => st
      | (st, Err _) => (reset (sh_id s) x01 st).1
      end in
    let c := set_cstate st c in
    set_routes (delete (sh_id s) (routes c)) c
  end.

(** [MuxAcceptor::accept]: the oldest peer-opened stream. *)
Definition acceptor_accept (c : Conn) : Conn * option (nat * MuxTarget) :=
  match incoming c with
  | [] => (c, None)
  | i :: rest => (set_incoming rest c, Some i)
  end.

(** Dropping the acceptor drops the streams still in its channel. *)
Definition acceptor_drop (c : Conn) : Conn :=
  let c' := mkConn (cstate c) (routes c) (arena c) (open_waiters c) (cells c) [] false (conn_closed c) in
  foldl (λ c i, incoming_drop i.1 c) c' (incoming c).

(** ** Stream handles *)

Inductive StreamError : Set := ConnectionReset | BrokenPipe.

Inductive Poll (A : Type) : Type := Pending | Ready (r : result StreamError A).
Arguments Pending {A}.
Arguments Ready {A} r.

(** The copy loop of [poll_read]: the bytes, the chunks left and the cursor. *)
Fixpoint read_chunks (room : nat) (l : list (list byte)) (cur : nat)
  : list byte * list (list byte) * nat :=
  match l with
  | [] => ([], [], cur)
  | front :: l' =>
    if bool_decide (room = 0%nat) then ([], l, cur)
    else
      let tk := Nat.min (length front - cur) room in
      let bytes := take tk (drop cur front) in
      if bool_decide (length front ≤ cur + tk)%nat then
        let '(b, l'', cur') := read_chunks (room - tk) l' 0 in (bytes ++ b, l'', cur')
      else (bytes, l, (cur + tk)%nat)
  end.

(** The copy, under the lock of the inbound buffer, and the grant of credit, under
    the lock of the state, as one step. *)
Definition poll_read (h room : nat) (c : Conn) : Conn * Poll (list byte) :=
  match arena c !! h with
  | None => (c, Pending)
  | Some s =>
    let i := inb s in
    let '(bytes, l, cur) := read_chunks room (chunks i) (cursor i) in
    let copied := zlen bytes in
    if bool_decide (copied > 0) then
      let unacked' := saturating_add_u32 (unacked i) (wrap_u32 copied) in
      let grant := bool_decide (unacked' >= window s / 2) in
      let i := mkIn l cur (buffered i - copied) (if grant then 0 else unacked') (in_eof i) (in_reset i) in
      let c := upd h (set_inb i) c in
      if grant then (set_cstate (grant_credit (sh_id s) unacked' (cstate c)).1 c, Ready (Ok bytes))
      else (c, Ready (Ok bytes))
    else
      let i := mkIn l cur (buffered i) (unacked i) (in_eof i) (in_reset i) in
      let c := upd h (set_inb i) c in
      match in_reset i with
      | Some _ => (c, Ready (Err ConnectionReset))
      | None => if in_eof i then (c, Ready (Ok [])) else (c, Pending)
      end
  end.

Definition poll_write (h : nat) (buf : list byte) (c : Conn) : Conn * Poll nat :=
  match arena c !! h with
  | None => (c, Pending)
  | Some s =>
    let o := out s in
    if ob_closed o then (c, Ready (Err BrokenPipe))
    else
      let cap := Z.to_nat (window s) in
      if bool_decide (cap ≤ length (ob_buf o))%nat then (c, Pending)
      else
        let space := (cap - length (ob_buf o))%nat in
        let n := Nat.min (length buf) space in
        (upd h (set_out (set_ob_buf (ob_buf o ++ take n buf) o)) c, Ready (Ok n))
  end.

Definition poll_shutdown (h : nat) (c : Conn) : Conn * Poll unit :=
  match arena c !! h with
  | None => (c, Pending)
  | Some s =>
    let o := out s in
    let o := mkOut (ob_buf o) true (ended_sent o) (ob_closed o) in
    let c := upd h (set_out o) c in
    if ob_closed o || (bool_decide (ob_buf o = []) && ended_sent o) then (c, Ready (Ok tt))
    else (c, Pending)
  end.

(** [Drop for MuxStream] *)
Definition stream_drop (h : nat) (c : Conn) : Conn :=
  match arena c !! h with
  | None => c
  | Some s =>
    match routes c !! sh_id s with
    | None => c
    | Some _ =>
      let c := set_routes (delete (sh_id s) (routes c)) c in
      match stream_state (cstate c) (sh_id s) with
      | Some _ => set_cstate (reset (sh_id s) x00 (cstate c)).1 c
      | None => c
      end
    end
  end.

(** ** The reader task *)

(** [tx.send(..)] to the opener of a stream, if it is still waiting. *)
Definition answer (id : Z) (r : result byte unit) (c : Conn) : Conn :=
  match open_waiters c !! id with
  | None => c
  | Some h => set_cells (<[h := Answered r]> (cells c)) (set_waiters (delete id (open_waiters c)) c)
  end.

Definition push_data (b : list byte) (s : StreamShared) : StreamShared :=
  let i := inb s in
  set_inb (mkIn (chunks i ++ [b]) (cursor i) (buffered i + zlen b) (unacked i)
             (in_eof i) (in_reset i)) s.

Definition mark_eof (s : StreamShared) : StreamShared :=
  let i := inb s in
  set_inb (mkIn (chunks i) (cursor i) (buffered i) (unacked i) true (in_reset i)) s.

Definition on_event (ev : MuxEvent) (c : Conn) : Conn :=
  match ev with
  | EvIncoming id target =>
    let h := length (arena c) in
    let c := set_arena (arena c ++ [StreamShared_new id (initial_window (policy (cstate c)))]) c in
    let c := set_cells (cells c ++ [SenderDropped]) c in
    let c := set_routes (<[id := h]> (routes c)) c in
    if acceptor c then set_incoming (incoming c ++ [(h, target)]) c else incoming_drop h c
  | EvEstablished id => answer id (Ok tt) c
  | EvData id b =>
    match routes c !! id with Some h => upd h (push_data b) c | None => c end
  | EvWindowUpdate _ _ => c
  | EvPeerEndLocal id =>
    let c := match routes c !! id with Some h => upd h mark_eof c | None => c end in
    match stream_state (cstate c) id with
    | None => set_routes (delete id (routes c)) c
    | Some _ => c
    end
  | EvReset id code => fault_stream id code (answer id (Err code) c)
  end.

(** [handle_frame] takes the state lock to run [recv] and releases it before it
    touches the handles; the writer may run in between. What is left to do at
    that point: *)
Inductive Handling : Set := HEvent (ev : MuxEvent) | HFault (sid : Z).

Definition handle_recv (frame : MuxFrame) (c : Conn) : Conn * option Handling :=
  let sid := stream_id frame in
  match MuxState.recv frame (cstate c) with
  | (st, Ok ev) => (set_cstate st c, Some (HEvent ev))
  | (st, Err _) =>
    let closed := bool_decide (stream_state st sid = None) in
    (set_cstate st c, if closed then Some (HFault sid) else None)
  end.

Definition handle_rest (todo : Handling) (c : Conn) : Conn :=
  match todo with
  | HEvent ev => on_event ev c
  | HFault sid => fault_stream sid xff c
  end.

(** Without interference. *)
Definition handle_frame (frame : MuxFrame) (c : Conn) : Conn :=
  match handle_recv frame c with
  | (c, Some todo) => handle_rest todo c
  | (c, None) => c
  end.

(** The inner loop of [reader_task]: decode and handle frames until the bytes
    left are an incomplete one ([Some]) or a violation ([None]). Each frame takes
    at least one byte, so as many rounds as there are bytes suffice. *)
Fixpoint decode_loop (fuel : nat) (acc : list byte) (c : Conn) : Conn * option (list byte) :=
  match fuel with
  | O => (c, Some acc)
  | S fuel' =>
    match MuxFrame_decode_one acc with
    | Ok (frame, consumed) => decode_loop fuel' (drop (Z.to_nat consumed) acc) (handle_frame frame c)
    | Err (Truncated _ _) => (c, Some acc)
    | Err _ => (c, None)
    end
  end.

(** One round of [reader_task] with the bytes of one read ([None]: the carrier
    ended); the bytes it keeps, or [None] when it closes the connection. *)
Definition reader_step (acc : list byte) (read : option (list byte)) (c : Conn)
  : Conn * option (list byte) :=
  match read with
  | None | Some [] => (close_connection c, None)
  | Some bytes =>
    let acc := acc ++ bytes in
    match decode_loop (S (length acc)) acc c with
    | (c, Some acc') => (c, Some acc')
    | (c, None) => (close_connection c, None)
    end
  end.

(** ** The writer task *)

(** Push staged bytes through the credit window. Every round sends at least one
    byte, so one round more than there are bytes suffices. *)
Fixpoint flush_loop (fuel : nat) (id : Z) (buf : list byte) (st : MuxState)
  : MuxState * list byte :=
  match fuel with
  | O => (st, buf)
  | S fuel' =>
    if bool_decide (buf = []) then (st, buf)
    else
      match send_data id buf st with
      | (st', Err _) => (st', buf)
      | (st', Ok n) =>
        if bool_decide (n = 0) then (st', buf)
        else flush_loop fuel' id (drop (Z.to_nat n) buf) st'
      end
  end.

Definition drain_stream (h : nat) (c : Conn) : Conn :=
  match arena c !! h with
  | None => c
  | Some s =>
    let o := out s in
    let '(st, buf) := flush_loop (S (length (ob_buf o))) (sh_id s) (ob_buf o) (cstate c) in
    let finish := ending o && bool_decide (buf = []) && negb (ended_sent o) in
    let st := if finish then (end_local (sh_id s) st).1 else st in
    let o := mkOut buf (ending o) (ended_sent o || finish) (ob_closed o) in
    upd h (set_out o) (set_cstate st c)
  end.

(** [drain_pass]; [order] is the order in which the routing map yields its
    streams. *)
Definition drain_pass (order : list nat) (c : Conn) : Conn * list byte :=
  let c := foldl (λ c h, drain_stream h c) c order in
  let live := filter (λ e : Z * nat, stream_state (cstate c) e.1 ≠ None) (routes c) in
  let c := set_routes live c in
  let '(st, frames) := pending_outbound (cstate c) in
  (set_cstate st c, concat (MuxFrame_encode <$> frames)).
