(* ===== verification/MuxWorld.v ===== *)
(** * Two connection drivers joined by byte carriers

    Both ends of a multiplexed connection as crates/mux/src/conn.rs runs them:
    applications call their stream handles, the writer tasks encode frames onto a
    carrier of bytes, the reader tasks cut the bytes into frames again and route
    them to the handles. A reader's [handle_frame] is two steps, so the writer
    and the applications may run between its [recv] and its routing. *)

From stdpp Require Import base numbers list gmap strings relations.
From Stdlib Require Import ZArith Lia Strings.Byte.
From S2P Require Import Prelude Bytes MuxFrame MuxTarget MuxStream MuxSched MuxState MuxInv MuxProps MuxEffect MuxFlow MuxLink MuxStable MuxConn.

(** ** One end
    [wrote] and [got] record, per handle, the bytes [poll_write] accepted and
    [poll_read] returned; [acc] and [todo] are the locals of the reader task. *)
Record half : Type := mkHalf {
  conn : Conn;
  wrote : nat → list byte;
  got : nat → list byte;
  acc : list byte;
  todo : option Handling;
}.

Definition set_conn (c : Conn) (x : half) : half := mkHalf c (wrote x) (got x) (acc x) (todo x).

(** One entry of a log grows. *)
Definition log_app (h : nat) (b : list byte) (log : nat → list byte) : nat → list byte :=
  λ k, if decide (k = h) then log k ++ b else log k.

Inductive conn_act : Type :=
| COpen (t : MuxTarget)
| CRecheck (h : nat)
| CAccept (h : nat)
| CReject (h : nat) (code : byte)
| CDropIncoming (h : nat)
| CNext
| CDropAcceptor
| CRead (h room : nat)
| CWrite (h : nat) (buf : list byte)
| CShutdown (h : nat)
| CDropStream (h : nat)
| CClose
| CWriter (order : list nat)
| CFetch (n : nat)
| CDecode
| CFinish.

(** The decode step of the reader: one frame up to its routing. *)
Definition decode_step (x : half) : half :=
  match todo x with
  | Some _ => x
  | None =>
    match MuxFrame_decode_one (acc x) with
    | Ok (frame, consumed) =>
      let '(c, t) := handle_recv frame (conn x) in
      mkHalf c (wrote x) (got x) (drop (Z.to_nat consumed) (acc x)) t
    | Err (Truncated _ _) => x
    | Err _ => set_conn (close_connection (conn x)) x
    end
  end.

Definition finish_step (x : half) : half :=
  match todo x with
  | Some t => mkHalf (handle_rest t (conn x)) (wrote x) (got x) (acc x) None
  | None => x
  end.

(** A step of one end: the end, the bytes left on the carrier it reads and the
    bytes it puts on the other. *)
Definition conn_exec (a : conn_act) (x : half) (inc : list byte) : half * list byte * list byte :=
  match a with
  | COpen t => (set_conn (conn_open t (conn x)).1 x, inc, [])
  | CRecheck h => (set_conn (conn_open_recheck h (conn x)).1 x, inc, [])
  | CAccept h => (set_conn (incoming_accept h (conn x)) x, inc, [])
  | CReject h code => (set_conn (incoming_reject h code (conn x)) x, inc, [])
  | CDropIncoming h => (set_conn (incoming_drop h (conn x)) x, inc, [])
  | CNext => (set_conn (acceptor_accept (conn x)).1 x, inc, [])
  | CDropAcceptor => (set_conn (acceptor_drop (conn x)) x, inc, [])
  | CRead h room =>
    let '(c, r) := poll_read h room (conn x) in
    let b := match r with Ready (Ok b) => b | _ => [] end in
    (mkHalf c (wrote x) (log_app h b (got x)) (acc x) (todo x), inc, [])
  | CWrite h buf =>
    let '(c, r) := poll_write h buf (conn x) in
    let b := match r with Ready (Ok n) => take n buf | _ => [] end in
    (mkHalf c (log_app h b (wrote x)) (got x) (acc x) (todo x), inc, [])
  | CShutdown h => (set_conn (poll_shutdown h (conn x)).1 x, inc, [])
  | CDropStream h => (set_conn (stream_drop h (conn x)) x, inc, [])
  | CClose => (set_conn (close_connection (conn x)) x, inc, [])
  | CWriter order =>
    if conn_closed (conn x) then (x, inc, [])
    else let '(c, bytes) := drain_pass order (conn x) in (set_conn c x, inc, bytes)
  | CFetch n =>
    (mkHalf (conn x) (wrote x) (got x) (acc x ++ take n inc) (todo x), drop n inc, [])
  | CDecode => (decode_step x, inc, [])
  | CFinish => (finish_step x, inc, [])
  end.

(** Ids are left to allocate, targets are of the Rust type, and the writer visits
    the routed streams in some order. A [polite] application does not write
    after it has asked for the half-close. *)
Definition conn_ok (polite : bool) (a : conn_act) (x : half) : Prop :=
  ids_left (cstate (conn x)) ∧
  match a with
  | COpen t => target_typed t
  | CWrite h _ => polite = true → ∀ s, arena (conn x) !! h = Some s → ending (out s) = false
  | CWriter order => order ≡ₚ (map_to_list (routes (conn x))).*2
  | _ => True
  end.

(** ** Both ends *)
Record world : Type := mkWorld { wa : half; wb : half; cab : list byte; cba : list byte }.

Definition wswap (w : world) : world := mkWorld (wb w) (wa w) (cba w) (cab w).

Definition side_act (a : conn_act) (w : world) : world :=
  let '(x, inc, emitted) := conn_exec a (wa w) (cba w) in
  mkWorld x (wb w) (cab w ++ emitted) inc.

(** [true]: a step of the first end. *)
Definition world_act (s : bool * conn_act) (w : world) : world :=
  if s.1 then side_act s.2 w else wswap (side_act s.2 (wswap w)).
Definition world_ok (polite : bool) (s : bool * conn_act) (w : world) : Prop :=
  if s.1 then conn_ok polite s.2 (wa w) else conn_ok polite s.2 (wb w).

Definition half_new (r : StreamRole) (p : MuxPolicy) (acceptor : bool) : half :=
  mkHalf (Conn_new r p acceptor) (λ _, []) (λ _, []) [] None.

Inductive world_reachable (polite : bool) (r : StreamRole) (pa pb : MuxPolicy) (acca accb : bool)
  : world → Prop :=
| world_new :
    world_reachable polite r pa pb acca accb
      (mkWorld (half_new r pa acca) (half_new (opposite_role r) pb accb) [] [])
| world_next w s :
    world_reachable polite r pa pb acca accb w → world_ok polite s w →
    world_reachable polite r pa pb acca accb (world_act s w).

Definition world_run (ss : list (bool * conn_act)) (w : world) : world :=
  foldl (λ w s, world_act s w) w ss.
Fixpoint world_run_ok (polite : bool) (ss : list (bool * conn_act)) (w : world) : Prop :=
  match ss with
  | [] => True
  | s :: ss => world_ok polite s w ∧ world_run_ok polite ss (world_act s w)
  end.

Lemma world_run_reachable polite r pa pb aa bb ss w :
  world_reachable polite r pa pb aa bb w → world_run_ok polite ss w →
  world_reachable polite r pa pb aa bb (world_run ss w).
Proof.
  revert w. induction ss as [|s ss IH]; intros w Hw; simpl; [done|]. intros [Hok Hrest].
  apply IH; [by apply world_next|done].
Qed.

(** ** Buffers *)

(** The bytes received and not yet read. *)
Definition pending (i : InBuf) : list byte := drop (cursor i) (concat (chunks i)).

Definition cursor_ok (l : list (list byte)) (cur : nat) : Prop :=
  (cur ≤ length (default [] (head l)))%nat.

(** The payload the reader holds for a stream but has not routed yet. *)
Definition held (t : option Handling) (id : Z) : list byte :=
  match t with
  | Some (HEvent (EvData i b)) => if decide (id = i) then b else []
  | _ => []
  end.

(** The copy loop takes the first bytes, as many as there is room for. *)
Lemma read_chunks_spec room l cur b l' cur' :
  cursor_ok l cur → read_chunks room l cur = (b, l', cur') →
  drop cur (concat l) = b ++ drop cur' (concat l') ∧ cursor_ok l' cur' ∧
  length b = Nat.min room (length (drop cur (concat l))).
Proof.
  revert room cur b l' cur'. induction l as [|front l IH]; intros room cur b l' cur' Hc; simpl.
  - intros [= <- <- <-]. split_and!; [done|done|]. rewrite drop_nil. simpl. lia.
  - unfold cursor_ok in Hc. simpl in Hc. case_bool_decide as Hr.
    { intros [= <- <- <-]. split_and!; [done|done|]. subst. simpl. lia. }
    rewrite drop_app_le by done. set (k := drop cur front).
    assert (length k = length front - cur)%nat as Hk by (unfold k; rewrite length_drop; lia).
    case_bool_decide as Hd.
    + destruct (read_chunks (room - Nat.min (length front - cur) room) l 0) as [[b1 l1] c1] eqn:E.
      intros [= <- <- <-].
      destruct (IH (room - Nat.min (length front - cur) room)%nat 0%nat b1 l1 c1) as (H1 & H2 & H3);
        [unfold cursor_ok; lia|exact E|].
      rewrite drop_0 in H1, H3. rewrite take_ge by lia. rewrite <- app_assoc, <- H1.
      split_and!; [done|done|]. rewrite !length_app. lia.
    + intros [= <- <- <-]. simpl. rewrite drop_app_le by lia.
      rewrite <- drop_drop. fold k. rewrite app_assoc, take_drop.
      split_and!; [done|unfold cursor_ok; simpl; lia|]. rewrite length_take, length_app. lia.
Qed.
