(* ===== verification/MuxConnSim.v ===== *)
(** * The drivers implement the link

    Every step of the connection drivers (MuxWorld.v) is a sequence of steps of
    the link of two state machines (MuxLink.v), and the buffers of the handles
    stay in step with the logs of the link: what the application wrote is what
    the state machine took plus what is staged, what it read and what is
    buffered is what the state machine delivered. *)

From stdpp Require Import base numbers list gmap strings relations.
From Stdlib Require Import ZArith Lia Strings.Byte.
From S2P Require Import Prelude Bytes MuxFrame MuxTarget MuxStream MuxSched MuxState MuxInv MuxProps MuxEffect MuxFlow MuxLink MuxStable MuxConn MuxWorld.

(** ** Which stream a local operation touches *)
Definition op_target (op : mux_op) (st : MuxState) : Z :=
  match op with
  | OpOpen _ => next_id st
  | OpAccept i | OpReject i | OpSend i _ | OpEnd i | OpReset i _ | OpGrant i _ => i
  | OpRecv f => stream_id f
  | OpDrain => 0
  end.

Definition is_open (op : mux_op) : bool := match op with OpOpen _ => true | _ => false end.

Lemma of_stream_push id q i c b :
  i ≠ id → of_stream id (q ++ [mkMuxFrame i c b]) = of_stream id q.
Proof.
  intros H. rewrite of_stream_app, (of_stream_none id i [_]), app_nil_r; [done|done|by constructor].
Qed.

Ltac other_cases :=
  cbv zeta; repeat case_match; simpl;
  rewrite ?of_stream_push, ?lookup_alter_ne, ?lookup_delete_ne, ?lookup_insert_ne by done; done.

Lemma local_other op st id :
  mux_inv st → ids_left st → op_typed op → is_local op = true → op_target op st ≠ id →
  streams (mux_exec op st) !! id = streams st !! id ∧
  of_stream id (outbound (mux_exec op st)) = of_stream id (outbound st).
Proof.
  intros I Hl Ht Hloc Hne. destruct op as [t|i|i|i payload|i|i code|i delta| |]; try done; simpl in *.
  - rewrite open_local_eq by done. unfold next_id in Hne. other_cases.
  - rewrite accept_eq by done. other_cases.
  - rewrite reject_eq by done. other_cases.
  - rewrite send_data_eq by done. other_cases.
  - rewrite end_local_eq by done. other_cases.
  - rewrite reset_eq by done. other_cases.
  - rewrite grant_credit_eq by done. other_cases.
Qed.

Lemma local_alloc op st :
  mux_inv st → op_typed op → is_local op = true → is_open op = false →
  id_allocator (mux_exec op st) = id_allocator st.
Proof.
  intros I Ht Hloc Ho. destruct op as [t|i|i|i payload|i|i code|i delta| |]; try done; simpl in *.
  - rewrite accept_eq by done. by repeat case_match.
  - rewrite reject_eq by done. by repeat case_match.
  - rewrite send_data_eq by done. cbv zeta. by repeat case_match.
  - rewrite end_local_eq by done. by repeat case_match.
  - rewrite reset_eq by done. by repeat case_match.
  - rewrite grant_credit_eq by done. by repeat case_match.
Qed.

(** Only [end_local] queues an [EndLocal]. *)
Definition is_end (op : mux_op) : bool := match op with OpEnd _ => true | _ => false end.

Lemma of_stream_push_cmd c id q f :
  nocmd c (of_stream id q) → command f ≠ c → nocmd c (of_stream id (q ++ [f])).
Proof.
  intros H Hc. rewrite of_stream_app. apply Forall_app_2; [done|].
  unfold of_stream. rewrite filter_cons. case_decide; by repeat constructor.
Qed.

Lemma local_no_end op st id :
  mux_inv st → ids_left st → op_typed op → is_local op = true → is_end op = false →
  nocmd EndLocal (of_stream id (outbound st)) →
  nocmd EndLocal (of_stream id (outbound (mux_exec op st))).
Proof.
  intros I Hl Ht Hloc He Hn. destruct op as [t|i|i|i payload|i|i code|i delta| |]; try done; simpl in *.
  - rewrite open_local_eq by done. cbv zeta. repeat case_match; simpl; try done;
      by apply of_stream_push_cmd.
  - rewrite accept_eq by done. cbv zeta. repeat case_match; simpl; try done; by apply of_stream_push_cmd.
  - rewrite reject_eq by done. repeat case_match; simpl; try done; by apply of_stream_push_cmd.
  - rewrite send_data_eq by done. cbv zeta. repeat case_match; simpl; try done; by apply of_stream_push_cmd.
  - rewrite reset_eq by done. repeat case_match; simpl; try done; by apply of_stream_push_cmd.
  - rewrite grant_credit_eq by done. repeat case_match; simpl; try done; by apply of_stream_push_cmd.
Qed.

(** Operations other than [grant_credit] and [open_local] leave the receive
    windows alone. *)
Definition keeps_window (op : mux_op) : bool :=
  match op with OpAccept _ | OpReject _ | OpReset _ _ | OpSend _ _ | OpEnd _ => true | _ => false end.

Lemma op_window op st id t :
  mux_inv st → keeps_window op = true → streams (mux_exec op st) !! id = Some t →
  ∃ t0, streams st !! id = Some t0 ∧ recv_window t0 = recv_window t.
Proof.
  intros I Hop.
  assert (∀ f i, (∀ s, recv_window (f s) = recv_window s) → alter f i (streams st) !! id = Some t →
    ∃ t0, streams st !! id = Some t0 ∧ recv_window t0 = recv_window t) as Halter.
  { intros f i Hf Hs. apply lookup_alter_Some in Hs as [(<- & t0 & ? & ->)|[_ ?]]; eauto. }
  assert (∀ i, delete i (streams st) !! id = Some t →
    ∃ t0, streams st !! id = Some t0 ∧ recv_window t0 = recv_window t) as Hdelete.
  { intros i [_ ?]%lookup_delete_Some. eauto. }
  destruct op; try done; simpl.
  - rewrite accept_eq by done. repeat case_match; simpl; first [by apply Halter | by apply Hdelete | by eauto].
  - rewrite reject_eq by done. repeat case_match; simpl; first [by apply Halter | by apply Hdelete | by eauto].
  - rewrite send_data_eq by done. cbv zeta. repeat case_match; simpl; first [by apply Halter | by apply Hdelete | by eauto].
  - rewrite end_local_eq by done. repeat case_match; simpl; first [by apply Halter | by apply Hdelete | by eauto].
  - rewrite reset_eq by done. repeat case_match; simpl; first [by apply Halter | by apply Hdelete | by eauto].
Qed.

(** ** The relation *)

(** One handle: [snt], [rcv] are the logs of its stream on the link, [ost] its
    entry in the state machine, [pd] payload the reader still holds for it,
    [routed] whether the routing map leads to it, [wr], [gt] what its
    application wrote and read. *)
Record handle_ok (iw : Z) (polite : bool) (snt rcv : list byte) (ost : option Stream)
  (pd : list byte) (routed : Prop) (wr gt : list byte) (s : StreamShared) : Prop := {
  ho_window : window s = iw;
  ho_cursor : cursor_ok (chunks (inb s)) (cursor (inb s));
  ho_out : wr = snt ++ ob_buf (out s);
  ho_prefix : gt ++ pending (inb s) `prefix_of` rcv;
  ho_routed : routed → rcv = gt ++ pending (inb s) ++ pd;
  ho_eof : in_eof (inb s) = true → rcv = gt ++ pending (inb s);
  ho_credit : ∀ t, ost = Some t →
    recv_window t + zlen (pending (inb s)) + zlen pd + unacked (inb s) ≤ iw;
  ho_unacked : 0 ≤ unacked (inb s);
  ho_ended : polite = true → ended_sent (out s) = true →
    ending (out s) = true ∧ ob_buf (out s) = [];
}.

Section sim.
Context (iw : Z) (polite : bool).

Definition handle_sim (e : endpoint) (x : half) (h : nat) (s : StreamShared) : Prop :=
  handle_ok iw polite (sent_log e (sh_id s)) (rcvd_log e (sh_id s)) (streams (mx e) !! sh_id s)
    (held (todo x) (sh_id s)) (routes (conn x) !! sh_id s = Some h) (wrote x h) (got x h) s.

(** The end of the stream's first direction is in flight or has arrived. *)
Definition at_end (y : half) (id : Z) : Prop :=
  (∃ h s, arena (conn y) !! h = Some s ∧ sh_id s = id ∧ in_eof (inb s) = true) ∨
  todo y = Some (HEvent (EvPeerEndLocal id)).
Definition end_seen (l : link) (y : half) (id : Z) : Prop :=
  ¬ nocmd EndLocal (flight (ab l) (ea l) id) ∨ at_end y id.

(** A stream the reader is about to announce: nothing has happened on it. *)
Record announced (l : link) (x y : half) (id : Z) : Prop := {
  an_role : role_owns (role (mx (ea l))) id = false;
  an_begun : begun l id;
  an_new : ∀ h s, arena (conn x) !! h = Some s → sh_id s ≠ id;
  an_sent : sent_log (ea l) id = [];
  an_rcvd : rcvd_log (ea l) id = [];
  an_window : ∀ s, streams (mx (ea l)) !! id = Some s → recv_window s ≤ iw;
  an_end : ¬ end_seen l y id;
}.

Record half_sim (l : link) (x y : half) : Prop := {
  hs_mx : mx (ea l) = cstate (conn x);
  hs_uniq : ∀ h h' s s', arena (conn x) !! h = Some s → arena (conn x) !! h' = Some s' →
    sh_id s = sh_id s' → h = h';
  hs_route : ∀ id h, routes (conn x) !! id = Some h →
    ∃ s, arena (conn x) !! h = Some s ∧ sh_id s = id;
  hs_known : ∀ h s, arena (conn x) !! h = Some s →
    (role_owns (role (mx (ea l))) (sh_id s) = true → sh_id s < next_id (mx (ea l))) ∧
    (role_owns (role (mx (eb l))) (sh_id s) = true → begun l (sh_id s));
  hs_handles : ∀ h s, arena (conn x) !! h = Some s → handle_sim (ea l) x h s;
  hs_logs : ∀ h, (length (arena (conn x)) ≤ h)%nat → wrote x h = [] ∧ got x h = [];
  hs_held : ∀ id b, todo x = Some (HEvent (EvData id b)) → begun l id;
  hs_incoming : ∀ id t, todo x = Some (HEvent (EvIncoming id t)) → announced l x y id;
  hs_fin : ∀ id, at_end x id → finished (swap l) id;
  hs_end : ∀ h s, arena (conn x) !! h = Some s → end_seen l y (sh_id s) → ended_sent (out s) = true;
}.

Record sim (w : world) (l : link) : Prop := {
  sm_link : link_inv iw l;
  sm_a : half_sim l (wa w) (wb w);
  sm_b : half_sim (swap l) (wb w) (wa w);
  sm_ab : acc (wb w) ++ cab w = concat (MuxFrame_encode <$> ab l);
  sm_ba : acc (wa w) ++ cba w = concat (MuxFrame_encode <$> ba l);
}.

Lemma sim_swap w l : sim w l → sim (wswap w) (swap l).
Proof. intros []. split; simpl; try done; [by apply link_inv_swap|by rewrite swap_swap]. Qed.

(** ** The other end *)
Lemma peer_sim l l' x x' y :
  link_inv iw l → side_step l l' ∨ l' = l → half_sim (swap l) y x →
  (∀ id, end_seen (swap l') x' id → end_seen (swap l) x id) → half_sim (swap l') y x'.
Proof.
  intros L Hs H He.
  assert (eb l' = eb l ∧ role (mx (ea l')) = role (mx (ea l)) ∧
          (∀ id, begun l id → begun l' id) ∧ (∀ id, finished l id → finished l' id)) as (Heb & Hr & Hb & Hf).
  { destruct Hs as [Hs| ->]; [|done]. split_and!; [by destruct Hs| |intros id; by eapply begun_side
      |intros id; by eapply finished_side_a].
    pose proof (li_role _ _ L) as R. pose proof (li_role _ _ (side_step_inv _ _ _ L Hs)) as R'.
    assert (eb l' = eb l) as E by by destruct Hs. rewrite E, R in R'.
    by destruct (role (mx (ea l))), (role (mx (ea l'))). }
  destruct H. split; simpl in *; rewrite ?Heb, ?Hr; try done.
  - intros h s Hh. destruct (hs_known0 h s Hh) as [? Hbg]. split; [done|]. intros Ho.
    apply begun_swap, Hb. specialize (Hbg Ho). apply begun_swap in Hbg. by rewrite swap_swap in Hbg.
  - intros id b Hb'. apply begun_swap, Hb. specialize (hs_held0 id b Hb').
    apply begun_swap in hs_held0. by rewrite swap_swap in hs_held0.
  - intros id t Ht. destruct (hs_incoming0 id t Ht). split; simpl; rewrite ?Heb; try done.
    + apply begun_swap in an_begun0. rewrite swap_swap in an_begun0. by apply begun_swap, Hb.
    + intros Hen. by apply an_end0, He.
  - intros id Hid. rewrite swap_swap. apply Hf. specialize (hs_fin0 id Hid). by rewrite swap_swap in hs_fin0.
  - intros h s Hh Hen. by eapply hs_end0; [|apply He].
Qed.

(** ** The own end: an operation on one of its streams, or none *)
Definition do_op (o : option mux_op) (l : link) : link :=
  match o with
  | None => l
  | Some op => mkLink (ep_local op (ea l)) (eb l) (ab l) (ba l)
  end.
Definition do_exec (o : option mux_op) (st : MuxState) : MuxState :=
  match o with None => st | Some op => mux_exec op st end.
Definition op_good (o : option mux_op) (st : MuxState) : Prop :=
  match o with
  | None => True
  | Some op => op_typed op ∧ is_local op = true ∧ ids_left st ∧ grant_ok op st
  end.

Lemma do_op_step o l : op_good o (mx (ea l)) → side_step l (do_op o l) ∨ do_op o l = l.
Proof. destruct o as [op|]; [|by right]. intros (? & ? & ? & ?). left. by apply side_local. Qed.

(** Streams other than the operation's. *)
Lemma do_op_other o l id :
  link_inv iw l → op_good o (mx (ea l)) → (∀ op, o = Some op → op_target op (mx (ea l)) ≠ id) →
  sent_log (ea (do_op o l)) id = sent_log (ea l) id ∧
  streams (mx (ea (do_op o l))) !! id = streams (mx (ea l)) !! id ∧
  flight (ab l) (ea (do_op o l)) id = flight (ab l) (ea l) id.
Proof.
  intros L Hg Ht. destruct o as [op|]; [|done]. destruct Hg as (? & ? & ? & ?).
  specialize (Ht op eq_refl). destruct (local_other op (mx (ea l)) id (li_a _ _ L)) as [Hs Ho]; try done.
  split_and!; simpl; [|done|].
  - destruct op; simpl in *; rewrite ?app_nil_r; try done. rewrite decide_False by congruence.
    apply app_nil_r.
  - unfold flight. simpl. by rewrite !of_stream_app, Ho.
Qed.

Lemma do_op_rcvd o l : rcvd_log (ea (do_op o l)) = rcvd_log (ea l).
Proof. by destruct o. Qed.

Lemma do_op_end o l id :
  link_inv iw l → op_good o (mx (ea l)) →
  ¬ nocmd EndLocal (flight (ab l) (ea (do_op o l)) id) →
  ¬ nocmd EndLocal (flight (ab l) (ea l) id) ∨ o = Some (OpEnd id).
Proof.
  intros L Hg Hn. destruct o as [op|]; [|by left]. destruct Hg as (? & ? & ? & ?).
  destruct (decide (op_target op (mx (ea l)) = id)) as [Ht|Ht].
  - destruct (is_end op) eqn:He.
    + right. destruct op; try done. simpl in *. congruence.
    + left. intros Hno. apply Hn. unfold flight in *. simpl. rewrite of_stream_app in *.
      apply Forall_app in Hno as [? ?]. apply Forall_app_2; [done|].
      apply local_no_end; auto. apply (li_a _ _ L).
  - left. by destruct (do_op_other (Some op) l id L) as (_ & _ & <-); [done|intros ? [= <-]|].
Qed.

(** What an own step may do to the handles: keep their identity, not invent an
    end of stream, not forget an end that was sent. *)
Definition handle_step (o : option mux_op) (s s' : StreamShared) : Prop :=
  sh_id s' = sh_id s ∧ (in_eof (inb s') = true → in_eof (inb s) = true) ∧
  (ended_sent (out s) = true → ended_sent (out s') = true) ∧
  (o = Some (OpEnd (sh_id s)) → ended_sent (out s') = true).

Lemma own_sim o l x x' y :
  link_inv iw l → half_sim l x y → op_good o (mx (ea l)) →
  (∀ op id t, o = Some op → todo x = Some (HEvent (EvIncoming id t)) → op_target op (mx (ea l)) ≠ id) →
  cstate (conn x') = do_exec o (cstate (conn x)) → todo x' = todo x →
  routes (conn x') ⊆ routes (conn x) → length (arena (conn x')) = length (arena (conn x)) →
  (∀ h, (length (arena (conn x)) ≤ h)%nat → wrote x' h = wrote x h ∧ got x' h = got x h) →
  (∀ h s', arena (conn x') !! h = Some s' → ∃ s, arena (conn x) !! h = Some s ∧
     handle_step o s s' ∧ handle_sim (ea (do_op o l)) x' h s') →
  half_sim (do_op o l) x' y.
Proof.
  intros L H Hg Htgt Hst Htodo Hro Hlen Hlog Har. pose proof (do_op_step o l Hg) as Hstep.
  assert (∀ h s, arena (conn x) !! h = Some s → ∃ s', arena (conn x') !! h = Some s' ∧ sh_id s' = sh_id s) as Hback.
  { intros h s Hh. assert (is_Some (arena (conn x') !! h)) as [s' Hs'].
    { apply lookup_lt_is_Some. rewrite Hlen. by eapply lookup_lt_Some. }
    exists s'. split; [done|]. destruct (Har h s' Hs') as (s0 & E & [? _] & _). congruence. }
  assert (∀ id, begun l id → begun (do_op o l) id) as Hbg
    by (intros id; destruct Hstep as [Hs| ->]; [by eapply begun_side|done]).
  assert (role (mx (ea (do_op o l))) = role (mx (ea l)) ∧ eb (do_op o l) = eb l ∧
          ab (do_op o l) = ab l ∧ next_id (mx (ea l)) ≤ next_id (mx (ea (do_op o l)))) as (Hr & Heb & Hab & Hn).
  { destruct o as [op|]; [|done]. destruct Hg as (? & ? & ? & ?).
    destruct (local_config op (mx (ea l))) as (? & _ & ?); try done. apply (li_a _ _ L). }
  assert (∀ id, at_end x' id → at_end x id) as Hae.
  { intros id [(h & s' & Hh & Hid & Heof)|Ht]; [|right; by rewrite <- Htodo]. left.
    destruct (Har h s' Hh) as (s & E & (? & He & _) & _). exists h, s. split_and!; auto; congruence. }
  destruct H. split; rewrite ?Hr, ?Heb.
  - rewrite Hst, <- hs_mx0. by destruct o.
  - intros h h' s1 s2 H1 H2 E. destruct (Har h s1 H1) as (t1 & T1 & [I1 _] & _).
    destruct (Har h' s2 H2) as (t2 & T2 & [I2 _] & _). apply (hs_uniq0 h h' t1 t2); congruence.
  - intros id h E. destruct (hs_route0 id h) as (s & Hs & Hid); [by eapply lookup_weaken|].
    destruct (Hback h s Hs) as (s' & ? & ?). exists s'. split; congruence.
  - intros h s' Hh. destruct (Har h s' Hh) as (s & E & [-> _] & _).
    destruct (hs_known0 h s E) as [Hown ?]. split; [|by auto]. intros Ho. specialize (Hown Ho). lia.
  - intros h s' Hh. by destruct (Har h s' Hh) as (s & _ & _ & ?).
  - rewrite Hlen. intros h Hh. destruct (Hlog h Hh) as [-> ->]. by apply hs_logs0.
  - rewrite Htodo. intros id b Hb. by eapply Hbg, hs_held0.
  - rewrite Htodo. intros id t Ht. destruct (hs_incoming0 id t Ht).
    destruct (do_op_other o l id L Hg) as (Hs1 & Hs2 & Hs3).
    { intros op E. by eapply Htgt. }
    split; rewrite ?Hr, ?do_op_rcvd, ?Hs1, ?Hs2; auto.
    + intros h s' Hh. destruct (Har h s' Hh) as (s & E & [-> _] & _). by eapply an_new0.
    + unfold end_seen. by rewrite Hab, Hs3.
  - intros id Hid%Hae. specialize (hs_fin0 id Hid). destruct Hstep as [Hs| ->]; [|done].
    apply (finished_side_b iw (swap l)); [by apply link_inv_swap|by rewrite swap_swap|done].
  - intros h s' Hh. destruct (Har h s' Hh) as (s & E & (Hid & _ & Hold & Hend) & _). rewrite Hid.
    intros [Hn'|Hat]; [|apply Hold, (hs_end0 h s E); by right].
    rewrite Hab in Hn'. destruct (do_op_end o l (sh_id s) L Hg Hn') as [?|Ho]; [|by auto].
    apply Hold, (hs_end0 h s E). by left.
Qed.

(** The same for the whole world. *)
Lemma own_world o w l x' :
  sim w l → op_good o (mx (ea l)) →
  (∀ op id t, o = Some op → todo (wa w) = Some (HEvent (EvIncoming id t)) → op_target op (mx (ea l)) ≠ id) →
  cstate (conn x') = do_exec o (cstate (conn (wa w))) → todo x' = todo (wa w) → acc x' = acc (wa w) →
  routes (conn x') ⊆ routes (conn (wa w)) → length (arena (conn x')) = length (arena (conn (wa w))) →
  (∀ h, (length (arena (conn (wa w))) ≤ h)%nat → wrote x' h = wrote (wa w) h ∧ got x' h = got (wa w) h) →
  (∀ h s', arena (conn x') !! h = Some s' → ∃ s, arena (conn (wa w)) !! h = Some s ∧
     handle_step o s s' ∧ handle_sim (ea (do_op o l)) x' h s') →
  sim (mkWorld x' (wb w) (cab w) (cba w)) (do_op o l).
Proof.
  intros S Hg Htgt Hst Htodo Hacc Hro Hlen Hlog Har. pose proof (do_op_step o l Hg) as Hstep. destruct S.
  assert (ab (do_op o l) = ab l ∧ ba (do_op o l) = ba l) as [Hab Hba] by (by destruct o).
  split; simpl; rewrite ?Hab, ?Hba, ?Hacc; try done.
  - destruct Hstep as [Hs| ->]; [by eapply side_step_inv|done].
  - by eapply own_sim.
  - eapply (peer_sim l); try done. intros id [Hn|Hat].
    + left. simpl in *. by destruct o.
    + right. destruct Hat as [(h & s' & Hh & Hid & Heof)|Ht]; [|right; by rewrite <- Htodo]. left.
      destruct (Har h s' Hh) as (s & E & (? & He & _) & _). exists h, s. split_and!; auto; congruence.
Qed.

(** Handles an own step does not change. *)
Lemma handle_other o l x x' y h s :
  link_inv iw l → half_sim l x y → op_good o (mx (ea l)) →
  (∀ op, o = Some op → op_target op (mx (ea l)) ≠ sh_id s) →
  arena (conn x) !! h = Some s → todo x' = todo x → routes (conn x') ⊆ routes (conn x) →
  wrote x' h = wrote x h → got x' h = got x h →
  handle_sim (ea (do_op o l)) x' h s.
Proof.
  intros L H Hg Ht Hh Htodo Hro Hw Hgt. destruct (do_op_other o l (sh_id s) L Hg Ht) as (H1 & H2 & _).
  destruct (hs_handles _ _ _ H h s Hh). unfold handle_sim. rewrite do_op_rcvd, H1, H2, Htodo, Hw, Hgt.
  split; try done. intros R. apply ho_routed0. by eapply lookup_weaken.
Qed.

(** One handle changes, together with an operation on its stream. *)
Lemma sim_at o w l h s s' c' wr' gt' :
  sim w l → arena (conn (wa w)) !! h = Some s → op_good o (mx (ea l)) →
  (∀ op, o = Some op → op_target op (mx (ea l)) = sh_id s) →
  cstate c' = do_exec o (cstate (conn (wa w))) → routes c' ⊆ routes (conn (wa w)) →
  arena c' = <[h := s']> (arena (conn (wa w))) → handle_step o s s' →
  (∀ k, k ≠ h → wr' k = wrote (wa w) k ∧ gt' k = got (wa w) k) →
  handle_sim (ea (do_op o l)) (mkHalf c' wr' gt' (acc (wa w)) (todo (wa w))) h s' →
  sim (mkWorld (mkHalf c' wr' gt' (acc (wa w)) (todo (wa w))) (wb w) (cab w) (cba w)) (do_op o l).
Proof.
  intros S Hh Hg Ht Hst Hro Har Hs Hlog Hok. pose proof S as [L A _ _ _].
  eapply own_world; try done; simpl.
  - intros op id t E Hid. rewrite (Ht op E). by eapply (an_new _ _ _ _ (hs_incoming _ _ _ A id t Hid)).
  - by rewrite Har, length_insert.
  - intros k Hk. apply Hlog. intros ->. apply lookup_lt_Some in Hh. lia.
  - rewrite Har. intros k sk Hk. destruct (decide (k = h)) as [->|Hne].
    + rewrite list_lookup_insert_eq in Hk by (by eapply lookup_lt_Some). simplify_eq. by exists s.
    + rewrite list_lookup_insert_ne in Hk by done. exists sk. split; [done|].
      assert (∀ op, o = Some op → op_target op (mx (ea l)) ≠ sh_id sk) as Hot.
      { intros op E. rewrite (Ht op E). intros E'. by apply Hne, (hs_uniq _ _ _ A k h sk s). }
      split.
      * split_and!; try done. intros ->. by destruct (Hot _ eq_refl).
      * destruct (Hlog k Hne). eapply handle_other; try done; apply S.
Qed.

(** Flags and the routing map: neither the link nor the buffers move. *)
Definition same_data (s s' : StreamShared) : Prop :=
  sh_id s' = sh_id s ∧ window s' = window s ∧
  ob_buf (out s') = ob_buf (out s) ∧ ended_sent (out s') = ended_sent (out s) ∧
  (ending (out s) = true → ending (out s') = true) ∧
  chunks (inb s') = chunks (inb s) ∧ cursor (inb s') = cursor (inb s) ∧
  unacked (inb s') = unacked (inb s) ∧ in_eof (inb s') = in_eof (inb s).

Lemma sim_flags w l c' :
  sim w l → cstate c' = cstate (conn (wa w)) → routes c' ⊆ routes (conn (wa w)) →
  length (arena c') = length (arena (conn (wa w))) →
  (∀ h s', arena c' !! h = Some s' → ∃ s, arena (conn (wa w)) !! h = Some s ∧ same_data s s') →
  sim (mkWorld (set_conn c' (wa w)) (wb w) (cab w) (cba w)) l.
Proof.
  intros S Hst Hro Hlen Har. apply (own_world None); try done; simpl.
  intros h s' Hh. destruct (Har h s' Hh) as (s & E & (E1 & E2 & E3 & E4 & E5 & E6 & E7 & E8 & E9)).
  exists s. split; [done|]. split; [split_and!; try done; congruence|].
  destruct (hs_handles _ _ _ (sm_a _ _ S) h s E).
  unfold handle_sim, pending in *. simpl. rewrite E1. split; unfold pending; rewrite ?E2, ?E3, ?E4, ?E6, ?E7, ?E8, ?E9; try done.
  - intros R. apply ho_routed0. by eapply lookup_weaken.
  - intros Hp He. destruct (ho_ended0 Hp He). auto.
Qed.

Lemma same_data_refl s : same_data s s.
Proof. by split_and!. Qed.

(** Only the parts of the connection the relation does not mention change. *)
Lemma sim_conn w l c' :
  sim w l → cstate c' = cstate (conn (wa w)) → routes c' ⊆ routes (conn (wa w)) →
  arena c' = arena (conn (wa w)) →
  sim (mkWorld (set_conn c' (wa w)) (wb w) (cab w) (cba w)) l.
Proof.
  intros S Hst Hro Har. apply sim_flags; try done; [by rewrite Har|].
  rewrite Har. intros h s Hh. exists s. split; [done|apply same_data_refl].
Qed.

(** An operation on the stream of a handle that leaves its buffers alone. *)
Lemma sim_op op w l h s c' :
  sim w l → arena (conn (wa w)) !! h = Some s → op_good (Some op) (mx (ea l)) →
  op_target op (mx (ea l)) = sh_id s →
  match op with OpAccept _ | OpReject _ | OpReset _ _ => True | _ => False end →
  cstate c' = mux_exec op (cstate (conn (wa w))) → routes c' ⊆ routes (conn (wa w)) →
  arena c' = arena (conn (wa w)) →
  sim (mkWorld (set_conn c' (wa w)) (wb w) (cab w) (cba w)) (do_op (Some op) l).
Proof.
  intros S Hh Hg Ht Hop Hst Hro Har. pose proof (sm_a _ _ S) as A. pose proof (sm_link _ _ S) as L.
  destruct (hs_handles _ _ _ A h s Hh).
  assert (op_sent op (mx (ea l)) (sh_id s) = []) as Hsent by (by destruct op).
  eapply (sim_at (Some op) w l h s s c'); try done.
  - by intros ? [= <-].
  - by rewrite Har, list_insert_id.
  - split_and!; try done. by intros [= ->].
  - unfold handle_sim. simpl. rewrite Hsent, app_nil_r. split; try done.
    + intros R. apply ho_routed0. by eapply lookup_weaken.
    + intros t Hs. destruct (op_window op (mx (ea l)) (sh_id s) t) as (t0 & Ht0 & <-); try done; try by destruct op.
      * apply L.
      * by apply ho_credit0.
Qed.
End sim.
