(* ===== verification/MuxConnStep.v ===== *)
(** * The drivers implement the link: step by step

    The simulation of MuxConnSim.v for the calls of the applications. *)

From stdpp Require Import base numbers list gmap strings relations.
From Stdlib Require Import ZArith Lia Strings.Byte.
From S2P Require Import Prelude Bytes MuxFrame MuxTarget MuxStream MuxSched MuxState MuxInv MuxProps MuxEffect MuxFlow MuxLink MuxStable MuxConn MuxWorld MuxConnSim.

Lemma alter_insert {A} (f : A → A) h (l : list A) s :
  l !! h = Some s → alter f h l = <[h := f s]> l.
Proof.
  intros H. apply list_eq. intros k. destruct (decide (k = h)) as [->|Hne].
  - rewrite list_lookup_alter_eq, H, list_lookup_insert_eq; [done|by eapply lookup_lt_Some].
  - by rewrite list_lookup_alter_ne, list_lookup_insert_ne by done.
Qed.

Section step.
Context (iw : Z) (polite : bool).
Abbreviation sim := (sim iw polite).

(** The world after the first end has moved. *)
Definition at_a (x : half) (w : world) : world := mkWorld x (wb w) (cab w) (cba w).

(** The link follows, and the id space is not touched. *)
Definition follows (w w' : world) (l : link) : Prop :=
  ∃ l', rtc side_step l l' ∧ sim w' l' ∧
    id_allocator (cstate (conn (wa w'))) = id_allocator (cstate (conn (wa w))).

Lemma follows_here w w' l :
  sim w' l → cstate (conn (wa w')) = cstate (conn (wa w)) → follows w w' l.
Proof. intros S E. exists l. split_and!; [done|done|by rewrite E]. Qed.

Lemma follows_op o w w' l :
  sim w l → op_good o (mx (ea l)) → (∀ op, o = Some op → is_open op = false) →
  cstate (conn (wa w')) = do_exec o (cstate (conn (wa w))) →
  sim w' (do_op o l) → follows w w' l.
Proof.
  intros S Hg Hop Hst S'. exists (do_op o l). split_and!; [|done|].
  - destruct (do_op_step o l Hg) as [?| ->]; [by apply rtc_once|done].
  - rewrite Hst. destruct o as [op|]; [|done]. destruct Hg as (? & ? & ? & ?). specialize (Hop op eq_refl).
    rewrite <- (hs_mx _ _ _ _ _ (sm_a _ _ _ _ S)). apply local_alloc; try done.
    apply (li_a _ _ (sm_link _ _ _ _ S)).
Qed.

Lemma follows_trans w w1 w' l :
  ids_left (cstate (conn (wa w))) → follows w w1 l →
  (∀ l1, sim w1 l1 → ids_left (cstate (conn (wa w1))) → follows w1 w' l1) → follows w w' l.
Proof.
  intros Hi (l1 & H1 & S1 & E1) H.
  destruct (H l1 S1) as (l2 & H2 & S2 & E2); [unfold ids_left; by rewrite E1|]. exists l2.
  split_and!; [by etransitivity|done|congruence].
Qed.

Section one.
Context (w : world) (l : link) (S : sim w l) (Hi : ids_left (cstate (conn (wa w)))).
Let x := wa w.
Let c := conn x.

Lemma good op : op_typed op → is_local op = true →
  grant_ok op (cstate c) → op_good (Some op) (mx (ea l)).
Proof.
  intros. unfold op_good. rewrite (hs_mx _ _ _ _ _ (sm_a _ _ _ _ S)). by split_and!.
Qed.

(** Only the routing map shrinks, or parts the relation does not mention move. *)
Lemma follows_conn c' :
  cstate c' = cstate c → routes c' ⊆ routes c → arena c' = arena c →
  follows w (at_a (set_conn c' x) w) l.
Proof. intros. by apply follows_here; [apply sim_conn|]. Qed.

Lemma follows_same : follows w w l.
Proof. by apply follows_here. Qed.

Lemma at_a_same : at_a (set_conn c x) w = w.
Proof. unfold c, x. clear S Hi c x. by destruct w as [[] ? ? ?]. Qed.

Lemma follows_skip : follows w (at_a (set_conn c x) w) l.
Proof. rewrite at_a_same. apply follows_same. Qed.

Lemma recheck_follows h : follows w (at_a (set_conn (conn_open_recheck h c).1 x) w) l.
Proof.
  unfold conn_open_recheck. destruct (conn_closed c); [|apply follows_skip].
  destruct (arena c !! h) as [s|]; [|apply follows_skip].
  apply follows_conn; [done|apply delete_subseteq|done].
Qed.

(** Answering or tearing down the stream of a handle. *)
Lemma op_follows op h s c' :
  arena c !! h = Some s → op_target op (mx (ea l)) = sh_id s →
  match op with OpAccept _ | OpReject _ | OpReset _ _ => True | _ => False end →
  cstate c' = mux_exec op (cstate c) → routes c' ⊆ routes c → arena c' = arena c →
  follows w (at_a (set_conn c' x) w) l.
Proof.
  intros Hh Ht Hop Hst Hro Har. assert (op_good (Some op) (mx (ea l))) as Hg
    by (apply good; by destruct op).
  eapply (follows_op (Some op)); try done; [by intros ? [= <-]; destruct op|]. by eapply sim_op.
Qed.

Lemma accept_follows h : follows w (at_a (set_conn (incoming_accept h c) x) w) l.
Proof.
  unfold incoming_accept. destruct (arena c !! h) as [s|] eqn:Hh; [|apply follows_skip].
  by eapply (op_follows (OpAccept (sh_id s))).
Qed.

Lemma reject_follows h code : follows w (at_a (set_conn (incoming_reject h code c) x) w) l.
Proof.
  unfold incoming_reject. destruct (arena c !! h) as [s|] eqn:Hh; [|apply follows_skip].
  eapply (op_follows (OpReset (sh_id s) code)); try done. simpl. apply delete_subseteq.
Qed.

Lemma stream_drop_follows h : follows w (at_a (set_conn (stream_drop h c) x) w) l.
Proof.
  unfold stream_drop. destruct (arena c !! h) as [s|] eqn:Hh; [|apply follows_skip].
  destruct (routes c !! sh_id s); [|apply follows_skip]. cbn zeta.
  destruct (stream_state _ _).
  - eapply (op_follows (OpReset (sh_id s) x00)); try done. simpl. apply delete_subseteq.
  - apply follows_conn; [done|apply delete_subseteq|done].
Qed.

Lemma flags_follows c' :
  cstate c' = cstate c → routes c' ⊆ routes c → length (arena c') = length (arena c) →
  (∀ h s', arena c' !! h = Some s' → ∃ s, arena c !! h = Some s ∧ same_data s s') →
  follows w (at_a (set_conn c' x) w) l.
Proof. intros. by apply follows_here; [apply sim_flags|]. Qed.

Lemma flags_at_follows h f c' :
  cstate c' = cstate c → routes c' ⊆ routes c → arena c' = alter f h (arena c) →
  (∀ s, same_data s (f s)) → follows w (at_a (set_conn c' x) w) l.
Proof.
  intros Hst Hro Har Hf. apply flags_follows; try done; rewrite Har.
  - apply length_alter.
  - intros k s' Hk. destruct (decide (k = h)) as [->|Hne].
    + rewrite list_lookup_alter_eq in Hk. apply fmap_Some in Hk as (s & Hs & ->). eauto.
    + rewrite list_lookup_alter_ne in Hk by done. exists s'. split; [done|apply same_data_refl].
Qed.

Lemma fault_data code s : same_data s (fault_shared code s).
Proof. unfold fault_shared. case_bool_decide; by split_and!. Qed.

Lemma fault_follows id code : follows w (at_a (set_conn (fault_stream id code c) x) w) l.
Proof.
  unfold fault_stream. destruct (routes c !! id) as [h|]; [|apply follows_skip].
  eapply flags_at_follows; [done|apply delete_subseteq|done|]. apply fault_data.
Qed.

Lemma close_data s : same_data s (close_shared s).
Proof. unfold close_shared. destruct (_ && _); by split_and!. Qed.

Lemma close_follows : follows w (at_a (set_conn (close_connection c) x) w) l.
Proof.
  unfold close_connection. destruct (conn_closed c); [apply follows_skip|].
  apply flags_follows; simpl; [done|apply map_empty_subseteq|apply length_imap|].
  intros h s'. rewrite list_lookup_imap. destruct (arena c !! h) as [s|] eqn:E; simpl; [|done].
  intros [= <-]. exists s. split; [done|]. case_bool_decide; [apply close_data|apply same_data_refl].
Qed.

Lemma shutdown_follows h : follows w (at_a (set_conn (poll_shutdown h c).1 x) w) l.
Proof.
  unfold poll_shutdown. destruct (arena c !! h) as [s|] eqn:Hh; [|apply follows_skip].
  assert (follows w (at_a (set_conn (upd h (set_out (mkOut (ob_buf (out s)) true (ended_sent (out s))
    (ob_closed (out s)))) c) x) w) l) as H; [|by destruct (_ || _)].
  apply flags_follows; simpl; try done; [apply length_alter|].
  intros k s' Hk. destruct (decide (k = h)) as [->|Hne].
  - rewrite list_lookup_alter_eq, Hh in Hk. simplify_eq/=. exists s. by split_and!.
  - rewrite list_lookup_alter_ne in Hk by done. exists s'. split; [done|apply same_data_refl].
Qed.
End one.

Lemma incoming_drop_follows w l h :
  sim w l → ids_left (cstate (conn (wa w))) →
  follows w (at_a (set_conn (incoming_drop h (conn (wa w))) (wa w)) w) l.
Proof.
  intros S Hi. unfold incoming_drop. set (c := conn (wa w)).
  destruct (arena c !! h) as [s|] eqn:Hh; [|by apply follows_skip].
  pose proof (op_follows w l S Hi (OpReject (sh_id s)) h s
    (set_cstate (reject (sh_id s) (cstate c)).1 c) Hh eq_refl Logic.I eq_refl ltac:(done) eq_refl) as H1.
  eapply follows_trans; [done|exact H1|]. clear H1 S l. intros l1 S1 Hi1. simpl in Hi1.
  destruct (reject (sh_id s) (cstate c)) as [st [|e]]; simpl in *.
  - apply (follows_conn _ l1 S1); [done|apply delete_subseteq|done].
  - apply (op_follows _ l1 S1 Hi1 (OpReset (sh_id s) x01) h s); try done. apply delete_subseteq.
Qed.

Lemma drops_follows (ds : list (nat * MuxTarget)) w l :
  sim w l → ids_left (cstate (conn (wa w))) →
  follows w (at_a (set_conn (foldl (λ c i, incoming_drop i.1 c) (conn (wa w)) ds) (wa w)) w) l.
Proof.
  revert w l. induction ds as [|d ds IH]; intros w l S Hi; [by apply follows_skip|].
  eapply follows_trans; [done|by apply (incoming_drop_follows w l d.1)|].
  intros l1 S1 Hi1. apply (IH _ l1 S1 Hi1).
Qed.

Lemma acceptor_drop_follows w l :
  sim w l → ids_left (cstate (conn (wa w))) →
  follows w (at_a (set_conn (acceptor_drop (conn (wa w))) (wa w)) w) l.
Proof.
  intros S Hi. unfold acceptor_drop. set (c := conn (wa w)).
  eapply follows_trans; [done| |].
  { apply (follows_conn w l S (mkConn (cstate c) (routes c) (arena c) (open_waiters c) (cells c)
      [] false (conn_closed c))); done. }
  intros l1 S1 Hi1. apply (drops_follows (incoming c) _ l1 S1 Hi1).
Qed.

Lemma next_follows w l :
  sim w l → follows w (at_a (set_conn (acceptor_accept (conn (wa w))).1 (wa w)) w) l.
Proof.
  intros S. unfold acceptor_accept. destruct (incoming (conn (wa w))); [exact (follows_skip w l S)|].
  by apply follows_conn.
Qed.

(** ** Reading and writing *)

Lemma log_app_eq h b log : log_app h b log h = log h ++ b.
Proof. unfold log_app. by rewrite decide_True. Qed.
Lemma log_app_ne h k b log : k ≠ h → log_app h b log k = log k.
Proof. intros. unfold log_app. by rewrite decide_False. Qed.

Lemma logs_follow w l wr' gt' :
  sim w l → (∀ h, wr' h = wrote (wa w) h ∧ gt' h = got (wa w) h) →
  follows w (at_a (mkHalf (conn (wa w)) wr' gt' (acc (wa w)) (todo (wa w))) w) l.
Proof.
  intros S H. apply follows_here; [|done]. apply (own_world iw polite None w l); try done. simpl.
  intros h s Hh. exists s. split; [done|]. split; [by split_and!|].
  destruct (H h) as [Hw Hg]. pose proof (hs_handles _ _ _ _ _ (sm_a _ _ _ _ S) h s Hh) as Hs.
  unfold handle_sim in *. simpl. by rewrite Hw, Hg.
Qed.

Lemma log_app_nil h log k : log_app h [] log k = log k.
Proof. unfold log_app. case_decide; [apply app_nil_r|done]. Qed.

Lemma write_follows w l h buf :
  sim w l →
  (polite = true → ∀ s, arena (conn (wa w)) !! h = Some s → ending (out s) = false) →
  follows w (side_act (CWrite h buf) w) l.
Proof.
  intros S Hp. unfold side_act. cbn [conn_exec]. unfold poll_write. set (c := conn (wa w)).
  assert (follows w (at_a (mkHalf c (log_app h [] (wrote (wa w))) (got (wa w)) (acc (wa w)) (todo (wa w))) w) l)
    as Hsame.
  { apply logs_follow; [done|]. intros k. split; [apply log_app_nil|done]. }
  destruct (arena c !! h) as [s|] eqn:Hh; [|by rewrite app_nil_r].
  destruct (ob_closed (out s)); [by rewrite app_nil_r|].
  case_bool_decide; [by rewrite app_nil_r|]. rewrite app_nil_r. cbn zeta.
  set (n := Nat.min _ _). apply follows_here; [|done].
  destruct (hs_handles _ _ _ _ _ (sm_a _ _ _ _ S) h s Hh).
  eapply (sim_at iw polite None w l h s (set_out (set_ob_buf (ob_buf (out s) ++ take n buf) (out s)) s)); try done; simpl.
  - by apply alter_insert.
  - intros k Hne. split; [by apply log_app_ne|done].
  - split; simpl; try done.
    + by rewrite log_app_eq, ho_out, app_assoc.
    + intros Hpol He. destruct (ho_ended Hpol He) as [E _]. by rewrite (Hp Hpol s Hh) in E.
Qed.

(** Bytes of a stream fit its window. *)
Lemma window_bound w l : sim w l → 0 ≤ iw ≤ u32_max.
Proof.
  intros S. pose proof (sm_link _ _ _ _ S) as L. destruct (mi_policy _ (li_a _ _ L)) as (H & _).
  by rewrite (li_iwa _ _ L) in H.
Qed.

(** The windows after a grant. *)
Lemma grant_window st id g t :
  mux_inv st → streams (grant_credit id g st).1 !! id = Some t → 0 ≤ g →
  ∃ t0, streams st !! id = Some t0 ∧ recv_window t ≤ recv_window t0 + g.
Proof.
  intros I. rewrite grant_credit_eq by done. destruct (streams st !! id) as [t0|] eqn:E; simpl; [|congruence].
  destruct (queue_full st); simpl.
  - rewrite E. intros [= <-] ?. exists t0. split; [done|lia].
  - rewrite lookup_alter_eq, E. intros [= <-] ?. exists t0. split; [done|]. simpl.
    unfold saturating_add_u32. lia.
Qed.

Section read.
Context (w : world) (l : link) (S : sim w l) (Hi : ids_left (cstate (conn (wa w)))).
Context (h room : nat) (s : StreamShared) (b : list byte) (ch : list (list byte)) (cur : nat).
Context (Hh : arena (conn (wa w)) !! h = Some s).
Context (Hrd : read_chunks room (chunks (inb s)) (cursor (inb s)) = (b, ch, cur)).
Let i := inb s.

Lemma read_split :
  pending i = b ++ drop cur (concat ch) ∧ cursor_ok ch cur ∧
  length b = Nat.min room (length (pending i)).
Proof.
  destruct (hs_handles _ _ _ _ _ (sm_a _ _ _ _ S) h s Hh). by eapply read_chunks_spec.
Qed.

(** What [unacked] becomes: no saturation while the stream is live. *)
Let u := saturating_add_u32 (unacked i) (wrap_u32 (zlen b)).

Lemma read_unacked :
  0 ≤ u ≤ u32_max ∧ (zlen b ≤ u32_max → u ≤ unacked i + zlen b).
Proof.
  destruct (hs_handles _ _ _ _ _ (sm_a _ _ _ _ S) h s Hh). pose proof (zlen_nonneg b).
  unfold u, saturating_add_u32, wrap_u32, i in *.
  pose proof (Z.mod_pos_bound (zlen b) (u32_max + 1) ltac:(unfold u32_max; lia)). split; [lia|].
  intros. rewrite Z.mod_small; lia.
Qed.

Lemma read_credit t :
  streams (cstate (conn (wa w))) !! sh_id s = Some t →
  recv_window t + zlen (drop cur (concat ch)) + zlen (held (todo (wa w)) (sh_id s)) + u ≤ iw.
Proof.
  destruct (hs_handles _ _ _ _ _ (sm_a _ _ _ _ S) h s Hh). intros Ht.
  rewrite (hs_mx _ _ _ _ _ (sm_a _ _ _ _ S)) in ho_credit. specialize (ho_credit t Ht).
  destruct read_split as (Hp & _). fold i in ho_credit, ho_unacked. rewrite Hp, zlen_app in ho_credit.
  assert (in_u32 (recv_window t)) as Hw.
  { rewrite <- (hs_mx _ _ _ _ _ (sm_a _ _ _ _ S)) in Ht.
    by destruct (mi_streams _ (li_a _ _ (sm_link _ _ _ _ S)) _ _ Ht) as (_ & _ & ? & _). }
  pose proof (window_bound w l S). destruct read_unacked as [_ Hu]. unfold in_u32 in Hw.
  pose proof (zlen_nonneg (drop cur (concat ch))). pose proof (zlen_nonneg (held (todo (wa w)) (sh_id s))).
  lia.
Qed.

(** The handle after the copy; [un] is what is left unacknowledged. *)
Lemma read_handle un e' c' :
  rcvd_log e' (sh_id s) = rcvd_log (ea l) (sh_id s) → sent_log e' (sh_id s) = sent_log (ea l) (sh_id s) →
  routes c' = routes (conn (wa w)) → 0 ≤ un →
  (∀ t, streams (mx e') !! sh_id s = Some t → recv_window t + zlen (drop cur (concat ch)) +
     zlen (held (todo (wa w)) (sh_id s)) + un ≤ iw) →
  handle_sim iw polite e' (mkHalf c' (wrote (wa w)) (log_app h b (got (wa w))) (acc (wa w)) (todo (wa w))) h
    (set_inb (mkIn ch cur (buffered i - zlen b) un (in_eof i) (in_reset i)) s).
Proof.
  intros H1 H2 H3 Hun Hc. destruct (hs_handles _ _ _ _ _ (sm_a _ _ _ _ S) h s Hh).
  destruct read_split as (Hp & Hcur & _). unfold handle_sim. simpl. rewrite H1, H2, H3, log_app_eq.
  fold i in ho_prefix, ho_routed, ho_eof. rewrite Hp in ho_prefix, ho_routed, ho_eof.
  split; unfold pending; simpl; try done.
  - by rewrite <- app_assoc.
  - intros R. rewrite (ho_routed R). by rewrite !app_assoc.
  - intros R. rewrite (ho_eof R). by rewrite !app_assoc.
Qed.
End read.

Lemma read_follows w l h room :
  sim w l → ids_left (cstate (conn (wa w))) → follows w (side_act (CRead h room) w) l.
Proof.
  intros S Hi. unfold side_act. cbn [conn_exec]. unfold poll_read. set (c := conn (wa w)).
  destruct (arena c !! h) as [s|] eqn:Hh; last first.
  { rewrite app_nil_r. apply logs_follow; [done|]. intros k. split; [done|apply log_app_nil]. }
  destruct (read_chunks room (chunks (inb s)) (cursor (inb s))) as [[b ch] cur] eqn:Hrd.
  set (u := saturating_add_u32 (unacked (inb s)) (wrap_u32 (zlen b))).
  pose proof (read_unacked w l S h s b Hh) as [Hu _]. fold u in Hu.
  pose proof (read_credit w l S h room s b ch cur Hh Hrd) as Hcr.
  pose proof (hs_mx _ _ _ _ _ (sm_a _ _ _ _ S)) as Hmx. cbn zeta.
  pose proof (read_handle w l S h room s b ch cur Hh Hrd) as Hhd.
  case_bool_decide as Hb; [case_bool_decide as Hg; rewrite app_nil_r|].
  - assert (op_good (Some (OpGrant (sh_id s) u)) (mx (ea l))) as Hgood.
    { apply (good w l S Hi); try done. intros t Ht. specialize (Hcr t Ht). fold u in Hcr.
      pose proof (window_bound w l S). pose proof (zlen_nonneg (drop cur (concat ch))).
      pose proof (zlen_nonneg (held (todo (wa w)) (sh_id s))). lia. }
    eapply (follows_op (Some (OpGrant (sh_id s) u))); try done; [by intros ? [= <-]|].
    eapply (sim_at iw polite (Some (OpGrant (sh_id s) u)) w l h s (set_inb (mkIn ch cur
      (buffered (inb s) - zlen b) 0 (in_eof (inb s)) (in_reset (inb s))) s)); try done; simpl.
    + by intros op [= <-].
    + by apply alter_insert.
    + intros k Hne. split; [done|by apply log_app_ne].
    + apply Hhd; simpl; try done; [by rewrite app_nil_r|].
      intros t Ht. rewrite Hmx in Ht.
      assert (mux_inv (cstate (conn (wa w)))) as I by (rewrite <- Hmx; apply (sm_link _ _ _ _ S)).
      destruct (grant_window _ _ _ _ I Ht) as (t0 & Ht0 & ?); [lia|].
      specialize (Hcr t0 Ht0). fold u in Hcr. lia.
  - apply follows_here; [|done]. eapply (sim_at iw polite None w l h s (set_inb (mkIn ch cur
      (buffered (inb s) - zlen b) u (in_eof (inb s)) (in_reset (inb s))) s)); try done; simpl.
    + by apply alter_insert.
    + intros k Hne. split; [done|by apply log_app_ne].
    + apply Hhd; try done; [lia|]. rewrite Hmx. exact Hcr.
  - assert (b = []) as -> by (apply zlen_zero; pose proof (zlen_nonneg b); lia).
    assert (follows w (at_a (mkHalf (upd h (set_inb (mkIn ch cur (buffered (inb s)) (unacked (inb s))
      (in_eof (inb s)) (in_reset (inb s)))) c) (wrote (wa w)) (log_app h [] (got (wa w))) (acc (wa w)) (todo (wa w))) w) l) as Hf.
    { apply follows_here; [|done]. eapply (sim_at iw polite None w l h s (set_inb (mkIn ch cur
        (buffered (inb s)) (unacked (inb s)) (in_eof (inb s)) (in_reset (inb s))) s)); try done; simpl.
      - by apply alter_insert.
      - intros k Hne. split; [done|by apply log_app_ne].
      - replace (buffered (inb s)) with (buffered (inb s) - zlen (@nil byte)) by (rewrite zlen_nil; lia).
        destruct (hs_handles _ _ _ _ _ (sm_a _ _ _ _ S) h s Hh). apply Hhd; try done. rewrite Hmx.
        destruct (read_split w l S h room s [] ch cur Hh Hrd) as (Hp & _). simpl in Hp. rewrite <- Hp.
        by rewrite <- Hmx. }
    simpl. destruct (in_reset (inb s)); [by rewrite app_nil_r|].
    destruct (in_eof (inb s)); by rewrite app_nil_r.
Qed.
End step.
