(* ===== verification/MuxConnNew.v ===== *)
(** * The drivers implement the link: new streams and received frames

    The simulation of MuxConnSim.v for the opening of streams on either side and
    for the two halves of [handle_frame]. *)

From stdpp Require Import base numbers list gmap strings relations.
From Stdlib Require Import ZArith Lia Strings.Byte.
From S2P Require Import Prelude Bytes MuxFrame MuxTarget MuxStream MuxSched MuxState MuxInv MuxProps MuxEffect MuxFlow MuxLink MuxStable MuxConn MuxWorld MuxConnSim MuxConnStep.

Section new.
Context (iw : Z) (polite : bool).
Abbreviation sim := (sim iw polite).
Abbreviation half_sim := (half_sim iw polite).
Abbreviation follows := (follows iw polite).

(** A stream that has an entry but no handle yet. *)
Record fresh (l : link) (x y : half) (id : Z) : Prop := {
  fr_own : role_owns (role (mx (ea l))) id = true → id < next_id (mx (ea l));
  fr_peer : role_owns (role (mx (eb l))) id = true → begun l id;
  fr_new : ∀ h s, arena (conn x) !! h = Some s → sh_id s ≠ id;
  fr_sent : sent_log (ea l) id = [];
  fr_rcvd : rcvd_log (ea l) id = [];
  fr_window : ∀ s, streams (mx (ea l)) !! id = Some s → recv_window s ≤ iw;
  fr_end : ¬ end_seen l y id;
  fr_held : held (todo x) id = [];
}.

(** The shared buffers of a new stream are allocated and routed. *)
Lemma grow_sim w l id c' :
  sim w l → fresh l (wa w) (wb w) id →
  (∀ i t, todo (wa w) = Some (HEvent (EvIncoming i t)) → i ≠ id) →
  cstate c' = cstate (conn (wa w)) → arena c' = arena (conn (wa w)) ++ [StreamShared_new id iw] →
  routes c' = <[id := length (arena (conn (wa w)))]> (routes (conn (wa w))) →
  sim (at_a (set_conn c' (wa w)) w) l.
Proof.
  intros S F Hti Hst Har Hro. pose proof S as [L A B Hab Hba]. pose proof F as [].
  assert (∀ h s, arena c' !! h = Some s → arena (conn (wa w)) !! h = Some s ∨
            h = length (arena (conn (wa w))) ∧ s = StreamShared_new id iw) as Hold.
  { intros h s. rewrite Har. rewrite lookup_app_Some, list_lookup_singleton_Some.
    intros [?|(? & ? & <-)]; [by left|]. right. split; [lia|done]. }
  assert (∀ i, at_end (set_conn c' (wa w)) i → at_end (wa w) i) as Hae.
  { intros i [(h & s & Hh & Hid & He)|?]; [|by right]. left.
    destruct (Hold h s Hh) as [?|[-> ->]]; [eauto|done]. }
  split; try done; simpl.
  - pose proof A as []. split; simpl; try done.
    + congruence.
    + intros h h' s s' H1 H2 E. destruct (Hold h s H1) as [?|[-> ->]], (Hold h' s' H2) as [?|[-> ->]]; eauto.
      * destruct (fr_new0 h s); done.
      * destruct (fr_new0 h' s'); done.
    + rewrite Hro, Har. intros i h [[<- <-]|[Hne Hr]]%lookup_insert_Some.
      * exists (StreamShared_new id iw). by rewrite lookup_app_r, Nat.sub_diag by done.
      * destruct (hs_route i h Hr) as (s & Hs & ?). exists s. split; [|done]. by apply lookup_app_l_Some.
    + intros h s Hh. destruct (Hold h s Hh) as [?|[-> ->]]; eauto.
    + intros h s Hh. destruct (Hold h s Hh) as [Hh'|[-> ->]].
      * unfold handle_sim in *. simpl. rewrite Hro, lookup_insert_ne by (intros E; by eapply fr_new0).
        by apply hs_handles.
      * destruct (hs_logs (length (arena (conn (wa w)))) ltac:(done)) as [Hw Hg].
        unfold handle_sim. simpl. rewrite Hw, Hg, fr_sent0, fr_rcvd0, fr_held0.
        split; simpl; try done; [unfold cursor_ok; simpl; lia|].
        intros t Ht. specialize (fr_window0 t Ht). unfold pending. simpl. rewrite zlen_nil. lia.
    + intros h. rewrite Har, length_app. simpl. intros Hh. apply hs_logs. lia.
    + intros i t Hit. specialize (Hti i t Hit). destruct (hs_incoming i t Hit). split; try done. simpl.
      intros h s Hh. destruct (Hold h s Hh) as [?|[-> ->]]; [eauto|done].
    + intros i Hi. by apply hs_fin, Hae.
    + intros h s Hh He. destruct (Hold h s Hh) as [?|[-> ->]]; [eauto|done].
  - eapply (peer_sim iw polite l l); [done|by right|done|].
    intros i [?|Hat]; [by left|right; by apply Hae].
Qed.

Lemma policy_iw w l : sim w l → initial_window (policy (cstate (conn (wa w)))) = iw.
Proof. intros S. rewrite <- (hs_mx _ _ _ _ _ (sm_a _ _ _ _ S)). apply (sm_link _ _ _ _ S). Qed.

(** ** Opening *)
Section open.
Context (w : world) (l : link) (S : sim w l) (Hi : ids_left (cstate (conn (wa w)))).
Context (t : MuxTarget) (Ht : target_typed t).
Let c := conn (wa w).
Let l' := do_op (Some (OpOpen t)) l.
Let id0 := next_id (mx (ea l)).

Lemma inv_a : mux_inv (mx (ea l)).
Proof. apply (sm_link _ _ _ _ S). Qed.

Lemma id0_own : role_owns (role (mx (ea l))) id0 = true.
Proof. pose proof (mi_alloc _ inv_a) as [_ H]. by rewrite (mi_role _ inv_a) in H. Qed.

Lemma id0_new h s : arena c !! h = Some s → sh_id s ≠ id0.
Proof.
  intros Hh E. destruct (hs_known _ _ _ _ _ (sm_a _ _ _ _ S) h s Hh) as [Ho _].
  rewrite E in Ho. specialize (Ho id0_own). unfold id0 in Ho. lia.
Qed.

Lemma open_good : op_good (Some (OpOpen t)) (mx (ea l)).
Proof. by apply (good iw polite w l S Hi). Qed.

Lemma open_op : sim (at_a (set_conn (set_cstate (open_local t (cstate c)).1 c) (wa w)) w) l'.
Proof.
  pose proof open_good as Hg. eapply (own_world iw polite (Some (OpOpen t))); try done.
  - intros op id t' [= <-] Hinc. destruct (hs_incoming _ _ _ _ _ (sm_a _ _ _ _ S) id t' Hinc).
    simpl. intros E. pose proof id0_own as H. unfold id0 in H. congruence.
  - intros h s Hh. exists s. split; [done|]. split; [by split_and!|].
    eapply (handle_other iw polite (Some (OpOpen t)) l (wa w) _ (wb w)); try done; try apply S.
    intros op Hop E. injection Hop as <-. by apply (id0_new h s Hh).
Qed.

Lemma open_fresh id :
  (open_local t (cstate c)).2 = Ok id →
  role_owns (role (mx (ea l))) id = true ∧
  fresh l' (set_conn (set_cstate (open_local t (cstate c)).1 c) (wa w)) (wb w) id.
Proof.
  intros Ho. pose proof (hs_mx _ _ _ _ _ (sm_a _ _ _ _ S)) as Hmx. fold c in Hmx.
  pose proof (sm_link _ _ _ _ S) as L. pose proof inv_a as I. pose proof id0_own as Hown.
  destruct open_good as (_ & _ & Hl & _). destruct (unopened iw l id0 L Hown) as
    (Hnb & _ & Hf1 & Hf2 & Hs1 & Hr1 & _); [unfold id0; lia|].
  assert (id = id0 ∧ id0 < next_id (open_local t (mx (ea l))).1 ∧
          streams (open_local t (mx (ea l))).1 !! id0 = Some (mkStream SynSent iw iw None)) as (-> & Hn & Hst).
  { rewrite <- Hmx in Ho. rewrite open_local_eq in * by done. rewrite <- (li_iwa _ _ L).
    unfold id0, next_id. cbv zeta in *. repeat case_match; simplify_eq/=.
    rewrite lookup_insert_eq. split_and!; [done|lia|done]. }
  split; [done|]. split; simpl.
  - intros _. done.
  - rewrite (li_role _ _ L), role_owns_opposite, Hown. done.
  - apply id0_new.
  - by rewrite Hs1.
  - done.
  - rewrite Hst. by intros s [= <-].
  - intros [Hn'|Hat].
    + apply Hn'. unfold flight in *. simpl. rewrite of_stream_app in *.
      apply app_eq_nil in Hf1 as [-> Ho']. apply (local_no_end (OpOpen t)); try done.
      rewrite Ho'. constructor.
    + pose proof (hs_fin _ _ _ _ _ (sm_b _ _ _ _ S) id0 Hat) as Hfin. rewrite swap_swap in Hfin.
      by apply Hnb, Hfin.
  - unfold held. destruct (todo (wa w)) as [[ev|]|] eqn:E; try done. destruct ev; try done.
    case_decide as Hid; [|done]. destruct Hnb. rewrite Hid.
    by eapply (hs_held _ _ _ _ _ (sm_a _ _ _ _ S)).
Qed.
End open.

(** The result of [open]: the id space may move on. *)
Lemma open_follows w l t :
  sim w l → ids_left (cstate (conn (wa w))) → target_typed t →
  ∃ l', rtc side_step l l' ∧ sim (at_a (set_conn (conn_open t (conn (wa w))).1 (wa w)) w) l'.
Proof.
  intros S Hi Ht. unfold conn_open. set (c := conn (wa w)).
  destruct (conn_closed c); [exists l; split; [done|]; simpl; unfold c; by rewrite at_a_same|].
  exists (do_op (Some (OpOpen t)) l). split.
  { destruct (do_op_step (Some (OpOpen t)) l) as [?|E]; [by eapply open_good|by apply rtc_once|by rewrite E]. }
  pose proof (open_op w l S Hi t Ht) as S1. pose proof (open_fresh w l S Hi t Ht) as F. fold c in S1, F.
  pose proof (policy_iw _ _ S1) as Hiw.
  destruct (open_local t (cstate c)) as [st [id|e]]; simpl in *; [|done].
  destruct (F id eq_refl) as [Ho F']. apply (grow_sim _ _ id _ S1 F'); simpl; try done; [|by rewrite Hiw].
  intros i t' Hinc ->. pose proof (an_role _ _ _ _ _ (hs_incoming _ _ _ _ _ (sm_a _ _ _ _ S) id t' Hinc)).
  congruence.
Qed.

(** ** The reader's first half: decoding and [recv] *)

(** What the bytes at hand hold: an incomplete frame, or the next frame of the
    carrier. The reader never sees a malformed frame. *)
Lemma decode_cases w l :
  sim w l →
  (∃ n k, MuxFrame_decode_one (acc (wa w)) = Err (Truncated n k)) ∨
  ∃ f rest more, ba l = f :: rest ∧ acc (wa w) = MuxFrame_encode f ++ more ∧
    MuxFrame_decode_one (acc (wa w)) = Ok (f, zlen (MuxFrame_encode f)) ∧
    more ++ cba w = concat (MuxFrame_encode <$> rest).
Proof.
  intros [L _ _ _ Hba]. pose proof (li_ba _ _ L) as Hwf. destruct (ba l) as [|f rest].
  - simpl in Hba. apply app_eq_nil in Hba as [-> _]. left. by eexists _, _.
  - inversion Hwf as [|? ? Hf _]; subst. rewrite fmap_cons in Hba. cbn [concat] in Hba.
    apply app_eq_inv in Hba as [(k & E1 & E2)|(k & E1 & E2)].
    + right. exists f, rest, k. rewrite E1. split_and!; try done. by apply MuxFrame_decode_encode.
    + destruct k as [|b k].
      { rewrite app_nil_r in E1. right. exists f, rest, []. rewrite <- E1, app_nil_r. split_and!; try done.
        rewrite <- (app_nil_r (MuxFrame_encode f)) at 1. by apply MuxFrame_decode_encode. }
      left. assert (acc (wa w) = take (length (acc (wa w))) (MuxFrame_encode f)) as Ht
        by (by rewrite E1, take_app_length).
      destruct (mux_frame_prefix_truncated f (length (acc (wa w))) Hf) as (n & Hn & _).
      { rewrite E1, length_app. simpl. lia. }
      rewrite Ht, Hn. by eexists _, _.
Qed.

Lemma recv_effect_window p f o o' fs dl :
  recv_effect p f o o' fs dl → command f ≠ Begin →
  (∀ s, o = Some s → command f = Data → zlen (body f) ≤ recv_window s) →
  ∀ t', o' = Some t' → ∃ t0, o = Some t0 ∧ recv_window t' + zlen dl = recv_window t0.
Proof.
  intros He Hb Hw t' Ht. destruct He as [o Hd Hok|o b Hc|t Hc|s Hc Hs0|s Hc Hr Hl|s o' fs Hc Hl|s Hc|s Hc Hs0|s Hc];
    simplify_eq/=; rewrite ?zlen_nil; try (eexists; split; [done|simpl; lia]).
  specialize (Hw s eq_refl Hc). lia.
Qed.

Lemma held_rcvd f c id : held (handle_recv f c).2 id = recv_rcvd f (cstate c) id.
Proof.
  unfold handle_recv, recv_rcvd, held. destruct (recv f (cstate c)) as [st [ev|e]]; simpl; [done|].
  by case_bool_decide.
Qed.

Section recv.
Context (w : world) (l : link) (S : sim w l) (f : MuxFrame) (rest : list MuxFrame).
Context (E : ba l = f :: rest) (Hno : todo (wa w) = None).
Let c := conn (wa w).
Let l' := mkLink (ep_recv f (ea l)) (eb l) (ab l) rest.
Let L := sm_link _ _ _ _ S.
Let A := sm_a _ _ _ _ S.

Lemma recv_side : side_step l l'.
Proof. by apply side_recv. Qed.

Lemma recv_wf : frame_wf f.
Proof. pose proof (li_ba _ _ L) as H. rewrite E in H. by inversion H. Qed.

(** A frame for a stream that has a handle is not a [Begin]. *)
Lemma handle_no_begin h s : arena c !! h = Some s → sh_id s = stream_id f → command f ≠ Begin.
Proof.
  intros Hh Hid. destruct (hs_known _ _ _ _ _ A h s Hh) as [_ Hb]. rewrite Hid in Hb.
  assert (nocmd Begin (flight (ba l) (eb l) (stream_id f))) as Hn.
  { destruct (role_owns (role (mx (eb l))) (stream_id f)) eqn:Ho; [by apply Hb|].
    assert (role_owns (role (mx (ea l))) (stream_id f) = true) as Ho'
      by (rewrite (li_role _ _ L), role_owns_opposite in Ho; by apply negb_false_iff in Ho).
    pose proof (li_va _ _ L _ Ho') as V. unfold view in V.
    inversion V as [| |? ? ? ? ? ? ? ? D1 D2]; subst; [constructor|constructor|]. apply D2. }
  rewrite E, flight_head in Hn. by inversion Hn.
Qed.

Lemma recv_handle h s c' acc' t :
  arena c !! h = Some s → routes c' = routes c →
  (∀ id, held t id = recv_rcvd f (cstate c) id) →
  handle_sim iw polite (ea l') (mkHalf c' (wrote (wa w)) (got (wa w)) acc' t) h s.
Proof.
  intros Hh Hro Ht. destruct (hs_handles _ _ _ _ _ A h s Hh).
  pose proof (hs_mx _ _ _ _ _ A) as Hmx. fold c in Hmx, ho_routed. rewrite Hno in *. simpl in ho_routed, ho_credit.
  unfold handle_sim. simpl. rewrite Ht, Hro, Hmx in *. split; try done.
  - by apply prefix_app_r.
  - intros R. rewrite (ho_routed R). by rewrite app_nil_r, app_assoc.
  - intros He. rewrite <- (ho_eof He). rewrite <- (app_nil_r (rcvd_log (ea l) (sh_id s))) at 2. f_equal.
    assert (finished (swap l) (sh_id s)) as Hf by (apply (hs_fin _ _ _ _ _ A); left; by exists h, s).
    assert (finished (swap l') (sh_id s)) as Hf'
      by (apply (finished_side_b iw (swap l)); [by apply link_inv_swap|rewrite swap_swap; apply recv_side|done]).
    pose proof (fin_logs _ _ Hf) as E1. pose proof (fin_logs _ _ Hf') as E2. simpl in E1, E2.
    rewrite <- E1, Hmx in E2. by apply (app_inv_head (rcvd_log (ea l) (sh_id s))); rewrite app_nil_r.
  - intros t' Ht'. rewrite zlen_nil in ho_credit. rewrite <- Hmx in *.
    destruct (decide (sh_id s = stream_id f)) as [Hid|Hne].
    + destruct (recv_flight_own f (ea l) (eb l) (ab l) rest (sh_id s) (li_a _ _ L) recv_wf Hid)
        as (_ & fs & _ & He).
      destruct (recv_effect_window _ _ _ _ _ _ He (handle_no_begin h s Hh Hid)) with (t' := t') as (t0 & Ht0 & Hw).
      * intros s0 Hs0 Hc. pose proof (link_head_fits iw (swap l) f rest s0 (link_inv_swap _ _ L) E) as Hf.
        simpl in Hf. rewrite <- Hid in Hf. unfold data_of in Hf. rewrite Hc in Hf. by apply Hf.
      * done.
      * specialize (ho_credit t0 Ht0). lia.
    + destruct (recv_flight_other f (ea l) (eb l) (ab l) rest (sh_id s) (li_a _ _ L) recv_wf Hne)
        as (_ & _ & Hst & _). simpl in Hst. rewrite Hst in Ht'.
      rewrite recv_rcvd_other, zlen_nil; [|apply L|apply recv_wf|done]. specialize (ho_credit t' Ht'). lia.
Qed.

(** What the reader has to do next, from the result of [recv]. *)
Lemma todo_event ev :
  (handle_recv f c).2 = Some (HEvent ev) → (recv f (mx (ea l))).2 = Ok ev.
Proof.
  rewrite (hs_mx _ _ _ _ _ A). fold c. unfold handle_recv.
  destruct (recv f (cstate c)) as [st [ev'|e]]; simpl; [congruence|]. by case_bool_decide.
Qed.

Lemma todo_data id b : (handle_recv f c).2 = Some (HEvent (EvData id b)) → begun l' id.
Proof.
  intros H%todo_event. apply (begun_side iw l); [done|apply recv_side|].
  assert (∃ s, streams (mx (ea l)) !! id = Some s ∧ receiving s) as (s & Hs & Hr).
  { pose proof recv_wf as [Hid Hb]. pose proof (li_a _ _ L) as I. unfold recv in H. destruct (command f).
    - rewrite recv_begin_eq in H by (done || lia). by repeat case_match; simplify_eq/=.
    - rewrite recv_begin_ok_eq in H. by repeat case_match; simplify_eq/=.
    - rewrite recv_data_eq in H by (done || (unfold u32_max in *; lia)).
      destruct (streams _ !! stream_id f) as [s|] eqn:Hs; [|done].
      destruct (bool_decide_reflect (state s = Open ∨ state s = HalfClosedLocal)) as [Hr|]; [|done].
      exists s. repeat case_match; simplify_eq/=. done.
    - rewrite recv_window_update_eq in H. by repeat case_match; simplify_eq/=.
    - rewrite recv_end_local_eq in H by done. by repeat case_match; simplify_eq/=.
    - rewrite recv_reset_eq in H by done. by repeat case_match; simplify_eq/=. }
  rewrite <- (swap_swap l). apply begun_swap. eapply (live_begun iw (swap l)); [by apply link_inv_swap|done..].
Qed.

Lemma todo_incoming id t c' acc' :
  (handle_recv f c).2 = Some (HEvent (EvIncoming id t)) → arena c' = arena c →
  announced iw l' (mkHalf c' (wrote (wa w)) (got (wa w)) acc' (handle_recv f c).2) (wb w) id.
Proof.
  intros H%todo_event Har.
  destruct (recv_incoming iw l f rest id t L E H) as (Hid & _ & Hr & Hout & Hst).
  destruct (begin_view iw l f rest id t L E H) as (Hnb & Hb & _ & Hfl & Hs & Hrc & _).
  destruct (recv_config f (mx (ea l)) (li_a _ _ L) recv_wf) as (Hro & _ & _).
  split; simpl; rewrite ?Hro, ?Hs, ?Hrc; try done.
  - rewrite Har. intros h s Hh E'. destruct (hs_known _ _ _ _ _ A h s Hh) as [_ Hk]. rewrite E' in Hk.
    apply Hnb, Hk. by rewrite (li_role _ _ L), role_owns_opposite, Hr.
  - unfold recv_rcvd. by rewrite H.
  - rewrite Hst. intros s [= <-]. simpl. by rewrite (li_iwa _ _ L).
  - intros [Hn|Hat].
    + apply Hn. simpl. rewrite Hfl. constructor.
    + pose proof (hs_fin _ _ _ _ _ (sm_b _ _ _ _ S) id Hat) as Hfin. rewrite swap_swap in Hfin.
      by apply Hnb, Hfin.
Qed.

Lemma todo_end id :
  (handle_recv f c).2 = Some (HEvent (EvPeerEndLocal id)) →
  finished (swap l) id ∧ ¬ nocmd EndLocal (flight (ba l) (eb l) id).
Proof.
  intros H%todo_event.
  destruct (finish_intro iw (swap l) f rest id (link_inv_swap _ _ L) E H) as (Hf & -> & Hc).
  split; [done|]. rewrite E, flight_head. inversion 1; congruence.
Qed.

Lemma recv_sim acc' :
  acc' ++ cba w = concat (MuxFrame_encode <$> rest) →
  sim (at_a (mkHalf (handle_recv f c).1 (wrote (wa w)) (got (wa w)) acc' (handle_recv f c).2) w) l'.
Proof.
  intros Hacc. pose proof recv_side as Hstep. pose proof (side_step_inv _ _ _ L Hstep) as L'.
  destruct (recv_config f (mx (ea l)) (li_a _ _ L) recv_wf) as (Hro & _ & Hal).
  assert (arena (handle_recv f c).1 = arena c ∧ routes (handle_recv f c).1 = routes c ∧
          cstate (handle_recv f c).1 = (recv f (cstate c)).1) as (Har & Hrt & Hst)
    by (unfold handle_recv; by destruct (recv f (cstate c)) as [st [|]]).
  pose proof (hs_mx _ _ _ _ _ A) as Hmx. fold c in Hmx.
  assert (∀ id, finished (swap l) id → finished (swap l') id) as Hfin.
  { intros id. apply (finished_side_b iw (swap l)); [by apply link_inv_swap|by rewrite swap_swap]. }
  split; simpl; try done; try apply S.
  - pose proof A as [_ ? ? Hk _ ? _ _ Hf He]. split; simpl; rewrite ?Har, ?Hrt, ?Hst; try done.
    + by rewrite Hmx.
    + intros h s Hh. rewrite Hro. unfold next_id. simpl. rewrite Hal. destruct (Hk h s Hh) as [? Hb].
      split; [done|]. intros Ho. apply (begun_side iw l); [done|done|by apply Hb].
    + intros h s Hh. apply recv_handle; [done|done|]. intros id. apply held_rcvd.
    + apply todo_data.
    + intros id t Ht. by eapply todo_incoming.
    + intros id [Hat|Ht]; [apply Hfin, Hf; left; simpl in Hat; by rewrite Har in Hat|]. by apply Hfin, todo_end.
    + intros h s Hh [Hn|Hat]; [|eapply He; [done|by right]]. eapply He; [done|]. left.
      destruct (recv_replies iw l f rest (sh_id s) L E) as (fs & Hfs & Hres). simpl in Hn. rewrite Hfs in Hn.
      intros Hnc. apply Hn, Forall_app_2; [done|]. eapply Forall_impl; [exact Hres|].
      intros g Hg. simpl in *. congruence.
  - eapply (peer_sim iw polite l); [done|by left|apply S|]. intros id [Hn|[Hat|Ht]].
    + left. simpl in *. rewrite E. destruct (flight_recv_head f rest (eb l) id) as (pre & -> & _).
      intros Hnc. apply Hn. by apply Forall_app in Hnc as [_ ?].
    + right. left. simpl in Hat. by rewrite Har in Hat.
    + left. by apply todo_end.
Qed.
End recv.

Lemma decode_follows w l :
  sim w l → ∃ l', rtc side_step l l' ∧ sim (at_a (decode_step (wa w)) w) l'.
Proof.
  intros S. unfold decode_step. destruct (todo (wa w)) eqn:Ht.
  { exists l. split; [done|]. by destruct w. }
  destruct (decode_cases w l S) as [(n & k & ->)|(f & rest & more & E & Hacc & -> & Hmore)].
  { exists l. split; [done|]. by destruct w. }
  pose proof (recv_sim w l S f rest E Ht more Hmore) as S'. eexists. split; [by apply rtc_once, side_recv|].
  destruct (handle_recv f (conn (wa w))) as [c t] eqn:Hr. simpl in S'.
  rewrite Hacc. unfold zlen. rewrite Nat2Z.id, drop_app_length. done.
Qed.

(** ** The reader's second half: routing *)

Definition done_half (c : Conn) (x : half) : half := mkHalf c (wrote x) (got x) (acc x) None.

Lemma finish_core w l c' :
  sim w l → cstate c' = cstate (conn (wa w)) → routes c' ⊆ routes (conn (wa w)) →
  length (arena c') = length (arena (conn (wa w))) →
  (∀ h s', arena c' !! h = Some s' → ∃ s, arena (conn (wa w)) !! h = Some s ∧ sh_id s' = sh_id s ∧
     ended_sent (out s') = ended_sent (out s) ∧ (in_eof (inb s') = true → at_end (wa w) (sh_id s)) ∧
     handle_sim iw polite (ea l) (done_half c' (wa w)) h s') →
  sim (at_a (done_half c' (wa w)) w) l.
Proof.
  intros S Hst Hro Hlen Har. pose proof S as [L A B _ _].
  assert (∀ id, at_end (done_half c' (wa w)) id → at_end (wa w) id) as Hae.
  { intros id [(h & s' & Hh & <- & He)|Ht]; [|done].
    destruct (Har h s' Hh) as (s & _ & -> & _ & Hat & _). by apply Hat. }
  split; simpl; try done; try apply S.
  - pose proof A as []. split; simpl; try done.
    + congruence.
    + intros h h' s s' H1 H2 E. destruct (Har h s H1) as (t1 & T1 & I1 & _).
      destruct (Har h' s' H2) as (t2 & T2 & I2 & _). apply (hs_uniq h h' t1 t2); congruence.
    + intros id h E. destruct (hs_route id h) as (s & Hs & Hid); [by eapply lookup_weaken|].
      assert (is_Some (arena c' !! h)) as [s' Hs'].
      { apply lookup_lt_is_Some. rewrite Hlen. by eapply lookup_lt_Some. }
      exists s'. split; [done|]. destruct (Har h s' Hs') as (s0 & ? & ? & _). congruence.
    + intros h s' Hh. destruct (Har h s' Hh) as (s & E & -> & _). by eapply hs_known.
    + intros h s' Hh. by destruct (Har h s' Hh) as (s & _ & _ & _ & _ & ?).
    + by rewrite Hlen.
    + intros id Hid. by apply hs_fin, Hae.
    + intros h s' Hh He. destruct (Har h s' Hh) as (s & E & Hid & -> & _). rewrite Hid in He. eauto.
  - eapply (peer_sim iw polite l l); [done|by right|done|].
    intros i [?|Hat]; [by left|right; by apply Hae].
Qed.

(** A handle the event does not change. *)
Lemma done_handle w l h s c' :
  sim w l → arena (conn (wa w)) !! h = Some s → routes c' ⊆ routes (conn (wa w)) →
  (routes c' !! sh_id s = Some h → held (todo (wa w)) (sh_id s) = []) →
  handle_sim iw polite (ea l) (done_half c' (wa w)) h s.
Proof.
  intros S Hh Hro Hheld. destruct (hs_handles _ _ _ _ _ (sm_a _ _ _ _ S) h s Hh).
  unfold handle_sim. simpl. split; try done.
  - intros R. rewrite <- (Hheld R). apply ho_routed. by eapply lookup_weaken.
  - intros t Ht. specialize (ho_credit t Ht). rewrite zlen_nil.
    pose proof (zlen_nonneg (held (todo (wa w)) (sh_id s))). lia.
Qed.

(** An event that carries no payload, or whose stream is not routed. *)
Lemma clear_sim w l :
  sim w l → (∀ id h, routes (conn (wa w)) !! id = Some h → held (todo (wa w)) id = []) →
  sim (at_a (done_half (conn (wa w)) (wa w)) w) l.
Proof.
  intros S Hh. apply finish_core; try done. intros h s Hs. exists s. split_and!; try done.
  - intros He. left. by exists h, s.
  - apply done_handle; eauto.
Qed.

Lemma data_sim w l id b h :
  sim w l → todo (wa w) = Some (HEvent (EvData id b)) → routes (conn (wa w)) !! id = Some h →
  sim (at_a (done_half (upd h (push_data b) (conn (wa w))) (wa w)) w) l.
Proof.
  intros S Ht Hr. set (c := conn (wa w)).
  destruct (hs_route _ _ _ _ _ (sm_a _ _ _ _ S) id h Hr) as (s & Hh & Hid).
  apply finish_core; try done; simpl; [apply length_alter|].
  rewrite (alter_insert _ _ _ s Hh). intros k s' Hk. destruct (decide (k = h)) as [->|Hne].
  - rewrite list_lookup_insert_eq in Hk by (by eapply lookup_lt_Some). simplify_eq. exists s.
    split_and!; try done; [intros He; left; by exists h, s|].
    destruct (hs_handles _ _ _ _ _ (sm_a _ _ _ _ S) h s Hh). rewrite Ht in *. simpl in *.
    rewrite decide_True in * by done.
    assert (pending (inb (push_data b s)) = pending (inb s) ++ b) as Hp.
    { unfold pending. simpl. rewrite concat_app. simpl. rewrite app_nil_r. apply drop_app_le.
      unfold cursor_ok in ho_cursor. destruct (chunks (inb s)); simpl in *; [lia|]. rewrite length_app. lia. }
    specialize (ho_routed Hr).
    simpl in Hp. unfold handle_sim. simpl. split; simpl; rewrite ?Hp; try done.
    + unfold cursor_ok in *. destruct (chunks (inb s)); simpl in *; [lia|done].
    + by rewrite ho_routed, app_assoc.
    + intros _. by rewrite app_nil_r.
    + intros t Hst. specialize (ho_credit t Hst). rewrite zlen_app, zlen_nil. lia.
  - rewrite list_lookup_insert_ne in Hk by done. exists s'. split_and!; try done.
    + intros He. left. by exists k, s'.
    + apply done_handle; try done. simpl. intros R. rewrite Ht. simpl. rewrite decide_False; [done|].
      intros E. destruct Hne. rewrite E in R. unfold c in R. congruence.
Qed.

Lemma eof_sim w l id c' :
  sim w l → todo (wa w) = Some (HEvent (EvPeerEndLocal id)) →
  cstate c' = cstate (conn (wa w)) → routes c' ⊆ routes (conn (wa w)) →
  arena c' = match routes (conn (wa w)) !! id with
             | Some h => alter mark_eof h (arena (conn (wa w)))
             | None => arena (conn (wa w))
             end →
  sim (at_a (done_half c' (wa w)) w) l.
Proof.
  intros S Ht Hst Hro Har. apply finish_core; try done.
  - rewrite Har. destruct (routes (conn (wa w)) !! id); [apply length_alter|done].
  - assert (∀ h s, arena (conn (wa w)) !! h = Some s →
      handle_sim iw polite (ea l) (done_half c' (wa w)) h s) as Hsame.
    { intros h s Hh. apply done_handle; try done. by rewrite Ht. }
    rewrite Har. intros k s' Hk.
    assert (arena (conn (wa w)) !! k = Some s' ∨ ∃ s, arena (conn (wa w)) !! k = Some s ∧
      s' = mark_eof s ∧ sh_id s = id ∧ routes (conn (wa w)) !! id = Some k) as [Hk'|(s & Hs & -> & Hid & Hr)].
    { destruct (routes (conn (wa w)) !! id) as [h|] eqn:Hr; [|by left].
      destruct (decide (k = h)) as [->|Hne]; [right|left; by rewrite list_lookup_alter_ne in Hk].
      destruct (hs_route _ _ _ _ _ (sm_a _ _ _ _ S) id h Hr) as (s & Hh & Hid). exists s.
      rewrite list_lookup_alter_eq, Hh in Hk. by simplify_eq/=. }
    + exists s'. split_and!; try done; [|by apply Hsame]. intros He. left. by exists k, s'.
    + exists s. split_and!; try done; [intros _; right; by rewrite Hid|].
      pose proof (ho_routed _ _ _ _ _ _ _ _ _ _ (hs_handles _ _ _ _ _ (sm_a _ _ _ _ S) k s Hs)) as Hrt.
      destruct (Hsame k s Hs). split; try done. intros _.
      rewrite Hid, Ht, app_nil_r in Hrt. simpl. rewrite Hid. by apply Hrt.
Qed.

Lemma answer_follows w l id r :
  sim w l → follows w (at_a (set_conn (answer id r (conn (wa w))) (wa w)) w) l.
Proof.
  intros S. unfold answer. destruct (open_waiters (conn (wa w)) !! id); [|by apply follows_skip].
  by apply follows_conn.
Qed.

Lemma incoming_follows w l id t :
  sim w l → ids_left (cstate (conn (wa w))) → todo (wa w) = Some (HEvent (EvIncoming id t)) →
  follows w (at_a (done_half (on_event (EvIncoming id t) (conn (wa w))) (wa w)) w) l.
Proof.
  intros S Hi Ht. set (c := conn (wa w)).
  pose proof (clear_sim w l S ltac:(by rewrite Ht)) as S0. fold c in S0.
  pose proof (hs_incoming _ _ _ _ _ (sm_a _ _ _ _ S) id t Ht) as [].
  pose proof (policy_iw w l S) as Hiw. fold c in Hiw.
  set (c1 := set_routes (<[id := length (arena c)]> (routes c)) (set_cells (cells c ++ [SenderDropped])
    (set_arena (arena c ++ [StreamShared_new id iw]) c))).
  assert (sim (at_a (done_half c1 (wa w)) w) l) as S1.
  { apply (grow_sim _ l id c1 S0); try done. split; try done. rewrite an_role. done. }
  eapply follows_trans; [done|by apply (follows_here _ _ w _ l S1)|]. intros l1 S1' Hi1.
  assert (on_event (EvIncoming id t) c = if acceptor c then
    set_incoming (incoming c ++ [(length (arena c), t)]) c1 else incoming_drop (length (arena c)) c1) as ->
    by (unfold on_event; rewrite Hiw; reflexivity).
  destruct (acceptor c).
  - apply (follows_conn _ _ _ l1 S1' (set_incoming (incoming c ++ [(length (arena c), t)]) c1)); done.
  - apply (incoming_drop_follows _ _ _ l1 (length (arena c)) S1' Hi1).
Qed.

Lemma finish_follows w l :
  sim w l → ids_left (cstate (conn (wa w))) →
  follows w (at_a (finish_step (wa w)) w) l.
Proof.
  intros S Hi. unfold finish_step. set (c := conn (wa w)).
  destruct (todo (wa w)) as [t|] eqn:Ht; [|destruct w; by apply follows_here].
  assert ((∀ id b, t ≠ HEvent (EvData id b)) → ∀ c', follows (at_a (done_half c (wa w)) w) (at_a (done_half c' (wa w)) w) l →
    follows w (at_a (done_half c' (wa w)) w) l) as Hclear.
  { intros Hd c' Hf. assert (sim (at_a (done_half c (wa w)) w) l) as S0.
    { apply clear_sim; [done|]. intros. rewrite Ht. by destruct t as [[]|]; [| |destruct (Hd id0 bytes)|..]. }
    destruct Hf as (l' & ? & ? & Hal). exists l'. split_and!; done. }
  destruct t as [ev|sid]; simpl; [destruct ev as [id t|id|id b|id d|id|id code]|].
  - by apply incoming_follows.
  - apply Hclear; [done|]. apply (answer_follows (at_a (done_half c (wa w)) w)).
    apply clear_sim; [done|]. by rewrite Ht.
  - simpl. destruct (routes c !! id) as [h|] eqn:Hr.
    + apply follows_here; [|done]. by eapply data_sim.
    + apply follows_here; [|done]. apply clear_sim; [done|]. intros id' h' R. rewrite Ht. simpl.
      rewrite decide_False; [done|]. intros ->. fold c in R. congruence.
  - apply Hclear; [done|]. apply follows_here; [|done]. apply clear_sim; [done|]. by rewrite Ht.
  - assert (cstate (on_event (EvPeerEndLocal id) c) = cstate c ∧ routes (on_event (EvPeerEndLocal id) c) ⊆ routes c ∧
      arena (on_event (EvPeerEndLocal id) c) = match routes c !! id with
        Some h => alter mark_eof h (arena c) | None => arena c end) as (E1 & E2 & E3).
    { unfold on_event. destruct (routes c !! id) as [h|]; case_match; simpl; split_and!;
        try done; apply delete_subseteq. }
    apply follows_here; [by apply (eof_sim w l id)|done].
  - apply Hclear; [done|].
    assert (sim (at_a (done_half c (wa w)) w) l) as S0 by (apply clear_sim; [done|]; by rewrite Ht).
    eapply follows_trans; [done|by apply (answer_follows (at_a (done_half c (wa w)) w) l id (Err code))|].
    intros l1 S1 Hi1. apply (fault_follows _ _ _ l1 S1).
  - apply Hclear; [done|]. apply (fault_follows _ _ (at_a (done_half c (wa w)) w)).
    apply clear_sim; [done|]. by rewrite Ht.
Qed.
End new.
