(* ===== verification/MuxConnLink.v ===== *)
(** * The drivers implement the link: the writer, and what applications see

    The last steps of the simulation, the refinement of the link of two state
    machines by two connection drivers, and the guarantees of a stream as its
    two applications see it. *)

From stdpp Require Import base numbers list gmap strings relations.
From Stdlib Require Import ZArith Lia Strings.Byte.
From S2P Require Import Prelude Bytes MuxFrame MuxTarget MuxStream MuxSched MuxState MuxInv MuxProps MuxEffect MuxFlow MuxLink MuxStable MuxConn MuxWorld MuxConnSim MuxConnStep MuxConnNew.

Section writer.
Context (iw : Z) (polite : bool).
Abbreviation sim := (sim iw polite).
Abbreviation follows := (follows iw polite).

(** ** Staged bytes *)
Section send.
Context (w : world) (l : link) (S : sim w l) (Hi : ids_left (cstate (conn (wa w)))).
Context (h : nat) (s : StreamShared) (Hh : arena (conn (wa w)) !! h = Some s).
Let c := conn (wa w).
Let buf := ob_buf (out s).

(** One call of [send_data]: the bytes it took leave the staging buffer. *)
Lemma send_follows st r c' :
  send_data (sh_id s) buf (cstate c) = (st, r) →
  let n := match r with Ok n => Z.to_nat n | Err _ => 0%nat end in
  cstate c' = st → routes c' = routes c →
  arena c' = <[h := set_out (set_ob_buf (drop n buf) (out s)) s]> (arena c) →
  follows w (at_a (set_conn c' (wa w)) w) l.
Proof.
  intros Hsd n Hst Hro Har. pose proof (hs_mx _ _ _ _ _ (sm_a _ _ _ _ S)) as Hmx. fold c in Hmx.
  assert (op_good (Some (OpSend (sh_id s) buf)) (mx (ea l))) as Hg by (by apply (good _ _ w l S Hi)).
  assert (op_sent (OpSend (sh_id s) buf) (mx (ea l)) (sh_id s) = take n buf) as Hsent.
  { simpl. rewrite decide_True by done. rewrite Hmx, Hsd. by destruct r. }
  eapply (follows_op _ _ (Some (OpSend (sh_id s) buf))); try done.
  - by intros op [= <-].
  - simpl. fold c. by rewrite Hsd.
  - destruct (hs_handles _ _ _ _ _ (sm_a _ _ _ _ S) h s Hh).
    eapply (sim_at iw polite (Some (OpSend (sh_id s) buf)) w l h s (set_out (set_ob_buf (drop n buf) (out s)) s));
      try done; simpl.
    + by intros op [= <-].
    + fold c. by rewrite Hsd.
    + by rewrite Hro.
    + unfold handle_sim. cbn [do_op ea ep_local sent_log rcvd_log mx wrote got todo conn routes set_conn sh_id set_out].
      rewrite Hsent, Hro. split; simpl; try done.
      * rewrite ho_out. fold buf. by rewrite <- app_assoc, take_drop.
      * intros t Ht. destruct (op_window (OpSend (sh_id s) buf) (mx (ea l)) (sh_id s) t) as (t0 & Ht0 & <-);
          try done; [apply (sm_link _ _ _ _ S)|]. by apply ho_credit.
      * intros Hp He. destruct (ho_ended Hp He) as [? Hnil]. split; [done|]. fold buf in Hnil.
        by rewrite Hnil, drop_nil.
Qed.

(** The half-close, whose [EndLocal] may or may not be queued. *)
Lemma end_follows c' :
  ob_buf (out s) = [] → ending (out s) = true →
  cstate c' = (end_local (sh_id s) (cstate c)).1 → routes c' = routes c →
  arena c' = <[h := set_out (mkOut [] true true (ob_closed (out s))) s]> (arena c) →
  follows w (at_a (set_conn c' (wa w)) w) l.
Proof.
  intros Hb He Hst Hro Har. pose proof (hs_mx _ _ _ _ _ (sm_a _ _ _ _ S)) as Hmx. fold c in Hmx.
  assert (op_good (Some (OpEnd (sh_id s))) (mx (ea l))) as Hg by (by apply (good _ _ w l S Hi)).
  eapply (follows_op _ _ (Some (OpEnd (sh_id s)))); try done; [by intros op [= <-]|].
  destruct (hs_handles _ _ _ _ _ (sm_a _ _ _ _ S) h s Hh).
  eapply (sim_at iw polite (Some (OpEnd (sh_id s))) w l h s (set_out (mkOut [] true true (ob_closed (out s))) s));
    try done; simpl.
  - by intros op [= <-].
  - by rewrite Hro.
  - unfold handle_sim. simpl. rewrite Hro, app_nil_r. split; simpl; try done.
    + by rewrite ho_out, Hb.
    + intros t Ht. destruct (op_window (OpEnd (sh_id s)) (mx (ea l)) (sh_id s) t) as (t0 & Ht0 & <-);
        try done; [apply (sm_link _ _ _ _ S)|]. by apply ho_credit.
Qed.
End send.

Lemma set_ob_id s : set_out (set_ob_buf (ob_buf (out s)) (out s)) s = s.
Proof. by destruct s as [? ? [] ?]. Qed.

Lemma flush_follows fuel w l h s st buf c' :
  sim w l → ids_left (cstate (conn (wa w))) → arena (conn (wa w)) !! h = Some s →
  flush_loop fuel (sh_id s) (ob_buf (out s)) (cstate (conn (wa w))) = (st, buf) →
  cstate c' = st → routes c' = routes (conn (wa w)) →
  arena c' = <[h := set_out (set_ob_buf buf (out s)) s]> (arena (conn (wa w))) →
  follows w (at_a (set_conn c' (wa w)) w) l.
Proof.
  revert w l s st buf c'. induction fuel as [|fuel IH]; intros w l s st buf c' S Hi Hh; simpl;
    set (c := conn (wa w)) in *.
  all: assert (∀ c', cstate c' = cstate c → routes c' = routes c →
    arena c' = <[h := set_out (set_ob_buf (ob_buf (out s)) (out s)) s]> (arena c) →
    follows w (at_a (set_conn c' (wa w)) w) l) as Hskip.
  1,3: intros c1 H1 H2 H3; apply (follows_conn _ _ w l S); [done|by rewrite H2|].
  1,2: by rewrite H3, set_ob_id, list_insert_id.
  - intros [= <- <-]. apply Hskip.
  - case_bool_decide as Hb; [intros [= <- <-]; by apply Hskip|].
    destruct (send_data (sh_id s) (ob_buf (out s)) (cstate c)) as [st1 r] eqn:Hsd.
    pose proof (send_follows w l S Hi h s Hh st1 r) as Hs. cbn zeta in Hs. fold c in Hs.
    destruct r as [n|e]; [|intros [= <- <-] H1 H2 H3; by apply Hs].
    case_bool_decide as Hn; [intros [= <- <-] H1 H2 H3; apply Hs; try done; by subst n|].
    intros Hf H1 H2 H3. set (s1 := set_out (set_ob_buf (drop (Z.to_nat n) (ob_buf (out s))) (out s)) s).
    set (c1 := set_arena (<[h := s1]> (arena c)) (set_cstate st1 c)).
    eapply follows_trans; [done|by apply (Hs c1 Hsd)|]. intros l1 S1 Hi1.
    eapply (IH (at_a (set_conn c1 (wa w)) w) l1 s1); try done.
    + simpl. rewrite list_lookup_insert_eq; [done|by eapply lookup_lt_Some].
    + rewrite H3. simpl. by rewrite list_insert_insert_eq.
Qed.

Lemma drain_stream_follows w l h :
  sim w l → ids_left (cstate (conn (wa w))) →
  follows w (at_a (set_conn (drain_stream h (conn (wa w))) (wa w)) w) l.
Proof.
  intros S Hi. unfold drain_stream. set (c := conn (wa w)).
  destruct (arena c !! h) as [s|] eqn:Hh; [|by apply follows_skip].
  destruct (flush_loop _ _ _ _) as [st buf] eqn:Hf. cbn zeta.
  set (c1 := upd h (set_out (set_ob_buf buf (out s))) (set_cstate st c)).
  assert (arena c1 = <[h := set_out (set_ob_buf buf (out s)) s]> (arena c)) as Ha1 by (by apply alter_insert).
  pose proof (flush_follows _ w l h s st buf c1 S Hi Hh Hf eq_refl eq_refl Ha1) as H1.
  eapply follows_trans; [done|exact H1|]. intros l1 S1 Hi1.
  destruct (ending (out s) && bool_decide (buf = []) && negb (ended_sent (out s))) eqn:Hfin.
  - apply andb_true_iff in Hfin as [[He Hb]%andb_true_iff _]. apply bool_decide_eq_true in Hb. subst buf.
    rewrite orb_true_r, He.
    apply (end_follows _ l1 S1 Hi1 h (set_out (set_ob_buf [] (out s)) s)); try done; simpl.
    + by rewrite list_lookup_alter_eq, Hh.
    + rewrite (alter_insert _ h (arena c) s Hh), (alter_insert _ h (arena c) s Hh), list_insert_insert_eq. done.
  - rewrite orb_false_r. by apply (follows_conn _ _ _ l1 S1).
Qed.

Lemma drains_follow order w l :
  sim w l → ids_left (cstate (conn (wa w))) →
  follows w (at_a (set_conn (foldl (λ c h, drain_stream h c) (conn (wa w)) order) (wa w)) w) l.
Proof.
  revert w l. induction order as [|h order IH]; intros w l S Hi; [by apply follows_skip|].
  eapply follows_trans; [done|by apply (drain_stream_follows w l h)|].
  intros l1 S1 Hi1. apply (IH _ l1 S1 Hi1).
Qed.

(** The queue goes onto the carrier. *)
Lemma drain_sim w l c' :
  sim w l → cstate c' = (pending_outbound (cstate (conn (wa w)))).1 →
  routes c' ⊆ routes (conn (wa w)) → arena c' = arena (conn (wa w)) →
  ∃ l', side_step l l' ∧
    sim (mkWorld (set_conn c' (wa w)) (wb w)
           (cab w ++ concat (MuxFrame_encode <$> (pending_outbound (cstate (conn (wa w)))).2)) (cba w)) l'.
Proof.
  intros S Hst Hro Har. pose proof S as [L A B Hab Hba]. pose proof (hs_mx _ _ _ _ _ A) as Hmx.
  pose proof (side_drain l) as Hstep. eexists. split; [exact Hstep|].
  pose proof (side_step_inv _ _ _ L Hstep) as L'.
  assert (∀ id, finished (swap l) id → finished (swap (mkLink (ep_drain (ea l)) (eb l)
    (ab l ++ (pending_outbound (mx (ea l))).2) (ba l))) id) as Hfin.
  { intros id. apply (finished_side_b iw (swap l)); [by apply link_inv_swap|by rewrite swap_swap]. }
  split; cbn [wa wb cab cba ea eb ab ba]; try done.
  - pose proof A as [_ ? ? Hk ? ? Hheld Hinc Hf He].
    split; cbn [conn set_conn wrote got acc todo]; rewrite ?Hst, ?Har; try done.
    + by rewrite <- Hmx.
    + intros id h Hr. apply hs_route. by eapply lookup_weaken.
    + intros h s Hh. destruct (Hk h s Hh) as [? Hb]. split; [done|]. intros Ho.
      apply (begun_side iw l); [done|done|by apply Hb].
    + intros h s Hh. destruct (hs_handles h s Hh). unfold handle_sim. simpl. split; try done.
      intros R. apply ho_routed. by eapply lookup_weaken.
    + intros id b Hb. apply (begun_side iw l); [done|done|by eapply Hheld].
    + intros id t Ht. destruct (Hinc id t Ht). split; try done.
      * apply (begun_side iw l); done.
      * simpl. by rewrite Har.
      * unfold end_seen. cbn [ea ab]. by rewrite drain_flight by apply (li_a _ _ L).
    + intros id Hat. apply Hfin, Hf. unfold at_end in *. cbn [conn set_conn todo] in Hat. by rewrite Har in Hat.
    + intros h s Hh Hen. apply (He h s Hh). unfold end_seen in *. cbn [ea ab] in Hen.
      by rewrite drain_flight in Hen by apply (li_a _ _ L).
  - eapply (peer_sim iw polite l); [done|by left|done|]. intros id [?|Hat]; [by left|right].
    unfold at_end in *. cbn [conn set_conn todo] in Hat. by rewrite Har in Hat.
  - by rewrite fmap_app, concat_app, <- Hab, <- Hmx, app_assoc.
Qed.

(** ** Any step *)
Lemma side_act_sim a w l :
  sim w l → conn_ok polite a (wa w) →
  ∃ l', rtc side_step l l' ∧ sim (side_act a w) l'.
Proof.
  intros S [Hi Hok].
  assert (∀ x, follows w (at_a x w) l →
    ∃ l', rtc side_step l l' ∧ sim (mkWorld x (wb w) (cab w ++ []) (cba w)) l') as Hf.
  { intros x (l' & ? & ? & _). exists l'. by rewrite app_nil_r. }
  destruct a as [t|h|h|h code|h| | |h room|h buf|h|h| |order|n| |]; unfold side_act;
    cbn [conn_exec].
  - rewrite app_nil_r. by apply open_follows.
  - by apply Hf, recheck_follows.
  - by apply Hf, accept_follows.
  - by apply Hf, reject_follows.
  - by apply Hf, incoming_drop_follows.
  - by apply Hf, next_follows.
  - by apply Hf, acceptor_drop_follows.
  - destruct (read_follows iw polite w l h room S Hi) as (l' & ? & ? & _). by exists l'.
  - destruct (write_follows iw polite w l h buf S Hok) as (l' & ? & ? & _). by exists l'.
  - by apply Hf, shutdown_follows.
  - by apply Hf, stream_drop_follows.
  - by apply Hf, close_follows.
  - destruct (conn_closed (conn (wa w))); [rewrite app_nil_r; exists l; by destruct w|].
    destruct (drains_follow order w l S Hi) as (l1 & H1 & S1 & _).
    unfold drain_pass. set (c := foldl _ _ _) in *. cbn zeta.
    destruct (drain_sim _ l1 (set_cstate (pending_outbound (cstate c)).1 (set_routes
      (filter (λ e : Z * nat, stream_state (cstate c) e.1 ≠ None) (routes c)) c)) S1) as (l2 & H2 & S2).
    { done. } { apply map_filter_subseteq. } { done. }
    exists l2. split; [by eapply rtc_r|exact S2].
  - exists l. split; [done|]. rewrite app_nil_r. pose proof S as [L A B Hab Hba]. split; try done.
    + destruct A. split; try done. intros id t Ht. by destruct (hs_incoming id t Ht).
    + destruct B. split; try done. intros id t Ht. by destruct (hs_incoming id t Ht).
    + simpl. by rewrite <- app_assoc, take_drop.
  - rewrite app_nil_r. by apply decode_follows.
  - by apply Hf, finish_follows.
Qed.
End writer.

(** ** Reachable worlds *)
Section reach.
Context (r : StreamRole) (pa pb : MuxPolicy).

Lemma rtc_reach_a l l' :
  link_reachable r pa pb l → rtc side_step l l' → link_reachable r pa pb l'.
Proof.
  intros Hl H. induction H as [|l l1 l' H1 _ IH]; [done|]. apply IH.
  eapply link_next; [exact Hl|by apply step_a].
Qed.

Lemma rtc_reach_b l l' :
  link_reachable r pa pb l → rtc side_step (swap l) l' → link_reachable r pa pb (swap l').
Proof.
  intros Hl H. remember (swap l) as k eqn:Ek. assert (l = swap k) as -> by (subst; by rewrite swap_swap).
  clear Ek. induction H as [|k k1 l' H1 _ IH]; [done|]. apply IH.
  eapply link_next; [exact Hl|apply step_b]. by rewrite !swap_swap.
Qed.
End reach.

Lemma world_sim polite r pa pb aa bb w :
  policy_typed pa → policy_typed pb → initial_window pa = initial_window pb →
  world_reachable polite r pa pb aa bb w →
  ∃ l, link_reachable r pa pb l ∧ sim (initial_window pa) polite w l.
Proof.
  intros Ha Hb Hw H. induction H as [|w [[|] a] _ (l & Hl & S) Hok].
  - exists (mkLink (ep_new r pa) (ep_new (opposite_role r) pb) [] []).
    split; [apply link_new|]. split; try done.
    + by eapply (link_reachable_inv r pa pb); [..|apply link_new].
    + split; try done. intros id [(h & s & Hh & _)|?]; done.
    + split; try done. intros id [(h & s & Hh & _)|?]; done.
  - destruct (side_act_sim _ _ a w l S Hok) as (l' & Hr & S'). exists l'. split; [by eapply rtc_reach_a|done].
  - destruct (side_act_sim _ _ a (wswap w) (swap l) (sim_swap _ _ _ _ S) Hok) as (l' & Hr & S').
    exists (swap l'). split; [by eapply rtc_reach_b|by apply sim_swap].
Qed.

(** ** What the applications see *)

(** One direction, from the first end to the second. *)
Lemma stream_dir iw polite w l ha hb sa sb :
  sim iw polite w l → arena (conn (wa w)) !! ha = Some sa → arena (conn (wb w)) !! hb = Some sb →
  sh_id sa = sh_id sb →
  got (wb w) hb `prefix_of` wrote (wa w) ha ∧
  ∀ t, routes (conn (wb w)) !! sh_id sb = Some hb →
    streams (cstate (conn (wb w))) !! sh_id sb = Some t → receiving t →
    ∃ fs, acc (wb w) ++ cab w = concat (MuxFrame_encode <$> fs) ∧
      wrote (wa w) ha = got (wb w) hb ++ pending (inb sb) ++ held (todo (wb w)) (sh_id sb) ++
        datab (of_stream (sh_id sb) (fs ++ outbound (cstate (conn (wa w))))) ++ ob_buf (out sa).
Proof.
  intros S Ha Hb E. pose proof S as [L A B Hab _].
  destruct (hs_handles _ _ _ _ _ A ha sa Ha) as [_ _ Hout _ _ _ _ _ _].
  destruct (hs_handles _ _ _ _ _ B hb sb Hb) as [_ _ _ Hpre Hrt _ _ _ _]. simpl in *.
  destruct (link_data iw l (sh_id sb) L) as [Hl Hrec]. rewrite E in Hout. split.
  - rewrite Hout. apply prefix_app_r. etransitivity; [|exact Hl].
    by eapply prefix_app_l.
  - intros t Hr Ht Hrc. exists (ab l). split; [done|].
    rewrite <- (hs_mx _ _ _ _ _ B) in Ht. simpl in Ht. specialize (Hrec t Ht Hrc).
    rewrite Hout, Hrec, (Hrt Hr), (hs_mx _ _ _ _ _ A). by rewrite <- !app_assoc.
Qed.

(** C5: a stream is an ordered, loss-free byte pipe between its applications.
    Two connection drivers with the same initial window, any interleaving of
    application calls, writer passes and reader steps, the carrier cut into
    reads anywhere: the bytes one application has read from its handle are a
    prefix of the bytes the other wrote to its handle of the same stream, in
    both directions. While the stream is routed and receiving, what is missing
    is exactly what is buffered, held by the reader, on the carrier, queued and
    staged. *)
Theorem conn_stream_integrity polite r pa pb aa bb w ha hb sa sb :
  policy_typed pa → policy_typed pb → initial_window pa = initial_window pb →
  world_reachable polite r pa pb aa bb w →
  arena (conn (wa w)) !! ha = Some sa → arena (conn (wb w)) !! hb = Some sb → sh_id sa = sh_id sb →
  got (wb w) hb `prefix_of` wrote (wa w) ha ∧ got (wa w) ha `prefix_of` wrote (wb w) hb ∧
  ∀ t, routes (conn (wb w)) !! sh_id sb = Some hb →
    streams (cstate (conn (wb w))) !! sh_id sb = Some t → receiving t →
    ∃ fs, acc (wb w) ++ cab w = concat (MuxFrame_encode <$> fs) ∧
      wrote (wa w) ha = got (wb w) hb ++ pending (inb sb) ++ held (todo (wb w)) (sh_id sb) ++
        datab (of_stream (sh_id sb) (fs ++ outbound (cstate (conn (wa w))))) ++ ob_buf (out sa).
Proof.
  intros Ha Hb Hw Hr H1 H2 E. destruct (world_sim _ _ _ _ _ _ _ Ha Hb Hw Hr) as (l & _ & S).
  destruct (stream_dir _ _ _ _ _ _ _ _ S H1 H2 E) as [P1 P2].
  destruct (stream_dir _ _ _ _ _ _ _ _ (sim_swap _ _ _ _ S) H2 H1 (eq_sym E)) as [P3 _].
  by split_and!.
Qed.

(** A read that returns no bytes although there was room. *)
Lemma read_eof h room c c' :
  poll_read h room c = (c', Ready (Ok [])) → room ≠ 0%nat →
  ∃ s, arena c !! h = Some s ∧ in_eof (inb s) = true ∧
    (cursor_ok (chunks (inb s)) (cursor (inb s)) → pending (inb s) = []).
Proof.
  unfold poll_read. intros H Hroom. destruct (arena c !! h) as [s|]; [|done].
  destruct (read_chunks room (chunks (inb s)) (cursor (inb s))) as [[b ch] cur] eqn:Hrd.
  destruct (bool_decide_reflect (zlen b > 0)) as [Hb|Hb].
  { case_bool_decide; simplify_eq; rewrite zlen_nil in Hb; lia. }
  simpl in H. destruct (in_reset (inb s)); [done|]. destruct (in_eof (inb s)) eqn:He; [|done].
  exists s. split_and!; try done. intros Hc.
  destruct (read_chunks_spec _ _ _ _ _ _ Hc Hrd) as (_ & _ & Hlen).
  assert (length b = 0%nat) by (unfold zlen in Hb; lia).
  apply nil_length_inv. unfold pending. lia.
Qed.



(** ** A concrete run
    The initiator opens a stream and the responder accepts it; the initiator
    writes three bytes and half-closes; the responder's reader gets them in two
    reads of the carrier and its application reads them in two calls. *)
Definition demo_opening : list (bool * conn_act) :=
  [(true, COpen demo_target); (true, CWriter [0%nat]);
   (false, CFetch 100); (false, CDecode); (false, CFinish); (false, CNext);
   (false, CAccept 0); (false, CWriter [0%nat]);
   (true, CFetch 100); (true, CDecode); (true, CFinish)].
Definition demo_transfer : list (bool * conn_act) :=
  [(true, CWrite 0 [x61; x62; x63]); (true, CShutdown 0); (true, CWriter [0%nat]);
   (false, CFetch 5); (false, CDecode); (false, CFetch 100); (false, CDecode); (false, CFinish);
   (false, CRead 0 2)].
Definition demo_ending : list (bool * conn_act) :=
  [(false, CDecode); (false, CFinish); (false, CRead 0 10)].

Definition demo_start : world :=
  mkWorld (half_new Initiator MuxPolicy_default true) (half_new Responder MuxPolicy_default true) [] [].
Definition demo_half : world := world_run (demo_opening ++ demo_transfer) demo_start.
Definition demo_done : world := world_run demo_ending demo_half.

Ltac run_ok :=
  vm_compute; repeat lazymatch goal with
  | |- _ ∧ _ => split
  | |- true = true → _ => intros _
  | |- ∀ s, Some _ = Some s → _ => let H := fresh in intros ? H; injection H as <-
  end; first [reflexivity | discriminate | exact Logic.I].

Abbreviation demo_reachable :=
  (world_reachable true Initiator MuxPolicy_default MuxPolicy_default true true).

Lemma demo_half_reachable : demo_reachable demo_half.
Proof. apply world_run_reachable; [apply (world_new true Initiator)|]. run_ok. Qed.

Lemma demo_done_reachable : demo_reachable demo_done.
Proof. apply world_run_reachable; [apply demo_half_reachable|]. run_ok. Qed.

Definition demo_handle (x : half) : StreamShared :=
  default (StreamShared_new 0 0) (arena (conn x) !! 0%nat).

Lemma conn_stream_integrity_witness :
  wrote (wa demo_half) 0%nat = [x61; x62; x63] ∧ got (wb demo_half) 0%nat = [x61; x62] ∧
  got (wb demo_half) 0%nat `prefix_of` wrote (wa demo_half) 0%nat.
Proof.
  split; [vm_compute; reflexivity|]. split; [vm_compute; reflexivity|].
  apply (conn_stream_integrity true Initiator MuxPolicy_default MuxPolicy_default true true demo_half
           0 0 (demo_handle (wa demo_half)) (demo_handle (wb demo_half)));
    [vm_decide|vm_decide|reflexivity|apply demo_half_reachable|vm_compute; reflexivity..].
Defined.


