(* ===== verification/MuxConnTask.v ===== *)
(** * The reader task, and a race it loses

    The reader task of crates/mux/src/conn.rs as a loop: it makes progress on
    every complete frame, and one round of it is a sequence of the steps that
    MuxWorld.v interleaves. A writer pass between the two halves of
    [handle_frame] can strand a reader for ever. *)

From stdpp Require Import base numbers list gmap strings relations.
From Stdlib Require Import ZArith Lia Strings.Byte.
From S2P Require Import Prelude Bytes MuxFrame MuxTarget MuxStream MuxSched MuxState MuxInv MuxProps MuxLink MuxConn MuxWorld MuxConnLink.

(** ** The loop *)

Lemma decode_one_consumed b f n :
  MuxFrame_decode_one b = Ok (f, n) → 0 < n ≤ zlen b.
Proof.
  unfold MuxFrame_decode_one. intros H. case_in H; pose proof (zlen_nonneg b); try lia.
Qed.

(** One round more than there are bytes suffices: the loop stops because the
    rest is an incomplete frame, or on a violation. *)
Lemma decode_loop_stops fuel b c :
  (length b < fuel)%nat →
  match (decode_loop fuel b c).2 with
  | Some rest => ∃ n k, MuxFrame_decode_one rest = Err (Truncated n k)
  | None => True
  end.
Proof.
  revert b c. induction fuel as [|fuel IH]; intros b c Hf; [lia|]. simpl.
  destruct (MuxFrame_decode_one b) as [[f n]|e] eqn:Hd.
  - apply IH. apply decode_one_consumed in Hd. unfold zlen in Hd. rewrite length_drop. lia.
  - destruct e; simpl; eauto.
Qed.

(** The steps of one round of the task. *)
Definition half_acts (acts : list conn_act) (x : half) : half :=
  foldl (λ x a, (conn_exec a x []).1.1) x acts.
Definition round (k : nat) : list conn_act := concat (replicate k [CDecode; CFinish]).

Lemma half_acts_round k x :
  half_acts (round (S k)) x = half_acts (round k) (finish_step (decode_step x)).
Proof. done. Qed.

Lemma finish_idle x : todo x = None → finish_step x = x.
Proof. unfold finish_step. by intros ->. Qed.

(** One frame: the two halves of [handle_frame] in a row. *)
Lemma decode_finish x f n :
  todo x = None → MuxFrame_decode_one (acc x) = Ok (f, n) →
  finish_step (decode_step x) =
    mkHalf (handle_frame f (conn x)) (wrote x) (got x) (drop (Z.to_nat n) (acc x)) None.
Proof.
  intros Ht Hd. unfold decode_step, handle_frame. rewrite Ht, Hd.
  destruct (handle_recv f (conn x)) as [c [t|]]; done.
Qed.

(** The loop of the task is its steps, uninterrupted. *)
Lemma decode_loop_acts fuel x :
  todo x = None →
  ∃ k, match decode_loop fuel (acc x) (conn x) with
    | (c, Some rest) => half_acts (round k) x = mkHalf c (wrote x) (got x) rest None
    | (c, None) => ∃ rest, half_acts (round k) x = mkHalf (close_connection c) (wrote x) (got x) rest None
    end.
Proof.
  revert x. induction fuel as [|fuel IH]; intros x Ht; simpl.
  { exists 0%nat. destruct x. simpl in *. by subst. }
  destruct (MuxFrame_decode_one (acc x)) as [[f n]|e] eqn:Hd.
  - destruct (IH (finish_step (decode_step x))) as [k Hk]; [by rewrite (decode_finish x f n)|].
    exists (S k). rewrite half_acts_round. by rewrite (decode_finish x f n) in * by done.
  - assert (∀ c, decode_step x = set_conn c x →
      half_acts (round 1) x = mkHalf c (wrote x) (got x) (acc x) None) as H1.
    { intros c E. change (half_acts (round 1) x) with (finish_step (decode_step x)).
      rewrite E, finish_idle by done. unfold set_conn. by rewrite Ht. }
    assert ((∀ a b, e ≠ Truncated a b) → decode_step x = set_conn (close_connection (conn x)) x) as Hbad.
    { intros He. unfold decode_step. rewrite Ht, Hd. destruct e as [a b| | | | |]; try done; by destruct (He a b). }
    destruct e; try (exists 1%nat, (acc x); rewrite (H1 _ (Hbad ltac:(done))); done).
    exists 0%nat. destruct x. simpl in *. by subst.
Qed.

(** One round of the task: a read of the carrier, then the steps. *)
Lemma reader_step_acts n x inc :
  todo x = None → take n inc ≠ [] →
  let x1 := (conn_exec (CFetch n) x inc).1.1 in
  ∃ k, match reader_step (acc x) (Some (take n inc)) (conn x) with
    | (c, Some rest) => half_acts (round k) x1 = mkHalf c (wrote x) (got x) rest None ∧
        ∃ a b, MuxFrame_decode_one rest = Err (Truncated a b)
    | (c, None) => ∃ rest, half_acts (round k) x1 = mkHalf c (wrote x) (got x) rest None
    end.
Proof.
  intros Ht Hne x1. unfold reader_step. destruct (take n inc) as [|b0 bs] eqn:E; [done|].
  pose proof (decode_loop_stops (S (length (acc x1))) (acc x1) (conn x1) ltac:(lia)) as Hstop.
  destruct (decode_loop_acts (S (length (acc x1))) x1 Ht) as [k Hk]. exists k.
  unfold x1 in *. cbn [conn_exec fst acc conn wrote got] in *. rewrite E in *.
  by destruct (decode_loop _ _ _) as [c [rest|]].
Qed.

(** ** Stranded handles *)

(** No route leads to the handle, and nothing it could report has arrived. *)
Definition stranded (h : nat) (c : Conn) : Prop :=
  (∀ id, routes c !! id ≠ Some h) ∧
  ∃ s, arena c !! h = Some s ∧ chunks (inb s) = [] ∧ in_eof (inb s) = false ∧ in_reset (inb s) = None.

Lemma stranded_pending h room c : stranded h c → (poll_read h room c).2 = Pending.
Proof.
  intros [_ (s & Hs & Hc & He & Hr)]. unfold poll_read. rewrite Hs, Hc. simpl. by rewrite Hr, He.
Qed.

(** What keeps a handle stranded: routes to other handles only, and the inbound
    buffer of the handle untouched. *)
Lemma stranded_step h c c' :
  stranded h c → (∀ id, routes c' !! id = Some h → routes c !! id = Some h) →
  (∀ s, arena c !! h = Some s → ∃ s', arena c' !! h = Some s' ∧
     (inb s' = inb s ∨ chunks (inb s) = [] ∧ chunks (inb s') = [] ∧
        in_eof (inb s') = in_eof (inb s) ∧ in_reset (inb s') = in_reset (inb s))) →
  stranded h c'.
Proof.
  intros [Hr (s & Hs & Hc & He & Hre)] Hro Har. split.
  - intros id E. by apply (Hr id), Hro.
  - destruct (Har s Hs) as (s' & Hs' & [Hi|(_ & Hi1 & Hi2 & Hi3)]); exists s'; split_and!; congruence.
Qed.

(** The common cases. *)
Lemma stranded_conn h c c' :
  stranded h c → routes c' ⊆ routes c → arena c' = arena c → stranded h c'.
Proof.
  intros S Hr Ha. apply (stranded_step h c); [done| |].
  - intros id E. by eapply lookup_weaken.
  - intros s Hs. exists s. rewrite Ha. auto.
Qed.

Lemma stranded_upd h k f c c' :
  stranded h c → routes c' ⊆ routes c → arena c' = alter f k (arena c) →
  (k = h → ∀ s, inb (f s) = inb s) → stranded h c'.
Proof.
  intros S Hr Ha Hf. apply (stranded_step h c); [done| |].
  - intros id E. by eapply lookup_weaken.
  - intros s Hs. rewrite Ha. destruct (decide (k = h)) as [->|Hne].
    + exists (f s). rewrite list_lookup_alter_eq, Hs. simpl. auto.
    + exists s. rewrite list_lookup_alter_ne by done. auto.
Qed.

Lemma stranded_grow h c c' id s :
  stranded h c → routes c' = <[id := length (arena c)]> (routes c) → arena c' = arena c ++ [s] →
  stranded h c'.
Proof.
  intros S Hr Ha. pose proof S as [_ (s0 & Hs0 & _)]. apply lookup_lt_Some in Hs0 as Hlt.
  apply (stranded_step h c); [done| |].
  - rewrite Hr. intros id' [[<- E]|[_ ?]]%lookup_insert_Some; [lia|done].
  - intros s' Hs'. exists s'. rewrite Ha. split; [by apply lookup_app_l_Some|by left].
Qed.

Lemma stranded_drop h k c : stranded h c → stranded h (incoming_drop k c).
Proof.
  intros S. unfold incoming_drop. destruct (arena c !! k) as [s|]; [|done].
  by eapply stranded_conn; [exact S|apply delete_subseteq|].
Qed.

Lemma stranded_drops h (ds : list (nat * MuxTarget)) c :
  stranded h c → stranded h (foldl (λ c i, incoming_drop i.1 c) c ds).
Proof. revert c. induction ds as [|d ds IH]; intros c S; [done|]. by apply IH, stranded_drop. Qed.

Lemma stranded_drains h order c :
  stranded h c → stranded h (foldl (λ c k, drain_stream k c) c order).
Proof.
  revert c. induction order as [|k order IH]; intros c S; [done|]. apply IH. unfold drain_stream.
  destruct (arena c !! k) as [s|]; [|done]. destruct (flush_loop _ _ _ _).
  by eapply (stranded_upd h k); [exact S|simpl|simpl|].
Qed.

Lemma stranded_close h c : stranded h c → stranded h (close_connection c).
Proof.
  intros S. unfold close_connection. destruct (conn_closed c); [done|].
  apply (stranded_step h c); [done|by intros id|]. intros s Hs. simpl.
  rewrite list_lookup_imap, Hs. simpl. rewrite bool_decide_false; [eauto|]. apply S.
Qed.

Lemma stranded_fault h id code c : stranded h c → stranded h (fault_stream id code c).
Proof.
  intros S. unfold fault_stream. destruct (routes c !! id) as [k|] eqn:E; [|done].
  eapply (stranded_upd h k); [exact S|apply delete_subseteq|done|].
  intros ->. by destruct (proj1 S id).
Qed.

Lemma stranded_event h ev c : stranded h c → stranded h (on_event ev c).
Proof.
  intros S. assert (∀ id f, stranded h (match routes c !! id with Some k => upd k f c | None => c end)) as Hupd.
  { intros id f. destruct (routes c !! id) as [k|] eqn:E; [|done].
    eapply (stranded_upd h k); [exact S|done|done|]. intros ->. by destruct (proj1 S id). }
  assert (∀ id r, stranded h (answer id r c)) as Hans.
  { intros id r. unfold answer. destruct (open_waiters c !! id); [by eapply stranded_conn|done]. }
  destruct ev as [id t|id|id b|id d|id|id code]; simpl; try done.
  - set (c1 := set_routes _ _). assert (stranded h c1) as S1 by (by eapply stranded_grow).
    case_match; [by eapply stranded_conn|by apply stranded_drop].
  - specialize (Hupd id mark_eof). destruct (stream_state _ _); [done|].
    by eapply stranded_conn; [exact Hupd|apply delete_subseteq|].
  - by apply stranded_fault, Hans.
Qed.

Lemma stranded_read h k room c : stranded h c → stranded h (poll_read k room c).1.
Proof.
  intros S. unfold poll_read. destruct (arena c !! k) as [s|] eqn:Hk; [|done].
  destruct (read_chunks room (chunks (inb s)) (cursor (inb s))) as [[b ch] cur] eqn:Hrd. cbn zeta.
  assert (∀ st bu un, stranded h (set_cstate st (upd k (set_inb (mkIn ch cur bu un (in_eof (inb s)) (in_reset (inb s)))) c)))
    as Hin.
  { intros st bu un. apply (stranded_step h c); [done|done|]. intros s' Hs'. simpl.
    destruct (decide (k = h)) as [->|Hne].
    - exists (set_inb (mkIn ch cur bu un (in_eof (inb s)) (in_reset (inb s))) s). simplify_eq.
      rewrite list_lookup_alter_eq, Hk. split; [done|]. right. simpl.
      destruct (proj2 S) as (s0 & Hs0 & Hc & _). simplify_eq. rewrite Hc in Hrd. simpl in Hrd. by simplify_eq.
    - exists s'. rewrite list_lookup_alter_ne by done. auto. }
  assert (∀ bu un, stranded h (upd k (set_inb (mkIn ch cur bu un (in_eof (inb s)) (in_reset (inb s)))) c)) as Hin'
    by (intros bu un; apply (Hin (cstate c))).
  repeat case_match; simpl; auto.
Qed.

Lemma stranded_act h a x inc : stranded h (conn x) → stranded h (conn (conn_exec a x inc).1.1).
Proof.
  intros S. destruct a as [t|k|k|k code|k| | |k room|k buf|k|k| |order|n| |]; simpl; try done.
  - unfold conn_open. destruct (conn_closed _); [done|].
    destruct (open_local _ _) as [st [id|e]]; simpl; [by eapply stranded_grow|by eapply stranded_conn].
  - unfold conn_open_recheck. destruct (conn_closed _); [|done]. destruct (arena _ !! k); [|done].
    by eapply stranded_conn; [exact S|apply delete_subseteq|].
  - unfold incoming_accept. destruct (arena _ !! k); [|done]. by eapply stranded_conn.
  - unfold incoming_reject. destruct (arena _ !! k); [|done].
    by eapply stranded_conn; [exact S|apply delete_subseteq|].
  - by apply stranded_drop.
  - unfold acceptor_accept. destruct (incoming _); [done|by eapply stranded_conn].
  - apply stranded_drops. by eapply stranded_conn.
  - pose proof (stranded_read h k room (conn x) S) as Hr. by destruct (poll_read k room (conn x)).
  - unfold poll_write. destruct (arena _ !! k) as [s|]; [|done].
    repeat case_match; simplify_eq/=; try done. by eapply (stranded_upd h k); [exact S|..].
  - unfold poll_shutdown. destruct (arena _ !! k) as [s|]; [|done]. cbn zeta.
    case_match; simpl; by eapply (stranded_upd h k); [exact S|..].
  - unfold stream_drop. destruct (arena _ !! k) as [s|]; [|done]. destruct (routes _ !! _); [|done]. cbn zeta.
    case_match; by eapply stranded_conn; [exact S|apply delete_subseteq|].
  - by apply stranded_close.
  - destruct (conn_closed _); [done|]. unfold drain_pass. cbn zeta. simpl.
    eapply stranded_conn; [by apply (stranded_drains h order)|apply map_filter_subseteq|done].
  - unfold decode_step. destruct (todo x); [done|]. destruct (MuxFrame_decode_one _) as [[f n]|e].
    + unfold handle_recv. destruct (recv f _) as [st [|]]; simpl; by eapply stranded_conn.
    + destruct e; simpl; try done; by apply stranded_close.
  - unfold finish_step. destruct (todo x) as [[ev|sid]|]; simpl; [by apply stranded_event|by apply stranded_fault|done].
Qed.

Lemma stranded_world h ss w :
  stranded h (conn (wa w)) → stranded h (conn (wa (world_run ss w))).
Proof.
  revert w. induction ss as [|[[|] a] ss IH]; intros w S; [done|..]; apply IH; unfold world_act, side_act; simpl.
  - pose proof (stranded_act h a (wa w) (cba w) S) as Ha. by destruct (conn_exec a (wa w) (cba w)) as [[x inc] em].
  - by destruct (conn_exec a (wb w) (cab w)) as [[x inc] em].
Qed.

(** ** The race
    The responder drops its handle of an established stream, which resets it;
    the initiator's reader has run [recv] on the [Reset] and has yet to route it.
    Then a writer pass runs before or after the routing. *)
Definition race_steps : list (bool * conn_act) :=
  [(false, CDropStream 0); (false, CWriter []); (true, CFetch 100); (true, CDecode)].
Definition race_world : world := world_run (demo_opening ++ race_steps) demo_start.
Definition race_lost : world := world_run [(true, CWriter [0%nat]); (true, CFinish)] race_world.
Definition race_won : world := world_run [(true, CFinish); (true, CWriter [])] race_world.

Lemma race_lost_stranded : stranded 0 (conn (wa race_lost)).
Proof.
  split.
  - assert (routes (conn (wa race_lost)) = ∅) as -> by (vm_compute; reflexivity).
    intros id. by rewrite lookup_empty.
  - eexists. split; [vm_compute; reflexivity|]. done.
Qed.

(** C40: a reset can be lost between [recv] and its routing. [handle_frame]
    releases the state lock before it faults the handle; a writer pass in
    between prunes the routing entry of the stream the [Reset] has just closed,
    and the fault then finds no handle. From that reachable state on, whatever
    either side does (closing the connection included), a read on the handle
    stays pending for ever; had the fault come first, the read would report a
    reset. *)
Theorem reset_race_strands_reader :
  world_reachable true Initiator MuxPolicy_default MuxPolicy_default true true race_lost ∧
  (∀ ss room, (poll_read 0 room (conn (wa (world_run ss race_lost)))).2 = Pending) ∧
  world_reachable true Initiator MuxPolicy_default MuxPolicy_default true true race_won ∧
  (poll_read 0 1 (conn (wa race_won))).2 = Ready (Err ConnectionReset).
Proof.
  assert (world_reachable true Initiator MuxPolicy_default MuxPolicy_default true true race_world) as Hr.
  { apply world_run_reachable; [apply (world_new true Initiator)|]. run_ok. }
  split_and!.
  - apply world_run_reachable; [exact Hr|]. run_ok.
  - intros ss room. apply stranded_pending, stranded_world, race_lost_stranded.
  - apply world_run_reachable; [exact Hr|]. run_ok.
  - vm_compute. reflexivity.
Qed.
