(* ===== verification/DnsBase32.v ===== *)
(** * Base32 of the DNS tunnel (crates/transport-dnstt/src/dns.rs)

    The lowercase, unpadded RFC 4648 codec that turns packets into DNS labels,
    with its 64-bit shift register, and the proof that decoding inverts
    encoding. *)

From stdpp Require Import base numbers list.
From Stdlib Require Import ZArith Lia Strings.Byte.
From S2P Require Import Prelude Bytes.

Definition B32_ALPHABET : list byte :=
  [x61; x62; x63; x64; x65; x66; x67; x68; x69; x6a; x6b; x6c; x6d; x6e; x6f; x70;
   x71; x72; x73; x74; x75; x76; x77; x78; x79; x7a; x32; x33; x34; x35; x36; x37].

(** [u64] shift left: the bits above 64 are lost. *)
Definition shl_u64 (z : Z) (n : nat) : Z := Z.shiftl z (Z.of_nat n) `mod` 2 ^ 64.

(** [while bits >= 5 { bits -= 5; out.push(ALPHABET[(buf >> bits) & 0x1F]) }] *)
Fixpoint b32_drain (buf : Z) (bits : nat) : list byte * nat :=
  match bits with
  | S (S (S (S (S b)))) =>
    let idx := Z.land (Z.shiftr buf (Z.of_nat b)) 31 in
    let '(out, rest) := b32_drain buf b in
    (at_ B32_ALPHABET (Z.to_nat idx) :: out, rest)
  | _ => ([], bits)
  end.

Fixpoint b32_encode_loop (data : list byte) (buf : Z) (bits : nat) : list byte :=
  match data with
  | [] =>
    match bits with
    | O => []
    | _ => [at_ B32_ALPHABET (Z.to_nat (Z.land (shl_u64 buf (5 - bits)) 31))]
    end
  | b :: data =>
    let buf := Z.lor (shl_u64 buf 8) (u8 b) in
    let '(out, bits) := b32_drain buf (bits + 8) in
    out ++ b32_encode_loop data buf bits
  end.

Definition base32_encode (data : list byte) : list byte := b32_encode_loop data 0 0.

Definition b32_value (c : byte) : option Z :=
  if in_range 97 122 c then Some (u8 c - 97)
  else if in_range 65 90 c then Some (u8 c - 65)
  else if in_range 50 55 c then Some (u8 c - 50 + 26)
  else None.

Fixpoint b32_decode_loop (s : list byte) (buf : Z) (bits : nat) : option (list byte) :=
  match s with
  | [] => Some []
  | c :: s =>
    match b32_value c with
    | None => None
    | Some val =>
      let buf := Z.lor (shl_u64 buf 5) val in
      let bits := (bits + 5)%nat in
      if (8 <=? bits)%nat then
        let bits := (bits - 8)%nat in
        cons (b8 (Z.land (Z.shiftr buf (Z.of_nat bits)) 255)) <$> b32_decode_loop s buf bits
      else b32_decode_loop s buf bits
    end
  end.

Definition base32_decode (s : list byte) : option (list byte) := b32_decode_loop s 0 0.

(** ** Bit strings *)

(** The [n] low bits of [z], most significant first. *)
Fixpoint low (n : nat) (z : Z) : list bool :=
  match n with O => [] | S n => Z.testbit z (Z.of_nat n) :: low n z end.

Lemma length_low n z : length (low n z) = n.
Proof. induction n; simpl; auto. Qed.

Lemma low_ext n z w :
  (∀ i, 0 ≤ i < Z.of_nat n → Z.testbit z i = Z.testbit w i) → low n z = low n w.
Proof.
  induction n as [|n IH]; intros H; simpl; [done|]. f_equal; [apply H; lia|].
  apply IH. intros i Hi. apply H. lia.
Qed.

Lemma low_split m n z : low (m + n) z = low m (Z.shiftr z (Z.of_nat n)) ++ low n z.
Proof.
  induction m as [|m IH]; simpl; [done|]. rewrite IH. f_equal.
  rewrite Z.shiftr_spec by lia. f_equal. lia.
Qed.

Lemma low_ones n z : low n (Z.land z (Z.ones (Z.of_nat n))) = low n z.
Proof.
  apply low_ext. intros i Hi. rewrite Z.land_spec, Z.ones_spec_low by lia. apply andb_true_r.
Qed.

Lemma low_inj n z w : 0 ≤ z < 2 ^ Z.of_nat n → 0 ≤ w < 2 ^ Z.of_nat n → low n z = low n w → z = w.
Proof.
  intros Hz Hw H. apply Z.bits_inj'. intros i Hi.
  destruct (Z.lt_ge_cases i (Z.of_nat n)) as [Hlt|Hge].
  - clear Hz Hw. induction n as [|n IH]; [lia|]. simpl in H. injection H as H0 H.
    destruct (decide (i = Z.of_nat n)) as [->|]; [done|]. apply IH; [done|lia].
  - assert (∀ x, 0 ≤ x < 2 ^ Z.of_nat n → Z.testbit x i = false) as Hb; [|by rewrite !Hb].
    intros x Hx. apply Z.testbit_false; [lia|]. rewrite Z.div_small; [done|].
    split; [lia|]. eapply Z.lt_le_trans; [apply Hx|]. apply Z.pow_le_mono_r; lia.
Qed.

(** Shifting [k] bits in below [m] pending ones. *)
Lemma low_shl m k buf v :
  (m + k ≤ 64)%nat → 0 ≤ v < 2 ^ Z.of_nat k →
  low (m + k) (Z.lor (shl_u64 buf k) v) = low m buf ++ low k v.
Proof.
  intros Hm Hv. rewrite low_split. unfold shl_u64.
  assert (∀ i, 0 ≤ i < 64 → Z.testbit (Z.lor (Z.shiftl buf (Z.of_nat k) `mod` 2 ^ 64) v) i
    = Z.testbit buf (i - Z.of_nat k) || Z.testbit v i) as Hb.
  { intros i Hi. rewrite Z.lor_spec, Z.mod_pow2_bits_low, Z.shiftl_spec by lia. done. }
  f_equal; apply low_ext; intros i Hi.
  - rewrite Z.shiftr_spec, Hb by lia.
    replace (i + Z.of_nat k - Z.of_nat k) with i by lia.
    rewrite (proj2 (Z.testbit_false v (i + Z.of_nat k) ltac:(lia))); [apply orb_false_r|].
    rewrite Z.div_small; [done|]. split; [lia|]. eapply Z.lt_le_trans; [apply Hv|].
    apply Z.pow_le_mono_r; lia.
  - rewrite Hb by lia. by rewrite Z.testbit_neg_r by lia.
Qed.

(** ** Characters and their values *)
Lemma b32_value_alphabet idx :
  0 ≤ idx < 32 → b32_value (at_ B32_ALPHABET (Z.to_nat idx)) = Some idx.
Proof.
  intros H. assert (∀ n, (n < 32)%nat → b32_value (at_ B32_ALPHABET n) = Some (Z.of_nat n)) as Hn.
  { intros n Hn. do 32 (destruct n as [|n]; [vm_compute; reflexivity|]). lia. }
  rewrite Hn by lia. f_equal. lia.
Qed.

Lemma b32_value_range c v : b32_value c = Some v → 0 ≤ v < 32.
Proof.
  unfold b32_value, in_range. intros H. repeat case_bool_decide; simplify_eq; lia.
Qed.

Definition bits5 (c : byte) : list bool := low 5 (default 0 (b32_value c)).
Definition bits8 (b : byte) : list bool := low 8 (u8 b).

(** The characters of encoded text. *)
Definition b32_byte (c : byte) : Prop := in_range 97 122 c = true ∨ in_range 50 55 c = true.

Lemma alphabet_byte n : (n < 32)%nat → b32_byte (at_ B32_ALPHABET n).
Proof.
  intros Hn. do 32 (destruct n as [|n]; [vm_compute; tauto|]). lia.
Qed.

Lemma b32_byte_value c : b32_byte c → b32_value c ≠ None.
Proof.
  unfold b32_byte, b32_value. intros [H|H]; [by rewrite H|].
  destruct (in_range 97 122 c); [done|]. destruct (in_range 65 90 c); [done|]. by rewrite H.
Qed.

(** ** The encoder *)
Lemma b32_char_bits z :
  bits5 (at_ B32_ALPHABET (Z.to_nat (Z.land z 31))) = low 5 z ∧
  b32_byte (at_ B32_ALPHABET (Z.to_nat (Z.land z 31))).
Proof.
  assert (0 ≤ Z.land z 31 < 32).
  { change 31 with (Z.ones 5). rewrite Z.land_ones by lia. apply Z.mod_pos_bound. lia. }
  unfold bits5. rewrite b32_value_alphabet by done. split; [apply (low_ones 5)|].
  apply alphabet_byte. lia.
Qed.

Definition b32_chars (s : list byte) : Prop := Forall (λ c, b32_value c ≠ None) s.

Lemma b32_drain_spec buf bits out rest :
  b32_drain buf bits = (out, rest) →
  concat (bits5 <$> out) ++ low rest buf = low bits buf ∧ (rest < 5)%nat ∧ Forall b32_byte out.
Proof.
  revert out rest. induction (lt_wf bits) as [bits _ IH]. intros out rest.
  do 5 (destruct bits as [|bits]; [intros [= <- <-]; split_and!; [done|lia|constructor]|]).
  cbn [b32_drain]. destruct (b32_drain buf bits) as [o r] eqn:E. intros [= <- <-].
  destruct (IH bits ltac:(lia) o r E) as (Hb & Hr & Hc).
  destruct (b32_char_bits (Z.shiftr buf (Z.of_nat bits))) as [H5 Hv].
  split_and!; [|done|by constructor]. cbn [fmap list_fmap concat].
  rewrite H5, <- app_assoc, Hb. symmetry. apply (low_split 5).
Qed.

Lemma b32_encode_loop_spec data buf bits :
  (bits < 5)%nat → ∃ pad, (pad < 5)%nat ∧
  concat (bits5 <$> b32_encode_loop data buf bits)
    = low bits buf ++ concat (bits8 <$> data) ++ replicate pad false ∧
  Forall b32_byte (b32_encode_loop data buf bits).
Proof.
  revert buf bits. induction data as [|b data IH]; intros buf bits Hb; simpl.
  - destruct bits as [|bits]; [by exists 0%nat; split_and!; [lia| |constructor]|].
    destruct (b32_char_bits (shl_u64 buf (5 - S bits))) as [H5 Hv].
    exists (4 - bits)%nat. split_and!; [lia| |by constructor].
    cbn [fmap list_fmap concat]. rewrite H5, app_nil_r.
    rewrite <- (Z.lor_0_r (shl_u64 _ _)).
    replace 5%nat with (S bits + (5 - S bits))%nat at 1 by lia.
    rewrite low_shl by (lia || (split; [lia|apply Z.pow_pos_nonneg; lia])).
    f_equal. replace (5 - S bits)%nat with (4 - bits)%nat by lia.
    generalize (4 - bits)%nat. intros n. induction n as [|n IHn]; simpl; [done|].
    by rewrite Z.bits_0, IHn.
  - destruct (b32_drain (Z.lor (shl_u64 buf 8) (u8 b)) (bits + 8)) as [out rest] eqn:E.
    apply b32_drain_spec in E as (Ho & Hr & Hc).
    destruct (IH (Z.lor (shl_u64 buf 8) (u8 b)) rest Hr) as (pad & Hp & Hs & Hcs).
    exists pad. split_and!; [done| |by apply Forall_app_2].
    rewrite fmap_app, concat_app, Hs, app_assoc, Ho.
    pose proof (u8_range b). rewrite low_shl by (simpl; lia). by rewrite <- !app_assoc.
Qed.

(** ** The decoder *)
Lemma b32_decode_loop_spec s buf bits :
  (bits < 8)%nat → b32_chars s → ∃ out left, b32_decode_loop s buf bits = Some out ∧
  concat (bits8 <$> out) ++ left = low bits buf ++ concat (bits5 <$> s) ∧ (length left < 8)%nat.
Proof.
  intros Hb Hs. revert buf bits Hb. induction Hs as [|c s Hc Hs IH]; intros buf bits Hb;
    cbn [b32_decode_loop]; rewrite ?fmap_cons; cbn [concat].
  - exists [], (low bits buf). split_and!; [done|apply eq_sym, app_nil_r|by rewrite length_low].
  - unfold bits5 at 1. destruct (b32_value c) as [v|] eqn:Ev; [|done]. cbn [default from_option id].
    pose proof (b32_value_range c v Ev) as Hv. set (buf' := Z.lor (shl_u64 buf 5) v).
    assert (low (bits + 5) buf' = low bits buf ++ low 5 v) as Hl by (apply low_shl; simpl; lia).
    destruct (Nat.leb_spec 8 (bits + 5)).
    + destruct (IH buf' (bits + 5 - 8)%nat ltac:(lia)) as (out & left & -> & Ho & Hn).
      eexists _, left. split_and!; [done| |done]. rewrite fmap_cons. cbn [concat].
      rewrite <- app_assoc, Ho, !app_assoc, <- Hl. f_equal.
      assert (low (bits + 5) buf' = low 8 (Z.shiftr buf' (Z.of_nat (bits + 5 - 8)))
        ++ low (bits + 5 - 8) buf') as -> by (rewrite <- low_split; f_equal; lia).
      f_equal. unfold bits8. rewrite u8_b8.
      rewrite <- (low_ones 8 (Z.shiftr buf' _)). f_equal. change (Z.ones (Z.of_nat 8)) with 255.
      rewrite (Z.mod_small (Z.land _ _)); [done|]. change 255 with (Z.ones 8).
      rewrite Z.land_ones by lia. apply Z.mod_pos_bound. lia.
    + destruct (IH buf' (bits + 5)%nat ltac:(lia)) as (out & left & -> & Ho & Hn).
      exists out, left. split_and!; [done| |done]. by rewrite Ho, Hl, <- app_assoc.
Qed.

(** ** Round trip *)
Lemma concat_bits8_inj a b :
  length a = length b → concat (bits8 <$> a) = concat (bits8 <$> b) → a = b.
Proof.
  revert b. induction a as [|x a IH]; intros [|y b] Hl H; try done.
  rewrite !fmap_cons in H. cbn [concat] in H.
  apply app_inj_1 in H as [Hxy H]; [|by unfold bits8; rewrite !length_low].
  f_equal; [|by apply IH; [injection Hl|]]. apply u8_inj.
  apply (low_inj 8); [apply u8_range|apply u8_range|done].
Qed.

Lemma length_concat_bits8 l : length (concat (bits8 <$> l)) = (8 * length l)%nat.
Proof.
  induction l as [|x l IH]; [done|]. rewrite fmap_cons. cbn [concat].
  rewrite length_app, IH. unfold bits8. rewrite length_low. simpl. lia.
Qed.

Lemma base32_decode_encode data : base32_decode (base32_encode data) = Some data.
Proof.
  destruct (b32_encode_loop_spec data 0 0 ltac:(lia)) as (pad & Hp & He & Hc).
  destruct (b32_decode_loop_spec (base32_encode data) 0 0 ltac:(lia))
    as (out & left & Hd & Ho & Hl); [by eapply Forall_impl; [|apply b32_byte_value]|].
  unfold base32_decode. rewrite Hd. f_equal. unfold base32_encode in Ho.
  rewrite He in Ho. cbn [low app] in Ho.
  assert (length out = length data) as Hlen.
  { apply (f_equal length) in Ho. rewrite !length_app, !length_concat_bits8, length_replicate in Ho.
    lia. }
  apply concat_bits8_inj; [done|].
  apply app_inj_1 in Ho as [Ho _]; [done|]. rewrite !length_concat_bits8. lia.
Qed.


Lemma base32_encode_bytes data : Forall b32_byte (base32_encode data).
Proof. by destruct (b32_encode_loop_spec data 0 0 ltac:(lia)) as (pad & Hp & He & Hc). Qed.

Lemma length_base32_encode data :
  (5 * length (base32_encode data) < 8 * length data + 5)%nat ∧
  (8 * length data ≤ 5 * length (base32_encode data))%nat.
Proof.
  destruct (b32_encode_loop_spec data 0 0 ltac:(lia)) as (pad & Hp & He & _).
  apply (f_equal length) in He. cbn [low app] in He.
  rewrite length_app, length_concat_bits8, length_replicate in He.
  assert (∀ l, length (concat (bits5 <$> l)) = (5 * length l)%nat) as H5.
  { intros l. induction l as [|x l IH]; [done|]. rewrite fmap_cons. cbn [concat].
    rewrite length_app, IH. unfold bits5. rewrite length_low. simpl. lia. }
  rewrite H5 in He. unfold base32_encode. lia.
Qed.

(** Base32 is lossless. Decoding the encoding of any bytes gives them
    back, although the encoder pads the last character with zero bits and both
    directions run through a 64-bit register that keeps shifting old bits out. *)
Theorem base32_roundtrip data : base32_decode (base32_encode data) = Some data.
Proof. apply base32_decode_encode. Qed.
