(* ===== verification/DnsName.v ===== *)
(** * DNS names (crates/transport-dnstt/src/dns.rs)

    Encoding a dotted name into labels, decoding one with compression pointers,
    the bound on the decoder's work on arbitrary input, and the round trip. *)

From stdpp Require Import base numbers list.
From Stdlib Require Import ZArith Lia Strings.Byte.
From S2P Require Import Prelude Bytes Text.

Abbreviation MAX_LABEL := 63%nat (only parsing).
Abbreviation MAX_NAME := 255%nat (only parsing).

(** ** [encode_name]: appends to [out] *)
Fixpoint put_labels (labels : list (list byte)) (out : list byte) : option (list byte) :=
  match labels with
  | [] => Some out
  | label :: labels =>
    if bool_decide (label = []) then put_labels labels out
    else if (MAX_LABEL <? length label)%nat then None
    else put_labels labels (out ++ [b8 (zlen label)] ++ label)
  end.

Definition encode_name (name out : list byte) : option (list byte) :=
  match put_labels (split_on DOT name) out with
  | None => None
  | Some out' =>
    let out' := out' ++ [x00] in
    if (MAX_NAME <? length out' - length out)%nat then None else Some out'
  end.

(** ** [decode_name]

    One iteration per label or pointer. The outer [option] is the fuel. *)
Fixpoint decode_name_loop (fuel : nat) (msg : list byte) (labels : list (list byte))
    (p : nat) (next_after : option nat) (hops total_len : nat)
  : option (option (list byte * nat)) :=
  match fuel with
  | O => None
  | S fuel =>
    match msg !! p with
    | None => Some None
    | Some b =>
      let len := Z.to_nat (u8 b) in
      if (len =? 0)%nat then
        Some (Some (join DOT labels, default (p + 1)%nat next_after))
      else if bool_decide (Z.land (u8 b) 192 = 192) then
        match msg !! (p + 1)%nat with
        | None => Some None
        | Some b2 =>
          let ptr := Z.to_nat (Z.lor (Z.shiftl (Z.land (u8 b) 63) 8) (u8 b2)) in
          let next_after :=
            match next_after with None => Some (p + 2)%nat | Some _ => next_after end in
          let hops := (hops + 1)%nat in
          if (128 <? hops)%nat || (length msg <=? ptr)%nat then Some None
          else decode_name_loop fuel msg labels ptr next_after hops total_len
        end
      else if (MAX_LABEL <? len)%nat then Some None
      else
        let total_len := (total_len + (len + 1))%nat in
        if (MAX_NAME <? total_len)%nat then Some None
        else if (length msg <? p + 1 + len)%nat then Some None
        else
          let label := take len (drop (p + 1) msg) in
          decode_name_loop fuel msg (labels ++ [utf8_lossy label])
            (p + 1 + len) next_after hops total_len
    end
  end.

(** Every iteration spends a hop (128 allowed) or part of the 255-byte budget. *)
Definition DECODE_FUEL : nat := 128 + 255 + 2.

Definition decode_name (msg : list byte) (pos : nat) : option (list byte * nat) :=
  default None (decode_name_loop DECODE_FUEL msg [] pos None 0 0).

(** ** Bounded work *)
Lemma decode_name_loop_fuel fuel msg labels p na hops tot :
  (128 - hops + (255 - tot) < fuel)%nat → (hops ≤ 128)%nat → (tot ≤ 255)%nat →
  ∃ r, decode_name_loop fuel msg labels p na hops tot = Some r.
Proof.
  revert labels p na hops tot. induction fuel as [|fuel IH]; intros labels p na hops tot Hf Hh Ht; [lia|].
  cbn [decode_name_loop]. destruct (msg !! p) as [b|]; [|by eexists].
  destruct (Nat.eqb_spec (Z.to_nat (u8 b)) 0) as [|Hnz]; [by eexists|].
  case_bool_decide.
  - destruct (msg !! (p + 1)%nat) as [b2|]; [|by eexists]. cbv zeta.
    destruct (Nat.ltb_spec 128 (hops + 1)); [by eexists|].
    destruct (Nat.leb_spec (length msg) (Z.to_nat (Z.lor (Z.shiftl (Z.land (u8 b) 63) 8) (u8 b2))));
      [by eexists|]. apply IH; lia.
  - destruct (Nat.ltb_spec MAX_LABEL (Z.to_nat (u8 b))); [by eexists|]. cbv zeta.
    destruct (Nat.ltb_spec MAX_NAME (tot + (Z.to_nat (u8 b) + 1))); [by eexists|].
    destruct (length msg <? _)%nat; [by eexists|]. apply IH; lia.
Qed.

(** C39: no input makes [decode_name] do unbounded work. On every message and
    from every position the loop ends within 385 iterations, whatever the
    compression pointers form (cycles included). *)
Theorem decode_name_terminates msg pos :
  decode_name_loop DECODE_FUEL msg [] pos None 0 0 = Some (decode_name msg pos).
Proof.
  destruct (decode_name_loop_fuel DECODE_FUEL msg [] pos None 0 0) as [r E];
    [unfold DECODE_FUEL; lia..|]. unfold decode_name. by rewrite E.
Qed.

(** ** Round trip *)

Definition label_wf (l : list byte) : Prop := l ≠ [] ∧ (length l ≤ MAX_LABEL)%nat ∧ ascii l.

Definition wire_labels (ls : list (list byte)) : list byte :=
  concat ((λ l, b8 (zlen l) :: l) <$> ls).

Lemma wire_labels_cons l ls : wire_labels (l :: ls) = b8 (zlen l) :: l ++ wire_labels ls.
Proof. done. Qed.

Lemma u8_zlen (l : list byte) : (length l ≤ MAX_LABEL)%nat → u8 (b8 (zlen l)) = zlen l.
Proof. intros H. apply u8_b8_small. unfold zlen in *. lia. Qed.

Lemma land_192_small n : 0 ≤ n ≤ 63 → Z.land n 192 ≠ 192.
Proof.
  intros H. assert (Z.land n 192 = 0) as ->; [|done].
  apply Z.bits_inj'. intros i Hi. rewrite Z.land_spec, Z.bits_0.
  destruct (Z.lt_ge_cases i 6) as [Hlt|Hge].
  - assert (i = 0 ∨ i = 1 ∨ i = 2 ∨ i = 3 ∨ i = 4 ∨ i = 5) as Hc by lia.
    destruct_or! Hc; subst; apply andb_false_r.
  - rewrite (proj2 (Z.testbit_false n i Hi)); [done|]. rewrite Z.div_small; [done|].
    split; [lia|]. eapply Z.lt_le_trans with (2 ^ 6); [lia|]. apply Z.pow_le_mono_r; lia.
Qed.

Lemma decode_labels fuel msg pre ls tl labels na hops tot :
  msg = pre ++ wire_labels ls ++ x00 :: tl → Forall label_wf ls →
  (tot + length (wire_labels ls) ≤ MAX_NAME)%nat → (length ls < fuel)%nat →
  decode_name_loop fuel msg labels (length pre) na hops tot
    = Some (Some (join DOT (labels ++ ls),
                  default (length pre + length (wire_labels ls) + 1)%nat na)).
Proof.
  intros Hm Hls. revert fuel pre labels tot Hm.
  induction Hls as [|l ls Hl Hls IH]; intros [|fuel] pre labels tot Hm Ht Hf; simpl in Hf; try lia;
    cbn [decode_name_loop]; subst msg.
  - rewrite lookup_app_r, Nat.sub_diag by done. cbn [lookup list_lookup wire_labels concat fmap list_fmap app].
    change (Z.to_nat (u8 x00)) with 0%nat. rewrite app_nil_r.
    cbn [Nat.eqb length]. by rewrite Nat.add_0_r.
  - rewrite wire_labels_cons in *. destruct Hl as (Hne & Hlen & Hasc).
    rewrite lookup_app_r, Nat.sub_diag by done. cbn [app lookup list_lookup].
    rewrite u8_zlen by done. unfold zlen in *. rewrite Nat2Z.id.
    destruct (Nat.eqb_spec (length l) 0) as [E|_]; [by destruct l|].
    rewrite bool_decide_false by (apply land_192_small; lia).
    destruct (Nat.ltb_spec MAX_LABEL (length l)); [lia|]. cbv zeta.
    simpl length in Ht. rewrite length_app in Ht.
    destruct (Nat.ltb_spec MAX_NAME (tot + (length l + 1))); [lia|].
    match goal with |- context [(length ?m <? _)%nat] => set (msg := m) end.
    assert (msg = (pre ++ b8 (Z.of_nat (length l)) :: l) ++ wire_labels ls ++ x00 :: tl) as Hmsg
      by (unfold msg; by rewrite <- !app_assoc).
    destruct (Nat.ltb_spec (length msg) (length pre + 1 + length l)) as [Hlt|_].
    { rewrite Hmsg in Hlt. rewrite !length_app in Hlt. simpl in Hlt. lia. }
    assert (take (length l) (drop (length pre + 1) msg) = l) as ->.
    { unfold msg. rewrite drop_app_ge by lia. replace (length pre + 1 - length pre)%nat with 1%nat by lia.
      cbn [drop]. rewrite drop_0, <- app_assoc. apply take_app_length. }
    rewrite utf8_lossy_ascii by done.
    replace (length pre + 1 + length l)%nat with (length (pre ++ b8 (Z.of_nat (length l)) :: l))
      by (rewrite length_app; simpl; lia).
    rewrite (IH fuel _ _ _ Hmsg) by lia. rewrite <- app_assoc. do 3 f_equal.
    destruct na; simpl; [done|]. rewrite !length_app. simpl. lia.
Qed.

Lemma put_labels_spec labels out out' :
  put_labels labels out = Some out' →
  out' = out ++ wire_labels (filter (λ l, l ≠ []) labels) ∧
  Forall (λ l, (length l ≤ MAX_LABEL)%nat) labels.
Proof.
  revert out. induction labels as [|l labels IH]; intros out; cbn [put_labels].
  - intros [= <-]. split; [|constructor]. symmetry. apply app_nil_r.
  - case_bool_decide as Hl.
    + intros [-> Hrec]%IH. rewrite filter_cons_False by auto. split; [done|].
      constructor; [|done]. subst l. simpl. lia.
    + destruct (Nat.ltb_spec MAX_LABEL (length l)); [done|].
      intros [-> Hrec]%IH. rewrite filter_cons_True, wire_labels_cons by auto. split; [|by constructor].
      by rewrite <- !app_assoc.
Qed.

(** The labels a dotted name stands for. *)
Definition name_labels (name : list byte) : list (list byte) :=
  filter (λ l, l ≠ []) (split_on DOT name).

Lemma split_on_sub sep l P : Forall P l → Forall (Forall P) (split_on sep l).
Proof.
  induction 1 as [|b l Hb Hl IH]; simpl; [by repeat constructor|]. case_bool_decide; [by constructor|].
  destruct (split_on sep l) as [|h t]; [by repeat constructor|].
  inversion IH; subst. constructor; [by constructor|done].
Qed.

Lemma encode_name_spec name out out' :
  ascii name → encode_name name out = Some out' →
  out' = out ++ wire_labels (name_labels name) ++ [x00] ∧
  Forall label_wf (name_labels name) ∧ (length (wire_labels (name_labels name)) < MAX_NAME)%nat.
Proof.
  intros Ha. unfold encode_name. destruct (put_labels _ _) as [o|] eqn:E; [|done].
  apply put_labels_spec in E as [-> Hl]. cbv zeta.
  destruct (Nat.ltb_spec MAX_NAME (length ((out ++ wire_labels (name_labels name)) ++ [x00]) - length out)).
  { unfold name_labels in *. by rewrite (proj2 (Nat.ltb_lt _ _)) by done. }
  unfold name_labels in *. rewrite (proj2 (Nat.ltb_ge _ _)) by done. intros [= <-].
  rewrite !length_app in *. simpl in *. split_and!; [by rewrite app_assoc| |lia].
  apply Forall_forall. intros l [Hne Hin]%list_elem_of_filter.
  pose proof (split_on_sub DOT name _ Ha) as Hs. rewrite Forall_forall in Hl, Hs.
  split_and!; [done|by apply Hl|by apply Hs].
Qed.

Lemma wire_labels_length ls : (length ls ≤ length (wire_labels ls))%nat.
Proof.
  induction ls as [|l ls IH]; [done|]. rewrite wire_labels_cons. simpl. rewrite length_app. lia.
Qed.

(** Decoding what [encode_name] wrote, wherever it sits in a message. *)
Lemma decode_encoded_name name out out' tl msg :
  ascii name → encode_name name out = Some out' → msg = out' ++ tl →
  decode_name msg (length out) = Some (join DOT (name_labels name), length out').
Proof.
  intros Ha He ->. destruct (encode_name_spec _ _ _ Ha He) as (-> & Hls & Hlen).
  unfold decode_name. pose proof (wire_labels_length (name_labels name)).
  erewrite (decode_labels _ _ out (name_labels name) tl); [..|unfold DECODE_FUEL in *; lia].
  - simpl. do 2 f_equal. rewrite !length_app. simpl. lia.
  - by rewrite <- !app_assoc.
  - done.
  - lia.
Qed.

(** The same through a compression pointer to it. *)
Lemma decode_pointer name out out' tl msg p :
  ascii name → encode_name name out = Some out' → msg = out' ++ tl → (length out < 256)%nat →
  msg !! p = Some xc0 → msg !! (p + 1)%nat = Some (b8 (zlen out)) →
  decode_name msg p = Some (join DOT (name_labels name), (p + 2)%nat).
Proof.
  intros Ha He Hm Hl Hp Hp1. destruct (encode_name_spec _ _ _ Ha He) as (-> & Hls & Hlen).
  assert (∃ fuel, DECODE_FUEL = S fuel ∧ (255 < fuel)%nat) as (fuel & Hfuel & Hlt)
    by (exists 384%nat; unfold DECODE_FUEL; lia).
  unfold decode_name. rewrite Hfuel. cbn [decode_name_loop]. rewrite Hp, Hp1.
  change (Z.to_nat (u8 xc0) =? 0)%nat with false. rewrite bool_decide_true by done.
  rewrite u8_b8_small by (unfold zlen; lia). change (Z.land (u8 xc0) 63) with 0.
  rewrite Z.shiftl_0_l, Z.lor_0_l. unfold zlen. rewrite Nat2Z.id. cbv zeta.
  destruct (Nat.leb_spec (length msg) (length out)) as [Hge|_].
  { subst msg. rewrite !length_app in Hge. simpl in Hge. lia. }
  change (128 <? 0 + 1)%nat with false. cbn [orb]. pose proof (wire_labels_length (name_labels name)).
  erewrite (decode_labels _ _ out (name_labels name) tl); [done| |done|lia|lia].
  subst msg. by rewrite <- !app_assoc.
Qed.

(** A name without empty labels is the join of its labels. *)
Definition name_wf (name : list byte) : Prop :=
  ascii name ∧ Forall (λ l, l ≠ []) (split_on DOT name).

Lemma name_wf_join name : name_wf name → join DOT (name_labels name) = name.
Proof.
  intros [_ H]. unfold name_labels. replace (filter _ _) with (split_on DOT name); [apply join_split_on|].
  induction H as [|l ls Hl Hls IH]; [done|]. rewrite filter_cons_True by done. by f_equal.
Qed.

Lemma put_labels_total labels out :
  Forall (λ l, (length l ≤ MAX_LABEL)%nat) labels →
  put_labels labels out = Some (out ++ wire_labels (filter (λ l, l ≠ []) labels)).
Proof.
  intros H. revert out. induction H as [|l labels Hl Hls IH]; intros out; cbn [put_labels].
  - f_equal. symmetry. apply app_nil_r.
  - case_bool_decide as E; [rewrite filter_cons_False by auto; apply IH|].
    rewrite (proj2 (Nat.ltb_ge _ _)) by done. rewrite IH, filter_cons_True, wire_labels_cons by done.
    by rewrite <- !app_assoc.
Qed.

Lemma length_wire_labels ls :
  ls ≠ [] → length (wire_labels ls) = (length (join DOT ls) + 1)%nat.
Proof.
  induction ls as [|l ls IH]; [done|]. intros _. rewrite wire_labels_cons. simpl length at 1.
  rewrite length_app. destruct ls as [|l' ls]; [simpl; lia|].
  rewrite IH by done. cbn [join]. rewrite length_app. simpl. lia.
Qed.

(** When a name is accepted. *)
Lemma encode_name_total name out :
  name_wf name → Forall (λ l, (length l ≤ MAX_LABEL)%nat) (split_on DOT name) →
  (length name + 2 ≤ MAX_NAME)%nat → ∃ out', encode_name name out = Some out'.
Proof.
  intros Hw Hl Hn. unfold encode_name. rewrite put_labels_total by done. cbv zeta.
  fold (name_labels name). pose proof (name_wf_join name Hw) as Hj.
  assert (length (wire_labels (name_labels name)) ≤ length name + 1)%nat as Hlen.
  { destruct (decide (name_labels name = [])) as [E|E]; [rewrite E; simpl; lia|].
    rewrite length_wire_labels, Hj by done. done. }
  rewrite (proj2 (Nat.ltb_ge _ _)); [by eexists|]. rewrite !length_app. simpl. lia.
Qed.

(** Names round-trip. Any ASCII name without empty labels that
    [encode_name] accepts is read back by [decode_name] unchanged, at any offset
    of a message and whatever follows, and the cursor ends up right behind it. *)
Theorem dns_name_roundtrip name out out' tl :
  name_wf name → encode_name name out = Some out' →
  decode_name (out' ++ tl) (length out) = Some (name, length out').
Proof.
  intros Hw He. rewrite (decode_encoded_name name out out' tl) by (done || apply Hw).
  by rewrite name_wf_join.
Qed.

Lemma dns_name_roundtrip_witness :
  let name := [x74; x2e; x65; x78] in
  encode_name name [xab] = Some [xab; x01; x74; x02; x65; x78; x00] ∧
  decode_name [xab; x01; x74; x02; x65; x78; x00; xcd] 1 = Some (name, 7%nat).
Proof.
  cbv zeta. split; [vm_compute; reflexivity|].
  apply (dns_name_roundtrip [x74; x2e; x65; x78] [xab]
           [xab; x01; x74; x02; x65; x78; x00] [xcd]); [|vm_compute; reflexivity].
  split; [|vm_compute; repeat constructor; discriminate].
  repeat constructor; vm_compute; discriminate.
Defined.
