(* ===== verification/DnsMsg.v ===== *)
(** * DNS messages (crates/transport-dnstt/src/dns.rs)

    The queries and responses that carry the tunnel: header, question, TXT
    answer and EDNS0 record, with the parsers of both directions. *)

From stdpp Require Import base numbers list.
From Stdlib Require Import ZArith Lia Strings.Byte.
From S2P Require Import Prelude Bytes Text DnsName.

Abbreviation TYPE_TXT := 16%Z (only parsing).
Abbreviation TYPE_OPT := 41%Z (only parsing).
Abbreviation EDNS_UDP_BUFSIZE := 1232%Z (only parsing).
Abbreviation EDNS_OPT_COOKIE := 10%Z (only parsing).
Abbreviation CLASS_IN := 1%Z (only parsing).
Abbreviation FLAG_QR := 0x8000%Z (only parsing).
Abbreviation FLAG_AA := 0x0400%Z (only parsing).
Abbreviation FLAG_RD := 0x0100%Z (only parsing).
Abbreviation RESPONSE_TTL := 60%Z (only parsing).
Abbreviation MAX_TXT_CHUNK := 255%nat (only parsing).

(** ** Header *)
Record Header : Type := mkHeader {
  h_id : Z; h_flags : Z; h_qd : Z; h_an : Z; h_ns : Z; h_ar : Z;
}.

Definition Header_write (h : Header) (out : list byte) : list byte :=
  out ++ be_bytes 2 (h_id h) ++ be_bytes 2 (h_flags h) ++ be_bytes 2 (h_qd h)
      ++ be_bytes 2 (h_an h) ++ be_bytes 2 (h_ns h) ++ be_bytes 2 (h_ar h).

Definition Header_read (msg : list byte) : option Header :=
  if bool_decide (zlen msg < 12) then None
  else
    let g i := be_val [at_ msg i; at_ msg (i + 1)] in
    Some (mkHeader (g 0%nat) (g 2%nat) (g 4%nat) (g 6%nat) (g 8%nat) (g 10%nat)).

(** ** Query *)

(** [cookie]: the 8 bytes drawn from the random generator. *)
Definition write_edns0_opt_query (cookie out : list byte) : list byte :=
  out ++ [x00] ++ be_bytes 2 TYPE_OPT ++ be_bytes 2 EDNS_UDP_BUFSIZE ++ [x00; x00; x00; x00]
      ++ be_bytes 2 (4 + 8) ++ be_bytes 2 EDNS_OPT_COOKIE ++ be_bytes 2 8 ++ cookie.

Definition encode_query (id : Z) (cookie qname : list byte) : option (list byte) :=
  let out := Header_write (mkHeader id 0x0100 1 0 0 1) [] in
  match encode_name qname out with
  | None => None
  | Some out =>
    let out := out ++ be_bytes 2 TYPE_TXT ++ be_bytes 2 CLASS_IN in
    Some (write_edns0_opt_query cookie out)
  end.

Record Query : Type := mkQuery {
  q_id : Z;
  q_name : list byte;
  recursion_desired : bool;
  had_opt : bool;
}.

Definition get_u16 (msg : list byte) (p : nat) : option Z :=
  match msg !! p, msg !! (p + 1)%nat with
  | Some a, Some b => Some (be_val [a; b])
  | _, _ => None
  end.

Fixpoint scan_for_opt (msg : list byte) (pos : nat) (count : nat) : bool :=
  match count with
  | O => false
  | S count =>
    match decode_name msg pos with
    | None => false
    | Some (_, pos) =>
      match get_u16 msg pos with
      | None => false
      | Some t =>
        if bool_decide (t = TYPE_OPT) then true
        else match get_u16 msg (pos + 8) with
             | None => false
             | Some l => scan_for_opt msg (pos + 10 + Z.to_nat l) count
             end
      end
    end
  end.

(** [for _ in 0..n { let (_, next) = decode_name(msg, p)?; p = next + 4; }] *)
Fixpoint skip_questions (msg : list byte) (p : nat) (n : nat) : option nat :=
  match n with
  | O => Some p
  | S n =>
    match decode_name msg p with
    | None => None
    | Some (_, next) => skip_questions msg (next + 4) n
    end
  end.

Definition saturating_add_u16 (a b : Z) : Z := Z.min (a + b) u16_max.

Definition parse_query (msg : list byte) : option Query :=
  match Header_read msg with
  | None => None
  | Some h =>
    if bool_decide (Z.land (h_flags h) FLAG_QR ≠ 0) || bool_decide (h_qd h < 1) then None
    else match decode_name msg 12 with
    | None => None
    | Some (name, p) =>
      match skip_questions msg (p + 4) (Z.to_nat (h_qd h - 1)) with
      | None => None
      | Some p =>
        let count := saturating_add_u16 (saturating_add_u16 (h_an h) (h_ns h)) (h_ar h) in
        Some (mkQuery (h_id h) (to_ascii_lowercase name)
                (bool_decide (Z.land (h_flags h) FLAG_RD ≠ 0))
                (scan_for_opt msg p (Z.to_nat count)))
      end
    end
  end.

(** ** Response *)
Fixpoint chunks_loop {A} (fuel n : nat) (l : list A) : list (list A) :=
  match fuel, l with
  | S fuel, _ :: _ => take n l :: chunks_loop fuel n (drop n l)
  | _, _ => []
  end.

(** [slice.chunks(n)] *)
Definition chunks {A} (n : nat) (l : list A) : list (list A) := chunks_loop (length l) n l.

Definition write_edns0_opt_response (out : list byte) : list byte :=
  out ++ [x00] ++ be_bytes 2 TYPE_OPT ++ be_bytes 2 EDNS_UDP_BUFSIZE ++ [x00; x00; x00; x00]
      ++ be_bytes 2 0.

Definition txt_rdata (payload : list byte) : list byte :=
  match payload with
  | [] => [x00]
  | _ => concat ((λ chunk, b8 (zlen chunk) :: chunk) <$> chunks MAX_TXT_CHUNK payload)
  end.

Definition encode_response (id : Z) (qname payload : list byte) (rd echo_opt : bool)
  : option (list byte) :=
  let flags := Z.lor FLAG_QR FLAG_AA in
  let flags := if rd then Z.lor flags FLAG_RD else flags in
  let out := Header_write (mkHeader id flags 1 1 0 (if echo_opt then 1 else 0)) [] in
  match encode_name qname out with
  | None => None
  | Some out =>
    let rdata := txt_rdata payload in
    let out := out ++ be_bytes 2 TYPE_TXT ++ be_bytes 2 CLASS_IN ++ [xc0; x0c]
                   ++ be_bytes 2 TYPE_TXT ++ be_bytes 2 CLASS_IN ++ be_bytes 4 RESPONSE_TTL
                   ++ be_bytes 2 (zlen rdata) ++ rdata in
    Some (if echo_opt then write_edns0_opt_response out else out)
  end.

(** The character-strings of a TXT record, concatenated. *)
Fixpoint txt_strings (fuel : nat) (rdata : list byte) : list byte :=
  match fuel, rdata with
  | S fuel, c :: rest =>
    let clen := Z.to_nat (u8 c) in
    take clen rest ++ txt_strings fuel (drop clen rest)
  | _, _ => []
  end.

Fixpoint walk_answers (msg : list byte) (p : nat) (n : nat) : option (option (list byte)) :=
  match n with
  | O => Some None
  | S n =>
    match decode_name msg p with
    | None => None
    | Some (_, p) =>
      match get_u16 msg p, get_u16 msg (p + 8) with
      | Some rtype, Some rdlen =>
        let rdlen := Z.to_nat rdlen in
        let p := (p + 10)%nat in
        if (length msg <? p + rdlen)%nat then None
        else
          let rdata := take rdlen (drop p msg) in
          if bool_decide (rtype = TYPE_TXT) then Some (Some (txt_strings (length rdata) rdata))
          else walk_answers msg (p + rdlen) n
      | _, _ => None
      end
    end
  end.

Definition parse_response (msg : list byte) : option (Z * list byte) :=
  match Header_read msg with
  | None => None
  | Some h =>
    if bool_decide (Z.land (h_flags h) FLAG_QR = 0) then None
    else match skip_questions msg 12 (Z.to_nat (h_qd h)) with
    | None => None
    | Some p =>
      match walk_answers msg p (Z.to_nat (h_an h)) with
      | None => None
      | Some payload => Some (h_id h, default [] payload)
      end
    end
  end.

(** ** Lemmas *)
Definition header_typed (h : Header) : Prop :=
  in_u16 (h_id h) ∧ in_u16 (h_flags h) ∧ in_u16 (h_qd h) ∧ in_u16 (h_an h) ∧
  in_u16 (h_ns h) ∧ in_u16 (h_ar h).

Lemma length_Header_write h : length (Header_write h []) = 12%nat.
Proof. unfold Header_write. rewrite !length_app, !length_be_bytes. done. Qed.

Lemma Header_read_write h tl : header_typed h → Header_read (Header_write h [] ++ tl) = Some h.
Proof.
  intros (H1 & H2 & H3 & H4 & H5 & H6). unfold Header_read.
  rewrite bool_decide_false by (unfold zlen; rewrite length_app, length_Header_write; lia).
  unfold Header_write. rewrite !be_bytes_2. cbn [app at_ nth]. destruct h; simpl in *.
  f_equal; f_equal; rewrite <- be_bytes_2; by apply be_u16_roundtrip.
Qed.

Lemma get_u16_at pre z tl msg p :
  in_u16 z → msg = pre ++ be_bytes 2 z ++ tl → p = length pre → get_u16 msg p = Some z.
Proof.
  intros Hz -> ->. unfold get_u16. rewrite be_bytes_2.
  rewrite !(lookup_app_r pre), Nat.sub_diag by lia.
  replace (length pre + 1 - length pre)%nat with 1%nat by lia. simpl.
  rewrite <- be_bytes_2. f_equal. by apply be_u16_roundtrip.
Qed.

Lemma decode_root msg p : msg !! p = Some x00 → decode_name msg p = Some ([], (p + 1)%nat).
Proof.
  intros H. assert (∃ fuel, DECODE_FUEL = S fuel) as [fuel Hf] by (by exists 384%nat).
  unfold decode_name. rewrite Hf. cbn [decode_name_loop]. by rewrite H.
Qed.

(** ** Query round trip *)
Lemma parse_encode_query id cookie qname q :
  in_u16 id → ascii qname → encode_query id cookie qname = Some q →
  parse_query q = Some (mkQuery id (to_ascii_lowercase (join DOT (name_labels qname))) true true).
Proof.
  intros Hid Ha. unfold encode_query. set (h := mkHeader id 0x0100 1 0 0 1).
  assert (header_typed h) as Hh by (unfold header_typed, in_u16, u16_max in *; simpl; lia).
  destruct (encode_name qname (Header_write h [])) as [out|] eqn:He; [|done]. intros [= <-].
  unfold write_edns0_opt_query. rewrite <- !app_assoc.
  match goal with |- context [out ++ ?t] => set (tl := t) end.
  assert (∃ w, out = Header_write h [] ++ w) as [w Hw].
  { destruct (encode_name_spec _ _ _ Ha He) as (-> & _). by eexists. }
  unfold parse_query. rewrite Hw at 1. rewrite <- app_assoc, Header_read_write by done.
  cbn [h_flags h_qd h]. change (Z.land 256 FLAG_QR) with 0. rewrite bool_decide_false by auto.
  cbn [orb]. rewrite (bool_decide_false (1 < 1)) by lia.
  pose proof (decode_encoded_name qname _ out tl _ Ha He eq_refl) as Hd.
  rewrite length_Header_write in Hd. rewrite Hd. cbn [h_qd skip_questions Z.sub Z.to_nat].
  change (Z.to_nat (1 - 1)) with 0%nat. cbn [skip_questions].
  f_equal. f_equal.
  change (Z.to_nat (saturating_add_u16 (saturating_add_u16 (h_an h) (h_ns h)) (h_ar h))) with 1%nat.
  cbn [scan_for_opt].
  assert (out ++ tl = (out ++ be_bytes 2 TYPE_TXT ++ be_bytes 2 CLASS_IN) ++ x00 ::
    (be_bytes 2 TYPE_OPT ++ drop 7 tl)) as Htl by (rewrite <- !app_assoc; reflexivity).
  assert (length (out ++ be_bytes 2 TYPE_TXT ++ be_bytes 2 CLASS_IN) = (length out + 4)%nat) as Hl
    by (rewrite !length_app, !length_be_bytes; lia).
  rewrite decode_root by (rewrite Htl, lookup_app_r; rewrite Hl; [by rewrite Nat.sub_diag|lia]).
  rewrite (get_u16_at ((out ++ be_bytes 2 TYPE_TXT ++ be_bytes 2 CLASS_IN) ++ [x00]) TYPE_OPT (drop 7 tl)).
  - done.
  - done.
  - rewrite Htl. by rewrite <- !app_assoc.
  - rewrite length_app, Hl. done.
Qed.

(** A tunnel query is read back. Whatever the cookie, the server parses
    from the client's query the transaction id and the (lower-cased) name, sees
    the recursion-desired bit and the EDNS0 record. *)
Theorem dns_query_roundtrip id cookie qname q :
  in_u16 id → name_wf qname → encode_query id cookie qname = Some q →
  parse_query q = Some (mkQuery id (to_ascii_lowercase qname) true true).
Proof.
  intros Hid Hw He. rewrite (parse_encode_query id cookie qname q Hid (proj1 Hw) He).
  by rewrite name_wf_join.
Qed.

(** ** Response round trip *)
Lemma txt_strings_chunks payload fuel fuel' :
  (length payload ≤ fuel)%nat →
  (length (concat ((λ c, b8 (zlen c) :: c) <$> chunks_loop fuel MAX_TXT_CHUNK payload)) ≤ fuel')%nat →
  txt_strings fuel' (concat ((λ c, b8 (zlen c) :: c) <$> chunks_loop fuel MAX_TXT_CHUNK payload))
    = payload.
Proof.
  revert payload fuel'. induction fuel as [|fuel IH]; intros payload fuel' Hf Hf'.
  { destruct payload; [by destruct fuel'|simpl in Hf; lia]. }
  destruct payload as [|b payload]; [by destruct fuel'|].
  cbn [chunks_loop] in *. rewrite fmap_cons in *. cbn [concat app] in *.
  set (c := take MAX_TXT_CHUNK (b :: payload)) in *. set (rest := drop MAX_TXT_CHUNK (b :: payload)) in *.
  assert (length c ≤ 255)%nat as Hc by (unfold c; rewrite length_take; lia).
  destruct fuel' as [|fuel']; [simpl in Hf'; lia|]. cbn [txt_strings].
  assert (Z.to_nat (u8 (b8 (zlen c))) = length c) as ->
    by (rewrite u8_b8_small; unfold zlen; lia).
  rewrite take_app_length, drop_app_length. rewrite IH.
  - apply take_drop.
  - unfold rest. rewrite length_drop. simpl in *. lia.
  - simpl in Hf'. rewrite length_app in Hf'. lia.
Qed.

Lemma txt_rdata_strings payload :
  txt_strings (length (txt_rdata payload)) (txt_rdata payload) = payload.
Proof.
  destruct payload as [|b payload]; [done|]. unfold txt_rdata.
  by apply txt_strings_chunks.
Qed.

Lemma encode_name_app name out out' :
  ascii name → encode_name name out = Some out' → ∃ w, out' = out ++ w ∧ w ≠ [].
Proof.
  intros Ha He. destruct (encode_name_spec _ _ _ Ha He) as (-> & _). eexists. split; [done|].
  by destruct (wire_labels _).
Qed.

(** The TXT answer behind a two-byte compressed name. *)
Lemma walk_answers_txt m pre ptr name payload tl :
  let rdata := txt_rdata payload in
  zlen rdata ≤ u16_max → length ptr = 2%nat →
  m = pre ++ ptr ++ be_bytes 2 TYPE_TXT ++ (be_bytes 2 CLASS_IN ++ be_bytes 4 RESPONSE_TTL)
      ++ be_bytes 2 (zlen rdata) ++ rdata ++ tl →
  decode_name m (length pre) = Some (name, (length pre + 2)%nat) →
  walk_answers m (length pre) 1 = Some (Some payload).
Proof.
  intros rdata Hlen Hptr Hm Hd. cbn [walk_answers]. rewrite Hd.
  rewrite (get_u16_at (pre ++ ptr) TYPE_TXT ((be_bytes 2 CLASS_IN ++ be_bytes 4 RESPONSE_TTL)
    ++ be_bytes 2 (zlen rdata) ++ rdata ++ tl));
    [|done|by rewrite Hm, <- !app_assoc|rewrite length_app, Hptr; done].
  rewrite (get_u16_at (pre ++ ptr ++ be_bytes 2 TYPE_TXT ++ be_bytes 2 CLASS_IN
    ++ be_bytes 4 RESPONSE_TTL) (zlen rdata) (rdata ++ tl));
    [|split; [apply zlen_nonneg|done]|by rewrite Hm, <- !app_assoc
     |rewrite !length_app, !length_be_bytes, Hptr; simpl; lia].
  assert (length m = length pre + 12 + length rdata + length tl)%nat as Hlm
    by (rewrite Hm, !length_app, !length_be_bytes, Hptr; simpl; lia).
  assert (Z.to_nat (zlen rdata) = length rdata) as -> by (unfold zlen; lia).
  rewrite (proj2 (Nat.ltb_ge _ _)) by lia. rewrite bool_decide_true by done.
  assert (take (length rdata) (drop (length pre + 2 + 10) m) = rdata) as ->.
  { rewrite Hm. rewrite (app_assoc pre), (app_assoc (_ ++ _)), (app_assoc (_ ++ _)), (app_assoc (_ ++ _)).
    rewrite drop_app_length'; [apply take_app_length|].
    rewrite !length_app, !length_be_bytes, Hptr. simpl. lia. }
  unfold rdata. by rewrite txt_rdata_strings.
Qed.

(** What [encode_response] lays out. *)
Lemma encode_response_shape id qname payload rd echo m :
  in_u16 id → ascii qname → encode_response id qname payload rd echo = Some m →
  ∃ h out tl, encode_name qname (Header_write h []) = Some out ∧ header_typed h ∧
    h_id h = id ∧ Z.land (h_flags h) FLAG_QR ≠ 0 ∧ h_qd h = 1 ∧ h_an h = 1 ∧
    m = (out ++ be_bytes 2 TYPE_TXT ++ be_bytes 2 CLASS_IN) ++ [xc0; x0c]
      ++ be_bytes 2 TYPE_TXT ++ (be_bytes 2 CLASS_IN ++ be_bytes 4 RESPONSE_TTL)
      ++ be_bytes 2 (zlen (txt_rdata payload)) ++ txt_rdata payload ++ tl ∧
    length tl = (if echo then 11%nat else 0%nat).
Proof.
  intros Hid Ha. unfold encode_response.
  set (flags := if rd then _ else _). set (h := mkHeader id flags 1 1 0 _).
  assert (in_u16 flags ∧ Z.land flags FLAG_QR ≠ 0) as [Hfl Hqr]
    by (unfold flags; destruct rd; split; vm_decide).
  assert (header_typed h) as Hh
    by (unfold header_typed, in_u16, u16_max in *; simpl; destruct echo; lia).
  destruct (encode_name qname (Header_write h [])) as [out|] eqn:He; [|done]. cbv zeta. intros Hm.
  exists h, out, (if echo then write_edns0_opt_response [] else []).
  split_and!; try done; [|by destruct echo].
  destruct echo; injection Hm as <-; unfold write_edns0_opt_response;
    rewrite ?app_nil_r, <- ?app_assoc; done.
Qed.

Lemma parse_encode_response id qname payload rd echo m :
  in_u16 id → ascii qname → zlen (txt_rdata payload) ≤ u16_max →
  encode_response id qname payload rd echo = Some m → parse_response m = Some (id, payload).
Proof.
  intros Hid Ha Hlen Hm.
  destruct (encode_response_shape _ _ _ _ _ _ Hid Ha Hm)
    as (h & out & tl & He & Hh & <- & Hqr & Hqd & Han & Hmt & _).
  destruct (encode_name_app _ _ _ Ha He) as (w & Hw & _).
  unfold parse_response. replace (Header_read m) with (Some h)
    by (rewrite Hmt, Hw, <- !app_assoc; symmetry; by apply Header_read_write).
  rewrite bool_decide_false, Hqd, Han by done.
  change (Z.to_nat 1) with 1%nat. cbn [skip_questions].
  assert (∃ tl', m = out ++ tl') as [tl' Htl'] by (rewrite Hmt, <- app_assoc; by eexists).
  pose proof (decode_encoded_name qname _ out _ m Ha He Htl') as Hd.
  rewrite length_Header_write in Hd. rewrite Hd.
  set (pre := out ++ be_bytes 2 TYPE_TXT ++ be_bytes 2 CLASS_IN) in *.
  replace (length out + 4)%nat with (length pre) by (unfold pre; rewrite !length_app, !length_be_bytes; lia).
  rewrite (walk_answers_txt m pre [xc0; x0c] (join DOT (name_labels qname)) payload tl); try done.
  apply (decode_pointer qname _ out tl' m (length pre) Ha He Htl').
  - rewrite length_Header_write. lia.
  - rewrite Hmt, lookup_app_r, Nat.sub_diag by lia. done.
  - rewrite Hmt, lookup_app_r by lia. replace (length pre + 1 - length pre)%nat with 1%nat by lia.
    unfold zlen. by rewrite length_Header_write.
Qed.

(** A tunnel response is read back. The client gets the transaction id and
    exactly the payload, for every payload whose TXT record fits the 16-bit
    record length, with or without the echoed EDNS0 record; the answer's name is
    reached through the compression pointer. *)
Theorem dns_response_roundtrip id qname payload rd echo m :
  in_u16 id → ascii qname → zlen (txt_rdata payload) ≤ u16_max →
  encode_response id qname payload rd echo = Some m → parse_response m = Some (id, payload).
Proof. apply parse_encode_response. Qed.

Definition demo_name : list byte := [x74; x2e; x65; x78; x61; x6d; x70; x6c; x65].

Lemma demo_name_wf : name_wf demo_name.
Proof.
  split; [|vm_compute; repeat constructor; discriminate].
  repeat constructor; vm_compute; discriminate.
Qed.

Lemma dns_query_roundtrip_witness :
  ∃ q, encode_query 7 [x00; x01; x02; x03; x04; x05; x06; x07] demo_name = Some q ∧
  parse_query q = Some (mkQuery 7 demo_name true true).
Proof.
  eexists. split; [vm_compute; reflexivity|].
  apply (dns_query_roundtrip 7 [x00; x01; x02; x03; x04; x05; x06; x07] demo_name);
    [vm_decide|apply demo_name_wf|vm_compute; reflexivity].
Defined.

Lemma dns_response_roundtrip_witness :
  ∃ m, encode_response 7 demo_name [x61; x62; x63] true true = Some m ∧
  parse_response m = Some (7, [x61; x62; x63]).
Proof.
  eexists. split; [vm_compute; reflexivity|].
  apply (dns_response_roundtrip 7 demo_name [x61; x62; x63] true true);
    [vm_decide|apply demo_name_wf|vm_decide|vm_compute; reflexivity].
Defined.
