(* ===== verification/DnsArq.v ===== *)
(** * ARQ packets of the DNS tunnel (crates/transport-dnstt/src/arq.rs)

    The packet both directions exchange, with its whitened header, its packing
    into a query name, and the payload budgets of both directions
    ([max_upstream_data] here, [downstream_mtu] of transport.rs). BLAKE3 and the
    random generator are parameters. *)

From stdpp Require Import base numbers list.
From Stdlib Require Import ZArith Lia Strings.Byte.
From S2P Require Import Prelude Bytes Text DnsBase32 DnsName DnsMsg.

Abbreviation FLAG_SYN := 1%Z (only parsing).
Abbreviation FLAG_FIN := 2%Z (only parsing).
Abbreviation HEADER_LEN := 13%nat (only parsing).
Abbreviation HEADER_NONCE_LEN := 3%nat (only parsing).

Record Packet : Type := mkPacket {
  session : Z; seq : Z; ack : Z; flags : Z; data : list byte;
}.

Definition packet_typed (p : Packet) : Prop :=
  in_u32 (session p) ∧ in_u32 (seq p) ∧ in_u32 (ack p) ∧ in_u8 (flags p).

Section arq.

(** BLAKE3, a function from messages to 32-byte digests. *)
Variable blake3 : list byte → list byte.

(** The bytes of the key-derivation label, [mirage-dnstt-hdr-v1]. *)
Definition HDR_LABEL : list byte :=
  [x6d; x69; x72; x61; x67; x65; x2d; x64; x6e; x73; x74; x74; x2d; x68; x64; x72; x2d; x76; x31].

Definition header_keystream (nonce : list byte) : list byte :=
  take HEADER_LEN (blake3 (HDR_LABEL ++ nonce)).

(** [rng]: the outcome of [getrandom::fill], [None] on failure. *)
Definition packet_nonce (rng : option (list byte)) (p : Packet) : list byte :=
  match rng with
  | Some nonce => nonce
  | None =>
    take HEADER_NONCE_LEN (be_bytes 4 (Z.lxor (Z.lxor (seq p) (ack p)) (session p)))
  end.

Definition Packet_encode (rng : option (list byte)) (p : Packet) : list byte :=
  let nonce := packet_nonce rng p in
  let ks := header_keystream nonce in
  let hdr := be_bytes 4 (session p) ++ be_bytes 4 (seq p) ++ be_bytes 4 (ack p)
             ++ [b8 (flags p)] in
  nonce ++ zip_with bxor hdr ks ++ data p.

Definition Packet_decode (buf : list byte) : option Packet :=
  if (length buf <? HEADER_NONCE_LEN + HEADER_LEN)%nat then None
  else
    let nonce := take HEADER_NONCE_LEN buf in
    let ks := header_keystream nonce in
    let hdr := zip_with bxor (take HEADER_LEN (drop HEADER_NONCE_LEN buf)) ks in
    let g4 i := be_val [at_ hdr i; at_ hdr (i + 1); at_ hdr (i + 2); at_ hdr (i + 3)] in
    Some (mkPacket (g4 0%nat) (g4 4%nat) (g4 8%nat) (u8 (at_ hdr 12))
            (drop (HEADER_NONCE_LEN + HEADER_LEN) buf)).

Definition to_query_name (rng : option (list byte)) (p : Packet) (tunnel_domain : list byte)
  : option (list byte) :=
  let b32 := base32_encode (Packet_encode rng p) in
  let labels := chunks 63 b32 in
  if negb (forallb utf8_valid labels) then None
  else
    let name := concat ((λ l, l ++ [DOT]) <$> labels) ++ trim_start DOT tunnel_domain in
    if bool_decide (zlen name + 2 > 253) then None else Some name.

Definition from_query_name (qname tunnel_domain : list byte) : option Packet :=
  let q := to_ascii_lowercase qname in
  let dom := to_ascii_lowercase (trim_start DOT tunnel_domain) in
  match strip_suffix dom q with
  | None => None
  | Some prefix =>
    let prefix := trim_end DOT prefix in
    let b32 := concat (filter (λ l, l ≠ []) (split_on DOT prefix)) in
    match base32_decode b32 with
    | None => None
    | Some raw => Packet_decode raw
    end
  end.

Definition max_upstream_data (tunnel_domain : list byte) : Z :=
  let dom := zlen (trim_start DOT tunnel_domain) in
  let avail := saturating_sub 253 (dom + 8) in
  let b32_chars := avail * 63 / 64 in
  let raw := b32_chars * 5 / 8 in
  saturating_sub raw (Z.of_nat HEADER_LEN).

Definition downstream_mtu (qname : list byte) : Z :=
  let name_wire :=
    foldr Z.add 0 ((λ l, zlen l + 1) <$> filter (λ l, l ≠ []) (split_on DOT qname)) + 1 in
  let overhead := 12 + name_wire + 4 + 12 + 11 + 6 in
  saturating_sub (saturating_sub 512 overhead) (Z.of_nat HEADER_LEN).

(** ** Packet round trip *)
Hypothesis blake3_len : ∀ m, length (blake3 m) = 32%nat.

Definition rng_ok (rng : option (list byte)) : Prop :=
  ∀ n, rng = Some n → length n = HEADER_NONCE_LEN.

Lemma length_packet_nonce rng p : rng_ok rng → length (packet_nonce rng p) = HEADER_NONCE_LEN.
Proof. intros H. destruct rng as [n|]; simpl; [by apply H|done]. Qed.

Lemma length_header_keystream n : length (header_keystream n) = HEADER_LEN.
Proof. unfold header_keystream. by rewrite length_take, blake3_len. Qed.

Lemma length_Packet_encode rng p :
  rng_ok rng → length (Packet_encode rng p) = (16 + length (data p))%nat.
Proof.
  intros Hr. unfold Packet_encode. rewrite !length_app, length_packet_nonce by done.
  rewrite length_zip_with, length_header_keystream, !length_app, !length_be_bytes. simpl. lia.
Qed.

Lemma zip_bxor_cancel a k :
  length a = length k → zip_with bxor (zip_with bxor a k) k = a.
Proof.
  revert k. induction a as [|x a IH]; intros [|y k] H; try done. simpl in *.
  rewrite bxor_cancel, IH by lia. done.
Qed.

Lemma Packet_decode_encode rng p :
  rng_ok rng → packet_typed p → Packet_decode (Packet_encode rng p) = Some p.
Proof.
  intros Hr (Hs & Hq & Ha & Hf). unfold Packet_decode.
  rewrite length_Packet_encode by done. rewrite (proj2 (Nat.ltb_ge _ _)) by lia.
  unfold Packet_encode. set (nonce := packet_nonce rng p).
  pose proof (length_packet_nonce rng p Hr) as Hn. fold nonce in Hn.
  set (hdr := be_bytes 4 (session p) ++ _). set (ks := header_keystream nonce).
  assert (length hdr = HEADER_LEN) as Hh by done.
  assert (length ks = HEADER_LEN) as Hk by apply length_header_keystream.
  assert (length (zip_with bxor hdr ks) = HEADER_LEN) as Hz by (rewrite length_zip_with; lia).
  rewrite take_app_length' by done. fold ks. rewrite drop_app_length' by done.
  rewrite take_app_length' by done. rewrite zip_bxor_cancel by lia.
  rewrite app_assoc, drop_app_length' by (rewrite length_app; lia).
  unfold hdr. rewrite !be_bytes_4. cbn [app at_ nth Nat.add]. rewrite <- !be_bytes_4.
  rewrite !be_u32_roundtrip, u8_b8_small by (done || (unfold in_u8, u8_max in Hf; lia)).
  by destruct p.
Qed.

(** ** Packing into a query name *)
Lemma chunks_spec {A} (n : nat) (l : list A) :
  (0 < n)%nat →
  concat (chunks n l) = l ∧ Forall (λ c, c ≠ [] ∧ (length c ≤ n)%nat) (chunks n l) ∧
  (n * length (chunks n l) < length l + n)%nat.
Proof.
  intros Hn. unfold chunks. assert (∀ fuel, (length l ≤ fuel)%nat →
    concat (chunks_loop fuel n l) = l ∧
    Forall (λ c, c ≠ [] ∧ (length c ≤ n)%nat) (chunks_loop fuel n l) ∧
    (n * length (chunks_loop fuel n l) < length l + n)%nat) as H; [|by apply H].
  intros fuel. revert l. induction fuel as [|fuel IH]; intros [|a l] Hf; simpl in Hf; try lia;
    try (simpl; split_and!; [done|constructor|lia]).
  cbn [chunks_loop concat length].
  destruct (IH (drop n (a :: l))) as (Hc & Hfa & Hl); [rewrite length_drop; simpl; lia|].
  split_and!.
  - by rewrite Hc, take_drop.
  - constructor; [|done]. rewrite length_take. split; [|lia].
    destruct n; [lia|done].
  - rewrite length_drop in Hl. simpl in *.
    destruct (decide (S (length l) ≤ n)%nat) as [Hle|Hgt]; [|lia].
    rewrite drop_ge in * by (simpl; lia). destruct fuel; simpl in *; lia.
Qed.

Lemma dotted_join ls :
  ls ≠ [] → concat ((λ l, l ++ [DOT]) <$> ls) = join DOT ls ++ [DOT].
Proof.
  induction ls as [|l ls IH]; [done|]. intros _. rewrite fmap_cons. cbn [concat].
  destruct ls as [|l' ls]; [apply app_nil_r|]. rewrite IH by done.
  cbn [join]. rewrite <- !app_assoc. done.
Qed.

Lemma b32_byte_facts c :
  b32_byte c → u8 c ≤ 127 ∧ c ≠ DOT ∧ to_ascii_lowercase_byte c = c.
Proof.
  unfold b32_byte, to_ascii_lowercase_byte, in_range. intros H.
  assert (97 ≤ u8 c ≤ 122 ∨ 50 ≤ u8 c ≤ 55) as Hr
    by (destruct H as [H|H]; apply bool_decide_eq_true in H; lia).
  split_and!; [lia| |by rewrite bool_decide_false by lia].
  intros ->. change (u8 DOT) with 46 in Hr. lia.
Qed.

Lemma lowercase_idem l : to_ascii_lowercase (to_ascii_lowercase l) = to_ascii_lowercase l.
Proof.
  unfold to_ascii_lowercase. rewrite <- list_fmap_compose. apply list_fmap_ext.
  intros _ b _. unfold compose, to_ascii_lowercase_byte, in_range.
  destruct (bool_decide_reflect (65 ≤ u8 b ≤ 90)) as [H|H].
  - rewrite bool_decide_false; [done|]. rewrite u8_b8_small by lia. lia.
  - by rewrite bool_decide_false.
Qed.

Lemma lowercase_id l : Forall (λ c, to_ascii_lowercase_byte c = c) l → to_ascii_lowercase l = l.
Proof.
  induction 1 as [|c l Hc Hl IH]; [done|]. unfold to_ascii_lowercase in *.
  by rewrite fmap_cons, Hc, IH.
Qed.

(** A tunnel domain the name codec accepts: ASCII, no empty label, labels of at
    most 63 bytes (leading dots are trimmed). *)
Definition domain_ok (dom : list byte) : Prop :=
  name_wf (trim_start DOT dom) ∧
  Forall (λ l, (length l ≤ MAX_LABEL)%nat) (split_on DOT (trim_start DOT dom)).

Section name.
Context (rng : option (list byte)) (Hr : rng_ok rng) (p : Packet) (dom : list byte).
Context (Hd : domain_ok dom).

Abbreviation b32 := (base32_encode (Packet_encode rng p)).
Abbreviation labels := (chunks 63 b32).

Lemma labels_facts :
  concat labels = b32 ∧ labels ≠ [] ∧ Forall (λ l, l ≠ []) labels ∧
  Forall (λ l, (length l ≤ MAX_LABEL)%nat) labels ∧ Forall (Forall b32_byte) labels ∧
  (63 * length labels < length b32 + 63)%nat.
Proof.
  destruct (chunks_spec 63 b32 ltac:(lia)) as (Hc & Hl & Hn).
  pose proof (base32_encode_bytes (Packet_encode rng p)) as Hb.
  pose proof (length_base32_encode (Packet_encode rng p)) as [_ Hlen].
  rewrite length_Packet_encode in Hlen by done.
  split_and!; [done| |..|done].
  - intros E. rewrite E in Hc. simpl in Hc. rewrite <- Hc in Hlen. simpl in Hlen. lia.
  - eapply Forall_impl; [exact Hl|]. by intros l [? ?].
  - eapply Forall_impl; [exact Hl|]. by intros l [? ?].
  - rewrite <- Hc in Hb. by apply Forall_concat.
Qed.

Lemma labels_ascii : Forall ascii labels.
Proof.
  destruct labels_facts as (_ & _ & _ & _ & Hb & _). eapply Forall_impl; [exact Hb|].
  intros l Hl. eapply Forall_impl; [exact Hl|]. intros c Hc. by apply b32_byte_facts.
Qed.

Lemma labels_nodot : Forall (Forall (λ b, b ≠ DOT)) labels.
Proof.
  destruct labels_facts as (_ & _ & _ & _ & Hb & _). eapply Forall_impl; [exact Hb|].
  intros l Hl. eapply Forall_impl; [exact Hl|]. intros c Hc. by apply b32_byte_facts.
Qed.

Abbreviation qname := (concat ((λ l, l ++ [DOT]) <$> labels) ++ trim_start DOT dom).

Lemma to_query_name_eq :
  to_query_name rng p dom = if bool_decide (zlen qname + 2 > 253) then None else Some qname.
Proof.
  unfold to_query_name. assert (forallb utf8_valid labels = true) as ->; [|done].
  apply Is_true_eq_true, forallb_True. eapply Forall_impl; [exact labels_ascii|].
  intros l Hl. by rewrite ascii_utf8_valid.
Qed.

Lemma qname_wf : name_wf qname ∧ Forall (λ l, (length l ≤ MAX_LABEL)%nat) (split_on DOT qname).
Proof.
  destruct Hd as [[Ha Hne] Hl]. destruct labels_facts as (_ & _ & Hlne & Hll & _ & _).
  unfold name_wf. rewrite split_on_dotted by apply labels_nodot.
  split; [split|]; try by apply Forall_app_2. apply Forall_app_2; [|done].
  apply Forall_concat, Forall_fmap. eapply Forall_impl; [exact labels_ascii|].
  intros l Hla. apply Forall_app_2; [done|]. by constructor; [vm_compute|].
Qed.

Lemma from_qname : from_query_name (to_ascii_lowercase qname) dom = Packet_decode (Packet_encode rng p).
Proof.
  unfold from_query_name. rewrite lowercase_idem. destruct labels_facts as (Hc & Hne & Hlne & _ & Hb & _).
  assert (to_ascii_lowercase qname
    = concat ((λ l, l ++ [DOT]) <$> labels) ++ to_ascii_lowercase (trim_start DOT dom)) as ->.
  { unfold to_ascii_lowercase at 1. rewrite fmap_app. f_equal. apply lowercase_id.
    apply Forall_concat, Forall_fmap. eapply Forall_impl; [exact Hb|].
    intros l Hl. apply Forall_app_2; [|by constructor].
    eapply Forall_impl; [exact Hl|]. intros c Hcc. by apply b32_byte_facts. }
  rewrite strip_suffix_app, dotted_join by done.
  assert (split_on DOT (join DOT labels) = labels) as Hsp by (by apply split_on_join, labels_nodot).
  rewrite trim_end_snoc, Hsp.
  - replace (filter _ labels) with labels; [by rewrite Hc, base32_decode_encode|].
    clear -Hlne. induction Hlne as [|l ls Hl Hls IH]; [done|]. by rewrite filter_cons_True, <- IH.
  - intros Hlast. apply last_Some in Hlast as [l' Hl']. rewrite Hl' in Hsp.
    assert (labels = split_on DOT l' ++ [[]]) as Hbad.
    { rewrite <- Hsp. clear. induction l' as [|b l' IH]; simpl; [done|].
      case_bool_decide; [by rewrite IH|]. rewrite IH. pose proof (split_on_nonnil DOT l').
      by destruct (split_on DOT l'). }
    rewrite Hbad in Hlne. apply Forall_app in Hlne as [_ Hlne]. by inversion Hlne.
Qed.
End name.

Lemma length_dotted (ls : list (list byte)) :
  length (concat ((λ l, l ++ [DOT]) <$> ls)) = (length (concat ls) + length ls)%nat.
Proof.
  induction ls as [|l ls IH]; [done|]. rewrite fmap_cons. cbn [concat]. rewrite !length_app, IH.
  simpl. lia.
Qed.

(** The budget [max_upstream_data] leaves room for the packet. *)
Lemma upstream_fits rng p dom :
  rng_ok rng → zlen (data p) ≤ max_upstream_data dom → 0 < max_upstream_data dom →
  zlen (concat ((λ l, l ++ [DOT]) <$> chunks 63 (base32_encode (Packet_encode rng p)))
        ++ trim_start DOT dom) + 2 ≤ 253.
Proof.
  intros Hr Hle Hpos. destruct (labels_facts rng Hr p) as (Hc & _ & _ & _ & _ & Hk).
  pose proof (length_base32_encode (Packet_encode rng p)) as [Hb _].
  rewrite length_Packet_encode in Hb by done.
  rewrite zlen_app. unfold zlen at 1. rewrite length_dotted, Hc.
  unfold max_upstream_data, saturating_sub in *. unfold zlen in *.
  set (d := Z.of_nat (length (trim_start DOT dom))) in *. clearbody d.
  set (c := length (base32_encode (Packet_encode rng p))) in *. clearbody c.
  set (k := length (chunks 63 _)) in *. clearbody k.
  set (n := length (data p)) in *. clearbody n. clear Hc Hr.
  pose proof (Z.div_mod (Z.max (253 - (d + 8)) 0 * 63) 64 ltac:(lia)).
  pose proof (Z.mod_pos_bound (Z.max (253 - (d + 8)) 0 * 63) 64 ltac:(lia)).
  set (b := Z.max (253 - (d + 8)) 0 * 63 / 64) in *. clearbody b.
  pose proof (Z.div_mod (b * 5) 8 ltac:(lia)). pose proof (Z.mod_pos_bound (b * 5) 8 ltac:(lia)).
  set (raw := b * 5 / 8) in *. clearbody raw. lia.
Qed.

Lemma upstream_delivery rng p dom id cookie :
  rng_ok rng → packet_typed p → domain_ok dom → in_u16 id →
  zlen (data p) ≤ max_upstream_data dom → 0 < max_upstream_data dom →
  ∃ name q, to_query_name rng p dom = Some name ∧ encode_query id cookie name = Some q ∧
    parse_query q = Some (mkQuery id (to_ascii_lowercase name) true true) ∧
    from_query_name (to_ascii_lowercase name) dom = Some p ∧
    name_wf name ∧ Forall (λ l, (length l ≤ MAX_LABEL)%nat) (split_on DOT name) ∧
    zlen name + 2 ≤ 253.
Proof.
  intros Hr Hp Hd Hid Hle Hpos. pose proof (upstream_fits rng p dom Hr Hle Hpos) as Hfit.
  destruct (qname_wf rng Hr p dom Hd) as [Hw Hl].
  eexists. rewrite to_query_name_eq, bool_decide_false by (done || lia).
  set (name := concat _ ++ _) in *.
  destruct (encode_name_total name (Header_write (mkHeader id 256 1 0 0 1) []) Hw Hl) as [out Ho].
  { unfold zlen in Hfit. lia. }
  assert (∃ q, encode_query id cookie name = Some q) as [q Hq]
    by (unfold encode_query; rewrite Ho; by eexists).
  exists q. split_and!; [done|done| | |done..].
  - rewrite (parse_encode_query id cookie name q Hid (proj1 Hw) Hq). by rewrite name_wf_join.
  - unfold name. rewrite from_qname by done. by apply Packet_decode_encode.
Qed.

(** Upstream end to end. For a well-formed tunnel domain and a payload
    within [max_upstream_data], packing a packet into a query name succeeds, the
    query can be built, and the server that parses the query and unpacks its
    name has exactly the client's packet. Random bytes, cookie and transaction
    id are arbitrary. *)
Theorem dns_upstream_delivery rng p dom id cookie :
  rng_ok rng → packet_typed p → domain_ok dom → in_u16 id →
  zlen (data p) ≤ max_upstream_data dom → 0 < max_upstream_data dom →
  ∃ name q query, to_query_name rng p dom = Some name ∧ encode_query id cookie name = Some q ∧
    parse_query q = Some query ∧ from_query_name (q_name query) dom = Some p.
Proof.
  intros Hr Hp Hd Hid Hle Hpos.
  destruct (upstream_delivery rng p dom id cookie Hr Hp Hd Hid Hle Hpos)
    as (name & q & ? & ? & ? & ? & _).
  by exists name, q, (mkQuery id (to_ascii_lowercase name) true true).
Qed.

(** ** Downstream *)
Lemma foldr_wire ls :
  foldr Z.add 0 ((λ l : list byte, zlen l + 1) <$> ls) = zlen (wire_labels ls).
Proof.
  induction ls as [|l ls IH]; [done|]. rewrite fmap_cons, wire_labels_cons. cbn [foldr].
  rewrite IH. autorewrite with mirage. lia.
Qed.

Lemma length_txt_rdata payload :
  (length (txt_rdata payload) ≤ length payload + length payload / 255 + 1)%nat.
Proof.
  destruct payload as [|b payload]; [simpl; lia|]. unfold txt_rdata.
  destruct (chunks_spec MAX_TXT_CHUNK (b :: payload) ltac:(lia)) as (Hc & _ & Hn).
  set (l := b :: payload) in *. clearbody l.
  assert (∀ ls : list (list byte), length (concat ((λ c, b8 (zlen c) :: c) <$> ls))
    = (length (concat ls) + length ls)%nat) as Hl.
  { intros ls. induction ls as [|x ls IH]; [done|]. rewrite fmap_cons. cbn [concat app].
    simpl length. rewrite !length_app, IH. lia. }
  rewrite Hl, Hc.
  assert (length (chunks 255 l) ≤ length l / 255 + 1)%nat; [|lia].
  pose proof (Nat.div_mod (length l) 255 ltac:(lia)).
  pose proof (Nat.mod_upper_bound (length l) 255 ltac:(lia)). nia.
Qed.

Lemma downstream_delivery rng p qname id rd echo m :
  rng_ok rng → packet_typed p → ascii qname → in_u16 id →
  zlen (data p) ≤ downstream_mtu qname →
  encode_response id qname (Packet_encode rng p) rd echo = Some m →
  (∃ payload, parse_response m = Some (id, payload) ∧ Packet_decode payload = Some p) ∧
  zlen m ≤ 512.
Proof.
  intros Hr Hp Ha Hid Hle Hm. pose proof (length_txt_rdata (Packet_encode rng p)) as Ht.
  pose proof (length_Packet_encode rng p Hr) as Hpe. rewrite Hpe in Ht.
  unfold downstream_mtu in *. rewrite foldr_wire in *. fold (name_labels qname) in *.
  pose proof (zlen_nonneg (wire_labels (name_labels qname))) as Hw.
  unfold saturating_sub in *.
  pose proof (Nat.div_mod (16 + length (data p)) 255 ltac:(lia)).
  pose proof (Nat.mod_upper_bound (16 + length (data p)) 255 ltac:(lia)).
  split.
  - exists (Packet_encode rng p). split; [|by apply Packet_decode_encode].
    eapply parse_encode_response; [done|done| |done]. unfold u16_max, zlen in *. nia.
  - destruct (encode_response_shape _ _ _ _ _ _ Hid Ha Hm)
      as (h & out & tl & He & _ & _ & _ & _ & _ & -> & Htl).
    destruct (encode_name_spec _ _ _ Ha He) as (-> & _ & Hlt).
    unfold zlen in *. rewrite !length_app, !length_be_bytes, length_Header_write, Htl.
    assert (16 + length (data p) < 510)%nat as Hsmall by lia.
    assert ((16 + length (data p)) / 255 ≤ 1)%nat by nia.
    simpl length. destruct echo; lia.
Qed.

(** Downstream end to end. The response to a query carries exactly the
    server's packet back to the client, and with a payload within
    [downstream_mtu] the whole message stays within 512 bytes, the limit of
    plain DNS over UDP. *)
Theorem dns_downstream_delivery rng p qname id rd echo m :
  rng_ok rng → packet_typed p → ascii qname → in_u16 id →
  zlen (data p) ≤ downstream_mtu qname →
  encode_response id qname (Packet_encode rng p) rd echo = Some m →
  (∃ payload, parse_response m = Some (id, payload) ∧ Packet_decode payload = Some p) ∧
  zlen m ≤ 512.
Proof. apply downstream_delivery. Qed.
End arq.

(** ** A concrete exchange, with a stand-in for the digest *)
Definition demo_digest (m : list byte) : list byte := take 32 (m ++ replicate 32 x5a).

Lemma demo_digest_len m : length (demo_digest m) = 32%nat.
Proof. unfold demo_digest. rewrite length_take, length_app, length_replicate. lia. Qed.

Definition demo_packet : Packet := mkPacket 0xdeadbeef 1000 500 1 [x68; x65; x6c; x6c; x6f].

Lemma demo_domain_ok : domain_ok demo_name.
Proof. split; [apply demo_name_wf|]. repeat constructor; vm_compute; lia. Qed.

Lemma demo_rng_ok : rng_ok (Some [x01; x02; x03]).
Proof. by intros n [= <-]. Qed.

Lemma dns_upstream_delivery_witness :
  ∃ name q query, to_query_name demo_digest (Some [x01; x02; x03]) demo_packet demo_name = Some name ∧
    encode_query 7 (replicate 8 x00) name = Some q ∧
    parse_query q = Some query ∧ from_query_name demo_digest (q_name query) demo_name = Some demo_packet.
Proof.
  apply (dns_upstream_delivery demo_digest demo_digest_len);
    [apply demo_rng_ok|split_and!; vm_decide|apply demo_domain_ok|vm_decide..].
Defined.

Lemma dns_downstream_delivery_witness :
  ∃ m, encode_response 7 demo_name (Packet_encode demo_digest None demo_packet) true true = Some m ∧
  (∃ payload, parse_response m = Some (7, payload) ∧
     Packet_decode demo_digest payload = Some demo_packet) ∧
  zlen m ≤ 512.
Proof.
  eexists. split; [vm_compute; reflexivity|].
  apply (dns_downstream_delivery demo_digest demo_digest_len None demo_packet demo_name 7 true true);
    [done|split_and!; vm_decide|apply demo_name_wf|vm_decide|vm_decide|vm_compute; reflexivity].
Defined.
