(* ===== verification/DnsStream.v ===== *)
(** * The reliable stream of the DNS tunnel (crates/transport-dnstt/src/stream.rs)

    [ReliableEndpoint] with all its operations: a byte-offset sequence space,
    cumulative acknowledgements and a bounded reassembly buffer. *)

From stdpp Require Import base numbers list gmap.
From Stdlib Require Import ZArith Lia Strings.Byte.
From S2P Require Import Prelude Bytes DnsArq.

Abbreviation MAX_REORDER_SEGS := 1024 (only parsing).
Abbreviation MAX_REORDER_AHEAD := (2 ^ 20) (only parsing).

Record ReliableEndpoint : Type := mkEndpoint {
  ep_session : Z;
  is_client : bool;
  send_stream : list byte;
  send_base : Z;
  fin_queued : bool;
  fin_sent : bool;
  recv_next : Z;
  reorder : gmap Z (list byte);
  delivered : list byte;
  peer_fin_at : option Z;
  peer_syn : bool;
  announce_syn : bool;
}.

(** Field assignments. *)
Definition set_send (l : list byte) (b : Z) (e : ReliableEndpoint) : ReliableEndpoint :=
  mkEndpoint (ep_session e) (is_client e) l b (fin_queued e) (fin_sent e) (recv_next e)
    (reorder e) (delivered e) (peer_fin_at e) (peer_syn e) (announce_syn e).
Definition set_fin_queued (b : bool) (e : ReliableEndpoint) : ReliableEndpoint :=
  mkEndpoint (ep_session e) (is_client e) (send_stream e) (send_base e) b (fin_sent e)
    (recv_next e) (reorder e) (delivered e) (peer_fin_at e) (peer_syn e) (announce_syn e).
Definition set_fin_sent (b : bool) (e : ReliableEndpoint) : ReliableEndpoint :=
  mkEndpoint (ep_session e) (is_client e) (send_stream e) (send_base e) (fin_queued e) b
    (recv_next e) (reorder e) (delivered e) (peer_fin_at e) (peer_syn e) (announce_syn e).
Definition set_recv (n : Z) (m : gmap Z (list byte)) (d : list byte) (e : ReliableEndpoint)
  : ReliableEndpoint :=
  mkEndpoint (ep_session e) (is_client e) (send_stream e) (send_base e) (fin_queued e)
    (fin_sent e) n m d (peer_fin_at e) (peer_syn e) (announce_syn e).
Definition set_peer_fin (o : option Z) (e : ReliableEndpoint) : ReliableEndpoint :=
  mkEndpoint (ep_session e) (is_client e) (send_stream e) (send_base e) (fin_queued e)
    (fin_sent e) (recv_next e) (reorder e) (delivered e) o (peer_syn e) (announce_syn e).
Definition set_peer_syn (b : bool) (e : ReliableEndpoint) : ReliableEndpoint :=
  mkEndpoint (ep_session e) (is_client e) (send_stream e) (send_base e) (fin_queued e)
    (fin_sent e) (recv_next e) (reorder e) (delivered e) (peer_fin_at e) b (announce_syn e).
Definition set_announce (b : bool) (e : ReliableEndpoint) : ReliableEndpoint :=
  mkEndpoint (ep_session e) (is_client e) (send_stream e) (send_base e) (fin_queued e)
    (fin_sent e) (recv_next e) (reorder e) (delivered e) (peer_fin_at e) (peer_syn e) b.

Definition ReliableEndpoint_new (session : Z) (client : bool) : ReliableEndpoint :=
  mkEndpoint session client [] 0 false false 0 ∅ [] None false client.

Definition write (d : list byte) (e : ReliableEndpoint) : ReliableEndpoint :=
  set_send (send_stream e ++ d) (send_base e) e.

Definition close (e : ReliableEndpoint) : ReliableEndpoint := set_fin_queued true e.

Definition peer_finished (e : ReliableEndpoint) : bool :=
  match peer_fin_at e with
  | Some at_off => bool_decide (recv_next e >= at_off)
  | None => false
  end.

Definition take_delivered (e : ReliableEndpoint) : ReliableEndpoint * list byte :=
  (set_recv (recv_next e) (reorder e) [] e, delivered e).

Definition build_packet (max_data : Z) (e : ReliableEndpoint) : ReliableEndpoint * Packet :=
  let n := Z.min (zlen (send_stream e)) max_data in
  let payload := take (Z.to_nat n) (send_stream e) in
  let flags := 0 in
  let flags := if announce_syn e then Z.lor flags FLAG_SYN else flags in
  let fin := fin_queued e && bool_decide (n = zlen (send_stream e)) in
  let flags := if fin then Z.lor flags FLAG_FIN else flags in
  let e' := if fin then set_fin_sent true e else e in
  (e', mkPacket (ep_session e) (send_base e) (recv_next e) flags payload).

(** [while let Some(seg) = self.reorder.remove(&self.recv_next) { .. }], run at
    most once per buffered segment. *)
Fixpoint drain_reorder (fuel : nat) (n : Z) (m : gmap Z (list byte)) (d : list byte)
  : Z * gmap Z (list byte) * list byte :=
  match fuel with
  | O => (n, m, d)
  | S fuel =>
    match m !! n with
    | None => (n, m, d)
    | Some seg => drain_reorder fuel (wrapping_add_u32 n (zlen seg)) (delete n m) (d ++ seg)
    end
  end.

Definition accept_data (sq : Z) (d : list byte) (e : ReliableEndpoint) : ReliableEndpoint :=
  if bool_decide (sq = recv_next e) then
    let dl := delivered e ++ d in
    let n := wrapping_add_u32 (recv_next e) (wrap_u32 (zlen d)) in
    let '(n, m, dl) := drain_reorder (size (reorder e)) n (reorder e) dl in
    set_recv n m dl e
  else if bool_decide (sq > recv_next e) then
    if bool_decide (wrapping_sub_u32 sq (recv_next e) > MAX_REORDER_AHEAD) then e
    else match reorder e !! sq with
    | Some existing =>
      if bool_decide (zlen d > zlen existing)
      then set_recv (recv_next e) (<[sq := d]> (reorder e)) (delivered e) e
      else e
    | None =>
      if bool_decide (Z.of_nat (size (reorder e)) < MAX_REORDER_SEGS)
      then set_recv (recv_next e) (<[sq := d]> (reorder e)) (delivered e) e
      else e
    end
  else e.

Definition on_packet (pkt : Packet) (e : ReliableEndpoint) : ReliableEndpoint :=
  let e := if is_client e then set_announce false e else e in
  let e := if bool_decide (Z.land (flags pkt) FLAG_SYN ≠ 0) then set_peer_syn true e else e in
  let e :=
    if bool_decide (ack pkt > send_base e) then
      let acked := Z.min (ack pkt - send_base e) (zlen (send_stream e)) in
      set_send (drop (Z.to_nat acked) (send_stream e)) (send_base e + acked) e
    else e in
  let e := if bool_decide (data pkt ≠ []) then accept_data (seq pkt) (data pkt) e else e in
  if bool_decide (Z.land (flags pkt) FLAG_FIN ≠ 0)
  then set_peer_fin (Some (wrapping_add_u32 (seq pkt) (wrap_u32 (zlen (data pkt))))) e
  else e.

(** ** The drain loop *)

(** The loop has run to its end: no buffered segment continues the stream. *)
Lemma drain_reorder_done fuel n m d n' m' d' :
  (size m ≤ fuel)%nat → drain_reorder fuel n m d = (n', m', d') → m' !! n' = None.
Proof.
  revert n m d. induction fuel as [|fuel IH]; intros n m d Hf; cbn [drain_reorder].
  - intros [= <- <- <-]. rewrite (map_size_empty_inv m) by lia. apply lookup_empty.
  - destruct (m !! n) as [seg|] eqn:E; [|by intros [= <- <- <-]]. apply IH.
    rewrite map_size_delete_Some by (by eexists). lia.
Qed.

Lemma drain_reorder_size fuel n m d n' m' d' :
  drain_reorder fuel n m d = (n', m', d') → (size m' ≤ size m)%nat.
Proof.
  revert n m d. induction fuel as [|fuel IH]; intros n m d; cbn [drain_reorder].
  - by intros [= <- <- <-].
  - destruct (m !! n) as [seg|] eqn:E; [|by intros [= <- <- <-]]. intros H%IH.
    rewrite map_size_delete_Some in H by (by eexists). lia.
Qed.

(** ** Robustness against arbitrary packets *)
Record ep_ok (e : ReliableEndpoint) : Prop := {
  eo_base : in_u32 (send_base e);
  eo_next : in_u32 (recv_next e);
  eo_size : Z.of_nat (size (reorder e)) ≤ MAX_REORDER_SEGS;
  eo_gap : reorder e !! recv_next e = None;
}.

Inductive ep_op : Type :=
| EpWrite (d : list byte)
| EpClose
| EpTake
| EpBuild (max_data : Z)
| EpPacket (pkt : Packet).

Definition ep_exec (op : ep_op) (e : ReliableEndpoint) : ReliableEndpoint :=
  match op with
  | EpWrite d => write d e
  | EpClose => close e
  | EpTake => (take_delivered e).1
  | EpBuild n => (build_packet n e).1
  | EpPacket pkt => on_packet pkt e
  end.

Lemma wrap_u32_range z : in_u32 (wrap_u32 z).
Proof.
  unfold in_u32, wrap_u32, u32_max. pose proof (Z.mod_pos_bound z (4294967295 + 1) ltac:(lia)). lia.
Qed.

Lemma drain_reorder_range fuel n m d n' m' d' :
  in_u32 n → drain_reorder fuel n m d = (n', m', d') → in_u32 n'.
Proof.
  revert n m d. induction fuel as [|fuel IH]; intros n m d Hn; cbn [drain_reorder].
  - by intros [= <- <- <-].
  - destruct (m !! n) as [seg|]; [|by intros [= <- <- <-]]. apply IH, wrap_u32_range.
Qed.

Lemma accept_data_ok sq d e : in_u32 sq → ep_ok e → ep_ok (accept_data sq d e).
Proof.
  intros Hsq []. unfold accept_data. case_bool_decide.
  - destruct (drain_reorder _ _ _ _) as [[n m] dl] eqn:E.
    split; simpl; [done|by eapply drain_reorder_range; [apply wrap_u32_range|exact E]| |].
    + apply drain_reorder_size in E. lia.
    + by eapply drain_reorder_done; [|exact E].
  - case_bool_decide; [|done]. case_bool_decide; [done|].
    destruct (reorder e !! sq) as [ex|] eqn:E.
    + case_bool_decide; [|done]. split; simpl; [done|done| |by rewrite lookup_insert_ne by lia].
      rewrite map_size_insert_Some; [done|by eexists].
    + case_bool_decide as Hs; [|done].
      split; simpl; [done|done| |by rewrite lookup_insert_ne by lia].
      rewrite map_size_insert_None by done. lia.
Qed.

Lemma ep_exec_ok op e :
  (∀ pkt, op = EpPacket pkt → packet_typed pkt) → ep_ok e → ep_ok (ep_exec op e).
Proof.
  intros Ht Hok. pose proof Hok as []. destruct op as [d| | |n|pkt]; simpl; try by split.
  - unfold build_packet. simpl. by destruct (_ && _).
  - destruct (Ht pkt eq_refl) as (_ & Hsq & Hack & _). unfold on_packet.
    set (e1 := if is_client e then _ else _).
    assert (ep_ok e1) as H1 by (unfold e1; destruct (is_client e); by split).
    set (e2 := if bool_decide (Z.land _ FLAG_SYN ≠ 0) then _ else _).
    assert (ep_ok e2) as H2 by (unfold e2; case_bool_decide; [destruct H1; by split|done]).
    set (e3 := if bool_decide (ack pkt > send_base e2) then _ else _).
    assert (ep_ok e3) as H3.
    { unfold e3. case_bool_decide; [|done]. destruct H2. split; simpl; try done.
      pose proof (zlen_nonneg (send_stream e2)). unfold in_u32 in *. lia. }
    set (e4 := if bool_decide (data pkt ≠ []) then _ else _).
    assert (ep_ok e4) as H4 by (unfold e4; case_bool_decide; [by apply accept_data_ok|done]).
    case_bool_decide; [|done]. destruct H4. by split.
Qed.

(** An endpoint survives any peer. Whatever packets arrive, forged or not,
    and whatever the application does in between, the reassembly buffer never
    holds more than 1024 segments, both offsets stay 32-bit values, and the loop
    that drains the buffer has really run to its end: no buffered segment that
    continues the stream is left behind. *)
Theorem endpoint_robust session client ops :
  Forall (λ op, ∀ pkt, op = EpPacket pkt → packet_typed pkt) ops →
  ep_ok (foldl (λ e op, ep_exec op e) (ReliableEndpoint_new session client) ops).
Proof.
  intros Hops. assert (ep_ok (ReliableEndpoint_new session client)) as Hnew by (by split).
  revert Hnew. generalize (ReliableEndpoint_new session client).
  induction Hops as [|op ops Hop Hops IH]; intros e He; simpl; [done|].
  by apply IH, ep_exec_ok.
Qed.

Lemma endpoint_robust_witness :
  let ops := [EpPacket (mkPacket 1 5 0 0 [x61]); EpPacket (mkPacket 1 0 9 3 [x62; x63])] in
  ep_ok (foldl (λ e op, ep_exec op e) (ReliableEndpoint_new 7 true) ops).
Proof.
  apply (endpoint_robust 7 true).
  constructor; [|constructor; [|constructor]]; intros pkt [= <-]; split_and!; vm_decide.
Defined.
