(* ===== verification/DnsLink.v ===== *)
(** * Two tunnel endpoints over a lossy network

    Two [ReliableEndpoint]s exchange packets through a network that may lose,
    delay, reorder and duplicate them: any packet ever sent can be delivered at
    any later time, any number of times, or never. The stream is then safe, a
    finished stream is complete, and every undisturbed exchange makes progress.
    Stream lengths are limited to the 32-bit offset space; what happens beyond
    it is the last section. *)

From stdpp Require Import base numbers list gmap.
From Stdlib Require Import ZArith Lia Strings.Byte.
From S2P Require Import Prelude Bytes DnsArq DnsStream.

(** ** What [on_packet] changes *)
Lemma accept_data_send sq d e :
  send_stream (accept_data sq d e) = send_stream e ∧ send_base (accept_data sq d e) = send_base e ∧
  fin_queued (accept_data sq d e) = fin_queued e ∧ peer_fin_at (accept_data sq d e) = peer_fin_at e.
Proof.
  unfold accept_data. destruct (drain_reorder _ _ _ _) as [[n m] dl]. repeat case_match; done.
Qed.

(** The receive half after [accept_data] depends on the receive half only. *)
Definition recv_half (e : ReliableEndpoint) : Z * gmap Z (list byte) * list byte :=
  (recv_next e, reorder e, delivered e).

Lemma accept_data_half sq d e e' :
  recv_half e = recv_half e' → recv_half (accept_data sq d e) = recv_half (accept_data sq d e').
Proof.
  intros H. injection H as H1 H2 H3. unfold recv_half, accept_data. rewrite H1, H2, H3.
  destruct (drain_reorder _ _ _ _) as [[n m] dl]. repeat case_match; simpl; congruence.
Qed.

Lemma on_packet_spec pkt e :
  let e' := on_packet pkt e in
  let acked := Z.max 0 (Z.min (ack pkt - send_base e) (zlen (send_stream e))) in
  send_base e' = send_base e + acked ∧
  send_stream e' = drop (Z.to_nat acked) (send_stream e) ∧
  fin_queued e' = fin_queued e ∧
  recv_half e' = (if bool_decide (data pkt ≠ []) then recv_half (accept_data (seq pkt) (data pkt) e)
                  else recv_half e) ∧
  peer_fin_at e' = (if bool_decide (Z.land (flags pkt) FLAG_FIN ≠ 0)
                    then Some (wrapping_add_u32 (seq pkt) (wrap_u32 (zlen (data pkt))))
                    else peer_fin_at e).
Proof.
  cbv zeta. unfold on_packet.
  set (e1 := if is_client e then _ else _). set (e2 := if bool_decide (Z.land _ FLAG_SYN ≠ 0) then _ else _).
  assert (send_base e2 = send_base e ∧ send_stream e2 = send_stream e ∧ fin_queued e2 = fin_queued e
    ∧ recv_half e2 = recv_half e ∧ peer_fin_at e2 = peer_fin_at e) as (Hb & Hs & Hf & Hr & Hp)
    by (unfold e2, e1; destruct (is_client e); case_bool_decide; done).
  clearbody e2. clear e1. rewrite <- Hb, <- Hs, <- Hf, <- Hp.
  set (e3 := if bool_decide (ack pkt > send_base e2) then _ else _).
  assert (send_base e3 = send_base e2 + Z.max 0 (Z.min (ack pkt - send_base e2) (zlen (send_stream e2)))
    ∧ send_stream e3 = drop (Z.to_nat (Z.max 0 (Z.min (ack pkt - send_base e2) (zlen (send_stream e2)))))
        (send_stream e2)
    ∧ fin_queued e3 = fin_queued e2 ∧ recv_half e3 = recv_half e2 ∧ peer_fin_at e3 = peer_fin_at e2)
    as (Hb3 & Hs3 & Hf3 & Hr3 & Hp3).
  { pose proof (zlen_nonneg (send_stream e2)). unfold e3. case_bool_decide; simpl.
    - split_and!; try done; [lia|]. f_equal. lia.
    - rewrite Z.max_l by lia. split_and!; try done. lia. }
  clearbody e3. rewrite <- Hb3, <- Hs3, <- Hf3, <- Hp3.
  destruct (accept_data_send (seq pkt) (data pkt) e3) as (Ha1 & Ha2 & Ha3 & Ha4).
  rewrite (accept_data_half _ _ e e3) by congruence. rewrite <- Hr, <- Hr3.
  case_bool_decide; case_bool_decide; done.
Qed.

(** A segment the stream already covers, or exactly continues. *)
Lemma accept_data_honest sq d e :
  reorder e = ∅ → sq ≤ recv_next e → 0 ≤ recv_next e → sq + zlen d ≤ u32_max → 0 ≤ sq →
  recv_half (accept_data sq d e) =
    if bool_decide (sq = recv_next e) then (recv_next e + zlen d, ∅, delivered e ++ d)
    else recv_half e.
Proof.
  intros Hr Hle H0 Hb Hs. pose proof (zlen_nonneg d). unfold accept_data.
  case_bool_decide as Heq.
  - rewrite Hr, map_size_empty. cbn [drain_reorder]. unfold recv_half. simpl.
    unfold wrapping_add_u32, wrap_u32, u32_max in *.
    rewrite (Z.mod_small (zlen d)), Z.mod_small by lia. done.
  - rewrite bool_decide_false by lia. done.
Qed.

(** ** Sides and steps *)

(** An endpoint with what its application wrote, what it took, and the packets
    it has put on the network. *)
Record side : Type := mkSide {
  ep : ReliableEndpoint;
  wrote : list byte;
  taken : list byte;
  sent : list Packet;
}.

Definition got (s : side) : list byte := taken s ++ delivered (ep s).

Definition side_write (d : list byte) (s : side) : side :=
  mkSide (write d (ep s)) (wrote s ++ d) (taken s) (sent s).
Definition side_close (s : side) : side :=
  mkSide (close (ep s)) (wrote s) (taken s) (sent s).
Definition side_take (s : side) : side :=
  mkSide (take_delivered (ep s)).1 (wrote s) (taken s ++ (take_delivered (ep s)).2) (sent s).
Definition side_send (m : Z) (s : side) : side :=
  mkSide (build_packet m (ep s)).1 (wrote s) (taken s) (sent s ++ [(build_packet m (ep s)).2]).
Definition side_recv (p : Packet) (s : side) : side :=
  mkSide (on_packet p (ep s)) (wrote s) (taken s) (sent s).

(** One side moves; [y] is its peer. *)
Inductive side_move (y : side) (x : side) : side → Prop :=
| mv_write d :
    fin_queued (ep x) = false → zlen (wrote x ++ d) ≤ u32_max →
    side_move y x (side_write d x)
| mv_close : side_move y x (side_close x)
| mv_take : side_move y x (side_take x)
| mv_send m : 0 ≤ m → side_move y x (side_send m x)
| mv_recv p : p ∈ sent y → side_move y x (side_recv p x).

Definition side_new (session : Z) (client : bool) : side :=
  mkSide (ReliableEndpoint_new session client) [] [] [].

Inductive tunnel (sa sb : Z) : side → side → Prop :=
| tn_new : tunnel sa sb (side_new sa true) (side_new sb false)
| tn_a x y x' : tunnel sa sb x y → side_move y x x' → tunnel sa sb x' y
| tn_b x y y' : tunnel sa sb x y → side_move x y y' → tunnel sa sb x y'.

(** ** Invariant of one direction, from [s] to [r] *)
Definition pkt_ok (s : side) (n : Z) (p : Packet) : Prop :=
  0 ≤ seq p ≤ n ∧ seq p + zlen (data p) ≤ zlen (wrote s) ∧
  data p = take (length (data p)) (drop (Z.to_nat (seq p)) (wrote s)) ∧
  (Z.land (flags p) FLAG_FIN ≠ 0 →
     fin_queued (ep s) = true ∧ seq p + zlen (data p) = zlen (wrote s)).

Record dir_inv (s r : side) : Prop := {
  di_len : zlen (wrote s) ≤ u32_max;
  di_base : 0 ≤ send_base (ep s) ≤ recv_next (ep r);
  di_stream : send_stream (ep s) = drop (Z.to_nat (send_base (ep s))) (wrote s);
  di_next : recv_next (ep r) ≤ zlen (wrote s);
  di_got : got r = take (Z.to_nat (recv_next (ep r))) (wrote s);
  di_reorder : reorder (ep r) = ∅;
  di_pkts : Forall (pkt_ok s (recv_next (ep r))) (sent s);
  di_acks : Forall (λ p, ack p ≤ recv_next (ep r)) (sent r);
  di_fin : ∀ n, peer_fin_at (ep r) = Some n → fin_queued (ep s) = true ∧ n = zlen (wrote s);
}.

Lemma pkt_ok_mono s n n' p : n ≤ n' → pkt_ok s n p → pkt_ok s n' p.
Proof. intros Hn (? & ?). split; [lia|done]. Qed.

Lemma drop_zadd {A} (l : list A) a b :
  0 ≤ a → 0 ≤ b → drop (Z.to_nat b) (drop (Z.to_nat a) l) = drop (Z.to_nat (a + b)) l.
Proof. intros. rewrite drop_drop. f_equal. lia. Qed.

Section dir.
Context (s r : side) (I : dir_inv s r).

Lemma dir_write d :
  fin_queued (ep s) = false → zlen (wrote s ++ d) ≤ u32_max → dir_inv (side_write d s) r.
Proof.
  intros Hf Hl. destruct I. pose proof (zlen_nonneg (wrote s)) as Hz. unfold zlen in *.
  split; simpl; try done.
  - rewrite drop_app_le by lia. by rewrite di_stream0.
  - unfold zlen; rewrite length_app. lia.
  - rewrite take_app_le by lia. done.
  - eapply Forall_impl; [exact di_pkts0|]. intros p (Hsq & Hle & Hd & Hfin). unfold zlen in *.
    split_and!; [lia|lia|unfold zlen; simpl; rewrite length_app; lia| |].
    + simpl. rewrite drop_app_le, take_app_le by (rewrite ?length_drop; lia). done.
    + intros Hp. apply Hfin in Hp as [? _]. congruence.
  - intros n Hn. apply di_fin0 in Hn as [? _]. congruence.
Qed.

Lemma dir_close : dir_inv (side_close s) r.
Proof.
  destruct I. split; simpl; try done.
  - eapply Forall_impl; [exact di_pkts0|]. intros p (? & ? & ? & Hfin). split_and!; try done; try lia.
    intros Hp. split; [done|]. by apply Hfin.
  - intros n Hn. split; [done|]. by apply di_fin0.
Qed.

Lemma dir_send m : 0 ≤ m → dir_inv (side_send m s) r.
Proof.
  intros Hm. destruct I. unfold side_send.
  destruct (build_packet m (ep s)) as [e' p] eqn:E. unfold build_packet in E. injection E as <- <-.
  set (fin := fin_queued (ep s) && _).
  assert (∀ n q, pkt_ok s n q → pkt_ok (mkSide (if fin then set_fin_sent true (ep s) else ep s)
    (wrote s) (taken s) (sent s ++ [mkPacket (ep_session (ep s)) (send_base (ep s))
       (recv_next (ep s)) (if fin then Z.lor (if announce_syn (ep s) then Z.lor 0 FLAG_SYN else 0) FLAG_FIN
          else if announce_syn (ep s) then Z.lor 0 FLAG_SYN else 0)
       (take (Z.to_nat (Z.min (zlen (send_stream (ep s))) m)) (send_stream (ep s)))])) n q) as Hsame
    by (intros n q; by destruct fin).
  split; simpl; try (destruct fin; done).
  apply Forall_app_2; [eapply Forall_impl; [exact di_pkts0|]; by apply Hsame|].
  constructor; [|done]. apply Hsame. clear Hsame. simpl.
  pose proof (zlen_nonneg (send_stream (ep s))) as Hz.
  assert (zlen (send_stream (ep s)) = zlen (wrote s) - send_base (ep s)) as Hlen
    by (rewrite di_stream0; unfold zlen in *; rewrite length_drop; lia).
  set (n := Z.min _ m). assert (zlen (take (Z.to_nat n) (send_stream (ep s))) = n) as Hn
    by (rewrite zlen_take; unfold n; lia).
  split; simpl; [lia|]. rewrite Hn. split_and!; [unfold n; lia| |].
  - rewrite <- di_stream0. f_equal. unfold zlen in Hn. lia.
  - intros Hfin. assert (fin = true) as Hf.
    { destruct fin; [done|]. destruct (announce_syn (ep s)); vm_compute in Hfin; done. }
    apply andb_prop in Hf as [? Hf%bool_decide_eq_true]. destruct fin; split; simpl; try done; unfold n; lia.
Qed.

Lemma dir_ack p : p ∈ sent r → dir_inv (side_recv p s) r.
Proof.
  intros Hp. destruct I. rewrite Forall_forall in di_acks0. specialize (di_acks0 p Hp) as Hack.
  destruct (on_packet_spec p (ep s)) as (Hb & Hs & Hf & _ & _).
  set (k := Z.max 0 _) in *. assert (0 ≤ k ∧ send_base (ep s) + k ≤ recv_next (ep r)) as [Hk0 Hk]
    by (unfold k; lia). clearbody k.
  split; simpl; try done.
  - rewrite Hb. lia.
  - rewrite Hs, Hb, di_stream0. apply drop_zadd; lia.
  - eapply Forall_impl; [exact di_pkts0|]. intros q (? & ? & ? & Hfin). split_and!; try done; try lia.
    intros Hq. simpl. rewrite Hf. by apply Hfin.
  - by apply Forall_forall.
  - intros n Hn. rewrite Hf. by apply di_fin0.
Qed.

Lemma dir_take_s : dir_inv (side_take s) r.
Proof. by destruct I. Qed.

(** The receiver's moves. *)
Lemma dir_r_write d : dir_inv s (side_write d r).
Proof. by destruct I. Qed.
Lemma dir_r_close : dir_inv s (side_close r).
Proof. by destruct I. Qed.
Lemma dir_r_take : dir_inv s (side_take r).
Proof. destruct I. split; try done. unfold got in *. simpl. by rewrite app_nil_r. Qed.

Lemma dir_r_send m : dir_inv s (side_send m r).
Proof.
  destruct I. unfold side_send, got in *. simpl. destruct (_ && _); split; simpl; try done;
    (apply Forall_app_2; [done|by constructor]).
Qed.

(** A packet of the sender advances the receiver exactly when it starts where
    the receiver stands. *)
Lemma dir_r_half p :
  pkt_ok s (recv_next (ep r)) p →
  recv_half (on_packet p (ep r)) =
    if bool_decide (seq p = recv_next (ep r))
    then (recv_next (ep r) + zlen (data p), ∅, delivered (ep r) ++ data p) else recv_half (ep r).
Proof.
  intros (Hsq & Hle & _). destruct I. destruct (on_packet_spec p (ep r)) as (_ & _ & _ & -> & _).
  destruct (bool_decide_reflect (data p ≠ [])) as [|Hne]; [by apply accept_data_honest; try lia|].
  assert (data p = []) as -> by (by destruct (decide (data p = []))).
  rewrite Z.add_0_r, app_nil_r. unfold recv_half. rewrite di_reorder0. by case_bool_decide.
Qed.

Lemma dir_r_recv p : p ∈ sent s → dir_inv s (side_recv p r).
Proof.
  intros Hp. pose proof I as []. pose proof di_pkts0 as Hpk. rewrite Forall_forall in Hpk.
  pose proof (dir_r_half p (Hpk p Hp)) as Hh. unfold recv_half in Hh.
  destruct (Hpk p Hp) as (Hsq & Hle & Hd & Hfin). pose proof (zlen_nonneg (data p)) as Hz.
  destruct (on_packet_spec p (ep r)) as (_ & _ & _ & _ & Hpf).
  assert (recv_next (ep r) ≤ recv_next (on_packet p (ep r)) ≤ zlen (wrote s)) as Hmono.
  { clear Hpf. case_bool_decide; injection Hh as -> _ _; lia. }
  split; simpl; try done; try lia.
  - unfold got in *. simpl. clear Hpf. case_bool_decide as Heq; injection Hh as -> _ ->; [|done].
    rewrite app_assoc, di_got0, <- Heq.
    replace (Z.to_nat (seq p + zlen (data p))) with (Z.to_nat (seq p) + length (data p))%nat
      by (unfold zlen; lia). rewrite <- take_take_drop. by rewrite <- Hd.
  - clear Hpf. case_bool_decide; by injection Hh as _ -> _.
  - eapply Forall_impl; [exact di_pkts0|]. intros q. apply pkt_ok_mono. lia.
  - eapply Forall_impl; [exact di_acks0|]. simpl. intros q Hq. lia.
  - rewrite Hpf. clear Hh Hpf. case_bool_decide as Hf; [|apply di_fin0]. intros n [= <-].
    destruct (Hfin Hf) as [? Hend]. split; [done|]. unfold wrapping_add_u32, wrap_u32, u32_max in *.
    rewrite (Z.mod_small (zlen _)), Z.mod_small by lia. done.
Qed.
End dir.

Lemma dir_move_s s r s' : dir_inv s r → side_move r s s' → dir_inv s' r.
Proof.
  intros I [d ? ?| | |m ?|p ?];
    eauto using dir_write, dir_close, dir_take_s, dir_send, dir_ack.
Qed.

Lemma dir_move_r s r r' : dir_inv s r → side_move s r r' → dir_inv s r'.
Proof.
  intros I [d ? ?| | |m ?|p ?];
    eauto using dir_r_write, dir_r_close, dir_r_take, dir_r_send, dir_r_recv.
Qed.

Lemma tunnel_inv sa sb x y : tunnel sa sb x y → dir_inv x y ∧ dir_inv y x.
Proof.
  induction 1 as [|x y x' _ [I1 I2] Hm|x y y' _ [I1 I2] Hm].
  - split; split; simpl; try done; unfold zlen, u32_max; simpl; lia.
  - split; [by eapply dir_move_s|by eapply dir_move_r].
  - split; [by eapply dir_move_r|by eapply dir_move_s].
Qed.

(** ** Safety *)
Lemma dir_safe s r :
  dir_inv s r →
  got r `prefix_of` wrote s ∧ (peer_finished (ep r) = true → got r = wrote s).
Proof.
  intros []. rewrite di_got0. split; [apply prefix_take|]. unfold peer_finished.
  destruct (peer_fin_at (ep r)) as [n|]; [|done]. intros Hf%bool_decide_eq_true.
  destruct (di_fin0 n eq_refl) as [_ ->]. apply take_ge. unfold zlen in *. lia.
Qed.

(** C11: the DNS tunnel is a reliable ordered stream in both directions, for
    applications that write at most 2^32 - 1 bytes per direction and nothing after
    they have closed (sequence numbers have 32 bits; [dnstt_wrap_stalls] is what
    happens beyond). Under any loss, delay, reordering and duplication of packets, what either
    application has been given is a prefix of what the other wrote; once
    [peer_finished] holds it is everything the peer wrote. The reassembly buffer
    stays empty: between honest endpoints no segment ever arrives early. *)
Theorem dnstt_stream_safe sa sb x y :
  tunnel sa sb x y →
  (got y `prefix_of` wrote x ∧ (peer_finished (ep y) = true → got y = wrote x)) ∧
  (got x `prefix_of` wrote y ∧ (peer_finished (ep x) = true → got x = wrote y)) ∧
  reorder (ep x) = ∅ ∧ reorder (ep y) = ∅.
Proof.
  intros [I1 I2]%tunnel_inv. split_and!; try by apply dir_safe.
  - apply (di_reorder _ _ I2).
  - apply (di_reorder _ _ I1).
Qed.

(** ** Progress *)

(** One undisturbed exchange: [y] sends a packet that arrives, [x] answers with
    up to [m] bytes and that packet arrives. *)
Definition exchange (m m' : Z) (xy : side * side) : side * side :=
  let '(x, y) := xy in
  let p := (build_packet m' (ep y)).2 in
  let y := side_send m' y in
  let x := side_recv p x in
  let q := (build_packet m (ep x)).2 in
  let x := side_send m x in
  (x, side_recv q y).

Lemma exchange_tunnel sa sb m m' x y x' y' :
  0 ≤ m → 0 ≤ m' → tunnel sa sb x y → exchange m m' (x, y) = (x', y') →
  tunnel sa sb x' y' ∧ wrote x' = wrote x.
Proof.
  intros Hm Hm' Ht [= <- <-]. split; [|done].
  eapply tn_b; [eapply tn_a; [eapply tn_a; [eapply tn_b; [exact Ht|]|]|]|].
  - by apply (mv_send _ _ m').
  - apply mv_recv. simpl. apply elem_of_app. right. by apply list_elem_of_singleton.
  - by apply (mv_send _ _ m).
  - apply mv_recv. simpl. apply elem_of_app. right. by apply list_elem_of_singleton.
Qed.

Lemma exchange_progress sa sb m m' x y x' y' :
  0 ≤ m → 0 ≤ m' → tunnel sa sb x y → exchange m m' (x, y) = (x', y') →
  Z.min (zlen (wrote x)) (recv_next (ep y) + m) ≤ recv_next (ep y').
Proof.
  intros Hm Hm' Ht. pose proof (tunnel_inv _ _ _ _ Ht) as [I _]. cbn [exchange].
  set (p := (build_packet m' (ep y)).2). set (y1 := side_send m' y). set (x1 := side_recv p x).
  assert (dir_inv x1 y1) as I1.
  { apply (dir_ack _ _ (dir_r_send _ _ I m')). simpl. apply elem_of_app. right. by apply list_elem_of_singleton. }
  assert (recv_next (ep y1) = recv_next (ep y)) as Hy1 by (simpl; by destruct (_ && _)).
  assert (send_base (ep x1) = recv_next (ep y)) as Hx1.
  { simpl. destruct (on_packet_spec p (ep x)) as (-> & _). destruct I. simpl.
    assert (zlen (send_stream (ep x)) = zlen (wrote x) - send_base (ep x)) as ->
      by (rewrite di_stream0; unfold zlen in *; rewrite length_drop; lia). lia. }
  set (q := (build_packet m (ep x1)).2). intros E. apply (f_equal snd) in E. cbn [snd] in E.
  rewrite <- E. clear E. change (recv_next (ep (side_recv q y1))) with (recv_next (on_packet q (ep y1))).
  assert (pkt_ok (side_send m x1) (recv_next (ep y1)) q) as Hq.
  { pose proof (di_pkts _ _ (dir_send _ _ I1 m Hm)) as Hp. rewrite Forall_forall in Hp. apply Hp.
    simpl. apply elem_of_app. right. by apply list_elem_of_singleton. }
  pose proof (dir_r_half _ _ (dir_send _ _ I1 m Hm) q Hq) as Hh. unfold recv_half in Hh.
  change (seq q) with (send_base (ep x1)) in Hh. rewrite Hx1, Hy1, bool_decide_true in Hh by done.
  assert (recv_next (on_packet q (ep y1)) = recv_next (ep y) + zlen (data q)) as -> by congruence.
  change (data q) with (take (Z.to_nat (Z.min (zlen (send_stream (ep x1))) m)) (send_stream (ep x1))).
  rewrite zlen_take. destruct I1 as [_ _ Hst _ _ _ _ _ _].
  assert (zlen (send_stream (ep x1)) = zlen (wrote x) - recv_next (ep y)) as Hl.
  { rewrite Hst, Hx1. destruct I. unfold zlen in *.
    rewrite length_drop. simpl. lia. }
  rewrite Hl. destruct I. lia.
Qed.

(** C29: the tunnel makes progress, as long as no application has written more
    than 2^32 - 1 bytes in its direction or anything after its close
    ([dnstt_wrap_stalls] is what happens beyond). From any state reached so, [k] exchanges that
    are not lost deliver at least [k * m] more of the bytes [x] wrote, so enough
    of them deliver all. No timer or retransmission state is needed: each packet
    starts at the first byte the peer has not acknowledged. *)
Theorem dnstt_stream_progress sa sb m m' k x y :
  tunnel sa sb x y → 0 < m → 0 ≤ m' → zlen (wrote x) ≤ Z.of_nat k * m →
  let '(x', y') := Nat.iter k (exchange m m') (x, y) in
  wrote x' = wrote x ∧ got y' = wrote x.
Proof.
  intros Ht Hm Hm' Hk.
  assert (∃ x' y', Nat.iter k (exchange m m') (x, y) = (x', y') ∧ tunnel sa sb x' y' ∧
    wrote x' = wrote x ∧ Z.min (zlen (wrote x)) (Z.of_nat k * m) ≤ recv_next (ep y'))
    as (x' & y' & -> & Ht' & Hw & Hn).
  { clear Hk. induction k as [|k IH].
    - exists x, y. split_and!; try done. destruct (tunnel_inv _ _ _ _ Ht) as [[] _]. lia.
    - destruct IH as (x' & y' & E & Ht' & Hw & Hn). rewrite Nat.iter_succ, E.
      destruct (exchange m m' (x', y')) as [x2 y2] eqn:E2. exists x2, y2.
      destruct (exchange_tunnel sa sb m m' x' y' x2 y2 ltac:(lia) Hm' Ht' E2) as [Ht2 Hw2].
      pose proof (exchange_progress sa sb m m' x' y' x2 y2 ltac:(lia) Hm' Ht' E2) as Hp.
      split_and!; [done|done|congruence|]. rewrite Hw in Hp. lia. }
  split; [done|]. destruct (tunnel_inv _ _ _ _ Ht') as [[] _]. rewrite di_got0, Hw.
  apply take_ge. rewrite Hw in *. unfold zlen in *. lia.
Qed.

(** ** Beyond the 32-bit offset space *)

(** The receiver stands before the sender's window. Honest endpoints get there
    when the receiver's offset wraps around (see the witness below). *)
Definition wedged (x y : side) : Prop := recv_next (ep y) < send_base (ep x).

Lemma accept_future sq d e : recv_next e < sq → recv_next (accept_data sq d e) = recv_next e ∧
  delivered (accept_data sq d e) = delivered e.
Proof.
  intros H. unfold accept_data. rewrite bool_decide_false, bool_decide_true by lia.
  repeat case_match; done.
Qed.

(** After 4 GiB the tunnel stalls. A receiver whose offset has wrapped to a
    smaller number than the sender's base acknowledges a number the sender takes
    for an old one ([pkt.ack > self.send_base] compares without wrap-around), and
    takes the sender's segments for future ones. From then on no exchange, in
    either direction and of any size, acknowledges or delivers anything. *)
Theorem dnstt_wrap_stalls m m' x y x' y' :
  wedged x y → exchange m m' (x, y) = (x', y') →
  wedged x' y' ∧ got y' = got y ∧ send_stream (ep x') = send_stream (ep x).
Proof.
  intros Hw E. cbn [exchange] in E. unfold wedged in *.
  set (p := (build_packet m' (ep y)).2) in *. set (y1 := side_send m' y) in *.
  set (x1 := side_recv p x) in *. set (q := (build_packet m (ep x1)).2) in *.
  pose proof (f_equal fst E) as Ex. pose proof (f_equal snd E) as Ey. cbn [fst snd] in Ex, Ey.
  rewrite <- Ex, <- Ey. clear E Ex Ey x' y'.
  pose proof (zlen_nonneg (send_stream (ep x))) as Hz.
  destruct (on_packet_spec p (ep x)) as (Hb & Hs & _). change (ack p) with (recv_next (ep y)) in Hb, Hs.
  rewrite Z.max_l in Hb, Hs by lia. rewrite Z.add_0_r in Hb. cbn [Z.to_nat drop] in Hs.
  assert (recv_next (ep y1) = recv_next (ep y) ∧ delivered (ep y1) = delivered (ep y)) as [Hn1 Hd1]
    by (simpl; by destruct (_ && _)).
  destruct (on_packet_spec q (ep y1)) as (_ & _ & _ & Hh & _).
  change (seq q) with (send_base (on_packet p (ep x))) in Hh.
  assert (recv_next (on_packet q (ep y1)) = recv_next (ep y1) ∧
          delivered (on_packet q (ep y1)) = delivered (ep y1)) as [Hn Hd].
  { unfold recv_half in Hh. destruct (accept_future (send_base (on_packet p (ep x))) (data q) (ep y1))
      as [Ha Hb']; [rewrite Hn1, Hb; lia|].
    case_bool_decide; split; congruence. }
  assert (send_base (ep (side_send m x1)) = send_base (ep x) ∧
          send_stream (ep (side_send m x1)) = send_stream (ep x)) as [-> ->]
    by (simpl; destruct (_ && _); simpl; by rewrite Hb, Hs).
  change (ep (side_recv q y1)) with (on_packet q (ep y1)).
  split_and!; [rewrite Hn, Hn1; lia| |done].
  unfold got. change (ep (side_recv q y1)) with (on_packet q (ep y1)). by rewrite Hd, Hd1.
Qed.

(** ** Concrete runs *)

(** Endpoints that have carried [2^32 - 1] bytes, with one more to send. *)
Definition near_wrap_x : side :=
  mkSide (mkEndpoint 1 true [x61] u32_max false false 0 ∅ [] None false false) [] [] [].
Definition near_wrap_y : side :=
  mkSide (mkEndpoint 0 false [] 0 false false u32_max ∅ [] None true false) [] [] [].
Definition wrapped : side * side := exchange 100 100 (near_wrap_x, near_wrap_y).

Lemma dnstt_wrap_stalls_witness :
  got wrapped.2 = [x61] ∧ send_stream (ep wrapped.1) = [x61] ∧ recv_next (ep wrapped.2) = 0 ∧
  (let '(x', y') := exchange 100 100 wrapped in
   wedged x' y' ∧ got y' = [x61] ∧ send_stream (ep x') = [x61]).
Proof.
  split; [vm_compute; reflexivity|]. split; [vm_compute; reflexivity|].
  split; [vm_compute; reflexivity|].
  destruct (exchange 100 100 wrapped) as [x' y'] eqn:E.
  assert (exchange 100 100 (wrapped.1, wrapped.2) = (x', y')) as E' by exact E.
  destruct (dnstt_wrap_stalls 100 100 wrapped.1 wrapped.2 x' y') as (H1 & H2 & H3);
    [vm_compute; reflexivity|exact E'|].
  split; [exact H1|]. split; [rewrite H2; vm_compute; reflexivity|rewrite H3; vm_compute; reflexivity].
Defined.

(** The client writes five bytes and closes; nothing has arrived yet. *)
Definition demo_x : side := side_close (side_write [x68; x65; x6c; x6c; x6f] (side_new 7 true)).
Definition demo_y : side := side_new 0 false.

Lemma demo_tunnel : tunnel 7 0 demo_x demo_y.
Proof.
  eapply tn_a; [eapply tn_a; [apply tn_new|]|apply mv_close].
  apply mv_write; [reflexivity|vm_compute; discriminate].
Qed.

Lemma dnstt_stream_progress_witness :
  let '(x', y') := Nat.iter 3 (exchange 2 100) (demo_x, demo_y) in
  wrote x' = wrote demo_x ∧ got y' = [x68; x65; x6c; x6c; x6f].
Proof.
  apply (dnstt_stream_progress 7 0 2 100 3 demo_x demo_y);
    [apply demo_tunnel|lia|lia|vm_compute; discriminate].
Defined.

Definition demo_end : side * side := exchange 100 100 (demo_x, demo_y).

Lemma demo_end_tunnel : tunnel 7 0 demo_end.1 demo_end.2.
Proof.
  apply (exchange_tunnel 7 0 100 100 demo_x demo_y); [lia|lia|apply demo_tunnel|].
  apply surjective_pairing.
Qed.

Lemma dnstt_stream_safe_witness :
  peer_finished (ep demo_end.2) = true ∧ got demo_end.2 = wrote demo_end.1.
Proof.
  split; [vm_compute; reflexivity|].
  apply (dnstt_stream_safe 7 0 demo_end.1 demo_end.2 demo_end_tunnel). vm_compute. reflexivity.
Defined.
