(* ===== verification/DnsServe.v ===== *)
(** * The tunnel server (crates/transport-dnstt/src/transport.rs)

    The serve loop's session table (admission by token bucket, idle reaping,
    bounded eviction) and the per-session driver that answers each query. Time
    is in nanoseconds; the iteration order of the hash map, which Rust leaves
    unspecified, is an argument. *)

From stdpp Require Import base numbers list gmap.
From Stdlib Require Import ZArith Lia Strings.Byte.
From S2P Require Import Prelude Bytes Text DnsBase32 DnsName DnsMsg DnsArq DnsStream.

Abbreviation MAX_SESSIONS := 512 (only parsing).
Abbreviation SESSION_IDLE := (30 * 10 ^ 9) (only parsing).
Abbreviation REAP_INTERVAL := (10 ^ 9) (only parsing).
Abbreviation EVICT_SAMPLE := 32%nat (only parsing).
Abbreviation NEW_SESSION_RATE_PER_SEC := 128 (only parsing).
Abbreviation NEW_SESSION_BURST := 256 (only parsing).

(** A tracked session: the time of its last query (its channel is the driver's
    input and not part of the table's logic). *)
Record Session : Type := mkSession { last_seen : Z }.

Record Inbound : Type := mkInbound {
  dns_id : Z;
  in_qname : list byte;
  in_pkt : Packet;
  in_rd : bool;
  in_opt : bool;
}.

Record server : Type := mkServer {
  sessions : gmap Z Session;
  last_reap : Z;
  new_tokens : Z;
  last_refill : Z;
}.

Definition reap_idle (m : gmap Z Session) (now : Z) : gmap Z Session :=
  filter (λ kv, duration_since now (last_seen kv.2) < SESSION_IDLE) m.

(** [iter.min_by_key(last_seen)]: the first of the minimal entries. *)
Fixpoint min_seen (l : list (Z * Session)) : option (Z * Session) :=
  match l with
  | [] => None
  | kv :: l =>
    match min_seen l with
    | None => Some kv
    | Some kv' =>
      if bool_decide (last_seen kv'.2 < last_seen kv.2) then Some kv' else Some kv
    end
  end.

(** [order]: the entries in the map's iteration order. *)
Definition evict_approx_lru (order : list (Z * Session)) (m : gmap Z Session) : gmap Z Session :=
  match min_seen (take EVICT_SAMPLE order) with
  | None => m
  | Some (victim, _) => delete victim m
  end.

(** ** The serve loop behind the parsers *)
Definition refill_tokens (now : Z) (s : server) : server :=
  let elapsed_ms := duration_since now (last_refill s) / 10 ^ 6 in
  let refill := Z.min (elapsed_ms * NEW_SESSION_RATE_PER_SEC / 1000) NEW_SESSION_BURST in
  if bool_decide (refill > 0)
  then mkServer (sessions s) (last_reap s)
         (Z.min (saturating_add_u32 (new_tokens s) refill) NEW_SESSION_BURST) now
  else s.

Definition reap_step (now : Z) (s : server) : server :=
  if bool_decide (duration_since now (last_reap s) >= REAP_INTERVAL)
  then mkServer (reap_idle (sessions s) now) now (new_tokens s) (last_refill s)
  else s.

(** For a packet of session [sess] at time [now]; [permit] says whether the
    new-session channel had a free slot. Returns whether the session is served. *)
Definition route (sess now : Z) (permit : bool) (order : gmap Z Session → list (Z * Session))
    (s : server) : server * bool :=
  let s := reap_step now s in
  match sessions s !! sess with
  | Some _ =>
    (mkServer (<[sess := mkSession now]> (sessions s)) (last_reap s) (new_tokens s)
       (last_refill s), true)
  | None =>
    let s := refill_tokens now s in
    if bool_decide (new_tokens s = 0) then (s, false)
    else if negb permit then (s, false)
    else
      let tokens := new_tokens s - 1 in
      let m := if bool_decide (Z.of_nat (size (sessions s)) >= MAX_SESSIONS)
               then evict_approx_lru (order (sessions s)) (sessions s) else sessions s in
      (mkServer (<[sess := mkSession now]> m) (last_reap s) tokens (last_refill s), true)
  end.

Section serve.
Variable blake3 : list byte → list byte.

(** One iteration of the serve loop on a datagram. *)
Definition serve_datagram (domain msg : list byte) (now : Z) (permit : bool)
    (order : gmap Z Session → list (Z * Session)) (s : server)
  : server * option (Z * Inbound) :=
  match parse_query msg with
  | None => (s, None)
  | Some q =>
    match from_query_name blake3 (q_name q) domain with
    | None => (s, None)
    | Some pkt =>
      let '(s, ok) := route (session pkt) now permit order s in
      (s, if ok then Some (session pkt, mkInbound (q_id q) (q_name q) pkt
                             (recursion_desired q) (had_opt q)) else None)
    end
  end.

(** One query of [session_driver]: the endpoint afterwards, the bytes for the
    application, the response datagram. *)
Definition driver_step (rng : option (list byte)) (inb : Inbound) (g : ReliableEndpoint)
  : ReliableEndpoint * list byte * option (list byte) :=
  let g := on_packet (in_pkt inb) g in
  let '(g, d) := take_delivered g in
  let '(g, r) := build_packet (downstream_mtu (in_qname inb)) g in
  (g, d, encode_response (dns_id inb) (in_qname inb) (Packet_encode blake3 rng r)
           (in_rd inb) (in_opt inb)).
End serve.

(** ** The session table *)
Definition iteration_order (order : gmap Z Session → list (Z * Session)) : Prop :=
  ∀ m, order m ≡ₚ map_to_list m.

Definition server_new (now : Z) : server := mkServer ∅ now NEW_SESSION_BURST now.

Record server_ok (s : server) : Prop := {
  so_size : Z.of_nat (size (sessions s)) ≤ MAX_SESSIONS;
  so_tokens : 0 ≤ new_tokens s ≤ NEW_SESSION_BURST;
}.

Lemma min_seen_in l : l ≠ [] → ∃ kv, min_seen l = Some kv ∧ kv ∈ l.
Proof.
  induction l as [|kv l IH]; [done|]. intros _. cbn [min_seen].
  destruct l as [|kv' l]; [exists kv; split; [done|constructor]|].
  destruct IH as (kv2 & -> & Hin); [done|].
  case_bool_decide; eexists; (split; [done|]); [by constructor|constructor].
Qed.

(** Eviction frees exactly one entry of a non-empty table. *)
Lemma evict_size order m :
  iteration_order order → (0 < size m)%nat →
  size (evict_approx_lru (order m) m) = (size m - 1)%nat.
Proof.
  intros Ho Hm. unfold evict_approx_lru. specialize (Ho m) as Hp.
  destruct (min_seen_in (take EVICT_SAMPLE (order m))) as ([k v] & -> & Hin).
  { intros Hnil. apply (f_equal length) in Hnil. rewrite length_take, Hp in Hnil.
    rewrite length_map_to_list in Hnil. cbn [length] in Hnil. lia. }
  rewrite map_size_delete_Some; [lia|]. exists v. apply elem_of_map_to_list. rewrite <- Hp.
  eapply elem_of_subseteq; [|exact Hin]. intros x Hx.
  rewrite <- (take_drop EVICT_SAMPLE (order m)). apply elem_of_app. by left.
Qed.

Lemma reap_step_ok now s : server_ok s → server_ok (reap_step now s).
Proof.
  intros []. unfold reap_step. case_bool_decide; [|done]. split; [|done]. simpl.
  assert (size (reap_idle (sessions s) now) ≤ size (sessions s))%nat; [|lia].
  rewrite <- !size_dom. apply subseteq_size. apply dom_filter_subseteq.
Qed.

Lemma refill_tokens_ok now s : server_ok s → server_ok (refill_tokens now s).
Proof.
  intros []. unfold refill_tokens. case_bool_decide; [|done]. split; [done|]. simpl.
  unfold saturating_add_u32, u32_max in *. lia.
Qed.

Lemma route_ok sess now permit order s :
  iteration_order order → server_ok s → server_ok (route sess now permit order s).1.
Proof.
  intros Ho Hs. unfold route. pose proof (reap_step_ok now s Hs) as Hr.
  set (s1 := reap_step now s) in *. clearbody s1.
  destruct (sessions s1 !! sess) as [old|] eqn:E.
  - destruct Hr. split; [|done]. simpl. rewrite map_size_insert_Some by (by eexists). done.
  - pose proof (refill_tokens_ok now s1 Hr) as [Hsz Htk].
    assert (sessions (refill_tokens now s1) = sessions s1) as Es
      by (unfold refill_tokens; by case_bool_decide).
    set (s2 := refill_tokens now s1) in *. clearbody s2.
    case_bool_decide; [by split|]. destruct permit; [|by split]. cbn [negb]. split; simpl; [|lia].
    assert (∀ m, sessions s1 = m → evict_approx_lru (order m) m !! sess = None) as Hev.
    { intros m <-. unfold evict_approx_lru. destruct (min_seen _) as [[v ?]|]; [|done].
      apply lookup_delete_None. by right. }
    rewrite Es in *. case_bool_decide.
    + rewrite map_size_insert_None by (by apply Hev). rewrite evict_size by (done || lia).
      lia.
    + rewrite map_size_insert_None by done. lia.
Qed.

(** The server's session table is bounded. Whatever session ids arrive,
    whenever, and in whatever order the hash map iterates, at most 512 sessions
    are tracked and the admission bucket holds between 0 and 256 tokens. *)
Theorem serve_table_bounded order t0 (qs : list (Z * Z * bool)) :
  iteration_order order →
  server_ok (foldl (λ s q, (route q.1.1 q.1.2 q.2 order s).1) (server_new t0) qs).
Proof.
  intros Ho. assert (server_ok (server_new t0)) as Hn
    by (split; [vm_compute; discriminate|vm_compute; split; discriminate]).
  revert Hn. generalize (server_new t0).
  induction qs as [|q qs IH]; intros s Hs; simpl; [done|]. by apply IH, route_ok.
Qed.

(** ** Admission rate *)

(** Whether a query admits a new session. *)
Definition admits (sess now : Z) (permit : bool) order (s : server) : bool :=
  match sessions (reap_step now s) !! sess with
  | Some _ => false
  | None => (route sess now permit order s).2
  end.

(** New sessions admitted while serving a sequence of queries. *)
Fixpoint admitted order (qs : list (Z * Z * bool)) (s : server) : Z :=
  match qs with
  | [] => 0
  | q :: qs =>
    (if admits q.1.1 q.1.2 q.2 order s then 1 else 0)
      + admitted order qs (route q.1.1 q.1.2 q.2 order s).1
  end.

(** Tokens held and spent never exceed the initial burst and the refill for the
    time up to the last refill. *)
Definition bucket (t0 : Z) (n : Z) (now : Z) (s : server) : Prop :=
  0 ≤ new_tokens s ∧ last_refill s ≤ now ∧
  10 ^ 9 * (new_tokens s + n) ≤ 10 ^ 9 * NEW_SESSION_BURST
                               + NEW_SESSION_RATE_PER_SEC * (last_refill s - t0).

Lemma refill_bucket t0 n now s :
  last_refill s ≤ now → bucket t0 n (last_refill s) s → bucket t0 n now (refill_tokens now s).
Proof.
  intros Hle (H0 & _ & H). unfold refill_tokens.
  set (ms := duration_since now (last_refill s) / 10 ^ 6).
  assert (10 ^ 6 * ms ≤ now - last_refill s) as Hms.
  { pose proof (Z.mul_div_le (duration_since now (last_refill s)) (10 ^ 6) ltac:(lia)).
    unfold ms, duration_since in *. lia. }
  set (r := Z.min (ms * NEW_SESSION_RATE_PER_SEC / 1000) NEW_SESSION_BURST).
  assert (1000 * r ≤ ms * 128) as Hr.
  { pose proof (Z.mul_div_le (ms * NEW_SESSION_RATE_PER_SEC) 1000 ltac:(lia)).
    unfold r in *. lia. }
  unfold bucket, saturating_add_u32, u32_max in *.
  case_bool_decide; simpl; lia.
Qed.

Lemma route_bucket t0 n t now sess permit order s :
  t ≤ now → bucket t0 n t s →
  bucket t0 (n + if admits sess now permit order s then 1 else 0) now (route sess now permit order s).1.
Proof.
  intros Ht Hb. unfold admits, route.
  assert (bucket t0 n t (reap_step now s)) as Hr
    by (unfold reap_step; case_bool_decide; [|done]; done).
  set (s1 := reap_step now s) in *. clearbody s1.
  destruct (sessions s1 !! sess) as [old|].
  - destruct Hr as (? & ? & ?). unfold bucket. simpl. split_and!; lia.
  - assert (bucket t0 n now (refill_tokens now s1)) as (H0 & Hl & H)
      by (apply refill_bucket; destruct Hr as (? & ? & ?); [lia|split_and!; lia]).
    set (s2 := refill_tokens now s1) in *. clearbody s2.
    case_bool_decide; [unfold bucket; simpl; split_and!; lia|].
    destruct permit; unfold bucket; simpl; split_and!; lia.
Qed.

(** Times of arrival, in order. *)
Fixpoint times_from (t : Z) (qs : list (Z * Z * bool)) : Prop :=
  match qs with [] => True | q :: qs => t ≤ q.1.2 ∧ times_from q.1.2 qs end.

Fixpoint last_time (t : Z) (qs : list (Z * Z * bool)) : Z :=
  match qs with [] => t | q :: qs => last_time q.1.2 qs end.

(** A flood of fresh session ids is rate-limited. Serving any sequence of
    queries over [T] nanoseconds admits at most [256 + 128 * T / 10^9] new
    sessions, each of which costs a task and a buffer. *)
Theorem new_session_rate order t0 qs :
  times_from t0 qs →
  10 ^ 9 * admitted order qs (server_new t0)
    ≤ 10 ^ 9 * NEW_SESSION_BURST + NEW_SESSION_RATE_PER_SEC * (last_time t0 qs - t0).
Proof.
  intros Ht. assert (bucket t0 0 t0 (server_new t0)) as Hb
    by (unfold bucket; simpl; lia).
  enough (∀ t n s, times_from t qs → bucket t0 n t s →
    10 ^ 9 * (n + admitted order qs s)
      ≤ 10 ^ 9 * NEW_SESSION_BURST + NEW_SESSION_RATE_PER_SEC * (last_time t qs - t0)) as H
    by (specialize (H t0 0 (server_new t0) Ht Hb); lia).
  clear Ht Hb. induction qs as [|q qs IH]; intros t n s Ht Hb; simpl.
  - destruct Hb as (? & ? & ?). lia.
  - destruct Ht as [Hle Ht].
    pose proof (route_bucket t0 n t q.1.2 q.1.1 q.2 order s Hle Hb) as Hb'.
    specialize (IH _ _ _ Ht Hb'). lia.
Qed.

Lemma serve_table_bounded_witness :
  server_ok (foldl (λ s q, (route q.1.1 q.1.2 q.2 (λ m, map_to_list m) s).1) (server_new 0)
               [(1, 5, true); (2, 6, true); (1, 7, false)]).
Proof. apply (serve_table_bounded (λ m, map_to_list m)). by intros m. Defined.

Lemma new_session_rate_witness :
  let qs := [(1, 5, true); (2, 6, true); (1, 7, false)] in
  admitted (λ m, map_to_list m) qs (server_new 0) = 2 ∧
  10 ^ 9 * admitted (λ m, map_to_list m) qs (server_new 0)
    ≤ 10 ^ 9 * NEW_SESSION_BURST + NEW_SESSION_RATE_PER_SEC * (7 - 0).
Proof.
  split; [vm_compute; reflexivity|]. apply (new_session_rate (λ m, map_to_list m) 0).
  simpl. lia.
Defined.

(** ** A query and its response, end to end *)
Lemma lowercase_byte_facts b :
  (to_ascii_lowercase_byte b = DOT ↔ b = DOT) ∧ (u8 b ≤ 127 → u8 (to_ascii_lowercase_byte b) ≤ 127).
Proof.
  unfold to_ascii_lowercase_byte, in_range. case_bool_decide as H; [|done].
  assert (u8 (b8 (u8 b + 32)) = u8 b + 32) as E by (apply u8_b8_small; lia).
  change (u8 DOT) with 46 in *. split; [|lia]. split; intros Hb.
  - apply (f_equal u8) in Hb. rewrite E in Hb. change (u8 DOT) with 46 in Hb. lia.
  - subst b. change (u8 DOT) with 46 in H. lia.
Qed.

Lemma split_on_lowercase l :
  split_on DOT (to_ascii_lowercase l) = to_ascii_lowercase <$> split_on DOT l.
Proof.
  induction l as [|b l IH]; [done|]. unfold to_ascii_lowercase in *. rewrite fmap_cons.
  cbn [split_on]. rewrite IH. destruct (lowercase_byte_facts b) as [Hd _].
  rewrite (bool_decide_ext _ _ Hd). case_bool_decide; [done|].
  destruct (split_on DOT l) as [|h t]; done.
Qed.

Lemma name_wf_lowercase name :
  name_wf name → Forall (λ l, (length l ≤ MAX_LABEL)%nat) (split_on DOT name) →
  name_wf (to_ascii_lowercase name) ∧
  Forall (λ l, (length l ≤ MAX_LABEL)%nat) (split_on DOT (to_ascii_lowercase name)).
Proof.
  intros [Ha Hne] Hl. unfold name_wf. rewrite split_on_lowercase. split; [split|].
  - apply Forall_fmap. eapply Forall_impl; [exact Ha|]. intros b. apply lowercase_byte_facts.
  - apply Forall_fmap. eapply Forall_impl; [exact Hne|]. intros l Hn. by destruct l.
  - apply Forall_fmap. eapply Forall_impl; [exact Hl|]. intros l Hn. simpl.
    unfold to_ascii_lowercase. by rewrite length_fmap.
Qed.

Lemma build_packet_typed n e :
  in_u32 (ep_session e) → ep_ok e → 0 ≤ n →
  packet_typed (build_packet n e).2 ∧ zlen (data (build_packet n e).2) ≤ n.
Proof.
  intros Hs [] Hn. split.
  - split_and!; try done; simpl; destruct (announce_syn e), (_ && _); vm_decide.
  - simpl. rewrite zlen_take. pose proof (zlen_nonneg (send_stream e)). lia.
Qed.

Lemma on_packet_session p e : ep_session (on_packet p e) = ep_session e.
Proof.
  unfold on_packet, accept_data. destruct (drain_reorder _ _ _ _) as [[n m] d].
  repeat case_bool_decide; repeat case_match; done.
Qed.

Section roundtrip.
Variable blake3 : list byte → list byte.
Hypothesis blake3_len : ∀ m, length (blake3 m) = 32%nat.

(** A driver's answer to a query with an acceptable name. *)
Lemma driver_answer rng inb g :
  rng_ok rng → packet_typed (in_pkt inb) → in_u32 (ep_session g) → ep_ok g → in_u16 (dns_id inb) →
  name_wf (in_qname inb) →
  Forall (λ l, (length l ≤ MAX_LABEL)%nat) (split_on DOT (in_qname inb)) →
  zlen (in_qname inb) + 2 ≤ 253 →
  let g1 := (take_delivered (on_packet (in_pkt inb) g)).1 in
  let r := build_packet (downstream_mtu (in_qname inb)) g1 in
  ∃ m payload, driver_step blake3 rng inb g = (r.1, delivered (on_packet (in_pkt inb) g), Some m) ∧
    zlen m ≤ 512 ∧ parse_response m = Some (dns_id inb, payload) ∧
    Packet_decode blake3 payload = Some r.2.
Proof.
  intros Hr Hp Hs Hok Hid Hw Hl Hn g1 r.
  assert (ep_ok g1) as Hok1.
  { apply (ep_exec_ok EpTake); [done|]. apply (ep_exec_ok (EpPacket (in_pkt inb))); [|done].
    by intros ? [= <-]. }
  assert (0 ≤ downstream_mtu (in_qname inb)) as Hmtu by (unfold downstream_mtu, saturating_sub; lia).
  destruct (build_packet_typed (downstream_mtu (in_qname inb)) g1) as [Hpt Hlen];
    [by simpl; rewrite on_packet_session|done|done|]. fold r in Hpt, Hlen.
  assert (∃ m, encode_response (dns_id inb) (in_qname inb) (Packet_encode blake3 rng r.2)
    (in_rd inb) (in_opt inb) = Some m) as [m Hm].
  { unfold encode_response. destruct (encode_name_total (in_qname inb) (Header_write
      (mkHeader (dns_id inb) (if in_rd inb then Z.lor (Z.lor FLAG_QR FLAG_AA) FLAG_RD
       else Z.lor FLAG_QR FLAG_AA) 1 1 0 (if in_opt inb then 1 else 0)) []) Hw Hl) as [o Ho];
      [unfold zlen in *; lia|]. rewrite Ho. by eexists. }
  destruct (downstream_delivery blake3 blake3_len rng r.2 (in_qname inb) (dns_id inb)
    (in_rd inb) (in_opt inb) m Hr Hpt (proj1 Hw) Hid Hlen Hm) as [(payload & Hpr & Hpd) H512].
  exists m, payload. split_and!; try done. unfold driver_step. simpl. unfold r, g1 in *. simpl in *.
  by rewrite Hm.
Qed.

(** One query and its response carry out one packet exchange. The client
    packs the packet its endpoint builds into a query; if the server serves the
    session, its driver processes exactly that packet, and the response datagram
    (at most 512 bytes) decodes at the client to exactly the packet the server's
    endpoint built in return. *)
Theorem dns_exchange rng rng' c g dom id cookie now permit order s :
  rng_ok rng → rng_ok rng' → domain_ok dom → in_u16 id → 0 < max_upstream_data dom →
  in_u32 (ep_session c) → in_u32 (ep_session g) → ep_ok c → ep_ok g →
  let pkt := (build_packet (max_upstream_data dom) c).2 in
  let routed := route (session pkt) now permit order s in
  let g1 := (take_delivered (on_packet pkt g)).1 in
  ∃ name q inb m payload,
    to_query_name blake3 rng pkt dom = Some name ∧ encode_query id cookie name = Some q ∧
    serve_datagram blake3 dom q now permit order s
      = (routed.1, if routed.2 then Some (session pkt, inb) else None) ∧
    in_pkt inb = pkt ∧
    (let r := build_packet (downstream_mtu (in_qname inb)) g1 in
     driver_step blake3 rng' inb g = (r.1, delivered (on_packet pkt g), Some m) ∧
     zlen m ≤ 512 ∧ parse_response m = Some (id, payload) ∧
     Packet_decode blake3 payload = Some r.2).
Proof.
  intros Hr Hr' Hd Hid Hmax Hcs Hgs Hc Hg pkt routed g1.
  destruct (build_packet_typed (max_upstream_data dom) c Hcs Hc ltac:(lia)) as [Hpt Hlen].
  fold pkt in Hpt, Hlen.
  destruct (upstream_delivery blake3 blake3_len rng pkt dom id cookie Hr Hpt Hd Hid Hlen Hmax)
    as (name & q & Hname & Hq & Hparse & Hfrom & Hw & Hl & Hn).
  destruct (name_wf_lowercase name Hw Hl) as [Hw' Hl'].
  set (inb := mkInbound id (to_ascii_lowercase name) pkt true true).
  destruct (driver_answer rng' inb g) as (m & payload & Hstep & H512 & Hpr & Hpd); try done.
  { simpl. unfold zlen, to_ascii_lowercase in *. by rewrite length_fmap. }
  exists name, q, inb, m, payload. split_and!; try done.
  unfold serve_datagram. rewrite Hparse. cbn [q_name q_id recursion_desired had_opt].
  rewrite Hfrom. fold routed. by destruct routed as [s' [|]].
Qed.
End roundtrip.

Lemma dns_exchange_witness :
  let c := write [x68; x69] (ReliableEndpoint_new 7 true) in
  let g := ReliableEndpoint_new 0 false in
  ∃ name q inb m payload,
    to_query_name demo_digest None (build_packet (max_upstream_data demo_name) c).2 demo_name = Some name ∧
    encode_query 99 (replicate 8 x00) name = Some q ∧
    (serve_datagram demo_digest demo_name q 5 true (λ m, map_to_list m) (server_new 0)).2
      = Some (7, inb) ∧
    (driver_step demo_digest None inb g).1.2 = [x68; x69] ∧
    (driver_step demo_digest None inb g).2 = Some m ∧ parse_response m = Some (99, payload).
Proof.
  set (c := write [x68; x69] (ReliableEndpoint_new 7 true)). set (g := ReliableEndpoint_new 0 false).
  destruct (dns_exchange demo_digest demo_digest_len None None c g demo_name 99 (replicate 8 x00) 5 true
    (λ m, map_to_list m) (server_new 0)) as (name & q & inb & m & payload & H1 & H2 & H3 & _ & H4 & _ & H5 & _);
    [done|done|apply demo_domain_ok|vm_decide..|split; vm_decide|split; vm_decide|].
  exists name, q, inb, m, payload. split; [exact H1|]. split; [exact H2|].
  split; [rewrite H3; vm_compute; reflexivity|].
  split; [rewrite H4; vm_compute; reflexivity|].
  split; [rewrite H4; reflexivity|exact H5].
Defined.
