(* ===== verification/Migration.v ===== *)
(** * Connection migration (crates/migration/src/state.rs, challenge.rs, policy.rs)

    [MigrationState] with all its operations. Socket addresses are an abstract
    type with decidable equality; instants are nanoseconds since an epoch with a
    least representable value; the constant-time comparison of the [subtle]
    crate and the random generator are parameters. *)

From stdpp Require Import base numbers list.
From Stdlib Require Import ZArith Lia Strings.Byte.
From S2P Require Import Prelude Bytes.

Abbreviation CHALLENGE_LEN := 8%nat (only parsing).
Abbreviation MAX_SIMULTANEOUS_CHALLENGES := 4%nat (only parsing).
Abbreviation DEFAULT_VALIDATION_TIMEOUT_MS := 1500%Z (only parsing).
Abbreviation DEFAULT_MAX_MIGRATIONS_PER_MIN := 6%Z (only parsing).
Abbreviation DEFAULT_RETIREMENT_GRACE_MS := 3000%Z (only parsing).
Definition MINUTE : Z := 60 * 10 ^ 9.

Record MigrationPolicy : Type := mkMigrationPolicy {
  validation_timeout : Z;
  max_migrations_per_min : Z;
  require_validation : bool;
  retirement_grace : Z;
}.

Definition MigrationPolicy_default : MigrationPolicy :=
  mkMigrationPolicy (DEFAULT_VALIDATION_TIMEOUT_MS * 10 ^ 6) DEFAULT_MAX_MIGRATIONS_PER_MIN
    true (DEFAULT_RETIREMENT_GRACE_MS * 10 ^ 6).

(** [PathChallenge] and [PathResponse]: 8 bytes each. *)
Abbreviation PathChallenge := (list byte) (only parsing).
Abbreviation PathResponse := (list byte) (only parsing).
Abbreviation to_response c := (c) (only parsing).

Inductive MigrationError : Set := RateLimit (n : Z) | UnmatchedResponse | Csprng.

Section migration.
Context {A : Type} `{EqDecision A}.

Inductive MigrationDecision : Type :=
| MdActive
| MdNewChallenge (path : A) (challenge : PathChallenge)
| MdMigrated (new_active retiring_path : A)
| MdStillChallenging.

Record MigrationState : Type := mkMigration {
  mg_policy : MigrationPolicy;
  active : A;
  challenging : list (A * PathChallenge * Z);
  recent_migrations : list Z;
  retiring : option (A * Z);
}.

Definition set_active (a : A) (s : MigrationState) : MigrationState :=
  mkMigration (mg_policy s) a (challenging s) (recent_migrations s) (retiring s).
Definition set_challenging (l : list (A * PathChallenge * Z)) (s : MigrationState) : MigrationState :=
  mkMigration (mg_policy s) (active s) l (recent_migrations s) (retiring s).
Definition set_recent (l : list Z) (s : MigrationState) : MigrationState :=
  mkMigration (mg_policy s) (active s) (challenging s) l (retiring s).
Definition set_retiring (o : option (A * Z)) (s : MigrationState) : MigrationState :=
  mkMigration (mg_policy s) (active s) (challenging s) (recent_migrations s) o.

(** [subtle]'s [ct_eq]. *)
Variable ct_eq : list byte → list byte → bool.
(** The least representable instant, for [Instant::checked_sub]. *)
Variable instant_min : Z.

Definition matches (r : PathResponse) (c : PathChallenge) : bool := ct_eq r c.

Definition checked_sub_or (now d : Z) : Z :=
  if bool_decide (now - d < instant_min) then now else now - d.

Definition MigrationState_new (p : MigrationPolicy) (initial_path : A) : MigrationState :=
  mkMigration p initial_path [] [] None.

Definition is_challenged (a : A) (s : MigrationState) : bool :=
  existsb (λ e, bool_decide (e.1.1 = a)) (challenging s).

Definition expire_retiring (now : Z) (s : MigrationState) : MigrationState :=
  match retiring s with
  | Some (_, started) =>
    if bool_decide (Z.max 0 (now - started) >= retirement_grace (mg_policy s))
    then set_retiring None s else s
  | None => s
  end.

(** [while let Some(t) = front() { if *t < cutoff { pop_front() } else { break } }] *)
Fixpoint pop_old (cutoff : Z) (l : list Z) : list Z :=
  match l with
  | t :: l' => if bool_decide (t < cutoff) then pop_old cutoff l' else l
  | [] => []
  end.

Definition expire_old_migrations (now : Z) (s : MigrationState) : MigrationState :=
  set_recent (pop_old (checked_sub_or now MINUTE) (recent_migrations s)) s.

Abbreviation mig := (stm MigrationState MigrationError).

(** [rng]: the outcome of [PathChallenge::random]. *)
Definition observe_inbound (rng : option PathChallenge) (from_addr : A) (now : Z)
  : mig MigrationDecision :=
  st_mod (expire_retiring now) ;;;
  s <- st_get ;;
  if bool_decide (from_addr = active s) then st_ret MdActive
  else if is_challenged from_addr s then st_ret MdStillChallenging
  else if match retiring s with Some (a, _) => bool_decide (a = from_addr) | None => false end
  then st_ret MdActive
  else
    st_mod (expire_old_migrations now) ;;;
    s <- st_get ;;
    if bool_decide (zlen (recent_migrations s) >= max_migrations_per_min (mg_policy s))
    then st_err (RateLimit (max_migrations_per_min (mg_policy s)))
    else
      st_mod (λ s, if (MAX_SIMULTANEOUS_CHALLENGES <=? length (challenging s))%nat
                   then set_challenging (drop 1 (challenging s)) s else s) ;;;
      challenge <- st_lift (ok_or rng Csprng) ;;
      st_mod (λ s, set_challenging (challenging s ++ [(from_addr, challenge, now)]) s) ;;;
      st_ret (MdNewChallenge from_addr challenge).

Definition challenge_hit (from_addr : A) (r : PathResponse) (e : A * PathChallenge * Z) : bool :=
  bool_decide (e.1.1 = from_addr) && matches r e.1.2.

(** [iter().position(..)] and [remove(idx)] *)
Fixpoint remove_hit (from_addr : A) (r : PathResponse) (l : list (A * PathChallenge * Z))
  : option ((A * PathChallenge * Z) * list (A * PathChallenge * Z)) :=
  match l with
  | [] => None
  | e :: l =>
    if challenge_hit from_addr r e then Some (e, l)
    else match remove_hit from_addr r l with
         | None => None
         | Some (h, l') => Some (h, e :: l')
         end
  end.

Definition observe_response (from_addr : A) (r : PathResponse) (now : Z)
  : mig MigrationDecision :=
  st_mod (expire_old_migrations now) ;;;
  st_mod (λ s, set_challenging
    (filter (λ e, e.2 >= checked_sub_or now (validation_timeout (mg_policy s))) (challenging s)) s) ;;;
  s <- st_get ;;
  hit <- st_lift (ok_or (remove_hit from_addr r (challenging s)) UnmatchedResponse) ;;
  let '((new_active, _, _), rest) := hit in
  st_mod (set_challenging rest) ;;;
  let old := active s in
  st_mod (set_active new_active) ;;;
  st_mod (set_retiring (Some (old, now))) ;;;
  st_mod (λ s, set_recent (recent_migrations s ++ [now]) s) ;;;
  st_ret (MdMigrated new_active old).

Definition finalize_retirement (s : MigrationState) : MigrationState := set_retiring None s.

(** ** Outcomes *)

(** The addresses with an outstanding challenge. *)
Definition addrs (s : MigrationState) : list A := (λ e, e.1.1) <$> challenging s.

Lemma is_challenged_spec a s : is_challenged a s = true ↔ a ∈ addrs s.
Proof.
  unfold is_challenged, addrs. rewrite existsb_exists, list_elem_of_fmap. split.
  - intros (e & Hin & He). apply bool_decide_eq_true in He. exists e.
    split; [done|]. by apply list_elem_of_In.
  - intros (e & -> & Hin). exists e. split; [by apply list_elem_of_In|]. by apply bool_decide_eq_true.
Qed.

(** A full challenge list loses its oldest entry. *)
Definition make_room (s : MigrationState) : MigrationState :=
  if (MAX_SIMULTANEOUS_CHALLENGES <=? length (challenging s))%nat
  then set_challenging (drop 1 (challenging s)) s else s.

Lemma observe_inbound_eq rng a now s :
  observe_inbound rng a now s =
    let s1 := expire_retiring now s in
    if bool_decide (a = active s1) then (s1, Ok MdActive)
    else if is_challenged a s1 then (s1, Ok MdStillChallenging)
    else if match retiring s1 with Some (b, _) => bool_decide (b = a) | None => false end
    then (s1, Ok MdActive)
    else
      let s2 := expire_old_migrations now s1 in
      if bool_decide (zlen (recent_migrations s2) >= max_migrations_per_min (mg_policy s2))
      then (s2, Err (RateLimit (max_migrations_per_min (mg_policy s2))))
      else match rng with
           | None => (make_room s2, Err Csprng)
           | Some c =>
             (set_challenging (challenging (make_room s2) ++ [(a, c, now)]) (make_room s2),
              Ok (MdNewChallenge a c))
           end.
Proof.
  unfold observe_inbound, st_bind, st_mod, st_get, st_ret, st_err, st_lift. cbv zeta.
  case_bool_decide; [done|]. destruct (is_challenged _ _); [done|].
  destruct (match retiring _ with Some _ => _ | None => _ end); [done|].
  case_bool_decide; [done|]. fold (make_room (expire_old_migrations now (expire_retiring now s))).
  by destruct rng.
Qed.

Lemma observe_response_eq a r now s :
  observe_response a r now s =
    let s1 := expire_old_migrations now s in
    let s2 := set_challenging (filter (λ e, e.2 >= checked_sub_or now (validation_timeout (mg_policy s1)))
                (challenging s1)) s1 in
    match remove_hit a r (challenging s2) with
    | None => (s2, Err UnmatchedResponse)
    | Some ((b, c, t), rest) =>
      (mkMigration (mg_policy s) b rest (recent_migrations s1 ++ [now]) (Some (active s, now)),
       Ok (MdMigrated b (active s)))
    end.
Proof.
  unfold observe_response, st_bind, st_mod, st_get, st_ret, st_err, st_lift. cbv zeta.
  destruct (remove_hit _ _ _) as [[[[b c] t] rest]|]; done.
Qed.

Hypothesis ct_eq_spec : ∀ x y, ct_eq x y = true ↔ x = y.

Lemma remove_hit_spec a r l e rest :
  remove_hit a r l = Some (e, rest) →
  e.1.1 = a ∧ e.1.2 = r ∧ ∃ l1 l2, l = l1 ++ e :: l2 ∧ rest = l1 ++ l2.
Proof.
  revert e rest. induction l as [|x l IH]; intros e rest; cbn [remove_hit]; [done|].
  destruct (challenge_hit a r x) eqn:E.
  - intros [= <- <-]. apply andb_prop in E as [E1%bool_decide_eq_true E2].
    apply ct_eq_spec in E2. split_and!; [done|done|]. by exists [], l.
  - destruct (remove_hit a r l) as [[h l']|]; [|done]. intros [= <- <-].
    destruct (IH h l' eq_refl) as (? & ? & l1 & l2 & -> & ->). split_and!; [done|done|].
    by exists (x :: l1), l2.
Qed.

(** ** Traces *)
Inductive mig_op : Type :=
| MInbound (rng : option PathChallenge) (from_addr : A)
| MResponse (from_addr : A) (r : PathResponse)
| MFinalize.

(** A connection with its clock, every challenge it has issued and the times of
    its migrations. *)
Record trace : Type := mkTrace {
  ts : MigrationState;
  clock : Z;
  issued : list (A * PathChallenge * Z);
  migrations : list Z;
}.

Definition trace_step (op : mig_op) (now : Z) (tr : trace) : trace :=
  match op with
  | MInbound rng a =>
    let '(s, res) := observe_inbound rng a now (ts tr) in
    mkTrace s now
      (issued tr ++ match res with Ok (MdNewChallenge b c) => [(b, c, now)] | _ => [] end)
      (migrations tr)
  | MResponse a r =>
    let '(s, res) := observe_response a r now (ts tr) in
    mkTrace s now (issued tr)
      (migrations tr ++ match res with Ok (MdMigrated _ _) => [now] | _ => [] end)
  | MFinalize => mkTrace (finalize_retirement (ts tr)) now (issued tr) (migrations tr)
  end.

Inductive reachable (p : MigrationPolicy) (a0 : A) (t0 : Z) : trace → Prop :=
| mr_new : reachable p a0 t0 (mkTrace (MigrationState_new p a0) t0 [] [])
| mr_step tr op now :
    reachable p a0 t0 tr → clock tr ≤ now → reachable p a0 t0 (trace_step op now tr).

Record mig_inv (p : MigrationPolicy) (t0 : Z) (tr : trace) : Prop := {
  gi_policy : mg_policy (ts tr) = p;
  gi_clock : t0 ≤ clock tr;
  gi_four : (length (challenging (ts tr)) ≤ MAX_SIMULTANEOUS_CHALLENGES)%nat;
  gi_nodup : NoDup (addrs (ts tr));
  gi_active : active (ts tr) ∉ addrs (ts tr);
  gi_retiring : ∀ a t, retiring (ts tr) = Some (a, t) → a ≠ active (ts tr) ∧ a ∉ addrs (ts tr);
  gi_issued : ∀ e, e ∈ challenging (ts tr) → e ∈ issued tr ∧ e.2 ≤ clock tr;
  gi_rate : zlen (recent_migrations (ts tr)) + zlen (challenging (ts tr))
              ≤ max_migrations_per_min p + 3;
  gi_log : ∃ old, migrations tr = old ++ recent_migrations (ts tr) ∧
             Forall (λ t, t < clock tr - MINUTE) old;
}.

Lemma pop_old_spec c l : ∃ old, l = old ++ pop_old c l ∧ Forall (λ t, t < c) old.
Proof.
  induction l as [|t l (old & E & Hf)]; simpl; [by exists []|]. case_bool_decide.
  - exists (t :: old). split; [simpl; by f_equal|by constructor].
  - by exists [].
Qed.

Section invariant.
Context (p : MigrationPolicy) (t0 : Z).
Context (Hmax : 0 ≤ max_migrations_per_min p) (Hmin : instant_min + MINUTE ≤ t0).

(** Dropping challenges, and popping old migrations, keep the invariant. *)
Lemma inv_shrink tr now s' l1 l2 :
  mig_inv p t0 tr → clock tr ≤ now →
  mg_policy s' = p → active s' = active (ts tr) →
  retiring s' = retiring (ts tr) ∨ retiring s' = None →
  challenging s' `sublist_of` challenging (ts tr) →
  (recent_migrations s' = recent_migrations (ts tr) ∨
   recent_migrations s' = pop_old (checked_sub_or now MINUTE) (recent_migrations (ts tr))) →
  l1 = issued tr → l2 = migrations tr →
  mig_inv p t0 (mkTrace s' now l1 l2).
Proof.
  intros [] Hc Hp Ha Hr Hch Hrec -> ->.
  assert (addrs s' `sublist_of` addrs (ts tr)) as Hsub by (by apply fmap_sublist).
  destruct gi_log0 as (old & Hlog & Hold).
  assert (∃ old', recent_migrations (ts tr) = old' ++ recent_migrations s' ∧
    Forall (λ t, t < now - MINUTE) old') as (old' & Hrm & Hold').
  { destruct Hrec as [->| ->]; [by exists []|].
    destruct (pop_old_spec (checked_sub_or now MINUTE) (recent_migrations (ts tr))) as (o & E & Ho).
    exists o. split; [done|]. eapply Forall_impl; [exact Ho|]. intros t. simpl.
    unfold checked_sub_or. rewrite bool_decide_false; lia. }
  split; simpl; try done; try lia.
  - apply sublist_length in Hch. lia.
  - by eapply sublist_NoDup.
  - rewrite Ha. intros Hin. apply gi_active0. by eapply elem_of_sublist.
  - intros a t Hra. destruct Hr as [Hr|Hr]; [|congruence]. rewrite Hr in Hra.
    destruct (gi_retiring0 a t Hra) as [? Hn]. rewrite Ha. split; [done|].
    intros Hin. apply Hn. by eapply elem_of_sublist.
  - intros e He. destruct (gi_issued0 e); [by eapply elem_of_sublist|]. split; [done|lia].
  - apply sublist_length in Hch. rewrite Hrm in gi_rate0. rewrite zlen_app in gi_rate0.
    pose proof (zlen_nonneg old'). unfold zlen in *. lia.
  - exists (old ++ old'). rewrite Hlog, Hrm. split; [by rewrite app_assoc|].
    apply Forall_app_2; [|done]. eapply Forall_impl; [exact Hold|]. simpl. lia.
Qed.

Lemma inv_add s now l1 l2 a c :
  mig_inv p t0 (mkTrace s now l1 l2) → (length (challenging s) < MAX_SIMULTANEOUS_CHALLENGES)%nat →
  a ∉ addrs s → a ≠ active s → (∀ b t, retiring s = Some (b, t) → b ≠ a) →
  zlen (recent_migrations s) < max_migrations_per_min p →
  mig_inv p t0 (mkTrace (set_challenging (challenging s ++ [(a, c, now)]) s) now
                  (l1 ++ [(a, c, now)]) l2).
Proof.
  intros [] Hlen Hna Hact Hret Hrec. simpl in *.
  assert (addrs (set_challenging (challenging s ++ [(a, c, now)]) s) = addrs s ++ [a]) as Had
    by (unfold addrs; simpl; by rewrite fmap_app).
  split; simpl; rewrite ?Had; try done.
  - rewrite length_app. simpl. lia.
  - apply NoDup_app. split_and!; [done| |apply NoDup_singleton].
    intros x Hx Hx'. apply list_elem_of_singleton in Hx' as ->. done.
  - rewrite elem_of_app, list_elem_of_singleton. intros [?|?]; [done|congruence].
  - intros b t Hb. destruct (gi_retiring0 b t Hb). split; [done|].
    rewrite elem_of_app, list_elem_of_singleton. intros [?|?]; [done|]. by apply (Hret b t).
  - intros e He. apply elem_of_app in He as [He|He].
    + destruct (gi_issued0 e He). split; [|done]. apply elem_of_app. by left.
    + split; [apply elem_of_app; by right|]. by apply list_elem_of_singleton in He as ->.
  - rewrite zlen_app. unfold zlen in *. simpl. lia.
Qed.

Lemma expire_retiring_fields now s :
  mg_policy (expire_retiring now s) = mg_policy s ∧ active (expire_retiring now s) = active s ∧
  challenging (expire_retiring now s) = challenging s ∧
  recent_migrations (expire_retiring now s) = recent_migrations s ∧
  (retiring (expire_retiring now s) = retiring s ∨ retiring (expire_retiring now s) = None).
Proof.
  unfold expire_retiring. destruct (retiring s) as [[? ?]|] eqn:E; [case_bool_decide|];
    simpl; split_and!; try done; rewrite ?E; auto.
Qed.

Lemma make_room_fields s :
  mg_policy (make_room s) = mg_policy s ∧ active (make_room s) = active s ∧
  retiring (make_room s) = retiring s ∧ recent_migrations (make_room s) = recent_migrations s ∧
  challenging (make_room s) `sublist_of` challenging s ∧
  ((length (challenging s) ≤ MAX_SIMULTANEOUS_CHALLENGES)%nat →
   (length (challenging (make_room s)) < MAX_SIMULTANEOUS_CHALLENGES)%nat).
Proof.
  unfold make_room. destruct (Nat.leb_spec MAX_SIMULTANEOUS_CHALLENGES (length (challenging s)));
    simpl; split_and!; try done.
  - apply sublist_drop.
  - rewrite length_drop. lia.
Qed.

Lemma inbound_inv rng a now tr :
  mig_inv p t0 tr → clock tr ≤ now → mig_inv p t0 (trace_step (MInbound rng a) now tr).
Proof.
  intros I Hc. pose proof (gi_policy _ _ _ I) as Hp. simpl. rewrite observe_inbound_eq. cbv zeta.
  destruct (expire_retiring_fields now (ts tr)) as (Ep & Ea & Ec & Er & Et).
  set (s1 := expire_retiring now (ts tr)) in *. clearbody s1.
  assert (∀ s' : MigrationState, mg_policy s' = mg_policy s1 → active s' = active s1 → retiring s' = retiring s1 →
    challenging s' `sublist_of` challenging s1 →
    (recent_migrations s' = recent_migrations s1 ∨
     recent_migrations s' = pop_old (checked_sub_or now MINUTE) (recent_migrations s1)) →
    mig_inv p t0 (mkTrace s' now (issued tr) (migrations tr))) as Hgo.
  { intros s' H1 H2 H3 H4 H5. eapply inv_shrink; try done; try congruence. }
  assert (mig_inv p t0 (mkTrace s1 now (issued tr) (migrations tr))) as I1 by (apply Hgo; auto).
  case_bool_decide as Hact; [by rewrite app_nil_r|].
  destruct (is_challenged a s1) eqn:Hch; [by rewrite app_nil_r|].
  destruct (match retiring s1 with Some (b, _) => bool_decide (b = a) | None => false end) eqn:Hret;
    [by rewrite app_nil_r|].
  set (s2 := expire_old_migrations now s1).
  destruct (make_room_fields s2) as (Mp & Ma & Mr & Mm & Ms & Ml).
  case_bool_decide as Hrl; [rewrite app_nil_r; apply Hgo; auto|].
  destruct rng as [c|]; [|rewrite app_nil_r; apply Hgo; try done; rewrite Mm; by right].
  apply inv_add.
  - apply Hgo; try done. rewrite Mm. by right.
  - apply Ml. apply (gi_four _ _ _ I1).
  - intros Hin. assert (is_challenged a s1 = true); [|congruence]. apply is_challenged_spec.
    eapply elem_of_sublist; [exact Hin|]. by apply fmap_sublist.
  - by rewrite Ma.
  - intros b t Hb -> . rewrite Mr in Hb. change (retiring s2) with (retiring s1) in Hb.
    rewrite Hb in Hret. by apply bool_decide_eq_false in Hret.
  - rewrite Mm. change (mg_policy s2) with (mg_policy s1) in Hrl. rewrite Ep, Hp in Hrl. lia.
Qed.

Lemma response_inv a r now tr :
  mig_inv p t0 tr → clock tr ≤ now → mig_inv p t0 (trace_step (MResponse a r) now tr).
Proof.
  intros I Hc. pose proof (gi_policy _ _ _ I) as Hp. simpl. rewrite observe_response_eq. cbv zeta.
  set (s1 := expire_old_migrations now (ts tr)).
  set (s2 := set_challenging (filter _ (challenging s1)) s1).
  assert (mig_inv p t0 (mkTrace s2 now (issued tr) (migrations tr))) as I2.
  { eapply inv_shrink; try done; [by left|apply sublist_filter|by right]. }
  destruct (remove_hit a r (challenging s2)) as [[[[b c] t] rest]|] eqn:E; [|by rewrite app_nil_r].
  apply remove_hit_spec in E as (<- & _ & l1 & l2 & Hl & ->). cbn [fst] in *.
  assert (active s2 = active (ts tr) ∧ recent_migrations s2 = recent_migrations s1) as [Hact Hrec] by done.
  destruct I2. cbn [ts clock issued migrations] in *. clearbody s2. rewrite Hact in gi_active0.
  assert (addrs s2 = (fst <$> (fst <$> l1)) ++ b :: (fst <$> (fst <$> l2))) as Had.
  { unfold addrs. rewrite Hl, fmap_app, <- !list_fmap_compose. done. }
  rewrite Had in gi_nodup0, gi_active0.
  apply NoDup_app in gi_nodup0 as (N1 & N12 & N2). apply NoDup_cons in N2 as [Nb N2].
  rewrite elem_of_app, elem_of_cons in gi_active0.
  match goal with |- mig_inv p t0 {| ts := ?s |} => set (s3 := s) end.
  assert (addrs s3 = (fst <$> (fst <$> l1)) ++ (fst <$> (fst <$> l2))) as Had3.
  { unfold addrs, s3. simpl. rewrite fmap_app, <- !list_fmap_compose. done. }
  split; simpl; rewrite ?Had3; try done.
  - rewrite Hl, length_app in gi_four0. simpl in gi_four0. rewrite length_app. lia.
  - apply NoDup_app. split_and!; [done| |done]. intros x H1 H2. apply (N12 x H1).
    apply elem_of_cons. by right.
  - rewrite elem_of_app. intros [Hin|Hin]; [|done]. apply (N12 b Hin). apply elem_of_cons. by left.
  - intros x t' [= <- _]. rewrite elem_of_app. split; [|tauto].
    intros E. rewrite E in gi_active0. tauto.
  - intros e He. apply gi_issued0. rewrite Hl. apply elem_of_app in He as [He|He];
      apply elem_of_app; [by left|right; apply elem_of_cons; by right].
  - rewrite Hl, Hrec in gi_rate0. rewrite !zlen_app in *. unfold s1, zlen in *. simpl in *. lia.
  - destruct gi_log0 as (old & Hlog & Hold). exists old. split; [|done].
    rewrite Hlog, Hrec. by rewrite <- app_assoc.
Qed.

Lemma reachable_inv a0 tr : reachable p a0 t0 tr → mig_inv p t0 tr.
Proof.
  induction 1 as [|tr op now _ IH Hc].
  - split; simpl; try done; try by constructor.
    + lia.
    + apply not_elem_of_nil.
    + by intros e He%elem_of_nil.
    + change (zlen []) with 0. lia.
    + by exists [].
  - destruct op as [rng a|a r|]; [by apply inbound_inv|by apply response_inv|].
    eapply inv_shrink; try done; [apply (gi_policy _ _ _ IH)|by right|by left].
Qed.

Lemma inbound_active rng a now s : active (observe_inbound rng a now s).1 = active s.
Proof.
  rewrite observe_inbound_eq. cbv zeta. destruct (expire_retiring_fields now s) as (_ & Ha & _).
  repeat case_match; simpl; try done; by rewrite (proj1 (proj2 (make_room_fields _))).
Qed.
End invariant.

(** ** Guarantees *)
Lemma challenge_unique s a c t c' t' :
  NoDup (addrs s) → (a, c, t) ∈ challenging s → (a, c', t') ∈ challenging s → t = t'.
Proof.
  unfold addrs. intros Hnd Hin Hin'. apply list_elem_of_lookup in Hin as [i Hi].
  apply list_elem_of_lookup in Hin' as [j Hj].
  assert (i = j) as ->; [|congruence].
  eapply NoDup_lookup; [exact Hnd| |]; rewrite list_lookup_fmap; [by rewrite Hi|by rewrite Hj].
Qed.

(** C32: no migration without validation. Whatever packets and responses arrive,
    the active path changes only when a response arrives from the new path whose
    bytes are exactly a challenge this connection issued to that path at most
    [validation_timeout] ago. *)
Theorem migration_validated p a0 t0 tr op now :
  0 ≤ max_migrations_per_min p → instant_min + MINUTE ≤ t0 → 0 ≤ validation_timeout p →
  reachable p a0 t0 tr → clock tr ≤ now →
  active (ts (trace_step op now tr)) ≠ active (ts tr) →
  ∃ a r t, op = MResponse a r ∧ active (ts (trace_step op now tr)) = a ∧
    (a, r, t) ∈ issued tr ∧ now - validation_timeout p ≤ t ≤ now.
Proof.
  intros Hm Hmin Hto Hr Hc. pose proof (reachable_inv p t0 Hm Hmin a0 tr Hr) as [].
  destruct op as [rng a|a r|]; simpl; [|rewrite observe_response_eq; cbv zeta|done].
  { pose proof (inbound_active rng a now (ts tr)) as Ha.
    destruct (observe_inbound rng a now (ts tr)) as [s res]. simpl in *. congruence. }
  destruct (remove_hit a r _) as [[[[b c] t] rest]|] eqn:E; [|done]. intros _.
  apply remove_hit_spec in E as (Hb & Hc' & l1 & l2 & Hl & _). simpl in *. subst b c.
  exists a, r, t. assert ((a, r, t) ∈ challenging (ts tr) ∧
    t >= checked_sub_or now (validation_timeout (mg_policy (ts tr)))) as [Hin Ht].
  { assert ((a, r, t) ∈ filter (λ e, e.2 >= checked_sub_or now (validation_timeout (mg_policy (ts tr))))
      (challenging (ts tr))) as [? ?]%list_elem_of_filter; [|done].
    rewrite Hl. apply elem_of_app. right. apply elem_of_cons. by left. }
  destruct (gi_issued0 _ Hin) as [Hi Hle]. simpl in Hle. split_and!; try done; [|lia].
  rewrite gi_policy0 in Ht. unfold checked_sub_or in Ht. case_bool_decide; lia.
Qed.

(** How often a connection can migrate. In any 60-second window at most
    [max_migrations_per_min + 3] migrations complete, and at most 4 challenges
    are outstanding, whatever arrives. *)
Theorem migration_rate p a0 t0 tr :
  0 ≤ max_migrations_per_min p → instant_min + MINUTE ≤ t0 →
  reachable p a0 t0 tr →
  zlen (filter (λ t, t >= clock tr - MINUTE) (migrations tr)) ≤ max_migrations_per_min p + 3 ∧
  (length (challenging (ts tr)) ≤ 4)%nat ∧ NoDup (addrs (ts tr)).
Proof.
  intros Hm Hmin Hr. destruct (reachable_inv p t0 Hm Hmin a0 tr Hr) as [].
  split_and!; [|done|done]. destruct gi_log0 as (old & -> & Hold).
  assert (filter (λ t, t >= clock tr - MINUTE) old = []) as Hf.
  { induction Hold as [|t old Ht Hold IH]; [done|]. rewrite filter_cons_False by lia. done. }
  rewrite filter_app, Hf. cbn [app].
  pose proof (sublist_length _ _ (sublist_filter (λ t, t >= clock tr - MINUTE)
    (recent_migrations (ts tr)))) as Hs.
  pose proof (zlen_nonneg (challenging (ts tr))). unfold zlen in *. lia.
Qed.

(** A lost challenge blocks its path. Once a challenge has outlived the
    validation timeout, packets from its address are still answered with
    [StillChallenging], never with a new challenge, and the right response is
    refused as unmatched: [observe_inbound] does not expire challenges. *)
Theorem stale_challenge_blocks s a c t now rng :
  (a, c, t) ∈ challenging s → a ≠ active s → NoDup (addrs s) →
  t < now - validation_timeout (mg_policy s) → instant_min ≤ now - validation_timeout (mg_policy s) →
  (observe_inbound rng a now s).2 = Ok MdStillChallenging ∧
  challenging (observe_inbound rng a now s).1 = challenging s ∧
  (observe_response a (to_response c) now s).2 = Err UnmatchedResponse.
Proof.
  intros Hin Ha Hnd Ht Hmin. destruct (expire_retiring_fields now s) as (Ep & Ea & Ec & _).
  split_and!.
  - rewrite observe_inbound_eq. cbv zeta. rewrite bool_decide_false by congruence.
    assert (is_challenged a (expire_retiring now s) = true) as ->; [|done].
    apply is_challenged_spec. unfold addrs. rewrite Ec. apply list_elem_of_fmap. by exists (a, c, t).
  - rewrite observe_inbound_eq. cbv zeta. rewrite bool_decide_false by congruence.
    assert (is_challenged a (expire_retiring now s) = true) as ->; [|done].
    apply is_challenged_spec. unfold addrs. rewrite Ec. apply list_elem_of_fmap. by exists (a, c, t).
  - rewrite observe_response_eq. cbv zeta.
    destruct (remove_hit a _ _) as [[[[b c'] t'] rest]|] eqn:E; [|done]. exfalso.
    apply remove_hit_spec in E as (Hb & _ & l1 & l2 & Hl & _). simpl in *. subst b.
    assert ((a, c', t') ∈ filter (λ e, e.2 >= checked_sub_or now (validation_timeout (mg_policy s)))
      (challenging s)) as [Ht' Hin']%list_elem_of_filter
      by (rewrite Hl; apply elem_of_app; right; apply elem_of_cons; by left).
    simpl in Ht'. unfold checked_sub_or in Ht'. rewrite bool_decide_false in Ht' by lia.
    assert (t' = t) as ->; [|lia]. eapply challenge_unique; [exact Hnd|exact Hin'|exact Hin].
Qed.

(** Early in the life of the clock every response is refused. When the
    validation timeout reaches back before the least representable instant,
    [checked_sub(..).unwrap_or(now)] makes the cutoff the present, and all
    challenges issued before this very instant are dropped as expired. *)
Theorem early_clock_refuses s a r now :
  now - validation_timeout (mg_policy s) < instant_min →
  (∀ e, e ∈ challenging s → e.2 < now) →
  (observe_response a r now s).2 = Err UnmatchedResponse ∧
  challenging (observe_response a r now s).1 = [].
Proof.
  intros Hlt Hall. rewrite observe_response_eq. cbv zeta. simpl.
  assert (filter (λ e : A * PathChallenge * Z,
    e.2 >= checked_sub_or now (validation_timeout (mg_policy s))) (challenging s) = []) as ->; [|done].
  assert (checked_sub_or now (validation_timeout (mg_policy s)) = now) as ->
    by (unfold checked_sub_or; by rewrite bool_decide_true).
  clear Hlt. induction (challenging s) as [|e l IH]; [done|].
  rewrite filter_cons_False.
  - apply IH. intros e' He'. apply Hall, elem_of_cons. by right.
  - assert (e.2 < now); [|lia]. apply Hall, elem_of_cons. by left.
Qed.
End migration.

(** ** Concrete runs, with numbers for addresses *)
Definition byte_eq (x y : list byte) : bool := bool_decide (x = y).

Lemma byte_eq_spec x y : byte_eq x y = true ↔ x = y.
Proof. apply bool_decide_eq_true. Qed.

Definition chal (n : Z) : PathChallenge := be_bytes 8 n.

(** Each step one millisecond after the previous one, an hour into the clock. *)
Fixpoint demo_run (ops : list (mig_op (A := Z))) (tr : trace) : trace :=
  match ops with
  | [] => tr
  | op :: ops => demo_run ops (trace_step byte_eq 0 op (clock tr + 10 ^ 6) tr)
  end.

Definition demo_start : trace :=
  mkTrace (MigrationState_new MigrationPolicy_default 0) (3600 * 10 ^ 9) [] [].

Lemma demo_run_reachable ops tr :
  reachable byte_eq 0 MigrationPolicy_default 0 (3600 * 10 ^ 9) tr →
  reachable byte_eq 0 MigrationPolicy_default 0 (3600 * 10 ^ 9) (demo_run ops tr).
Proof.
  revert tr. induction ops as [|op ops IH]; intros tr Hr; simpl; [done|].
  apply IH, mr_step; [done|lia].
Qed.

(** A packet from address [n], then the response to its challenge. *)
Definition move_to (n : Z) : list (mig_op (A := Z)) :=
  [MInbound (Some (chal n)) n; MResponse n (chal n)].

(** Five migrations, then four challenges at once, then four responses. *)
Definition burst : list (mig_op (A := Z)) :=
  move_to 1 ++ move_to 2 ++ move_to 3 ++ move_to 4 ++ move_to 5 ++
  [MInbound (Some (chal 6)) 6; MInbound (Some (chal 7)) 7; MInbound (Some (chal 8)) 8;
   MInbound (Some (chal 9)) 9;
   MResponse 6 (chal 6); MResponse 7 (chal 7); MResponse 8 (chal 8); MResponse 9 (chal 9)].

(** The cap on migrations per minute can be exceeded. With the default
    policy (6 per minute) nine migrations complete within 18 milliseconds: the
    limit is checked when a challenge is issued, not when it is answered. *)
Theorem migration_cap_exceeded :
  reachable byte_eq 0 MigrationPolicy_default 0 (3600 * 10 ^ 9) (demo_run burst demo_start) ∧
  max_migrations_per_min MigrationPolicy_default = 6 ∧
  zlen (migrations (demo_run burst demo_start)) = 9 ∧
  clock (demo_run burst demo_start) - 3600 * 10 ^ 9 = 18 * 10 ^ 6.
Proof.
  split; [apply demo_run_reachable, mr_new|]. vm_compute. done.
Qed.

Lemma migration_validated_witness :
  let tr := demo_run [MInbound (Some (chal 1)) 1] demo_start in
  active (ts (trace_step byte_eq 0 (MResponse 1 (chal 1)) (clock tr) tr)) = 1 ∧
  ∃ a r t, MResponse 1 (chal 1) = MResponse a r ∧
    active (ts (trace_step byte_eq 0 (MResponse 1 (chal 1)) (clock tr) tr)) = a ∧
    (a, r, t) ∈ issued tr ∧
    clock tr - validation_timeout MigrationPolicy_default ≤ t ≤ clock tr.
Proof.
  cbv zeta. split; [vm_compute; reflexivity|].
  apply (migration_validated byte_eq 0 byte_eq_spec MigrationPolicy_default 0 (3600 * 10 ^ 9));
    [vm_compute; discriminate|vm_compute; discriminate|vm_compute; discriminate
    |apply demo_run_reachable, mr_new|lia|vm_compute; discriminate].
Defined.

Lemma migration_rate_witness :
  zlen (filter (λ t, t >= clock (demo_run burst demo_start) - MINUTE)
          (migrations (demo_run burst demo_start))) ≤ 9.
Proof.
  apply (migration_rate byte_eq 0 byte_eq_spec MigrationPolicy_default 0 (3600 * 10 ^ 9));
    [vm_compute; discriminate|vm_compute; discriminate|apply demo_run_reachable, mr_new].
Defined.

Lemma stale_challenge_blocks_witness :
  let s := ts (demo_run [MInbound (Some (chal 1)) 1] demo_start) in
  (observe_inbound 0 (Some (chal 2)) 1 (7200 * 10 ^ 9) s).2 = Ok MdStillChallenging ∧
  (observe_response byte_eq 0 1 (chal 1) (7200 * 10 ^ 9) s).2 = Err UnmatchedResponse.
Proof.
  cbv zeta.
  destruct (stale_challenge_blocks byte_eq 0 byte_eq_spec
    (ts (demo_run [MInbound (Some (chal 1)) 1] demo_start)) 1 (chal 1) (3600 * 10 ^ 9 + 10 ^ 6)
    (7200 * 10 ^ 9) (Some (chal 2))) as (H1 & _ & H2);
    [vm_compute; left|vm_compute; discriminate|apply NoDup_singleton
    |vm_compute; reflexivity|vm_compute; discriminate|].
  split; [exact H1|exact H2].
Defined.

Lemma early_clock_refuses_witness :
  let s := mkMigration MigrationPolicy_default 0 [(1, chal 1, 5)] [] None in
  (observe_response byte_eq 0 1 (chal 1) 1000 s).2 = Err UnmatchedResponse.
Proof.
  apply (early_clock_refuses byte_eq 0
    (mkMigration MigrationPolicy_default 0 [(1, chal 1, 5)] [] None) 1 (chal 1) 1000).
  - vm_compute. reflexivity.
  - intros e He. apply list_elem_of_singleton in He as ->. vm_compute. reflexivity.
Defined.
