(* ===== verification/SessionFrames.v ===== *)
(** * The session framer (crates/session/src/frames.rs)

    [SessionFramer]: every frame is sealed twice, by the Noise transport of the
    handshake and by an outer AEAD whose keys follow a BLAKE3 ratchet. All of
    the framer's operations are here: the key schedule, [send], [recv] with its
    three trial epochs, [maybe_advance], [advance_epoch], [kem_reseed]. The
    hash, the key expansion, the AEAD and the Noise transport are the class
    [SessionCrypto]; what the code relies on of them is [SessionCryptoLaws].
    Wiping memory ([zeroize]) has no functional effect and is left out. *)

From stdpp Require Import base numbers list strings.
From Stdlib Require Import ZArith Lia Strings.Byte.
From S2P Require Import Prelude Bytes Text.

Abbreviation AEAD_TAG_LEN := 16 (only parsing).
Abbreviation MAX_FRAME_PLAINTEXT := 16384 (only parsing).
Abbreviation MAX_OUTER_CT_LEN := (MAX_FRAME_PLAINTEXT + 2 * AEAD_TAG_LEN) (only parsing).
Abbreviation MIN_OUTER_CT_LEN := (1 + 2 * AEAD_TAG_LEN) (only parsing).
Abbreviation LEN_PREFIX_SIZE := 2%nat (only parsing).
Abbreviation MAX_SEND_LEAD_EPOCHS := 16 (only parsing).

Inductive Role : Set := Initiator | Responder.

Inductive Direction : Set := I2R | R2I.

Definition opposite (d : Direction) : Direction :=
  match d with I2R => R2I | R2I => I2R end.

Abbreviation direction_u8 d := (match d with I2R => x00 | R2I => x01 end) (only parsing).

(** [SessionError]; which error of snow or of the carrier it was is not kept. *)
Inductive SessionError : Set :=
| Wire (msg : string)
| VersionMismatch (peer min max : Z)
| Noise
| MlKem (msg : string)
| State (msg : string)
| TokenVerification (msg : string)
| SessionIo.

Record DirState : Type := mkDir {
  dkey : list byte;
  div : list byte;
  dseq : Z;
}.

Definition set_dseq (s : Z) (d : DirState) : DirState := mkDir (dkey d) (div d) s.

(** ** The cryptographic crates
    [blake3], [hkdf] over SHA-256, [chacha20poly1305] and [snow]'s
    [TransportState]. Its two operations take the length of the output buffer. *)
Class SessionCrypto : Type := {
  blake3 : list byte → list byte;
  hkdf_from_prk : list byte → option (list byte);
  hkdf_expand : list byte → list byte → nat → option (list byte);
  aead_encrypt : ∀ (key nonce aad msg : list byte), option (list byte);
  aead_decrypt : ∀ (key nonce aad ct : list byte), option (list byte);
  TransportState : Type;
  write_message : TransportState → list byte → Z → option (list byte * TransportState);
  read_message : TransportState → list byte → Z → option (list byte * TransportState);
}.

Section framer.
Context {SC : SessionCrypto}.

(** ** Key schedule *)

Definition label (s : string) : list byte := String.list_byte_of_string s.

Definition direction_root (lbl k_pq session_binding : list byte) : list byte :=
  blake3 (lbl ++ k_pq ++ session_binding).

Definition ratchet_root (lbl prev : list byte) (epoch : Z) (session_binding : list byte)
  : list byte :=
  blake3 (lbl ++ prev ++ be_bytes 4 epoch ++ session_binding).

Definition combine_kem_secret (x25519_ss mlkem_ss : list byte) : list byte :=
  blake3 (label "mirage-kem-combine-v1" ++ x25519_ss ++ mlkem_ss).

Definition ratchet_root_kem (lbl prev : list byte) (epoch : Z)
  (session_binding kem_secret : list byte) : list byte :=
  blake3 (label "mirage-kem-reseed-v1" ++ lbl ++ prev ++ be_bytes 4 epoch
          ++ session_binding ++ kem_secret).

Definition kem_confirmation_tag (new_i2r new_r2i session_binding : list byte) (epoch : Z)
  : list byte :=
  blake3 (label "mirage-kem-confirm-v1" ++ new_i2r ++ new_r2i ++ session_binding
          ++ be_bytes 4 epoch).

Definition expand_cipher (root : list byte) (epoch : Z)
  : result SessionError (list byte * list byte) :=
  let info := label "mirage-cipher-v1-e" ++ decimal epoch in
  let? hk := ok_or (hkdf_from_prk root) (State "hkdf from_prk") in
  let? out := ok_or (hkdf_expand hk info 44) (State "hkdf expand") in
  Ok (take 32 out, drop 32 out).

(** ** AAD and nonce *)

Definition aad_bytes (session_binding : list byte) (direction : Direction) (epoch seq : Z)
  : list byte :=
  session_binding ++ [direction_u8 direction]
  ++ be_bytes 4 (wrap_u32 epoch) ++ be_bytes 8 seq.

Definition nonce_bytes (iv : list byte) (epoch seq : Z) : list byte :=
  zip_with bxor iv (be_bytes 4 (wrap_u32 epoch) ++ be_bytes 8 seq).

Definition try_outer_decrypt (key iv binding : list byte) (direction : Direction)
  (epoch seq : Z) (outer_ct : list byte) : option (list byte) :=
  let aad := aad_bytes binding direction epoch seq in
  let nonce := nonce_bytes iv epoch seq in
  aead_decrypt key nonce aad outer_ct.

(** ** The framer *)

Record SessionFramer : Type := mkFramer {
  session_binding : list byte;
  epoch : Z;
  role : Role;
  k_session_i2r : list byte;
  k_session_r2i : list byte;
  send_st : DirState;
  recv_st : DirState;
  recv_prev : option DirState;
  last_recv_epoch : Z;
  inner : TransportState;
}.

Definition set_send_st (d : DirState) (f : SessionFramer) : SessionFramer :=
  mkFramer (session_binding f) (epoch f) (role f) (k_session_i2r f) (k_session_r2i f)
    d (recv_st f) (recv_prev f) (last_recv_epoch f) (inner f).
Definition set_recv_st (d : DirState) (f : SessionFramer) : SessionFramer :=
  mkFramer (session_binding f) (epoch f) (role f) (k_session_i2r f) (k_session_r2i f)
    (send_st f) d (recv_prev f) (last_recv_epoch f) (inner f).
Definition set_recv_prev (o : option DirState) (f : SessionFramer) : SessionFramer :=
  mkFramer (session_binding f) (epoch f) (role f) (k_session_i2r f) (k_session_r2i f)
    (send_st f) (recv_st f) o (last_recv_epoch f) (inner f).
Definition set_last_recv (e : Z) (f : SessionFramer) : SessionFramer :=
  mkFramer (session_binding f) (epoch f) (role f) (k_session_i2r f) (k_session_r2i f)
    (send_st f) (recv_st f) (recv_prev f) e (inner f).
Definition set_inner (n : TransportState) (f : SessionFramer) : SessionFramer :=
  mkFramer (session_binding f) (epoch f) (role f) (k_session_i2r f) (k_session_r2i f)
    (send_st f) (recv_st f) (recv_prev f) (last_recv_epoch f) n.

(** The cipher states of the two directions, as sender and receiver see them. *)
Definition by_role (r : Role) (i2r r2i : list byte * list byte) : DirState * DirState :=
  match r with
  | Initiator => (mkDir i2r.1 i2r.2 0, mkDir r2i.1 r2i.2 0)
  | Responder => (mkDir r2i.1 r2i.2 0, mkDir i2r.1 i2r.2 0)
  end.

(** [from_session_keys]; [SessionKeys] gives the binding, the ML-KEM secret and
    the Noise transport. *)
Definition from_session_keys (binding mlkem_ss : list byte) (transport : TransportState)
  (r : Role) : result SessionError SessionFramer :=
  let k_i2r := direction_root (label "mirage-key-i2r-v1") mlkem_ss binding in
  let k_r2i := direction_root (label "mirage-key-r2i-v1") mlkem_ss binding in
  let? c_i2r := expand_cipher k_i2r 0 in
  let? c_r2i := expand_cipher k_r2i 0 in
  let '(snd, rcv) := by_role r c_i2r c_r2i in
  Ok (mkFramer binding 0 r k_i2r k_r2i snd rcv None 0 transport).

Definition recv_material_for (next_epoch : Z) (f : SessionFramer)
  : result SessionError (list byte * list byte) :=
  if bool_decide (next_epoch > u32_max) then Err (State "epoch would exceed u32")
  else
    let '(lbl, root) :=
      match role f with
      | Initiator => (label "mirage-ratchet-r2i-v1", k_session_r2i f)
      | Responder => (label "mirage-ratchet-i2r-v1", k_session_i2r f)
      end in
    let next_root := ratchet_root lbl root next_epoch (session_binding f) in
    expand_cipher next_root next_epoch.

Definition expire_prev_recv (f : SessionFramer) : SessionFramer := set_recv_prev None f.

Definition send_direction (f : SessionFramer) : Direction :=
  match role f with Initiator => I2R | Responder => R2I end.

(** [self.inner.write_message(..).map_err(SessionError::Noise)?] and its dual. *)
Definition inner_write (plaintext : list byte) (buf : Z) : stm SessionFramer SessionError (list byte) :=
  λ f, match write_message (inner f) plaintext buf with
       | Some (ct, n) => (set_inner n f, Ok ct)
       | None => (f, Err Noise)
       end.

Definition inner_read (ct : list byte) (buf : Z) : stm SessionFramer SessionError (list byte) :=
  λ f, match read_message (inner f) ct buf with
       | Some (pt, n) => (set_inner n f, Ok pt)
       | None => (f, Err Noise)
       end.

Definition send (plaintext : list byte) : stm SessionFramer SessionError (list byte) :=
  if bool_decide (plaintext = []) then st_err (State "empty plaintext")
  else if bool_decide (zlen plaintext > MAX_FRAME_PLAINTEXT)
  then st_err (State "plaintext exceeds 16384")
  else
    inner_buf <- inner_write plaintext (zlen plaintext + AEAD_TAG_LEN) ;;
    f <- st_get ;;
    let aad := aad_bytes (session_binding f) (send_direction f) (epoch f) (dseq (send_st f)) in
    let nonce := nonce_bytes (div (send_st f)) (epoch f) (dseq (send_st f)) in
    outer_ct <- st_lift (ok_or (aead_encrypt (dkey (send_st f)) nonce aad inner_buf)
                               (State "outer aead encrypt failed")) ;;
    if bool_decide (zlen outer_ct > MAX_OUTER_CT_LEN) then st_err (State "outer ct exceeds max")
    else
      seq <- st_lift (ok_or (checked_add_u64 (dseq (send_st f)) 1) (State "send seq overflow")) ;;
      st_mod (set_send_st (set_dseq seq (send_st f))) ;;;
      st_ret (be_bytes 2 (zlen outer_ct) ++ outer_ct).

Definition advance_epoch : stm SessionFramer SessionError unit :=
  f <- st_get ;;
  next_epoch <- st_lift (ok_or (checked_add_u64 (epoch f) 1) (State "epoch overflow (u64)")) ;;
  if bool_decide (next_epoch > u32_max) then st_err (State "epoch would exceed u32::MAX")
  else
    let next_i2r := ratchet_root (label "mirage-ratchet-i2r-v1") (k_session_i2r f)
                      next_epoch (session_binding f) in
    let next_r2i := ratchet_root (label "mirage-ratchet-r2i-v1") (k_session_r2i f)
                      next_epoch (session_binding f) in
    c_i2r <- st_lift (expand_cipher next_i2r next_epoch) ;;
    c_r2i <- st_lift (expand_cipher next_r2i next_epoch) ;;
    let '(new_send, new_recv) := by_role (role f) c_i2r c_r2i in
    st_mod (λ f, mkFramer (session_binding f) next_epoch (role f) next_i2r next_r2i
                   new_send new_recv (Some (recv_st f)) (last_recv_epoch f) (inner f)).

Definition maybe_advance (target_epoch : Z) : stm SessionFramer SessionError bool :=
  f <- st_get ;;
  if bool_decide (epoch f >= target_epoch) then st_ret false
  else if bool_decide (epoch f >= saturating_add_u64 (last_recv_epoch f) MAX_SEND_LEAD_EPOCHS)
  then st_ret false
  else advance_epoch ;;; st_ret true.

(** The epoch whose keys opened a frame. *)
Inductive Which : Set := WCurrent | WPrev | WNext.

(** The outer layer of [recv]: current epoch, then the grace window, then the
    next epoch. *)
Definition open_prev (direction : Direction) (outer_ct : list byte) (f : SessionFramer)
  : option (list byte) :=
  match checked_sub (epoch f) 1, recv_prev f with
  | Some prev_epoch, Some p =>
    try_outer_decrypt (dkey p) (div p) (session_binding f) direction prev_epoch (dseq p) outer_ct
  | _, _ => None
  end.

Definition open_outer (outer_ct : list byte) (f : SessionFramer)
  : result SessionError (list byte * Which) :=
  let direction := opposite (send_direction f) in
  match try_outer_decrypt (dkey (recv_st f)) (div (recv_st f)) (session_binding f) direction
          (epoch f) (dseq (recv_st f)) outer_ct with
  | Some ct => Ok (ct, WCurrent)
  | None =>
    match open_prev direction outer_ct f with
    | Some ct => Ok (ct, WPrev)
    | None =>
      let? next_epoch := ok_or (checked_add_u64 (epoch f) 1) (State "epoch overflow") in
      let? c := recv_material_for next_epoch f in
      match try_outer_decrypt c.1 c.2 (session_binding f) direction next_epoch 0 outer_ct with
      | Some ct => Ok (ct, WNext)
      | None => Err (State "outer aead decrypt failed")
      end
    end
  end.

(** The bookkeeping of [recv] once both layers are open. *)
Definition recv_commit (which : Which) : stm SessionFramer SessionError unit :=
  f <- st_get ;;
  match which with
  | WCurrent =>
    seq <- st_lift (ok_or (checked_add_u64 (dseq (recv_st f)) 1) (State "recv seq overflow")) ;;
    st_mod (set_recv_st (set_dseq seq (recv_st f))) ;;;
    st_mod (set_last_recv (epoch f)) ;;;
    match recv_prev f with
    | Some _ => st_mod expire_prev_recv
    | None => st_ret tt
    end
  | WPrev =>
    match recv_prev f with
    | Some p =>
      seq <- st_lift (ok_or (checked_add_u64 (dseq p) 1) (State "recv_prev seq overflow")) ;;
      st_mod (set_recv_prev (Some (set_dseq seq p)))
    | None => st_ret tt
    end
  | WNext =>
    advance_epoch ;;;
    st_mod (λ f, set_recv_st (set_dseq 1 (recv_st f)) f) ;;;
    st_mod (λ f, set_last_recv (epoch f) f)
  end.

Definition recv (wire : list byte) : stm SessionFramer SessionError (list byte) :=
  if bool_decide (zlen wire < Z.of_nat LEN_PREFIX_SIZE)
  then st_err (Wire "frame shorter than length prefix")
  else
    let claimed_len := be_val (take LEN_PREFIX_SIZE wire) in
    if negb (bool_decide (zlen wire = Z.of_nat LEN_PREFIX_SIZE + claimed_len))
    then st_err (Wire "frame length mismatch")
    else if negb (bool_decide (MIN_OUTER_CT_LEN ≤ claimed_len ≤ MAX_OUTER_CT_LEN))
    then st_err (Wire "outer ct length out of range")
    else
      let outer_ct := drop LEN_PREFIX_SIZE wire in
      f <- st_get ;;
      opened <- st_lift (open_outer outer_ct f) ;;
      let '(inner_ct, which) := opened in
      plaintext <- inner_read inner_ct (zlen inner_ct) ;;
      recv_commit which ;;;
      st_ret plaintext.

(** [kem_reseed]: an epoch advance whose roots fold in a fresh secret. *)
Definition kem_reseed (x25519_ss mlkem_ss : list byte) : stm SessionFramer SessionError (list byte) :=
  f <- st_get ;;
  next_epoch <- st_lift (ok_or (checked_add_u64 (epoch f) 1) (State "epoch overflow (u64)")) ;;
  if bool_decide (next_epoch > u32_max) then st_err (State "epoch would exceed u32::MAX")
  else
    let secret := combine_kem_secret x25519_ss mlkem_ss in
    let next_i2r := ratchet_root_kem (label "mirage-ratchet-i2r-v1") (k_session_i2r f)
                      next_epoch (session_binding f) secret in
    let next_r2i := ratchet_root_kem (label "mirage-ratchet-r2i-v1") (k_session_r2i f)
                      next_epoch (session_binding f) secret in
    c_i2r <- st_lift (expand_cipher next_i2r next_epoch) ;;
    c_r2i <- st_lift (expand_cipher next_r2i next_epoch) ;;
    let '(new_send, new_recv) := by_role (role f) c_i2r c_r2i in
    let confirmation := kem_confirmation_tag next_i2r next_r2i (session_binding f) next_epoch in
    st_mod (λ f, mkFramer (session_binding f) next_epoch (role f) next_i2r next_r2i
                   new_send new_recv (Some (recv_st f)) (last_recv_epoch f) (inner f)) ;;;
    st_ret confirmation.

End framer.

(** ** What the framer relies on
    BLAKE3 digests have 32 bytes; HKDF-SHA256 accepts a 32-byte key and expands
    it to 44 bytes; the AEAD adds a 16-byte tag, opens what it sealed, and
    rejects a frame of one epoch and sequence number under the associated data
    of another. [noise_channel w r q] says that the reading half of [r] follows
    the writing half of [w], with the messages [q] (plaintext and ciphertext)
    still in between; the two directions of a transport are independent. *)
Class SessionCryptoLaws (SC : SessionCrypto) : Type := {
  blake3_len m : length (blake3 m) = 32%nat;
  hkdf_total prk info : length prk = 32%nat →
    ∃ hk out, hkdf_from_prk prk = Some hk ∧ hkdf_expand hk info 44 = Some out
              ∧ length out = 44%nat;
  aead_opens k n a m c : aead_encrypt k n a m = Some c → aead_decrypt k n a c = Some m;
  aead_len k n a m c : aead_encrypt k n a m = Some c → zlen c = zlen m + AEAD_TAG_LEN;
  aead_binds k n k' n' b d e s e' s' m c x :
    in_u32 e → in_u32 e' → in_u64 s → in_u64 s' →
    aead_encrypt k' n' (aad_bytes b d e' s') m = Some c →
    aead_decrypt k n (aad_bytes b d e s) c = Some x → e = e' ∧ s = s';
  noise_channel : TransportState → TransportState → list (list byte * list byte) → Prop;
  noise_write w r q pt buf ct w' :
    noise_channel w r q → write_message w pt buf = Some (ct, w') →
    noise_channel w' r (q ++ [(pt, ct)]) ∧ zlen ct = zlen pt + AEAD_TAG_LEN;
  noise_read w r q pt ct buf :
    noise_channel w r ((pt, ct) :: q) → zlen ct ≤ buf →
    ∃ r', read_message r ct buf = Some (pt, r') ∧ noise_channel w r' q;
  noise_write_indep v w q pt buf ct w' :
    noise_channel v w q → write_message w pt buf = Some (ct, w') → noise_channel v w' q;
  noise_read_indep w v q ct buf pt w' :
    noise_channel w v q → read_message w ct buf = Some (pt, w') → noise_channel w' v q;
}.

Section framer_facts.
Context {SC : SessionCrypto} {SL : SessionCryptoLaws SC}.

Lemma expand_cipher_total root e : length root = 32%nat →
  ∃ k iv, expand_cipher root e = Ok (k, iv) ∧ length iv = 12%nat.
Proof.
  intros Hl. destruct (hkdf_total root (label "mirage-cipher-v1-e" ++ decimal e) Hl)
    as (hk & out & Hk & He & Ho).
  exists (take 32 out), (drop 32 out). unfold expand_cipher. rewrite Hk. cbn [ok_or].
  rewrite He. cbn [ok_or]. split; [done|]. rewrite length_drop. lia.
Qed.

Lemma expand_cipher_iv root e k iv : length root = 32%nat →
  expand_cipher root e = Ok (k, iv) → length iv = 12%nat.
Proof.
  intros Hl H. destruct (expand_cipher_total root e Hl) as (k' & iv' & H' & Hi).
  congruence.
Qed.

(** Typing of a framer's counters and keys. *)
Record framer_wf (f : SessionFramer) : Prop := {
  fw_epoch : in_u32 (epoch f);
  fw_send : 0 ≤ dseq (send_st f) ≤ u64_max;
  fw_recv : 0 ≤ dseq (recv_st f) ≤ u64_max;
  fw_prev p : recv_prev f = Some p → 0 ≤ dseq p ≤ u64_max;
  fw_iv : length (div (send_st f)) = 12%nat;
  fw_i2r : length (k_session_i2r f) = 32%nat;
  fw_r2i : length (k_session_r2i f) = 32%nat;
}.

Lemma from_session_keys_total b ss t r : ∃ f, from_session_keys b ss t r = Ok f.
Proof.
  unfold from_session_keys.
  destruct (expand_cipher_total (direction_root (label "mirage-key-i2r-v1") ss b) 0)
    as (k1 & v1 & -> & L1); [apply blake3_len|].
  destruct (expand_cipher_total (direction_root (label "mirage-key-r2i-v1") ss b) 0)
    as (k2 & v2 & -> & L2); [apply blake3_len|].
  destruct (by_role _ _ _). eauto.
Qed.

Lemma from_session_keys_wf b ss t r f :
  from_session_keys b ss t r = Ok f → framer_wf f ∧ dseq (send_st f) = 0 ∧ epoch f = 0.
Proof.
  unfold from_session_keys.
  destruct (expand_cipher_total (direction_root (label "mirage-key-i2r-v1") ss b) 0)
    as (k1 & v1 & -> & L1); [apply blake3_len|].
  destruct (expand_cipher_total (direction_root (label "mirage-key-r2i-v1") ss b) 0)
    as (k2 & v2 & -> & L2); [apply blake3_len|].
  destruct r; cbn [by_role]; intros [= <-]; (split; [split|]); cbn; try done;
    try apply blake3_len; unfold in_u32, u32_max, u64_max; lia.
Qed.

(** *** Outcomes of the operations *)

Lemma send_Ok pt f f' w :
  send pt f = (f', Ok w) →
  0 < zlen pt ≤ MAX_FRAME_PLAINTEXT ∧
  ∃ ct n c, write_message (inner f) pt (zlen pt + AEAD_TAG_LEN) = Some (ct, n)
    ∧ aead_encrypt (dkey (send_st f)) (nonce_bytes (div (send_st f)) (epoch f) (dseq (send_st f)))
        (aad_bytes (session_binding f) (send_direction f) (epoch f) (dseq (send_st f))) ct = Some c
    ∧ zlen c ≤ MAX_OUTER_CT_LEN
    ∧ dseq (send_st f) + 1 ≤ u64_max
    ∧ w = be_bytes 2 (zlen c) ++ c
    ∧ f' = set_send_st (set_dseq (dseq (send_st f) + 1) (send_st f)) (set_inner n f).
Proof.
  unfold send, inner_write, st_bind, st_get, st_lift, st_mod, st_ret, st_err. intros H.
  case_bool_decide as H1; [done|]. case_bool_decide as H2; [done|].
  destruct (write_message _ _ _) as [[ct n]|] eqn:Ew; [|done].
  cbn [session_binding send_direction epoch send_st set_inner role] in H.
  destruct (aead_encrypt _ _ _ _) as [c|] eqn:Ee; cbn [ok_or] in H; [|done].
  case_bool_decide as H3; [done|].
  unfold checked_add_u64 in H. case_bool_decide as H4; cbn [ok_or] in H; [|done].
  split.
  - pose proof (zlen_nonneg pt). pose proof (zlen_zero pt). split; [|lia].
    destruct (decide (zlen pt = 0)); [exfalso; naive_solver | lia].
  - exists ct, n, c. simplify_eq. split_and!; done.
Qed.

Lemma send_Err pt f f' e : send pt f = (f', Err e) → ∃ n, f' = set_inner n f.
Proof.
  unfold send, inner_write, st_bind, st_get, st_lift, st_mod, st_ret, st_err. intros H.
  assert (f = set_inner (inner f) f) as Hf by (destruct f; done).
  case_in H; eauto.
Qed.

Lemma advance_epoch_eq f : framer_wf f →
  (epoch f = u32_max ∧ ∃ e, advance_epoch f = (f, Err e)) ∨
  (epoch f < u32_max ∧ ∃ c1 c2,
    let i2r := ratchet_root (label "mirage-ratchet-i2r-v1") (k_session_i2r f)
                 (epoch f + 1) (session_binding f) in
    let r2i := ratchet_root (label "mirage-ratchet-r2i-v1") (k_session_r2i f)
                 (epoch f + 1) (session_binding f) in
    expand_cipher i2r (epoch f + 1) = Ok c1 ∧ expand_cipher r2i (epoch f + 1) = Ok c2
    ∧ advance_epoch f =
      (mkFramer (session_binding f) (epoch f + 1) (role f) i2r r2i
         (by_role (role f) c1 c2).1 (by_role (role f) c1 c2).2 (Some (recv_st f))
         (last_recv_epoch f) (inner f), Ok tt)).
Proof.
  intros [[He0 He1] _ _ _ _ _ _]. unfold u32_max in *.
  unfold advance_epoch, st_bind, st_get, st_lift, st_mod, st_ret, st_err.
  unfold checked_add_u64. rewrite bool_decide_true by (unfold u64_max; lia). cbn [ok_or].
  goal_decide as E; unfold u32_max in E; [left; split; [lia|eauto]|right; split; [lia|]].
  destruct (expand_cipher_total (ratchet_root (label "mirage-ratchet-i2r-v1") (k_session_i2r f)
    (epoch f + 1) (session_binding f)) (epoch f + 1)) as (k1 & v1 & E1 & _); [apply blake3_len|].
  destruct (expand_cipher_total (ratchet_root (label "mirage-ratchet-r2i-v1") (k_session_r2i f)
    (epoch f + 1) (session_binding f)) (epoch f + 1)) as (k2 & v2 & E2 & _); [apply blake3_len|].
  exists (k1, v1), (k2, v2). rewrite E1, E2. split_and!; [done..|].
  destruct (by_role _ _ _). reflexivity.
Qed.

Lemma by_role_fresh r c1 c2 :
  dseq (by_role r c1 c2).1 = 0 ∧ dseq (by_role r c1 c2).2 = 0.
Proof. by destruct r. Qed.

Lemma by_role_iv r c1 c2 : length c1.2 = 12%nat → length c2.2 = 12%nat →
  length (div (by_role r c1 c2).1) = 12%nat.
Proof. by destruct r. Qed.

(** *** Moving forward
    Whatever a framer does, its [(epoch, sequence number)] pair for sending
    never goes back, and the keys only change with the epoch. *)
Definition forward (f f' : SessionFramer) : Prop :=
  epoch f < epoch f' ∨ (epoch f' = epoch f ∧ send_st f' = send_st f).

Lemma forward_refl f : forward f f.
Proof. by right. Qed.

Lemma advance_epoch_forward f : framer_wf f →
  framer_wf (advance_epoch f).1 ∧ forward f (advance_epoch f).1.
Proof.
  intros W. destruct (advance_epoch_eq f W) as [[_ [e ->]]|(Hlt & c1 & c2 & E1 & E2 & ->)].
  - split; [done|apply forward_refl].
  - destruct (by_role_fresh (role f) c1 c2) as [F1 F2]. destruct c1 as [k1 v1], c2 as [k2 v2].
    destruct W as [We Ws Wr Wp Wi W1 W2]. split; [split|left; cbn; lia]; cbn [fst epoch send_st
      recv_st recv_prev k_session_i2r k_session_r2i]; rewrite ?F1, ?F2;
      try (unfold in_u32, u32_max, u64_max in *; lia); try apply blake3_len.
    + intros p [= <-]. done.
    + apply by_role_iv; (eapply expand_cipher_iv; [apply blake3_len|eassumption]).
Qed.

Lemma kem_reseed_forward x m f : framer_wf f →
  framer_wf (kem_reseed x m f).1 ∧ forward f (kem_reseed x m f).1.
Proof.
  intros W. pose proof W as [[He0 He1] Ws Wr Wp Wi W1 W2]. unfold u32_max in *.
  unfold kem_reseed, st_bind, st_get, st_lift, st_mod, st_ret, st_err.
  unfold checked_add_u64. rewrite bool_decide_true by (unfold u64_max; lia). cbn [ok_or].
  goal_decide as E; unfold u32_max in E; [split; [done|apply forward_refl]|].
  destruct (expand_cipher_total (ratchet_root_kem (label "mirage-ratchet-i2r-v1") (k_session_i2r f)
    (epoch f + 1) (session_binding f) (combine_kem_secret x m)) (epoch f + 1))
    as (k1 & v1 & -> & L1); [apply blake3_len|].
  destruct (expand_cipher_total (ratchet_root_kem (label "mirage-ratchet-r2i-v1") (k_session_r2i f)
    (epoch f + 1) (session_binding f) (combine_kem_secret x m)) (epoch f + 1))
    as (k2 & v2 & -> & L2); [apply blake3_len|].
  destruct (by_role_fresh (role f) (k1, v1) (k2, v2)) as [F1 F2].
  pose proof (by_role_iv (role f) (k1, v1) (k2, v2) L1 L2) as F3.
  destruct (by_role _ _ _) as [d1 d2]. cbn [fst snd] in *.
  split; [split|left; cbn; lia]; cbn [fst epoch send_st
      recv_st recv_prev k_session_i2r k_session_r2i]; rewrite ?F1, ?F2;
      try (unfold in_u32, u32_max, u64_max in *; lia); try apply blake3_len.
  intros p [= <-]. done.
Qed.

Lemma maybe_advance_forward t f : framer_wf f →
  framer_wf (maybe_advance t f).1 ∧ forward f (maybe_advance t f).1.
Proof.
  intros W. unfold maybe_advance, st_bind, st_get, st_ret.
  goal_decide as E; [split; [done|apply forward_refl]|].
  goal_decide as E2; [split; [done|apply forward_refl]|].
  pose proof (advance_epoch_forward f W) as HA.
  destruct (advance_epoch f) as [f' [[]|e]]; exact HA.
Qed.

Lemma recv_commit_forward wh f : framer_wf f →
  framer_wf (recv_commit wh f).1 ∧ forward f (recv_commit wh f).1.
Proof.
  intros W. unfold recv_commit, st_bind, st_get, st_lift, st_mod, st_ret.
  destruct W as [We Ws Wr Wp Wi W1 W2] eqn:EW; clear EW. destruct wh.
  - unfold checked_add_u64. goal_decide as E; cbn [ok_or]; [|split; [done|apply forward_refl]].
    destruct (recv_prev f) as [p|] eqn:Ep; (split; [split|by right]); cbn; try done;
      try lia; try (intros ? ?; congruence).
  - destruct (recv_prev f) as [p|] eqn:Ep; [|split; [done|apply forward_refl]].
    unfold checked_add_u64. goal_decide as E; cbn [ok_or]; [|split; [done|apply forward_refl]].
    (split; [split|by right]); cbn; try done. intros ? [= <-]. cbn. specialize (Wp p eq_refl). lia.
  - pose proof (advance_epoch_forward f W) as HA.
    destruct (advance_epoch f) as [f' [[]|e]]; cbn [fst] in *; [|exact HA].
    destruct HA as [[] HF]. split; [split|exact HF]; cbn; try done.
Qed.

Lemma set_inner_forward n f : framer_wf f → framer_wf (set_inner n f) ∧ forward f (set_inner n f).
Proof. intros []. split; [by split|by right]. Qed.

Lemma forward_trans f g h : forward f g → forward g h → forward f h.
Proof. unfold forward. intros [?|[? ?]] [?|[? ?]]; [left; lia..|right; split; congruence]. Qed.

Lemma recv_forward w f : framer_wf f → framer_wf (recv w f).1 ∧ forward f (recv w f).1.
Proof.
  intros W. pose proof (conj W (forward_refl f)) as Hf.
  unfold recv, st_err, st_bind, st_get, st_lift, st_ret, inner_read.
  goal_decide as E1; [done|]. destruct (negb _); [done|]. destruct (negb _); [done|].
  destruct (open_outer _ f) as [[ct wh]|e]; [|done].
  destruct (read_message _ _ _) as [[pt n]|]; [|done].
  destruct (set_inner_forward n f W) as [Wn Fn].
  destruct (recv_commit_forward wh (set_inner n f) Wn) as [Wc Fc].
  destruct (recv_commit wh (set_inner n f)) as [f' [u|e]];
    (split; [exact Wc|exact (forward_trans _ _ _ Fn Fc)]).
Qed.

Lemma send_wf pt f : framer_wf f → framer_wf (send pt f).1.
Proof.
  intros W. destruct (send pt f) as [f' [w|e]] eqn:E; cbn [fst].
  - apply send_Ok in E as (_ & ct & n & c & _ & _ & _ & Hs & _ & ->).
    destruct W. split; cbn; try done. lia.
  - apply send_Err in E as [n ->]. by apply set_inner_forward.
Qed.

(** *** Nonces *)

Lemma zip_bxor_inj iv a b : length a = length iv → length b = length iv →
  zip_with bxor iv a = zip_with bxor iv b → a = b.
Proof.
  revert a b. induction iv as [|v iv IH]; intros [|x a] [|y b]; simpl; try done.
  intros Ha Hb [= H1 H2]. f_equal; [|apply IH; simpl in *; try lia; done].
  rewrite <- (bxor_cancel x v), <- (bxor_cancel y v). f_equal.
  unfold bxor in *. by rewrite (Z.lxor_comm (u8 x)), (Z.lxor_comm (u8 y)).
Qed.

Lemma counter_inj e s e' s' :
  in_u32 e → in_u32 e' → in_u64 s → in_u64 s' →
  be_bytes 4 (wrap_u32 e) ++ be_bytes 8 s = be_bytes 4 (wrap_u32 e') ++ be_bytes 8 s' →
  e = e' ∧ s = s'.
Proof.
  intros He He' Hs Hs' H. apply app_inj_1 in H as [H1 H2]; [|by rewrite !length_be_bytes].
  apply (f_equal be_val) in H1, H2. rewrite !be_u64_roundtrip in H2 by done.
  unfold wrap_u32 in H1. unfold in_u32 in He, He'. rewrite !Z.mod_small in H1 by lia.
  rewrite !be_u32_roundtrip in H1 by done. done.
Qed.

Lemma nonce_bytes_inj iv e s s' :
  length iv = 12%nat → in_u32 e → in_u64 s → in_u64 s' →
  nonce_bytes iv e s = nonce_bytes iv e s' → s = s'.
Proof.
  intros Hl He Hs Hs' H. apply zip_bxor_inj in H;
    [|rewrite length_app, !length_be_bytes; lia..].
  by eapply counter_inj in H as [_ ?].
Qed.

(** Everything a caller can do with a framer. *)
Inductive FramerOp : Type :=
| FSend (plaintext : list byte)
| FRecv (wire : list byte)
| FMaybe (target_epoch : Z)
| FAdvance
| FKem (x25519_ss mlkem_ss : list byte)
| FExpire.

(** The state an operation leaves, and the frame it emits, if it emits one. *)
Definition framer_exec (op : FramerOp) (f : SessionFramer) : SessionFramer * option (list byte) :=
  match op with
  | FSend pt =>
    match send pt f with
    | (f', Ok w) => (f', Some w)
    | (f', Err _) => (f', None)
    end
  | FRecv w => ((recv w f).1, None)
  | FMaybe t => ((maybe_advance t f).1, None)
  | FAdvance => ((advance_epoch f).1, None)
  | FKem x m => ((kem_reseed x m f).1, None)
  | FExpire => (expire_prev_recv f, None)
  end.

(** The frames emitted, each with the framer that emitted it. *)
Fixpoint frames_out (ops : list FramerOp) (f : SessionFramer) : list (SessionFramer * list byte) :=
  match ops with
  | [] => []
  | op :: ops' =>
    let '(f', e) := framer_exec op f in
    match e with Some w => (f, w) :: frames_out ops' f' | None => frames_out ops' f' end
  end.

(** A frame is the length-prefixed output of the AEAD under this key and nonce. *)
Definition sealed_under (k n w : list byte) : Prop :=
  ∃ aad m c, aead_encrypt k n aad m = Some c ∧ w = be_bytes 2 (zlen c) ++ c.

(** The epoch of a framer and the nonce its next frame is to carry. *)
Definition next_nonce (f : SessionFramer) : Z * list byte :=
  (epoch f, nonce_bytes (div (send_st f)) (epoch f) (dseq (send_st f))).

Definition nonce_log (ops : list FramerOp) (f : SessionFramer) : list (Z * list byte) :=
  next_nonce ∘ fst <$> frames_out ops f.

Lemma frames_sealed ops f :
  Forall (λ e, sealed_under (dkey (send_st e.1)) (next_nonce e.1).2 e.2) (frames_out ops f).
Proof.
  revert f. induction ops as [|op ops IH]; intros f; cbn [frames_out]; [constructor|].
  destruct (framer_exec op f) as [f' [w|]] eqn:E; [|done]. constructor; [|done].
  destruct op as [pt| | | | |]; cbn in E; try done. destruct (send pt f) as [g [w'|?]] eqn:Es; [|done].
  apply send_Ok in Es as (_ & ct & n & c & _ & Hc & _ & _ & -> & _). simplify_eq. by eexists _, _, c.
Qed.

(** A log entry used a sequence number not before that of [f]. *)
Definition later (f : SessionFramer) (x : Z * list byte) : Prop :=
  epoch f < x.1 ∨ (x.1 = epoch f ∧ ∃ s, dseq (send_st f) ≤ s ≤ u64_max
                                         ∧ x.2 = nonce_bytes (div (send_st f)) (epoch f) s).

Lemma later_forward f f' x : forward f f' → later f' x → later f x.
Proof.
  unfold later. intros [?|[He Hs]].
  - intros [?|[-> _]]; left; lia.
  - rewrite He, Hs. done.
Qed.

Lemma framer_exec_quiet op f : framer_wf f → (framer_exec op f).2 = None →
  framer_wf (framer_exec op f).1 ∧ forward f (framer_exec op f).1.
Proof.
  intros W. destruct op as [pt|w|t| |x m|]; cbn [framer_exec fst snd]; intros HN.
  - pose proof (send_wf pt f W) as Ws. destruct (send pt f) as [f' [w|e]] eqn:E; [done|].
    apply send_Err in E as [n ->]. split; [done|by right].
  - by apply recv_forward.
  - by apply maybe_advance_forward.
  - by apply advance_epoch_forward.
  - by apply kem_reseed_forward.
  - destruct W. split; [by split|by right].
Qed.

Lemma nonce_log_later ops f : framer_wf f → Forall (later f) (nonce_log ops f).
Proof.
  unfold nonce_log. revert f. induction ops as [|op ops IH]; intros f W; cbn [frames_out]; [constructor|].
  pose proof (framer_exec_quiet op f W) as HQ.
  destruct (framer_exec op f) as [f' [x|]] eqn:E; cbn [fst snd] in *.
  - destruct op as [pt| | | | |]; cbn in E; try done.
    pose proof (send_wf pt f W) as Ws. destruct (send pt f) as [g [w|?]] eqn:Es; [|done].
    apply send_Ok in Es as (_ & ct & n & c & _ & _ & _ & Hs & _ & ->). simplify_eq/=.
    destruct W as [We Wn _ _ _ _ _]. constructor.
    + right. split; [done|]. exists (dseq (send_st f)). split; [lia|done].
    + eapply Forall_impl; [apply IH; exact Ws|]. intros y [?|[? (s & ? & ?)]]; [by left|].
      right. cbn in *. split; [done|]. exists s. split; [lia|done].
  - destruct HQ as [W' HF]; [done|]. eapply Forall_impl; [by apply IH|].
    intros y. by apply later_forward.
Qed.

Lemma nonce_log_NoDup ops f : framer_wf f → NoDup (nonce_log ops f).
Proof.
  unfold nonce_log. revert f. induction ops as [|op ops IH]; intros f W; cbn [frames_out]; [constructor|].
  pose proof (framer_exec_quiet op f W) as HQ.
  destruct (framer_exec op f) as [f' [x|]] eqn:E; cbn [fst snd] in *; [|by apply IH, HQ].
  destruct op as [pt| | | | |]; cbn in E; try done.
  pose proof (send_wf pt f W) as Ws. destruct (send pt f) as [g [w|?]] eqn:Es; [|done].
  apply send_Ok in Es as (_ & ct & n & c & _ & _ & _ & Hs & _ & ->). simplify_eq/=.
  constructor; [|by apply IH]. intros Hin.
  eapply Forall_forall in Hin; [|by apply (nonce_log_later ops)].
  destruct W as [We Wn _ _ Wi _ _]. destruct Hin as [?|[_ (s & Hs2 & Heq)]]; cbn in *; [lia|].
  apply nonce_bytes_inj in Heq; [lia|done..| |]; unfold in_u64; lia.
Qed.

(** C30: no nonce is used twice. Whatever a caller does with a framer made by
    [from_session_keys] - sends, receives of any bytes, clock-driven and
    explicit ratchet steps, KEM reseeds, expiry of the grace keys, in any order
    - every frame it emits is the output of the AEAD under the sending key the
    framer then had and the nonce of its epoch and counter, and these pairs of
    epoch and nonce are pairwise distinct: the key of an epoch never seals two
    frames under one nonce. The AEAD is arbitrary. *)
Theorem framer_nonces_unique ops b ss t r f :
  from_session_keys b ss t r = Ok f →
  Forall (λ e, sealed_under (dkey (send_st e.1)) (next_nonce e.1).2 e.2) (frames_out ops f)
  ∧ NoDup (next_nonce ∘ fst <$> frames_out ops f).
Proof. intros H. split; [apply frames_sealed|]. apply nonce_log_NoDup. by eapply from_session_keys_wf. Qed.

(** A rejected frame leaves no trace. When [recv] refuses its input - a
    malformed length, a frame no trial epoch opens, an inner frame the Noise
    layer refuses - the framer is exactly what it was, unless a sequence
    counter had reached the end of its 64 bits. *)
Theorem recv_failure_atomic w f f' e :
  framer_wf f →
  dseq (recv_st f) < u64_max → (∀ p, recv_prev f = Some p → dseq p < u64_max) →
  recv w f = (f', Err e) → f' = f.
Proof.
  intros W Hr Hp. unfold recv, st_err, st_bind, st_get, st_lift, st_ret, inner_read.
  goal_decide as E1; [by intros [= <-]|].
  destruct (negb _); [by intros [= <-]|]. destruct (negb _); [by intros [= <-]|].
  destruct (open_outer _ f) as [[ct wh]|e'] eqn:Eo; [|by intros [= <-]].
  destruct (read_message _ _ _) as [[pt n]|]; [|by intros [= <-]].
  destruct (set_inner_forward n f W) as [Wn _].
  assert (∃ g, recv_commit wh (set_inner n f) = (g, Ok tt)) as [g ->]; [|done].
  unfold recv_commit, st_bind, st_get, st_lift, st_mod, st_ret, checked_add_u64. destruct wh.
  - cbn [recv_st set_inner recv_prev]. rewrite bool_decide_true by lia. cbn [ok_or].
    destruct (recv_prev f); eauto.
  - cbn [recv_st set_inner recv_prev]. destruct (recv_prev f) as [p|]; [|eauto].
    specialize (Hp p eq_refl). rewrite bool_decide_true by lia. eauto.
  - destruct (advance_epoch_eq (set_inner n f) Wn) as [[He _]|(_ & c1 & c2 & _ & _ & ->)]; [|eauto].
    exfalso. cbn in He. unfold open_outer, recv_material_for, checked_add_u64 in Eo.
    destruct (try_outer_decrypt _ _ _ _ _ _ _); [done|]. destruct (open_prev _ _ _); [done|].
    rewrite bool_decide_true in Eo by (unfold u32_max, u64_max in *; lia). cbn [ok_or] in Eo.
    rewrite bool_decide_true in Eo by lia. done.
Qed.

End framer_facts.

(** ** A concrete instance
    A transparent model of the cryptographic crates that satisfies the laws: the
    tag of the outer layer is the frame's epoch and sequence number, the tag of
    the inner layer its message counter. *)
Module Demo.

Definition tag (aad : list byte) : list byte :=
  take 16 (drop (length aad - 12) aad ++ replicate 16 x00).

(** Cut the last 16 bytes off and compare them. *)
Definition untag (t ct : list byte) : option (list byte) :=
  if bool_decide ((16 ≤ length ct)%nat ∧ drop (length ct - 16) ct = t)
  then Some (take (length ct - 16) ct) else None.

Definition counter_tag (n : Z) : list byte := replicate 8 x00 ++ be_bytes 8 n.

Arguments tag : simpl never.
Arguments counter_tag : simpl never.

Lemma length_tag a : length (tag a) = 16%nat.
Proof. unfold tag. rewrite length_take, length_app, length_replicate. lia. Qed.

Lemma length_counter_tag n : length (counter_tag n) = 16%nat.
Proof. unfold counter_tag. by rewrite length_app, length_replicate, length_be_bytes. Qed.

Lemma untag_app m t : length t = 16%nat → untag t (m ++ t) = Some m.
Proof.
  intros Ht. unfold untag. rewrite length_app, Ht.
  replace (length m + 16 - 16)%nat with (length m) by lia.
  rewrite drop_app_length, take_app_length, bool_decide_true; [done|split; [lia|done]].
Qed.

Lemma untag_other m t t' x : length t' = 16%nat → untag t (m ++ t') = Some x → t = t'.
Proof.
  unfold untag. intros Ht. rewrite length_app, Ht.
  replace (length m + 16 - 16)%nat with (length m) by lia.
  rewrite drop_app_length. case_bool_decide as E; [|done]. intros _. by destruct E.
Qed.

#[export] Instance crypto : SessionCrypto := {|
  blake3 m := take 32 (m ++ replicate 32 x5a);
  hkdf_from_prk prk := if bool_decide (32 ≤ length prk)%nat then Some prk else None;
  hkdf_expand hk _ n := Some (take n (hk ++ replicate n x00));
  aead_encrypt _ _ aad m := Some (m ++ tag aad);
  aead_decrypt _ _ aad ct := untag (tag aad) ct;
  TransportState := Z * Z;
  write_message s pt buf :=
    if bool_decide (zlen pt + 16 ≤ buf) then Some (pt ++ counter_tag s.1, (s.1 + 1, s.2)) else None;
  read_message s ct buf :=
    match untag (counter_tag s.2) ct with
    | Some pt => if bool_decide (zlen pt ≤ buf) then Some (pt, (s.1, s.2 + 1)) else None
    | None => None
    end;
|}.

Fixpoint in_between (r : Z) (q : list (list byte * list byte)) (w : Z) : Prop :=
  match q with
  | [] => w = r
  | (pt, ct) :: q' => ct = pt ++ counter_tag r ∧ in_between (r + 1) q' w
  end.

Lemma in_between_snoc r q w pt :
  in_between r q w → in_between r (q ++ [(pt, pt ++ counter_tag w)]) (w + 1).
Proof.
  revert r. induction q as [|[p c] q IH]; intros r; simpl.
  - intros ->. done.
  - intros [-> H]. split; [done|by apply IH].
Qed.

Lemma tag_inj b d e s e' s' :
  in_u32 e → in_u32 e' → in_u64 s → in_u64 s' →
  tag (aad_bytes b d e s) = tag (aad_bytes b d e' s') → e = e' ∧ s = s'.
Proof.
  assert (∀ e s, tag (aad_bytes b d e s)
    = (be_bytes 4 (wrap_u32 e) ++ be_bytes 8 s) ++ replicate 4 x00) as Ht.
  { intros e0 s0. unfold tag, aad_bytes. rewrite (assoc_L (++) b).
    rewrite length_app, (length_app (be_bytes 4 _)), !length_be_bytes.
    rewrite Nat.add_sub, drop_app_length, take_app_ge
      by (rewrite length_app, !length_be_bytes; lia).
    rewrite length_app, !length_be_bytes. done. }
  intros He He' Hs Hs'. rewrite !Ht. intros H. apply app_inj_2 in H as [H _]; [|done].
  by apply counter_inj in H.
Qed.

#[export] Program Instance laws : SessionCryptoLaws crypto := {|
  noise_channel w r q := in_between r.2 q w.1;
|}.
Next Obligation.
  intros m. change (length (take 32 (m ++ replicate 32 x5a)) = 32%nat).
  rewrite length_take, length_app, length_replicate. lia.
Qed.
Next Obligation.
  intros prk info Hl. exists prk, (take 44 (prk ++ replicate 44 x00)). split_and!.
  - unfold hkdf_from_prk, crypto. by rewrite bool_decide_true by lia.
  - reflexivity.
  - rewrite length_take, length_app, length_replicate. lia.
Qed.
Next Obligation. intros k n a m c [= <-]. cbn. apply untag_app, length_tag. Qed.
Next Obligation.
  intros k n a m c [= <-]. unfold zlen. rewrite length_app, length_tag. lia.
Qed.
Next Obligation.
  intros k n k' n' b d e s e' s' m c x He He' Hs Hs' [= <-] Hd. cbn in Hd.
  apply untag_other in Hd; [|apply length_tag]. by apply tag_inj in Hd.
Qed.
Next Obligation.
  intros w r q pt buf ct w' Hq. cbn. case_bool_decide; [|done]. intros Hw.
  assert (ct = pt ++ counter_tag w.1 ∧ w' = (w.1 + 1, w.2)) as [-> ->] by (split; congruence).
  split; [by apply in_between_snoc|]. unfold zlen.
  rewrite length_app, length_counter_tag. lia.
Qed.
Next Obligation.
  intros w r q pt ct buf [-> Hq] Hb. cbn. rewrite untag_app by apply length_counter_tag.
  rewrite zlen_app in Hb. pose proof (zlen_nonneg (counter_tag r.2)).
  rewrite bool_decide_true by lia. eauto.
Qed.
Next Obligation.
  intros v w q pt buf ct w' Hq. cbn. case_bool_decide; [|done]. by intros [= <- <-].
Qed.
Next Obligation.
  intros w v q ct buf pt w' Hq. cbn. destruct (untag _ _); [|done].
  case_bool_decide; [|done]. by intros [= <- <-].
Qed.

Definition binding : list byte := replicate 32 x07.
Definition secret : list byte := replicate 32 x09.
Definition fresh : @TransportState crypto := (0, 0).

Definition framer (r : Role) : SessionFramer :=
  match from_session_keys binding secret fresh r with
  | Ok f => f
  | Err _ => mkFramer [] 0 r [] [] (mkDir [] [] 0) (mkDir [] [] 0) None 0 fresh
  end.

Lemma framer_ok r : from_session_keys binding secret fresh r = Ok (framer r).
Proof.
  destruct (from_session_keys_total binding secret fresh r) as [f Hf].
  unfold framer. by rewrite Hf.
Qed.

Lemma fresh_channel : noise_channel fresh fresh [].
Proof. reflexivity. Qed.

End Demo.

Lemma framer_nonces_unique_witness :
  let ops := [FSend [x01]; FMaybe 3; FSend [x02]; FSend [x03]; FRecv [x00]; FAdvance; FKem [x01] [x02]; FSend [x04]] in
  length (frames_out ops (Demo.framer Initiator)) = 4%nat
  ∧ NoDup (next_nonce ∘ fst <$> frames_out ops (Demo.framer Initiator)).
Proof.
  intros ops. split; [vm_compute; reflexivity|].
  exact (proj2 (framer_nonces_unique (SL := Demo.laws) ops _ _ _ _ _ (Demo.framer_ok Initiator))).
Defined.

Lemma recv_failure_atomic_witness :
  (recv [x00; x21] (Demo.framer Initiator)).1 = Demo.framer Initiator.
Proof.
  eapply (recv_failure_atomic (SL := Demo.laws) [x00; x21] (Demo.framer Initiator)
            _ (Wire "frame length mismatch")).
  - exact (proj1 (from_session_keys_wf (SL := Demo.laws) _ _ _ _ _ (Demo.framer_ok Initiator))).
  - vm_compute. reflexivity.
  - intros p [=].
  - reflexivity.
Defined.
