(* ===== verification/SessionLink.v ===== *)
(** * Two session framers over an ordered carrier

    The initiator's and the responder's [SessionFramer] joined by two ordered
    byte carriers, each side writing as [SessionStream::poll_write] does
    ([maybe_advance] to a target epoch of its clock, then [send] of one frame)
    and reading frames in order. The theorems say when the ratchet keeps the two
    sides together, and when it does not. *)

From stdpp Require Import base numbers list strings sets.
From Stdlib Require Import ZArith Lia Strings.Byte.
From S2P Require Import Prelude Bytes Text SessionFrames.

(** ** The link *)

Section defs.
Context {SC : SessionCrypto}.

(** One end: its framer, the frames it wrote that the peer has not read, and the
    plaintexts it has sent and received so far. *)
Record endpoint : Type := mkEnd {
  fr : SessionFramer;
  outq : list (list byte);
  sent : list (list byte);
  got : list (list byte);
}.

(** One write of [SessionStream::poll_write]: the ratchet follows the clock, then
    one frame is sealed. *)
Definition emit (target : Z) (pt : list byte) : stm SessionFramer SessionError (list byte) :=
  maybe_advance target ;;; send pt.

(** [P f target] restricts the clocks: the target epochs a side may ask for. *)
Variable P : SessionFramer → Z → Prop.

(** One action of the left end: writing a frame, or reading the first frame in
    flight from the right end. A failed write or read ends the session, so only
    successful ones continue a run. *)
Inductive left_step : endpoint * endpoint → endpoint * endpoint → Prop :=
| left_emit f q s g o target pt f' w :
    P f target → emit target pt f = (f', Ok w) →
    left_step (mkEnd f q s g, o) (mkEnd f' (q ++ [w]) (s ++ [pt]) g, o)
| left_read f q s g f' fo w qo so go pt :
    recv w f = (f', Ok pt) →
    left_step (mkEnd f q s g, mkEnd fo (w :: qo) so go)
              (mkEnd f' q s (g ++ [pt]), mkEnd fo qo so go).

Definition swap {A B} (p : A * B) : B * A := (p.2, p.1).

Inductive session_step (l l' : endpoint * endpoint) : Prop :=
| session_left : left_step l l' → session_step l l'
| session_right : left_step (swap l) (swap l') → session_step l l'.

(** Runs from two framers made from the same handshake. *)
Inductive session_reachable (b ss : list byte) (ti tr : TransportState)
  : endpoint * endpoint → Prop :=
| session_start fi f_r :
    from_session_keys b ss ti Initiator = Ok fi → from_session_keys b ss tr Responder = Ok f_r →
    session_reachable b ss ti tr (mkEnd fi [] [] [], mkEnd f_r [] [] [])
| session_next l l' :
    session_reachable b ss ti tr l → session_step l l' → session_reachable b ss ti tr l'.

End defs.

(** A side writes only while the epoch its clock asks for is at most one past the
    newest epoch it has received a frame of. Equal clocks are not enough: after
    two epochs without a frame from the peer a side that writes leaves this
    ([ratchet_burst_desyncs]). *)
Definition lead_one {SC : SessionCrypto} (f : SessionFramer) (target : Z) : Prop :=
  target ≤ last_recv_epoch f + 1.

(** Only the side with role [r] writes. *)
Definition one_way {SC : SessionCrypto} (r : Role) (f : SessionFramer) (target : Z) : Prop :=
  role f = r.

(** Any clock: only the bound inside [maybe_advance] applies. *)
Definition any_clock {SC : SessionCrypto} (f : SessionFramer) (target : Z) : Prop := True.

Section link.
Context {SC : SessionCrypto} {SL : SessionCryptoLaws SC}.
Context (b ss : list byte).

(** ** The key schedule both sides share *)

Fixpoint root (d : Direction) (n : nat) : list byte :=
  match n with
  | O => direction_root (label match d with I2R => "mirage-key-i2r-v1"
                                          | R2I => "mirage-key-r2i-v1" end) ss b
  | S n' => ratchet_root (label match d with I2R => "mirage-ratchet-i2r-v1"
                                           | R2I => "mirage-ratchet-r2i-v1" end)
              (root d n') (Z.of_nat n) b
  end.

Definition material (d : Direction) (e : Z) : list byte * list byte :=
  match expand_cipher (root d (Z.to_nat e)) e with Ok c => c | Err _ => ([], []) end.

Definition keyed_with (d : Direction) (e : Z) (s : DirState) : Prop :=
  (dkey s, div s) = material d e.

Record keyed (f : SessionFramer) : Prop := {
  k_wf : framer_wf f;
  k_binding : session_binding f = b;
  k_i2r : k_session_i2r f = root I2R (Z.to_nat (epoch f));
  k_r2i : k_session_r2i f = root R2I (Z.to_nat (epoch f));
  k_send : keyed_with (send_direction f) (epoch f) (send_st f);
  k_recv : keyed_with (opposite (send_direction f)) (epoch f) (recv_st f);
  k_prev p : recv_prev f = Some p →
    1 ≤ epoch f ∧ keyed_with (opposite (send_direction f)) (epoch f - 1) p;
}.

Lemma root_len d n : length (root d n) = 32%nat.
Proof. destruct n, d; apply blake3_len. Qed.

Lemma material_eq d e : expand_cipher (root d (Z.to_nat e)) e = Ok (material d e).
Proof.
  unfold material.
  destruct (expand_cipher_total (root d (Z.to_nat e)) e (root_len d _)) as (k & iv & -> & _).
  done.
Qed.

Lemma from_session_keys_keyed t r f :
  from_session_keys b ss t r = Ok f →
  keyed f ∧ epoch f = 0 ∧ dseq (send_st f) = 0 ∧ dseq (recv_st f) = 0 ∧ recv_prev f = None
  ∧ last_recv_epoch f = 0 ∧ inner f = t ∧ role f = r.
Proof.
  intros H. destruct (from_session_keys_wf _ _ _ _ _ H) as (W & Hs & He).
  unfold from_session_keys in H.
  change (direction_root (label "mirage-key-i2r-v1") ss b) with (root I2R (Z.to_nat 0)) in H.
  change (direction_root (label "mirage-key-r2i-v1") ss b) with (root R2I (Z.to_nat 0)) in H.
  rewrite !material_eq in H. split; [|destruct r; cbn in H; simplify_eq; done].
  split; [done|..]; destruct r; cbn in H; simplify_eq; cbn; try done;
    unfold keyed_with; cbn; symmetry; apply surjective_pairing.
Qed.

(** The state after a ratchet step. *)
Definition advanced (f f' : SessionFramer) : Prop :=
  epoch f < u32_max ∧ session_binding f' = session_binding f ∧ epoch f' = epoch f + 1
  ∧ role f' = role f ∧ dseq (send_st f') = 0 ∧ dseq (recv_st f') = 0
  ∧ recv_prev f' = Some (recv_st f) ∧ last_recv_epoch f' = last_recv_epoch f
  ∧ inner f' = inner f.

Lemma root_succ d e : 0 ≤ e →
  root d (Z.to_nat (e + 1))
  = ratchet_root (label match d with I2R => "mirage-ratchet-i2r-v1"
                                   | R2I => "mirage-ratchet-r2i-v1" end)
      (root d (Z.to_nat e)) (e + 1) b.
Proof.
  intros He. rewrite Z2Nat.inj_add by lia. rewrite Nat.add_1_r. cbn [root].
  by replace (Z.of_nat (S (Z.to_nat e))) with (e + 1) by lia.
Qed.

Lemma advance_epoch_Ok f f' :
  keyed f → advance_epoch f = (f', Ok tt) → keyed f' ∧ advanced f f'.
Proof.
  intros [W Hb H1 H2 H3 H4 H5] H. pose proof (advance_epoch_forward f W) as [W' _].
  destruct (advance_epoch_eq f W) as [[_ [e E]]|(Hlt & c1 & c2 & E1 & E2 & E)]; [congruence|].
  rewrite E in H. apply (f_equal fst) in H. cbn [fst] in H. rewrite E in W'. cbn [fst] in W'.
  pose proof (fw_epoch f W) as [He _]. rewrite H in W'.
  rewrite Hb, H1, H2 in *. rewrite <- (root_succ I2R) in * by done. rewrite <- (root_succ R2I) in * by done.
  rewrite material_eq in E1, E2. injection E1 as <-. injection E2 as <-.
  split.
  - split; [done|..]; subst f'; cbn [session_binding k_session_i2r k_session_r2i epoch send_st
      recv_st recv_prev]; try done; unfold send_direction, keyed_with in *; cbn [role];
      destruct (role f); cbn; try apply symmetry, surjective_pairing;
      intros p [= <-]; (split; [lia|]); replace (epoch f + 1 - 1) with (epoch f) by lia; done.
  - subst f'. unfold advanced. destruct (by_role_fresh (role f)
      (material I2R (epoch f + 1)) (material R2I (epoch f + 1))) as [F1 F2].
    split_and!; cbn; try done.
Qed.

Lemma maybe_advance_Ok t f f' moved :
  keyed f → maybe_advance t f = (f', Ok moved) →
  keyed f' ∧ ((f' = f ∧ moved = false) ∨
              (advanced f f' ∧ moved = true ∧ epoch f < t
               ∧ epoch f < last_recv_epoch f + MAX_SEND_LEAD_EPOCHS)).
Proof.
  intros K. unfold maybe_advance, st_bind, st_get, st_ret.
  goal_decide as E1; [intros [= <- <-]; eauto|].
  goal_decide as E2; [intros [= <- <-]; eauto|].
  destruct (advance_epoch f) as [g [[]|e]] eqn:Ea; [|done]. intros [= <- <-].
  destruct (advance_epoch_Ok _ _ K Ea) as [K' A]. split; [done|right].
  unfold saturating_add_u64 in E2. split_and!; [done|done|lia|lia].
Qed.

(** ** Opening a frame *)

(** [w] is the frame with sequence number [s] of epoch [e], holding the inner
    ciphertext [ict]. *)
Definition sealed (d : Direction) (e s : Z) (ict w : list byte) : Prop :=
  in_u32 e ∧ 0 ≤ s ∧ s + 1 ≤ u64_max ∧
  ∃ c, aead_encrypt (material d e).1 (nonce_bytes (material d e).2 e s) (aad_bytes b d e s) ict
       = Some c
     ∧ w = be_bytes 2 (zlen c) ++ c ∧ MIN_OUTER_CT_LEN ≤ zlen c ≤ MAX_OUTER_CT_LEN.

Lemma recv_wire c f :
  MIN_OUTER_CT_LEN ≤ zlen c ≤ MAX_OUTER_CT_LEN →
  recv (be_bytes 2 (zlen c) ++ c) f =
  match open_outer c f with
  | Ok (ict, wh) =>
    match read_message (inner f) ict (zlen ict) with
    | Some (pt, n) =>
      let '(g, r) := recv_commit wh (set_inner n f) in
      (g, match r with Ok _ => Ok pt | Err e => Err e end)
    | None => (f, Err Noise)
    end
  | Err e => (f, Err e)
  end.
Proof.
  intros Hc.
  unfold recv.
  assert (zlen (be_bytes 2 (zlen c) ++ c) = 2 + zlen c) as Hz
    by (rewrite zlen_app; unfold zlen; rewrite length_be_bytes; lia).
  rewrite Hz, bool_decide_false by lia.
  rewrite take_app_length' by (by rewrite length_be_bytes).
  rewrite drop_app_length' by (by rewrite length_be_bytes).
  rewrite be_u16_roundtrip by (unfold in_u16, u16_max; lia).
  rewrite bool_decide_true by lia. rewrite bool_decide_true by lia.
  cbn [negb]. unfold st_bind, st_get, st_lift, inner_read.
  destruct (open_outer c f) as [[ict wh]|e]; [|done].
  destruct (read_message _ _ _) as [[pt n]|]; [|done].
  by destruct (recv_commit wh (set_inner n f)) as [g [[]|e]].
Qed.

Lemma open_other d e s e' s' k iv ict c :
  in_u32 e → in_u64 s → in_u32 e' → in_u64 s' → e' ≠ e ∨ s' ≠ s →
  aead_encrypt (material d e).1 (nonce_bytes (material d e).2 e s) (aad_bytes b d e s) ict
    = Some c →
  try_outer_decrypt k iv b d e' s' c = None.
Proof.
  intros He Hs He' Hs' Hne Hc. unfold try_outer_decrypt.
  destruct (aead_decrypt _ _ _ _) as [x|] eqn:E; [|done]. exfalso.
  destruct (aead_binds _ _ _ _ _ _ _ _ _ _ _ _ _ He' He Hs' Hs Hc E). intuition lia.
Qed.

Lemma open_same d e s st ict c :
  keyed_with d e st → dseq st = s →
  aead_encrypt (material d e).1 (nonce_bytes (material d e).2 e s) (aad_bytes b d e s) ict
    = Some c →
  try_outer_decrypt (dkey st) (div st) b d e (dseq st) c = Some ict.
Proof.
  unfold keyed_with, try_outer_decrypt. intros <- <- Hc. cbn [fst snd] in Hc.
  by apply aead_opens.
Qed.

Lemma recv_material_next f : keyed f → epoch f < u32_max →
  recv_material_for (epoch f + 1) f = Ok (material (opposite (send_direction f)) (epoch f + 1)).
Proof.
  intros [W Hb H1 H2 _ _ _] Hlt. pose proof (fw_epoch f W) as [He _].
  unfold recv_material_for. rewrite bool_decide_false by lia.
  unfold send_direction. rewrite Hb, H1, H2. destruct (role f); cbn [opposite].
  - rewrite <- (root_succ R2I) by done. apply material_eq.
  - rewrite <- (root_succ I2R) by done. apply material_eq.
Qed.

Section open.
Context (f : SessionFramer) (K : keyed f) (d : Direction) (Hd : opposite (send_direction f) = d).
Context (e s : Z) (ict c : list byte) (He : in_u32 e) (Hs : in_u64 s).
Context (Hc : aead_encrypt (material d e).1 (nonce_bytes (material d e).2 e s)
                (aad_bytes b d e s) ict = Some c).

Lemma open_current : e = epoch f → s = dseq (recv_st f) → open_outer c f = Ok (ict, WCurrent).
Proof.
  intros Ee Es. unfold open_outer. rewrite Hd, (k_binding f K), <- Ee.
  erewrite open_same; [done| |by symmetry|exact Hc]. rewrite Ee, <- Hd. apply K.
Qed.

Lemma current_none : e ≠ epoch f →
  try_outer_decrypt (dkey (recv_st f)) (div (recv_st f)) b d (epoch f) (dseq (recv_st f)) c = None.
Proof.
  intros Hne. pose proof (k_wf f K) as W.
  eapply open_other; [exact He|exact Hs|apply W| |left; lia|exact Hc]. apply W.
Qed.

Lemma open_prev_hit p : recv_prev f = Some p → e = epoch f - 1 → s = dseq p →
  open_outer c f = Ok (ict, WPrev).
Proof.
  intros Hp Ee Es. unfold open_outer. rewrite Hd, (k_binding f K), current_none by lia.
  unfold open_prev. rewrite Hp. destruct (k_prev f K p Hp) as [H1 Hk].
  unfold checked_sub. rewrite bool_decide_true by lia. rewrite (k_binding f K), <- Ee.
  erewrite open_same; [done| |by symmetry|exact Hc]. rewrite Ee, <- Hd. done.
Qed.

Lemma prev_none : e ≠ epoch f - 1 → open_prev d c f = None.
Proof.
  intros Hne. unfold open_prev, checked_sub. pose proof (k_wf f K) as W.
  case_bool_decide; [|done]. destruct (recv_prev f) as [p|] eqn:Ep; [|done].
  rewrite (k_binding f K). pose proof (fw_epoch f W). pose proof (fw_prev f W p Ep).
  eapply open_other; [exact He|exact Hs| | |left; lia|exact Hc]; unfold in_u32, in_u64 in *; lia.
Qed.

Lemma open_next : e = epoch f + 1 → s = 0 → open_outer c f = Ok (ict, WNext).
Proof.
  intros Ee Es. unfold open_outer. rewrite Hd, (k_binding f K), current_none by lia.
  rewrite prev_none by lia. pose proof (k_wf f K) as W. pose proof (fw_epoch f W).
  unfold in_u32, u32_max in *. unfold checked_add_u64.
  rewrite bool_decide_true by (unfold u64_max; lia). cbn [ok_or].
  rewrite recv_material_next by (done || unfold u32_max; lia). rewrite Hd, <- Ee.
  pose proof (aead_opens _ _ _ _ _ Hc) as Ho. rewrite Es in Ho.
  unfold try_outer_decrypt. by rewrite Ho.
Qed.

(** Outside the window of three epochs nothing opens the frame. *)
Lemma open_outside : e < epoch f - 1 ∨ epoch f + 1 < e → ∃ err, open_outer c f = Err err.
Proof.
  intros Ee. unfold open_outer. rewrite Hd, (k_binding f K), current_none by lia.
  rewrite prev_none by lia. pose proof (k_wf f K) as W. pose proof (fw_epoch f W) as [H0 H1].
  unfold checked_add_u64. rewrite bool_decide_true by (unfold u32_max, u64_max in *; lia).
  cbn [ok_or]. destruct (decide (epoch f = u32_max)) as [Hm|Hm].
  - unfold recv_material_for. rewrite bool_decide_true by lia. eauto.
  - rewrite recv_material_next by (done || lia).
    erewrite open_other; [eauto|exact He|exact Hs| | |left; lia|exact Hc];
      unfold in_u32, in_u64, u64_max; lia.
Qed.

End open.

(** What [send] emits, when its Noise transport has a reading peer. *)
Lemma send_sealed pt S S' w r q :
  keyed S → noise_channel (inner S) r q → send pt S = (S', Ok w) →
  ∃ ct n, sealed (send_direction S) (epoch S) (dseq (send_st S)) ct w
    ∧ noise_channel n r (q ++ [(pt, ct)]) ∧ keyed S'
    ∧ S' = set_send_st (set_dseq (dseq (send_st S) + 1) (send_st S)) (set_inner n S).
Proof.
  intros K H4 Hs. pose proof (send_wf pt S (k_wf S K)) as Ws. rewrite Hs in Ws. cbn [fst] in Ws.
  apply send_Ok in Hs as (Hpt & ct & n & c & Hw & He & Hc & Hseq & -> & ->).
  destruct (noise_write _ _ _ _ _ _ _ H4 Hw) as [Hn Hct].
  destruct K as [Kw Kb K1 K2 K3 K4 K5]. rewrite Kb in He. unfold keyed_with in K3.
  exists ct, n. split; [|split_and!; [done|by split|done]].
  split; [apply Kw|]. split; [apply Kw|]. split; [done|]. exists c. rewrite <- K3.
  cbn [fst snd]. split; [done|]. split; [done|]. pose proof (aead_len _ _ _ _ _ He).
  lia.
Qed.

(** ** One direction *)

(** How many frames of epoch [e] a list of frame epochs holds. *)
Definition count (e : Z) (l : list Z) : Z := zlen (filter (λ x, x = e) l).

Lemma count_app e l k : count e (l ++ k) = count e l + count e k.
Proof. unfold count. by rewrite filter_app, zlen_app. Qed.

Lemma count_same e : count e [e] = 1.
Proof. unfold count. by rewrite filter_cons_True. Qed.

Lemma count_other e x : x ≠ e → count e [x] = 0.
Proof. intros H. unfold count. by rewrite filter_cons_False. Qed.

Lemma count_above e m l : Forall (λ x, x ≤ m) l → m < e → count e l = 0.
Proof.
  induction 1 as [|x l Hx Hl IH]; intros He; [done|].
  change (x :: l) with ([x] ++ l). rewrite count_app, IH, count_other; lia.
Qed.

(** A frame in flight: epoch, sequence number, plaintext, inner ciphertext. *)
Record flight : Type := mkFlight {
  fe : Z;
  fsq : Z;
  fpt : list byte;
  fict : list byte;
}.

(** Frames are numbered from zero within each epoch, and epochs never go back. *)
Fixpoint flights_ok (dl : list Z) (l : list flight) : Prop :=
  match l with
  | [] => True
  | x :: l' =>
    fsq x = count (fe x) dl ∧ Forall (λ y, y ≤ fe x) dl ∧ flights_ok (dl ++ [fe x]) l'
  end.

Lemma flights_ok_snoc dl l x :
  flights_ok dl l → fsq x = count (fe x) (dl ++ (fe <$> l)) →
  Forall (λ y, y ≤ fe x) (dl ++ (fe <$> l)) → flights_ok dl (l ++ [x]).
Proof.
  revert dl. induction l as [|y l IH]; intros dl; simpl.
  - rewrite app_nil_r. done.
  - intros (H1 & H2 & H3) Hs Hf. split_and!; [done..|].
    apply IH; [done|..]; by rewrite <- (assoc_L (++)).
Qed.

(** The frames [S] sent to [R]: those of epochs [dl] are read, [fl] are in
    flight; sequence counters count frames per epoch. *)
Record dirinv (S R : SessionFramer) (q sentp gotp : list (list byte))
  (fl : list flight) (dl : list Z) : Prop := {
  di_dir : opposite (send_direction R) = send_direction S;
  di_q : Forall2 (λ w x, sealed (send_direction S) (fe x) (fsq x) (fict x) w) q fl;
  di_sent : sentp = gotp ++ (fpt <$> fl);
  di_noise : noise_channel (inner S) (inner R) ((λ x, (fpt x, fict x)) <$> fl);
  di_ok : flights_ok dl fl;
  di_all : Forall (λ e, e ≤ epoch S) (dl ++ (fe <$> fl));
  di_seq : dseq (send_st S) = count (epoch S) (dl ++ (fe <$> fl));
  di_recv : dseq (recv_st R) = count (epoch R) dl;
  di_prev : match recv_prev R with
            | Some p => dseq p = count (epoch R - 1) dl
            | None => epoch R = 0 ∨ ∃ x, x ∈ dl ∧ epoch R ≤ x
            end;
  di_le : Forall (λ e, e ≤ epoch R) dl;
  di_last : last_recv_epoch R = 0 ∨ last_recv_epoch R ∈ dl;
}.

Section direction.
Context (S R : SessionFramer) (q sentp gotp : list (list byte)) (fl : list flight) (dl : list Z).
Context (DI : dirinv S R q sentp gotp fl dl).

Lemma dir_S_advanced S' : advanced S S' → dirinv S' R q sentp gotp fl dl.
Proof.
  destruct DI as [H1 H2 H3 H4 H5 H6 H7 H8 H9 H10 H11].
  intros (A1 & A2 & A3 & A4 & A5 & A6 & A7 & A8 & A9).
  assert (send_direction S' = send_direction S) as E by (unfold send_direction; by rewrite A4).
  split; rewrite ?E, ?A9, ?A3, ?A5; try done.
  - eapply Forall_impl; [exact H6|]. simpl. lia.
  - symmetry. eapply count_above; [exact H6|lia].
Qed.

Lemma dir_R_advanced R' : advanced R R' → dirinv S R' q sentp gotp fl dl.
Proof.
  destruct DI as [H1 H2 H3 H4 H5 H6 H7 H8 H9 H10 H11].
  intros (A1 & A2 & A3 & A4 & A5 & A6 & A7 & A8 & A9).
  assert (send_direction R' = send_direction R) as E by (unfold send_direction; by rewrite A4).
  split; rewrite ?E, ?A9, ?A8, ?A7, ?A3, ?A6; try done.
  - symmetry. eapply count_above; [exact H10|lia].
  - by replace (epoch R + 1 - 1) with (epoch R) by lia.
  - eapply Forall_impl; [exact H10|]. simpl. lia.
Qed.

(** Changes of the sender that this direction does not see. *)
Lemma dir_S_same S' :
  send_st S' = send_st S → epoch S' = epoch S → role S' = role S →
  (inner S' = inner S ∨ ∃ ct buf pt, read_message (inner S) ct buf = Some (pt, inner S')) →
  dirinv S' R q sentp gotp fl dl.
Proof.
  destruct DI as [H1 H2 H3 H4 H5 H6 H7 H8 H9 H10 H11]. intros A1 A2 A3 A4.
  assert (send_direction S' = send_direction S) as E by (unfold send_direction; by rewrite A3).
  split; rewrite ?E, ?A1, ?A2; try done.
  destruct A4 as [->|(ct & buf & pt & Hr)]; [done|]. by eapply noise_read_indep.
Qed.

(** Changes of the receiver that this direction does not see. *)
Lemma dir_R_send pt R' w : send pt R = (R', Ok w) → dirinv S R' q sentp gotp fl dl.
Proof.
  destruct DI as [H1 H2 H3 H4 H5 H6 H7 H8 H9 H10 H11]. intros Hs.
  apply send_Ok in Hs as (_ & ct & n & c & Hw & _ & _ & _ & _ & ->).
  split; cbn; try done. by eapply noise_write_indep.
Qed.

Lemma dir_S_send pt S' w : keyed S → send pt S = (S', Ok w) →
  ∃ x, fpt x = pt ∧ fe x = epoch S ∧ keyed S' ∧
    dirinv S' R (q ++ [w]) (sentp ++ [pt]) gotp (fl ++ [x]) dl.
Proof.
  destruct DI as [H1 H2 H3 H4 H5 H6 H7 H8 H9 H10 H11]. intros K Hs.
  destruct (send_sealed _ _ _ _ _ _ K H4 Hs) as (ct & n & Hsl & Hn & K' & ->).
  exists (mkFlight (epoch S) (dseq (send_st S)) pt ct). cbn [fpt fe]. split_and!; [done..|].
  split; cbn [inner set_send_st set_inner epoch send_st]; try done.
  - apply Forall2_app; [done|]. by constructor; [|constructor].
  - rewrite fmap_app, (assoc_L (++)), H3. done.
  - by rewrite fmap_app.
  - by apply flights_ok_snoc.
  - rewrite fmap_app, (assoc_L (++)). apply Forall_app. split; [done|]. by repeat constructor.
  - rewrite fmap_app, (assoc_L (++)), count_app. cbn. rewrite count_same. lia.
Qed.

End direction.

(** ** Reading a frame *)

Definition commit_current (f : SessionFramer) : SessionFramer :=
  set_recv_prev None
    (set_last_recv (epoch f) (set_recv_st (set_dseq (dseq (recv_st f) + 1) (recv_st f)) f)).

Definition commit_prev (p : DirState) (f : SessionFramer) : SessionFramer :=
  set_recv_prev (Some (set_dseq (dseq p + 1) p)) f.

Definition commit_next (g : SessionFramer) : SessionFramer :=
  set_last_recv (epoch g) (set_recv_st (set_dseq 1 (recv_st g)) g).

(** What the bookkeeping of [recv] leaves. *)
Inductive committed (f : SessionFramer) : Which → SessionFramer → Prop :=
| committed_current : committed f WCurrent (commit_current f)
| committed_prev p : recv_prev f = Some p → committed f WPrev (commit_prev p f)
| committed_none : recv_prev f = None → committed f WPrev f
| committed_next g : keyed g → advanced f g → committed f WNext (commit_next g).

Lemma keyed_set_inner n f : keyed f → keyed (set_inner n f).
Proof. intros [[] ? ? ? ? ? ?]. split; [by split|done..]. Qed.

Lemma recv_commit_Ok wh f f' :
  keyed f → recv_commit wh f = (f', Ok tt) → committed f wh f' ∧ keyed f'.
Proof.
  intros K H. pose proof (recv_commit_forward wh f (k_wf f K)) as [W' _]. rewrite H in W'.
  cbn [fst] in W'. revert H. unfold recv_commit, st_bind, st_get, st_lift, st_mod, st_ret.
  destruct wh.
  - unfold checked_add_u64. goal_decide as E; cbn [ok_or]; [|done]. intros H.
    assert (f' = commit_current f) as ->.
    { unfold commit_current. destruct (recv_prev f) eqn:Ep; simplify_eq; [done|].
      destruct f; cbn in *; by subst. }
    split; [constructor|]. destruct K. by split.
  - destruct (recv_prev f) as [p|] eqn:Ep; [|intros [= <-]; split; [by constructor|done]].
    unfold checked_add_u64. goal_decide as E; cbn [ok_or]; [|done]. intros [= <-].
    split; [by apply committed_prev|]. destruct K as [? ? ? ? ? ? Kp]. split; try done.
    intros ? [= <-]. exact (Kp p Ep).
  - destruct (advance_epoch f) as [g [[]|e]] eqn:Ea; [|done]. intros [= <-].
    destruct (advance_epoch_Ok _ _ K Ea) as [Kg A].
    split; [by apply committed_next|]. destruct Kg. by split.
Qed.

Lemma recv_commit_total wh f :
  keyed f → (wh = WCurrent → dseq (recv_st f) < u64_max) →
  (wh = WPrev → ∀ p, recv_prev f = Some p → dseq p < u64_max) →
  (wh = WNext → epoch f < u32_max) → ∃ f', recv_commit wh f = (f', Ok tt).
Proof.
  intros K Hr Hp He. unfold recv_commit, st_bind, st_get, st_lift, st_mod, st_ret, checked_add_u64.
  destruct wh.
  - specialize (Hr eq_refl). rewrite bool_decide_true by lia. cbn [ok_or].
    destruct (recv_prev f); eauto.
  - destruct (recv_prev f) as [p|]; [|eauto]. specialize (Hp eq_refl p eq_refl).
    rewrite bool_decide_true by lia. eauto.
  - destruct (advance_epoch_eq f (k_wf f K)) as [[? _]|(_ & c1 & c2 & _ & _ & ->)]; [|eauto].
    specialize (He eq_refl). lia.
Qed.

Lemma recv_Ok w f f' pt : keyed f → recv w f = (f', Ok pt) →
  keyed f' ∧ ∃ ict wh n, read_message (inner f) ict (zlen ict) = Some (pt, n)
                         ∧ committed (set_inner n f) wh f'.
Proof.
  intros K. unfold recv, st_err, st_bind, st_get, st_lift, st_ret, inner_read.
  goal_decide as E1; [done|]. destruct (negb _); [done|]. destruct (negb _); [done|].
  destruct (open_outer _ f) as [[ict wh]|e] eqn:Eo; [|done].
  destruct (read_message _ _ _) as [[pt' n]|] eqn:Er; [|done].
  destruct (recv_commit wh (set_inner n f)) as [g [[]|e]] eqn:Ec; [|done]. intros [= <- <-].
  destruct (recv_commit_Ok _ _ _ (keyed_set_inner n f K) Ec) as [Hc Kg].
  split; [done|]. exists ict, wh, n. done.
Qed.

(** Reading does not disturb the direction the reader writes. *)
Lemma dir_S_recv S R q sentp gotp fl dl w S' pt :
  dirinv S R q sentp gotp fl dl → keyed S → recv w S = (S', Ok pt) →
  dirinv S' R q sentp gotp fl dl.
Proof.
  intros DI K Hr. destruct (recv_Ok _ _ _ _ K Hr) as (K' & ict & wh & n & Hread & Hc).
  assert (dirinv (set_inner n S) R q sentp gotp fl dl) as DI1.
  { eapply dir_S_same; [exact DI|done..|]. right. eauto. }
  destruct Hc as [|p Hp|Hp|g Kg A].
  - eapply dir_S_same; [exact DI1|done..|by left].
  - eapply dir_S_same; [exact DI1|done..|by left].
  - done.
  - eapply dir_S_same; [eapply dir_S_advanced; [exact DI1|exact A]|done..|by left].
Qed.

(** The trial epoch that opens the frame [x] at the head of a direction. *)
Definition opened_by (R : SessionFramer) (x : flight) (wh : Which) : Prop :=
  match wh with
  | WCurrent => fe x = epoch R ∧ fsq x = dseq (recv_st R)
  | WPrev => fe x = epoch R - 1 ∧ ∃ p, recv_prev R = Some p ∧ fsq x = dseq p
  | WNext => fe x = epoch R + 1 ∧ fsq x = 0
  end.

Lemma head_opened_by S R q sentp gotp x fl dl :
  dirinv S R q sentp gotp (x :: fl) dl →
  epoch R - 1 ≤ fe x ≤ epoch R + 1 → in_u32 (fe x) → ∃ wh, opened_by R x wh.
Proof.
  intros [_ _ _ _ (Hs & Hf & _) _ _ H8 H9 H10 _] Hw [H0 _].
  assert (fe x = epoch R - 1 ∨ fe x = epoch R ∨ fe x = epoch R + 1) as [E|[E|E]] by lia.
  - exists WPrev. split; [done|]. destruct (recv_prev R) as [p|].
    + exists p. split; [done|]. rewrite H9, Hs, E. done.
    + exfalso. destruct H9 as [?|(y & Hy & Hle)]; [lia|].
      eapply Forall_forall in Hf; [|exact Hy]. cbn in Hf. lia.
  - exists WCurrent. split; [done|]. by rewrite H8, Hs, E.
  - exists WNext. split; [done|]. rewrite Hs. eapply count_above; [exact H10|lia].
Qed.

Lemma recv_opened R d x w wh pt n :
  keyed R → opposite (send_direction R) = d → sealed d (fe x) (fsq x) (fict x) w →
  opened_by R x wh → read_message (inner R) (fict x) (zlen (fict x)) = Some (pt, n) →
  ∃ R', recv w R = (R', Ok pt) ∧ committed (set_inner n R) wh R' ∧ keyed R'.
Proof.
  intros K Hd (He & Hs0 & Hs1 & c & Hc & -> & Hlen) Ho Hr.
  assert (in_u64 (fsq x)) as Hs by (unfold in_u64; lia).
  assert (open_outer c R = Ok (fict x, wh)) as Hop.
  { destruct wh; destruct Ho as [E1 E2].
    - by eapply open_current.
    - destruct E2 as (p & Hp & E2). by eapply open_prev_hit.
    - by eapply open_next. }
  pose proof (keyed_set_inner n R K) as Kn.
  destruct (recv_commit_total wh (set_inner n R) Kn) as [R' Hcm].
  - intros ->. destruct Ho as [_ E]. cbn. lia.
  - intros ->. destruct Ho as [_ (p' & Hp' & E)]. cbn. intros p Hp. simplify_eq. lia.
  - intros ->. destruct Ho as [E _]. cbn. destruct He. lia.
  - exists R'. rewrite recv_wire by done. rewrite Hop, Hr, Hcm. split; [done|].
    by apply recv_commit_Ok.
Qed.

(** A frame read in order moves from the frames in flight to the frames read. *)
Lemma dir_R_commit S R q w sentp gotp x fl dl wh n R' :
  dirinv S R (w :: q) sentp gotp (x :: fl) dl → opened_by R x wh →
  noise_channel (inner S) n ((λ x, (fpt x, fict x)) <$> fl) →
  committed (set_inner n R) wh R' →
  dirinv S R' q sentp (gotp ++ [fpt x]) fl (dl ++ [fe x])
  ∧ epoch R' = Z.max (epoch R) (fe x)
  ∧ (last_recv_epoch R' = epoch R' ∨ epoch R' = epoch R ∧ last_recv_epoch R' = last_recv_epoch R).
Proof.
  intros [H1 H2 H3 _ (_ & Hf & Hfl) H6 H7 H8 H9 H10 H11] Ho Hn Hc.
  apply Forall2_cons in H2 as [_ H2]. rewrite fmap_cons in H3.
  assert (dl ++ (fe <$> x :: fl) = (dl ++ [fe x]) ++ (fe <$> fl)) as Happ
    by (by rewrite <- (assoc_L (++))).
  assert (sentp = (gotp ++ [fpt x]) ++ (fpt <$> fl)) as Hsent
    by (by rewrite <- (assoc_L (++))).
  rewrite Happ in H6, H7.
  destruct Hc as [|p Hp|Hp|g Kg (A1 & A2 & A3 & A4 & A5 & A6 & A7 & A8 & A9)];
    cbn in Ho.
  - destruct Ho as [E1 E2]. split; [|cbn; lia].
    split; cbn; try done.
    + rewrite count_app, E1, count_same, H8. lia.
    + right. exists (fe x). split; [set_solver|lia].
    + apply Forall_app. split; [done|]. repeat constructor. lia.
    + right. rewrite E1. set_solver.
  - cbn in Hp. destruct Ho as [E1 (p' & Hp' & E2)]. simplify_eq. split; [|cbn; lia].
    rewrite Hp' in H9. split; cbn; try done.
    + rewrite count_app, count_other, H8 by lia. lia.
    + rewrite count_app, <- E1, count_same, H9, E1. lia.
    + apply Forall_app. split; [done|]. repeat constructor. lia.
    + destruct H11; [by left|right; set_solver].
  - cbn in Hp. destruct Ho as [_ (p' & Hp' & _)]. congruence.
  - cbn in A1, A2, A3, A4, A7, A8, A9. destruct Ho as [E1 E2]. split; [|cbn; lia].
    assert (send_direction (commit_next g) = send_direction R) as Hd
      by (unfold send_direction, commit_next; cbn; by rewrite A4).
    split; rewrite ?Hd; try done; cbn.
    + by rewrite A9.
    + rewrite A3, count_app, <- E1, count_same. erewrite count_above; [|exact H10|]; lia.
    + rewrite A7, A3. cbn. rewrite count_app, count_other by lia.
      replace (epoch R + 1 - 1) with (epoch R) by lia. lia.
    + rewrite A3. apply Forall_app. split; [|repeat constructor; lia].
      eapply Forall_impl; [exact H10|]. simpl. lia.
    + right. rewrite A3, <- E1. set_solver.
Qed.

Lemma recv_outside R d e s ict w :
  keyed R → opposite (send_direction R) = d → sealed d e s ict w →
  e < epoch R - 1 ∨ epoch R + 1 < e → ∃ err, recv w R = (R, Err err).
Proof.
  intros K Hd (He & Hs0 & Hs1 & c & Hc & -> & Hlen) Ho.
  destruct (open_outside R K d Hd e s ict c) as [err Herr]; [done|unfold in_u64; lia|done..|].
  exists err. by rewrite recv_wire, Herr.
Qed.

(** A frame inside the window is read, whatever it carries. *)
Lemma dir_R_deliver S R w q sentp gotp x fl dl :
  dirinv S R (w :: q) sentp gotp (x :: fl) dl → keyed R →
  epoch R - 1 ≤ fe x ≤ epoch R + 1 →
  ∃ R', recv w R = (R', Ok (fpt x)) ∧ keyed R'
    ∧ dirinv S R' q sentp (gotp ++ [fpt x]) fl (dl ++ [fe x])
    ∧ epoch R' = Z.max (epoch R) (fe x)
    ∧ (last_recv_epoch R' = epoch R'
       ∨ epoch R' = epoch R ∧ last_recv_epoch R' = last_recv_epoch R).
Proof.
  intros DI K Hw. pose proof DI as [H1 H2 _ H4 _ _ _ _ _ _ _].
  apply Forall2_cons in H2 as [Hsl _]. pose proof Hsl as [He _].
  destruct (head_opened_by _ _ _ _ _ _ _ _ DI Hw He) as [wh Ho].
  destruct (noise_read _ _ _ _ _ (zlen (fict x)) H4) as (n & Hr & Hn); [done|].
  destruct (recv_opened _ _ _ _ _ _ _ K H1 Hsl Ho Hr) as (R' & Hrecv & Hc & K').
  exists R'. split; [done|]. split; [done|]. by eapply dir_R_commit.
Qed.

(** ** The whole link *)

(** Both directions, with the frames in flight and read of each. *)
Definition linked (l : endpoint * endpoint) (fl1 fl2 : list flight) (dl1 dl2 : list Z) : Prop :=
  keyed (fr l.1) ∧ keyed (fr l.2)
  ∧ dirinv (fr l.1) (fr l.2) (outq l.1) (sent l.1) (got l.2) fl1 dl1
  ∧ dirinv (fr l.2) (fr l.1) (outq l.2) (sent l.2) (got l.1) fl2 dl2.

Lemma linked_swap l fl1 fl2 dl1 dl2 :
  linked l fl1 fl2 dl1 dl2 → linked (swap l) fl2 fl1 dl2 dl1.
Proof. by intros (? & ? & ? & ?). Qed.

Lemma emit_Ok t pt f f' w : keyed f → emit t pt f = (f', Ok w) →
  ∃ f1, keyed f1 ∧ (f1 = f ∨ advanced f f1 ∧ epoch f < t) ∧ send pt f1 = (f', Ok w)
    ∧ epoch f' = epoch f1 ∧ role f' = role f ∧ last_recv_epoch f' = last_recv_epoch f
    ∧ (epoch f < t → epoch f < last_recv_epoch f + MAX_SEND_LEAD_EPOCHS → epoch f' = epoch f + 1).
Proof.
  intros K. unfold emit, st_bind.
  destruct (maybe_advance t f) as [f1 [moved|e]] eqn:Hm; [|done]. intros Hs.
  destruct (maybe_advance_Ok _ _ _ _ K Hm) as [Kf1 Hcase].
  assert (epoch f' = epoch f1 ∧ role f' = role f1 ∧ last_recv_epoch f' = last_recv_epoch f1)
    as (E1 & E2 & E3)
    by (apply send_Ok in Hs as (_ & ct & n & c & _ & _ & _ & _ & _ & ->); done).
  exists f1. destruct Hcase as [[-> ->]|(A & _ & Ht & _)].
  - split_and!; try done; [by left|]. intros Ht Hl. exfalso. revert Hm.
    unfold maybe_advance, st_bind, st_get, st_ret. rewrite bool_decide_false by lia.
    pose proof (fw_epoch f (k_wf f K)) as [_ Hmax]. unfold u32_max in Hmax.
    rewrite bool_decide_false by (unfold saturating_add_u64, u64_max; lia).
    by destruct (advance_epoch f) as [? [[]|]].
  - pose proof A as (_ & _ & A3 & A4 & _ & _ & _ & A8 & _).
    split_and!; try done; [by right|congruence|congruence|]. intros _ _. congruence.
Qed.

Lemma emit_step t pt f f' w r q : keyed f → emit t pt f = (f', Ok w) →
  epoch f < t → epoch f < last_recv_epoch f + 16 →
  keyed f' ∧ epoch f' = epoch f + 1 ∧ role f' = role f ∧ last_recv_epoch f' = last_recv_epoch f
  ∧ (noise_channel (inner f) r q → ∃ s ct, sealed (send_direction f) (epoch f + 1) s ct w).
Proof.
  intros K Hem Ht Hl.
  destruct (emit_Ok _ _ _ _ _ K Hem) as (f1 & K1 & Hc & Hs & E1 & E2 & E3 & E4).
  specialize (E4 Ht Hl). destruct Hc as [->|[A _]]; [lia|].
  destruct A as (_ & _ & A3 & A4 & _ & _ & _ & _ & A9).
  split; [|split_and!; try done].
  - pose proof (send_wf pt f1 (k_wf _ K1)) as Ws. rewrite Hs in Ws. cbn in Ws.
    apply send_Ok in Hs as (_ & ct & n & c & _ & _ & _ & _ & _ & ->). destruct K1. by split.
  - intros N. rewrite <- A9 in N. destruct (send_sealed _ _ _ _ _ _ K1 N Hs) as (ct & n & Hsl & _).
    unfold send_direction in *. rewrite A4, A3 in Hsl. eauto.
Qed.

Lemma linked_emit f q s g o fl1 fl2 dl1 dl2 t pt f' w :
  linked (mkEnd f q s g, o) fl1 fl2 dl1 dl2 → emit t pt f = (f', Ok w) →
  ∃ x, fpt x = pt ∧ fe x = epoch f'
    ∧ linked (mkEnd f' (q ++ [w]) (s ++ [pt]) g, o) (fl1 ++ [x]) fl2 dl1 dl2.
Proof.
  intros (K1 & K2 & D1 & D2) Hem. cbn in *.
  destruct (emit_Ok _ _ _ _ _ K1 Hem) as (f1 & Kf1 & Hcase & Hs & Hep & _).
  assert (dirinv f1 (fr o) q s (got o) fl1 dl1 ∧ dirinv (fr o) f1 (outq o) (sent o) g fl2 dl2)
    as [D1' D2'].
  { destruct Hcase as [->|[A _]]; [done|].
    split; [by eapply dir_S_advanced|by eapply dir_R_advanced]. }
  destruct (dir_S_send _ _ _ _ _ _ _ D1' _ _ _ Kf1 Hs) as (x & Hx & He & Kf2 & D1'').
  exists x. split; [done|]. split; [congruence|].
  split_and!; try done. by eapply dir_R_send.
Qed.

(** A successful read is the read of the first frame in flight. *)
Lemma linked_read f q s g f' fo w qo so go pt fl1 fl2 dl1 dl2 :
  linked (mkEnd f q s g, mkEnd fo (w :: qo) so go) fl1 fl2 dl1 dl2 →
  recv w f = (f', Ok pt) →
  ∃ x fl2', fl2 = x :: fl2' ∧ fpt x = pt ∧ epoch f - 1 ≤ fe x ≤ epoch f + 1
    ∧ epoch f' = Z.max (epoch f) (fe x)
    ∧ (last_recv_epoch f' = epoch f'
       ∨ epoch f' = epoch f ∧ last_recv_epoch f' = last_recv_epoch f)
    ∧ linked (mkEnd f' q s (g ++ [pt]), mkEnd fo qo so go) fl1 fl2' dl1 (dl2 ++ [fe x]).
Proof.
  intros (K1 & K2 & D1 & D2) Hr. cbn in *.
  pose proof D2 as [Hd Hq _ _ _ _ _ _ _ _ _].
  destruct fl2 as [|x fl2']; [by apply Forall2_cons_nil_inv in Hq|].
  apply Forall2_cons in Hq as [Hsl _].
  assert (epoch f - 1 ≤ fe x ≤ epoch f + 1) as Hw.
  { destruct (decide (fe x < epoch f - 1 ∨ epoch f + 1 < fe x)) as [Ho|]; [|lia].
    destruct (recv_outside _ _ _ _ _ _ K1 Hd Hsl Ho) as [err Herr]. congruence. }
  destruct (dir_R_deliver _ _ _ _ _ _ _ _ _ D2 K1 Hw) as (R' & Hr' & K' & D2' & He & Hl).
  rewrite Hr in Hr'. simplify_eq. exists x, fl2'. split_and!; try done; [lia..|].
  split_and!; try done. by eapply dir_S_recv.
Qed.

Lemma linked_start ti tr fi f_r :
  noise_channel ti tr [] → noise_channel tr ti [] →
  from_session_keys b ss ti Initiator = Ok fi → from_session_keys b ss tr Responder = Ok f_r →
  linked (mkEnd fi [] [] [], mkEnd f_r [] [] []) [] [] [] [].
Proof.
  intros N1 N2 Hi Hr.
  destruct (from_session_keys_keyed _ _ _ Hi) as (K1 & E1 & S1 & R1 & P1 & L1 & I1 & O1).
  destruct (from_session_keys_keyed _ _ _ Hr) as (K2 & E2 & S2 & R2 & P2 & L2 & I2 & O2).
  split_and!; [done|done|..]; split; cbn; unfold send_direction;
    rewrite ?E1, ?E2, ?S1, ?S2, ?R1, ?R2, ?P1, ?P2, ?L1, ?L2, ?I1, ?I2, ?O1, ?O2; eauto.
Qed.

Lemma linked_step P l l' fl1 fl2 dl1 dl2 :
  linked l fl1 fl2 dl1 dl2 → session_step P l l' →
  ∃ fl1' fl2' dl1' dl2', linked l' fl1' fl2' dl1' dl2'.
Proof.
  assert (∀ l l' fl1 fl2 dl1 dl2, linked l fl1 fl2 dl1 dl2 → left_step P l l' →
    ∃ fl1' fl2' dl1' dl2', linked l' fl1' fl2' dl1' dl2') as Hleft.
  { clear. intros l l' fl1 fl2 dl1 dl2 L Hst. destruct Hst.
    - edestruct linked_emit as (x & _ & _ & L'); eauto 10.
    - edestruct linked_read as (x & fl & _ & _ & _ & _ & _ & L'); eauto 10. }
  intros L [Hst|Hst]; [by eapply Hleft|].
  destruct (Hleft _ _ _ _ _ _ (linked_swap _ _ _ _ _ L) Hst) as (? & ? & ? & ? & L').
  apply linked_swap in L'. destruct l'. eauto 10.
Qed.

Section runs.
Context (ti tr : TransportState) (N1 : noise_channel ti tr []) (N2 : noise_channel tr ti []).

Lemma session_reachable_linked P l : session_reachable P b ss ti tr l →
  ∃ fl1 fl2 dl1 dl2, linked l fl1 fl2 dl1 dl2.
Proof.
  induction 1 as [fi f_r Hi Hr|l l' _ (? & ? & ? & ? & L) Hst].
  - exists [], [], [], []. by apply (linked_start ti tr).
  - by eapply linked_step.
Qed.

(** *** Writers at most one epoch past what they have received *)

Definition near (f : SessionFramer) : Prop := epoch f ≤ last_recv_epoch f + 1.

Lemma near_step l l' fl1 fl2 dl1 dl2 :
  linked l fl1 fl2 dl1 dl2 → session_step lead_one l l' →
  near (fr l.1) → near (fr l.2) → near (fr l'.1) ∧ near (fr l'.2).
Proof.
  assert (∀ l l' fl1 fl2 dl1 dl2, linked l fl1 fl2 dl1 dl2 → left_step lead_one l l' →
    near (fr l.1) → near (fr l.2) → near (fr l'.1) ∧ near (fr l'.2)) as Hleft.
  { clear. intros l l' fl1 fl2 dl1 dl2 L Hst Hn1 Hn2.
    destruct Hst as [f q s g o t pt f' w HP Hem|]; cbn in *.
    - split; [|done]. destruct L as (K & _).
      destruct (emit_Ok _ _ _ _ _ K Hem) as (f1 & _ & Hc & _ & E1 & _ & E2 & _).
      unfold near, lead_one in *. rewrite E1, E2.
      destruct Hc as [->|[(_ & _ & A3 & _) Ht]]; [done|]. cbn in *. lia.
    - edestruct linked_read as (x & fl & _ & _ & _ & _ & Hl & _); [done|done|].
      split; [|done]. unfold near in *. lia. }
  intros L [Hst|Hst] Hn1 Hn2; [by eapply Hleft|].
  destruct (Hleft _ _ _ _ _ _ (linked_swap _ _ _ _ _ L) Hst Hn2 Hn1). done.
Qed.

Lemma session_reachable_near l : session_reachable lead_one b ss ti tr l →
  near (fr l.1) ∧ near (fr l.2).
Proof.
  induction 1 as [fi f_r Hi Hr|l l' Hl [Hn1 Hn2] Hst].
  - destruct (from_session_keys_keyed _ _ _ Hi) as (_ & E1 & _ & _ & _ & L1 & _).
    destruct (from_session_keys_keyed _ _ _ Hr) as (_ & E2 & _ & _ & _ & L2 & _).
    unfold near. cbn. lia.
  - destruct (session_reachable_linked _ _ Hl) as (? & ? & ? & ? & L). by eapply near_step.
Qed.

(** The next frame in flight towards [rd] can be read. *)
Definition readable (rd wr : endpoint) : Prop :=
  ∀ w q, outq wr = w :: q → ∃ f' pt, recv w (fr rd) = (f', Ok pt).

Lemma linked_window rd wr fl1 fl2 dl1 dl2 :
  linked (rd, wr) fl1 fl2 dl1 dl2 →
  (∀ x fl, fl2 = x :: fl → epoch (fr rd) - 1 ≤ fe x ≤ epoch (fr rd) + 1) → readable rd wr.
Proof.
  intros (K1 & K2 & D1 & D2) Hw w q Hq. cbn in *. rewrite Hq in D2.
  pose proof D2 as [_ HF _ _ _ _ _ _ _ _ _].
  destruct fl2 as [|x fl2']; [by apply Forall2_cons_nil_inv in HF|].
  destruct (dir_R_deliver _ _ _ _ _ _ _ _ _ D2 K1 (Hw _ _ eq_refl)) as (R' & Hr & _). eauto.
Qed.

Lemma near_readable rd wr fl1 fl2 dl1 dl2 :
  linked (rd, wr) fl1 fl2 dl1 dl2 → near (fr rd) → near (fr wr) → readable rd wr.
Proof.
  intros L Hn1 Hn2. eapply linked_window; [exact L|]. intros x fl ->.
  destruct L as (K1 & K2 & D1 & D2). cbn in *. unfold near in *.
  destruct D2 as [_ HF _ _ (_ & Hdl & _) Hall _ _ _ _ Hl2].
  destruct D1 as [_ _ _ _ _ Hall1 _ _ _ _ Hl1].
  apply Forall_app in Hall as [_ Hall], Hall1 as [Hall1 _].
  rewrite fmap_cons in Hall. apply Forall_cons in Hall as [Hx _].
  apply Forall2_cons_inv_r in HF as (w & q & [[Hx0 _] _] & _).
  pose proof (fw_epoch _ (k_wf _ K1)) as [Ha _]. split.
  - destruct Hl2 as [?|Hin]; [lia|]. eapply Forall_forall in Hdl; [|exact Hin]. cbn in Hdl. lia.
  - destruct Hl1 as [?|Hin]; [lia|]. eapply Forall_forall in Hall1; [|exact Hin]. cbn in Hall1. lia.
Qed.

(** *** One writer *)

(** From the reader's epoch [m], the frames in flight climb to the writer's
    epoch [top], one epoch at a time. *)
Fixpoint climbs (m : Z) (l : list flight) (top : Z) : Prop :=
  match l with
  | [] => top = m
  | x :: l' => m ≤ fe x ≤ m + 1 ∧ climbs (fe x) l' top
  end.

Lemma climbs_snoc m l top x :
  climbs m l top → top ≤ fe x ≤ top + 1 → climbs m (l ++ [x]) (fe x).
Proof.
  revert m. induction l as [|y l IH]; intros m; simpl; [by intros ->|].
  intros [? ?] ?. split; [done|by apply IH].
Qed.

(** [wr] writes and [rd] only reads. *)
Definition flows (r : Role) (wr rd : endpoint) : Prop :=
  role (fr wr) = r ∧ ∃ fl dl, linked (wr, rd) fl [] dl [] ∧ climbs (epoch (fr rd)) fl (epoch (fr wr)).

Lemma linked_roles wr rd fl1 fl2 dl1 dl2 :
  linked (wr, rd) fl1 fl2 dl1 dl2 → role (fr rd) ≠ role (fr wr).
Proof.
  intros (_ & _ & [Hd _ _ _ _ _ _ _ _ _ _] & _). cbn in Hd. unfold send_direction in Hd.
  destruct (role (fr rd)), (role (fr wr)); done.
Qed.

Lemma flows_writer r wr rd wr' rd' :
  flows r wr rd → left_step (one_way r) (wr, rd) (wr', rd') → flows r wr' rd'.
Proof.
  intros Hfl Hst.
  inversion Hst as [f q s g o t pt f' w HP Hem|f q s g f' fo w qo so go pt Hrecv]; subst;
    destruct Hfl as (Hr & fl & dl & L & Hc).
  - pose proof L as (K & _). cbn in K, Hr, Hc.
    destruct (emit_Ok _ _ _ _ _ K Hem) as (f1 & _ & Hcase & _ & E1 & E2 & _ & _).
    destruct (linked_emit _ _ _ _ _ _ _ _ _ _ _ _ _ L Hem) as (x & _ & Hx & L').
    split; [cbn; congruence|]. exists (fl ++ [x]), dl. split; [done|]. cbn. rewrite <- Hx.
    eapply climbs_snoc; [exact Hc|]. rewrite Hx, E1.
    destruct Hcase as [->|[(_ & _ & A3 & _) _]]; lia.
  - destruct (linked_read _ _ _ _ _ _ _ _ _ _ _ _ _ _ _ L Hrecv) as (x & fl' & E & _). done.
Qed.

Lemma flows_reader r wr rd wr' rd' :
  flows r wr rd → left_step (one_way r) (rd, wr) (rd', wr') → flows r wr' rd'.
Proof.
  intros Hfl Hst.
  inversion Hst as [f q s g o t pt f' w HP Hem|f q s g f' fo w qo so go pt Hrecv]; subst;
    destruct Hfl as (Hr & fl & dl & L & Hc); pose proof (linked_roles _ _ _ _ _ _ L) as Hne;
    apply linked_swap in L; unfold swap in L; cbn in L.
  - unfold one_way in HP. cbn in Hne. congruence.
  - destruct (linked_read _ _ _ _ _ _ _ _ _ _ _ _ _ _ _ L Hrecv)
      as (x & fl' & -> & _ & _ & He & _ & L').
    split; [done|]. exists fl', (dl ++ [fe x]). apply linked_swap in L'. split; [exact L'|].
    cbn in *. destruct Hc as [Hw Hc]. rewrite He. by replace (Z.max (epoch f) (fe x)) with (fe x) by lia.
Qed.

Lemma session_reachable_flows r l : session_reachable (one_way r) b ss ti tr l →
  flows r l.1 l.2 ∨ flows r l.2 l.1.
Proof.
  induction 1 as [fi f_r Hi Hr|l l' Hl IH Hst].
  - pose proof (linked_start _ _ _ _ N1 N2 Hi Hr) as L.
    destruct (from_session_keys_keyed _ _ _ Hi) as (_ & E1 & _ & _ & _ & _ & _ & O1).
    destruct (from_session_keys_keyed _ _ _ Hr) as (_ & E2 & _ & _ & _ & _ & _ & O2).
    destruct r; [left|right]; (split; [done|]; exists [], []; split; [|cbn; congruence]).
    + done.
    + apply linked_swap in L. done.
  - destruct l as [x y], l' as [x' y'], Hst as [Hst|Hst]; unfold swap in Hst; cbn in *.
    + destruct IH; [left; by eapply flows_writer|right; by eapply flows_reader].
    + destruct IH; [left; by eapply flows_reader|right; by eapply flows_writer].
Qed.

Lemma flows_readable r wr rd : flows r wr rd → readable rd wr ∧ readable wr rd.
Proof.
  intros (_ & fl & dl & L & Hc). split.
  - apply linked_swap in L. eapply linked_window; [exact L|].
    intros x fl' ->. destruct Hc as [? _]. cbn in *. lia.
  - eapply linked_window; [exact L|]. done.
Qed.

End runs.

End link.

(** ** Guarantees *)

Section guarantees.
Context {SC : SessionCrypto} {SL : SessionCryptoLaws SC}.
Context (b ss : list byte) (ti tr : TransportState).

(** Session integrity. Whatever the two clocks do, the plaintexts each side
    has read are the first ones the other side wrote, in order, none lost,
    repeated or altered; the rest are exactly the frames still in flight. *)
Theorem session_integrity P l :
  noise_channel ti tr [] → noise_channel tr ti [] → session_reachable P b ss ti tr l →
  ∃ p1 p2, sent l.1 = got l.2 ++ p1 ∧ length p1 = length (outq l.1)
         ∧ sent l.2 = got l.1 ++ p2 ∧ length p2 = length (outq l.2).
Proof.
  intros N1 N2 Hl.
  destruct (session_reachable_linked b ss ti tr N1 N2 P l Hl) as (fl1 & fl2 & dl1 & dl2 & L).
  destruct L as (_ & _ & D1 & D2). exists (fpt <$> fl1), (fpt <$> fl2).
  rewrite !length_fmap. split_and!; [apply D1| |apply D2|].
  - symmetry. eapply Forall2_length. apply D1.
  - symmetry. eapply Forall2_length. apply D2.
Qed.

(** No desynchronisation within one epoch. If a side never asks for an epoch
    more than one past the last one it heard from its peer, then in every
    reachable state the next frame in either direction is read successfully:
    grace window and reactive following absorb every interleaving. *)
Theorem ratchet_never_desyncs l :
  noise_channel ti tr [] → noise_channel tr ti [] →
  session_reachable lead_one b ss ti tr l → readable l.1 l.2 ∧ readable l.2 l.1.
Proof.
  intros N1 N2 Hl.
  destruct (session_reachable_linked b ss ti tr N1 N2 _ l Hl) as (fl1 & fl2 & dl1 & dl2 & L).
  destruct (session_reachable_near b ss ti tr N1 N2 l Hl) as [H1 H2]. destruct l as [x y].
  split; [by eapply near_readable|]. apply linked_swap in L. by eapply near_readable.
Qed.

(** One-directional flows. If only one side writes, its clock may run ahead
    freely, up to the bound [maybe_advance] enforces: the silent reader follows
    every step and the next frame is always read. *)
Theorem ratchet_one_way r l :
  noise_channel ti tr [] → noise_channel tr ti [] →
  session_reachable (one_way r) b ss ti tr l → readable l.1 l.2 ∧ readable l.2 l.1.
Proof.
  intros N1 N2 Hl.
  destruct (session_reachable_flows b ss ti tr N1 N2 r l Hl) as [H|H];
    apply flows_readable in H; tauto.
Qed.

(** Unsynchronised bursts. Let both sides be silent for at least three
    epochs of the same clock. If one side then writes three frames while a first
    frame of the other side is on its way, it rejects that frame: each write
    moved it one epoch ahead, past its one-epoch grace window, although the bound
    of [maybe_advance] was respected throughout. *)
Theorem ratchet_burst_desyncs fi f_r t p0 p1 p2 p3 g f1 f2 f3 w0 w1 w2 w3 :
  noise_channel tr ti [] →
  from_session_keys b ss ti Initiator = Ok fi → from_session_keys b ss tr Responder = Ok f_r →
  3 ≤ t → emit t p0 f_r = (g, Ok w0) →
  emit t p1 fi = (f1, Ok w1) → emit t p2 f1 = (f2, Ok w2) → emit t p3 f2 = (f3, Ok w3) →
  ∃ err, recv w0 f3 = (f3, Err err).
Proof.
  intros N2 Hi Hr Ht H0 H1 H2 H3.
  destruct (from_session_keys_keyed b ss _ _ _ Hi) as (K1 & E1 & _ & _ & _ & L1 & _ & O1).
  destruct (from_session_keys_keyed b ss _ _ _ Hr) as (K2 & E2 & _ & _ & _ & L2 & I2 & O2).
  destruct (emit_step b ss _ _ _ _ _ ti [] K1 H1) as (Kf1 & Ef1 & Of1 & Lf1 & _); [lia..|].
  destruct (emit_step b ss _ _ _ _ _ ti [] Kf1 H2) as (Kf2 & Ef2 & Of2 & Lf2 & _); [lia..|].
  destruct (emit_step b ss _ _ _ _ _ ti [] Kf2 H3) as (Kf3 & Ef3 & Of3 & Lf3 & _); [lia..|].
  destruct (emit_step b ss _ _ _ _ _ ti [] K2 H0) as (_ & Eg & _ & _ & Hsl); [lia..|].
  destruct Hsl as (s & ct & Hsl); [by rewrite I2|].
  eapply (recv_outside b ss); [exact Kf3| |exact Hsl|left; lia].
  unfold send_direction. by rewrite Of3, Of2, Of1, O1, O2.
Qed.

End guarantees.

(** ** A concrete run
    With the demonstration instance: the initiator writes at epoch 1 while the
    responder's epoch-0 frame is in flight; both read. *)
Module DemoRun.
Import Demo.

Definition is_ok {E A} (r : result E A) : bool := match r with Ok _ => true | Err _ => false end.

Definition value {E} (r : result E (list byte)) : list byte :=
  match r with Ok v => v | Err _ => [] end.

Lemma ok_split {S E} (m : S * result E (list byte)) :
  is_ok m.2 = true → m = (m.1, Ok (value m.2)).
Proof. destruct m as [? []]; done. Qed.

Definition fi : SessionFramer := framer Initiator.
Definition f_r : SessionFramer := framer Responder.
Definition after (t : Z) (p : list byte) (f : SessionFramer) : SessionFramer := (emit t p f).1.
Definition frame (t : Z) (p : list byte) (f : SessionFramer) : list byte := value (emit t p f).2.

Lemma emit_after t p f :
  is_ok (emit t p f).2 = true → emit t p f = (after t p f, Ok (frame t p f)).
Proof. apply ok_split. Qed.

Definition crossing : endpoint * endpoint :=
  (mkEnd (after 1 [x01] fi) [frame 1 [x01] fi] [[x01]] [],
   mkEnd (after 0 [x02] f_r) [frame 0 [x02] f_r] [[x02]] []).

Definition crossed : endpoint * endpoint :=
  (mkEnd (recv (frame 0 [x02] f_r) (after 1 [x01] fi)).1 [frame 1 [x01] fi] [[x01]] [[x02]],
   mkEnd (after 0 [x02] f_r) [] [[x02]] []).

Lemma crossing_reachable :
  session_reachable lead_one binding secret fresh fresh crossing.
Proof.
  eapply session_next; [eapply session_next; [apply session_start; apply framer_ok|]|].
  - apply session_left. eapply (left_emit _ _ [] [] [] _ 1 [x01]);
      [vm_compute; discriminate|apply emit_after; vm_compute; reflexivity].
  - apply session_right. eapply (left_emit _ _ [] [] [] _ 0 [x02]);
      [vm_compute; discriminate|apply emit_after; vm_compute; reflexivity].
Qed.

Lemma crossed_reachable :
  session_reachable lead_one binding secret fresh fresh crossed.
Proof.
  eapply session_next; [exact crossing_reachable|]. apply session_left.
  apply (left_read lead_one _ _ _ []).
  etransitivity; [apply ok_split; vm_compute; reflexivity|].
  reflexivity.
Qed.

(** Only the responder writes, far ahead of what it heard. *)
Definition bulk : endpoint * endpoint :=
  (mkEnd fi [] [] [],
   mkEnd (after 9 [x02] (after 9 [x01] f_r)) [frame 9 [x01] f_r; frame 9 [x02] (after 9 [x01] f_r)]
     [[x01]; [x02]] []).

Lemma bulk_reachable :
  session_reachable (one_way Responder) binding secret fresh fresh bulk.
Proof.
  apply (session_next _ _ _ _ _ (mkEnd fi [] [] [],
    mkEnd (after 9 [x01] f_r) [frame 9 [x01] f_r] [[x01]] []));
    [eapply session_next; [apply session_start; apply framer_ok|]|].
  - apply session_right. eapply (left_emit _ _ [] [] [] _ 9 [x01]);
      [vm_compute; reflexivity|apply emit_after; vm_compute; reflexivity].
  - apply session_right. eapply (left_emit _ _ [_] [_] [] _ 9 [x02]);
      [vm_compute; reflexivity|apply emit_after; vm_compute; reflexivity].
Qed.

End DemoRun.

Lemma session_integrity_witness :
  ∃ p1 p2, sent DemoRun.crossed.1 = got DemoRun.crossed.2 ++ p1
    ∧ length p1 = length (outq DemoRun.crossed.1)
    ∧ sent DemoRun.crossed.2 = got DemoRun.crossed.1 ++ p2
    ∧ length p2 = length (outq DemoRun.crossed.2).
Proof.
  exact (session_integrity (SL := Demo.laws) _ _ _ _ _ _
           Demo.fresh_channel Demo.fresh_channel DemoRun.crossed_reachable).
Defined.

Lemma ratchet_never_desyncs_witness :
  outq DemoRun.crossing.1 ≠ [] ∧ outq DemoRun.crossing.2 ≠ []
  ∧ readable DemoRun.crossing.1 DemoRun.crossing.2 ∧ readable DemoRun.crossing.2 DemoRun.crossing.1.
Proof.
  split; [done|]. split; [done|].
  exact (ratchet_never_desyncs (SL := Demo.laws) _ _ _ _ _ Demo.fresh_channel Demo.fresh_channel
           DemoRun.crossing_reachable).
Defined.

Lemma ratchet_one_way_witness :
  outq DemoRun.bulk.2 ≠ []
  ∧ readable DemoRun.bulk.1 DemoRun.bulk.2 ∧ readable DemoRun.bulk.2 DemoRun.bulk.1.
Proof.
  split; [done|].
  exact (ratchet_one_way (SL := Demo.laws) _ _ _ _ Responder _ Demo.fresh_channel Demo.fresh_channel
           DemoRun.bulk_reachable).
Defined.

Lemma ratchet_burst_desyncs_witness :
  let f1 := DemoRun.after 3 [x01] DemoRun.fi in
  let f2 := DemoRun.after 3 [x02] f1 in
  let f3 := DemoRun.after 3 [x03] f2 in
  ∃ err, recv (DemoRun.frame 3 [x04] DemoRun.f_r) f3 = (f3, Err err).
Proof.
  intros f1 f2 f3.
  eapply (ratchet_burst_desyncs (SL := Demo.laws) _ _ Demo.fresh Demo.fresh
            DemoRun.fi DemoRun.f_r 3 [x04] [x01] [x02] [x03] _ f1 f2 f3
            (DemoRun.frame 3 [x04] DemoRun.f_r));
    [exact Demo.fresh_channel|apply Demo.framer_ok..|lia| | | |];
    apply DemoRun.emit_after; vm_compute; reflexivity.
Defined.
