(* ===== verification/SessionStream.v ===== *)
(** * The session byte stream (crates/session/src/stream.rs)

    [SessionStream] turns a [SessionFramer] and a byte carrier into a byte
    stream: [poll_read] reassembles length-prefixed frames from whatever pieces
    the carrier delivers, [poll_write] seals at most one frame per call and
    drains it as the carrier accepts it, [poll_flush] finishes the drain. The
    carrier's answers are part of the input: each inner poll consumes one event
    of a schedule, and an exhausted schedule is a carrier that is pending. *)

From stdpp Require Import base numbers list strings sets relations.
From Stdlib Require Import ZArith Lia Strings.Byte.
From S2P Require Import Prelude Bytes Text SessionFrames SessionLink.

Abbreviation DEFAULT_RATCHET_SECS := 3600%Z (only parsing).

(** The errors of the byte stream. *)
Inductive IoError : Set :=
| IoInner
| TruncatedPrefix
| TruncatedBody
| LengthExceedsMax
| DecryptFailed (e : SessionError)
| WriteZero
| RatchetFailed (e : SessionError)
| SendFailed (e : SessionError).

Inductive Poll (A : Type) : Type :=
| Pending
| Ready (r : result IoError A).
Arguments Pending {A}.
Arguments Ready {A} r.

(** ** The carrier
    A readable carrier is the bytes that have arrived and whether its writer has
    shut it down. [RdReady n] offers at most [n] bytes, one at least. *)
Inductive rd_event : Set := RdPending | RdErr | RdReady (n : nat).

Inductive rd_answer : Type := RaPending | RaErr | RaBytes (bs : list byte).

Definition carrier_read (room : nat) (closed : bool) (ev : rd_event) (c : list byte)
  : rd_answer * list byte :=
  match ev with
  | RdPending => (RaPending, c)
  | RdErr => (RaErr, c)
  | RdReady n =>
    match c with
    | [] => if closed then (RaBytes [], []) else (RaPending, [])
    | _ => let k := Nat.min (Nat.max 1 n) room in (RaBytes (take k c), drop k c)
    end
  end.

(** A writable carrier answers with the number of bytes it takes. *)
Inductive wr_event : Set := WrPending | WrErr | WrReady (n : nat).

Inductive RxState : Type :=
| ReadingLength (got : nat) (buf : list byte)
| ReadingBody (remaining : nat) (wire : list byte)
| HavePlaintext.

Inductive TxState : Type :=
| TxIdle
| TxDraining (buf : list byte) (written : nat).

Section stream.
Context {SC : SessionCrypto}.

(** Instants are nanoseconds; the inner stream is passed to the operations. *)
Record SessionStream : Type := mkStream {
  framer : SessionFramer;
  rx_state : RxState;
  rx_buf : list byte;
  rx_off : nat;
  tx_state : TxState;
  ratchet_start : Z;
  ratchet_secs : Z;
}.

Definition set_framer (f : SessionFramer) (s : SessionStream) : SessionStream :=
  mkStream f (rx_state s) (rx_buf s) (rx_off s) (tx_state s) (ratchet_start s) (ratchet_secs s).
Definition set_rx (x : RxState) (s : SessionStream) : SessionStream :=
  mkStream (framer s) x (rx_buf s) (rx_off s) (tx_state s) (ratchet_start s) (ratchet_secs s).
Definition set_rx_buf (l : list byte) (off : nat) (s : SessionStream) : SessionStream :=
  mkStream (framer s) (rx_state s) l off (tx_state s) (ratchet_start s) (ratchet_secs s).
Definition set_tx (x : TxState) (s : SessionStream) : SessionStream :=
  mkStream (framer s) (rx_state s) (rx_buf s) (rx_off s) x (ratchet_start s) (ratchet_secs s).

Definition fresh_length : RxState := ReadingLength 0 (replicate LEN_PREFIX_SIZE x00).

Definition SessionStream_new (f : SessionFramer) (now : Z) : SessionStream :=
  mkStream f fresh_length [] 0 TxIdle now DEFAULT_RATCHET_SECS.

Definition set_ratchet_interval_secs (secs : Z) (s : SessionStream) : SessionStream :=
  mkStream (framer s) (rx_state s) (rx_buf s) (rx_off s) (tx_state s) (ratchet_start s) secs.

(** ** Reading *)

(** The drain of buffered plaintext at the head of the [poll_read] loop. *)
Definition drain_plaintext (room : nat) (s : SessionStream) : SessionStream * list byte :=
  let available := (length (rx_buf s) - rx_off s)%nat in
  let tk := Nat.min available room in
  let bytes := take tk (drop (rx_off s) (rx_buf s)) in
  let s' := set_rx_buf (rx_buf s) (rx_off s + tk) s in
  if bool_decide ((rx_off s + tk)%nat = length (rx_buf s))
  then (set_rx fresh_length (set_rx_buf [] 0 s'), bytes)
  else (s', bytes).

(** One pass of the loop that polls the inner stream; [None] goes round again. *)
Definition rx_poll (closed : bool) (ev : rd_event) (s : SessionStream) (c : list byte)
  : SessionStream * list byte * option (Poll (list byte)) :=
  match rx_state s with
  | HavePlaintext => (s, c, None)
  | ReadingLength got lbuf =>
    match carrier_read (LEN_PREFIX_SIZE - got) closed ev c with
    | (RaPending, c') => (s, c', Some Pending)
    | (RaErr, c') => (s, c', Some (Ready (Err IoInner)))
    | (RaBytes bs, c') =>
      if bool_decide (bs = []) then
        (s, c', Some (Ready (if bool_decide (got = 0%nat) then Ok [] else Err TruncatedPrefix)))
      else
        let lbuf' := splice lbuf got bs in
        let got' := (got + length bs)%nat in
        if bool_decide (got' = LEN_PREFIX_SIZE) then
          let claimed_len := be_val lbuf' in
          if bool_decide (claimed_len > MAX_OUTER_CT_LEN) then
            (set_rx (ReadingLength got' lbuf') s, c', Some (Ready (Err LengthExceedsMax)))
          else
            let n := Z.to_nat claimed_len in
            (set_rx (ReadingBody n (lbuf' ++ replicate n x00)) s, c', None)
        else (set_rx (ReadingLength got' lbuf') s, c', None)
    end
  | ReadingBody remaining wire =>
    let start := (length wire - remaining)%nat in
    match carrier_read remaining closed ev c with
    | (RaPending, c') => (s, c', Some Pending)
    | (RaErr, c') => (s, c', Some (Ready (Err IoInner)))
    | (RaBytes bs, c') =>
      if bool_decide (bs = []) then (s, c', Some (Ready (Err TruncatedBody)))
      else
        let wire' := splice wire start bs in
        let remaining' := (remaining - length bs)%nat in
        if bool_decide (remaining' = 0%nat) then
          match recv wire' (framer s) with
          | (f', Ok plaintext) =>
            (set_rx HavePlaintext (set_rx_buf plaintext 0 (set_framer f' s)), c', None)
          | (f', Err e) =>
            (set_rx (ReadingBody 0 []) (set_framer f' s), c', Some (Ready (Err (DecryptFailed e))))
          end
        else (set_rx (ReadingBody remaining' wire') s, c', None)
    end
  end.

(** [poll_read] into a buffer with [room] bytes left; the bytes it puts there.
    [Ok []] with nothing buffered is a clean end of stream. *)
Definition has_plaintext (s : SessionStream) : bool :=
  match rx_state s with
  | HavePlaintext => bool_decide (0 < length (rx_buf s) - rx_off s)%nat
  | _ => false
  end.

Definition settle (s : SessionStream) : SessionStream :=
  match rx_state s with HavePlaintext => set_rx fresh_length s | _ => s end.

Fixpoint poll_read (closed : bool) (evs : list rd_event) (room : nat) (s : SessionStream)
  (c : list byte) : SessionStream * list byte * Poll (list byte) :=
  if has_plaintext s then
    let '(s', bytes) := drain_plaintext room s in (s', c, Ready (Ok bytes))
  else
    match evs with
    | [] => (settle s, c, Pending)
    | ev :: evs' =>
      match rx_poll closed ev (settle s) c with
      | (s', c', Some r) => (s', c', r)
      | (s', c', None) => poll_read closed evs' room s' c'
      end
    end.

(** ** Writing *)

(** The drain loops: the state they leave, the bytes the carrier took, the rest
    of the schedule, and [None] when the frame is out. *)
Fixpoint drain (evs : list wr_event) (out : list byte) (written : nat)
  : TxState * list byte * list wr_event * option (Poll nat) :=
  match evs with
  | [] => (TxDraining out written, [], [], Some Pending)
  | WrPending :: evs' => (TxDraining out written, [], evs', Some Pending)
  | WrErr :: evs' => (TxDraining out written, [], evs', Some (Ready (Err IoInner)))
  | WrReady n :: evs' =>
    let k := Nat.min n (length out - written) in
    if bool_decide (k = 0%nat) then
      (TxDraining out written, [], evs', Some (Ready (Err WriteZero)))
    else
      let piece := take k (drop written out) in
      if bool_decide ((written + k)%nat = length out) then (TxIdle, piece, evs', None)
      else
        let '(t, em, evs'', r) := drain evs' out (written + k) in (t, piece ++ em, evs'', r)
  end.

Definition drain_tx (evs : list wr_event) (s : SessionStream)
  : SessionStream * list byte * list wr_event * option (Poll nat) :=
  match tx_state s with
  | TxIdle => (s, [], evs, None)
  | TxDraining out written =>
    let '(t, em, evs', r) := drain evs out written in (set_tx t s, em, evs', r)
  end.

(** The epoch the clock asks for. *)
Definition ratchet_target (now : Z) (s : SessionStream) : Z :=
  Z.max 0 (now - ratchet_start s) / 10 ^ 9 / ratchet_secs s.

(** Advance the ratchet and seal the first bytes of [buf]. *)
Definition frame_write (now : Z) (buf : list byte) (s : SessionStream)
  : SessionStream * result IoError nat :=
  let '(f1, r1) :=
    if bool_decide (ratchet_secs s > 0) then
      match maybe_advance (ratchet_target now s) (framer s) with
      | (f1, Ok _) => (f1, Ok tt)
      | (f1, Err e) => (f1, Err (RatchetFailed e))
      end
    else (framer s, Ok tt) in
  match r1 with
  | Err e => (set_framer f1 s, Err e)
  | Ok _ =>
    let tk := Nat.min (length buf) (Z.to_nat MAX_FRAME_PLAINTEXT) in
    match send (take tk buf) f1 with
    | (f2, Ok wire) => (set_tx (TxDraining wire 0) (set_framer f2 s), Ok tk)
    | (f2, Err e) => (set_framer f2 s, Err (SendFailed e))
    end
  end.

(** [poll_write]: the state, the bytes put on the carrier, and the number of
    bytes of [buf] taken. *)
Definition poll_write (evs : list wr_event) (now : Z) (buf : list byte) (s : SessionStream)
  : SessionStream * list byte * Poll nat :=
  match drain_tx evs s with
  | (s1, em, _, Some r) => (s1, em, r)
  | (s1, em, evs1, None) =>
    if bool_decide (buf = []) then (s1, em, Ready (Ok 0%nat))
    else
      match frame_write now buf s1 with
      | (s2, Err e) => (s2, em, Ready (Err e))
      | (s2, Ok tk) =>
        match drain_tx evs1 s2 with
        | (s3, em', _, None) => (s3, em ++ em', Ready (Ok tk))
        | (s3, em', _, Some Pending) => (s3, em ++ em', Ready (Ok tk))
        | (s3, em', _, Some r) => (s3, em ++ em', r)
        end
      end
  end.

(** [poll_flush] and [poll_shutdown] up to the final call on the inner stream,
    whose answer is [last]. *)
Definition poll_flush (evs : list wr_event) (last : Poll nat) (s : SessionStream)
  : SessionStream * list byte * Poll nat :=
  match drain_tx evs s with
  | (s1, em, _, Some r) => (s1, em, r)
  | (s1, em, _, None) => (s1, em, last)
  end.

Definition poll_shutdown (evs : list wr_event) (flushed last : Poll nat) (s : SessionStream)
  : SessionStream * list byte * Poll nat :=
  match poll_flush evs flushed s with
  | (s1, em, Ready (Ok _)) => (s1, em, last)
  | other => other
  end.

End stream.

(** ** Byte accounting *)

Section accounting.
Context {SC : SessionCrypto}.

(** The bytes of the current frame not yet on the carrier. *)
Definition tx_rest (s : SessionStream) : list byte :=
  match tx_state s with TxIdle => [] | TxDraining out w => drop w out end.

(** The bytes of the next frame already taken off the carrier. *)
Definition rx_part (s : SessionStream) : list byte :=
  match rx_state s with
  | ReadingLength got lbuf => take got lbuf
  | ReadingBody remaining wire => take (length wire - remaining) wire
  | HavePlaintext => []
  end.

(** Plaintext decoded and not yet handed to the caller. *)
Definition rx_rest (s : SessionStream) : list byte :=
  match rx_state s with HavePlaintext => drop (rx_off s) (rx_buf s) | _ => [] end.

Definition tx_wf (s : SessionStream) : Prop :=
  match tx_state s with TxIdle => True | TxDraining out w => (w ≤ length out)%nat end.

Definition rx_wf (s : SessionStream) : Prop :=
  match rx_state s with
  | ReadingLength got lbuf => (got < 2)%nat ∧ length lbuf = 2%nat
  | ReadingBody remaining wire =>
    (0 < remaining)%nat ∧ (remaining + 2 ≤ length wire)%nat
    ∧ Z.of_nat (length wire) = 2 + be_val (take 2 wire)
  | HavePlaintext => (rx_off s ≤ length (rx_buf s))%nat
  end.

(** A frame as [send] makes it. *)
Definition framed (w : list byte) : Prop :=
  ∃ c, w = be_bytes 2 (zlen c) ++ c ∧ MIN_OUTER_CT_LEN ≤ zlen c ≤ MAX_OUTER_CT_LEN.

Lemma drain_spec evs out w t em evs' r :
  (w ≤ length out)%nat → drain evs out w = (t, em, evs', r) →
  em ++ (match t with TxIdle => [] | TxDraining o k => drop k o end) = drop w out
  ∧ (match t with TxIdle => True | TxDraining o k => (k ≤ length o)%nat end)
  ∧ (r = None → t = TxIdle) ∧ (∀ n, r ≠ Some (Ready (Ok n))).
Proof.
  revert w t em r. induction evs as [|[| |n] evs IH]; intros w t em r Hw; simpl.
  1,2,3: by intros [= <- <- _ <-].
  case_bool_decide as Hk; [by intros [= <- <- _ <-]|].
  assert (take (Nat.min n (length out - w)) (drop w out)
          ++ drop (w + Nat.min n (length out - w)) out = drop w out) as Hsplit
    by (rewrite <- drop_drop; apply take_drop).
  case_bool_decide as He.
  - intros [= <- <- _ <-]. split; [|done]. rewrite He, drop_all in Hsplit. done.
  - destruct (drain evs out _) as [[[t' em'] e'] r'] eqn:Ed. intros [= <- <- <- <-].
    destruct (IH (w + Nat.min n (length out - w))%nat _ _ _ ltac:(lia) Ed) as (H1 & H2).
    split; [|done]. by rewrite <- (assoc_L (++)), H1.
Qed.

Lemma drain_tx_spec evs s s' em evs' r :
  tx_wf s → drain_tx evs s = (s', em, evs', r) →
  em ++ tx_rest s' = tx_rest s ∧ tx_wf s' ∧ framer s' = framer s ∧ rx_state s' = rx_state s
  ∧ rx_buf s' = rx_buf s ∧ rx_off s' = rx_off s
  ∧ ratchet_start s' = ratchet_start s ∧ ratchet_secs s' = ratchet_secs s
  ∧ (r = None → tx_rest s' = []) ∧ (∀ n, r ≠ Some (Ready (Ok n))).
Proof.
  unfold tx_wf, drain_tx, tx_rest at 2. destruct (tx_state s) as [|out w] eqn:Et.
  - intros _ [= <- <- <- <-]. unfold tx_rest. rewrite Et. done.
  - intros Hw. destruct (drain evs out w) as [[[t em'] e'] r'] eqn:Ed. intros [= <- <- <- <-].
    destruct (drain_spec _ _ _ _ _ _ _ Hw Ed) as (H1 & H2 & H3 & H4).
    unfold tx_rest. cbn. split_and!; try done. intros Hr. by rewrite H3.
Qed.

(** The epoch the next write asks for; a disabled clock asks for none. *)
Definition clock (now : Z) (s : SessionStream) : Z :=
  if bool_decide (ratchet_secs s > 0) then ratchet_target now s else 0.

Lemma frame_write_Ok now buf s s' n :
  0 ≤ epoch (framer s) → frame_write now buf s = (s', Ok n) →
  ∃ w, emit (clock now s) (take n buf) (framer s) = (framer s', Ok w)
    ∧ s' = set_tx (TxDraining w 0) (set_framer (framer s') s).
Proof.
  intros He. unfold frame_write, clock, emit, st_bind. case_bool_decide as Hs.
  - destruct (maybe_advance _ _) as [f1 [m|e]]; [|done].
    destruct (send _ f1) as [f2 [w|e]] eqn:Ew; [|done]. intros [= <- <-]. rewrite Ew. eauto.
  - unfold maybe_advance, st_bind, st_get, st_ret. rewrite bool_decide_true by lia.
    destruct (send _ _) as [f2 [w|e]] eqn:Ew; [|done]. intros [= <- <-]. rewrite Ew. eauto.
Qed.

(** What [poll_write] does, unless it fails: nothing new, or one frame. *)
Lemma poll_write_spec evs now buf s s' em r :
  tx_wf s → 0 ≤ epoch (framer s) → poll_write evs now buf s = (s', em, r) →
  (∀ e, r ≠ Ready (Err e)) →
  tx_wf s' ∧ rx_state s' = rx_state s ∧ rx_buf s' = rx_buf s ∧ rx_off s' = rx_off s ∧
  ((framer s' = framer s ∧ em ++ tx_rest s' = tx_rest s ∧ (r = Pending ∨ r = Ready (Ok 0%nat)))
   ∨ ∃ n w, r = Ready (Ok n) ∧ emit (clock now s) (take n buf) (framer s) = (framer s', Ok w)
       ∧ em ++ tx_rest s' = tx_rest s ++ w).
Proof.
  intros Hw He H Hne. unfold poll_write in H.
  destruct (drain_tx evs s) as [[[s1 em1] evs1] [r1|]] eqn:E1;
    destruct (drain_tx_spec _ _ _ _ _ _ Hw E1) as (T1 & T2 & T3 & T4 & T5 & T6 & T7 & T8 & T9 & T10).
  { simplify_eq. split_and!; try done. left. split_and!; try done.
    destruct r as [|[n|e]]; [by left| |by destruct (Hne e)].
    by destruct (T10 n). }
  case_bool_decide as Hb.
  { simplify_eq. split_and!; try done. left. split_and!; try done. by right. }
  destruct (frame_write now buf s1) as [s2 [tk|e]] eqn:Ef; [|simplify_eq; by destruct (Hne e)].
  destruct (frame_write_Ok _ _ _ _ _ ltac:(by rewrite T3) Ef) as (w & Hem & Hs2).
  assert (clock now s1 = clock now s) as Hcl
    by (unfold clock, ratchet_target; by rewrite T7, T8).
  destruct (drain_tx evs1 s2) as [[[s3 em2] evs2] r2] eqn:E2.
  assert (tx_wf s2) as Hw2 by (rewrite Hs2; unfold tx_wf; cbn; lia).
  destruct (drain_tx_spec _ _ _ _ _ _ Hw2 E2) as (U1 & U2 & U3 & U4 & U5 & U6 & _ & _ & _ & U10).
  assert (s3 = s' ∧ em1 ++ em2 = em ∧ r = Ready (Ok tk)) as (-> & <- & ->).
  { destruct r2 as [[|[n|e]]|]; simplify_eq; try done; [by destruct (U10 n)|by destruct (Hne e)]. }
  rewrite Hs2 in U4, U5, U6. cbn in U4, U5, U6. split_and!; try congruence.
  right. exists tk, w. split; [done|]. rewrite U3, Hcl, T3 in *. split; [done|].
  rewrite <- (assoc_L (++)), U1, <- T1, (T9 eq_refl), app_nil_r. by rewrite Hs2.
Qed.

(** *** Reassembling frames *)

Lemma framed_prefix l r q :
  Forall framed q → l ++ r = concat q → length l = 2%nat →
  ∃ n, be_val l = n ∧ MIN_OUTER_CT_LEN ≤ n ≤ MAX_OUTER_CT_LEN.
Proof.
  intros HF Heq Hl. destruct q as [|w q].
  { simpl in Heq. apply app_nil in Heq as [-> _]. done. }
  apply Forall_cons in HF as [(c & -> & Hc) _]. cbn [concat] in Heq. rewrite <- (assoc_L (++)) in Heq.
  apply app_inj_1 in Heq as [-> _]; [|by rewrite length_be_bytes]. exists (zlen c).
  split; [|done]. apply be_u16_roundtrip.
  unfold in_u16, u16_max in *.
  lia.
Qed.

Lemma framed_full l r q :
  Forall framed q → l ++ r = concat q → (2 ≤ length l)%nat →
  Z.of_nat (length l) = 2 + be_val (take 2 l) → ∃ q', q = l :: q' ∧ r = concat q'.
Proof.
  intros HF Heq Hl Hn. destruct q as [|w q].
  { simpl in Heq. apply app_nil in Heq as [-> _]. simpl in Hl. lia. }
  apply Forall_cons in HF as [(c & -> & Hc) _]. exists q. cbn [concat] in Heq.
  assert (take 2 l = be_bytes 2 (zlen c)) as Ht.
  { apply (f_equal (take 2)) in Heq. rewrite take_app_le in Heq by lia.
    rewrite Heq, <- (assoc_L (++)). by rewrite take_app_length' by (by rewrite length_be_bytes). }
  rewrite Ht, be_u16_roundtrip in Hn by (unfold in_u16, u16_max in *; lia).
  apply app_inj_1 in Heq as [-> ->]; [done|]. rewrite length_app, length_be_bytes.
  unfold zlen in Hn. lia.
Qed.

(** The carrier's bytes and the rest of the frame on its way form whole frames. *)
Definition reading (s : SessionStream) (c rest : list byte) (q : list (list byte)) : Prop :=
  rx_wf s ∧ rx_part s ++ c ++ rest = concat q.

Lemma carrier_read_spec room closed ev c a c' :
  carrier_read room closed ev c = (a, c') →
  match a with
  | RaBytes bs => c = bs ++ c' ∧ (length bs ≤ room)%nat
  | _ => c' = c
  end.
Proof.
  unfold carrier_read. destruct ev as [| |n]; [by intros [= <- <-]..|].
  destruct c as [|x c]; [destruct closed; intros [= <- <-]; [simpl; split; [done|lia]|done]|].
  intros [= <- <-]. rewrite take_drop. split; [done|]. rewrite length_take. lia.
Qed.

Lemma take_splice (l bs : list byte) (n : nat) :
  (n + length bs ≤ length l)%nat → take (n + length bs) (splice l n bs) = take n l ++ bs.
Proof.
  intros Hn. unfold splice. rewrite (assoc_L (++)), take_app_le, take_ge;
    rewrite ?length_app, ?length_take; (done || lia).
Qed.

Lemma length_splice (l bs : list byte) (n : nat) :
  (n + length bs ≤ length l)%nat → length (splice l n bs) = length l.
Proof.
  intros Hn. unfold splice. rewrite !length_app, length_take, length_drop. lia.
Qed.

(** Errors of the carrier, as opposed to bad frames. *)
Definition carrier_fault (e : IoError) : Prop :=
  e = IoInner ∨ e = TruncatedPrefix ∨ e = TruncatedBody.

Definition rx_result_ok (o : option (Poll (list byte))) : Prop :=
  match o with
  | None => True
  | Some Pending => True
  | Some (Ready (Ok bs)) => bs = []
  | Some (Ready (Err e)) => carrier_fault e
  end.

Definition rx_quiet (s s' : SessionStream) (c' rest : list byte) (q : list (list byte))
  (o : option (Poll (list byte))) : Prop :=
  framer s' = framer s ∧ reading s' c' rest q ∧ rx_rest s' = [] ∧ rx_result_ok o.

Definition rx_frame (s s' : SessionStream) (c' rest : list byte) (q : list (list byte))
  (o : option (Poll (list byte))) : Prop :=
  ∃ w q', q = w :: q' ∧
    ((∃ pt, recv w (framer s) = (framer s', Ok pt) ∧ reading s' c' rest q' ∧ rx_rest s' = pt
            ∧ o = None)
     ∨ (∃ e, (recv w (framer s)).2 = Err e ∧ o = Some (Ready (Err (DecryptFailed e))))).

Lemma rx_poll_length closed ev s c rest q got lbuf s' c' o :
  rx_state s = ReadingLength got lbuf → reading s c rest q → Forall framed q →
  rx_poll closed ev s c = (s', c', o) → tx_state s' = tx_state s ∧ rx_quiet s s' c' rest q o.
Proof.
  intros Es [Hwf Heq] HF. unfold rx_poll. rewrite Es.
  assert (rx_rest s = []) as Hr by (unfold rx_rest; by rewrite Es).
  pose proof Hwf as Hwf'. unfold rx_wf in Hwf'. rewrite Es in Hwf'. destruct Hwf' as [Hg Hl].
  pose proof Heq as Heq'. unfold rx_part in Heq'. rewrite Es in Heq'.
  destruct (carrier_read _ _ _ _) as [a c1] eqn:Ec. apply carrier_read_spec in Ec.
  destruct a as [| |bs].
  - intros [= <- <- <-]. by rewrite Ec.
  - intros [= <- <- <-]. rewrite Ec. split; [done|]. split_and!; [done|done|done|by left].
  - destruct Ec as [-> Hbs]. case_bool_decide as Hb.
    { intros [= <- <- <-]. subst bs. split; [done|]. split; [done|]. split; [done|]. split; [done|].
      case_bool_decide; [done|]. simpl. unfold carrier_fault. auto. }
    assert (got + length bs ≤ length lbuf)%nat as Hfit by lia.
    pose proof (take_splice lbuf bs got Hfit) as Htk.
    pose proof (length_splice lbuf bs got Hfit) as Hln.
    rewrite <- (assoc_L (++)), (assoc_L (++)), <- Htk in Heq'.
    case_bool_decide as H2.
    + rewrite H2, take_ge in Heq' by lia.
      destruct (framed_prefix _ _ _ HF Heq' ltac:(lia)) as (n & Hn & Hb1 & Hb2).
      rewrite Hn, bool_decide_false by lia. intros [= <- <- <-]. split; [done|].
      split; [done|]. split; [|done]. unfold reading, rx_wf, rx_part. cbn [rx_state set_rx].
      rewrite length_app, length_replicate, Hln, Hl.
      rewrite (take_app_length' _ _ 2) by lia.
      replace (2 + Z.to_nat n - Z.to_nat n)%nat with 2%nat by lia.
      rewrite (take_app_length' _ _ 2) by lia. split; [split_and!; lia|done].
    + intros [= <- <- <-]. split; [done|]. split; [done|]. split; [|done].
      split; [unfold rx_wf; cbn; lia|done].
Qed.

Lemma rx_poll_body closed ev s c rest q remaining wire s' c' o :
  rx_state s = ReadingBody remaining wire → reading s c rest q → Forall framed q →
  rx_poll closed ev s c = (s', c', o) →
  tx_state s' = tx_state s ∧ (rx_quiet s s' c' rest q o ∨ rx_frame s s' c' rest q o).
Proof.
  intros Es [Hwf Heq] HF. unfold rx_poll. rewrite Es.
  assert (rx_rest s = []) as Hr by (unfold rx_rest; by rewrite Es).
  pose proof Hwf as Hwf'. unfold rx_wf in Hwf'. rewrite Es in Hwf'.
  destruct Hwf' as (Hrem & Hl & Hn).
  pose proof Heq as Heq'. unfold rx_part in Heq'. rewrite Es in Heq'.
  destruct (carrier_read _ _ _ _) as [a c1] eqn:Ec. apply carrier_read_spec in Ec.
  destruct a as [| |bs].
  - intros [= <- <- <-]. rewrite Ec. split; [done|]. by left.
  - intros [= <- <- <-]. rewrite Ec. split; [done|]. left. split_and!; [done|done|done|by left].
  - destruct Ec as [-> Hbs]. case_bool_decide as Hb.
    { intros [= <- <- <-]. subst bs. split; [done|]. left. split_and!; [done|done|done|].
      simpl. unfold carrier_fault. auto. }
    set (start := (length wire - remaining)%nat) in *.
    assert (start + length bs ≤ length wire)%nat as Hfit by lia.
    pose proof (take_splice wire bs start Hfit) as Htk.
    pose proof (length_splice wire bs start Hfit) as Hln.
    assert (take 2 (splice wire start bs) = take 2 wire) as Ht2.
    { unfold splice. rewrite take_app_le by (rewrite length_take; lia).
      rewrite take_take. f_equal. lia. }
    rewrite <- (assoc_L (++)), (assoc_L (++)), <- Htk in Heq'.
    case_bool_decide as H2.
    + rewrite take_ge in Heq' by lia.
      destruct (framed_full _ _ _ HF Heq' ltac:(lia)) as (q' & -> & Hrest);
        [rewrite Ht2, Hln; done|].
      destruct (recv (splice wire start bs) (framer s)) as [f' [pt|e]] eqn:Er;
        intros [= <- <- <-]; (split; [done|]); right; exists (splice wire start bs), q';
        (split; [done|]); cbn [framer set_rx set_framer set_rx_buf].
      * left. exists pt. split; [done|]. split; [|done]. split; [unfold rx_wf; cbn; lia|done].
      * right. exists e. by rewrite Er.
    + intros [= <- <- <-]. split; [done|]. left. split; [done|]. split; [|done].
      unfold reading, rx_wf, rx_part. cbn [rx_state set_rx]. rewrite Hln, Ht2.
      replace (length wire - (remaining - length bs))%nat with (start + length bs)%nat by lia.
      split; [split_and!; lia|done].
Qed.

Lemma rx_poll_spec closed ev s c rest q s' c' o :
  rx_state s ≠ HavePlaintext → reading s c rest q → Forall framed q →
  rx_poll closed ev s c = (s', c', o) →
  tx_state s' = tx_state s ∧ (rx_quiet s s' c' rest q o ∨ rx_frame s s' c' rest q o).
Proof.
  destruct (rx_state s) as [got lbuf|remaining wire|] eqn:Es; intros Hne HR HF Hp; [|..|done].
  - destruct (rx_poll_length _ _ _ _ _ _ _ _ _ _ _ Es HR HF Hp). auto.
  - by eapply rx_poll_body.
Qed.

(** Reading frames one after the other. *)
Inductive recvs : SessionFramer → list (list byte) → list (list byte) → SessionFramer → Prop :=
| recvs_nil f : recvs f [] [] f
| recvs_cons f w pt f' ws pts f'' :
    recv w f = (f', Ok pt) → recvs f' ws pts f'' → recvs f (w :: ws) (pt :: pts) f''.

Definition handed (r : Poll (list byte)) : list byte :=
  match r with Ready (Ok bs) => bs | _ => [] end.

(** What [poll_read] does: it reads some whole frames and hands out the oldest
    plaintext, or it fails, on the carrier or on the first frame that [recv]
    rejects. *)
Definition read_outcome (s s' : SessionStream) (c' rest : list byte) (q : list (list byte))
  (r : Poll (list byte)) : Prop :=
  ∃ ws pts f q', recvs (framer s) ws pts f ∧ q = ws ++ q' ∧
    ((framer s' = f ∧ reading s' c' rest q' ∧ rx_rest s ++ concat pts = handed r ++ rx_rest s'
      ∧ (∀ e, r = Ready (Err e) → carrier_fault e))
     ∨ (∃ w q'' e, q' = w :: q'' ∧ (recv w f).2 = Err e ∧ r = Ready (Err (DecryptFailed e)))).

Lemma reading_settle s c rest q :
  has_plaintext s = false → reading s c rest q →
  reading (settle s) c rest q ∧ rx_rest s = [] ∧ rx_rest (settle s) = []
  ∧ framer (settle s) = framer s ∧ rx_state (settle s) ≠ HavePlaintext
  ∧ tx_state (settle s) = tx_state s.
Proof.
  unfold has_plaintext, settle, reading, rx_wf, rx_part, rx_rest.
  destruct (rx_state s) as [got lbuf|remaining wire|] eqn:Es; rewrite ?Es; [done..|].
  case_bool_decide as Hb; [done|]. intros _ [_ Heq]. cbn in *.
  split_and!; try done; [lia|]. apply drop_ge. lia.
Qed.

Lemma drain_plaintext_spec room s s' bytes c rest q :
  rx_state s = HavePlaintext → reading s c rest q →
  drain_plaintext room s = (s', bytes) →
  framer s' = framer s ∧ tx_state s' = tx_state s ∧ reading s' c rest q
  ∧ rx_rest s = bytes ++ rx_rest s'.
Proof.
  unfold drain_plaintext, reading, rx_wf, rx_part, rx_rest. intros Es [Hoff Heq].
  rewrite Es in *. set (k := Nat.min _ room).
  assert (take k (drop (rx_off s) (rx_buf s)) ++ drop (rx_off s + k) (rx_buf s)
          = drop (rx_off s) (rx_buf s)) as Hsplit by (rewrite <- drop_drop; apply take_drop).
  case_bool_decide as Hk; intros [= <- <-]; cbn; rewrite ?Es; split_and!; try done.
  all: try lia.
  rewrite Hk, drop_all in Hsplit. done.
Qed.

Lemma poll_read_spec closed evs room s c rest q s' c' r :
  reading s c rest q → Forall framed q → poll_read closed evs room s c = (s', c', r) →
  tx_state s' = tx_state s ∧ read_outcome s s' c' rest q r.
Proof.
  revert s c q. induction evs as [|ev evs IH]; intros s c q HR HF; cbn [poll_read];
    destruct (has_plaintext s) eqn:Eh.
  1,3: assert (rx_state s = HavePlaintext) as Es
         by (revert Eh; unfold has_plaintext; by destruct (rx_state s));
       destruct (drain_plaintext room s) as [s1 bytes] eqn:Ed; intros [= <- <- <-];
       destruct (drain_plaintext_spec _ _ _ _ _ _ _ Es HR Ed) as (F & T & R' & Hb);
       split; [done|]; exists [], [], (framer s), q; split; [constructor|]; split; [done|]; left;
       split; [done|]; split; [done|]; rewrite app_nil_r; done.
  - destruct (reading_settle _ _ _ _ Eh HR) as (R1 & Hr1 & Hr2 & F1 & _ & T1).
    intros [= <- <- <-]. split; [done|]. exists [], [], (framer s), q.
    split; [constructor|]. split; [done|]. left. rewrite Hr1, Hr2. done.
  - destruct (reading_settle _ _ _ _ Eh HR) as (R1 & Hr1 & Hr2 & F1 & Hne & T1).
    destruct (rx_poll closed ev (settle s) c) as [[s1 c1] o] eqn:Ep.
    destruct (rx_poll_spec _ _ _ _ _ _ _ _ _ Hne R1 HF Ep) as [T2 [HQ|(w & q1 & -> & HW)]].
    + destruct HQ as (F2 & R2 & Hr3 & Ho). destruct o as [r1|].
      * intros [= <- <- <-]. split; [congruence|]. exists [], [], (framer s), q.
        split; [constructor|]. split; [done|]. left. rewrite Hr1, Hr3, F2, F1.
        split; [done|]. split; [done|]. destruct r1 as [|[bs|e]]; simpl in *; [done|by subst|].
        split; [done|]. by intros ? [= <-].
      * intros Hp. destruct (IH _ _ _ R2 HF Hp) as [T3 (ws & pts & f & q' & Hrs & Hq & Hcase)].
        split; [congruence|]. exists ws, pts, f, q'. rewrite <- F1, <- F2. split; [done|].
        split; [done|]. rewrite Hr1. rewrite Hr3 in Hcase. done.
    + destruct HW as [(pt & Hrecv & R2 & Hr3 & ->)|(e & Hrecv & ->)].
      * apply Forall_cons in HF as [_ HF]. intros Hp.
        destruct (IH _ _ _ R2 HF Hp) as [T3 (ws & pts & f & q' & Hrs & Hq & Hcase)].
        split; [congruence|]. exists (w :: ws), (pt :: pts), f, q'. rewrite F1 in Hrecv.
        split; [by eapply recvs_cons|]. split; [by rewrite Hq|]. rewrite Hr1. cbn [concat].
        rewrite Hr3 in Hcase. done.
      * intros [= <- <- <-]. split; [congruence|]. exists [], [], (framer s), (w :: q1).
        split; [constructor|]. split; [done|]. right. rewrite F1 in Hrecv. eauto 10.
Qed.

End accounting.

(** ** Two streams over byte carriers *)

Section stream_link.
Context {SC : SessionCrypto}.

(** One end: its stream, the bytes it put on the carrier that the peer has not
    taken off, the bytes its caller wrote and the bytes its caller read. *)
Record stream_end : Type := mkSEnd {
  strm : SessionStream;
  out_c : list byte;
  accepted : list byte;
  delivered : list byte;
}.

Definition taken (r : Poll nat) : nat := match r with Ready (Ok n) => n | _ => 0%nat end.

Variable P : SessionFramer → Z → Prop.

(** One poll of the left end. A poll that reports an error ends the session. *)
Inductive stream_left : stream_end * stream_end → stream_end * stream_end → Prop :=
| stream_write s c a d o evs now buf s' em r :
    P (framer s) (clock now s) → poll_write evs now buf s = (s', em, r) →
    (∀ e, r ≠ Ready (Err e)) →
    stream_left (mkSEnd s c a d, o) (mkSEnd s' (c ++ em) (a ++ take (taken r) buf) d, o)
| stream_flush s c a d o evs last s' em r :
    poll_flush evs last s = (s', em, r) →
    stream_left (mkSEnd s c a d, o) (mkSEnd s' (c ++ em) a d, o)
| stream_read s c a d so co ao do closed evs room s' c' r :
    poll_read closed evs room s co = (s', c', r) → (∀ e, r ≠ Ready (Err e)) →
    stream_left (mkSEnd s c a d, mkSEnd so co ao do)
                (mkSEnd s' c a (d ++ handed r), mkSEnd so c' ao do).

Inductive stream_step (L L' : stream_end * stream_end) : Prop :=
| stream_on_left : stream_left L L' → stream_step L L'
| stream_on_right : stream_left (swap L) (swap L') → stream_step L L'.

Definition stream_start (f : SessionFramer) (now secs : Z) : stream_end :=
  mkSEnd (set_ratchet_interval_secs secs (SessionStream_new f now)) [] [] [].

Inductive stream_reachable (b ss : list byte) (ti tr : TransportState)
  : stream_end * stream_end → Prop :=
| stream_init fi f_r now1 now2 secs1 secs2 :
    from_session_keys b ss ti Initiator = Ok fi → from_session_keys b ss tr Responder = Ok f_r →
    stream_reachable b ss ti tr (stream_start fi now1 secs1, stream_start f_r now2 secs2)
| stream_next L L' :
    stream_reachable b ss ti tr L → stream_step L L' → stream_reachable b ss ti tr L'.

(** *** Refinement: the byte streams implement the frame link *)

(** What end [x] of the frame link says about the stream ends [X] and [Y]. *)
Definition half (X Y : stream_end) (x y : endpoint) : Prop :=
  framer (strm X) = fr x ∧ tx_wf (strm X)
  ∧ reading (strm Y) (out_c X) (tx_rest (strm X)) (outq x)
  ∧ accepted X = concat (sent x)
  ∧ concat (got y) = delivered Y ++ rx_rest (strm Y).

Definition implements (L : stream_end * stream_end) (l : endpoint * endpoint) : Prop :=
  half L.1 L.2 l.1 l.2 ∧ half L.2 L.1 l.2 l.1.

Lemma implements_swap L l : implements L l → implements (swap L) (swap l).
Proof. by intros [? ?]. Qed.

(** Reading the frames [ws] is as many steps of the frame link. *)
Lemma recvs_steps f q s g fo ws qo so go pts f' :
  recvs f ws pts f' →
  rtc (left_step P) (mkEnd f q s g, mkEnd fo (ws ++ qo) so go)
                    (mkEnd f' q s (g ++ pts), mkEnd fo qo so go).
Proof.
  intros HR. revert g. induction HR as [f|f w pt f1 ws pts f2 Hr HR IH]; intros g.
  - rewrite app_nil_r. done.
  - eapply rtc_l; [by apply left_read|].
    replace (g ++ pt :: pts) with ((g ++ [pt]) ++ pts) by (by rewrite <- (assoc_L (++))).
    apply IH.
Qed.

Lemma stream_left_sim L L' l :
  stream_left L L' → implements L l → Forall framed (outq l.2) → 0 ≤ epoch (fr l.1) →
  ∃ l', rtc (left_step P) l l' ∧ implements L' l'.
Proof.
  intros Hst [H1 H2] HF He. destruct l as [[f q s g] [fo qo so go]].
  destruct Hst as [S c a d o evs now buf S' em r HP Hw Hne|S c a d o evs last S' em r Hfl
                  |S c a d So co ao d_o closed evs room S' c' r Hrd Hne]; cbn in *.
  - destruct H1 as (F1 & W1 & R1 & A1 & D1), H2 as (F2 & W2 & R2 & A2 & D2). cbn in *. subst f.
    destruct (poll_write_spec _ _ _ _ _ _ _ W1 He Hw Hne)
      as (W' & X1 & X2 & X3 & [(F' & T' & Hr)|(n & w & -> & Hem & T')]).
    + exists (mkEnd (framer S) q s g, mkEnd fo qo so go). split; [done|].
      unfold implements, half, reading, rx_wf, rx_part, rx_rest in *. cbn.
      rewrite X1, X2, X3, <- T' in *. rewrite <- (assoc_L (++)).
      assert (take (taken r) buf = []) as -> by (by destruct Hr as [->| ->]).
      rewrite app_nil_r. done.
    + eexists. split; [apply rtc_once; by eapply left_emit|].
      unfold implements, half, reading, rx_wf, rx_part, rx_rest in *. cbn.
      rewrite X1, X2, X3 in *. rewrite <- (assoc_L (++)), T'.
      rewrite !concat_app. cbn [concat]. rewrite !app_nil_r, A1.
      destruct R1 as [R1a R1b]. split_and!; try done; try apply R2.
      by rewrite <- R1b, !(assoc_L (++)).
  - destruct H1 as (F1 & W1 & R1 & A1 & D1), H2 as (F2 & W2 & R2 & A2 & D2). cbn in *.
    exists (mkEnd f q s g, mkEnd fo qo so go). split; [done|].
    unfold poll_flush in Hfl. destruct (drain_tx evs S) as [[[S1 em1] evs1] o1] eqn:Ed.
    destruct (drain_tx_spec _ _ _ _ _ _ W1 Ed) as (T1 & T2 & T3 & T4 & T5 & T6 & _).
    assert (S1 = S' ∧ em1 = em) as [-> ->] by (destruct o1; by simplify_eq).
    unfold implements, half, reading, rx_wf, rx_part, rx_rest in *. cbn.
    rewrite T3, T4, T5, T6, <- T1 in *. rewrite <- (assoc_L (++)). done.
  - destruct H1 as (F1 & W1 & R1 & A1 & D1), H2 as (F2 & W2 & R2 & A2 & D2). cbn in *.
    destruct (poll_read_spec _ _ _ _ _ _ _ _ _ _ R2 HF Hrd)
      as [T' (ws & pts & f1 & q' & Hrs & -> & [(F' & R' & Hb & _)|(w & q'' & e & _ & _ & ->)])];
      [|by destruct (Hne (DecryptFailed e))].
    rewrite F1 in Hrs. eexists. split; [by apply recvs_steps|].
    unfold implements, half, tx_wf, tx_rest in *. cbn. rewrite T'.
    rewrite concat_app, D2, <- !(assoc_L (++)), Hb. done.
Qed.

End stream_link.

Section stream_facts.
Context {SC : SessionCrypto} {SL : SessionCryptoLaws SC}.
Context (b ss : list byte) (ti tr : TransportState).
Context (N1 : noise_channel ti tr []) (N2 : noise_channel tr ti []).
Context (P : SessionFramer → Z → Prop).

Lemma linked_framed l fl1 fl2 dl1 dl2 :
  linked b ss l fl1 fl2 dl1 dl2 → Forall framed (outq l.1) ∧ Forall framed (outq l.2).
Proof.
  assert (∀ d q fl, Forall2 (λ w x, sealed b ss d (fe x) (fsq x) (fict x) w) q fl →
    Forall framed q) as HF.
  { intros d q fl. induction 1 as [|w x q fl (_ & _ & _ & c & _ & Hw & Hc) _ IH]; [constructor|].
    constructor; [by exists c|done]. }
  intros (_ & _ & [_ H1 _ _ _ _ _ _ _ _ _] & [_ H2 _ _ _ _ _ _ _ _ _]).
  split; by eapply HF.
Qed.

Lemma session_reachable_rtc l l' :
  session_reachable P b ss ti tr l → rtc (left_step P) l l' → session_reachable P b ss ti tr l'.
Proof.
  intros Hl Hr. induction Hr as [|x y z Hxy _ IH]; [done|].
  apply IH. eapply session_next; [exact Hl|by apply session_left].
Qed.

Lemma session_reachable_rtc_right l l' :
  session_reachable P b ss ti tr (swap l) → rtc (left_step P) l l' →
  session_reachable P b ss ti tr (swap l').
Proof.
  intros Hl Hr. induction Hr as [|x y z Hxy _ IH]; [done|].
  apply IH. eapply session_next; [exact Hl|]. apply session_right. by destruct x, y.
Qed.

(** Every run of the byte streams is a run of the frame link. *)
Lemma stream_reachable_implements L : stream_reachable P b ss ti tr L →
  ∃ l, session_reachable P b ss ti tr l ∧ implements L l.
Proof.
  induction 1 as [fi f_r n1 n2 s1 s2 Hi Hr|L L' _ (l & Hl & HI) Hst].
  - eexists. split; [by apply session_start|].
    split; (split_and!; [done|done|split; [split; cbn; lia|done]|done|done]).
  - destruct (session_reachable_linked b ss ti tr N1 N2 _ _ Hl) as (fl1 & fl2 & dl1 & dl2 & HL).
    destruct (linked_framed _ _ _ _ _ HL) as [F1 F2]. pose proof HL as (K1 & K2 & _).
    pose proof (fw_epoch _ (k_wf _ _ _ K1)) as [E1 _].
    pose proof (fw_epoch _ (k_wf _ _ _ K2)) as [E2 _].
    destruct Hst as [Hst|Hst].
    + destruct (stream_left_sim _ _ _ _ Hst HI F2 E1) as (l' & Hrtc & HI').
      exists l'. split; [by eapply session_reachable_rtc|done].
    + destruct (stream_left_sim _ _ _ _ Hst (implements_swap _ _ HI) F1 E2) as (l' & Hrtc & HI').
      exists (swap l'). split; [|apply implements_swap in HI'; by destruct L'].
      eapply session_reachable_rtc_right; [|exact Hrtc]. by destruct l.
Qed.

Lemma sent_nonempty l : session_reachable P b ss ti tr l →
  Forall (λ p, p ≠ []) (sent l.1) ∧ Forall (λ p, p ≠ []) (sent l.2).
Proof.
  assert (∀ l l', left_step P l l' →
    Forall (λ p, p ≠ []) (sent l.1) → Forall (λ p, p ≠ []) (sent l.2) →
    Forall (λ p, p ≠ []) (sent l'.1) ∧ Forall (λ p, p ≠ []) (sent l'.2)) as Hleft.
  { clear l. intros l l' Hst H1 H2. destruct Hst as [f q s g o t pt f' w _ Hem|]; cbn in *; [|done].
    split; [|done]. apply Forall_app. split; [done|]. constructor; [|constructor].
    unfold emit, st_bind in Hem. destruct (maybe_advance t f) as [f1 [m|e]]; [|done].
    apply send_Ok in Hem as [[Hlen _] _]. intros E%zlen_zero. lia. }
  induction 1 as [fi f_r Hi Hr|l l' _ [IH1 IH2] [Hst|Hst]]; [done|by eapply Hleft|].
  destruct (Hleft _ _ Hst IH2 IH1). done.
Qed.

End stream_facts.

(** ** Guarantees *)

Section stream_guarantees.
Context {SC : SessionCrypto} {SL : SessionCryptoLaws SC}.
Context (b ss : list byte) (ti tr : TransportState).

Lemma stream_integrity_half X Y x y fl dl :
  half X Y x y → dirinv b ss (fr x) (fr y) (outq x) (sent x) (got y) fl dl →
  Forall framed (outq x) →
  ∃ pending, accepted X = delivered Y ++ pending ∧
    (rx_rest (strm Y) = [] → rx_part (strm Y) = [] → out_c X = [] →
     tx_rest (strm X) = [] → pending = []).
Proof.
  intros (_ & _ & [_ R1] & A1 & D1) D F1.
  exists (rx_rest (strm Y) ++ concat (fpt <$> fl)). split.
  - rewrite A1, (di_sent _ _ _ _ _ _ _ _ _ D), concat_app, D1. by rewrite (assoc_L (++)).
  - intros E1 E2 E3 E4. rewrite E2, E3, E4 in R1. pose proof (di_q _ _ _ _ _ _ _ _ _ D) as Hq.
    destruct (outq x) as [|w q]; [apply Forall2_nil_inv_l in Hq; rewrite Hq, E1; done|].
    exfalso. apply Forall_cons in F1 as [(c & -> & _) _]. apply (f_equal length) in R1.
    cbn [concat app] in R1. rewrite !length_app, length_be_bytes in R1. simpl in R1. lia.
Qed.

(** What [Y]'s caller has read is a prefix of what [X]'s caller wrote, and all of
    it once nothing is buffered or on the carrier. *)
Definition intact (X Y : stream_end) : Prop :=
  ∃ pending, accepted X = delivered Y ++ pending ∧
    (rx_rest (strm Y) = [] → rx_part (strm Y) = [] → out_c X = [] → tx_rest (strm X) = [] → pending = []).

Lemma stream_intact P L : noise_channel ti tr [] → noise_channel tr ti [] → stream_reachable P b ss ti tr L →
  intact L.1 L.2 ∧ intact L.2 L.1.
Proof.
  intros N1 N2 HL.
  destruct (stream_reachable_implements b ss ti tr N1 N2 P L HL) as (l & Hl & [I1 I2]).
  destruct (session_reachable_linked b ss ti tr N1 N2 _ _ Hl) as (fl1 & fl2 & dl1 & dl2 & HL2).
  destruct (linked_framed b ss _ _ _ _ _ HL2) as [F1 F2]. destruct HL2 as (_ & _ & D1 & D2).
  split; by eapply stream_integrity_half.
Qed.

(** C1: the session byte stream is intact. However the carriers cut the bytes
    up, however reads, writes and flushes interleave and whatever the clocks
    say, the bytes a caller has read are the first bytes the other side's caller
    wrote; and once nothing is buffered or on the carrier, they are all of
    them. *)
Theorem session_stream_integrity P L :
  noise_channel ti tr [] → noise_channel tr ti [] → stream_reachable P b ss ti tr L →
  intact L.1 L.2 ∧ intact L.2 L.1.
Proof. apply stream_intact. Qed.

(** Links whose clocks stay within one epoch of the peer. *)
Definition in_step (l : endpoint * endpoint) : Prop :=
  (∃ fl1 fl2 dl1 dl2, linked b ss l fl1 fl2 dl1 dl2) ∧ near (fr l.1) ∧ near (fr l.2).

Lemma in_step_swap l : in_step l → in_step (swap l).
Proof.
  intros ((fl1 & fl2 & dl1 & dl2 & HL) & ? & ?). split; [|done].
  apply linked_swap in HL. eauto.
Qed.

Lemma in_step_rtc l l' : in_step l → rtc (left_step lead_one) l l' → in_step l'.
Proof.
  intros Hl Hr. induction Hr as [|x y z Hxy _ IH]; [done|]. apply IH.
  destruct Hl as ((? & ? & ? & ? & HL) & H1 & H2). split.
  - eapply linked_step; [exact HL|by apply session_left].
  - eapply near_step; [exact HL|by apply session_left|done..].
Qed.

Lemma session_reachable_in_step l :
  noise_channel ti tr [] → noise_channel tr ti [] →
  session_reachable lead_one b ss ti tr l → in_step l.
Proof.
  intros N1 N2 Hl. split.
  - exact (session_reachable_linked b ss ti tr N1 N2 _ _ Hl).
  - exact (session_reachable_near b ss ti tr N1 N2 _ Hl).
Qed.

Lemma in_step_readable l : in_step l → readable l.1 l.2.
Proof.
  intros ((? & ? & ? & ? & HL) & H1 & H2). destruct l. by eapply near_readable.
Qed.

Lemma poll_read_faults_half L l closed evs room s' c' e :
  in_step l → implements L l →
  poll_read closed evs room (strm L.1) (out_c L.2) = (s', c', Ready (Err e)) → carrier_fault e.
Proof.
  intros HG [(F1 & _) (_ & _ & R2 & _)] Hp.
  pose proof HG as ((? & ? & ? & ? & HL) & _).
  destruct (linked_framed b ss _ _ _ _ _ HL) as [_ F2].
  destruct (poll_read_spec _ _ _ _ _ _ _ _ _ _ R2 F2 Hp)
    as [_ (ws & pts & f & q' & Hrs & Hq & [(_ & _ & _ & Hf)|(w & q'' & e' & -> & Hr & _)])];
    [by apply Hf|].
  destruct l as [[fa qa sa ga] [fb qb sb gb]]. cbn in *. subst.
  pose proof (in_step_rtc _ _ HG (recvs_steps lead_one _ qa sa ga fb _ (w :: q'') sb gb _ _ Hrs))
    as HG'.
  destruct (in_step_readable _ HG' w q'' eq_refl) as (g & pt & Hg). cbn in Hg.
  by rewrite Hg in Hr.
Qed.

(** C28: no spurious failure. If each side writes only while the epoch its clock
    asks for is at most one past the newest epoch it has received a frame of (so
    neither goes on writing after two silent epochs of the peer; without this a
    frame can be rejected, SessionLink.ratchet_burst_desyncs), then whatever the
    carrier's chunks, [poll_read] on either side reports
    no error of its own: no rejected frame and no bad length, only errors and
    truncations of the carrier itself. *)
Theorem session_stream_no_desync L closed evs room s' c' e :
  noise_channel ti tr [] → noise_channel tr ti [] → stream_reachable lead_one b ss ti tr L →
  poll_read closed evs room (strm L.1) (out_c L.2) = (s', c', Ready (Err e))
  ∨ poll_read closed evs room (strm L.2) (out_c L.1) = (s', c', Ready (Err e)) →
  carrier_fault e.
Proof.
  intros N1 N2 HL Hp.
  destruct (stream_reachable_implements b ss ti tr N1 N2 _ L HL) as (l & Hl & HI).
  pose proof (session_reachable_in_step _ N1 N2 Hl) as HG. destruct Hp as [Hp|Hp].
  - by eapply poll_read_faults_half.
  - eapply (poll_read_faults_half (swap L) (swap l)); [by apply in_step_swap|
      by apply implements_swap|exact Hp].
Qed.

End stream_guarantees.

(** ** Progress *)

Section progress.
Context {SC : SessionCrypto}.

(** A carrier that offers as much as it has. *)
Definition plenty : rd_event := RdReady (Z.to_nat 65537).

Lemma carrier_read_plenty room closed c :
  0 < Z.of_nat room ≤ 65537 → (room ≤ length c)%nat →
  carrier_read room closed plenty c = (RaBytes (take room c), drop room c).
Proof.
  intros Hr Hc. destruct c as [|x c]; [simpl in Hc; lia|]. unfold carrier_read, plenty.
  by replace (Nat.min (Nat.max 1 (Z.to_nat 65537)) room) with room by lia.
Qed.

Lemma length_concat_cons w (q : list (list byte)) : (length w ≤ length (concat (w :: q)))%nat.
Proof. cbn [concat]. rewrite length_app. lia. Qed.

Lemma framed_length w : framed w → (35 ≤ length w)%nat.
Proof.
  intros (c & -> & Hc). unfold zlen in Hc. rewrite length_app, length_be_bytes. lia.
Qed.

(** The length field decides where the frame being read ends. *)
Lemma reading_body_length s c rest w q remaining wire :
  rx_state s = ReadingBody remaining wire → reading s c rest (w :: q) → framed w →
  length wire = length w ∧ 0 < Z.of_nat remaining ≤ 65537.
Proof.
  intros Es [Hwf Heq] (ct & -> & Hct). unfold rx_wf, rx_part in *. rewrite Es in *.
  destruct Hwf as (Hrem & Hl & Hn). cbn [concat] in Heq. apply (f_equal (take 2)) in Heq.
  rewrite take_app_le in Heq by (rewrite length_take; lia).
  rewrite take_take, <- !(assoc_L (++)) in Heq.
  rewrite (take_app_length' (be_bytes 2 (zlen ct))) in Heq by (by rewrite length_be_bytes).
  replace (2 `min` (length wire - remaining))%nat with 2%nat in Heq by lia.
  rewrite Heq, be_u16_roundtrip in Hn by (unfold in_u16, u16_max; lia).
  rewrite length_app, length_be_bytes. unfold zlen in *. lia.
Qed.

(** A whole frame on the carrier is read by one inner poll ... *)
Lemma rx_poll_body_plenty closed s c w q remaining wire :
  rx_state s = ReadingBody remaining wire → reading s c [] (w :: q) → Forall framed (w :: q) →
  ∃ s' c' o, rx_poll closed plenty s c = (s', c', o) ∧ rx_frame s s' c' [] (w :: q) o.
Proof.
  intros Es HR HF. pose proof (proj1 (proj1 (Forall_cons _ _ _) HF)) as Hw.
  destruct (reading_body_length _ _ _ _ _ _ _ Es HR Hw) as [Hlen Hrem].
  destruct (rx_poll closed plenty s c) as [[s' c'] o] eqn:Ep. exists s', c', o. split; [done|].
  destruct (rx_poll_body _ _ _ _ _ _ _ _ _ _ _ Es HR HF Ep) as [_ [HQ|]]; [exfalso|done].
  destruct HR as [Hwf Heq]. unfold rx_wf, rx_part in *. rewrite Es in *.
  destruct Hwf as (_ & Hl & _). apply (f_equal length) in Heq. cbn [concat] in Heq.
  rewrite !length_app, length_take in Heq. simpl in Heq.
  unfold rx_poll in Ep. rewrite Es, carrier_read_plenty in Ep by lia.
  rewrite bool_decide_false in Ep by (intros E; apply (f_equal length) in E;
    rewrite length_take in E; simpl in E; lia).
  rewrite length_take, Nat.min_l, Nat.sub_diag in Ep by lia.
  rewrite bool_decide_true in Ep by done.
  destruct HQ as (_ & [_ HR'] & _). apply (f_equal length) in HR'. cbn [concat] in HR'.
  destruct (recv _ _) as [f' [pt|e]]; simplify_eq; unfold rx_part in HR'; cbn in HR';
    rewrite !length_app, length_drop in HR'; simpl in HR'; lia.
Qed.

(** ... and its length field by the one before. *)
Lemma rx_poll_length_plenty closed s c w q got lbuf :
  rx_state s = ReadingLength got lbuf → reading s c [] (w :: q) → Forall framed (w :: q) →
  ∃ s' c' remaining wire, rx_poll closed plenty s c = (s', c', None)
    ∧ framer s' = framer s ∧ reading s' c' [] (w :: q) ∧ rx_state s' = ReadingBody remaining wire.
Proof.
  intros Es HR HF. pose proof (proj1 (proj1 (Forall_cons _ _ _) HF)) as Hw%framed_length.
  destruct (rx_poll closed plenty s c) as [[s' c'] o] eqn:Ep.
  destruct (rx_poll_length _ _ _ _ _ _ _ _ _ _ _ Es HR HF Ep) as [_ (F & R' & _ & Ho)].
  destruct HR as [Hwf Heq]. unfold rx_wf, rx_part in *. rewrite Es in *.
  destruct Hwf as [Hg Hl]. apply (f_equal length) in Heq. cbn [concat] in Heq.
  rewrite !length_app, length_take in Heq. simpl in Heq.
  unfold rx_poll in Ep. rewrite Es in Ep.
  rewrite carrier_read_plenty in Ep by lia.
  rewrite bool_decide_false in Ep by (intros E; apply (f_equal length) in E;
    rewrite length_take in E; simpl in E; lia).
  rewrite length_take, Nat.min_l in Ep by lia. rewrite bool_decide_true in Ep by lia.
  case_bool_decide; simplify_eq.
  - simpl in Ho. unfold carrier_fault in Ho. naive_solver.
  - eexists _, _, _, _. done.
Qed.

Lemma poll_read_buffered closed evs room s c :
  rx_rest s ≠ [] → (0 < room)%nat →
  ∃ s' bytes, poll_read closed evs room s c = (s', c, Ready (Ok bytes)) ∧ bytes ≠ [].
Proof.
  intros Hr Hroom. assert (rx_state s = HavePlaintext ∧ has_plaintext s = true) as [Es Hp].
  { unfold rx_rest, has_plaintext in *. destruct (rx_state s); [done..|]. split; [done|].
    apply bool_decide_true. rewrite <- length_drop. by destruct (drop _ _); [|simpl; lia]. }
  destruct (drain_plaintext room s) as [s' bytes] eqn:Ed. exists s', bytes. split.
  - destruct evs; cbn [poll_read]; by rewrite Hp, Ed.
  - unfold drain_plaintext in Ed. apply (f_equal snd) in Ed. unfold rx_rest in Hr. rewrite Es in Hr.
    assert (take (Nat.min (length (rx_buf s) - rx_off s) room) (drop (rx_off s) (rx_buf s)) = bytes)
      as <- by (by case_bool_decide).
    rewrite <- length_drop. destruct (drop _ _) as [|x l]; [done|]. by destruct room; [lia|].
Qed.

Lemma poll_read_plenty closed room s c w q f' pt :
  reading s c [] (w :: q) → Forall framed (w :: q) → has_plaintext s = false →
  recv w (framer s) = (f', Ok pt) → pt ≠ [] → (0 < room)%nat →
  ∃ s' c' bytes, poll_read closed [plenty; plenty] room s c = (s', c', Ready (Ok bytes))
    ∧ bytes ≠ [].
Proof.
  intros HR HF Hp Hrecv Hpt Hroom.
  destruct (reading_settle _ _ _ _ Hp HR) as (R1 & _ & _ & F1 & Hne & _).
  assert (∀ evs s2 c2 remaining wire, rx_state s2 = ReadingBody remaining wire →
    reading s2 c2 [] (w :: q) → framer s2 = framer s →
    ∃ s' c' bytes, match rx_poll closed plenty s2 c2 with
                   | (s', c', Some r) => (s', c', r)
                   | (s', c', None) => poll_read closed evs room s' c'
                   end = (s', c', Ready (Ok bytes)) ∧ bytes ≠ []) as Hbody.
  { intros evs s2 c2 remaining wire Es2 R2 F2.
    destruct (rx_poll_body_plenty closed _ _ _ _ _ _ Es2 R2 HF) as (s3 & c3 & o & -> & HW).
    destruct HW as (w' & q' & [= <- <-] & HW). rewrite F2, Hrecv in HW.
    destruct HW as [(pt' & [= _ <-] & _ & Hr & ->)|(e & He & _)]; [|done].
    destruct (poll_read_buffered closed evs room s3 c3) as (s' & bytes & Hs & Hb);
      [by rewrite Hr|done|]. eauto. }
  cbn [poll_read]. rewrite Hp.
  destruct (rx_state (settle s)) as [got lbuf|remaining wire|] eqn:Es; [| |done].
  - destruct (rx_poll_length_plenty closed _ _ _ _ _ _ Es R1 HF)
      as (s1 & c1 & remaining & wire & -> & F2 & R2 & Es2).
    assert (has_plaintext s1 = false) as -> by (unfold has_plaintext; by rewrite Es2).
    assert (settle s1 = s1) as -> by (unfold settle; by rewrite Es2).
    eapply (Hbody [] s1); [done..|congruence].
  - exact (Hbody [plenty] _ _ _ _ Es R1 F1).
Qed.

End progress.

Section progress_guarantees.
Context {SC : SessionCrypto} {SL : SessionCryptoLaws SC}.
Context (b ss : list byte) (ti tr : TransportState).

Lemma session_stream_delivers_half L l closed room :
  in_step b ss l → implements L l → Forall (λ p, p ≠ []) (sent l.2) →
  tx_rest (strm L.2) = [] → delivered L.1 ≠ accepted L.2 → (0 < room)%nat →
  ∃ s' c' bytes,
    poll_read closed [plenty; plenty] room (strm L.1) (out_c L.2) = (s', c', Ready (Ok bytes))
    ∧ bytes ≠ [].
Proof.
  intros HG [(F1 & _) (_ & _ & R2 & A2 & D2)] Hsent Htx Hne Hroom.
  destruct (decide (rx_rest (strm L.1) = [])) as [Hr|Hr].
  2: { destruct (poll_read_buffered closed [plenty; plenty] room (strm L.1) (out_c L.2) Hr Hroom)
         as (s' & bytes & Hp). eauto. }
  pose proof HG as ((fl1 & fl2 & dl1 & dl2 & HL) & _).
  destruct (linked_framed b ss _ _ _ _ _ HL) as [_ HF].
  pose proof HL as (_ & _ & _ & D). pose proof (di_sent _ _ _ _ _ _ _ _ _ D) as Hs.
  rewrite Hr, app_nil_r in D2. rewrite Htx in R2.
  destruct l as [[fa qa sa ga] [fb [|w q] sb gb]]; cbn in *.
  { exfalso. apply Hne. pose proof (di_q _ _ _ _ _ _ _ _ _ D) as Hq%Forall2_nil_inv_l. subst.
    by rewrite A2, <- D2, app_nil_r. }
  destruct (in_step_readable b ss _ HG w q eq_refl) as (f' & pt & Hrecv). cbn in Hrecv.
  destruct (linked_read b ss _ _ _ _ _ _ _ _ _ _ _ _ _ _ _ HL Hrecv) as (x & fl & -> & Hx & _).
  eapply poll_read_plenty; [exact R2|done| |by rewrite F1| |done].
  - unfold has_plaintext. unfold rx_rest in Hr. destruct (rx_state (strm L.1)); [done..|].
    apply bool_decide_false. rewrite <- length_drop, Hr. simpl. lia.
  - rewrite Hs in Hsent. apply Forall_app in Hsent as [_ Hsent].
    rewrite fmap_cons, Hx in Hsent. by apply Forall_cons in Hsent as [? _].
Qed.

(** C27: written bytes arrive. If each side writes only while the epoch its clock
    asks for is at most one past the newest epoch it has received a frame of (so
    neither goes on writing after two silent epochs of the peer; without this the
    two can lose each other, SessionLink.ratchet_burst_desyncs) and the writer has
    flushed, then as long as its caller wrote more than
    the reader's caller has read, one [poll_read] over a carrier that offers
    what it has hands out at least one more byte, in either direction. *)
Theorem session_stream_delivers L closed room :
  noise_channel ti tr [] → noise_channel tr ti [] → stream_reachable lead_one b ss ti tr L →
  (0 < room)%nat →
  (tx_rest (strm L.2) = [] → delivered L.1 ≠ accepted L.2 →
   ∃ s' c' bytes, poll_read closed [plenty; plenty] room (strm L.1) (out_c L.2)
                  = (s', c', Ready (Ok bytes)) ∧ bytes ≠ []) ∧
  (tx_rest (strm L.1) = [] → delivered L.2 ≠ accepted L.1 →
   ∃ s' c' bytes, poll_read closed [plenty; plenty] room (strm L.2) (out_c L.1)
                  = (s', c', Ready (Ok bytes)) ∧ bytes ≠ []).
Proof.
  intros N1 N2 HL Hroom.
  destruct (stream_reachable_implements b ss ti tr N1 N2 _ L HL) as (l & Hl & HI).
  pose proof (session_reachable_in_step b ss ti tr _ N1 N2 Hl) as HG.
  destruct (sent_nonempty b ss ti tr _ _ Hl) as [S1 S2]. split; intros Htx Hne.
  - by eapply session_stream_delivers_half.
  - eapply (session_stream_delivers_half (swap L) (swap l)); [by apply in_step_swap|
      by apply implements_swap|done..].
Qed.

(** A rejected frame poisons the stream. Once [poll_read] has reported a
    frame that does not decrypt, no later [poll_read] hands out a byte or a
    clean end of stream, whatever arrives. *)
Theorem session_stream_poisoned closed evs room s c s' c' e closed2 evs2 room2 c2 s2 c3 r :
  poll_read closed evs room s c = (s', c', Ready (Err (DecryptFailed e))) →
  poll_read closed2 evs2 room2 s' c2 = (s2, c3, r) → s2 = s' ∧ ∀ bytes, r ≠ Ready (Ok bytes).
Proof.
  intros H1 H2. assert (rx_state s' = ReadingBody 0 []) as Es.
  { revert s c H1. induction evs as [|ev evs IH]; intros s c; cbn [poll_read];
      destruct (has_plaintext s); try (by destruct (drain_plaintext room s)).
    destruct (rx_poll closed ev (settle s) c) as [[s1 c1] [r1|]] eqn:Ep; [|apply IH].
    intros [= -> -> ->]. revert Ep. unfold rx_poll.
    destruct (rx_state (settle s)); [| |done]; destruct (carrier_read _ _ _ _) as [[| |bs] c1];
      try done; repeat case_bool_decide; try done.
    destruct (recv _ _) as [f' [pt|e']]; [done|]. by intros [= <- _ _]. }
  assert (has_plaintext s' = false ∧ settle s' = s') as [Hp Hs]
    by (unfold has_plaintext, settle; by rewrite Es).
  destruct evs2 as [|ev evs2]; cbn [poll_read] in H2; rewrite Hp, ?Hs in H2; [by simplify_eq|].
  unfold rx_poll in H2. rewrite Es in H2.
  destruct (carrier_read _ _ _ _) as [a c4] eqn:Ec. apply carrier_read_spec in Ec.
  destruct a as [| |bs]; [by simplify_eq..|]. destruct Ec as [_ Hbs].
  destruct bs; [|simpl in Hbs; lia]. rewrite bool_decide_true in H2 by done. by simplify_eq.
Qed.

End progress_guarantees.

(** ** A concrete run
    The initiator writes two bytes, the carrier takes the frame in two pieces,
    and the responder reads it byte by byte and in pieces. *)
Module DemoStream.

Definition start : stream_end * stream_end :=
  (stream_start (Demo.framer Initiator) 0 3600, stream_start (Demo.framer Responder) 0 3600).

Definition message : list byte := [x01; x02].
Definition w1 : SessionStream * list byte * Poll nat :=
  poll_write [WrReady 10] 0 message (strm start.1).
Definition w2 : SessionStream * list byte * Poll nat :=
  poll_flush [WrReady 100] Pending w1.1.1.
Definition flushed : stream_end * stream_end :=
  (mkSEnd w2.1.1 (([] ++ w1.1.2) ++ w2.1.2) ([] ++ take 2 message) [], start.2).

Definition r1 : SessionStream * list byte * Poll (list byte) :=
  poll_read false [RdReady 1; RdReady 1; RdReady 20; RdReady 100] 1 (strm start.2) (out_c flushed.1).
Definition half_read : stream_end * stream_end :=
  (mkSEnd (strm flushed.1) r1.1.2 (accepted flushed.1) [], mkSEnd r1.1.1 [] [] ([] ++ [x01])).

Lemma triple {A B C} (p : A * B * C) z : p.2 = z → p = (p.1.1, p.1.2, z).
Proof. destruct p as [[? ?] ?]. by intros <-. Qed.

Lemma w2_eq : poll_flush [WrReady 100] Pending w1.1.1 = (w2.1.1, w2.1.2, w2.2).
Proof. unfold w2. by apply triple. Qed.

Lemma r1_eq :
  poll_read false [RdReady 1; RdReady 1; RdReady 20; RdReady 100] 1 (strm start.2) (out_c flushed.1)
  = (r1.1.1, r1.1.2, Ready (Ok [x01])).
Proof. unfold r1. apply triple. vm_compute. reflexivity. Qed.

Lemma flushed_reachable P :
  P (framer (strm start.1)) (clock 0 (strm start.1)) →
  stream_reachable P Demo.binding Demo.secret Demo.fresh Demo.fresh flushed.
Proof.
  intros HP. eapply stream_next; [eapply stream_next; [apply stream_init; apply Demo.framer_ok|]|].
  - apply stream_on_left. eapply (stream_write P (strm start.1) [] [] [] start.2 _ 0 message
      w1.1.1 w1.1.2 (Ready (Ok 2%nat))); [done| |done].
    apply (triple w1). vm_compute. reflexivity.
  - apply stream_on_left.
    apply (stream_flush P w1.1.1 ([] ++ w1.1.2) ([] ++ take 2 message) [] start.2
      [WrReady 100] Pending w2.1.1 w2.1.2 w2.2).
    exact w2_eq.
Qed.

Lemma half_read_reachable P :
  P (framer (strm start.1)) (clock 0 (strm start.1)) →
  stream_reachable P Demo.binding Demo.secret Demo.fresh Demo.fresh half_read.
Proof.
  intros HP. eapply stream_next; [by apply flushed_reachable|]. apply stream_on_right.
  apply (stream_read P (strm start.2) [] [] [] (strm flushed.1) (out_c flushed.1)
    (accepted flushed.1) [] false [RdReady 1; RdReady 1; RdReady 20; RdReady 100] 1
    r1.1.1 r1.1.2 (Ready (Ok [x01]))); [exact r1_eq|done].
Qed.

(** A frame nobody sealed. *)
Definition garbage : list byte := be_bytes 2 33 ++ replicate 33 xff.
Definition bad : SessionStream * list byte * Poll (list byte) :=
  poll_read false [plenty; plenty] 8 (strm start.2) garbage.

End DemoStream.

Lemma session_stream_integrity_witness :
  ∃ pending, accepted DemoStream.half_read.1 = delivered DemoStream.half_read.2 ++ pending.
Proof.
  destruct (session_stream_integrity (SL := Demo.laws) _ _ _ _ any_clock DemoStream.half_read
    Demo.fresh_channel Demo.fresh_channel (DemoStream.half_read_reachable any_clock I))
    as [(pending & Hp & _) _].
  exists pending. exact Hp.
Defined.

Lemma session_stream_no_desync_witness : carrier_fault IoInner.
Proof.
  eapply (session_stream_no_desync (SL := Demo.laws) _ _ _ _ DemoStream.flushed true
    [RdErr] 8 (strm DemoStream.flushed.1) [] IoInner Demo.fresh_channel Demo.fresh_channel).
  - apply DemoStream.flushed_reachable. vm_compute. discriminate.
  - left. reflexivity.
Defined.

Lemma session_stream_delivers_witness :
  ∃ s' c' bytes, poll_read false [plenty; plenty] 8 (strm DemoStream.flushed.2)
    (out_c DemoStream.flushed.1) = (s', c', Ready (Ok bytes)) ∧ bytes ≠ [].
Proof.
  eapply (session_stream_delivers (SL := Demo.laws) _ _ _ _ DemoStream.flushed false 8
    Demo.fresh_channel Demo.fresh_channel).
  - apply DemoStream.flushed_reachable. vm_compute. discriminate.
  - lia.
  - vm_compute. reflexivity.
  - discriminate.
Defined.

Lemma session_stream_poisoned_witness :
  let s' := DemoStream.bad.1.1 in
  let p := poll_read false [plenty; plenty] 8 s' DemoStream.garbage in
  p.1.1 = s' ∧ ∀ bytes, p.2 ≠ Ready (Ok bytes).
Proof.
  intros s' p.
  eapply (session_stream_poisoned false [plenty; plenty] 8 (strm DemoStream.start.2)
    DemoStream.garbage s' DemoStream.bad.1.2 (State "outer aead decrypt failed")
    false [plenty; plenty] 8 DemoStream.garbage p.1.1 p.1.2 p.2).
  - apply (DemoStream.triple DemoStream.bad). vm_compute. reflexivity.
  - unfold p. by apply DemoStream.triple.
Defined.
