(* ===== verification/SessionEnvelope.v ===== *)
(** * Length padding and the datagram envelope
    (crates/session/src/padding.rs, udp_frame.rs)

    Two codecs that run inside a session: Padme rounding with its length-prefixed
    buffers, and the envelope that keeps datagram boundaries on a byte stream.
    The random fill comes from the caller ([None] when the generator fails); a
    readable stream is the bytes that are still to come before its end. *)

From stdpp Require Import base numbers list strings.
From Stdlib Require Import ZArith Lia Strings.Byte.
From S2P Require Import Prelude Bytes SessionFrames.

(** ** Padme *)

Inductive PadmeError : Set := Truncated | BadPrefix | Overflow | Csprng.

Inductive FrameKind : Set := Media | Control.

Inductive PaddingPolicy : Set := AlwaysPad | BypassMedia.

(** [a.div_ceil(b)] *)
Abbreviation div_ceil a b := ((a + b - 1) / b) (only parsing).

(** [63 - x.leading_zeros()] is the position of the highest bit. *)
Definition padme (l : Z) : Z :=
  if bool_decide (l < 4) then l
  else
    let e := Z.log2 l in
    if bool_decide (e < 2) then l
    else
      let s := Z.log2 e in
      let shift := saturating_sub e s in
      let step := 2 ^ shift in
      (div_ceil l step * step) `mod` (u64_max + 1).

(** [rng n] is what the generator fills a buffer of [n] bytes with. *)
Definition pad_to_padme (rng : nat → option (list byte)) (plaintext : list byte)
  : result PadmeError (list byte) :=
  if bool_decide (zlen plaintext > u16_max - 2) then Err Overflow
  else
    let total := zlen plaintext + 2 in
    let target := padme total in
    let out := replicate (Z.to_nat target) x00 in
    let out := splice out 0 (be_bytes 2 (zlen plaintext)) in
    let out := splice out 2 plaintext in
    let pad_start := (2 + length plaintext)%nat in
    if bool_decide (Z.of_nat pad_start < target) then
      let? fill := ok_or (rng (Z.to_nat target - pad_start)%nat) Csprng in
      Ok (splice out pad_start fill)
    else Ok out.

Definition pad_for_kind (rng : nat → option (list byte)) (plaintext : list byte)
  (kind : FrameKind) (policy : PaddingPolicy) : result PadmeError (list byte) :=
  match kind, policy with
  | Control, _ | Media, AlwaysPad => pad_to_padme rng plaintext
  | Media, BypassMedia =>
    if bool_decide (zlen plaintext > u16_max - 2) then Err Overflow
    else Ok (be_bytes 2 (zlen plaintext) ++ plaintext)
  end.

Definition unpad_from_padme (padded : list byte) : result PadmeError (list byte) :=
  if bool_decide (zlen padded < 2) then Err Truncated
  else
    let len := be_val [at_ padded 0; at_ padded 1] in
    if bool_decide (2 + len > zlen padded) then Err BadPrefix
    else Ok (slice padded 2 (2 + Z.to_nat len)).

Lemma padme_step l : 4 ≤ l →
  let s := Z.log2 (Z.log2 l) in
  1 ≤ s ∧ s ≤ Z.log2 l ∧ 2 ^ (Z.log2 l - s) * 2 ^ s = 2 ^ Z.log2 l ∧ 2 ^ Z.log2 l ≤ l
  ∧ l < 2 * 2 ^ Z.log2 l.
Proof.
  intros Hl s. assert (2 ≤ Z.log2 l) as He by (apply Z.log2_le_pow2; lia).
  assert (1 ≤ s) as Hs by (apply Z.log2_le_pow2; lia).
  assert (s ≤ Z.log2 l) as Hse by (pose proof (Z.log2_lt_lin (Z.log2 l)); lia).
  pose proof (Z.log2_spec l ltac:(lia)) as [H1 H2]. rewrite Z.pow_succ_r in H2 by lia.
  split_and!; try lia. rewrite <- Z.pow_add_r by lia. f_equal. lia.
Qed.

(** Rounding up to a multiple of [k]. *)
Lemma div_ceil_spec a k : 0 < k →
  a ≤ div_ceil a k * k < a + k ∧ (∀ q, a ≤ q * k → div_ceil a k * k ≤ q * k).
Proof.
  intros Hk. pose proof (Z.div_mod (a + k - 1) k ltac:(lia)).
  pose proof (Z.mod_pos_bound (a + k - 1) k Hk). split; [lia|]. intros q Hq.
  assert ((a + k - 1) / k < q + 1); [|nia]. apply Z.div_lt_upper_bound; lia.
Qed.

Lemma padme_eq l : 4 ≤ l ≤ 2 ^ 63 →
  padme l = div_ceil l (2 ^ (Z.log2 l - Z.log2 (Z.log2 l))) * 2 ^ (Z.log2 l - Z.log2 (Z.log2 l)).
Proof.
  intros [Hl Hmax]. destruct (padme_step l Hl) as (Hs & Hse & Hp & H1 & H2).
  set (s := Z.log2 (Z.log2 l)) in *. set (k := 2 ^ (Z.log2 l - s)) in *.
  assert (0 < k) as Hk by (apply Z.pow_pos_nonneg; lia).
  unfold padme. rewrite bool_decide_false by lia. fold s.
  rewrite bool_decide_false by (apply Z.le_ngt, Z.log2_le_pow2; lia).
  unfold saturating_sub. rewrite Z.max_l by lia. fold k.
  destruct (div_ceil_spec l k Hk) as [[Ha _] Hb]. apply Z.mod_small. split; [lia|].
  assert (div_ceil l k * k ≤ 2 ^ 63); [|unfold u64_max; lia].
  assert (0 ≤ 63 - (Z.log2 l - s)) as He.
  { assert (Z.log2 l ≤ 63); [|lia]. rewrite <- (Z.log2_pow2 63) by lia. by apply Z.log2_le_mono. }
  specialize (Hb (2 ^ (63 - (Z.log2 l - s)))).
  replace (2 ^ 63) with (2 ^ (63 - (Z.log2 l - s)) * k) in *; [by apply Hb|].
  unfold k. rewrite <- Z.pow_add_r by lia. f_equal. lia.
Qed.

(** A multiple of its own step is left alone. *)
Lemma padme_fix m q : 4 ≤ m ≤ 2 ^ 63 → m = q * 2 ^ (Z.log2 m - Z.log2 (Z.log2 m)) → padme m = m.
Proof.
  intros Hm Hq. rewrite padme_eq by done.
  assert (0 < 2 ^ (Z.log2 m - Z.log2 (Z.log2 m))) as Hk.
  { apply Z.pow_pos_nonneg; [lia|]. destruct (padme_step m); lia. }
  destruct (div_ceil_spec m _ Hk) as [[? _] Hc]. specialize (Hc q). lia.
Qed.

Lemma padme_idem l : 4 ≤ l ≤ 2 ^ 63 → padme l ≤ 2 ^ 63 → padme (padme l) = padme l.
Proof.
  intros Hl Hmax. pose proof (padme_eq l Hl) as Hp.
  destruct (padme_step l (proj1 Hl)) as (Hs & Hse & Hk & H1 & H2).
  set (s := Z.log2 (Z.log2 l)) in *. set (k := 2 ^ (Z.log2 l - s)) in *.
  assert (0 < k) as Hk0 by (apply Z.pow_pos_nonneg; lia).
  assert (0 < 2 ^ s) as Hs0 by (apply Z.pow_pos_nonneg; lia).
  destruct (div_ceil_spec l k Hk0) as [[Ha Hb] Hc]. rewrite <- Hp in Ha, Hb, Hc.
  assert (padme l ≤ 2 * 2 ^ Z.log2 l) as Hle by (specialize (Hc (2 * 2 ^ s)); nia).
  destruct (decide (padme l = 2 * 2 ^ Z.log2 l)) as [E|E].
  - rewrite <- Z.pow_succ_r in E by lia.
    destruct (padme_step (padme l)) as (_ & _ & Hk' & _); [lia|].
    apply (padme_fix _ (2 ^ Z.log2 (Z.log2 (padme l)))); [lia|].
    rewrite Z.mul_comm, Hk'. rewrite E at 2. rewrite Z.log2_pow2 by lia. done.
  - assert (Z.log2 (padme l) = Z.log2 l) as El by (apply Z.log2_unique; rewrite ?Z.pow_succ_r; lia).
    apply (padme_fix _ (div_ceil l k)); [lia|]. rewrite El. exact Hp.
Qed.

(** Padme's bounds. For every length up to [2^62], the padded length is large
    enough, its overhead is below one part in [2^S] of the length, [S] the
    binary logarithm of the length's binary logarithm, and padding a padded
    length changes nothing, so a padded length reveals only its bucket. *)
Theorem padme_bounds l : 4 ≤ l ≤ 2 ^ 62 →
  l ≤ padme l ∧ (padme l - l) * 2 ^ Z.log2 (Z.log2 l) < l ∧ padme (padme l) = padme l.
Proof.
  intros Hl. assert (4 ≤ l ≤ 2 ^ 63) as Hl' by lia. pose proof (padme_eq l Hl') as Hp.
  destruct (padme_step l (proj1 Hl)) as (Hs & Hse & Hk & H1 & H2).
  assert (0 < 2 ^ (Z.log2 l - Z.log2 (Z.log2 l))) as Hk0 by (apply Z.pow_pos_nonneg; lia).
  assert (0 < 2 ^ Z.log2 (Z.log2 l)) as Hs0 by (apply Z.pow_pos_nonneg; lia).
  destruct (div_ceil_spec l _ Hk0) as [[Ha Hb] _]. rewrite <- Hp in Ha, Hb.
  split; [done|]. split; [nia|]. apply padme_idem; [done|].
  assert (2 ^ Z.log2 l ≤ 2 ^ 62 ∧ 2 ^ 63 = 2 * 2 ^ 62); nia.
Qed.

Lemma padme_bounds_witness : padme 1025 = 1152 ∧ padme (padme 1025) = padme 1025.
Proof. split; [reflexivity|]. apply (padme_bounds 1025). lia. Defined.

Lemma padme_ge l : 0 ≤ l ≤ 2 ^ 63 → l ≤ padme l.
Proof.
  intros Hl. destruct (decide (l < 4)) as [H|H].
  { unfold padme. rewrite bool_decide_true; lia. }
  rewrite padme_eq by lia. apply div_ceil_spec, Z.pow_pos_nonneg; [lia|].
  destruct (padme_step l); lia.
Qed.

Lemma unpad_prefix pt tl : zlen pt ≤ u16_max - 2 →
  unpad_from_padme (be_bytes 2 (zlen pt) ++ pt ++ tl) = Ok pt.
Proof.
  intros Hl. pose proof (zlen_nonneg pt). pose proof (zlen_nonneg tl). unfold unpad_from_padme.
  assert (zlen (be_bytes 2 (zlen pt) ++ pt ++ tl) = 2 + zlen pt + zlen tl) as Hz
    by (rewrite !zlen_app; unfold zlen at 1; rewrite length_be_bytes; lia).
  rewrite Hz, bool_decide_false by lia. rewrite be_bytes_2. cbn [app at_ nth].
  rewrite <- be_bytes_2, be_u16_roundtrip by (unfold in_u16; lia).
  rewrite bool_decide_false by lia. f_equal. unfold slice, zlen.
  replace (2 + Z.to_nat (Z.of_nat (length pt)) - 2)%nat with (length pt) by lia.
  cbn [drop]. apply take_app_length.
Qed.

(** The generator delivers as many bytes as it is asked for. *)
Definition rng_ok (rng : nat → option (list byte)) : Prop :=
  ∀ n, ∃ fill, rng n = Some fill ∧ length fill = n.

Lemma pad_to_padme_prefix rng pt : rng_ok rng → zlen pt ≤ u16_max - 2 →
  ∃ tl, pad_to_padme rng pt = Ok (be_bytes 2 (zlen pt) ++ pt ++ tl) ∧
    2 + zlen pt + zlen tl = padme (zlen pt + 2).
Proof.
  intros Hrng Hl. unfold pad_to_padme. rewrite bool_decide_false by lia.
  pose proof (zlen_nonneg pt). unfold u16_max in Hl.
  pose proof (padme_ge (zlen pt + 2) ltac:(lia)) as Hge.
  set (n := Z.to_nat (padme (zlen pt + 2))) in *.
  assert (2 + length pt ≤ n)%nat as Hn by (unfold n, zlen in *; lia).
  assert (Z.of_nat n = padme (zlen pt + 2)) as Hzn by (unfold n; lia).
  assert (splice (splice (replicate n x00) 0 (be_bytes 2 (zlen pt))) 2 pt
          = be_bytes 2 (zlen pt) ++ pt ++ replicate (n - (2 + length pt)) x00) as Hs.
  { rewrite (splice_app [] (replicate n x00)) by done. rewrite app_nil_l.
    rewrite splice_app by (by rewrite length_be_bytes).
    rewrite length_be_bytes, !drop_replicate. f_equal. f_equal. f_equal. lia. }
  set (buf := splice (splice _ 0 _) 2 pt) in *. clearbody buf.
  case_bool_decide.
  - destruct (Hrng (n - (2 + length pt))%nat) as (fill & -> & Hfill). cbn [ok_or]. exists fill. rewrite Hs.
    rewrite (assoc_L (++)), splice_app by (rewrite length_app, length_be_bytes; lia).
    rewrite <- (assoc_L (++)), drop_ge, app_nil_r by (rewrite length_replicate; lia).
    split; [done|]. unfold zlen in *. lia.
  - exists (replicate (n - (2 + length pt)) x00). rewrite Hs. split; [done|].
    unfold zlen in *. rewrite length_replicate. lia.
Qed.

(** Padding is lossless and hides the length. Every plaintext up to the cap
    is padded, whatever the kind of frame and the policy; the result is unpadded
    to the plaintext, and its length is Padme's for the plaintext with its
    prefix, except for media frames that bypass the padding. *)
Theorem padme_roundtrip rng pt kind policy :
  rng_ok rng → zlen pt ≤ u16_max - 2 →
  ∃ out, pad_for_kind rng pt kind policy = Ok out ∧ unpad_from_padme out = Ok pt ∧
    zlen out = match kind, policy with
               | Media, BypassMedia => zlen pt + 2
               | _, _ => padme (zlen pt + 2)
               end.
Proof.
  intros Hrng Hl. assert (∀ tl, zlen (be_bytes 2 (zlen pt) ++ pt ++ tl) = 2 + zlen pt + zlen tl) as Hz.
  { intros tl. rewrite !zlen_app. unfold zlen at 1. rewrite length_be_bytes. lia. }
  assert (∃ out, pad_to_padme rng pt = Ok out ∧ unpad_from_padme out = Ok pt ∧
    zlen out = padme (zlen pt + 2)) as Hpad.
  { destruct (pad_to_padme_prefix rng pt Hrng Hl) as (tl & Hp & Htl). eexists. split_and!; [exact Hp| |].
    - by apply unpad_prefix.
    - by rewrite Hz. }
  unfold pad_for_kind. destruct kind, policy; try exact Hpad.
  rewrite bool_decide_false by lia. eexists. split_and!; [done| |].
  - rewrite <- (app_nil_r pt) at 2. by apply unpad_prefix.
  - specialize (Hz []). rewrite app_nil_r, zlen_nil in Hz. lia.
Qed.

Lemma padme_roundtrip_witness :
  ∃ out, pad_for_kind (λ n, Some (replicate n xaa)) [x61; x62; x63] Control AlwaysPad = Ok out ∧
    unpad_from_padme out = Ok [x61; x62; x63] ∧ zlen out = padme 5.
Proof.
  apply (padme_roundtrip (λ n, Some (replicate n xaa)) [x61; x62; x63] Control AlwaysPad);
    [|vm_compute; discriminate].
  intros n. exists (replicate n xaa). split; [reflexivity|apply length_replicate].
Defined.

(** ** The datagram envelope *)

Abbreviation MAX_UDP_DATAGRAM_BYTES := (MAX_FRAME_PLAINTEXT - 2) (only parsing).
Abbreviation UDP_LENGTH_PREFIX_LEN := 2%nat (only parsing).

(** [read_exact]: the bytes, the end of the stream, or another error. *)
Inductive read_answer : Type := RdOk (bytes : list byte) | RdEof | RdErr.

Section udp.
Context {S : Type} (write_all : list byte → S → S * bool) (flush : S → S * bool).
Context (read_exact : nat → S → S * read_answer).

(** [UdpFramer::send] over any byte sink. *)
Definition udp_send (datagram : list byte) (s : S) : S * result SessionError unit :=
  if bool_decide (zlen datagram > MAX_UDP_DATAGRAM_BYTES)
  then (s, Err (State "udp datagram exceeds cap"))
  else
    let '(s, ok) := write_all (be_bytes 2 (zlen datagram)) s in
    if negb ok then (s, Err (State "udp send: prefix write"))
    else
      let '(s, ok) := if negb (bool_decide (datagram = [])) then write_all datagram s
                      else (s, true) in
      if negb ok then (s, Err (State "udp send: body write"))
      else
        let '(s, ok) := flush s in
        if negb ok then (s, Err (State "udp send: flush")) else (s, Ok tt).

(** [UdpFramer::recv] over any byte source. *)
Definition udp_recv (s : S) : S * result SessionError (option (list byte)) :=
  let '(s, a) := read_exact UDP_LENGTH_PREFIX_LEN s in
  match a with
  | RdEof => (s, Ok None)
  | RdErr => (s, Err (State "udp recv: prefix read"))
  | RdOk prefix =>
    let len := be_val prefix in
    if bool_decide (len > MAX_UDP_DATAGRAM_BYTES) then (s, Err (State "udp recv: length over cap"))
    else if bool_decide (len > 0) then
      let '(s, a) := read_exact (Z.to_nat len) s in
      match a with
      | RdOk buf => (s, Ok (Some buf))
      | _ => (s, Err (State "udp recv: body read"))
      end
    else (s, Ok (Some []))
  end.

(** [UdpFramer::recv_into] with a buffer of [cap] bytes: the bytes written. *)
Definition udp_recv_into (cap : Z) (s : S) : S * result SessionError (option (list byte)) :=
  let '(s, a) := read_exact UDP_LENGTH_PREFIX_LEN s in
  match a with
  | RdEof => (s, Ok None)
  | RdErr => (s, Err (State "udp recv: prefix read"))
  | RdOk prefix =>
    let len := be_val prefix in
    if bool_decide (len > MAX_UDP_DATAGRAM_BYTES) then (s, Err (State "udp recv: length over cap"))
    else if bool_decide (len > cap)
    then (s, Err (State "udp recv: buffer too small for datagram"))
    else if bool_decide (len > 0) then
      let '(s, a) := read_exact (Z.to_nat len) s in
      match a with
      | RdOk buf => (s, Ok (Some buf))
      | _ => (s, Err (State "udp recv: body read"))
      end
    else (s, Ok (Some []))
  end.

End udp.

(** A byte stream in memory that ends after its bytes. *)
Definition mem_write (b s : list byte) : list byte * bool := (s ++ b, true).
Definition mem_flush (s : list byte) : list byte * bool := (s, true).
Definition mem_read (n : nat) (s : list byte) : list byte * read_answer :=
  if bool_decide (n ≤ length s)%nat then (drop n s, RdOk (take n s)) else ([], RdEof).

Definition udp_write : list byte → list byte → list byte * result SessionError unit :=
  udp_send mem_write mem_flush.

(** Receive until the clean end of the stream. *)
Fixpoint udp_recv_all (fuel : nat) (s : list byte) : result SessionError (list (list byte)) :=
  match fuel with
  | O => Err (State "out of fuel")
  | Datatypes.S fuel' =>
    match udp_recv mem_read s with
    | (s', Ok (Some d)) => let? ds := udp_recv_all fuel' s' in Ok (d :: ds)
    | (_, Ok None) => Ok []
    | (_, Err e) => Err e
    end
  end.

Lemma udp_recv_frame d tl : zlen d ≤ MAX_UDP_DATAGRAM_BYTES →
  udp_recv mem_read (be_bytes 2 (zlen d) ++ d ++ tl) = (tl, Ok (Some d)).
Proof.
  intros Hd. pose proof (zlen_nonneg d).
  unfold udp_recv, mem_read at 1.
  rewrite bool_decide_true by (rewrite length_app, length_be_bytes; lia).
  rewrite drop_app_length', take_app_length' by (by rewrite length_be_bytes).
  rewrite be_u16_roundtrip by (unfold in_u16, u16_max; lia).
  rewrite bool_decide_false by lia.
  goal_decide as E.
  - unfold mem_read. assert (Z.to_nat (zlen d) = length d) as -> by (unfold zlen; lia).
    rewrite bool_decide_true by (rewrite length_app; lia).
    by rewrite drop_app_length, take_app_length.
  - assert (d = []) as -> by (apply zlen_zero; lia). done.
Qed.

Lemma udp_write_frame d s : zlen d ≤ MAX_UDP_DATAGRAM_BYTES →
  udp_write d s = (s ++ be_bytes 2 (zlen d) ++ d, Ok tt).
Proof.
  intros Hd. unfold udp_write, udp_send, mem_write, mem_flush.
  rewrite bool_decide_false by lia. cbn [negb]. goal_decide as E; cbn [negb].
  - subst d. by rewrite app_nil_r.
  - by rewrite <- (assoc_L (++)).
Qed.

Lemma udp_sent_all ds s : Forall (λ d, zlen d ≤ MAX_UDP_DATAGRAM_BYTES) ds →
  foldl (λ s d, (udp_write d s).1) s ds = s ++ concat ((λ d, be_bytes 2 (zlen d) ++ d) <$> ds).
Proof.
  intros H. revert s. induction H as [|d ds Hd _ IH]; intros s; [by rewrite app_nil_r|].
  cbn [foldl]. rewrite udp_write_frame by done. cbn [fst]. rewrite IH.
  rewrite fmap_cons. cbn [concat]. by rewrite !(assoc_L (++)).
Qed.

(** Datagram boundaries survive. Datagrams of any sizes up to the cap, empty
    ones included, sent one after the other over a byte stream come out as the
    same datagrams in the same order, followed by the clean end. *)
Theorem udp_datagrams_roundtrip ds :
  Forall (λ d, zlen d ≤ MAX_UDP_DATAGRAM_BYTES) ds →
  udp_recv_all (Datatypes.S (length ds)) (foldl (λ s d, (udp_write d s).1) [] ds) = Ok ds.
Proof.
  intros H. rewrite udp_sent_all by done. cbn [app].
  induction H as [|d ds Hd _ IH]; [done|]. rewrite fmap_cons. cbn [concat length].
  cbn [udp_recv_all]. rewrite <- (assoc_L (++)), udp_recv_frame by done.
  cbn [udp_recv_all] in IH. by rewrite IH.
Qed.

Lemma udp_datagrams_roundtrip_witness :
  let ds := [[x01; x02]; []; [x03]] in
  udp_recv_all 4 (foldl (λ s d, (udp_write d s).1) [] ds) = Ok ds.
Proof.
  apply (udp_datagrams_roundtrip [[x01; x02]; []; [x03]]).
  repeat constructor; vm_compute; discriminate.
Defined.

(** A length prefix cut in the middle is taken for a clean end of the stream. *)
Lemma udp_half_prefix_is_clean_end b : udp_recv mem_read [b] = ([], Ok None).
Proof. reflexivity. Qed.
