(* ===== verification/CircuitCell.v ===== *)
(** * Circuit cells and stream bodies (crates/circuit/src/cell.rs, stream.rs)

    The fixed-size cell that multiplexes circuits inside a session, and the
    bodies of the stream sub-cells that the client and the exit hop exchange.
    The operating system's generator that fills the padding is the parameter
    [rng]: [rng n] is what it fills a buffer of [n] bytes with. *)

From stdpp Require Import base numbers list strings.
From Stdlib Require Import ZArith Lia Strings.Byte.
From S2P Require Import Prelude Bytes.

(** ** Constants *)
Abbreviation CIRCUIT_CELL_LEN := 1024 (only parsing).
Abbreviation CELL_HEADER_LEN := (4 + 1 + 2) (only parsing).
Abbreviation MAX_CELL_PAYLOAD := (CIRCUIT_CELL_LEN - CELL_HEADER_LEN) (only parsing).

Abbreviation CMD_RESERVED := x00 (only parsing).
Abbreviation CMD_CREATE := x01 (only parsing).
Abbreviation CMD_CREATED := x02 (only parsing).
Abbreviation CMD_EXTEND := x03 (only parsing).
Abbreviation CMD_EXTENDED := x04 (only parsing).
Abbreviation CMD_RELAY := x05 (only parsing).
Abbreviation CMD_BEGIN := x06 (only parsing).
Abbreviation CMD_DATA := x07 (only parsing).
Abbreviation CMD_END := x08 (only parsing).
Abbreviation CMD_DESTROY := x09 (only parsing).
Abbreviation CMD_PADDING := x0a (only parsing).
Abbreviation CMD_RESOLVE := x0b (only parsing).
Abbreviation CMD_HANDOFF := x0c (only parsing).
Abbreviation CMD_HANDOFF_RESULT := x0d (only parsing).
Abbreviation CMD_EXTEND_FINISH := x0e (only parsing).
Abbreviation CMD_EXTEND_CONT := x0f (only parsing).
Abbreviation CMD_EXTENDED_CONT := x10 (only parsing).
Abbreviation CMD_CREATE_CONT := x11 (only parsing).
Abbreviation CMD_CREATED_CONT := x12 (only parsing).

(** ** Cells *)
Inductive CellError : Set :=
| WrongLength (got : Z)
| ReservedCommand
| PadLenTooLarge (pad_len : Z)
| BodyTooLarge (len : Z)
| ZeroCircuitId
| Csprng.

#[global] Instance CellError_eq_dec : EqDecision CellError.
Proof. solve_decision. Defined.

Record Cell : Set := mkCell {
  circ_id : Z;
  command : byte;
  body : list byte;
}.

#[global] Instance Cell_eq_dec : EqDecision Cell.
Proof. solve_decision. Defined.

Definition Cell_new (id : Z) (cmd : byte) (bd : list byte) : result CellError Cell :=
  if bool_decide (id = 0) then Err ZeroCircuitId
  else if bool_decide (zlen bd > MAX_CELL_PAYLOAD) then Err (BodyTooLarge (zlen bd))
  else if bool_decide (cmd = CMD_RESERVED) then Err ReservedCommand
  else Ok (mkCell id cmd bd).

(** The body that [encode] and [encode_into] share, on the buffer they fill. *)
Definition write_cell (rng : nat → option (list byte)) (c : Cell)
  : stm (list byte) CellError unit :=
  if bool_decide (zlen (body c) > MAX_CELL_PAYLOAD)
  then st_err (BodyTooLarge (zlen (body c)))
  else
    let pad_len := MAX_CELL_PAYLOAD - zlen (body c) in
    st_mod (λ out, splice out 0 (be_bytes 4 (circ_id c))) ;;;
    st_mod (λ out, splice out 4 [command c]) ;;;
    st_mod (λ out, splice out 5 (be_bytes 2 pad_len)) ;;;
    st_mod (λ out, splice out 7 (body c)) ;;;
    let pad_start := CELL_HEADER_LEN + zlen (body c) in
    if bool_decide (pad_start < CIRCUIT_CELL_LEN)
    then
      fill <- st_lift (ok_or (rng (Z.to_nat (CIRCUIT_CELL_LEN - pad_start))) Csprng) ;;
      st_mod (λ out, splice out (Z.to_nat pad_start) fill)
    else st_ret tt.

Definition Cell_encode (rng : nat → option (list byte)) (c : Cell)
  : result CellError (list byte) :=
  match write_cell rng c (replicate (Z.to_nat CIRCUIT_CELL_LEN) x00) with
  | (out, Ok _) => Ok out
  | (_, Err e) => Err e
  end.

(** The caller's buffer keeps what was written before an error. *)
Definition Cell_encode_into (rng : nat → option (list byte)) (c : Cell)
  : stm (list byte) CellError unit :=
  buf <- st_get ;;
  if bool_decide (zlen buf ≠ CIRCUIT_CELL_LEN) then st_err (WrongLength (zlen buf))
  else write_cell rng c.

Definition Cell_decode (buf : list byte) : result CellError Cell :=
  if bool_decide (zlen buf ≠ CIRCUIT_CELL_LEN) then Err (WrongLength (zlen buf))
  else
    let id := be_val [at_ buf 0; at_ buf 1; at_ buf 2; at_ buf 3] in
    if bool_decide (id = 0) then Err ZeroCircuitId
    else
      let cmd := at_ buf 4 in
      if bool_decide (cmd = CMD_RESERVED) then Err ReservedCommand
      else
        let pad_len := be_val [at_ buf 5; at_ buf 6] in
        if bool_decide (pad_len > MAX_CELL_PAYLOAD) then Err (PadLenTooLarge pad_len)
        else
          let body_end := CIRCUIT_CELL_LEN - pad_len in
          Ok (mkCell id cmd (slice buf 7 (Z.to_nat body_end))).

(** ** Stream bodies *)
Inductive StreamBodyError : Set := Body (msg : string).

#[global] Instance StreamBodyError_eq_dec : EqDecision StreamBodyError.
Proof. solve_decision. Defined.

Record BeginBody : Set := mkBegin {
  bb_stream_id : Z;
  bb_host : list byte;
  bb_port : Z;
}.
Record DataBody : Set := mkData { db_stream_id : Z; db_bytes : list byte }.
Record EndBody : Set := mkEnd { eb_stream_id : Z }.

#[global] Instance BeginBody_eq_dec : EqDecision BeginBody.
Proof. solve_decision. Defined.

Definition BeginBody_encode (b : BeginBody) : result StreamBodyError (list byte) :=
  if bool_decide (zlen (bb_host b) > u8_max) then Err (Body "host too long")
  else Ok (be_bytes 2 (bb_stream_id b) ++ [b8 (zlen (bb_host b))] ++ bb_host b
           ++ be_bytes 2 (bb_port b)).

Definition BeginBody_decode (buf : list byte) : result StreamBodyError BeginBody :=
  if bool_decide (zlen buf < 3) then Err (Body "BEGIN body too short")
  else
    let stream_id := be_val [at_ buf 0; at_ buf 1] in
    let host_len := u8 (at_ buf 2) in
    if bool_decide (zlen buf < 3 + host_len + 2) then Err (Body "BEGIN body truncated")
    else
      let host := slice buf 3 (3 + Z.to_nat host_len) in
      if negb (utf8_valid host) then Err (Body "host not utf-8")
      else
        let port := be_val [at_ buf (3 + Z.to_nat host_len);
                            at_ buf (3 + Z.to_nat host_len + 1)] in
        if bool_decide (port = 0) then Err (Body "port 0 reserved")
        else Ok (mkBegin stream_id host port).

Definition DataBody_encode (d : DataBody) : list byte :=
  be_bytes 2 (db_stream_id d) ++ db_bytes d.

Definition DataBody_decode (buf : list byte) : result StreamBodyError DataBody :=
  if bool_decide (zlen buf < 2) then Err (Body "DATA body too short")
  else Ok (mkData (be_val [at_ buf 0; at_ buf 1]) (drop 2 buf)).

Definition EndBody_encode (e : EndBody) : list byte := be_bytes 2 (eb_stream_id e).

Definition EndBody_decode (buf : list byte) : result StreamBodyError EndBody :=
  if bool_decide (zlen buf ≠ 2) then Err (Body "END body wrong length")
  else Ok (mkEnd (be_val [at_ buf 0; at_ buf 1])).

(** ** Lemmas *)

(** A generator that always answers with the bytes it is asked for. *)
Definition rng_total (rng : nat → option (list byte)) : Prop :=
  ∀ n, ∃ fill, rng n = Some fill ∧ length fill = n.

(** The bytes of a cell: header, body, padding. *)
Definition cell_bytes (c : Cell) (pad : list byte) : list byte :=
  be_bytes 4 (circ_id c) ++ [command c]
  ++ be_bytes 2 (MAX_CELL_PAYLOAD - zlen (body c)) ++ body c ++ pad.

Lemma write_cell_spec rng c buf :
  rng_total rng → zlen buf = CIRCUIT_CELL_LEN → zlen (body c) ≤ MAX_CELL_PAYLOAD →
  ∃ pad, write_cell rng c buf = (cell_bytes c pad, Ok tt)
         ∧ zlen pad = MAX_CELL_PAYLOAD - zlen (body c).
Proof.
  intros Hr Hb Hl. unfold write_cell. rewrite bool_decide_false by lia.
  destruct (split_at_len buf 4) as (h4 & t4 & -> & H4); [lia|].
  destruct (split_at_len t4 1) as (h1 & t1 & -> & H1).
  { unfold zlen in *. rewrite length_app in Hb. lia. }
  destruct (split_at_len t1 2) as (h2 & t2 & -> & H2).
  { unfold zlen in *. rewrite !length_app in Hb. lia. }
  destruct (split_at_len t2 (length (body c))) as (hb & tl & -> & Hbd).
  { unfold zlen in *. rewrite !length_app in Hb. lia. }
  assert (zlen tl = 1017 - zlen (body c)) as Htl.
  { unfold zlen in *. rewrite !length_app in Hb. lia. }
  unfold st_bind, st_mod, st_lift.
  rewrite splice_head by (rewrite length_be_bytes; done).
  rewrite (splice_mid (be_bytes 4 (circ_id c)) h1) by (rewrite ?length_be_bytes; done).
  rewrite (app_assoc (be_bytes 4 (circ_id c)) [command c]).
  rewrite (splice_mid (be_bytes 4 (circ_id c) ++ [command c]) h2)
    by (rewrite ?length_app, ?length_be_bytes; done).
  rewrite (app_assoc (be_bytes 4 (circ_id c) ++ [command c]) (be_bytes 2 _)).
  rewrite (splice_mid _ hb) by (rewrite ?length_app, ?length_be_bytes; done).
  goal_decide as E.
  - destruct (Hr (Z.to_nat (1024 - (4 + 1 + 2 + zlen (body c))))) as (fill & -> & Hf). cbn [ok_or].
    exists fill. split; [|unfold zlen in *; lia]. unfold cell_bytes.
    rewrite <- (app_nil_r tl), (app_assoc _ (body c)).
    rewrite splice_mid; [by rewrite app_nil_r, <- !app_assoc| |unfold zlen in *; lia].
    rewrite !length_app, !length_be_bytes. simpl. unfold zlen. lia.
  - exists tl. split; [|done]. unfold cell_bytes. by rewrite <- !app_assoc.
Qed.

Lemma length_cell_bytes c pad :
  zlen pad = MAX_CELL_PAYLOAD - zlen (body c) → zlen (cell_bytes c pad) = CIRCUIT_CELL_LEN.
Proof.
  unfold cell_bytes, zlen.
  intros. rewrite !length_app, !length_be_bytes. simpl. lia.
Qed.

Lemma Cell_new_ok id cmd bd c : Cell_new id cmd bd = Ok c →
  c = mkCell id cmd bd ∧ id ≠ 0 ∧ zlen bd ≤ MAX_CELL_PAYLOAD ∧ cmd ≠ CMD_RESERVED.
Proof. unfold Cell_new. intros H. case_in H. split_and!; try done; lia. Qed.

Lemma Cell_new_intro id cmd bd : id ≠ 0 → zlen bd ≤ MAX_CELL_PAYLOAD → cmd ≠ CMD_RESERVED →
  Cell_new id cmd bd = Ok (mkCell id cmd bd).
Proof. intros. unfold Cell_new. rewrite !bool_decide_false by (done || lia). done. Qed.

(** Values the Rust type allows and [Cell::new] accepts. *)
Definition cell_valid (c : Cell) : Prop :=
  in_u32 (circ_id c) ∧ circ_id c ≠ 0 ∧ command c ≠ CMD_RESERVED
  ∧ zlen (body c) ≤ MAX_CELL_PAYLOAD.

#[global] Instance cell_valid_dec c : Decision (cell_valid c).
Proof. unfold cell_valid. apply _. Defined.

Lemma Cell_decode_bytes c pad :
  cell_valid c → zlen pad = MAX_CELL_PAYLOAD - zlen (body c) →
  Cell_decode (cell_bytes c pad) = Ok c.
Proof.
  intros (Hu & Hz & Hc & Hl) Hp. unfold Cell_decode.
  rewrite length_cell_bytes by done. rewrite bool_decide_false by lia.
  unfold cell_bytes. rewrite be_bytes_4, be_bytes_2. unfold at_. cbn [app nth].
  rewrite <- be_bytes_4, <- be_bytes_2, be_u32_roundtrip by done.
  pose proof (zlen_nonneg (body c)).
  rewrite be_u16_roundtrip
    by (unfold in_u16, u16_max in *; lia).
  rewrite !bool_decide_false by (done || lia). destruct c as [id cmd bd]. simpl in *.
  f_equal. f_equal. unfold slice. cbn [drop app].
  replace (Z.to_nat (1024 - (1024 - (4 + 1 + 2) - zlen bd)) - 7)%nat with (length bd)
    by (unfold zlen in *; lia).
  rewrite drop_0. by rewrite take_app_length.
Qed.

(** Every valid cell encodes to exactly 1024 bytes, and decoding them gives
    the cell back, whatever the padding was. *)
Theorem cell_roundtrip rng c :
  rng_total rng → cell_valid c →
  ∃ out, Cell_encode rng c = Ok out ∧ zlen out = CIRCUIT_CELL_LEN ∧ Cell_decode out = Ok c.
Proof.
  intros Hr Hv. destruct (write_cell_spec rng c (replicate (Z.to_nat CIRCUIT_CELL_LEN) x00))
    as (pad & Hw & Hp); [done| |by destruct Hv as (_ & _ & _ & ?)|].
  { unfold zlen. rewrite length_replicate. lia. }
  exists (cell_bytes c pad). unfold Cell_encode. rewrite Hw.
  split_and!; [done|by apply length_cell_bytes|by apply Cell_decode_bytes].
Qed.

(** Every buffer the decoder accepts is the layout of a valid cell: nothing of
    the header is ignored. *)
Theorem cell_canonical buf c :
  Cell_decode buf = Ok c →
  cell_valid c ∧ ∃ pad, buf = cell_bytes c pad ∧ zlen pad = MAX_CELL_PAYLOAD - zlen (body c).
Proof.
  unfold Cell_decode. intros H. case_in H.
  assert (zlen buf = 1024) as Hb by lia.
  destruct (split_at_len buf 7) as (h & t & -> & Hh); [lia|].
  do 7 (destruct h as [|? h]; [done|]). destruct h; [|done]. clear Hh.
  unfold at_ in *. cbn [nth app] in *. rewrite !zlen_cons in Hb.
  pose proof (be_val_u16 b4 b5) as Hu. unfold in_u16, u16_max in Hu.
  set (p := be_val [b4; b5]) in *. unfold slice. cbn [drop]. rewrite ?drop_0.
  assert (zlen (take (Z.to_nat (1024 - p) - 7) t) = 1017 - p) as Ht
    by (rewrite zlen_take; lia).
  split.
  { split_and!; simpl; [apply be_val_u32|done|done|rewrite Ht; lia]. }
  exists (drop (Z.to_nat (1024 - p) - 7) t). unfold cell_bytes.
  cbn [circ_id command body]. rewrite Ht. split; [|rewrite zlen_drop; lia].
  rewrite (be_bytes_be_val [b; b0; b1; b2] : be_bytes 4 _ = _).
  replace (1024 - (4 + 1 + 2) - (1017 - p)) with p by lia. unfold p.
  rewrite (be_bytes_be_val [b4; b5] : be_bytes 2 _ = _). cbn [app]. by rewrite take_drop.
Qed.

(** Stream bodies come back from the wire; a [BEGIN] needs a port, since the
    decoder refuses port 0. *)
Theorem begin_roundtrip b :
  in_u16 (bb_stream_id b) → in_u16 (bb_port b) → bb_port b ≠ 0 →
  utf8_valid (bb_host b) = true → zlen (bb_host b) ≤ u8_max →
  ∃ out, BeginBody_encode b = Ok out ∧ BeginBody_decode out = Ok b.
Proof.
  intros Hs Hp Hp0 Hu Hl. unfold BeginBody_encode. rewrite bool_decide_false by lia.
  eexists. split; [done|]. unfold BeginBody_decode. pose proof (zlen_nonneg (bb_host b)).
  unfold u8_max in Hl.
  rewrite !zlen_app, !(zlen_cons _ []), zlen_nil, !zlen_be_bytes.
  rewrite bool_decide_false by lia. rewrite be_bytes_2. unfold at_. cbn [app nth].
  rewrite <- be_bytes_2, be_u16_roundtrip by done.
  rewrite u8_b8_small by lia. rewrite bool_decide_false by lia.
  unfold slice. cbn [drop]. rewrite drop_0.
  replace (3 + Z.to_nat (zlen (bb_host b)) - 3)%nat with (length (bb_host b)) by (unfold zlen; lia).
  rewrite take_app_length, Hu. cbn [negb].
  replace (Z.to_nat (zlen (bb_host b))) with (length (bb_host b)) by (unfold zlen; lia).
  cbn [Nat.add nth]. rewrite app_nth2 by lia. rewrite app_nth2 by lia.
  replace (length (bb_host b) - length (bb_host b))%nat with 0%nat by lia.
  replace (length (bb_host b) + 1 - length (bb_host b))%nat with 1%nat by lia.
  rewrite be_bytes_2. cbn [nth]. rewrite <- be_bytes_2, be_u16_roundtrip by done.
  rewrite bool_decide_false by done. by destruct b.
Qed.

Lemma data_roundtrip d : in_u16 (db_stream_id d) → DataBody_decode (DataBody_encode d) = Ok d.
Proof.
  intros Hs. unfold DataBody_decode, DataBody_encode. rewrite be_bytes_2.
  cbn [app]. rewrite !zlen_cons. pose proof (zlen_nonneg (db_bytes d)).
  rewrite bool_decide_false by lia. unfold at_. cbn [nth drop]. rewrite drop_0.
  rewrite <- be_bytes_2, be_u16_roundtrip by done. by destruct d.
Qed.

Lemma end_roundtrip e : in_u16 (eb_stream_id e) → EndBody_decode (EndBody_encode e) = Ok e.
Proof.
  intros Hs. unfold EndBody_decode, EndBody_encode. rewrite be_bytes_2.
  rewrite bool_decide_false by (rewrite !zlen_cons, zlen_nil; lia).
  unfold at_. cbn [nth]. rewrite <- be_bytes_2, be_u16_roundtrip by done. by destruct e.
Qed.

(** ** A concrete cell *)
Definition demo_cell : Cell := mkCell 5 CMD_RELAY [xaa; xbb].
Definition demo_rng (n : nat) : option (list byte) := Some (replicate n x5a).
Definition demo_buf : list byte := cell_bytes demo_cell (replicate 1015 x5a).

Lemma cell_roundtrip_witness :
  ∃ out, Cell_encode demo_rng demo_cell = Ok out ∧ zlen out = 1024 ∧ Cell_decode out = Ok demo_cell.
Proof.
  apply (cell_roundtrip demo_rng demo_cell).
  - intros n. exists (replicate n x5a). split; [reflexivity|apply length_replicate].
  - split; vm_decide.
Defined.

Lemma cell_canonical_witness :
  cell_valid demo_cell
  ∧ ∃ pad, demo_buf = cell_bytes demo_cell pad ∧ zlen pad = MAX_CELL_PAYLOAD - zlen (body demo_cell).
Proof. apply (cell_canonical demo_buf demo_cell). vm_compute. reflexivity. Defined.
