(* ===== verification/CircuitExtend.v ===== *)
(** * Handshake bodies and relay sub-cells (crates/circuit/src/extend.rs)

    The bodies that carry handshake messages hop by hop, their fragmentation
    into a first cell and continuation cells, and the compact sub-cell inside
    an onion-peeled RELAY. *)

From stdpp Require Import base numbers list strings.
From Stdlib Require Import ZArith Lia Strings.Byte.
From S2P Require Import Prelude Bytes CircuitCell.

(** ** Endpoints *)
Inductive HopEndpoint : Set :=
| Ipv4 (addr : list byte) (port : Z)
| Ipv6 (addr : list byte) (port : Z)
| OnionV3 (ascii : list byte) (port : Z).

#[global] Instance HopEndpoint_eq_dec : EqDecision HopEndpoint.
Proof. solve_decision. Defined.

Inductive ExtendError : Set :=
| Wire (msg : string)
| TooLarge (len : Z).

#[global] Instance ExtendError_eq_dec : EqDecision ExtendError.
Proof. solve_decision. Defined.

Definition endpoint_wire_len (e : HopEndpoint) : Z :=
  1 + match e with Ipv4 _ _ => 6 | Ipv6 _ _ => 18 | OnionV3 _ _ => 58 end.

(** [addr[..10] == [0u8; 10] && addr[10] == 0xff && addr[11] == 0xff] *)
Definition v4_mapped (addr : list byte) : bool :=
  bool_decide (take 10 addr = replicate 10 x00)
  && bool_decide (at_ addr 10 = xff) && bool_decide (at_ addr 11 = xff).

Abbreviation MAPPED := ("IPv4-mapped IPv6 must be encoded as IPv4 (kind 0x01)")%string (only parsing).

(** The bytes [encode] appends; an error appends none. *)
Definition endpoint_encode (e : HopEndpoint) : result ExtendError (list byte) :=
  match e with
  | Ipv4 addr port =>
    if bool_decide (port = 0) then Err (Wire "port 0 reserved")
    else Ok ([x01] ++ addr ++ be_bytes 2 port)
  | Ipv6 addr port =>
    if bool_decide (port = 0) then Err (Wire "port 0 reserved")
    else if v4_mapped addr then Err (Wire MAPPED)
    else Ok ([x02] ++ addr ++ be_bytes 2 port)
  | OnionV3 ascii port =>
    if bool_decide (port = 0) then Err (Wire "port 0 reserved")
    else Ok ([x04] ++ ascii ++ be_bytes 2 port)
  end.

Definition endpoint_decode (buf : list byte) : result ExtendError (HopEndpoint * nat) :=
  if bool_decide (buf = []) then Err (Wire "endpoint empty")
  else match at_ buf 0 with
  | x01 =>
    if bool_decide (zlen buf < 7) then Err (Wire "ipv4 truncated")
    else
      let addr := slice buf 1 5 in
      let port := be_val [at_ buf 5; at_ buf 6] in
      if bool_decide (port = 0) then Err (Wire "port 0 reserved")
      else Ok (Ipv4 addr port, 7%nat)
  | x02 =>
    if bool_decide (zlen buf < 19) then Err (Wire "ipv6 truncated")
    else
      let addr := slice buf 1 17 in
      if v4_mapped addr then Err (Wire MAPPED)
      else
        let port := be_val [at_ buf 17; at_ buf 18] in
        if bool_decide (port = 0) then Err (Wire "port 0 reserved")
        else Ok (Ipv6 addr port, 19%nat)
  | x03 => Err (Wire "domain endpoint kind not allowed in EXTEND (deprecated, A14)")
  | x04 =>
    if bool_decide (zlen buf < 59) then Err (Wire "onion truncated")
    else
      let ascii := slice buf 1 57 in
      let port := be_val [at_ buf 57; at_ buf 58] in
      if bool_decide (port = 0) then Err (Wire "port 0 reserved")
      else Ok (OnionV3 ascii port, 59%nat)
  | _ => Err (Wire "unknown endpoint kind")
  end.

(** ** Fragmentation

    The loop [while cursor < msg.len()] of the three [encode_fragmented]:
    [fuel] bounds its iterations, each of which advances the cursor by at
    least one byte. *)
Fixpoint cont_loop (fuel : nat) (max_cell_body : Z) (msg : list byte) (cursor : Z)
  : list (list byte) :=
  match fuel with
  | O => []
  | S fuel =>
    if bool_decide (cursor < zlen msg)
    then
      let n := Z.min max_cell_body (zlen msg - cursor) in
      slice msg (Z.to_nat cursor) (Z.to_nat (cursor + n))
        :: cont_loop fuel max_cell_body msg (cursor + n)
    else []
  end.

Definition cont_bodies (max_cell_body : Z) (msg : list byte) (cursor : Z)
  : list (list byte) :=
  cont_loop (length msg) max_cell_body msg cursor.

(** ** EXTEND *)
Abbreviation MAX_HS_MSG1_LEN := (2 * 1221) (only parsing).
Abbreviation MAX_HS_MSG2_LEN := (2 * 1189) (only parsing).

Record ExtendBody : Set := mkExtend {
  next_hop_pk : list byte;
  endpoint : HopEndpoint;
  hs_msg1 : list byte;
}.

Record ExtendHeader : Set := mkExtendHeader {
  eh_next_hop_pk : list byte;
  eh_endpoint : HopEndpoint;
  total_hs_msg1_len : Z;
}.

Definition ExtendBody_encode (b : ExtendBody) : result ExtendError (list byte) :=
  if bool_decide (zlen (hs_msg1 b) > u16_max) then Err (TooLarge (zlen (hs_msg1 b)))
  else
    let? ep := endpoint_encode (endpoint b) in
    Ok (next_hop_pk b ++ ep ++ be_bytes 2 (zlen (hs_msg1 b)) ++ hs_msg1 b).

Definition ExtendBody_encode_fragmented (b : ExtendBody) (max_cell_body : Z)
  : result ExtendError (list byte * list (list byte)) :=
  if bool_decide (zlen (hs_msg1 b) > u16_max) then Err (TooLarge (zlen (hs_msg1 b)))
  else
    let header_len := 32 + endpoint_wire_len (endpoint b) + 2 in
    if bool_decide (header_len > max_cell_body) then Err (TooLarge header_len)
    else
      let first_chunk_len := Z.min (max_cell_body - header_len) (zlen (hs_msg1 b)) in
      let? ep := endpoint_encode (endpoint b) in
      Ok (next_hop_pk b ++ ep ++ be_bytes 2 (zlen (hs_msg1 b))
            ++ take (Z.to_nat first_chunk_len) (hs_msg1 b),
          cont_bodies max_cell_body (hs_msg1 b) first_chunk_len).

Definition ExtendHeader_decode_partial (buf : list byte)
  : result ExtendError (ExtendHeader * list byte) :=
  if bool_decide (zlen buf < 32) then Err (Wire "extend header too short for pk")
  else
    let pk := slice buf 0 32 in
    let? (ep, ep_len) := endpoint_decode (drop 32 buf) in
    let cursor := (32 + ep_len)%nat in
    if bool_decide (zlen buf < Z.of_nat cursor + 2)
    then Err (Wire "extend header truncated at hs len")
    else
      let total := be_val [at_ buf cursor; at_ buf (cursor + 1)] in
      if bool_decide (total > MAX_HS_MSG1_LEN)
      then Err (Wire "extend header: total_hs_msg1_len exceeds MAX_HS_MSG1_LEN")
      else
        let after := drop (cursor + 2) buf in
        if bool_decide (zlen after > total)
        then Err (Wire "extend header: first chunk longer than declared total")
        else Ok (mkExtendHeader pk ep total, after).

Definition ExtendBody_decode (buf : list byte) : result ExtendError ExtendBody :=
  let? (header, after_header) := ExtendHeader_decode_partial buf in
  if bool_decide (zlen after_header ≠ total_hs_msg1_len header)
  then Err (Wire "extend body hs_msg1 length mismatch (expected single-cell encode; use ExtendHeader::decode_partial for fragmented decode)")
  else Ok (mkExtend (eh_next_hop_pk header) (eh_endpoint header) after_header).

(** ** EXTENDED *)
Definition ExtendedBody_encode (hs_msg2 : list byte) : result ExtendError (list byte) :=
  if bool_decide (zlen hs_msg2 > u16_max) then Err (TooLarge (zlen hs_msg2))
  else Ok (be_bytes 2 (zlen hs_msg2) ++ hs_msg2).

Definition ExtendedBody_encode_fragmented (hs_msg2 : list byte) (max_cell_body : Z)
  : result ExtendError (list byte * list (list byte)) :=
  if bool_decide (zlen hs_msg2 > u16_max) then Err (TooLarge (zlen hs_msg2))
  else
    let header_len := 2 in
    if bool_decide (header_len > max_cell_body) then Err (TooLarge header_len)
    else
      let first_chunk_len := Z.min (max_cell_body - header_len) (zlen hs_msg2) in
      Ok (be_bytes 2 (zlen hs_msg2) ++ take (Z.to_nat first_chunk_len) hs_msg2,
          cont_bodies max_cell_body hs_msg2 first_chunk_len).

Definition ExtendedBody_decode_partial (buf : list byte)
  : result ExtendError (Z * list byte) :=
  if bool_decide (zlen buf < 2) then Err (Wire "extended body too short")
  else
    let hs_len := be_val [at_ buf 0; at_ buf 1] in
    if bool_decide (hs_len > MAX_HS_MSG2_LEN)
    then Err (Wire "extended body: total_hs_msg2_len exceeds MAX_HS_MSG2_LEN")
    else
      let after := drop 2 buf in
      if bool_decide (zlen after > hs_len)
      then Err (Wire "extended body: first chunk longer than declared total")
      else Ok (hs_len, after).

Definition ExtendedBody_decode (buf : list byte) : result ExtendError (list byte) :=
  let? (total, chunk) := ExtendedBody_decode_partial buf in
  if bool_decide (zlen chunk ≠ total)
  then Err (Wire "extended body length mismatch (use decode_partial for fragmented)")
  else Ok chunk.

(** ** Relay sub-cells *)
Abbreviation RELAY_SUBCELL_HEADER_LEN := (1 + 2) (only parsing).
Abbreviation RELAY_SUBCELL_MAX_BODY := (u16_max) (only parsing).

Record RelaySubCell : Set := mkSub { sub_command : byte; sub_body : list byte }.

Definition RelaySubCell_encode (s : RelaySubCell) : result ExtendError (list byte) :=
  if bool_decide (zlen (sub_body s) > RELAY_SUBCELL_MAX_BODY)
  then Err (TooLarge (zlen (sub_body s)))
  else Ok ([sub_command s] ++ be_bytes 2 (zlen (sub_body s)) ++ sub_body s).

Definition RelaySubCell_decode (buf : list byte) : result ExtendError RelaySubCell :=
  if bool_decide (zlen buf < RELAY_SUBCELL_HEADER_LEN)
  then Err (Wire "relay subcell header too short")
  else
    let cmd := at_ buf 0 in
    if bool_decide (cmd = x00) then Err (Wire "relay subcell reserved command 0x00")
    else
      let body_len := be_val [at_ buf 1; at_ buf 2] in
      if bool_decide (zlen buf ≠ RELAY_SUBCELL_HEADER_LEN + body_len)
      then Err (Wire "relay subcell length mismatch")
      else Ok (mkSub cmd (drop 3 buf)).

(** ** CREATE and CREATED *)
Abbreviation MAX_HANDSHAKE_BODY_LEN := (MAX_HS_MSG1_LEN) (only parsing).

Definition HandshakeBody_encode (hs_msg : list byte) : result ExtendError (list byte) :=
  if bool_decide (zlen hs_msg > u16_max) then Err (TooLarge (zlen hs_msg))
  else Ok (be_bytes 2 (zlen hs_msg) ++ hs_msg).

Definition HandshakeBody_encode_fragmented (hs_msg : list byte) (max_cell_body : Z)
  : result ExtendError (list byte * list (list byte)) :=
  if bool_decide (zlen hs_msg > MAX_HANDSHAKE_BODY_LEN) then Err (TooLarge (zlen hs_msg))
  else
    let header_len := 2 in
    if bool_decide (header_len > max_cell_body) then Err (TooLarge header_len)
    else
      let first_chunk_len := Z.min (max_cell_body - header_len) (zlen hs_msg) in
      Ok (be_bytes 2 (zlen hs_msg) ++ take (Z.to_nat first_chunk_len) hs_msg,
          cont_bodies max_cell_body hs_msg first_chunk_len).

Definition HandshakeBody_decode_partial (buf : list byte)
  : result ExtendError (Z * list byte) :=
  if bool_decide (zlen buf < 2) then Err (Wire "handshake body too short")
  else
    let total := be_val [at_ buf 0; at_ buf 1] in
    if bool_decide (total > MAX_HANDSHAKE_BODY_LEN)
    then Err (Wire "handshake body: total exceeds MAX_HS_MSG_LEN")
    else
      let after := drop 2 buf in
      if bool_decide (zlen after > total)
      then Err (Wire "handshake body: first chunk longer than declared total")
      else Ok (total, after).

(** ** EXTEND_FINISH *)
Definition ExtendFinishBody_encode (hs_msg3 : list byte) : result ExtendError (list byte) :=
  if bool_decide (zlen hs_msg3 > u16_max) then Err (TooLarge (zlen hs_msg3))
  else Ok (be_bytes 2 (zlen hs_msg3) ++ hs_msg3).

Definition ExtendFinishBody_decode (buf : list byte) : result ExtendError (list byte) :=
  if bool_decide (zlen buf < 2) then Err (Wire "extend_finish body too short")
  else
    let hs_len := be_val [at_ buf 0; at_ buf 1] in
    if bool_decide (zlen buf < 2 + hs_len) then Err (Wire "extend_finish body truncated")
    else Ok (slice buf 2 (Z.to_nat (2 + hs_len))).

(** ** Lemmas *)

Lemma cont_loop_spec fuel cap msg cursor :
  0 < cap → 0 ≤ cursor ≤ zlen msg → zlen msg - cursor ≤ Z.of_nat fuel →
  concat (cont_loop fuel cap msg cursor) = drop (Z.to_nat cursor) msg
  ∧ Forall (λ b, 0 < zlen b ≤ cap) (cont_loop fuel cap msg cursor).
Proof.
  revert cursor. induction fuel as [|fuel IH]; intros cursor Hc Hr Hf; simpl.
  { split; [|done]. rewrite drop_ge; [done|]. unfold zlen in *. lia. }
  goal_decide as E.
  - destruct (IH (cursor + Z.min cap (zlen msg - cursor))) as [Hd HF]; [lia..|].
    split.
    + simpl. rewrite Hd. unfold slice. symmetry.
      rewrite <- (take_drop (Z.to_nat (cursor + Z.min cap (zlen msg - cursor)) - Z.to_nat cursor)
                   (drop (Z.to_nat cursor) msg)) at 1.
      f_equal. rewrite drop_drop. f_equal. unfold zlen in *. lia.
    + constructor; [|done]. unfold slice. rewrite zlen_take, zlen_drop. lia.
  - split; [|done]. rewrite drop_ge; [done|]. unfold zlen in *. lia.
Qed.

(** The continuation chunks carry exactly the bytes after the cursor, none of
    them empty, none too long for a cell. *)
Lemma cont_bodies_spec cap msg cursor :
  0 < cap → 0 ≤ cursor ≤ zlen msg →
  concat (cont_bodies cap msg cursor) = drop (Z.to_nat cursor) msg
  ∧ Forall (λ b, 0 < zlen b ≤ cap) (cont_bodies cap msg cursor).
Proof. intros. apply cont_loop_spec; try done. unfold zlen in *. lia. Qed.

(** Values the Rust type allows. *)
Definition endpoint_typed (e : HopEndpoint) : Prop :=
  match e with
  | Ipv4 addr port => length addr = 4%nat ∧ in_u16 port
  | Ipv6 addr port => length addr = 16%nat ∧ in_u16 port
  | OnionV3 ascii port => length ascii = 56%nat ∧ in_u16 port
  end.

#[global] Instance endpoint_typed_dec e : Decision (endpoint_typed e).
Proof. unfold endpoint_typed. destruct e; apply _. Defined.

Lemma endpoint_encode_len e out : endpoint_typed e → endpoint_encode e = Ok out →
  zlen out = endpoint_wire_len e.
Proof.
  unfold endpoint_encode, endpoint_wire_len. intros Ht H. destruct e; destruct Ht as [Hl Hp];
    case_in H; rewrite zlen_cons, zlen_app, zlen_be_bytes; unfold zlen; lia.
Qed.

(** A port that follows [n] address bytes after the kind tag. *)
Lemma port_after k addr port rest n :
  length addr = n → in_u16 port →
  be_val [at_ (k :: addr ++ be_bytes 2 port ++ rest) (S n);
          at_ (k :: addr ++ be_bytes 2 port ++ rest) (S (S n))] = port
  ∧ slice (k :: addr ++ be_bytes 2 port ++ rest) 1 (S n) = addr.
Proof.
  intros Hl Hp. unfold at_, slice. cbn [nth drop]. rewrite drop_0.
  rewrite (app_nth2 addr _ _ (n := n)) by lia. rewrite (app_nth2 addr _ _ (n := S n)) by lia.
  replace (n - length addr)%nat with 0%nat by lia.
  replace (S n - length addr)%nat with 1%nat by lia.
  rewrite be_bytes_2. cbn [nth app]. rewrite <- be_bytes_2, be_u16_roundtrip by done.
  split; [done|]. replace (S n - 1)%nat with (length addr) by lia. by rewrite take_app_length.
Qed.

Lemma endpoint_roundtrip e out rest : endpoint_typed e → endpoint_encode e = Ok out →
  endpoint_decode (out ++ rest) = Ok (e, length out).
Proof.
  unfold endpoint_encode. intros Ht H. pose proof (zlen_nonneg rest).
  destruct e as [addr port|addr port|addr port]; destruct Ht as [Hl Hp]; case_in H;
    unfold endpoint_decode; rewrite bool_decide_false by done; cbn [app];
    rewrite <- app_assoc; unfold at_ at 1; cbn [nth];
    (rewrite bool_decide_false
       by (rewrite zlen_cons, !zlen_app, zlen_be_bytes; unfold zlen in *; lia));
    [destruct (port_after x01 addr port rest 4 Hl Hp) as [-> ->]
    |destruct (port_after x02 addr port rest 16 Hl Hp) as [-> ->]
    |destruct (port_after x04 addr port rest 56 Hl Hp) as [-> ->]];
    try match goal with E : v4_mapped _ = false |- _ => rewrite E end;
    rewrite bool_decide_false by done; cbn [length]; rewrite length_app, length_be_bytes, Hl; done.
Qed.

(** The length-prefixed start of a body. *)
Lemma len_prefix n chunk : 0 ≤ n ≤ u16_max →
  be_val [at_ (be_bytes 2 n ++ chunk) 0; at_ (be_bytes 2 n ++ chunk) 1] = n
  ∧ drop 2 (be_bytes 2 n ++ chunk) = chunk ∧ zlen (be_bytes 2 n ++ chunk) = 2 + zlen chunk.
Proof.
  intros. split_and!.
  - rewrite be_bytes_2. unfold at_. cbn [app nth]. rewrite <- be_bytes_2.
    by apply be_u16_roundtrip.
  - rewrite be_bytes_2. done.
  - by rewrite zlen_app, zlen_be_bytes.
Qed.

Lemma handshake_first n chunk : 0 ≤ n ≤ MAX_HANDSHAKE_BODY_LEN → zlen chunk ≤ n →
  HandshakeBody_decode_partial (be_bytes 2 n ++ chunk) = Ok (n, chunk).
Proof.
  intros Hn Hc.
  destruct (len_prefix n chunk) as (Hv & Hd & Hz); [unfold u16_max; lia|].
  pose proof (zlen_nonneg chunk). unfold HandshakeBody_decode_partial. rewrite Hv, Hd, Hz.
  by rewrite !bool_decide_false by lia.
Qed.

Lemma extended_first n chunk : 0 ≤ n ≤ MAX_HS_MSG2_LEN → zlen chunk ≤ n →
  ExtendedBody_decode_partial (be_bytes 2 n ++ chunk) = Ok (n, chunk).
Proof.
  intros Hn Hc.
  destruct (len_prefix n chunk) as (Hv & Hd & Hz); [unfold u16_max; lia|].
  pose proof (zlen_nonneg chunk). unfold ExtendedBody_decode_partial. rewrite Hv, Hd, Hz.
  by rewrite !bool_decide_false by lia.
Qed.

Lemma extend_finish_roundtrip msg rest : zlen msg ≤ u16_max →
  ∃ out, ExtendFinishBody_encode msg = Ok out ∧ ExtendFinishBody_decode (out ++ rest) = Ok msg.
Proof.
  intros Hl. pose proof (zlen_nonneg msg). pose proof (zlen_nonneg rest).
  unfold ExtendFinishBody_encode. rewrite bool_decide_false by lia. eexists. split; [done|].
  unfold ExtendFinishBody_decode. rewrite <- app_assoc.
  destruct (len_prefix (zlen msg) (msg ++ rest)) as (Hv & Hd & Hz); [lia|].
  rewrite Hv, Hz, zlen_app, !bool_decide_false by lia. f_equal. unfold slice. rewrite Hd.
  replace (Z.to_nat (2 + zlen msg) - 2)%nat with (length msg) by (unfold zlen; lia).
  by rewrite take_app_length.
Qed.

Lemma subcell_roundtrip s out : sub_command s ≠ x00 → RelaySubCell_encode s = Ok out →
  RelaySubCell_decode out = Ok s.
Proof.
  unfold RelaySubCell_encode. intros Hc H.
  case_bool_decide; [done|].
  assert (out = sub_command s :: (be_bytes 2 (zlen (sub_body s)) ++ sub_body s)) as -> by (by injection H).
  pose proof (zlen_nonneg (sub_body s)).
  destruct (len_prefix (zlen (sub_body s)) (sub_body s)) as (Hv & Hd & Hz); [lia|].
  set (x := be_bytes 2 (zlen (sub_body s)) ++ sub_body s) in *.
  unfold RelaySubCell_decode.
  rewrite zlen_cons, Hz, bool_decide_false by lia.
  unfold at_ in *. cbn [nth]. rewrite bool_decide_false by done.
  rewrite Hv, bool_decide_false by lia. cbn [drop]. rewrite Hd. by destruct s.
Qed.

(** The decoder accepts exactly one spelling of a sub-cell. *)
Lemma subcell_canonical buf s : RelaySubCell_decode buf = Ok s →
  sub_command s ≠ x00 ∧ RelaySubCell_encode s = Ok buf.
Proof.
  unfold RelaySubCell_decode. intros H. case_in H.
  destruct buf as [|c [|a [|b rest]]]; rewrite ?zlen_cons, ?zlen_nil in *; try lia.
  unfold at_ in *. cbn [nth drop] in *. rewrite drop_0. split; [done|].
  pose proof (be_val_u16 a b) as Hu. unfold in_u16 in Hu.
  unfold RelaySubCell_encode. cbn [sub_body sub_command].
  rewrite bool_decide_false by lia. replace (zlen rest) with (be_val [a; b]) by lia.
  by rewrite (be_bytes_be_val [a; b] : be_bytes 2 _ = _).
Qed.

Lemma extend_first pk ep epb n chunk :
  length pk = 32%nat → endpoint_typed ep → endpoint_encode ep = Ok epb →
  0 ≤ n ≤ MAX_HS_MSG1_LEN → zlen chunk ≤ n →
  ExtendHeader_decode_partial (pk ++ epb ++ be_bytes 2 n ++ chunk)
  = Ok (mkExtendHeader pk ep n, chunk).
Proof.
  intros Hpk Ht He Hn Hc.
  destruct (len_prefix n chunk) as (Hv & Hd & Hz); [unfold u16_max; lia|].
  pose proof (zlen_nonneg chunk). pose proof (zlen_nonneg epb).
  assert (zlen pk = 32) as Hpz by (unfold zlen; lia).
  unfold ExtendHeader_decode_partial.
  rewrite !zlen_app, zlen_be_bytes, Hpz. rewrite bool_decide_false by lia.
  rewrite <- Hpk, drop_app_length, (endpoint_roundtrip ep epb) by done.
  rewrite bool_decide_false by (unfold zlen in *; lia).
  unfold slice. rewrite drop_0, Nat.sub_0_r, take_app_length, app_assoc, <- length_app.
  rewrite at_app_r. pose proof (at_app_r (pk ++ epb) (be_bytes 2 n ++ chunk) 0) as Ha0.
  rewrite Nat.add_0_r in Ha0. rewrite Ha0, Hv, bool_decide_false by lia.
  rewrite <- drop_drop, drop_app_length, Hd. by rewrite bool_decide_false by lia.
Qed.

(** A first fragment: what [encode_fragmented] puts in the first cell. *)
Lemma handshake_fragments msg cap : zlen msg ≤ MAX_HANDSHAKE_BODY_LEN → 2 < cap →
  ∃ first conts chunk, HandshakeBody_encode_fragmented msg cap = Ok (first, conts)
    ∧ HandshakeBody_decode_partial first = Ok (zlen msg, chunk)
    ∧ chunk ++ concat conts = msg ∧ zlen first ≤ cap ∧ Forall (λ b, 0 < zlen b ≤ cap) conts.
Proof.
  intros Hm Hc. pose proof (zlen_nonneg msg). unfold HandshakeBody_encode_fragmented.
  rewrite bool_decide_false by lia. rewrite bool_decide_false by lia.
  destruct (cont_bodies_spec cap msg (Z.min (cap - 2) (zlen msg))) as [Hcat HF]; [lia..|].
  eexists _, _, _. split; [done|]. split; [apply handshake_first; [lia|rewrite zlen_take; lia]|].
  rewrite Hcat, take_drop, zlen_app, zlen_be_bytes, zlen_take. split_and!; [done|lia|done].
Qed.

Lemma extended_fragments msg cap : zlen msg ≤ MAX_HS_MSG2_LEN → 2 < cap →
  ∃ first conts chunk, ExtendedBody_encode_fragmented msg cap = Ok (first, conts)
    ∧ ExtendedBody_decode_partial first = Ok (zlen msg, chunk)
    ∧ chunk ++ concat conts = msg ∧ zlen first ≤ cap ∧ Forall (λ b, 0 < zlen b ≤ cap) conts.
Proof.
  intros Hm Hc. pose proof (zlen_nonneg msg). unfold ExtendedBody_encode_fragmented.
  rewrite bool_decide_false by (unfold u16_max in *; lia).
  rewrite bool_decide_false by lia.
  destruct (cont_bodies_spec cap msg (Z.min (cap - 2) (zlen msg))) as [Hcat HF]; [lia..|].
  eexists _, _, _. split; [done|]. split; [apply extended_first; [lia|rewrite zlen_take; lia]|].
  rewrite Hcat, take_drop, zlen_app, zlen_be_bytes, zlen_take. split_and!; [done|lia|done].
Qed.

(** Values the Rust type allows and [encode] accepts. *)
Definition extend_valid (b : ExtendBody) : Prop :=
  length (next_hop_pk b) = 32%nat ∧ endpoint_typed (endpoint b)
  ∧ (∃ epb, endpoint_encode (endpoint b) = Ok epb) ∧ zlen (hs_msg1 b) ≤ MAX_HS_MSG1_LEN.

Lemma extend_fragments b cap : extend_valid b → 93 < cap →
  ∃ first conts chunk, ExtendBody_encode_fragmented b cap = Ok (first, conts)
    ∧ ExtendHeader_decode_partial first
      = Ok (mkExtendHeader (next_hop_pk b) (endpoint b) (zlen (hs_msg1 b)), chunk)
    ∧ chunk ++ concat conts = hs_msg1 b ∧ zlen first ≤ cap
    ∧ Forall (λ b, 0 < zlen b ≤ cap) conts.
Proof.
  intros (Hpk & Ht & (epb & He) & Hm) Hc. pose proof (zlen_nonneg (hs_msg1 b)).
  pose proof (endpoint_encode_len _ _ Ht He) as Hepl.
  assert (endpoint_wire_len (endpoint b) ≤ 59) as Hw
    by (unfold endpoint_wire_len; destruct (endpoint b); lia).
  unfold ExtendBody_encode_fragmented.
  rewrite bool_decide_false by (unfold u16_max; lia). pose proof (zlen_nonneg epb).
  set (fl := Z.min (cap - (32 + endpoint_wire_len (endpoint b) + 2)) (zlen (hs_msg1 b))).
  rewrite bool_decide_false by lia. rewrite He.
  destruct (cont_bodies_spec cap (hs_msg1 b) fl) as [Hcat HF]; [lia..|].
  eexists _, _, _. split; [done|].
  split; [apply extend_first; [done|done|done|lia|rewrite zlen_take; lia]|].
  rewrite Hcat, take_drop, !zlen_app, zlen_be_bytes, zlen_take.
  split_and!; [done|unfold zlen in *; lia|done].
Qed.
