(* ===== verification/CircuitOnion.v ===== *)
(** * Onion layers and hop keys (crates/circuit/src/onion.rs, keys.rs)

    Sealing and peeling a cell payload under one AEAD layer per hop, the
    per-cell nonce and associated data, and the derivation of a hop's keys from
    its handshake. The AEAD and the hash are those of [SessionCrypto], since
    both crates take them from the same place; BLAKE3's keyed mode is added by
    [CircuitCrypto]. *)

From stdpp Require Import base numbers list strings.
From Stdlib Require Import ZArith Lia Strings.Byte.
From S2P Require Import Prelude Bytes SessionFrames.

Class CircuitCrypto : Type := {
  circuit_session :: SessionCrypto;
  blake3_keyed : ∀ (key msg : list byte), list byte;
}.

Abbreviation ONION_MAX_EPOCH := (Z.shiftl 1 24 - 1) (only parsing).
Abbreviation ONION_KEY_LEN := 32%nat (only parsing).
Abbreviation ONION_IV_LEN := 12%nat (only parsing).

Inductive OnionError : Set := AuthFailed | NoLayers | EpochOverflow.

#[global] Instance OnionError_eq_dec : EqDecision OnionError.
Proof. solve_decision. Defined.

Record OnionLayer : Set := mkLayer {
  key : list byte;
  iv : list byte;
}.

(** One hop's pair of layers. *)
Record HopKeys : Set := mkHopKeys {
  forward : OnionLayer;
  reverse : OnionLayer;
}.

(** [zeroize] writes zeros over the key and the IV. *)

Definition nonce (v : list byte) (direction : byte) (epoch seq : Z) : list byte :=
  let counter := replicate ONION_IV_LEN x00 in
  let counter := splice counter 0 [direction] in
  let epoch_be := be_bytes 4 epoch in
  let counter := splice counter 1 (slice epoch_be 1 4) in
  let counter := splice counter 4 (be_bytes 8 seq) in
  zip_with bxor v counter.

Abbreviation ONION_AAD_PREFIX := (label "mirage-onion-cell-v1") (only parsing).

Definition aad (direction : byte) (epoch seq : Z) : list byte :=
  ONION_AAD_PREFIX ++ [direction] ++ be_bytes 4 epoch ++ be_bytes 8 seq.

Section onion.
Context {CC : CircuitCrypto}.

(** The loop of [onion_seal]; it walks the layers in reverse. *)
Fixpoint seal_loop (layers : list OnionLayer) (payload : list byte)
  (direction : byte) (epoch seq : Z) : result OnionError (list byte) :=
  match layers with
  | [] => Ok payload
  | layer :: rest =>
    let n := nonce (iv layer) direction epoch seq in
    let? ct := ok_or (aead_encrypt (key layer) n (aad direction epoch seq) payload) AuthFailed in
    seal_loop rest ct direction epoch seq
  end.

Definition onion_seal (layers : list OnionLayer) (plaintext : list byte)
  (direction : byte) (epoch seq : Z) : result OnionError (list byte) :=
  if bool_decide (layers = []) then Err NoLayers
  else if bool_decide (epoch > ONION_MAX_EPOCH) then Err EpochOverflow
  else seal_loop (rev layers) plaintext direction epoch seq.

(** The loop of [onion_open]. *)
Fixpoint open_loop (layers : list OnionLayer) (payload : list byte)
  (direction : byte) (epoch seq : Z) : result OnionError (list byte) :=
  match layers with
  | [] => Ok payload
  | layer :: rest =>
    let n := nonce (iv layer) direction epoch seq in
    let? pt := ok_or (aead_decrypt (key layer) n (aad direction epoch seq) payload) AuthFailed in
    open_loop rest pt direction epoch seq
  end.

Definition onion_open (layers : list OnionLayer) (ciphertext : list byte)
  (direction : byte) (epoch seq : Z) : result OnionError (list byte) :=
  if bool_decide (layers = []) then Err NoLayers
  else if bool_decide (epoch > ONION_MAX_EPOCH) then Err EpochOverflow
  else open_loop layers ciphertext direction epoch seq.

(** ** Key derivation *)
Definition derive32 (k lbl : list byte) : list byte := blake3_keyed k lbl.
Definition derive_iv (k lbl : list byte) : list byte := take ONION_IV_LEN (blake3_keyed k lbl).

Abbreviation LABEL_C2H_KEY := (label "mirage-circuit-c2h-key-v1") (only parsing).
Abbreviation LABEL_C2H_IV := (label "mirage-circuit-c2h-iv-v1") (only parsing).
Abbreviation LABEL_H2C_KEY := (label "mirage-circuit-h2c-key-v1") (only parsing).
Abbreviation LABEL_H2C_IV := (label "mirage-circuit-h2c-iv-v1") (only parsing).
Abbreviation SESSION_DIRECTION_LABEL_I2R := (label "mirage-key-i2r-v1") (only parsing).
Abbreviation SESSION_DIRECTION_LABEL_R2I := (label "mirage-key-r2i-v1") (only parsing).

Definition derive_hop_keys (k_session_i2r k_session_r2i : list byte) : HopKeys :=
  let c2h_key := derive32 k_session_i2r LABEL_C2H_KEY in
  let c2h_iv := derive_iv k_session_i2r LABEL_C2H_IV in
  let h2c_key := derive32 k_session_r2i LABEL_H2C_KEY in
  let h2c_iv := derive_iv k_session_r2i LABEL_H2C_IV in
  mkHopKeys (mkLayer c2h_key c2h_iv) (mkLayer h2c_key h2c_iv).

Definition circuit_direction_root (lbl k_pq session_binding : list byte) : list byte :=
  blake3 (lbl ++ k_pq ++ session_binding).

Definition derive_hop_keys_from_handshake (mlkem_ss session_binding : list byte) : HopKeys :=
  let k_i2r := circuit_direction_root SESSION_DIRECTION_LABEL_I2R mlkem_ss session_binding in
  let k_r2i := circuit_direction_root SESSION_DIRECTION_LABEL_R2I mlkem_ss session_binding in
  derive_hop_keys k_i2r k_r2i.

End onion.

(** ** What the code relies on

    ChaCha20-Poly1305 with a 32-byte key and a 12-byte nonce encrypts every
    message up to its documented limit, appends a 16-byte tag and decrypts what
    it encrypted; BLAKE3 digests have 32 bytes in both modes. *)
Definition CHACHA_MAX_MSG : Z := 274877906880.

Class CircuitCryptoLaws (CC : CircuitCrypto) : Prop := {
  cc_encrypts k n a m : length k = 32%nat → length n = 12%nat → zlen m ≤ CHACHA_MAX_MSG →
    ∃ c, aead_encrypt k n a m = Some c;
  cc_opens k n a m c : aead_encrypt k n a m = Some c → aead_decrypt k n a c = Some m;
  cc_len k n a m c : aead_encrypt k n a m = Some c → zlen c = zlen m + 16;
  cc_hash_len m : length (blake3 m) = 32%nat;
  cc_keyed_len k m : length k = 32%nat → length (blake3_keyed k m) = 32%nat;
}.

(** A layer with a key and an IV of the Rust types' lengths. *)
Definition layer_wf (l : OnionLayer) : Prop := length (key l) = 32%nat ∧ length (iv l) = 12%nat.
Definition keys_wf (k : HopKeys) : Prop := layer_wf (forward k) ∧ layer_wf (reverse k).

(** ** The nonce *)

Lemma nonce_eq v d e s :
  nonce v d e s = zip_with bxor v ([d] ++ slice (be_bytes 4 e) 1 4 ++ be_bytes 8 s).
Proof. reflexivity. Qed.

Lemma low24 e : in_u32 e → e ≤ ONION_MAX_EPOCH → be_val (slice (be_bytes 4 e) 1 4) = e.
Proof.
  unfold in_u32. change (Z.shiftl 1 24) with 16777216. intros H1 H2.
  change (slice (be_bytes 4 e) 1 4) with (be_bytes 3 e).
  apply be_val_be_bytes_small. lia.
Qed.

Lemma length_nonce v d e s : length v = 12%nat → length (nonce v d e s) = 12%nat.
Proof.
  intros Hv. rewrite nonce_eq, length_zip_with, Hv.
  change (slice (be_bytes 4 e) 1 4) with (be_bytes 3 e).
  rewrite !length_app, !length_be_bytes. done.
Qed.

(** Under one layer, no two cells share a nonce: it determines the direction,
    the epoch and the sequence number, for every epoch that [onion_seal]
    admits. *)
Lemma nonce_inj v d e s d' e' s' :
  length v = 12%nat → in_u32 e → in_u32 e' → in_u64 s → in_u64 s' →
  e ≤ ONION_MAX_EPOCH → e' ≤ ONION_MAX_EPOCH →
  nonce v d e s = nonce v d' e' s' → d = d' ∧ e = e' ∧ s = s'.
Proof.
  intros Hv He He' Hs Hs' Hm Hm' H. rewrite !nonce_eq in H.
  apply zip_bxor_inj in H; [|rewrite Hv; reflexivity..].
  apply app_inj_1 in H as [Hd H]; [|reflexivity]. injection Hd as Hd.
  apply app_inj_1 in H as [H1 H2]; [|reflexivity].
  apply (f_equal be_val) in H1, H2.
  rewrite !low24 in H1 by done. rewrite !be_u64_roundtrip in H2 by done. done.
Qed.

Section layers.
Context {CC : CircuitCrypto} {CL : CircuitCryptoLaws CC}.

(** ** Layers *)

Lemma seal_loop_app a b p d e s :
  seal_loop (a ++ b) p d e s = let? q := seal_loop a p d e s in seal_loop b q d e s.
Proof.
  revert p. induction a as [|l a IH]; intros p; simpl; [done|].
  destruct (aead_encrypt _ _ _ _); simpl; [apply IH|done].
Qed.

(** What one layer adds, the same layer removes. *)
Lemma seal_open_one l p d e s : layer_wf l → e ≤ ONION_MAX_EPOCH → zlen p ≤ CHACHA_MAX_MSG →
  ∃ c, onion_seal [l] p d e s = Ok c ∧ onion_open [l] c d e s = Ok p ∧ zlen c = zlen p + 16.
Proof.
  intros [Hk Hv] He Hp.
  destruct (cc_encrypts (key l) (nonce (iv l) d e s) (aad d e s) p) as [c Hc];
    [done|by apply length_nonce|done|].
  exists c. unfold onion_seal, onion_open. rewrite !bool_decide_false by (done || lia).
  cbn [rev app seal_loop open_loop]. rewrite Hc. cbn [ok_or].
  erewrite cc_opens by exact Hc. split_and!; [done|done|by eapply cc_len].
Qed.

Lemma onion_open_one l c d e s p : onion_seal [l] p d e s = Ok c → onion_open [l] c d e s = Ok p.
Proof.
  unfold onion_seal, onion_open. rewrite !bool_decide_false by done.
  destruct (bool_decide _); [done|]. cbn [rev app seal_loop open_loop].
  destruct (aead_encrypt _ _ _ _) as [c'|] eqn:Hc; [|done]. cbn [ok_or]. intros [= <-].
  by erewrite cc_opens by exact Hc.
Qed.

Lemma onion_seal_len_one l c d e s p : onion_seal [l] p d e s = Ok c → zlen c = zlen p + 16.
Proof.
  unfold onion_seal. rewrite !bool_decide_false by done.
  destruct (bool_decide _); [done|]. cbn [rev app seal_loop].
  destruct (aead_encrypt _ _ _ _) as [c'|] eqn:Hc; [|done]. intros [= <-]. by eapply cc_len.
Qed.

Lemma onion_seal_cons l ls p d e s : ls ≠ [] →
  onion_seal (l :: ls) p d e s
  = let? q := onion_seal ls p d e s in onion_seal [l] q d e s.
Proof.
  intros Hn. unfold onion_seal.
  rewrite (bool_decide_false (l :: ls = [])), (bool_decide_false (ls = [])),
    (bool_decide_false ([l] = [])) by done.
  destruct (bool_decide _); [done|]. cbn [rev app]. by rewrite seal_loop_app.
Qed.

(** C37: The onion: sealing under any number of layers succeeds for every payload
    within the cipher's limit, adds 16 bytes per layer, opening all layers gives
    the payload back, and opening only the outermost one gives what the
    remaining layers sealed. *)
Theorem onion_layers l ls p d e s :
  Forall layer_wf (l :: ls) → e ≤ ONION_MAX_EPOCH →
  zlen p + 16 * zlen ls ≤ CHACHA_MAX_MSG →
  ∃ c, onion_seal (l :: ls) p d e s = Ok c ∧ zlen c = zlen p + 16 * zlen (l :: ls)
    ∧ onion_open (l :: ls) c d e s = Ok p
    ∧ onion_open [l] c d e s = (if bool_decide (ls = []) then Ok p else onion_seal ls p d e s).
Proof.
  intros Hw He. revert l Hw. induction ls as [|l2 ls IH]; intros l Hw Hp.
  { apply Forall_cons_1 in Hw as [Hl _]. change (zlen (@nil OnionLayer)) with 0 in Hp.
    destruct (seal_open_one l p d e s Hl He) as (c & Hs & Ho & Hz); [lia|].
    exists c. rewrite Hs, Ho, bool_decide_true by done.
    split_and!; [done|change (zlen [l]) with 1; lia|done..]. }
  apply Forall_cons_1 in Hw as [Hl Hw]. rewrite zlen_cons in Hp.
  destruct (IH l2 Hw ltac:(lia)) as (q & Hq & Hz & Ho & _).
  destruct (seal_open_one l q d e s Hl He) as (c & Hs & Hoc & Hzc).
  { rewrite Hz, zlen_cons. lia. }
  exists c. rewrite onion_seal_cons, Hq by done. rewrite bool_decide_false by done.
  split_and!; [done|rewrite Hzc, Hz, !zlen_cons; lia| |done].
  unfold onion_open in *. rewrite !bool_decide_false in * by (done || lia).
  cbn [open_loop] in *. destruct (aead_decrypt (key l) _ _ _); [|done]. simplify_eq/=.
  done.
Qed.

(** ** Hop keys *)

Lemma derive_hop_keys_wf a b : length a = 32%nat → length b = 32%nat → keys_wf (derive_hop_keys a b).
Proof.
  intros Ha Hb. unfold keys_wf, layer_wf, derive_hop_keys, derive32, derive_iv. cbn.
  rewrite !length_take, !cc_keyed_len by done. split_and!; done || lia.
Qed.

(** C38: The circuit's keys are those of the session: for a framer made from the same
    handshake, deriving the hop keys from the framer's direction roots gives
    what [derive_hop_keys_from_handshake] gives, whatever the role; and the
    keys have the lengths the layers need. *)
Theorem hop_keys_match_session binding ss t r f :
  from_session_keys binding ss t r = Ok f →
  derive_hop_keys (k_session_i2r f) (k_session_r2i f) = derive_hop_keys_from_handshake ss binding
  ∧ keys_wf (derive_hop_keys_from_handshake ss binding).
Proof.
  unfold from_session_keys. intros H. split; [|apply derive_hop_keys_wf; apply cc_hash_len].
  destruct (expand_cipher _ _) as [c1|]; [|done]. destruct (expand_cipher _ _) as [c2|]; [|done].
  destruct (by_role r c1 c2). by injection H as <-.
Qed.

End layers.

(** ** An instance

    The session's example crypto, with a keyed hash that pads. *)
Module CircuitDemo.

#[export] Instance crypto : CircuitCrypto := {|
  circuit_session := Demo.crypto;
  blake3_keyed k m := take 32 (k ++ m ++ replicate 32 x00);
|}.

#[export] Instance laws : CircuitCryptoLaws crypto.
Proof.
  split.
  - intros. by eexists.
  - intros. by eapply (@aead_opens _ Demo.laws).
  - intros. by eapply (@aead_len _ Demo.laws).
  - apply (@blake3_len _ Demo.laws).
  - intros k m Hk. change (length (take 32 (k ++ m ++ replicate 32 x00)) = 32%nat). rewrite length_take, !length_app, length_replicate. lia.
Qed.

Definition layer (b : byte) : OnionLayer := mkLayer (replicate 32 b) (replicate 12 b).

End CircuitDemo.

Lemma onion_layers_witness :
  ∃ c, onion_seal (CC := CircuitDemo.crypto) [CircuitDemo.layer x01; CircuitDemo.layer x02] [xaa] x00 0 3 = Ok c
    ∧ zlen c = 33
    ∧ onion_open (CC := CircuitDemo.crypto) [CircuitDemo.layer x01; CircuitDemo.layer x02] c x00 0 3 = Ok [xaa]
    ∧ onion_open (CC := CircuitDemo.crypto) [CircuitDemo.layer x01] c x00 0 3
      = onion_seal (CC := CircuitDemo.crypto) [CircuitDemo.layer x02] [xaa] x00 0 3.
Proof.
  apply (onion_layers (CL := CircuitDemo.laws) (CircuitDemo.layer x01) [CircuitDemo.layer x02] [xaa] x00 0 3).
  - repeat constructor.
  - vm_decide.
  - vm_decide.
Defined.

Lemma hop_keys_match_session_witness :
  derive_hop_keys (CC := CircuitDemo.crypto) (k_session_i2r (Demo.framer Initiator)) (k_session_r2i (Demo.framer Initiator))
  = derive_hop_keys_from_handshake (CC := CircuitDemo.crypto) Demo.secret Demo.binding
  ∧ keys_wf (derive_hop_keys_from_handshake (CC := CircuitDemo.crypto) Demo.secret Demo.binding).
Proof.
  exact (hop_keys_match_session (CL := CircuitDemo.laws) _ _ _ _ _ (Demo.framer_ok Initiator)).
Defined.
