(* ===== verification/CircuitClient.v ===== *)
(** * The client's circuit and its builder (crates/circuit/src/circuit.rs, builder.rs)

    [Circuit] holds the onion layers of the hops built so far with one pair of
    sequence counters per hop; [CircuitBuilder] drives its construction hop by
    hop. The drop hook of the builder only logs and is left out. *)

From stdpp Require Import base numbers list strings.
From Stdlib Require Import ZArith Lia Strings.Byte.
From S2P Require Import Prelude Bytes SessionFrames CircuitOnion CircuitCell CircuitExtend.

Abbreviation DIR_CLIENT_TO_HOP := x00 (only parsing).
Abbreviation DIR_HOP_TO_CLIENT := x01 (only parsing).
Abbreviation MIN_CIRCUIT_HOPS := 1 (only parsing).
Abbreviation MAX_CIRCUIT_HOPS := 3 (only parsing).
Abbreviation MAX_REVERSE_RELAY_DATA_BYTES := (MAX_CELL_PAYLOAD - (MAX_CIRCUIT_HOPS * 16) - 3 - 2) (only parsing).

Inductive CircuitError : Set :=
| TooManyHops
| NoHops
| Destroyed
| Onion (e : OnionError)
| SeqExhausted.

#[global] Instance CircuitError_eq_dec : EqDecision CircuitError.
Proof. solve_decision. Defined.

Record Circuit : Set := mkCircuit {
  c_forward : list OnionLayer;
  c_reverse : list OnionLayer;
  c2h_seq : list Z;
  h2c_seq : list Z;
  c_epoch : Z;
  destroyed : bool;
}.

Abbreviation Circuit_new := (mkCircuit [] [] [] [] 0 false) (only parsing).

Definition set_c2h (s : list Z) (c : Circuit) : Circuit :=
  mkCircuit (c_forward c) (c_reverse c) s (h2c_seq c) (c_epoch c) (destroyed c).
Definition set_h2c (s : list Z) (c : Circuit) : Circuit :=
  mkCircuit (c_forward c) (c_reverse c) (c2h_seq c) s (c_epoch c) (destroyed c).

Definition extend (k : HopKeys) : stm Circuit CircuitError unit :=
  c <- st_get ;;
  if destroyed c then st_err Destroyed
  else if bool_decide (zlen (c_forward c) >= MAX_CIRCUIT_HOPS) then st_err TooManyHops
  else st_mod (λ c, mkCircuit (c_forward c ++ [forward k]) (c_reverse c ++ [reverse k])
                      (c2h_seq c ++ [0]) (h2c_seq c ++ [0]) (c_epoch c) (destroyed c)).

Abbreviation hop_count c := (zlen (c_forward c)) (only parsing).

Definition destroy (c : Circuit) : Circuit :=
  mkCircuit (c_forward c) (c_reverse c) (c2h_seq c) (h2c_seq c) (c_epoch c) true.

(** [for s in &mut seqs { *s = s.checked_add(1).ok_or(SeqExhausted)? }]: the
    counters as the loop leaves them, and whether it ran to its end. *)
Fixpoint bump_all (seqs : list Z) : list Z * bool :=
  match seqs with
  | [] => ([], true)
  | s :: rest =>
    match checked_add_u64 s 1 with
    | Some s' => let '(rest', ok) := bump_all rest in (s' :: rest', ok)
    | None => (s :: rest, false)
    end
  end.

Section circuit.
Context {CC : CircuitCrypto}.

(** The loop [for i in (0..n).rev()] of [relay_seal]: the last hop's layer is
    applied first, each with its own counter. The two lists have the same
    length ([circuit_inv]). *)
Fixpoint seal_hops (layers : list OnionLayer) (seqs : list Z) (epoch : Z) (payload : list byte)
  : result OnionError (list byte) :=
  match layers, seqs with
  | l :: layers, s :: seqs =>
    let? payload := seal_hops layers seqs epoch payload in
    onion_seal [l] payload DIR_CLIENT_TO_HOP epoch s
  | _, _ => Ok payload
  end.

Definition relay_seal (plaintext : list byte) : stm Circuit CircuitError (list byte) :=
  c <- st_get ;;
  if destroyed c then st_err Destroyed
  else if bool_decide (c_forward c = []) then st_err NoHops
  else
    payload <- st_lift (map_err Onion (seal_hops (c_forward c) (c2h_seq c) (c_epoch c) plaintext)) ;;
    let '(seqs, ok) := bump_all (c2h_seq c) in
    st_mod (set_c2h seqs) ;;;
    if ok then st_ret payload else st_err SeqExhausted.

(** [.expect(..)]: the empty sub-cell always encodes ([padding_encodes]). *)
Definition build_padding_payload : stm Circuit CircuitError (list byte) :=
  match RelaySubCell_encode (mkSub CMD_PADDING []) with
  | Ok sub => relay_seal sub
  | Err _ => st_err NoHops
  end.

(** The loop [for i in 0..n] of [relay_open]. *)
Fixpoint open_hops (layers : list OnionLayer) (seqs : list Z) (epoch : Z) (payload : list byte)
  : result OnionError (list byte) :=
  match layers, seqs with
  | l :: layers, s :: seqs =>
    let? payload := onion_open [l] payload DIR_HOP_TO_CLIENT epoch s in
    open_hops layers seqs epoch payload
  | _, _ => Ok payload
  end.

Definition relay_open (ciphertext : list byte) : stm Circuit CircuitError (list byte) :=
  c <- st_get ;;
  if destroyed c then st_err Destroyed
  else if bool_decide (c_reverse c = []) then st_err NoHops
  else
    payload <- st_lift (map_err Onion (open_hops (c_reverse c) (h2c_seq c) (c_epoch c) ciphertext)) ;;
    let '(seqs, ok) := bump_all (h2c_seq c) in
    st_mod (set_h2c seqs) ;;;
    if ok then st_ret payload else st_err SeqExhausted.

End circuit.

(** ** The builder *)
Record HopSpec : Set := mkHopSpec { static_pk : list byte; hs_endpoint : HopEndpoint }.

Inductive BuilderError : Set :=
| EmptyHops
| BTooManyHops (n : Z)
| OutOfOrderRecord (expected got : Z)
| AlreadyFailed
| AlreadyComplete
| HopHandshakeFailed
| TransportDialFailed
| Timeout
| Other (msg : string).

Inductive BuildStep : Set :=
| DialHop0 (spec : HopSpec)
| Extend (hop_idx : Z) (spec : HopSpec) (prev_hop_count : Z)
| StepReady
| StepFailed (hop_idx : Z) (error : BuilderError).

Inductive BuilderState : Set :=
| Pending
| Ready
| Failed (hop_idx : Z) (error : BuilderError).

Record CircuitBuilder : Set := mkBuilder {
  hops : list HopSpec;
  circuit : Circuit;
  bstate : BuilderState;
}.

Definition CircuitBuilder_new (hs : list HopSpec) : result BuilderError CircuitBuilder :=
  if bool_decide (hs = []) || bool_decide (zlen hs < MIN_CIRCUIT_HOPS) then Err EmptyHops
  else if bool_decide (zlen hs > MAX_CIRCUIT_HOPS) then Err (BTooManyHops (zlen hs))
  else Ok (mkBuilder hs Circuit_new Pending).

(** [None] is the panic of [self.hops[next]]. *)
Definition next_step (b : CircuitBuilder) : option BuildStep :=
  match bstate b with
  | Failed i e => Some (StepFailed i e)
  | Ready => Some StepReady
  | Pending =>
    let next := hop_count (circuit b) in
    match hops b !! Z.to_nat next with
    | None => None
    | Some spec =>
      Some (if bool_decide (next = 0) then DialHop0 spec else Extend next spec next)
    end
  end.

(** The guard of [record_hop_built] and [record_hop_failure]. *)
Definition record_guard (hop_idx : Z) : stm CircuitBuilder BuilderError unit :=
  b <- st_get ;;
  match bstate b with
  | Failed _ _ => st_err AlreadyFailed
  | Ready => st_err AlreadyComplete
  | Pending =>
    let expected := hop_count (circuit b) in
    if bool_decide (hop_idx ≠ expected) then st_err (OutOfOrderRecord expected hop_idx)
    else st_ret tt
  end.

Definition record_hop_built (hop_idx : Z) (k : HopKeys) : stm CircuitBuilder BuilderError unit :=
  record_guard hop_idx ;;;
  b <- st_get ;;
  let '(c, r) := extend k (circuit b) in
  st_mod (λ b, mkBuilder (hops b) c (bstate b)) ;;;
  st_lift (map_err (λ _, Other "circuit extend rejected") r) ;;;
  if bool_decide (hop_count c = zlen (hops b))
  then st_mod (λ b, mkBuilder (hops b) (circuit b) Ready)
  else st_ret tt.

Definition record_hop_failure (hop_idx : Z) (e : BuilderError)
  : stm CircuitBuilder BuilderError unit :=
  record_guard hop_idx ;;;
  st_mod (λ b, mkBuilder (hops b) (circuit b) (Failed hop_idx e)).

Definition into_circuit (b : CircuitBuilder) : result BuilderError Circuit :=
  match bstate b with
  | Ready => Ok (circuit b)
  | Failed _ e => Err e
  | Pending => Err (Other "builder still pending")
  end.

Definition hops_to_tear_down (b : CircuitBuilder) : list HopSpec :=
  match bstate b with
  | Failed i _ => take (Z.to_nat i) (hops b)
  | _ => []
  end.

Definition abort (reason : BuilderError) (b : CircuitBuilder) : CircuitBuilder :=
  match bstate b with
  | Failed _ _ | Ready => b
  | Pending => mkBuilder (hops b) (circuit b) (Failed (hop_count (circuit b)) reason)
  end.

(** ** Counters *)

Lemma bump_all_ok s s' : bump_all s = (s', true) →
  s' = map (λ x, x + 1) s ∧ Forall (λ x, x + 1 ≤ u64_max) s.
Proof.
  revert s'. induction s as [|x s IH]; intros s' H; simpl in H; [by simplify_eq|].
  unfold checked_add_u64 in H. case_bool_decide; [|done].
  destruct (bump_all s) as [r ok] eqn:E. simplify_eq.
  destruct (IH _ eq_refl) as [-> HF]. split; [done|by constructor].
Qed.

Lemma bump_all_total s : Forall (λ x, x + 1 ≤ u64_max) s → bump_all s = (map (λ x, x + 1) s, true).
Proof.
  induction 1 as [|x s Hx HF IH]; simpl; [done|].
  unfold checked_add_u64. by rewrite bool_decide_true, IH by done.
Qed.

(** A front hop has peeled every cell that the hops behind it have. *)
Fixpoint descending (s : list Z) : Prop :=
  match s with
  | [] => True
  | x :: rest => Forall (λ y, y ≤ x) rest ∧ descending rest
  end.

Lemma descending_snoc s : Forall (λ x, 0 ≤ x) s → descending s → descending (s ++ [0]).
Proof.
  induction s as [|x s IH]; simpl; [by repeat constructor|].
  intros Hp [HF HD]. apply Forall_cons_1 in Hp as [Hx Hp]. split; [|auto].
  apply Forall_app. split; [done|by repeat constructor].
Qed.

Lemma descending_bump s : descending s → descending (map (λ x, x + 1) s).
Proof.
  induction s as [|x s IH]; simpl; [done|]. intros [HF HD]. split; [|auto].
  apply Forall_fmap. eapply Forall_impl; [exact HF|]. intros y Hy. unfold compose. cbn beta in *. lia.
Qed.

(** So the loop over the counters never stops half-way. *)
Lemma bump_all_atomic s s' : descending s → bump_all s = (s', false) → s' = s.
Proof.
  destruct s as [|x s]; [done|]. intros [HF _]. simpl. unfold checked_add_u64.
  goal_decide as E; [|by intros [= <-]].
  rewrite bump_all_total; [done|]. eapply Forall_impl; [exact HF|]. intros y Hy. cbn beta in *. lia.
Qed.

(** ** The circuit invariant *)
Record circuit_inv (c : Circuit) : Prop := {
  ci_rev : length (c_reverse c) = length (c_forward c);
  ci_c2h : length (c2h_seq c) = length (c_forward c);
  ci_h2c : length (h2c_seq c) = length (c_forward c);
  ci_cap : zlen (c_forward c) ≤ MAX_CIRCUIT_HOPS;
  ci_c2h_range : Forall in_u64 (c2h_seq c);
  ci_h2c_range : Forall in_u64 (h2c_seq c);
  ci_c2h_desc : descending (c2h_seq c);
  ci_h2c_desc : descending (h2c_seq c);
  ci_epoch : c_epoch c = 0;
}.

Lemma in_u64_bump s : Forall in_u64 s → Forall (λ x, x + 1 ≤ u64_max) s →
  Forall in_u64 (map (λ x, x + 1) s).
Proof.
  intros H1 H2. apply Forall_fmap. rewrite Forall_forall in *. intros x Hx.
  specialize (H1 x Hx). specialize (H2 x Hx). unfold in_u64, compose in *. cbn beta in *. lia.
Qed.

Lemma circuit_new_inv : circuit_inv Circuit_new.
Proof. split; done. Qed.

Lemma extend_outcome k c c' r : extend k c = (c', r) →
  (∃ e, r = Err e ∧ c' = c)
  ∨ (r = Ok tt ∧ destroyed c = false ∧ zlen (c_forward c) < MAX_CIRCUIT_HOPS
     ∧ c' = mkCircuit (c_forward c ++ [forward k]) (c_reverse c ++ [reverse k])
              (c2h_seq c ++ [0]) (h2c_seq c ++ [0]) (c_epoch c) false).
Proof.
  unfold extend, st_bind, st_get, st_err, st_mod. intros H.
  destruct (destroyed c) eqn:Ed; [simplify_eq; eauto|].
  case_bool_decide; simplify_eq; [eauto|right]. split_and!; try done; [lia|].
  destruct c; simpl in *; by subst.
Qed.

Lemma in_u64_nonneg s : Forall in_u64 s → Forall (λ x, 0 ≤ x) s.
Proof. intros H. eapply Forall_impl; [exact H|]. intros x [? ?]. done. Qed.

Lemma in_u64_0 : in_u64 0.
Proof. unfold in_u64, u64_max. lia. Qed.

Lemma extend_inv k c : circuit_inv c → circuit_inv (extend k c).1.
Proof.
  intros [H1 H2 H3 H4 H5 H6 H7 H8 H9]. destruct (extend k c) as [c' r] eqn:E.
  apply extend_outcome in E as [(e & -> & ->)|(-> & Hd & Hlt & ->)]; [by split|].
  split; simpl; rewrite ?length_app, ?zlen_app; simpl; try lia; try done.
  - change (zlen [forward k]) with 1. lia.
  - apply Forall_app. split; [done|]. constructor; [apply in_u64_0|constructor].
  - apply Forall_app. split; [done|]. constructor; [apply in_u64_0|constructor].
  - by apply descending_snoc; [apply in_u64_nonneg|].
  - by apply descending_snoc; [apply in_u64_nonneg|].
Qed.

Section circuit_facts.
Context {CC : CircuitCrypto}.

(** What [relay_seal] does: it fails and changes nothing, or it releases the
    payload sealed with the current counters and advances all of them. *)
Lemma relay_seal_outcome p c c' r : circuit_inv c → relay_seal p c = (c', r) →
  (∃ e, r = Err e ∧ c' = c)
  ∨ (∃ ct, r = Ok ct ∧ destroyed c = false ∧ c_forward c ≠ []
     ∧ seal_hops (c_forward c) (c2h_seq c) (c_epoch c) p = Ok ct
     ∧ Forall (λ x, x + 1 ≤ u64_max) (c2h_seq c)
     ∧ c' = set_c2h (map (λ x, x + 1) (c2h_seq c)) c).
Proof.
  intros I. unfold relay_seal, st_bind, st_get, st_lift, st_mod, st_ret, st_err. intros H.
  destruct (destroyed c) eqn:Ed; [simplify_eq; eauto|].
  case_bool_decide as En; [simplify_eq; eauto|].
  destruct (seal_hops _ _ _ _) as [ct|e] eqn:Es; cbn [map_err] in H; [|simplify_eq; eauto].
  destruct (bump_all (c2h_seq c)) as [s [|]] eqn:Eb; simplify_eq.
  - apply bump_all_ok in Eb as [-> HF]. right. exists ct. done.
  - apply bump_all_atomic in Eb as ->; [|by destruct I]. left.
    exists SeqExhausted. split; [done|]. by destruct c.
Qed.

Lemma relay_open_outcome p c c' r : circuit_inv c → relay_open p c = (c', r) →
  (∃ e, r = Err e ∧ c' = c)
  ∨ (∃ pt, r = Ok pt ∧ destroyed c = false ∧ c_reverse c ≠ []
     ∧ open_hops (c_reverse c) (h2c_seq c) (c_epoch c) p = Ok pt
     ∧ Forall (λ x, x + 1 ≤ u64_max) (h2c_seq c)
     ∧ c' = set_h2c (map (λ x, x + 1) (h2c_seq c)) c).
Proof.
  intros I. unfold relay_open, st_bind, st_get, st_lift, st_mod, st_ret, st_err. intros H.
  destruct (destroyed c) eqn:Ed; [simplify_eq; eauto|].
  case_bool_decide as En; [simplify_eq; eauto|].
  destruct (open_hops _ _ _ _) as [ct|e] eqn:Es; cbn [map_err] in H; [|simplify_eq; eauto].
  destruct (bump_all (h2c_seq c)) as [s [|]] eqn:Eb; simplify_eq.
  - apply bump_all_ok in Eb as [-> HF]. right. exists ct. done.
  - apply bump_all_atomic in Eb as ->; [|by destruct I]. left.
    exists SeqExhausted. split; [done|]. by destruct c.
Qed.

Lemma relay_seal_inv p c : circuit_inv c → circuit_inv (relay_seal p c).1.
Proof.
  intros I. destruct (relay_seal p c) as [c' r] eqn:E.
  apply relay_seal_outcome in E as [(e & -> & ->)|(ct & -> & Hd & Hn & _ & HF & ->)]; [done| |done].
  destruct I as [H1 H2 H3 H4 H5 H6 H7 H8 H9].
  split; simpl; rewrite ?length_map; try done; [by apply in_u64_bump|by apply descending_bump].
Qed.

Lemma relay_open_inv p c : circuit_inv c → circuit_inv (relay_open p c).1.
Proof.
  intros I. destruct (relay_open p c) as [c' r] eqn:E.
  apply relay_open_outcome in E as [(e & -> & ->)|(ct & -> & Hd & Hn & _ & HF & ->)]; [done| |done].
  destruct I as [H1 H2 H3 H4 H5 H6 H7 H8 H9].
  split; simpl; rewrite ?length_map; try done; [by apply in_u64_bump|by apply descending_bump].
Qed.

Lemma destroy_inv c : circuit_inv c → circuit_inv (destroy c).
Proof. intros []. by split. Qed.

Lemma padding_encodes : RelaySubCell_encode (mkSub CMD_PADDING []) = Ok [x0a; x00; x00].
Proof. reflexivity. Qed.

End circuit_facts.

(** ** Nonces of the released cells *)

(** Everything a caller can do with a circuit. *)
Inductive CircuitOp : Set :=
| COExtend (k : HopKeys)
| COSeal (plaintext : list byte)
| COPad
| COOpen (ciphertext : list byte)
| CODestroy.

Definition op_typed (op : CircuitOp) : Prop :=
  match op with COExtend k => keys_wf k | _ => True end.

Section nonces.
Context {CC : CircuitCrypto}.

(** A cell under its layers: each layer is the output of the AEAD under the hop's
    key and the hop's nonce, the last hop's innermost. *)
Fixpoint layered (ls : list OnionLayer) (ns : list (list byte)) (p ct : list byte) : Prop :=
  match ls, ns with
  | [], [] => ct = p
  | l :: ls, n :: ns => ∃ a inner, layered ls ns p inner ∧ aead_encrypt (key l) n a inner = Some ct
  | _, _ => False
  end.

(** The hops and the nonces the next cell of a circuit is to be sealed under. *)
Definition used_nonces (c : Circuit) : list (nat * list byte) :=
  imap (λ i '(l, s), (i, nonce (iv l) DIR_CLIENT_TO_HOP (c_epoch c) s))
       (zip (c_forward c) (c2h_seq c)).

(** The circuit after an operation, and the cell it released. *)
Definition circuit_exec (op : CircuitOp) (c : Circuit) : Circuit * option (list byte) :=
  let released (x : Circuit * result CircuitError (list byte)) :=
    match x with (c', Ok ct) => (c', Some ct) | (c', Err _) => (c', None) end in
  match op with
  | COExtend k => ((extend k c).1, None)
  | COSeal p => released (relay_seal p c)
  | COPad => released (build_padding_payload c)
  | COOpen ct => ((relay_open ct c).1, None)
  | CODestroy => (destroy c, None)
  end.

(** The cells released, each with the circuit that released it. *)
Fixpoint cells_out (ops : list CircuitOp) (c : Circuit) : list (Circuit * list byte) :=
  match ops with
  | [] => []
  | op :: ops =>
    let '(c', r) := circuit_exec op c in
    match r with Some ct => (c, ct) :: cells_out ops c' | None => cells_out ops c' end
  end.

Definition circuit_log (ops : list CircuitOp) (c : Circuit) : list (nat * list byte) :=
  cells_out ops c ≫= used_nonces ∘ fst.

Definition layers_typed (c : Circuit) : Prop := Forall (λ l, length (iv l) = 12%nat) (c_forward c).

(** A nonce that hop [i] of [c] has not used yet. *)
Definition later (c : Circuit) (x : nat * list byte) : Prop :=
  ∀ l s, c_forward c !! x.1 = Some l → c2h_seq c !! x.1 = Some s →
  ∃ s', s ≤ s' ≤ u64_max ∧ x.2 = nonce (iv l) DIR_CLIENT_TO_HOP 0 s'.

Lemma used_nonces_elem c i n : c_epoch c = 0 → (i, n) ∈ used_nonces c →
  ∃ l s, c_forward c !! i = Some l ∧ c2h_seq c !! i = Some s
         ∧ n = nonce (iv l) DIR_CLIENT_TO_HOP 0 s.
Proof.
  intros He H. apply list_elem_of_lookup in H as [j H]. unfold used_nonces in H.
  rewrite list_lookup_imap in H. destruct (zip _ _ !! j) as [[l s]|] eqn:E; [|done].
  simpl in H. simplify_eq. apply lookup_zip_with_Some in E as (l' & s' & [= -> ->] & E1 & E2).
  rewrite He. eauto.
Qed.

Lemma used_nonces_NoDup c : NoDup (used_nonces c).
Proof.
  apply NoDup_alt. intros i j x Hi Hj. unfold used_nonces in *. rewrite list_lookup_imap in *.
  destruct (zip _ _ !! i) as [[? ?]|]; [|done]. destruct (zip _ _ !! j) as [[? ?]|]; [|done].
  simpl in *. by simplify_eq.
Qed.

Lemma seal_hops_layered ls ss e p ct : length ss = length ls → seal_hops ls ss e p = Ok ct →
  layered ls (zip_with (λ l s, nonce (iv l) DIR_CLIENT_TO_HOP e s) ls ss) p ct.
Proof.
  revert ss ct. induction ls as [|l ls IH]; intros [|s ss] ct Hl; try done; cbn [seal_hops zip_with layered].
  { by intros <-%Ok_inj. }
  destruct (seal_hops ls ss e p) as [inner|] eqn:E; [|done]. unfold onion_seal.
  rewrite bool_decide_false by done. case_bool_decide; [done|]. cbn [rev app seal_loop].
  destruct (aead_encrypt _ _ _ _) as [c|] eqn:Ea; cbn [ok_or]; [|done]. intros <-%Ok_inj.
  exists (aad DIR_CLIENT_TO_HOP e s), inner. split; [|done]. apply IH; [|done]. cbn in Hl. lia.
Qed.

Lemma used_nonces_snd c : (used_nonces c).*2
  = zip_with (λ l s, nonce (iv l) DIR_CLIENT_TO_HOP (c_epoch c) s) (c_forward c) (c2h_seq c).
Proof.
  unfold used_nonces. apply list_eq. intros i. rewrite list_lookup_fmap, list_lookup_imap, !lookup_zip_with.
  destruct (c_forward c !! i), (c2h_seq c !! i); done.
Qed.

(** What an operation releases, and how it moves the counters of the hops that
    are already there. *)
Lemma circuit_exec_counters op c c' r : circuit_inv c → circuit_exec op c = (c', r) →
  r = None ∨ (∃ ct p, r = Some ct ∧ layered (c_forward c) (used_nonces c).*2 p ct
             ∧ Forall (λ x, x + 1 ≤ u64_max) (c2h_seq c)
             ∧ c_forward c' = c_forward c ∧ c2h_seq c' = map (λ x, x + 1) (c2h_seq c)).
Proof.
  intros I. assert (∀ p c' r, (match relay_seal p c with
      (c', Ok ct) => (c', Some ct) | (c', Err _) => (c', None) end) = (c', r) →
    r = None ∨ (∃ ct p, r = Some ct ∧ layered (c_forward c) (used_nonces c).*2 p ct
             ∧ Forall (λ x, x + 1 ≤ u64_max) (c2h_seq c)
             ∧ c_forward c' = c_forward c ∧ c2h_seq c' = map (λ x, x + 1) (c2h_seq c))) as Hs.
  { intros p c1 n1 H. destruct (relay_seal p c) as [c2 r2] eqn:E.
    apply relay_seal_outcome in E as [(e & -> & ->)|(ct & -> & _ & _ & Hh & HF & ->)];
      simplify_eq; [by left|right|done]. exists ct, p. split_and!; try done.
    rewrite used_nonces_snd. apply seal_hops_layered; [by destruct I|done]. }
  destruct op as [k|p| |ct|]; cbn [circuit_exec]; intros H; simplify_eq; try by left.
  - eapply Hs; exact H.
  - unfold build_padding_payload in H. rewrite padding_encodes in H. eapply Hs; exact H.
Qed.

Lemma circuit_exec_inv op c : circuit_inv c → circuit_inv (circuit_exec op c).1.
Proof.
  intros I. destruct op as [k|p| |ct|]; cbn [circuit_exec].
  - by apply extend_inv.
  - pose proof (relay_seal_inv p c I). by destruct (relay_seal p c) as [? []].
  - unfold build_padding_payload. rewrite padding_encodes.
    pose proof (relay_seal_inv [x0a; x00; x00] c I). by destruct (relay_seal _ c) as [? []].
  - by apply relay_open_inv.
  - by apply destroy_inv.
Qed.

(** A nonce not used yet after an operation was not used yet before it, and
    the layers of the hops stay what they are. *)
Lemma circuit_exec_later op c x : circuit_inv c →
  later (circuit_exec op c).1 x → later c x.
Proof.
  intros I HL l s Hl Hs. assert (∃ s', c_forward (circuit_exec op c).1 !! x.1 = Some l
    ∧ c2h_seq (circuit_exec op c).1 !! x.1 = Some s' ∧ s ≤ s') as (s' & H1 & H2 & H3).
  { clear HL. assert (∀ p, ∃ s', c_forward (relay_seal p c).1 !! x.1 = Some l
      ∧ c2h_seq (relay_seal p c).1 !! x.1 = Some s' ∧ s ≤ s') as Hseal.
    { intros p. destruct (relay_seal p c) as [c' r] eqn:E.
      apply relay_seal_outcome in E as [(e & -> & ->)|(ct & -> & _ & _ & _ & HF & ->)]; [|simpl|done].
      - exists s. split_and!; [done|done|lia].
      - exists (s + 1). rewrite list_lookup_fmap, Hs. split_and!; [done|done|lia]. }
    destruct op as [k|p| |ct|]; cbn [circuit_exec].
    - destruct (extend k c) as [c' r] eqn:E. exists s.
      apply extend_outcome in E as [(e & -> & ->)|(-> & _ & _ & ->)]; simpl;
        [split_and!; [done|done|lia]|].
      rewrite !lookup_app, Hl, Hs. split_and!; [done|done|lia].
    - specialize (Hseal p). by destruct (relay_seal p c) as [? []].
    - unfold build_padding_payload. rewrite padding_encodes.
      specialize (Hseal [x0a; x00; x00]). by destruct (relay_seal _ c) as [? []].
    - destruct (relay_open ct c) as [c' r] eqn:E. exists s.
      apply relay_open_outcome in E as [(e & -> & ->)|(pt & -> & _ & _ & _ & _ & ->)]; [|simpl|done];
        (split_and!; [done|done|lia]).
    - exists s. split_and!; [done|done|lia]. }
  destruct (HL l s' H1 H2) as (s2 & Hr & Hn). exists s2. split; [lia|done].
Qed.

Lemma circuit_log_later ops c : circuit_inv c → Forall (later c) (circuit_log ops c).
Proof.
  unfold circuit_log. revert c. induction ops as [|op ops IH]; intros c I; cbn [cells_out]; [constructor|].
  pose proof (circuit_exec_inv op c I) as I'. pose proof (circuit_exec_later op c) as HL.
  destruct (circuit_exec op c) as [c' r] eqn:E. cbn [fst] in *.
  assert (Hrest : Forall (later c) (cells_out ops c' ≫= used_nonces ∘ fst)).
  { eapply Forall_impl; [by apply IH|]. intros. by apply HL. }
  apply circuit_exec_counters in E as [->|(ct & p & -> & _ & HF & _)]; [done| |done].
  cbn [mbind list_bind compose fst]. apply Forall_app. split; [|exact Hrest].
  apply Forall_forall. intros [i n] Hin. apply used_nonces_elem in Hin as (l & s & Hl & Hs & ->);
    [|by destruct I]. intros l' s' Hl' Hs'. simpl in *. simplify_eq. exists s. split; [|done].
  split; [lia|]. eapply Forall_lookup_1 in HF; [|exact Hs]. simpl in HF. lia.
Qed.

Lemma circuit_exec_typed op c : circuit_inv c → op_typed op → layers_typed c →
  layers_typed (circuit_exec op c).1.
Proof.
  unfold layers_typed. intros I Ho Ht.
  assert (∀ p, c_forward (relay_seal p c).1 = c_forward c) as Hs.
  { intros p. destruct (relay_seal p c) as [c' r] eqn:E.
    by apply relay_seal_outcome in E as [(e & -> & ->)|(ct & -> & _ & _ & _ & HF & ->)]. }
  destruct op as [k|p| |ct|]; cbn [circuit_exec].
  - destruct (extend k c) as [c' r] eqn:E.
    apply extend_outcome in E as [(e & -> & ->)|(-> & _ & _ & ->)]; [done|]. simpl.
    apply Forall_app. split; [done|]. constructor; [apply Ho|constructor].
  - specialize (Hs p). destruct (relay_seal p c) as [? []]; simpl in *; by rewrite Hs.
  - unfold build_padding_payload. rewrite padding_encodes.
    specialize (Hs [x0a; x00; x00]). destruct (relay_seal _ c) as [? []]; simpl in *; by rewrite Hs.
  - destruct (relay_open ct c) as [c' r] eqn:E.
    by apply relay_open_outcome in E as [(e & -> & ->)|(pt & -> & _ & _ & _ & _ & ->)].
  - done.
Qed.

Lemma circuit_log_NoDup ops c : circuit_inv c → layers_typed c → Forall op_typed ops →
  NoDup (circuit_log ops c).
Proof.
  unfold circuit_log. revert c. induction ops as [|op ops IH]; intros c I Ht Ho; cbn [cells_out]; [constructor|].
  apply Forall_cons_1 in Ho as [Hop Ho].
  pose proof (circuit_exec_inv op c I) as I'. pose proof (circuit_exec_typed op c I Hop Ht) as Ht'.
  destruct (circuit_exec op c) as [c' r] eqn:E. cbn [fst] in *.
  apply circuit_exec_counters in E as [->|(ct & p & -> & _ & HF & Hfw & Hsq)]; [by apply IH| |done].
  cbn [mbind list_bind compose fst]. apply NoDup_app. split_and!; [apply used_nonces_NoDup| |by apply IH].
  intros [i n] Hin Hlog. apply used_nonces_elem in Hin as (l & s & Hl & Hs & ->); [|by destruct I].
  eapply Forall_forall in Hlog; [|by apply (circuit_log_later ops)].
  destruct (Hlog l (s + 1)) as (s' & Hr & Hn); simpl; [by rewrite Hfw| |].
  { by rewrite Hsq, list_lookup_fmap, Hs. }
  eapply Forall_lookup_1 in Ht; [|exact Hl]. destruct I as [_ _ _ _ Hrange _ _ _ _].
  eapply Forall_lookup_1 in Hrange; [|exact Hs]. unfold in_u64 in Hrange.
  apply nonce_inj in Hn as (_ & _ & ?); [lia|done|..];
    first [done | (unfold in_u64; lia) | (unfold in_u32, u32_max; lia)].
Qed.

Lemma cells_layered ops c : circuit_inv c →
  Forall (λ r, ∃ p, layered (c_forward r.1) (used_nonces r.1).*2 p r.2) (cells_out ops c).
Proof.
  revert c. induction ops as [|op ops IH]; intros c I; cbn [cells_out]; [constructor|].
  pose proof (circuit_exec_inv op c I) as I'. destruct (circuit_exec op c) as [c' r] eqn:E. cbn [fst] in *.
  apply circuit_exec_counters in E as [->|(ct & p & -> & Hl & _)]; [by apply IH| |done].
  constructor; [by exists p|by apply IH].
Qed.

(** C31: Whatever a client does with a circuit, however hops are added between
    cells, every cell it releases consists of one AEAD layer per hop, each made
    with that hop's key and the nonce of that hop's counter, and no two of these
    layers, of one cell or of different cells, are for the same hop under the
    same nonce: no hop key ever encrypts two payloads under one nonce. The AEAD
    is arbitrary. *)
Theorem client_nonces_unique ops :
  Forall op_typed ops →
  Forall (λ r, ∃ p, layered (c_forward r.1) (used_nonces r.1).*2 p r.2) (cells_out ops Circuit_new)
  ∧ NoDup (cells_out ops Circuit_new ≫= used_nonces ∘ fst).
Proof.
  intros Ho. split; [apply cells_layered, circuit_new_inv|].
  apply circuit_log_NoDup; [apply circuit_new_inv|constructor|done].
Qed.

End nonces.

Lemma client_nonces_unique_witness :
  let ops := [COExtend (mkHopKeys (CircuitDemo.layer x01) (CircuitDemo.layer x02)); COSeal [xaa]; COPad;
     COExtend (mkHopKeys (CircuitDemo.layer x03) (CircuitDemo.layer x04)); COSeal [xbb]; COOpen [x00]] in
  length (cells_out (CC := CircuitDemo.crypto) ops Circuit_new) = 3%nat
  ∧ NoDup (cells_out (CC := CircuitDemo.crypto) ops Circuit_new ≫= used_nonces ∘ fst).
Proof.
  intros ops. split; [vm_compute; reflexivity|].
  apply (client_nonces_unique (CC := CircuitDemo.crypto) ops). repeat constructor.
Defined.

(** ** The builder's behaviour *)

(** The fresh circuit over hops with the given keys. *)
Definition circuit_of (ks : list HopKeys) : Circuit :=
  mkCircuit (map forward ks) (map reverse ks) (replicate (length ks) 0)
            (replicate (length ks) 0) 0 false.

Inductive BuilderOp : Set :=
| BBuilt (hop_idx : Z) (k : HopKeys)
| BFailure (hop_idx : Z) (e : BuilderError)
| BAbort (e : BuilderError).

Definition builder_exec (op : BuilderOp) (b : CircuitBuilder) : CircuitBuilder :=
  match op with
  | BBuilt i k => (record_hop_built i k b).1
  | BFailure i e => (record_hop_failure i e b).1
  | BAbort e => abort e b
  end.

(** The state of a builder that has recorded the hops of [ks]. *)
Definition builder_at (hs : list HopSpec) (ks : list HopKeys) (b : CircuitBuilder) : Prop :=
  hops b = hs ∧ circuit b = circuit_of ks ∧ 1 ≤ zlen hs ≤ MAX_CIRCUIT_HOPS ∧
  match bstate b with
  | Pending => zlen ks < zlen hs
  | Ready => zlen ks = zlen hs
  | Failed i _ => i = zlen ks ∧ zlen ks < zlen hs
  end.

Lemma hop_count_of ks : hop_count (circuit_of ks) = zlen ks.
Proof. unfold circuit_of, zlen. simpl. by rewrite length_map. Qed.

Lemma replicate_snoc {A} (n : nat) (x : A) : replicate n x ++ [x] = replicate (S n) x.
Proof. induction n as [|n IH]; simpl; [done|]. by f_equal. Qed.

Lemma extend_circuit_of ks k : zlen ks < MAX_CIRCUIT_HOPS →
  extend k (circuit_of ks) = (circuit_of (ks ++ [k]), Ok tt).
Proof.
  intros Hl. unfold extend, st_bind, st_get, st_mod. cbn [destroyed circuit_of c_forward].
  pose proof (hop_count_of ks) as Hc. cbn [c_forward circuit_of] in Hc.
  rewrite Hc, bool_decide_false by lia. f_equal. unfold circuit_of.
  cbn [c_forward c_reverse c2h_seq h2c_seq c_epoch destroyed].
  rewrite !map_app, !length_app, !replicate_snoc. simpl. by rewrite Nat.add_1_r.
Qed.

(** Recording a hop: exactly the next index is accepted. *)
Lemma record_hop_built_at hs ks b i k : builder_at hs ks b →
  (bstate b = Pending ∧ i = zlen ks
   ∧ ∃ b', record_hop_built i k b = (b', Ok tt) ∧ builder_at hs (ks ++ [k]) b'
     ∧ bstate b' = (if bool_decide (zlen ks + 1 = zlen hs) then Ready else Pending))
  ∨ ((bstate b ≠ Pending ∨ i ≠ zlen ks) ∧ ∃ e, record_hop_built i k b = (b, Err e)).
Proof.
  intros (Hh & Hc & Hr & Hst). unfold record_hop_built, record_guard, st_bind, st_get, st_mod, st_lift, st_err, st_ret.
  destruct (bstate b) eqn:Eb; cbn beta iota; [|right; split; [by left|eauto]..].
  rewrite Hc, hop_count_of. case_bool_decide as Ei; [right; split; [by right|eauto]|].
  left. subst i. split; [done|]. split; [done|].
  rewrite Hc, extend_circuit_of by lia. cbn [map_err]. rewrite hop_count_of, Hh, zlen_app.
  change (zlen [k]) with 1. unfold builder_at.
  case_bool_decide as El; eexists; (split; [reflexivity|]); cbn; rewrite zlen_app;
    change (zlen [k]) with 1; rewrite ?Eb; split_and!; try done; lia.
Qed.

Lemma builder_exec_at op hs ks b : builder_at hs ks b →
  ∃ ks', builder_at hs ks' (builder_exec op b) ∧ (ks' = ks ∨ ∃ k, ks' = ks ++ [k]).
Proof.
  intros Hb. destruct op as [i k|i e|e]; cbn [builder_exec].
  - destruct (record_hop_built_at hs ks b i k Hb) as [(_ & _ & b' & -> & Hb' & _)|(_ & e & ->)]; eauto.
  - exists ks. split; [|by left]. unfold record_hop_failure, record_guard, st_bind, st_get, st_mod, st_err, st_ret.
    destruct (bstate b) eqn:Eb; cbn; [|done..]. case_bool_decide as Ei; [done|].
    destruct Hb as (Hh & Hc & Hr & Hst). rewrite Eb in Hst.
    rewrite Hc, hop_count_of in Ei. split_and!; cbn; try done; lia.
  - exists ks. split; [|by left]. unfold abort. destruct (bstate b) eqn:Eb; [|done..].
    destruct Hb as (Hh & Hc & Hr & Hst). rewrite Eb in Hst.
    split_and!; cbn; try done; try lia. by rewrite Hc, hop_count_of.
Qed.

Lemma builder_new_at hs b : CircuitBuilder_new hs = Ok b → builder_at hs [] b.
Proof.
  unfold CircuitBuilder_new. intros H.
  destruct (bool_decide_reflect (hs = [])); [done|].
  destruct (bool_decide_reflect (zlen hs < 1)); [done|].
  destruct (bool_decide_reflect (zlen hs > MAX_CIRCUIT_HOPS)); [done|].
  injection H as <-. split_and!; cbn [hops circuit bstate]; [done|done|lia|lia|rewrite zlen_nil; lia].
Qed.

(** Whatever the runtime reports to a builder, in whatever order: asking for
    the next step never panics and names the hop after those built; the
    circuit handed out has exactly the requested number of hops; and after a
    failure or an abort the list of hops to tear down is exactly the hops that
    were built. *)
Theorem builder_run hs b0 ops :
  CircuitBuilder_new hs = Ok b0 →
  let b := foldl (λ b op, builder_exec op b) b0 ops in
  ∃ ks, circuit b = circuit_of ks ∧
    match next_step b with
    | None => False
    | Some (DialHop0 spec) => ks = [] ∧ hs !! 0%nat = Some spec
    | Some (Extend i spec n) => i = zlen ks ∧ n = zlen ks ∧ 0 < i ∧ hs !! length ks = Some spec
    | Some StepReady => into_circuit b = Ok (circuit_of ks) ∧ length ks = length hs
    | Some (StepFailed i e) =>
      into_circuit b = Err e ∧ hops_to_tear_down b = take (length ks) hs ∧ (length ks < length hs)%nat
    end.
Proof.
  intros Hnew b. assert (∃ ks, builder_at hs ks b) as [ks (Hh & Hc & Hr & Hst)].
  { unfold b. clear b. apply builder_new_at in Hnew. revert b0 Hnew. generalize (@nil HopKeys).
    induction ops as [|op ops IH]; intros ks b0 Hb; simpl; [eauto|].
    destruct (builder_exec_at op hs ks b0 Hb) as (ks' & Hb' & _). eauto. }
  exists ks. split; [done|]. unfold next_step, into_circuit, hops_to_tear_down.
  destruct (bstate b); rewrite ?Hc, ?hop_count_of, ?Hh.
  - unfold zlen. rewrite Nat2Z.id. destruct (lookup_lt_is_Some_2 hs (length ks)) as [spec Hs];
      [unfold zlen in Hst; lia|]. rewrite Hs. case_bool_decide as E.
    + destruct ks; [done|]. simpl in E. lia.
    + split_and!; [done|done|lia|done].
  - split; [done|]. unfold zlen in Hst. lia.
  - destruct Hst as [-> Hlt]. unfold zlen in *. rewrite Nat2Z.id. split_and!; [done|done|lia].
Qed.

Lemma builder_run_witness :
  let hs := [mkHopSpec [] (Ipv4 [] 1); mkHopSpec [] (Ipv4 [] 2)] in
  let k := mkHopKeys (CircuitDemo.layer x01) (CircuitDemo.layer x02) in
  let b := foldl (λ b op, builder_exec op b) (mkBuilder hs Circuit_new Pending)
             [BBuilt 1 k; BBuilt 0 k; BFailure 1 Timeout; BBuilt 1 k] in
  ∃ ks, circuit b = circuit_of ks ∧ hops_to_tear_down b = take (length ks) hs.
Proof.
  intros hs k b.
  destruct (builder_run hs (mkBuilder hs Circuit_new Pending)
     [BBuilt 1 k; BBuilt 0 k; BFailure 1 Timeout; BBuilt 1 k] eq_refl) as (ks & Hc & Hm).
  exists ks. split; [exact Hc|]. exact (proj1 (proj2 Hm)).
Defined.
