(* ===== verification/CircuitBridge.v ===== *)
(** * The bridge's circuits (crates/circuit/src/bridge_circuit.rs)

    [BridgeCircuitState]: the circuits of one previous-hop connection, with
    every operation that changes them, as fallible methods on [&mut self]: a
    mutation made before an early return stays. Times are nanoseconds of the
    monotonic clock. The order in which the hash map iterates is an argument of
    [tick]; the seed drawn from the operating system is an argument of [new]. *)

From stdpp Require Import base numbers list gmap strings.
From Stdlib Require Import ZArith Lia Strings.Byte.
From S2P Require Import Prelude Bytes SessionFrames CircuitOnion CircuitCell CircuitExtend CircuitClient.

(** ** Policy *)
Record BridgePolicy : Set := mkPolicy {
  max_circuits : Z;
  max_pending_handshakes : Z;
  idle_ttl : Z;
  creating_timeout : Z;
  extending_timeout : Z;
  pending_extend_timeout : Z;
}.

#[global] Instance BridgePolicy_eq_dec : EqDecision BridgePolicy.
Proof. solve_decision. Defined.

Abbreviation BridgePolicy_default := (mkPolicy 64 16 (secs (10 * 60)) (secs 15) (secs 30) (secs 10)) (only parsing).

(** ** Entries *)
Inductive CircuitEntryState : Set := Creating | Open | Extending | Destroyed.

#[global] Instance CircuitEntryState_eq_dec : EqDecision CircuitEntryState.
Proof. solve_decision. Defined.

Record PendingCreate : Set := mkPCreate {
  pc_total : Z;
  pc_accumulated : list byte;
  pc_started_at : Z;
}.

Record PendingCreated : Set := mkPCreated {
  pd_total : Z;
  pd_accumulated : list byte;
  pd_started_at : Z;
}.

Record PendingExtend : Set := mkPExtend {
  pe_next_hop_pk : list byte;
  pe_endpoint : HopEndpoint;
  pe_total : Z;
  pe_accumulated : list byte;
  pe_started_at : Z;
}.

Record CircuitEntry : Set := mkEntry {
  in_circ_id : Z;
  out_circ_id : option Z;
  estate : CircuitEntryState;
  prev_keys : option HopKeys;
  forward_seq : Z;
  reverse_seq : Z;
  state_entered : Z;
  last_activity : Z;
  pending_extend : option PendingExtend;
  pending_create : option PendingCreate;
  pending_created : option PendingCreated;
  token_verified : bool;
  extend_via_relay : bool;
}.

(** Field assignments. *)
Definition set_out_circ_id (x : option Z) (e : CircuitEntry) : CircuitEntry :=
  mkEntry (in_circ_id e) x (estate e) (prev_keys e) (forward_seq e) (reverse_seq e)
    (state_entered e) (last_activity e) (pending_extend e) (pending_create e) (pending_created
    e) (token_verified e) (extend_via_relay e).
Definition set_estate (x : CircuitEntryState) (e : CircuitEntry) : CircuitEntry :=
  mkEntry (in_circ_id e) (out_circ_id e) x (prev_keys e) (forward_seq e) (reverse_seq e)
    (state_entered e) (last_activity e) (pending_extend e) (pending_create e) (pending_created
    e) (token_verified e) (extend_via_relay e).
Definition set_prev_keys (x : option HopKeys) (e : CircuitEntry) : CircuitEntry :=
  mkEntry (in_circ_id e) (out_circ_id e) (estate e) x (forward_seq e) (reverse_seq e)
    (state_entered e) (last_activity e) (pending_extend e) (pending_create e) (pending_created
    e) (token_verified e) (extend_via_relay e).
Definition set_forward_seq (x : Z) (e : CircuitEntry) : CircuitEntry :=
  mkEntry (in_circ_id e) (out_circ_id e) (estate e) (prev_keys e) x (reverse_seq e)
    (state_entered e) (last_activity e) (pending_extend e) (pending_create e) (pending_created
    e) (token_verified e) (extend_via_relay e).
Definition set_reverse_seq (x : Z) (e : CircuitEntry) : CircuitEntry :=
  mkEntry (in_circ_id e) (out_circ_id e) (estate e) (prev_keys e) (forward_seq e) x
    (state_entered e) (last_activity e) (pending_extend e) (pending_create e) (pending_created
    e) (token_verified e) (extend_via_relay e).
Definition set_state_entered (x : Z) (e : CircuitEntry) : CircuitEntry :=
  mkEntry (in_circ_id e) (out_circ_id e) (estate e) (prev_keys e) (forward_seq e) (reverse_seq
    e) x (last_activity e) (pending_extend e) (pending_create e) (pending_created e)
    (token_verified e) (extend_via_relay e).
Definition set_last_activity (x : Z) (e : CircuitEntry) : CircuitEntry :=
  mkEntry (in_circ_id e) (out_circ_id e) (estate e) (prev_keys e) (forward_seq e) (reverse_seq
    e) (state_entered e) x (pending_extend e) (pending_create e) (pending_created e)
    (token_verified e) (extend_via_relay e).
Definition set_pending_extend (x : option PendingExtend) (e : CircuitEntry) : CircuitEntry :=
  mkEntry (in_circ_id e) (out_circ_id e) (estate e) (prev_keys e) (forward_seq e) (reverse_seq
    e) (state_entered e) (last_activity e) x (pending_create e) (pending_created e)
    (token_verified e) (extend_via_relay e).
Definition set_pending_create (x : option PendingCreate) (e : CircuitEntry) : CircuitEntry :=
  mkEntry (in_circ_id e) (out_circ_id e) (estate e) (prev_keys e) (forward_seq e) (reverse_seq
    e) (state_entered e) (last_activity e) (pending_extend e) x (pending_created e)
    (token_verified e) (extend_via_relay e).
Definition set_pending_created (x : option PendingCreated) (e : CircuitEntry) : CircuitEntry :=
  mkEntry (in_circ_id e) (out_circ_id e) (estate e) (prev_keys e) (forward_seq e) (reverse_seq
    e) (state_entered e) (last_activity e) (pending_extend e) (pending_create e) x
    (token_verified e) (extend_via_relay e).
Definition set_token_verified (x : bool) (e : CircuitEntry) : CircuitEntry :=
  mkEntry (in_circ_id e) (out_circ_id e) (estate e) (prev_keys e) (forward_seq e) (reverse_seq
    e) (state_entered e) (last_activity e) (pending_extend e) (pending_create e)
    (pending_created e) x (extend_via_relay e).
Definition set_extend_via_relay (x : bool) (e : CircuitEntry) : CircuitEntry :=
  mkEntry (in_circ_id e) (out_circ_id e) (estate e) (prev_keys e) (forward_seq e) (reverse_seq
    e) (state_entered e) (last_activity e) (pending_extend e) (pending_create e)
    (pending_created e) (token_verified e) x.

Inductive BridgeCircuitError : Set :=
| BadState (id : Z) (st : CircuitEntryState) (cmd : byte)
| CircuitCap (cap : Z)
| PendingCap (cap : Z)
| UnknownCircuit (id : Z)
| WrongState (id : Z) (st : CircuitEntryState)
| OutCircIdExhausted (tries : Z)
| CellErr (e : CellError)
| ExtendErr (e : ExtendError)
| OnionErr (e : OnionError)
| NoPrevKeys (id : Z)
| SeqExhausted (id : Z)
| ExtendOverflow (id : Z) (got expected : Z)
| Unauthorized (id : Z).

Inductive BridgeAction : Set :=
| PerformHandshake (in_id : Z) (hs_msg1 : list byte)
| SendToPrev (in_id : Z) (cell : Cell)
| OpenNextHop (in_id out_id : Z) (next_hop_pk : list byte) (ep : HopEndpoint) (hs_msg1 : list byte)
| SendToNext (out_id : Z) (cell : Cell)
| DestroyPrevLink (in_id : Z)
| DestroyNextLink (out_id : Z)
| RelayPayloadAtExit (in_id : Z) (payload : list byte)
| ForwardExtendFinishToNext (out_id : Z) (hs_msg3 : list byte)
| VerifyExtendFinish (in_id : Z) (hs_msg3 : list byte).

Record BridgeCircuitState : Type := mkBridge {
  circuits : gmap Z CircuitEntry;
  out_to_in : gmap Z Z;
  policy : BridgePolicy;
  out_circ_id_picker : Z → Z;
  out_circ_id_seq : Z;
  relay_mode : bool;
}.

Definition set_circuits (m : gmap Z CircuitEntry) (s : BridgeCircuitState) : BridgeCircuitState :=
  mkBridge m (out_to_in s) (policy s) (out_circ_id_picker s) (out_circ_id_seq s) (relay_mode s).
Definition set_out_to_in (m : gmap Z Z) (s : BridgeCircuitState) : BridgeCircuitState :=
  mkBridge (circuits s) m (policy s) (out_circ_id_picker s) (out_circ_id_seq s) (relay_mode s).
Definition set_seq (n : Z) (s : BridgeCircuitState) : BridgeCircuitState :=
  mkBridge (circuits s) (out_to_in s) (policy s) (out_circ_id_picker s) n (relay_mode s).

Abbreviation bridge := (stm BridgeCircuitState BridgeCircuitError).

(** ** Identifier pickers *)
Definition u64_wrap (z : Z) : Z := z `mod` (u64_max + 1).

Definition deterministic_out_circ_id_picker (seq : Z) : Z :=
  let mix := u64_wrap (seq * 11400714819323198485) in
  let top := wrap_u32 (Z.shiftr mix 32) in
  if bool_decide (top = 0) then 1 else top.

Abbreviation sequential_out_circ_id_picker := (λ seq : Z, Z.max (wrapping_add_u32 (wrap_u32 seq) 1) 1) (only parsing).

(** [rng] is the answer of the generator to a request for eight bytes. *)
Definition random_seq_seed (rng : option (list byte)) : Z :=
  match rng with
  | Some b => be_val (rev b)
  | None => 0
  end.

(** ** Construction and observers *)
Definition BridgeCircuitState_new (p : BridgePolicy) (rng : option (list byte)) : BridgeCircuitState :=
  mkBridge ∅ ∅ p deterministic_out_circ_id_picker (random_seq_seed rng) false.

Definition set_relay_mode (m : bool) (s : BridgeCircuitState) : BridgeCircuitState :=
  mkBridge (circuits s) (out_to_in s) (policy s) (out_circ_id_picker s) (out_circ_id_seq s) m.

Definition new_relay (p : BridgePolicy) (rng : option (list byte)) : BridgeCircuitState :=
  set_relay_mode true (BridgeCircuitState_new p rng).

Definition set_out_circ_id_picker (f : Z → Z) (s : BridgeCircuitState) : BridgeCircuitState :=
  mkBridge (circuits s) (out_to_in s) (policy s) f 0 (relay_mode s).

(** ** Helpers *)

(** [self.circuits.get_mut(&id).ok_or(UnknownCircuit(id))?] *)
Definition get_entry (id : Z) : bridge CircuitEntry :=
  s <- st_get ;;
  st_lift (ok_or (circuits s !! id) (UnknownCircuit id)).

(** Assignments through the borrowed entry. *)
Definition modify_entry (id : Z) (f : CircuitEntry → CircuitEntry) : bridge unit :=
  st_mod (λ s, set_circuits (alter f id (circuits s)) s).

Abbreviation is_pending e := (match estate e with Creating | Extending => true | _ => false end) (only parsing).

Definition pending_count (s : BridgeCircuitState) : Z :=
  wrap_u32 (Z.of_nat (size (filter (λ p, is_pending p.2 = true) (circuits s)))).

(** The loop of [allocate_out_circ_id]. *)
Fixpoint allocate_loop (tries : nat) : bridge Z :=
  match tries with
  | O => st_err (OutCircIdExhausted 256)
  | S tries =>
    st_mod (λ s, set_seq (u64_wrap (out_circ_id_seq s + 1)) s) ;;;
    s <- st_get ;;
    let candidate := out_circ_id_picker s (out_circ_id_seq s) in
    if bool_decide (candidate = 0) then allocate_loop tries
    else match out_to_in s !! candidate with
         | None => st_ret candidate
         | Some _ => allocate_loop tries
         end
  end.

Definition allocate_out_circ_id : bridge Z := allocate_loop 256.

(** [Cell::new(id, cmd, body)?] as the cell of a [SendToPrev]. *)
Definition to_prev (id : Z) (cmd : byte) (bd : list byte) : result BridgeCircuitError BridgeAction :=
  let? c := map_err CellErr (Cell_new id cmd bd) in Ok (SendToPrev id c).

(** The loop that pushes the continuation cells. *)
Fixpoint push_conts (id : Z) (cmd : byte) (bodies : list (list byte))
  : result BridgeCircuitError (list BridgeAction) :=
  match bodies with
  | [] => Ok []
  | bd :: rest =>
    let? a := to_prev id cmd bd in
    let? acts := push_conts id cmd rest in
    Ok (a :: acts)
  end.

(** The first cell and its continuations. *)
Definition push_flight (id : Z) (cmd cont : byte) (first : list byte) (conts : list (list byte))
  : result BridgeCircuitError (list BridgeAction) :=
  let? a := to_prev id cmd first in
  let? acts := push_conts id cont conts in
  Ok (a :: acts).

Section handlers.
Context {CC : CircuitCrypto}.

(** ** CREATE *)
Definition handle_create (id : Z) (bd : list byte) (now : Z) : bridge (list BridgeAction) :=
  s <- st_get ;;
  match circuits s !! id with
  | Some e => st_err (BadState id (estate e) CMD_CREATE)
  | None =>
    if bool_decide (wrap_u32 (Z.of_nat (size (circuits s))) >= max_circuits (policy s))
    then st_err (CircuitCap (max_circuits (policy s)))
    else if bool_decide (pending_count s >= max_pending_handshakes (policy s))
    then st_err (PendingCap (max_pending_handshakes (policy s)))
    else
      '(total_len, first_chunk) <- st_lift (map_err ExtendErr (HandshakeBody_decode_partial bd)) ;;
      let pending :=
        if bool_decide (zlen first_chunk < total_len)
        then Some (mkPCreate total_len first_chunk now) else None in
      let complete_now := match pending with None => true | Some _ => false end in
      st_mod (λ s, set_circuits
        (<[id := mkEntry id None Creating None 0 0 now now None pending None
                   (negb (relay_mode s)) false]> (circuits s)) s) ;;;
      if complete_now then st_ret [PerformHandshake id first_chunk] else st_ret []
  end.

Definition handle_create_cont (id : Z) (bd : list byte) (now : Z) : bridge (list BridgeAction) :=
  e <- get_entry id ;;
  if bool_decide (estate e ≠ Creating) then st_err (BadState id (estate e) CMD_CREATE_CONT)
  else
    modify_entry id (set_pending_create None) ;;;
    pending <- st_lift (ok_or (pending_create e) (BadState id (estate e) CMD_CREATE_CONT)) ;;
    let new_total := zlen (pc_accumulated pending) + zlen bd in
    if bool_decide (new_total > pc_total pending)
    then st_err (ExtendOverflow id new_total (pc_total pending))
    else
      let acc := pc_accumulated pending ++ bd in
      modify_entry id (set_last_activity now) ;;;
      if bool_decide (zlen acc = pc_total pending)
      then st_ret [PerformHandshake id acc]
      else
        modify_entry id (set_pending_create
          (Some (mkPCreate (pc_total pending) acc (pc_started_at pending)))) ;;;
        st_ret [].

(** ** EXTEND *)
Definition dispatch_pending_extend (id : Z) (pending : PendingExtend) (now : Z)
  : bridge (list BridgeAction) :=
  out <- allocate_out_circ_id ;;
  get_entry id ;;;
  modify_entry id (λ e, set_pending_extend None (set_out_circ_id (Some out)
    (set_last_activity now (set_state_entered now (set_estate Extending e))))) ;;;
  st_mod (λ s, set_out_to_in (<[out := id]> (out_to_in s)) s) ;;;
  st_ret [OpenNextHop id out (pe_next_hop_pk pending) (pe_endpoint pending)
            (pe_accumulated pending)].

Definition handle_extend (id : Z) (bd : list byte) (now : Z) (relayed : bool)
  : bridge (list BridgeAction) :=
  s <- st_get ;;
  e <- get_entry id ;;
  if bool_decide (estate e ≠ Open) then st_err (BadState id (estate e) CMD_EXTEND)
  else if relay_mode s && negb (token_verified e) then st_err (Unauthorized id)
  else if bool_decide (is_Some (out_circ_id e)) then st_err (BadState id (estate e) CMD_EXTEND)
  else if bool_decide (is_Some (pending_extend e)) then st_err (BadState id (estate e) CMD_EXTEND)
  else if bool_decide (pending_count s >= max_pending_handshakes (policy s))
  then st_err (PendingCap (max_pending_handshakes (policy s)))
  else
    '(header, first_chunk) <- st_lift (map_err ExtendErr (ExtendHeader_decode_partial bd)) ;;
    modify_entry id (λ e, set_last_activity now (set_extend_via_relay relayed e)) ;;;
    let pending := mkPExtend (eh_next_hop_pk header) (eh_endpoint header)
                     (total_hs_msg1_len header) first_chunk now in
    if bool_decide (zlen (pe_accumulated pending) = pe_total pending)
    then dispatch_pending_extend id pending now
    else modify_entry id (set_pending_extend (Some pending)) ;;; st_ret [].

Definition handle_extend_cont (id : Z) (bd : list byte) (now : Z) : bridge (list BridgeAction) :=
  e <- get_entry id ;;
  if bool_decide (estate e ≠ Open) then st_err (BadState id (estate e) CMD_EXTEND_CONT)
  else
    modify_entry id (set_pending_extend None) ;;;
    pending <- st_lift (ok_or (pending_extend e) (BadState id (estate e) CMD_EXTEND_CONT)) ;;
    let new_total := zlen (pe_accumulated pending) + zlen bd in
    if bool_decide (new_total > pe_total pending)
    then st_err (ExtendOverflow id new_total (pe_total pending))
    else
      let pending := mkPExtend (pe_next_hop_pk pending) (pe_endpoint pending) (pe_total pending)
                       (pe_accumulated pending ++ bd) (pe_started_at pending) in
      modify_entry id (set_last_activity now) ;;;
      if bool_decide (zlen (pe_accumulated pending) = pe_total pending)
      then dispatch_pending_extend id pending now
      else modify_entry id (set_pending_extend (Some pending)) ;;; st_ret [].

Definition handle_extend_finish (id : Z) (bd : list byte) (now : Z) : bridge (list BridgeAction) :=
  s <- st_get ;;
  e <- get_entry id ;;
  if bool_decide (estate e ≠ Open) then st_err (BadState id (estate e) CMD_EXTEND_FINISH)
  else
    hs_msg3 <- st_lift (map_err ExtendErr (ExtendFinishBody_decode bd)) ;;
    modify_entry id (set_last_activity now) ;;;
    match out_circ_id e with
    | Some out => st_ret [ForwardExtendFinishToNext out hs_msg3]
    | None =>
      if relay_mode s then st_ret [VerifyExtendFinish id hs_msg3]
      else st_err (BadState id (estate e) CMD_EXTEND_FINISH)
    end.

Definition record_token_verified (id : Z) : bridge unit :=
  get_entry id ;;;
  modify_entry id (set_token_verified true).

(** ** CREATED from the next hop, EXTENDED to the previous one *)

(** The loop that wraps each fragment as a reverse RELAY sub-cell. *)
Fixpoint emit_relayed (id : Z) (layer : OnionLayer) (inner : list (byte * list byte))
  : bridge (list BridgeAction) :=
  match inner with
  | [] => st_ret []
  | (cmd, bd) :: rest =>
    sub <- st_lift (map_err ExtendErr (RelaySubCell_encode (mkSub cmd bd))) ;;
    e <- get_entry id ;;
    sealed <- st_lift (map_err OnionErr (onion_seal [layer] sub DIR_HOP_TO_CLIENT 0 (reverse_seq e))) ;;
    seq <- st_lift (ok_or (checked_add_u64 (reverse_seq e) 1) (SeqExhausted id)) ;;
    modify_entry id (set_reverse_seq seq) ;;;
    a <- st_lift (to_prev id CMD_RELAY sealed) ;;
    acts <- emit_relayed id layer rest ;;
    st_ret (a :: acts)
  end.

Definition emit_extended (id : Z) (hs_msg2 : list byte) (now : Z) : bridge (list BridgeAction) :=
  e <- get_entry id ;;
  modify_entry id (λ e, set_pending_created None (set_last_activity now
    (set_state_entered now (set_estate Open e)))) ;;;
  if negb (extend_via_relay e)
  then
    '(first, conts) <- st_lift (map_err ExtendErr
                         (ExtendedBody_encode_fragmented hs_msg2 MAX_CELL_PAYLOAD)) ;;
    st_lift (push_flight id CMD_EXTENDED CMD_EXTENDED_CONT first conts)
  else
    keys <- st_lift (ok_or (prev_keys e) (NoPrevKeys id)) ;;
    let inner_max := saturating_sub MAX_CELL_PAYLOAD
                       (MAX_CIRCUIT_HOPS * 16 + RELAY_SUBCELL_HEADER_LEN) in
    '(first, conts) <- st_lift (map_err ExtendErr
                         (ExtendedBody_encode_fragmented hs_msg2 inner_max)) ;;
    emit_relayed id (reverse keys)
      ((CMD_EXTENDED, first) :: map (λ c, (CMD_EXTENDED_CONT, c)) conts).

Definition handle_created_from_next (id : Z) (bd : list byte) (now : Z)
  : bridge (list BridgeAction) :=
  '(total_len, first_chunk) <- st_lift (map_err ExtendErr (HandshakeBody_decode_partial bd)) ;;
  e <- get_entry id ;;
  if bool_decide (estate e ≠ Extending) then st_err (WrongState id (estate e))
  else
    modify_entry id (set_last_activity now) ;;;
    if bool_decide (zlen first_chunk < total_len)
    then modify_entry id (set_pending_created (Some (mkPCreated total_len first_chunk now))) ;;; st_ret []
    else emit_extended id first_chunk now.

Definition handle_created_cont_from_next (id : Z) (bd : list byte) (now : Z)
  : bridge (list BridgeAction) :=
  e <- get_entry id ;;
  if bool_decide (estate e ≠ Extending) then st_err (WrongState id (estate e))
  else
    modify_entry id (set_pending_created None) ;;;
    pending <- st_lift (ok_or (pending_created e) (WrongState id (estate e))) ;;
    let new_total := zlen (pd_accumulated pending) + zlen bd in
    if bool_decide (new_total > pd_total pending)
    then st_err (ExtendOverflow id new_total (pd_total pending))
    else
      let acc := pd_accumulated pending ++ bd in
      modify_entry id (set_last_activity now) ;;;
      if bool_decide (zlen acc = pd_total pending)
      then emit_extended id acc now
      else
        modify_entry id (set_pending_created
          (Some (mkPCreated (pd_total pending) acc (pd_started_at pending)))) ;;;
        st_ret [].

(** ** DESTROY *)
Definition handle_destroy_from_prev (id now : Z) (s : BridgeCircuitState)
  : BridgeCircuitState * list BridgeAction :=
  match circuits s !! id with
  | None => (s, [])
  | Some e =>
    let already_destroyed := bool_decide (estate e = Destroyed) in
    (set_circuits (<[id := set_state_entered now (set_estate Destroyed e)]> (circuits s)) s,
     if already_destroyed then []
     else match out_circ_id e with Some out => [DestroyNextLink out] | None => [] end
          ++ [DestroyPrevLink id])
  end.

Definition reap_circuit (id now : Z) (s : BridgeCircuitState)
  : BridgeCircuitState * list BridgeAction :=
  match circuits s !! id with
  | None => (s, [])
  | Some e =>
    let already_destroyed := bool_decide (estate e = Destroyed) in
    (set_circuits (<[id := set_state_entered now (set_estate Destroyed e)]> (circuits s)) s,
     if already_destroyed then []
     else match out_circ_id e with Some out => [DestroyNextLink out] | None => [] end
          ++ [DestroyPrevLink id])
  end.

Definition handle_destroy_from_next (id now : Z) (s : BridgeCircuitState)
  : BridgeCircuitState * list BridgeAction :=
  match circuits s !! id with
  | None => (s, [])
  | Some e =>
    let already_destroyed := bool_decide (estate e = Destroyed) in
    (set_circuits (<[id := set_state_entered now (set_estate Destroyed e)]> (circuits s)) s,
     if already_destroyed then [] else [DestroyPrevLink id])
  end.

(** An infallible method inside a fallible one: [Ok(self.m(..))]. *)
Definition st_total {A} (f : BridgeCircuitState → BridgeCircuitState * A) : bridge A :=
  λ s, let '(s', a) := f s in (s', Ok a).

(** ** RELAY *)

(** After the peel: control sub-cells are for this hop, everything else goes
    on to the next hop or out at the exit. *)
Definition relay_dispatch (id : Z) (out : option Z) (unauthorized : bool) (peeled : list byte)
  (now : Z) : bridge (list BridgeAction) :=
  let pass_on :=
    if unauthorized then st_err (Unauthorized id)
    else match out with
    | Some out =>
      new_cell <- st_lift (map_err CellErr (Cell_new out CMD_RELAY peeled)) ;;
      st_ret [SendToNext out new_cell]
    | None => st_ret [RelayPayloadAtExit id peeled]
    end in
  match RelaySubCell_decode peeled with
  | Err _ => pass_on
  | Ok sub =>
    match sub_command sub with
    | CMD_EXTEND => handle_extend id (sub_body sub) now true
    | CMD_EXTEND_CONT => handle_extend_cont id (sub_body sub) now
    | CMD_EXTEND_FINISH => handle_extend_finish id (sub_body sub) now
    | CMD_DESTROY => st_total (handle_destroy_from_prev id now)
    | CMD_PADDING => st_ret []
    | _ => pass_on
    end
  end.

Definition handle_relay_from_prev (id : Z) (bd : list byte) (now : Z) : bridge (list BridgeAction) :=
  s <- st_get ;;
  e <- get_entry id ;;
  if bool_decide (estate e ≠ Open) then st_err (BadState id (estate e) CMD_RELAY)
  else
    keys <- st_lift (ok_or (prev_keys e) (NoPrevKeys id)) ;;
    peeled <- st_lift (map_err OnionErr
                (onion_open [forward keys] bd DIR_CLIENT_TO_HOP 0 (forward_seq e))) ;;
    seq <- st_lift (ok_or (checked_add_u64 (forward_seq e) 1) (SeqExhausted id)) ;;
    modify_entry id (λ e, set_last_activity now (set_forward_seq seq e)) ;;;
    relay_dispatch id (out_circ_id e) (relay_mode s && negb (token_verified e)) peeled now.

Definition handle_relay_from_next (id : Z) (bd : list byte) (now : Z) : bridge (list BridgeAction) :=
  e <- get_entry id ;;
  if bool_decide (estate e ≠ Open) then st_err (BadState id (estate e) CMD_RELAY)
  else
    keys <- st_lift (ok_or (prev_keys e) (NoPrevKeys id)) ;;
    wrapped <- st_lift (map_err OnionErr
                 (onion_seal [reverse keys] bd DIR_HOP_TO_CLIENT 0 (reverse_seq e))) ;;
    seq <- st_lift (ok_or (checked_add_u64 (reverse_seq e) 1) (SeqExhausted id)) ;;
    modify_entry id (λ e, set_last_activity now (set_reverse_seq seq e)) ;;;
    a <- st_lift (to_prev id CMD_RELAY wrapped) ;;
    st_ret [a].

Definition inject_exit_response (id : Z) (payload : list byte) (now : Z)
  : bridge (list BridgeAction) :=
  handle_relay_from_next id payload now.

(** ** Cells from the two links *)
Definition process_inbound_from_prev (c : Cell) (now : Z) : bridge (list BridgeAction) :=
  let id := circ_id c in
  match command c with
  | CMD_CREATE => handle_create id (body c) now
  | CMD_CREATE_CONT => handle_create_cont id (body c) now
  | CMD_EXTEND => handle_extend id (body c) now false
  | CMD_EXTEND_CONT => handle_extend_cont id (body c) now
  | CMD_EXTEND_FINISH => handle_extend_finish id (body c) now
  | CMD_DESTROY => st_total (handle_destroy_from_prev id now)
  | CMD_RELAY => handle_relay_from_prev id (body c) now
  | other =>
    e <- get_entry id ;;
    st_err (BadState id (estate e) other)
  end.

Definition process_inbound_from_next (c : Cell) (now : Z) : bridge (list BridgeAction) :=
  s <- st_get ;;
  id <- st_lift (ok_or (out_to_in s !! circ_id c) (UnknownCircuit (circ_id c))) ;;
  match command c with
  | CMD_CREATED => handle_created_from_next id (body c) now
  | CMD_CREATED_CONT => handle_created_cont_from_next id (body c) now
  | CMD_DESTROY => st_total (handle_destroy_from_next id now)
  | CMD_RELAY => handle_relay_from_next id (body c) now
  | other =>
    e <- get_entry id ;;
    st_err (BadState id (estate e) other)
  end.

(** ** Completions *)
Definition record_create_complete (id : Z) (keys : HopKeys) (hs_msg2 : list byte) (now : Z)
  : bridge (list BridgeAction) :=
  e <- get_entry id ;;
  if bool_decide (estate e ≠ Creating) then st_err (WrongState id (estate e))
  else
    modify_entry id (λ e, set_prev_keys (Some keys) (set_last_activity now
      (set_state_entered now (set_estate Open e)))) ;;;
    '(first, conts) <- st_lift (map_err ExtendErr
                         (HandshakeBody_encode_fragmented hs_msg2 MAX_CELL_PAYLOAD)) ;;
    st_lift (push_flight id CMD_CREATED CMD_CREATED_CONT first conts).

Definition record_create_failure (id now : Z) : bridge (list BridgeAction) :=
  e <- get_entry id ;;
  if bool_decide (estate e ≠ Creating) then st_err (WrongState id (estate e))
  else
    modify_entry id (λ e, set_state_entered now (set_estate Destroyed e)) ;;;
    st_ret [DestroyPrevLink id].

Definition record_extend_complete (id : Z) (hs_msg2 : list byte) (now : Z)
  : bridge (list BridgeAction) :=
  e <- get_entry id ;;
  if bool_decide (estate e ≠ Extending) then st_err (WrongState id (estate e))
  else emit_extended id hs_msg2 now.

Definition record_extend_failure (id now : Z) : bridge (list BridgeAction) :=
  e <- get_entry id ;;
  if bool_decide (estate e ≠ Extending) then st_err (WrongState id (estate e))
  else
    modify_entry id (λ e, set_state_entered now (set_estate Destroyed e)) ;;;
    st_ret (DestroyPrevLink id ::
            match out_circ_id e with Some o => [DestroyNextLink o] | None => [] end).

End handlers.

(** ** The periodic sweep *)

Definition stuck (p : BridgePolicy) (now started_at : Z) : bool :=
  bool_decide (duration_since now started_at >= pending_extend_timeout p).

(** Whether the first loop of [tick] pushes the entry. *)
Definition tick_victim (p : BridgePolicy) (now : Z) (e : CircuitEntry) : bool :=
  let state_age := duration_since now (state_entered e) in
  let idle_age := duration_since now (last_activity e) in
  if match pending_extend e with Some x => stuck p now (pe_started_at x) | None => false end
  then true
  else if match pending_create e with Some x => stuck p now (pc_started_at x) | None => false end
  then true
  else if match pending_created e with Some x => stuck p now (pd_started_at x) | None => false end
  then true
  else match estate e with
  | Creating => bool_decide (state_age >= creating_timeout p)
  | Extending => bool_decide (state_age >= extending_timeout p)
  | Open => bool_decide (idle_age >= idle_ttl p)
  | Destroyed => true
  end.

(** The victims, in the map's iteration order. *)
Definition tick_victims (s : BridgeCircuitState) (now : Z) (order : list Z)
  : list (Z * CircuitEntryState) :=
  omap (λ id, e ← circuits s !! id;
              if tick_victim (policy s) now e then Some (id, estate e) else None) order.

(** One round of the second loop. *)
Definition tick_remove (v : Z * CircuitEntryState) (s : BridgeCircuitState)
  : BridgeCircuitState * list BridgeAction :=
  let '(id, st) := v in
  let live := bool_decide (st ≠ Destroyed) in
  let acts := if live then [DestroyPrevLink id] else [] in
  let '(s, more) :=
    match circuits s !! id ≫= out_circ_id with
    | Some out =>
      (set_out_to_in (delete out (out_to_in s)) s, if live then [DestroyNextLink out] else [])
    | None => (s, [])
    end in
  (set_circuits (delete id (circuits s)) s, acts ++ more).

Fixpoint tick_loop (vs : list (Z * CircuitEntryState)) (s : BridgeCircuitState)
  : BridgeCircuitState * list BridgeAction :=
  match vs with
  | [] => (s, [])
  | v :: vs =>
    let '(s, a) := tick_remove v s in
    let '(s, b) := tick_loop vs s in
    (s, a ++ b)
  end.

Definition tick (order : list Z) (now : Z) (s : BridgeCircuitState)
  : BridgeCircuitState * list BridgeAction :=
  tick_loop (tick_victims s now order) s.
