(* ===== verification/CircuitBridgeStep.v ===== *)
(** * What one bridge operation may do to a circuit

    [change] lists the ways an operation of [BridgeCircuitState] may change the
    entry of one circuit, with the actions it may emit; [stepped] is a state
    reached by one such change. Every handler is shown to take only such
    steps, so that the properties of the machine are proved once, on
    [change]. *)

From stdpp Require Import base numbers list gmap strings.
From Stdlib Require Import ZArith Lia Strings.Byte.
From S2P Require Import Prelude Bytes SessionFrames CircuitOnion CircuitCell CircuitExtend CircuitClient CircuitBridge.

(** ** One entry replaced *)
Definition upd (id : Z) (e : CircuitEntry) (s : BridgeCircuitState) : BridgeCircuitState :=
  set_circuits (<[id := e]> (circuits s)) s.

Lemma upd_upd id e e' s : upd id e' (upd id e s) = upd id e' s.
Proof. unfold upd, set_circuits. simpl. by rewrite insert_insert_eq. Qed.

Lemma lookup_upd id e s : circuits (upd id e s) !! id = Some e.
Proof. simpl. by rewrite lookup_insert_eq. Qed.

Lemma upd_id id e s : circuits s !! id = Some e → upd id e s = s.
Proof. intros H. unfold upd, set_circuits. rewrite insert_id by done. by destruct s. Qed.

Lemma get_entry_some id e s : circuits s !! id = Some e → get_entry id s = (s, Ok e).
Proof. intros H. unfold get_entry, st_bind, st_get, st_lift. by rewrite H. Qed.

Lemma get_entry_none id s : circuits s !! id = None → get_entry id s = (s, Err (UnknownCircuit id)).
Proof. intros H. unfold get_entry, st_bind, st_get, st_lift. by rewrite H. Qed.

Lemma modify_entry_some id f e s : circuits s !! id = Some e →
  modify_entry id f s = (upd id (f e) s, Ok tt).
Proof.
  intros H. unfold modify_entry, st_mod, upd. f_equal. f_equal.
  apply map_eq. intros k. destruct (decide (k = id)) as [->|].
  - by rewrite lookup_alter_eq, lookup_insert_eq, H.
  - by rewrite lookup_alter_ne, lookup_insert_ne by done.
Qed.

(** ** Monad steps *)
Lemma bind_ok {S E A B} (m : stm S E A) (k : A → stm S E B) s s' a :
  m s = (s', Ok a) → st_bind m k s = k a s'.
Proof. intros H. unfold st_bind. by rewrite H. Qed.

Lemma bind_err {S E A B} (m : stm S E A) (k : A → stm S E B) s s' e :
  m s = (s', Err e) → st_bind m k s = (s', Err e).
Proof. intros H. unfold st_bind. by rewrite H. Qed.

Lemma bind_get_entry {B} id e (k : CircuitEntry → bridge B) s :
  circuits s !! id = Some e → st_bind (get_entry id) k s = k e s.
Proof. intros H. by erewrite bind_ok by (by apply get_entry_some). Qed.

Lemma bind_modify {B} id e f (k : unit → bridge B) s :
  circuits s !! id = Some e → st_bind (modify_entry id f) k s = k tt (upd id (f e) s).
Proof. intros H. by erewrite bind_ok by (by apply modify_entry_some). Qed.

Lemma bind_lift_ok {S E A B} (a : A) (k : A → stm S E B) s :
  st_bind (st_lift (Ok a)) k s = k a s.
Proof. done. Qed.

(** ** Changes of one entry *)

(** On a relay session a circuit is usable once its token was verified. *)
Definition auth (relay : bool) (e : CircuitEntry) : Prop := relay = true → token_verified e = true.

(** What a reassembly buffer may become: dropped, kept, or continued with less
    than the declared total. *)
Inductive buffer_ok {P : Type} (total : P → Z) (acc : P → list byte) (cap : Z) (fresh : Prop)
  : option P → option P → Prop :=
| buf_drop o : buffer_ok total acc cap fresh o None
| buf_same o : buffer_ok total acc cap fresh o o
| buf_more p q : total q = total p → zlen (acc q) < total q →
    buffer_ok total acc cap fresh (Some p) (Some q)
| buf_new o q : fresh → zlen (acc q) < total q → total q ≤ cap →
    buffer_ok total acc cap fresh o (Some q).

(** The fields that stay, whatever the step. *)
Record stable (relay : bool) (e e' : CircuitEntry) : Prop := {
  sb_id : in_circ_id e' = in_circ_id e;
  sb_fwd : forward_seq e ≤ forward_seq e' ∧ (forward_seq e' = forward_seq e ∨ forward_seq e' ≤ u64_max);
  sb_rev : reverse_seq e ≤ reverse_seq e' ∧ (reverse_seq e' = reverse_seq e ∨ reverse_seq e' ≤ u64_max);
  sb_pext : buffer_ok pe_total pe_accumulated MAX_HS_MSG1_LEN
              (estate e = Open ∧ out_circ_id e = None ∧ auth relay e)
              (pending_extend e) (pending_extend e');
  sb_pcreate : buffer_ok pc_total pc_accumulated MAX_HANDSHAKE_BODY_LEN False
                 (pending_create e) (pending_create e');
  sb_pcreated : buffer_ok pd_total pd_accumulated MAX_HANDSHAKE_BODY_LEN (estate e = Extending)
                  (pending_created e) (pending_created e');
}.

(** Actions a step may emit while the circuit stays in its state. *)
Definition kept_action (relay : bool) (id : Z) (e : CircuitEntry) (a : BridgeAction) : Prop :=
  match a with
  | PerformHandshake i _ => i = id ∧ estate e = Creating
  | SendToPrev i c => i = id ∧ circ_id c = id ∧ estate e = Open ∧ command c = CMD_RELAY
  | SendToNext o c => circ_id c = o ∧ out_circ_id e = Some o ∧ estate e = Open ∧ auth relay e
                      ∧ command c = CMD_RELAY
  | RelayPayloadAtExit i _ => i = id ∧ out_circ_id e = None ∧ estate e = Open ∧ auth relay e
  | ForwardExtendFinishToNext o _ => out_circ_id e = Some o ∧ estate e = Open
  | VerifyExtendFinish i _ => i = id ∧ out_circ_id e = None ∧ estate e = Open ∧ relay = true
  | OpenNextHop _ _ _ _ _ | DestroyPrevLink _ | DestroyNextLink _ => False
  end.

Definition is_reply (id : Z) (a : BridgeAction) : Prop :=
  match a with SendToPrev i c => i = id ∧ circ_id c = id | _ => False end.

Inductive change (relay : bool) (id : Z) (e e' : CircuitEntry) : list BridgeAction → Prop :=
| ch_keep acts :
    estate e' = estate e → out_circ_id e' = out_circ_id e → prev_keys e' = prev_keys e →
    token_verified e' = token_verified e → Forall (kept_action relay id e) acts →
    change relay id e e' acts
| ch_created k acts :
    estate e = Creating → estate e' = Open → out_circ_id e' = out_circ_id e →
    prev_keys e' = Some k → token_verified e' = token_verified e →
    Forall (is_reply id) acts → change relay id e e' acts
| ch_extending out pk ep msg :
    estate e = Open → estate e' = Extending → auth relay e → out_circ_id e = None →
    out_circ_id e' = Some out → prev_keys e' = prev_keys e →
    token_verified e' = token_verified e → pending_extend e' = None →
    change relay id e e' [OpenNextHop id out pk ep msg]
| ch_extended acts :
    estate e = Extending → estate e' = Open → out_circ_id e' = out_circ_id e →
    prev_keys e' = prev_keys e → token_verified e' = token_verified e →
    Forall (is_reply id) acts → change relay id e e' acts
| ch_destroyed acts nx :
    estate e ≠ Destroyed → estate e' = Destroyed → out_circ_id e' = out_circ_id e →
    prev_keys e' = prev_keys e → token_verified e' = token_verified e →
    (nx = [] ∨ ∃ o, out_circ_id e = Some o ∧ nx = [DestroyNextLink o]) →
    (acts = nx ++ [DestroyPrevLink id] ∨ acts = DestroyPrevLink id :: nx) →
    change relay id e e' acts.

(** ** Steps of the state *)

(** The rest of the state: the identifier table grows exactly by the
    identifier a circuit was given. *)
Definition table_step (id : Z) (e e' : CircuitEntry) (s s' : BridgeCircuitState) : Prop :=
  (out_circ_id e' = out_circ_id e ∧ out_to_in s' = out_to_in s)
  ∨ (∃ out, out ≠ 0 ∧ out_to_in s !! out = None ∧ out_circ_id e = None
       ∧ out_circ_id e' = Some out ∧ out_to_in s' = <[out := id]> (out_to_in s)).

Record stepped (id : Z) (s s' : BridgeCircuitState) (acts : list BridgeAction) : Prop := {
  sp_policy : policy s' = policy s;
  sp_relay : relay_mode s' = relay_mode s;
  sp_picker : out_circ_id_picker s' = out_circ_id_picker s;
  sp_entry : ∃ e e', circuits s !! id = Some e ∧ circuits s' = <[id := e']> (circuits s)
    ∧ stable (relay_mode s) e e' ∧ change (relay_mode s) id e e' acts ∧ table_step id e e' s s';
}.

Definition acts_of (r : result BridgeCircuitError (list BridgeAction)) : list BridgeAction :=
  match r with Ok a => a | Err _ => [] end.

(** A handler leaves the state alone or takes one step. *)
Definition handled (id : Z) (s : BridgeCircuitState)
  (x : BridgeCircuitState * result BridgeCircuitError (list BridgeAction)) : Prop :=
  (x.1 = s ∧ acts_of x.2 = []) ∨ stepped id s x.1 (acts_of x.2).

(** ** Small facts *)
Lemma stable_refl relay e : stable relay e e.
Proof. split; try done; try apply buf_same; split; try lia; by left. Qed.

Lemma upd_stepped id e e' s acts :
  circuits s !! id = Some e → stable (relay_mode s) e e' → out_circ_id e' = out_circ_id e →
  change (relay_mode s) id e e' acts → stepped id s (upd id e' s) acts.
Proof.
  intros He Hs Ho Hc. split; try done. exists e, e'. split_and!; try done. by left.
Qed.

(** A quiet update: only counters, times and buffers. *)
Lemma upd_quiet id e e' s acts :
  circuits s !! id = Some e → stable (relay_mode s) e e' →
  estate e' = estate e → out_circ_id e' = out_circ_id e → prev_keys e' = prev_keys e →
  token_verified e' = token_verified e → Forall (kept_action (relay_mode s) id e) acts →
  stepped id s (upd id e' s) acts.
Proof. intros. eapply upd_stepped; eauto. by apply ch_keep. Qed.

(** ** Handlers *)

(** Discharges [stable] for updates that keep a buffer or drop it. *)
Ltac stable_tac :=
  split; cbn;
  first [ done
        | apply buf_same | apply buf_drop
        | (split; [lia | by left])
        | (split; [lia | right; lia])
        | idtac ].

Lemma handled_keep id s e : handled id s (s, Err e).
Proof. by left. Qed.

Lemma handled_step id s s' r : stepped id s s' (acts_of r) → handled id s (s', r).
Proof. by right. Qed.

(** The two ways a handler starts. *)
Lemma handled_get id s (k : CircuitEntry → bridge (list BridgeAction)) :
  (∀ e, circuits s !! id = Some e → handled id s (k e s)) →
  handled id s (st_bind (get_entry id) k s).
Proof.
  intros H. destruct (circuits s !! id) as [e|] eqn:He.
  - rewrite (bind_get_entry id e) by done. by apply H.
  - rewrite (bind_err _ _ s s (UnknownCircuit id)) by (by apply get_entry_none). apply handled_keep.
Qed.

Lemma handled_lift {A} id s (r : result BridgeCircuitError A) (k : A → bridge (list BridgeAction)) :
  (∀ a, r = Ok a → handled id s (k a s)) → handled id s (st_bind (st_lift r) k s).
Proof. intros H. destruct r as [a|e]; [by apply H|]. apply handled_keep. Qed.

Lemma handle_create_cont_handled id bd now s : handled id s (handle_create_cont id bd now s).
Proof.
  unfold handle_create_cont. apply handled_get. intros e He.
  case_bool_decide as Ec; [apply handled_keep|].
  rewrite (bind_modify id e) by done.
  destruct (pending_create e) as [p|] eqn:Ep; cbn [ok_or].
  2:{ apply handled_step. eapply upd_quiet; try done. stable_tac. }
  rewrite bind_lift_ok. case_bool_decide as Et.
  { apply handled_step. eapply upd_quiet; try done. stable_tac. }
  rewrite (bind_modify id _ _ _ _ (lookup_upd _ _ _)), upd_upd. case_bool_decide as Ef.
  - apply handled_step. eapply upd_quiet; try done; [stable_tac|]. by repeat constructor.
  - rewrite (bind_modify id _ _ _ _ (lookup_upd _ _ _)), upd_upd.
    apply handled_step. eapply upd_quiet; try done. stable_tac.
    rewrite Ep. apply buf_more; [done|]. cbn in *. rewrite zlen_app in *. lia.
Qed.

(** *** Composition of a quiet update with a step *)
Lemma buffer_trans {P} (total : P → Z) acc cap (F F' : Prop) o p q :
  (F' → F) → buffer_ok total acc cap F o p → buffer_ok total acc cap F' p q →
  buffer_ok total acc cap F o q.
Proof.
  intros HF H1 H2. destruct H2 as [p|p|p q Ht Hl|p q Hf Hl Hc].
  - apply buf_drop.
  - done.
  - inversion H1; subst; [by apply buf_more|apply buf_more; congruence|apply buf_new; congruence].
  - apply buf_new; auto.
Qed.

(** [e1] differs from [e] in counters, times and buffers only. *)
Record quiet (relay : bool) (e e1 : CircuitEntry) : Prop := {
  q_stable : stable relay e e1;
  q_state : estate e1 = estate e;
  q_out : out_circ_id e1 = out_circ_id e;
  q_keys : prev_keys e1 = prev_keys e;
  q_token : token_verified e1 = token_verified e;
}.

Lemma quiet_auth relay e e1 : quiet relay e e1 → auth relay e1 ↔ auth relay e.
Proof. intros [_ _ _ _ Ht]. unfold auth. by rewrite Ht. Qed.

Lemma stable_trans relay e e1 e2 : quiet relay e e1 → stable relay e1 e2 → stable relay e e2.
Proof.
  intros Q S. pose proof (quiet_auth _ _ _ Q) as HA. destruct Q as [[A1 A2 A3 A4 A5 A6] Hs Ho _ _].
  destruct S as [B1 B2 B3 B4 B5 B6]. split; try congruence; try lia.
  - eapply buffer_trans; [|exact A4|exact B4]. rewrite Hs, Ho, HA. done.
  - eapply buffer_trans; [|exact A5|exact B5]. done.
  - eapply buffer_trans; [|exact A6|exact B6]. by rewrite Hs.
Qed.

Lemma kept_quiet relay id e e1 a : quiet relay e e1 → kept_action relay id e1 a → kept_action relay id e a.
Proof.
  intros Q. pose proof (quiet_auth _ _ _ Q) as HA. destruct Q as [_ Hs Ho _ _].
  destruct a; simpl; rewrite ?Hs, ?Ho, ?HA; done.
Qed.

Lemma change_quiet relay id e e1 e2 acts :
  quiet relay e e1 → change relay id e1 e2 acts → change relay id e e2 acts.
Proof.
  intros Q C. pose proof (quiet_auth _ _ _ Q) as HA. pose proof Q as [_ Hs Ho Hk Ht].
  destruct C as [acts|k acts|out pk ep msg|acts|acts nx].
  - apply ch_keep; try congruence. eapply Forall_impl; [done|]. intros a. by apply kept_quiet.
  - eapply ch_created; try congruence; eauto.
  - apply ch_extending; try congruence. by apply HA.
  - apply ch_extended; try congruence; done.
  - apply (ch_destroyed relay id e e2 acts nx); try congruence. by rewrite <- Ho.
Qed.

Lemma handled_quiet id s e e1 x :
  circuits s !! id = Some e → quiet (relay_mode s) e e1 →
  handled id (upd id e1 s) x → handled id s x.
Proof.
  intros He Q [[Hx Ha]|H].
  - right. rewrite Hx, Ha. destruct Q. eapply upd_quiet; eauto.
  - right. destruct H as [Hp Hr Hk (e0 & e2 & H0 & Hc & HS & HC & HT)].
    rewrite lookup_upd in H0. injection H0 as <-. cbn in Hp, Hr, Hk, Hc, HS, HC.
    split; try done. exists e, e2. rewrite insert_insert_eq in Hc.
    split_and!; try done; [by eapply stable_trans|by eapply change_quiet|].
    destruct Q as [_ _ Ho _ _]. unfold table_step in *. cbn in HT. by rewrite <- Ho.
Qed.

Lemma handled_modify id s e f (k : unit → bridge (list BridgeAction)) :
  circuits s !! id = Some e → quiet (relay_mode s) e (f e) →
  handled id (upd id (f e) s) (k tt (upd id (f e) s)) →
  handled id s (st_bind (modify_entry id f) k s).
Proof. intros He Q H. rewrite (bind_modify id e) by done. by eapply handled_quiet. Qed.

Ltac quiet_tac := split; [stable_tac|done..].

(** *** Allocation of an outgoing identifier *)
Lemma allocate_loop_outcome n s s' r : allocate_loop n s = (s', r) →
  ∃ q, s' = set_seq q s ∧ match r with
    | Ok out => out ≠ 0 ∧ out_to_in s !! out = None
    | Err e => e = OutCircIdExhausted 256
    end.
Proof.
  revert s. induction n as [|n IH]; intros s H; cbn [allocate_loop] in H.
  { unfold st_err in H. injection H as <- <-. exists (out_circ_id_seq s). split; [by destruct s|done]. }
  unfold st_bind, st_mod, st_get in H. cbn in H.
  assert (∀ q q', set_seq q (set_seq q' s) = set_seq q s) as Hss by done.
  case_bool_decide as Ez.
  { apply IH in H as (q & -> & Hr). rewrite Hss in *. eauto. }
  destruct (out_to_in s !! _) eqn:El.
  { apply IH in H as (q & -> & Hr). rewrite Hss in *. eauto. }
  unfold st_ret in H. injection H as <- <-. eauto.
Qed.

Lemma dispatch_handled id pending now s e :
  circuits s !! id = Some e → estate e = Open → out_circ_id e = None → auth (relay_mode s) e →
  handled id s (dispatch_pending_extend id pending now s).
Proof.
  intros He Hs Ho Ha. unfold dispatch_pending_extend, allocate_out_circ_id.
  destruct (allocate_loop 256 s) as [s1 r] eqn:E. pose proof (allocate_loop_outcome _ _ _ _ E) as (q & -> & Hr).
  destruct r as [out|err].
  2:{ rewrite (bind_err _ _ _ _ _ E). right. cbn [acts_of fst snd]. split; try done.
      exists e, e. split_and!; [done|by rewrite insert_id|apply stable_refl|by apply ch_keep|by left]. }
  rewrite (bind_ok _ _ _ _ _ E). rewrite (bind_get_entry id e) by done.
  rewrite (bind_modify id e) by done. destruct Hr as [Hz Hn].
  right. split; try done. eexists e, _. split; [done|]. split; [reflexivity|].
  split; [stable_tac|]. split; [by apply ch_extending|].
  right. exists out. done.
Qed.

(** An unfinished EXTEND belongs to an authorised circuit without a next hop. *)
Definition ext_ok (relay : bool) (e : CircuitEntry) : Prop :=
  is_Some (pending_extend e) → out_circ_id e = None ∧ auth relay e.

Section handlers_step.
Context {CC : CircuitCrypto}.

Lemma handle_extend_handled id bd now relayed s : handled id s (handle_extend id bd now relayed s).
Proof.
  unfold handle_extend. unfold st_bind at 1, st_get. apply handled_get. intros e He.
  case_bool_decide as Eo; [apply handled_keep|].
  destruct (relay_mode s && negb (token_verified e)) eqn:Ea; [apply handled_keep|].
  case_bool_decide as En; [apply handled_keep|]. case_bool_decide as Ep; [apply handled_keep|].
  case_bool_decide; [apply handled_keep|].
  assert (out_circ_id e = None) as Hn by (by apply eq_None_not_Some).
  assert (auth (relay_mode s) e) as Ha.
  { intros Hr. rewrite Hr in Ea. by destruct (token_verified e). }
  apply handled_lift. intros [h chunk] Eh.
  eapply handled_modify; [done|quiet_tac|]. cbn beta iota zeta. cbn [pe_accumulated pe_total].
  assert (total_hs_msg1_len h ≤ MAX_HS_MSG1_LEN ∧ zlen chunk ≤ total_hs_msg1_len h) as [Hh1 Hh2].
  { unfold ExtendHeader_decode_partial in Eh. case_in Eh. simpl. lia. }
  case_bool_decide as Ef.
  - eapply dispatch_handled; [apply lookup_upd|done..].
  - eapply handled_modify; [apply lookup_upd| |].
    + split; [|done..]. stable_tac. apply buf_new; cbn; [done|lia|done].
    + by left.
Qed.

Lemma handle_extend_cont_handled id bd now s :
  (∀ e, circuits s !! id = Some e → ext_ok (relay_mode s) e) →
  handled id s (handle_extend_cont id bd now s).
Proof.
  intros Hok. unfold handle_extend_cont. apply handled_get. intros e He. specialize (Hok e He).
  case_bool_decide as Eo; [apply handled_keep|].
  destruct (pending_extend e) as [p|] eqn:Ep; cbn [ok_or].
  2:{ eapply handled_modify; [done|quiet_tac|]. apply handled_keep. }
  destruct Hok as [Hn Ha]; [by rewrite Ep|].
  rewrite (bind_modify id e) by done. rewrite bind_lift_ok. case_bool_decide as Et.
  { apply handled_step. eapply upd_quiet; try done. stable_tac. }
  rewrite (bind_modify id _ _ _ _ (lookup_upd _ _ _)), upd_upd. cbn [pe_accumulated pe_total].
  case_bool_decide as Ef.
  - eapply handled_quiet; [done| |eapply dispatch_handled; [apply lookup_upd|done..]]. quiet_tac.
  - rewrite (bind_modify id _ _ _ _ (lookup_upd _ _ _)), upd_upd.
    apply handled_step. eapply upd_quiet; try done. stable_tac.
    rewrite Ep. apply buf_more; [done|]. cbn in *. rewrite zlen_app in *. lia.
Qed.

Lemma handle_extend_finish_handled id bd now s : handled id s (handle_extend_finish id bd now s).
Proof.
  unfold handle_extend_finish. unfold st_bind at 1, st_get. apply handled_get. intros e He.
  case_bool_decide as Eo; [apply handled_keep|]. apply handled_lift. intros m _.
  rewrite (bind_modify id e) by done.
  destruct (out_circ_id e) as [o|] eqn:Eout; [|destruct (relay_mode s) eqn:Er];
    apply handled_step; (eapply upd_quiet; [done| |done..|]; [stable_tac|]); cbn [acts_of];
    repeat constructor; done.
Qed.

Lemma to_prev_reply id cmd bd a : to_prev id cmd bd = Ok a →
  is_reply id a ∧ ∃ c, a = SendToPrev id c ∧ command c = cmd ∧ body c = bd.
Proof.
  unfold to_prev. destruct (Cell_new id cmd bd) as [c|] eqn:E; cbn; [|done].
  intros [= <-]. apply Cell_new_ok in E as (-> & _). cbn. split; [done|]. eexists. done.
Qed.

Lemma push_conts_reply id cmd bodies acts : push_conts id cmd bodies = Ok acts →
  Forall (is_reply id) acts.
Proof.
  revert acts. induction bodies as [|bd rest IH]; intros acts H; cbn in H; [simplify_eq; constructor|].
  destruct (to_prev id cmd bd) as [a|] eqn:Ea; [|done]. destruct (push_conts id cmd rest); [|done].
  simplify_eq. constructor; [by eapply to_prev_reply|eauto].
Qed.

Lemma push_flight_reply id cmd cont first conts acts :
  push_flight id cmd cont first conts = Ok acts → Forall (is_reply id) acts.
Proof.
  unfold push_flight. destruct (to_prev id cmd first) as [a|] eqn:Ea; [|done].
  destruct (push_conts id cont conts) eqn:Ec; [|done]. intros [= <-].
  constructor; [by eapply to_prev_reply|by eapply push_conts_reply].
Qed.

Lemma checked_add_ok a b c : checked_add_u64 a b = Some c → c = a + b ∧ a + b ≤ u64_max.
Proof. unfold checked_add_u64. case_bool_decide; [|done]. intros [= <-]. done. Qed.

Lemma emit_relayed_outcome id layer inner s e s' r :
  circuits s !! id = Some e → emit_relayed id layer inner s = (s', r) →
  ∃ q, s' = upd id (set_reverse_seq q e) s ∧ reverse_seq e ≤ q ∧ (q = reverse_seq e ∨ q ≤ u64_max)
    ∧ Forall (is_reply id) (acts_of r).
Proof.
  revert s e s' r. induction inner as [|[cmd bd] rest IH]; intros s e s' r He H; cbn [emit_relayed] in H.
  { unfold st_ret in H. injection H as <- <-. exists (reverse_seq e).
    split_and!; [|lia|by left|constructor]. symmetry. rewrite upd_id; [done|]. by destruct e. }
  assert (∀ r', (s, Err r') = (s', r) → ∃ q, s' = upd id (set_reverse_seq q e) s ∧ reverse_seq e ≤ q
    ∧ (q = reverse_seq e ∨ q ≤ u64_max) ∧ Forall (is_reply id) (acts_of r)) as Hfail.
  { intros r' [= <- <-]. exists (reverse_seq e).
    split_and!; [|lia|by left|constructor]. symmetry. rewrite upd_id; [done|]. by destruct e. }
  destruct (RelaySubCell_encode _) as [sub|?]; [|eapply Hfail; exact H]. cbn [map_err] in H.
  rewrite bind_lift_ok, (bind_get_entry id e) in H by done.
  destruct (onion_seal _ _ _ _ _) as [ct|?]; [|eapply Hfail; exact H]. cbn [map_err] in H.
  rewrite bind_lift_ok in H.
  destruct (checked_add_u64 _ _) as [q|] eqn:Eq; [|eapply Hfail; exact H]. cbn [ok_or] in H.
  apply checked_add_ok in Eq as [-> Hmax]. rewrite bind_lift_ok, (bind_modify id e) in H by done.
  destruct (to_prev id CMD_RELAY ct) as [a|?] eqn:Ea.
  2:{ injection H as <- <-. eexists. split_and!; [reflexivity|lia|right; lia|constructor]. }
  rewrite bind_lift_ok in H. unfold st_bind in H.
  destruct (emit_relayed id layer rest _) as [s2 r2] eqn:E2.
  apply (IH _ _ _ _ (lookup_upd _ _ _)) in E2 as (q & -> & Hq & Hq2 & HF). rewrite upd_upd in *.
  exists q. destruct r2; unfold st_ret in H; injection H as <- <-; cbn in *.
  - split_and!; [done|lia|lia|]. constructor; [by eapply to_prev_reply|done].
  - split_and!; [done|lia|lia|constructor].
Qed.

Lemma emit_extended_handled id msg now s e :
  circuits s !! id = Some e → estate e = Extending → handled id s (emit_extended id msg now s).
Proof.
  intros He Hs. unfold emit_extended. rewrite (bind_get_entry id e) by done.
  rewrite (bind_modify id e) by done.
  set (e1 := set_pending_created _ _). right.
  assert (∀ q acts, reverse_seq e ≤ q → (q = reverse_seq e ∨ q ≤ u64_max) → Forall (is_reply id) acts →
    stepped id s (upd id (set_reverse_seq q e1) s) acts) as Hstep.
  { intros q acts H1 H2 H3. eapply upd_stepped; [done| |done|by apply ch_extended].
    subst e1. split; cbn; try done; try apply buf_same; try apply buf_drop. split; [lia|by left]. }
  assert (∀ acts, Forall (is_reply id) acts → stepped id s (upd id e1 s) acts) as Hstep0.
  { intros acts HF. apply (Hstep (reverse_seq e) acts); [lia|by left|done]. }
  destruct (negb _).
  - destruct (ExtendedBody_encode_fragmented _ _) as [[f cs]|?]; cbn; [|by apply Hstep0].
    apply Hstep0. destruct (push_flight _ _ _ _ _) eqn:E; [by eapply push_flight_reply|constructor].
  - destruct (prev_keys e) as [ks|]; cbn [ok_or]; [|by apply Hstep0]. rewrite bind_lift_ok.
    destruct (ExtendedBody_encode_fragmented _ _) as [[f cs]|?]; [|by apply Hstep0].
    cbn [map_err]. rewrite bind_lift_ok.
    destruct (emit_relayed _ _ _ _) as [s2 r2] eqn:E2.
    apply (emit_relayed_outcome _ _ _ _ _ _ _ (lookup_upd _ _ _)) in E2 as (q & -> & Hq & Hq2 & HF).
    rewrite upd_upd. by apply Hstep.
Qed.

Lemma handle_created_handled id bd now s : handled id s (handle_created_from_next id bd now s).
Proof.
  unfold handle_created_from_next. apply handled_lift. intros [total chunk] Eh.
  apply handled_get. intros e He. case_bool_decide as Es; [apply handled_keep|].
  assert (total ≤ MAX_HANDSHAKE_BODY_LEN) as Ht.
  { unfold HandshakeBody_decode_partial in Eh.
    destruct (bool_decide_reflect (zlen bd < 2)); [done|].
    case_bool_decide; [done|]. case_bool_decide; [done|]. cbn in Eh. simplify_eq. lia. }
  eapply handled_modify; [done|quiet_tac|]. case_bool_decide as Ef.
  - eapply handled_modify; [apply lookup_upd| |by left].
    split; [|done..]. stable_tac. by apply buf_new.
  - eapply emit_extended_handled; [apply lookup_upd|done].
Qed.

Lemma handle_created_cont_handled id bd now s :
  handled id s (handle_created_cont_from_next id bd now s).
Proof.
  unfold handle_created_cont_from_next. apply handled_get. intros e He.
  case_bool_decide as Ec; [apply handled_keep|].
  rewrite (bind_modify id e) by done.
  destruct (pending_created e) as [p|] eqn:Ep; cbn [ok_or].
  2:{ apply handled_step. eapply upd_quiet; try done. stable_tac. }
  rewrite bind_lift_ok. case_bool_decide as Et.
  { apply handled_step. eapply upd_quiet; try done. stable_tac. }
  rewrite (bind_modify id _ _ _ _ (lookup_upd _ _ _)), upd_upd. case_bool_decide as Ef.
  - eapply handled_quiet; [done| |eapply emit_extended_handled; [apply lookup_upd|done]]. quiet_tac.
  - rewrite (bind_modify id _ _ _ _ (lookup_upd _ _ _)), upd_upd.
    apply handled_step. eapply upd_quiet; try done. stable_tac.
    rewrite Ep. apply buf_more; [done|]. cbn in *. rewrite zlen_app in *. lia.
Qed.

(** *** Teardown *)
Lemma destroy_entry_stepped id now s e nx acts :
  circuits s !! id = Some e →
  (nx = [] ∨ ∃ o, out_circ_id e = Some o ∧ nx = [DestroyNextLink o]) →
  (estate e ≠ Destroyed → acts = nx ++ [DestroyPrevLink id] ∨ acts = DestroyPrevLink id :: nx) →
  (estate e = Destroyed → acts = []) →
  stepped id s (upd id (set_state_entered now (set_estate Destroyed e)) s) acts.
Proof.
  intros He Hnx Ha Hd. eapply upd_stepped; [done|stable_tac|done|].
  destruct (decide (estate e = Destroyed)) as [E|E].
  - rewrite Hd by done. by apply ch_keep.
  - eapply ch_destroyed; try done. by apply Ha.
Qed.

Lemma next_link (e : CircuitEntry) :
  let nx := match out_circ_id e with Some o => [DestroyNextLink o] | None => [] end in
  nx = [] ∨ ∃ o, out_circ_id e = Some o ∧ nx = [DestroyNextLink o].
Proof. destruct (out_circ_id e); eauto. Qed.

Lemma destroy_from_prev_stepped id now s s' acts :
  handle_destroy_from_prev id now s = (s', acts) → s' = s ∧ acts = [] ∨ stepped id s s' acts.
Proof.
  unfold handle_destroy_from_prev. destruct (circuits s !! id) as [e|] eqn:He;
    intros H; injection H as <- <-; [right|by left].
  eapply destroy_entry_stepped; [done|apply next_link|..].
  - intros Hn. rewrite bool_decide_false by done. by left.
  - intros Hn. by rewrite bool_decide_true.
Qed.

Lemma reap_circuit_stepped id now s s' acts :
  reap_circuit id now s = (s', acts) → s' = s ∧ acts = [] ∨ stepped id s s' acts.
Proof. apply destroy_from_prev_stepped. Qed.

Lemma destroy_from_next_stepped id now s s' acts :
  handle_destroy_from_next id now s = (s', acts) → s' = s ∧ acts = [] ∨ stepped id s s' acts.
Proof.
  unfold handle_destroy_from_next. destruct (circuits s !! id) as [e|] eqn:He;
    intros H; injection H as <- <-; [right|by left].
  apply (destroy_entry_stepped id now s e []); [done|by left|..].
  - intros Hn. rewrite bool_decide_false by done. by left.
  - intros Hn. by rewrite bool_decide_true.
Qed.

Lemma handled_total id s f :
  (∀ s' acts, f s = (s', acts) → s' = s ∧ acts = [] ∨ stepped id s s' acts) →
  handled id s (st_total f s).
Proof. intros H. unfold st_total. destruct (f s) as [s' acts] eqn:E. by apply H. Qed.

(** *** RELAY *)
Lemma relay_dispatch_handled id out unauth peeled now s e :
  circuits s !! id = Some e → estate e = Open → out = out_circ_id e →
  unauth = relay_mode s && negb (token_verified e) → ext_ok (relay_mode s) e →
  handled id s (relay_dispatch id out unauth peeled now s).
Proof.
  intros He Ho -> -> Hx.
  assert (handled id s ((if relay_mode s && negb (token_verified e) then st_err (Unauthorized id)
    else match out_circ_id e with
    | Some out =>
      new_cell <- st_lift (map_err CellErr (Cell_new out CMD_RELAY peeled)) ;;
      st_ret [SendToNext out new_cell]
    | None => st_ret [RelayPayloadAtExit id peeled]
    end) s)) as Hpass.
  { destruct (relay_mode s && negb (token_verified e)) eqn:Ea; [apply handled_keep|].
    assert (auth (relay_mode s) e) as Ha.
    { intros Hr. rewrite Hr in Ea. by destruct (token_verified e). }
    destruct (out_circ_id e) as [o|] eqn:Eo.
    - apply handled_lift. intros c Hc. destruct (Cell_new o CMD_RELAY peeled) as [c'|] eqn:Ec; [|done].
      cbn in Hc. simplify_eq. apply Cell_new_ok in Ec as (-> & _). right.
      rewrite <- (upd_id id e s) at 2 by done. eapply upd_quiet; try done; [apply stable_refl|].
      by repeat constructor.
    - right. cbn. rewrite <- (upd_id id e s) at 2 by done.
      eapply upd_quiet; try done; [apply stable_refl|]. by repeat constructor. }
  unfold relay_dispatch. destruct (RelaySubCell_decode peeled) as [sub|]; [|done].
  assert (∀ e0, circuits s !! id = Some e0 → ext_ok (relay_mode s) e0) as Hx'.
  { intros e0 H0. rewrite He in H0. by injection H0 as <-. }
  destruct (sub_command sub); try done; clear Hpass.
  - apply handle_extend_handled.
  - apply handled_total. intros s' acts. apply destroy_from_prev_stepped.
  - by left.
  - apply handle_extend_finish_handled.
  - by apply handle_extend_cont_handled.
Qed.

Lemma handle_relay_from_prev_handled id bd now s :
  (∀ e, circuits s !! id = Some e → ext_ok (relay_mode s) e) →
  handled id s (handle_relay_from_prev id bd now s).
Proof.
  intros Hok. unfold handle_relay_from_prev. unfold st_bind at 1, st_get. apply handled_get.
  intros e He. specialize (Hok e He). case_bool_decide as Eo; [apply handled_keep|].
  apply handled_lift. intros ks _. apply handled_lift. intros peeled _.
  apply handled_lift. intros q Hq. destruct (checked_add_u64 _ _) as [q'|] eqn:Eq; [|done].
  cbn in Hq. simplify_eq. apply checked_add_ok in Eq as [-> Hmax].
  eapply handled_modify; [done|quiet_tac|]. eapply relay_dispatch_handled; [apply lookup_upd|done..].
Qed.

Lemma handle_relay_from_next_handled id bd now s :
  handled id s (handle_relay_from_next id bd now s).
Proof.
  unfold handle_relay_from_next. apply handled_get.
  intros e He. case_bool_decide as Eo; [apply handled_keep|].
  apply handled_lift. intros ks _. apply handled_lift. intros wr _.
  apply handled_lift. intros q Hq. destruct (checked_add_u64 _ _) as [q'|] eqn:Eq; [|done].
  cbn in Hq. simplify_eq. apply checked_add_ok in Eq as [-> Hmax].
  eapply handled_modify; [done|quiet_tac|]. apply handled_lift. intros a Ha.
  right. cbn [acts_of fst snd]. rewrite <- (upd_id id _ (upd id _ s) (lookup_upd _ _ _)) at 2.
  eapply upd_quiet; [apply lookup_upd|apply stable_refl|done..|].
  apply to_prev_reply in Ha as [Hrep (c & -> & Hc & _)]. destruct Hrep as [_ Hid]. by repeat constructor.
Qed.

(** *** Completions *)
Lemma record_create_complete_handled id ks msg now s :
  handled id s (record_create_complete id ks msg now s).
Proof.
  unfold record_create_complete. apply handled_get. intros e He.
  case_bool_decide as Ec; [apply handled_keep|]. rewrite (bind_modify id e) by done. right.
  assert (∀ acts, Forall (is_reply id) acts → stepped id s (upd id (set_prev_keys (Some ks)
    (set_last_activity now (set_state_entered now (set_estate Open e)))) s) acts) as Hstep.
  { intros acts HF. eapply upd_stepped; [done|stable_tac|done|]. by eapply ch_created. }
  destruct (HandshakeBody_encode_fragmented _ _) as [[f cs]|?]; cbn; [|by apply Hstep].
  apply Hstep. destruct (push_flight _ _ _ _ _) eqn:E; [by eapply push_flight_reply|constructor].
Qed.

Lemma record_create_failure_handled id now s : handled id s (record_create_failure id now s).
Proof.
  unfold record_create_failure. apply handled_get. intros e He.
  case_bool_decide as Ec; [apply handled_keep|]. rewrite (bind_modify id e) by done. right.
  apply (destroy_entry_stepped id now s e []); [done|by left|by left|]. intros. congruence.
Qed.

Lemma record_extend_complete_handled id msg now s :
  handled id s (record_extend_complete id msg now s).
Proof.
  unfold record_extend_complete. apply handled_get. intros e He.
  case_bool_decide as Ec; [apply handled_keep|]. by eapply emit_extended_handled.
Qed.

Lemma record_extend_failure_handled id now s : handled id s (record_extend_failure id now s).
Proof.
  unfold record_extend_failure. apply handled_get. intros e He.
  case_bool_decide as Ec; [apply handled_keep|]. rewrite (bind_modify id e) by done. right.
  eapply destroy_entry_stepped; [done|apply next_link|by right|]. intros. congruence.
Qed.

End handlers_step.
