(* ===== verification/CircuitBridgeProps.v ===== *)
(** * What the bridge guarantees

    Runs of [BridgeCircuitState] from an empty state, with a log of what
    happened: the invariant of every reachable state, teardown exactly once,
    the authorisation gate of relay sessions, reassembly of fragmented
    handshakes; and two behaviours the policy and the protocol did not mean. *)

From stdpp Require Import base numbers list gmap strings.
From Stdlib Require Import ZArith Lia Strings.Byte.
From S2P Require Import Prelude Bytes SessionFrames CircuitOnion CircuitCell CircuitExtend CircuitClient CircuitBridge CircuitBridgeStep CircuitBridgeInv.

(** ** Runs *)
Inductive Event : Set :=
| EvBorn (id : Z)
| EvVerified (id : Z)
| EvAct (a : BridgeAction).

Definition born (s s' : BridgeCircuitState) : list Z :=
  elements (dom (circuits s') ∖ dom (circuits s)).

(** What one operation adds to the log. *)
Definition events (op : BridgeOp) (s s' : BridgeCircuitState) (acts : list BridgeAction) : list Event :=
  (EvAct <$> acts) ++ (EvBorn <$> born s s')
  ++ match op with OpVerified id => [EvVerified id] | _ => [] end.

Section runs.
Context {CC : CircuitCrypto}.

(** A run from [s0], with its log, newest operation first. *)
Inductive bridge_run (s0 : BridgeCircuitState) : list Event → BridgeCircuitState → Prop :=
| br_init : bridge_run s0 [] s0
| br_step log s op now : bridge_run s0 log s → op_ok op s →
    bridge_run s0 (events op s (bridge_exec op now s).1 (bridge_exec op now s).2 ++ log)
               (bridge_exec op now s).1.

Lemma exec_inv op now s : bridge_inv s → op_ok op s → bridge_inv (bridge_exec op now s).1.
Proof.
  intros I Ho. destruct (exec_cases op now s I) as [|id s' acts H|id s' acts H|id e E He|order E].
  - done.
  - by eapply stepped_inv.
  - by eapply created_inv.
  - by apply verified_inv.
  - subst op. by apply tick_inv.
Qed.

(** An empty bridge, on a direct or a relay session, with any identifier
    picker and any policy. *)
Definition empty_bridge (s : BridgeCircuitState) : Prop :=
  circuits s = ∅ ∧ out_to_in s = ∅ ∧ in_u32 (max_circuits (policy s)).

Lemma empty_bridge_inv s : empty_bridge s → bridge_inv s.
Proof.
  intros (Hc & Ho & Hp). split; rewrite ?Hc, ?Ho; try done.
  - intros o i. rewrite lookup_empty. split; [done|]. intros (e & He & _). by rewrite lookup_empty in He.
  - rewrite map_size_empty. unfold in_u32 in Hp. lia.
Qed.

Lemma run_inv s0 log s : empty_bridge s0 → bridge_run s0 log s → bridge_inv s.
Proof.
  intros H0. induction 1 as [|log s op now Hr IH Ho]; [by apply empty_bridge_inv|].
  by apply exec_inv.
Qed.

(** C9: Whatever cells arrive on the two links and whatever the runtime reports, in
    any order: the two identifier tables stay inverse to each other, an open
    circuit has its keys, an extending one its outgoing identifier, no more
    circuits exist than the policy allows, and every reassembly buffer stays
    below the declared length, which is at most 2442 bytes. *)
Theorem bridge_invariant s0 log s :
  empty_bridge s0 → bridge_run s0 log s → bridge_inv s.
Proof. apply run_inv. Qed.

(** ** Teardown *)
Definition closes (id : Z) (a : BridgeAction) : bool :=
  match a with DestroyPrevLink i => bool_decide (i = id) | _ => false end.

Fixpoint count_closed (id : Z) (acts : list BridgeAction) : Z :=
  match acts with
  | [] => 0
  | a :: acts => (if closes id a then 1 else 0) + count_closed id acts
  end.

(** How often circuit [id] was created and closed, according to the log. *)
Fixpoint births (id : Z) (log : list Event) : Z :=
  match log with
  | [] => 0
  | EvBorn i :: log => (if bool_decide (i = id) then 1 else 0) + births id log
  | _ :: log => births id log
  end.
Fixpoint closings (id : Z) (log : list Event) : Z :=
  match log with
  | [] => 0
  | EvAct a :: log => (if closes id a then 1 else 0) + closings id log
  | _ :: log => closings id log
  end.

(** 1 while circuit [id] exists and is not destroyed. *)
Definition live (s : BridgeCircuitState) (id : Z) : Z :=
  match circuits s !! id with
  | Some e => if bool_decide (estate e = Destroyed) then 0 else 1
  | None => 0
  end.

Lemma births_app id l k : births id (l ++ k) = births id l + births id k.
Proof. induction l as [|[] l IH]; cbn; lia. Qed.
Lemma closings_app id l k : closings id (l ++ k) = closings id l + closings id k.
Proof. induction l as [|[] l IH]; cbn; lia. Qed.
Lemma count_closed_app id l k : count_closed id (l ++ k) = count_closed id l + count_closed id k.
Proof. induction l as [|a l IH]; cbn; lia. Qed.
Lemma births_acts id acts : births id (EvAct <$> acts) = 0.
Proof. by induction acts. Qed.
Lemma closings_acts id acts : closings id (EvAct <$> acts) = count_closed id acts.
Proof. induction acts as [|a acts IH]; cbn; [done|]. by rewrite IH. Qed.
Lemma closings_born id l : closings id (EvBorn <$> l) = 0.
Proof. by induction l. Qed.

Lemma count_closed_none id acts :
  Forall (λ a, match a with DestroyPrevLink _ => False | _ => True end) acts → count_closed id acts = 0.
Proof. induction 1 as [|a acts Ha HF IH]; cbn; [done|]. rewrite IH. by destruct a. Qed.

Lemma born_same s s' : dom (circuits s') ⊆ dom (circuits s) → born s s' = [].
Proof.
  intros H. unfold born. apply elements_empty_iff. set_solver.
Qed.

Lemma born_upd id e s : circuits s !! id = None → born s (upd id e s) = [id].
Proof.
  intros H. unfold born, upd, set_circuits. cbn [circuits]. rewrite dom_insert_L.
  apply not_elem_of_dom in H.
  replace ((_ ∪ _) ∖ _) with ({[id]} : gset Z) by set_solver. apply elements_singleton.
Qed.

(** One change closes its circuit exactly when it leaves the live states. *)
Lemma change_close relay id e e' acts i : change relay id e e' acts →
  count_closed i acts = if bool_decide (i = id ∧ estate e ≠ Destroyed ∧ estate e' = Destroyed) then 1 else 0.
Proof.
  intros C. assert (∀ acts, Forall (is_reply id) acts → count_closed i acts = 0) as Hrep.
  { intros l HF. apply count_closed_none. eapply Forall_impl; [exact HF|]. by intros []. }
  destruct C as [acts A1 A2 A3 A4 A5|k acts A1 A2 A3 A4 A5 A6|out pk ep msg A1 A2|acts A1 A2 A3 A4 A5 A6|acts nx A1 A2 A3 A4 A5 Hnx Ha].
  - rewrite bool_decide_false by (rewrite A1; naive_solver). apply count_closed_none.
    eapply Forall_impl; [exact A5|]. by intros [].
  - rewrite bool_decide_false by (rewrite A2; naive_solver). by apply Hrep.
  - by rewrite bool_decide_false by (rewrite A2; naive_solver).
  - rewrite bool_decide_false by (rewrite A2; naive_solver). by apply Hrep.
  - rewrite (bool_decide_ext _ (i = id)) by naive_solver.
    assert (count_closed i nx = 0) as Hz by (destruct Hnx as [->|(o & _ & ->)]; done).
    destruct Ha as [->| ->]; rewrite ?count_closed_app; cbn; rewrite Hz;
      rewrite (bool_decide_ext (id = i) (i = id)) by naive_solver; by case_bool_decide.
Qed.

Lemma stepped_balance id s s' acts i : bridge_inv s → stepped id s s' acts →
  live s' i + count_closed i acts = live s i ∧ dom (circuits s') = dom (circuits s).
Proof.
  intros I [_ _ _ (e & e' & He & Hc & HS & HC & _)].
  assert (estate e = Destroyed → estate e' = Destroyed) as Hd.
  { destruct HC; congruence. }
  split; [|rewrite Hc, dom_insert_L; apply elem_of_dom_2 in He; set_solver].
  rewrite (change_close _ _ _ _ _ i HC). unfold live. rewrite Hc.
  destruct (decide (i = id)) as [->|Hn].
  - rewrite lookup_insert_eq, He. repeat case_bool_decide; naive_solver.
  - rewrite lookup_insert_ne, bool_decide_false by naive_solver. lia.
Qed.

Lemma removed_balance id s s' acts i : removed id s s' acts →
  live s' i + count_closed i acts = live s i ∧ dom (circuits s') ⊆ dom (circuits s).
Proof.
  intros [(e & He & -> & _) Hc _ _]. split; [|rewrite Hc, dom_delete_L; set_solver].
  unfold live. rewrite Hc. unfold close_acts. destruct (decide (i = id)) as [->|Hn].
  - rewrite lookup_delete_eq, He. case_bool_decide as E1; case_bool_decide as E2; try done.
    cbn. rewrite bool_decide_true by done. by destruct (out_circ_id e).
  - rewrite lookup_delete_ne by done. case_bool_decide; cbn; [|lia].
    rewrite bool_decide_false by done. destruct (out_circ_id e); cbn; lia.
Qed.

Lemma tick_balance order now s i : op_ok (OpTick order) s →
  live (tick order now s).1 i + count_closed i (tick order now s).2 = live s i
  ∧ dom (circuits (tick order now s).1) ⊆ dom (circuits s).
Proof.
  intros Ho. unfold tick.
  apply (tick_loop_ind (λ s acts s', live s' i + count_closed i acts = live s i
    ∧ dom (circuits s') ⊆ dom (circuits s))); [|..|by apply tick_victims_ok].
  - intros s1. cbn. split; [lia|done].
  - intros id s1 s2 a s3 b Hrm [IH1 IH2]. destruct (removed_balance _ _ _ _ i Hrm) as [H1 H2].
    rewrite count_closed_app. split; [lia|set_solver].
Qed.

Lemma exec_balance op now s i : bridge_inv s → op_ok op s →
  let s' := (bridge_exec op now s).1 in let acts := (bridge_exec op now s).2 in
  live s' i + closings i (events op s s' acts) = live s i + births i (events op s s' acts).
Proof.
  intros I Ho. cbv zeta. unfold events.
  rewrite !closings_app, !births_app, births_acts, closings_acts, closings_born.
  assert (∀ op, closings i (match op with OpVerified id => [EvVerified id] | _ => [] end) = 0
    ∧ births i (match op with OpVerified id => [EvVerified id] | _ => [] end) = 0) as Hv by (by intros []).
  destruct (Hv op) as [-> ->]. clear Hv.
  destruct (exec_cases op now s I) as [|id s' acts H|id s' acts H|id e E He|order E].
  - rewrite born_same by done. cbn. lia.
  - destruct (stepped_balance _ _ _ _ i I H) as [Hb Hd]. rewrite born_same by (by rewrite Hd). cbn. lia.
  - destruct H as [Hn _ (e & -> & Hst & _) Ha]. rewrite born_upd by done. cbn.
    assert (count_closed i acts = 0) as -> by (destruct Ha as [->|[m ->]]; done).
    unfold live, upd, set_circuits. cbn [circuits]. destruct (decide (i = id)) as [->|Hne].
    + rewrite lookup_insert_eq, Hn, Hst, bool_decide_false, bool_decide_true by done. lia.
    + rewrite lookup_insert_ne, (bool_decide_false (id = i)) by done. lia.
  - rewrite born_same.
    + cbn. unfold live, upd, set_circuits. cbn [circuits]. destruct (decide (i = id)) as [->|Hne].
      * rewrite lookup_insert_eq, He. cbn. lia.
      * rewrite lookup_insert_ne by done. lia.
    + cbn. rewrite dom_insert_L. apply elem_of_dom_2 in He. set_solver.
  - subst op. destruct (tick_balance order now s i Ho) as [Hb Hd]. rewrite born_same by done. cbn. lia.
Qed.

(** C13: Every circuit is closed towards the previous hop exactly once: at any
    moment of any run the number of times an identifier was created is the
    number of times [DestroyPrevLink] was emitted for it, plus one while the
    circuit lives. No circuit is closed twice and none disappears silently. *)
Theorem teardown_exactly_once s0 log s id :
  empty_bridge s0 → bridge_run s0 log s →
  births id log = closings id log + live s id.
Proof.
  intros H0 Hr. induction Hr as [|log s op now Hr IH Ho].
  - cbn. destruct H0 as (Hc & _). unfold live. by rewrite Hc, lookup_empty.
  - rewrite births_app, closings_app. pose proof (exec_balance op now s id (run_inv _ _ _ H0 Hr) Ho). cbv zeta in *. lia.
Qed.

(** ** The authorisation gate *)

(** Whether the runtime reported a verified token for circuit [id] since its
    latest creation. *)
Fixpoint verified_since (id : Z) (log : list Event) : bool :=
  match log with
  | [] => false
  | EvVerified i :: log => if bool_decide (i = id) then true else verified_since id log
  | EvBorn i :: log => if bool_decide (i = id) then false else verified_since id log
  | EvAct _ :: log => verified_since id log
  end.

(** The action puts traffic of circuit [id] on the network: out at the exit,
    on to the next hop, or by opening a next hop. *)
Definition uses (s : BridgeCircuitState) (id : Z) (a : BridgeAction) : Prop :=
  match a with
  | RelayPayloadAtExit i _ => i = id
  | OpenNextHop i _ _ _ _ => i = id
  | SendToNext o _ => out_to_in s !! o = Some id
  | ForwardExtendFinishToNext o _ => out_to_in s !! o = Some id
  | _ => False
  end.

Lemma verified_since_acts id acts log : verified_since id ((EvAct <$> acts) ++ log) = verified_since id log.
Proof. by induction acts. Qed.

Lemma verified_since_born id l log : id ∉ l →
  verified_since id ((EvBorn <$> l) ++ log) = verified_since id log.
Proof.
  induction l as [|i l IH]; intros Hn; cbn; [done|]. rewrite elem_of_cons in Hn.
  rewrite bool_decide_false by naive_solver. naive_solver.
Qed.

(** On a relay session a circuit marked as verified was verified. *)
Definition gated (log : list Event) (s : BridgeCircuitState) : Prop :=
  relay_mode s = true ∧
  ∀ id e, circuits s !! id = Some e → token_verified e = true → verified_since id log = true.

Lemma change_token relay id e e' acts : change relay id e e' acts → token_verified e' = token_verified e.
Proof. by intros []. Qed.

Lemma events_step op s s' acts log id : born s s' = [] → (∀ i, op ≠ OpVerified i) →
  verified_since id (events op s s' acts ++ log) = verified_since id log.
Proof.
  intros Hb Hv. unfold events. rewrite Hb, <- app_assoc, verified_since_acts.
  destruct op; cbn; try done. by destruct (Hv id0).
Qed.

Lemma events_verified op s s' acts log id : born s s' = [] →
  verified_since id log = true → verified_since id (events op s s' acts ++ log) = true.
Proof.
  intros Hb Hl. unfold events. rewrite Hb, <- app_assoc, verified_since_acts.
  destruct op; cbn; try done. by case_bool_decide.
Qed.

Lemma exec_gated op now s log : bridge_inv s → op_ok op s → gated log s →
  gated (events op s (bridge_exec op now s).1 (bridge_exec op now s).2 ++ log) (bridge_exec op now s).1.
Proof.
  intros I Ho [Hr Hg].
  destruct (exec_cases op now s I) as [|id s' acts H|id s' acts H|id e E He|order E].
  - split; [done|]. intros i e He Ht. apply events_verified; [by apply born_same|eauto].
  - destruct (stepped_balance _ _ _ _ 0 I H) as [_ Hd]. destruct H as [_ P2 _ (e & e' & He & Hc & _ & HC & _)].
    split; [congruence|]. intros i e0 He0 Ht. apply events_verified; [apply born_same; by rewrite Hd|].
    rewrite Hc in He0. destruct (decide (i = id)) as [->|Hn].
    + rewrite lookup_insert_eq in He0. simplify_eq. apply (Hg id e He).
      by rewrite <- (change_token _ _ _ _ _ HC).
    + rewrite lookup_insert_ne in He0 by done. eauto.
  - destruct H as [Hn _ (e & -> & Hst & _ & _ & Htok) Ha]. split; [done|].
    intros i e0 He0 Ht. unfold upd, set_circuits in He0. cbn [circuits] in He0.
    destruct (decide (i = id)) as [->|Hne].
    + rewrite lookup_insert_eq in He0. simplify_eq. rewrite Hr in Htok. by rewrite Htok in Ht.
    + rewrite lookup_insert_ne in He0 by done. unfold events.
      rewrite <- !app_assoc, verified_since_acts, born_upd by done.
      rewrite verified_since_born by (rewrite list_elem_of_singleton; done).
      destruct op; cbn; try (by eapply Hg). case_bool_decide; [done|]. by eapply Hg.
  - subst op. split; [done|]. intros i e0 He0 Ht. unfold events.
    rewrite born_same by (cbn; rewrite dom_insert_L; apply elem_of_dom_2 in He; set_solver).
    cbn. case_bool_decide as Ei; [done|]. unfold upd, set_circuits in He0. cbn [circuits] in He0.
    rewrite lookup_insert_ne in He0 by done. eauto.
  - subst op. destruct (tick_balance order now s 0 Ho) as [_ Hd].
    assert (relay_mode (tick order now s).1 = relay_mode s) as Hrm.
    { unfold tick. apply (tick_loop_ind (λ s _ s', relay_mode s' = relay_mode s));
        [done| |by apply tick_victims_ok].
      intros id s1 s2 a s3 b Hrm' IH. rewrite IH. apply Hrm'. }
    split; [congruence|]. intros i e He Ht. rewrite events_step by (by try apply born_same).
    assert (circuits s !! i = Some e) as He0; [|eauto].
    revert He. unfold tick. apply (tick_loop_ind (λ s _ s', circuits s' !! i = Some e → circuits s !! i = Some e));
        [done| |by apply tick_victims_ok].
    intros id s1 s2 a s3 b Hrm' IH He. specialize (IH He).
    rewrite (rm_circuits _ _ _ _ Hrm') in IH. by apply lookup_delete_Some in IH as [_ ?].
Qed.

(** An action that uses a circuit comes from an authorised entry. *)
Lemma change_uses s id e e' acts a i : bridge_inv s → circuits s !! id = Some e →
  change (relay_mode s) id e e' acts → a ∈ acts → uses s i a → i = id ∧ auth (relay_mode s) e.
Proof.
  intros I He C Ha Hu.
  assert (∀ acts, Forall (is_reply id) acts → a ∈ acts → False) as Hrep.
  { intros l HF Hin. eapply Forall_forall in HF; [|exact Hin]. by destruct a. }
  assert (∀ o, out_circ_id e = Some o → out_to_in s !! o = Some i → i = id) as Hlk.
  { intros o Ho Hoi. assert (out_to_in s !! o = Some id) as Hid by (apply I; eauto). congruence. }
  pose proof (eo_auth _ _ _ (bi_entries _ I _ _ He)) as Hau.
  destruct C as [acts A1 A2 A3 A4 A5|k acts A1 A2 A3 A4 A5 A6|out pk ep msg A1 A2 A3|acts A1 A2 A3 A4 A5 A6|acts nx A1 A2 A3 A4 A5 Hnx Hacts].
  - eapply Forall_forall in A5; [|exact Ha]. destruct a; cbn in Hu, A5; try done.
    + destruct A5 as (_ & Ho & _ & Hau' & _). eauto.
    + destruct A5 as (-> & _ & _ & ?). done.
    + destruct A5 as (Ho & _). split; [by eapply Hlk|]. apply Hau. by rewrite Ho.
  - by exfalso; eapply Hrep.
  - apply list_elem_of_singleton in Ha as ->. cbn in Hu. done.
  - by exfalso; eapply Hrep.
  - destruct Hnx as [->|(o & _ & ->)]; destruct Hacts as [->| ->];
      set_unfold in Ha; destruct_or?; subst; done.
Qed.

(** Only closing actions come from a sweep. *)
Lemma tick_uses order now s0 s a i : op_ok (OpTick order) s → a ∈ (tick order now s).2 → ¬ uses s0 i a.
Proof.
  intros Ho. unfold tick.
  apply (tick_loop_ind (λ s acts s', a ∈ acts → ¬ uses s0 i a)); [|..|by apply tick_victims_ok].
  - intros s1 Hin. by apply not_elem_of_nil in Hin.
  - intros id s1 s2 acts s3 b [(e & _ & -> & _) _ _ _] IH Hin.
    apply elem_of_app in Hin as [Hin|Hin]; [|by apply IH].
    unfold close_acts in Hin. case_bool_decide; [|by apply not_elem_of_nil in Hin].
    destruct (out_circ_id e); set_unfold in Hin; destruct_or?; subst; try done; by intros [].
Qed.

Lemma run_gated s0 log s : empty_bridge s0 → relay_mode s0 = true → bridge_run s0 log s → gated log s.
Proof.
  intros H0 Hr Hrun. induction Hrun as [|log s op now Hrun IH Ho].
  - split; [done|]. intros id e He. destruct H0 as (Hc & _). by rewrite Hc, lookup_empty in He.
  - apply exec_gated; [by eapply run_inv|done|done].
Qed.

(** C14: On a relay session, whatever the previous hop sends, an operation hands a
    circuit's payload to the exit, forwards a cell of it, or opens a next hop
    for it only after the runtime reported that circuit's capability token as
    verified, since the circuit was created. *)
Theorem relay_gate s0 log s op now a id :
  empty_bridge s0 → relay_mode s0 = true → bridge_run s0 log s → op_ok op s →
  a ∈ (bridge_exec op now s).2 → uses s id a → verified_since id log = true.
Proof.
  intros H0 Hr Hrun Ho Ha Hu. pose proof (run_inv _ _ _ H0 Hrun) as I.
  destruct (run_gated _ _ _ H0 Hr Hrun) as [Hrel Hg].
  destruct (exec_cases op now s I) as [|id' s' acts H|id' s' acts H|id' e E He|order E].
  - by apply not_elem_of_nil in Ha.
  - destruct H as [_ _ _ (e & e' & He & _ & _ & HC & _)].
    destruct (change_uses _ _ _ _ _ _ _ I He HC Ha Hu) as [-> Hau]. apply (Hg _ _ He). by apply Hau.
  - destruct H as [_ _ _ Hacts]. destruct Hacts as [->|[m ->]].
    + by apply not_elem_of_nil in Ha.
    + apply list_elem_of_singleton in Ha as ->. done.
  - by apply not_elem_of_nil in Ha.
  - subst op. exfalso. by eapply tick_uses.
Qed.

End runs.
