(* ===== verification/CircuitReassembly.v ===== *)
(** * Fragmented handshakes through the bridge

    A handshake message that does not fit one cell travels as a first cell and
    continuation cells. Here the sender's fragmentation (extend.rs) meets the
    bridge's reassembly (bridge_circuit.rs): what the sender split is what the
    bridge hands on, in all three flights. *)

From stdpp Require Import base numbers list gmap strings.
From Stdlib Require Import ZArith Lia Strings.Byte.
From S2P Require Import Prelude Bytes SessionFrames CircuitOnion CircuitCell CircuitExtend CircuitClient CircuitBridge CircuitBridgeStep CircuitBridgeInv.

Section reassembly.
Context {CC : CircuitCrypto}.

(** Cells processed one after another, with the actions they cause. *)
Fixpoint feed (step : Cell → bridge (list BridgeAction)) (cells : list Cell) (s : BridgeCircuitState)
  : BridgeCircuitState * list BridgeAction :=
  match cells with
  | [] => (s, [])
  | c :: cells =>
    let '(s, a) := fallible (step c) s in
    let '(s, b) := feed step cells s in
    (s, a ++ b)
  end.

(** The cells of a flight on circuit [id]. *)
Definition flight (id : Z) (cmd cont : byte) (first : list byte) (conts : list (list byte)) : list Cell :=
  mkCell id cmd first :: map (mkCell id cont) conts.

Lemma prev_create id b now :
  process_inbound_from_prev (mkCell id CMD_CREATE b) now = handle_create id b now.
Proof. reflexivity. Qed.
Lemma prev_create_cont id b now :
  process_inbound_from_prev (mkCell id CMD_CREATE_CONT b) now = handle_create_cont id b now.
Proof. reflexivity. Qed.
Lemma prev_extend id b now :
  process_inbound_from_prev (mkCell id CMD_EXTEND b) now = handle_extend id b now false.
Proof. reflexivity. Qed.
Lemma prev_extend_cont id b now :
  process_inbound_from_prev (mkCell id CMD_EXTEND_CONT b) now = handle_extend_cont id b now.
Proof. reflexivity. Qed.

Lemma concat_nil_pos (conts : list (list byte)) :
  Forall (λ b, 0 < zlen b) conts → zlen (concat conts) = 0 → conts = [].
Proof.
  destruct 1 as [|b l Hb HF]; [done|]. cbn. rewrite zlen_app. pose proof (zlen_nonneg (concat l)). lia.
Qed.

(** ** CREATE *)
Lemma feed_create_conts id now conts s e total acc t0 :
  circuits s !! id = Some e → estate e = Creating →
  pending_create e = Some (mkPCreate total acc t0) →
  Forall (λ b, 0 < zlen b) conts → zlen acc + zlen (concat conts) = total → conts ≠ [] →
  ∃ e', feed (λ c, process_inbound_from_prev c now) (map (mkCell id CMD_CREATE_CONT) conts) s
        = (upd id e' s, [PerformHandshake id (acc ++ concat conts)])
    ∧ estate e' = Creating ∧ pending_create e' = None ∧ out_circ_id e' = out_circ_id e
    ∧ token_verified e' = token_verified e.
Proof.
  revert s e acc. induction conts as [|b conts IH]; intros s e acc He Hs Hp HF Hz Hn; [done|].
  apply Forall_cons_1 in HF as [Hb HF]. cbn [concat] in Hz. rewrite zlen_app in Hz.
  pose proof (zlen_nonneg (concat conts)) as Hc.
  cbn [map feed]. rewrite prev_create_cont. unfold fallible at 1, handle_create_cont.
  rewrite (bind_get_entry id e), (bool_decide_false (estate e ≠ Creating)) by naive_solver.
  rewrite (bind_modify id e), Hp by done. cbn [ok_or pc_accumulated pc_total pc_started_at].
  rewrite bind_lift_ok. cbn [pc_accumulated pc_total pc_started_at].
  rewrite bool_decide_false by lia.
  rewrite (bind_modify id _ _ _ _ (lookup_upd _ _ _)), upd_upd, zlen_app.
  case_bool_decide as Ef.
  - assert (conts = []) as -> by (apply concat_nil_pos; [done|lia]).
    cbn. rewrite app_nil_r. eexists. split; [reflexivity|]. by cbn.
  - rewrite (bind_modify id _ _ _ _ (lookup_upd _ _ _)), upd_upd. unfold st_ret. cbn [acts_of].
    destruct (IH _ _ (acc ++ b) (lookup_upd id (set_pending_create (Some (mkPCreate total (acc ++ b) t0))
      (set_last_activity now (set_pending_create None e))) s) Hs eq_refl HF)
      as (e' & HE & H1 & H2 & H3 & H4).
    + rewrite zlen_app. lia.
    + intros ->. change (zlen (concat [])) with 0 in Hz. lia.
    + rewrite HE, upd_upd. cbn [app concat]. rewrite <- app_assoc. eexists. split; [done|]. by cbn in *.
Qed.

(** The handshake message a client splits into a CREATE flight reaches the
    responder of the hop whole: the flight is accepted cell by cell and the last
    cell, and only it, asks the runtime to run the handshake on exactly the
    message that was sent. *)
Theorem create_reassembles id msg now s :
  zlen msg ≤ MAX_HANDSHAKE_BODY_LEN → circuits s !! id = None → bridge_inv s →
  Z.of_nat (size (circuits s)) < max_circuits (policy s) →
  pending_count s < max_pending_handshakes (policy s) →
  ∃ first conts e, HandshakeBody_encode_fragmented msg MAX_CELL_PAYLOAD = Ok (first, conts)
    ∧ Forall (λ b, zlen b ≤ MAX_CELL_PAYLOAD) (first :: conts)
    ∧ feed (λ c, process_inbound_from_prev c now) (flight id CMD_CREATE CMD_CREATE_CONT first conts) s
      = (upd id e s, [PerformHandshake id msg])
    ∧ estate e = Creating ∧ pending_create e = None.
Proof.
  intros Hm Hid I Hroom Hpend.
  destruct (handshake_fragments msg MAX_CELL_PAYLOAD Hm) as (first & conts & chunk & Henc & Hdec & Hcat & Hf & HF);
    [vm_compute; done|].
  assert (Forall (λ b, zlen b ≤ MAX_CELL_PAYLOAD) (first :: conts)) as Hcells.
  { constructor; [done|]. eapply Forall_impl; [exact HF|]. naive_solver. }
  assert (Forall (λ b, 0 < zlen b) conts) as Hpos.
  { eapply Forall_impl; [exact HF|]. naive_solver. }
  exists first, conts.
  assert (∃ e, feed (λ c, process_inbound_from_prev c now)
      (flight id CMD_CREATE CMD_CREATE_CONT first conts) s = (upd id e s, [PerformHandshake id msg])
    ∧ estate e = Creating ∧ pending_create e = None) as (e & ? & ? & ?); [|by exists e].
  unfold flight. cbn [feed]. rewrite prev_create. unfold fallible at 1, handle_create.
  unfold st_bind at 1, st_get. rewrite Hid.
  pose proof (bi_policy _ I) as Hp32. unfold in_u32 in Hp32.
  rewrite bool_decide_false by (unfold wrap_u32; rewrite Z.mod_small by lia; lia).
  rewrite bool_decide_false by lia. rewrite Hdec. cbn [map_err]. rewrite bind_lift_ok.
  unfold st_bind at 1, st_mod.
  assert (zlen chunk + zlen (concat conts) = zlen msg) as Hz by (rewrite <- Hcat, zlen_app; done).
  case_bool_decide as El; unfold st_ret; cbn [acts_of].
  - set (e0 := mkEntry _ _ _ _ _ _ _ _ _ _ _ _ _).
    destruct (feed_create_conts id now conts (upd id e0 s) e0 (zlen msg) chunk now)
      as (e' & HE & H1 & H2 & _ & _); [apply lookup_upd|done|done|exact Hpos|exact Hz| |].
    { intros ->. change (zlen (concat [])) with 0 in Hz. lia. }
    change (set_circuits _ s) with (upd id e0 s). rewrite HE, upd_upd, Hcat. by exists e'.
  - assert (conts = []) as -> by (apply concat_nil_pos; [done|pose proof (zlen_nonneg (concat conts)); lia]).
    cbn in Hcat. rewrite app_nil_r in Hcat. subst chunk. eexists. split; [reflexivity|done].
Qed.

(** ** EXTEND *)

(** The allocation looks at the identifier table only. *)
Lemma allocate_upd id e s s1 r :
  allocate_out_circ_id s = (s1, r) → allocate_out_circ_id (upd id e s) = (upd id e s1, r).
Proof.
  unfold allocate_out_circ_id. generalize 256%nat as n. intros n. revert s.
  induction n as [|n IH]; intros s; cbn [allocate_loop].
  { unfold st_err. by intros [= <- <-]. }
  unfold st_bind, st_mod, st_get. cbn. intros H.
  case_bool_decide; [by apply (IH (set_seq _ s))|].
  destruct (out_to_in s !! _); [by apply (IH (set_seq _ s))|]. unfold st_ret in *. by injection H as <- <-.
Qed.

Lemma allocate_circuits s s1 r : allocate_out_circ_id s = (s1, r) → circuits s1 = circuits s.
Proof. unfold allocate_out_circ_id. intros H. by apply allocate_loop_outcome in H as (q & -> & _). Qed.

(** The first candidate is free. *)
Lemma allocate_first s q out :
  q = u64_wrap (out_circ_id_seq s + 1) → out = out_circ_id_picker s q → out ≠ 0 →
  out_to_in s !! out = None → allocate_out_circ_id s = (set_seq q s, Ok out).
Proof.
  intros -> -> Hz Hn. unfold allocate_out_circ_id. generalize 255%nat as n. intros n.
  cbn [allocate_loop]. unfold st_bind, st_mod, st_get. cbn.
  rewrite bool_decide_false by done. by rewrite Hn.
Qed.

#[local] Opaque allocate_out_circ_id.

(** The state once the EXTEND is dispatched. *)
Definition extending (id out : Z) (e : CircuitEntry) (s1 : BridgeCircuitState) : BridgeCircuitState :=
  set_out_to_in (<[out := id]> (out_to_in s1)) (upd id e s1).

Lemma dispatch_eq id p now s s1 e out :
  circuits s !! id = Some e → allocate_out_circ_id s = (s1, Ok out) →
  ∃ e', dispatch_pending_extend id p now s
        = (extending id out e' s1,
           Ok [OpenNextHop id out (pe_next_hop_pk p) (pe_endpoint p) (pe_accumulated p)])
    ∧ estate e' = Extending ∧ out_circ_id e' = Some out ∧ prev_keys e' = prev_keys e.
Proof.
  intros He Ha. unfold dispatch_pending_extend. rewrite (bind_ok _ _ _ _ _ Ha).
  assert (circuits s1 !! id = Some e) as He1.
  { by rewrite (allocate_circuits _ _ _ Ha). }
  rewrite (bind_get_entry id e), (bind_modify id e) by done.
  eexists. split; [reflexivity|done].
Qed.

Lemma feed_extend_conts id now conts s e p s1 out :
  circuits s !! id = Some e → estate e = Open → pending_extend e = Some p →
  Forall (λ b, 0 < zlen b) conts → zlen (pe_accumulated p) + zlen (concat conts) = pe_total p →
  conts ≠ [] → allocate_out_circ_id s = (s1, Ok out) →
  ∃ e', feed (λ c, process_inbound_from_prev c now) (map (mkCell id CMD_EXTEND_CONT) conts) s
        = (extending id out e' s1,
           [OpenNextHop id out (pe_next_hop_pk p) (pe_endpoint p) (pe_accumulated p ++ concat conts)])
    ∧ estate e' = Extending ∧ out_circ_id e' = Some out ∧ prev_keys e' = prev_keys e.
Proof.
  revert s s1 e p. induction conts as [|b conts IH]; intros s s1 e p He Hs Hp HF Hz Hn Ha; [done|].
  apply Forall_cons_1 in HF as [Hb HF]. cbn [concat] in Hz. rewrite zlen_app in Hz.
  pose proof (zlen_nonneg (concat conts)) as Hc.
  cbn [map feed]. rewrite prev_extend_cont. unfold fallible at 1, handle_extend_cont.
  rewrite (bind_get_entry id e), (bool_decide_false (estate e ≠ Open)) by naive_solver.
  rewrite (bind_modify id e), Hp by done. cbn [ok_or]. rewrite bind_lift_ok.
  rewrite bool_decide_false by lia.
  rewrite (bind_modify id _ _ _ _ (lookup_upd _ _ _)), upd_upd.
  cbn [pe_accumulated pe_total pe_next_hop_pk pe_endpoint pe_started_at].
  rewrite zlen_app. set (q := mkPExtend _ _ _ _ _). set (e1 := set_last_activity _ _).
  case_bool_decide as Ef.
  - assert (conts = []) as -> by (apply concat_nil_pos; [done|lia]).
    destruct (dispatch_eq id q now (upd id e1 s) (upd id e1 s1) e1 out (lookup_upd _ _ _)) as (e' & -> & H).
    { exact (allocate_upd _ _ _ _ _ Ha). }
    cbn. rewrite app_nil_r. exists e'. split; [|done]. unfold extending. rewrite upd_upd. done.
  - rewrite (bind_modify id _ _ _ _ (lookup_upd _ _ _)), upd_upd. unfold st_ret. cbn [acts_of].
    set (e2 := set_pending_extend (Some q) e1).
    destruct (IH (upd id e2 s) (upd id e2 s1) e2 q (lookup_upd _ _ _) Hs eq_refl HF) as (e' & HE & H);
      [cbn; rewrite zlen_app; lia| |exact (allocate_upd _ _ _ _ _ Ha)|].
    { intros ->. change (zlen (concat [])) with 0 in Hz. lia. }
    rewrite HE. cbn [app concat]. exists e'. split; [|done]. unfold extending. rewrite upd_upd.
    unfold q. cbn. by rewrite <- app_assoc.
Qed.

(** The same for EXTEND: the flight a client splits opens the next hop with the
    key, the endpoint and the handshake message that were sent. *)
Theorem extend_reassembles id b now s e s1 out :
  extend_valid b → circuits s !! id = Some e → estate e = Open → out_circ_id e = None →
  pending_extend e = None → auth (relay_mode s) e →
  pending_count s < max_pending_handshakes (policy s) →
  allocate_out_circ_id s = (s1, Ok out) →
  ∃ first conts e', ExtendBody_encode_fragmented b MAX_CELL_PAYLOAD = Ok (first, conts)
    ∧ Forall (λ b, zlen b ≤ MAX_CELL_PAYLOAD) (first :: conts)
    ∧ feed (λ c, process_inbound_from_prev c now) (flight id CMD_EXTEND CMD_EXTEND_CONT first conts) s
      = (extending id out e' s1, [OpenNextHop id out (next_hop_pk b) (endpoint b) (hs_msg1 b)])
    ∧ estate e' = Extending ∧ out_circ_id e' = Some out.
Proof.
  intros Hv He Hs Ho Hpe Hau Hpend Ha.
  destruct (extend_fragments b MAX_CELL_PAYLOAD Hv) as (first & conts & chunk & Henc & Hdec & Hcat & Hf & HF);
    [vm_compute; done|].
  assert (Forall (λ b, zlen b ≤ MAX_CELL_PAYLOAD) (first :: conts)) as Hcells.
  { constructor; [done|]. eapply Forall_impl; [exact HF|]. naive_solver. }
  assert (Forall (λ b, 0 < zlen b) conts) as Hpos.
  { eapply Forall_impl; [exact HF|]. naive_solver. }
  exists first, conts.
  assert (∃ e', feed (λ c, process_inbound_from_prev c now)
      (flight id CMD_EXTEND CMD_EXTEND_CONT first conts) s
      = (extending id out e' s1, [OpenNextHop id out (next_hop_pk b) (endpoint b) (hs_msg1 b)])
    ∧ estate e' = Extending ∧ out_circ_id e' = Some out) as (e' & ? & ? & ?); [|by exists e'].
  unfold flight. cbn [feed]. rewrite prev_extend. unfold fallible at 1, handle_extend.
  unfold st_bind at 1, st_get. rewrite (bind_get_entry id e), (bool_decide_false (estate e ≠ Open)) by naive_solver.
  assert (relay_mode s && negb (token_verified e) = false) as ->.
  { destruct (relay_mode s); [|done]. by rewrite Hau. }
  rewrite Ho, Hpe, !(bool_decide_false (is_Some None)) by (by intros []).
  rewrite bool_decide_false by lia. rewrite Hdec. cbn [map_err]. rewrite bind_lift_ok.
  rewrite (bind_modify id e) by done. cbn [pe_accumulated pe_total eh_next_hop_pk eh_endpoint total_hs_msg1_len].
  set (e1 := set_last_activity _ _). set (q := mkPExtend _ _ _ _ _).
  assert (zlen chunk + zlen (concat conts) = zlen (hs_msg1 b)) as Hz by (rewrite <- Hcat, zlen_app; done).
  case_bool_decide as El.
  - assert (conts = []) as -> by (apply concat_nil_pos; [done|lia]).
    destruct (dispatch_eq id q now (upd id e1 s) (upd id e1 s1) e1 out (lookup_upd _ _ _)) as (e' & -> & H);
      [exact (allocate_upd _ _ _ _ _ Ha)|].
    cbn in Hcat. rewrite app_nil_r in Hcat. subst chunk.
    cbn. exists e'. split; [|by destruct H as (? & ? & _)]. unfold extending. by rewrite upd_upd.
  - rewrite (bind_modify id _ _ _ _ (lookup_upd _ _ _)), upd_upd. unfold st_ret. cbn [acts_of].
    set (e2 := set_pending_extend (Some q) e1).
    destruct (feed_extend_conts id now conts (upd id e2 s) e2 q (upd id e2 s1) out (lookup_upd _ _ _) Hs eq_refl Hpos)
      as (e' & HE & H); [done| |exact (allocate_upd _ _ _ _ _ Ha)|].
    { intros ->. change (zlen (concat [])) with 0 in Hz. lia. }
    rewrite HE. cbn [app]. exists e'. split; [|by destruct H as (? & ? & _)].
    unfold extending. rewrite upd_upd. unfold q. cbn. by rewrite Hcat.
Qed.

(** ** CREATED in, EXTENDED out *)
Lemma next_created out id b now s : out_to_in s !! out = Some id →
  process_inbound_from_next (mkCell out CMD_CREATED b) now s = handle_created_from_next id b now s.
Proof.
  intros H. unfold process_inbound_from_next. unfold st_bind at 1, st_get.
  cbn [circ_id command body]. by rewrite H.
Qed.
Lemma next_created_cont out id b now s : out_to_in s !! out = Some id →
  process_inbound_from_next (mkCell out CMD_CREATED_CONT b) now s
  = handle_created_cont_from_next id b now s.
Proof.
  intros H. unfold process_inbound_from_next. unfold st_bind at 1, st_get.
  cbn [circ_id command body]. by rewrite H.
Qed.

Lemma push_flight_ok id cmd cont first conts :
  id ≠ 0 → cmd ≠ CMD_RESERVED → cont ≠ CMD_RESERVED →
  Forall (λ b, zlen b ≤ MAX_CELL_PAYLOAD) (first :: conts) →
  push_flight id cmd cont first conts = Ok (map (SendToPrev id) (flight id cmd cont first conts)).
Proof.
  intros Hid Hc Hc' HF. apply Forall_cons_1 in HF as [Hf HF].
  assert (push_conts id cont conts = Ok (map (SendToPrev id) (map (mkCell id cont) conts))) as Hp.
  { induction HF as [|b conts Hb HF IH]; [done|]. cbn [push_conts]. unfold to_prev at 1.
    rewrite Cell_new_intro by done. cbn [map_err]. by rewrite IH. }
  unfold push_flight, to_prev. rewrite Cell_new_intro by done. cbn [map_err]. by rewrite Hp.
Qed.

(** The reply of a direct-facing bridge. *)
Lemma emit_extended_direct id msg now s e :
  circuits s !! id = Some e → extend_via_relay e = false → id ≠ 0 → zlen msg ≤ MAX_HS_MSG2_LEN →
  ∃ first conts e', ExtendedBody_encode_fragmented msg MAX_CELL_PAYLOAD = Ok (first, conts)
    ∧ emit_extended id msg now s
      = (upd id e' s, Ok (map (SendToPrev id) (flight id CMD_EXTENDED CMD_EXTENDED_CONT first conts)))
    ∧ estate e' = Open ∧ out_circ_id e' = out_circ_id e ∧ prev_keys e' = prev_keys e.
Proof.
  intros He Hv Hid Hm.
  destruct (extended_fragments msg MAX_CELL_PAYLOAD Hm) as (first & conts & chunk & Henc & _ & _ & Hf & HF);
    [vm_compute; done|]. exists first, conts.
  unfold emit_extended. rewrite (bind_get_entry id e), (bind_modify id e), Hv, Henc by done.
  cbn [negb map_err]. rewrite bind_lift_ok. unfold st_lift. eexists.
  split; [done|]. rewrite push_flight_ok; [done|done|done|done|].
  constructor; [done|]. eapply Forall_impl; [exact HF|]. naive_solver.
Qed.

Lemma feed_created_conts id out now conts s e total acc t0 :
  out_to_in s !! out = Some id → circuits s !! id = Some e → estate e = Extending →
  pending_created e = Some (mkPCreated total acc t0) →
  Forall (λ b, 0 < zlen b) conts → zlen acc + zlen (concat conts) = total → conts ≠ [] →
  ∃ e', feed (λ c, process_inbound_from_next c now) (map (mkCell out CMD_CREATED_CONT) conts) s
        = fallible (emit_extended id (acc ++ concat conts) now) (upd id e' s)
    ∧ extend_via_relay e' = extend_via_relay e ∧ out_circ_id e' = out_circ_id e
    ∧ prev_keys e' = prev_keys e.
Proof.
  revert s e acc. induction conts as [|b conts IH]; intros s e acc Ho He Hs Hp HF Hz Hn; [done|].
  apply Forall_cons_1 in HF as [Hb HF]. cbn [concat] in Hz. rewrite zlen_app in Hz.
  pose proof (zlen_nonneg (concat conts)) as Hc.
  cbn [map feed]. unfold fallible at 1. rewrite (next_created_cont out id) by done.
  unfold handle_created_cont_from_next.
  rewrite (bind_get_entry id e), (bool_decide_false (estate e ≠ Extending)) by naive_solver.
  rewrite (bind_modify id e), Hp by done. cbn [ok_or pd_accumulated pd_total pd_started_at].
  rewrite bind_lift_ok. cbn [pd_accumulated pd_total pd_started_at].
  rewrite bool_decide_false by lia.
  rewrite (bind_modify id _ _ _ _ (lookup_upd _ _ _)), upd_upd, zlen_app.
  case_bool_decide as Ef.
  - assert (conts = []) as -> by (apply concat_nil_pos; [done|lia]).
    cbn [map feed concat]. rewrite app_nil_r. set (e1 := set_last_activity _ _). exists e1.
    split; [|done]. unfold fallible. destruct (emit_extended _ _ _ _) as [s' r]. by rewrite app_nil_r.
  - rewrite (bind_modify id _ _ _ _ (lookup_upd _ _ _)), upd_upd. unfold st_ret. cbn [acts_of].
    set (e2 := set_pending_created _ _).
    destruct (IH (upd id e2 s) e2 (acc ++ b) Ho (lookup_upd _ _ _) Hs eq_refl HF) as (e' & HE & H).
    + rewrite zlen_app. lia.
    + intros ->. change (zlen (concat [])) with 0 in Hz. lia.
    + rewrite HE, upd_upd. cbn [concat]. rewrite <- app_assoc. exists e'. split; [|done].
      generalize (fallible (emit_extended id (acc ++ b ++ concat conts) now) (upd id e' s)). by intros [].
Qed.

(** The answer of the next hop, split into a CREATED flight, leaves the bridge
    that faces the client as an EXTENDED flight with the same message: the
    client that reassembles it reads exactly what the next hop wrote, and the
    circuit is open again. *)
Theorem created_becomes_extended id out msg now s e first conts :
  out_to_in s !! out = Some id → circuits s !! id = Some e → estate e = Extending →
  extend_via_relay e = false → id ≠ 0 → zlen msg ≤ MAX_HS_MSG2_LEN →
  HandshakeBody_encode_fragmented msg MAX_CELL_PAYLOAD = Ok (first, conts) →
  ∃ first' conts' chunk e',
    feed (λ c, process_inbound_from_next c now) (flight out CMD_CREATED CMD_CREATED_CONT first conts) s
    = (upd id e' s, map (SendToPrev id) (flight id CMD_EXTENDED CMD_EXTENDED_CONT first' conts'))
    ∧ ExtendedBody_decode_partial first' = Ok (zlen msg, chunk) ∧ chunk ++ concat conts' = msg
    ∧ estate e' = Open ∧ out_circ_id e' = out_circ_id e.
Proof.
  intros Ho He Hs Hv Hid Hm Henc.
  destruct (handshake_fragments msg MAX_CELL_PAYLOAD) as (f0 & c0 & chunk & Henc0 & Hdec & Hcat & _ & HF);
    [lia|vm_compute; done|].
  rewrite Henc in Henc0. injection Henc0 as <- <-.
  assert (Forall (λ b, 0 < zlen b) conts) as Hpos by (eapply Forall_impl; [exact HF|]; naive_solver).
  destruct (extended_fragments msg MAX_CELL_PAYLOAD Hm) as (f1 & c1 & chunk1 & Henc1 & Hdec1 & Hcat1 & _ & _);
    [vm_compute; done|].
  assert (∀ s e, circuits s !! id = Some e → extend_via_relay e = false →
    ∃ e', fallible (emit_extended id msg now) s
          = (upd id e' s, map (SendToPrev id) (flight id CMD_EXTENDED CMD_EXTENDED_CONT f1 c1))
      ∧ estate e' = Open ∧ out_circ_id e' = out_circ_id e) as Hemit.
  { intros s0 e0 He0 Hv0. destruct (emit_extended_direct id msg now s0 e0 He0 Hv0 Hid Hm)
      as (f & c & e' & Hf & HE & ? & ? & _). rewrite Henc1 in Hf. injection Hf as <- <-.
    exists e'. unfold fallible. by rewrite HE. }
  exists f1, c1, chunk1.
  assert (∃ e', feed (λ c, process_inbound_from_next c now)
      (flight out CMD_CREATED CMD_CREATED_CONT first conts) s
    = (upd id e' s, map (SendToPrev id) (flight id CMD_EXTENDED CMD_EXTENDED_CONT f1 c1))
    ∧ estate e' = Open ∧ out_circ_id e' = out_circ_id e) as (e' & ? & ? & ?); [|by exists e'].
  unfold flight at 1. cbn [feed]. unfold fallible at 1. rewrite (next_created out id) by done.
  unfold handle_created_from_next. rewrite Hdec. cbn [map_err]. rewrite bind_lift_ok.
  rewrite (bind_get_entry id e), (bool_decide_false (estate e ≠ Extending)) by naive_solver.
  rewrite (bind_modify id e) by done. set (e1 := set_last_activity _ _).
  assert (zlen chunk + zlen (concat conts) = zlen msg) as Hz by (rewrite <- Hcat, zlen_app; done).
  case_bool_decide as El.
  - rewrite (bind_modify id _ _ _ _ (lookup_upd _ _ _)), upd_upd. unfold st_ret. cbn [acts_of].
    set (e2 := set_pending_created _ _).
    destruct (feed_created_conts id out now conts (upd id e2 s) e2 (zlen msg) chunk now Ho (lookup_upd _ _ _) Hs eq_refl Hpos Hz)
      as (e' & HE & Hv' & Ho' & _).
    { intros ->. change (zlen (concat [])) with 0 in Hz. lia. }
    rewrite HE, Hcat. destruct (Hemit _ _ (lookup_upd id e' (upd id e2 s))) as (e3 & -> & ? & Ho3); [by rewrite Hv'|].
    exists e3. rewrite !upd_upd. split_and!; [done|done|]. by rewrite Ho3, Ho'.
  - assert (conts = []) as -> by (apply concat_nil_pos; [done|pose proof (zlen_nonneg (concat conts)); lia]).
    cbn in Hcat. rewrite app_nil_r in Hcat. subst chunk.
    destruct (Hemit _ _ (lookup_upd id e1 s) Hv) as (e3 & HE & ? & Ho3). unfold fallible in HE.
    destruct (emit_extended id msg now _) as [s' r]. injection HE as -> HE. rewrite HE.
    cbn [map feed]. rewrite app_nil_r, upd_upd. by exists e3.
Qed.

End reassembly.
