(* ===== verification/CircuitBridgeRuns.v ===== *)
(** * Concrete runs of the bridge

    Executable runs with the example cryptography: they witness the theorems
    of the bridge, and two of them are theorems themselves: the limit on
    pending handshakes does not hold for fragmented EXTENDs, and a middle hop
    takes a cell meant for the next hop as its own when the ciphertext happens
    to spell a control sub-cell. *)

From stdpp Require Import base numbers list gmap strings.
From Stdlib Require Import ZArith Lia Strings.Byte.
From S2P Require Import Prelude Bytes SessionFrames CircuitOnion CircuitCell CircuitExtend CircuitClient CircuitBridge CircuitBridgeStep CircuitBridgeInv CircuitBridgeProps CircuitReassembly.

Section runs.
Context {CC : CircuitCrypto}.

(** All operations at time [now], with the log. *)
Fixpoint run_ops (ops : list BridgeOp) (now : Z) (log : list Event) (s : BridgeCircuitState)
  : list Event * BridgeCircuitState :=
  match ops with
  | [] => (log, s)
  | op :: ops =>
    let '(s', acts) := bridge_exec op now s in
    run_ops ops now (events op s s' acts ++ log) s'
  end.

Definition not_tick (op : BridgeOp) : bool := match op with OpTick _ => false | _ => true end.

Lemma run_ops_run s0 ops now log s : forallb not_tick ops = true → bridge_run s0 log s →
  bridge_run s0 (run_ops ops now log s).1 (run_ops ops now log s).2.
Proof.
  revert log s. induction ops as [|op ops IH]; intros log s Ht Hr; cbn [run_ops]; [done|].
  cbn in Ht. apply andb_prop in Ht as [Hop Ht].
  pose proof (br_step s0 log s op now Hr) as Hs. destruct (bridge_exec op now s) as [s' acts].
  apply IH; [done|]. apply Hs. by destruct op.
Qed.

End runs.

(** ** Runs with the example cryptography *)
Module BridgeDemo.
Import CircuitDemo.

Definition keys : HopKeys := mkHopKeys (layer x01) (layer x02).

(** A circuit opened with an empty handshake message. *)
Definition open_ops (id : Z) : list BridgeOp :=
  [OpPrev (mkCell id CMD_CREATE [x00; x00]); OpCreateDone id keys []].

(** The first fragment of an EXTEND that announces two bytes and brings one. *)
Definition extend_first_body : list byte :=
  replicate 32 x03 ++ [x01; x0a; x00; x00; x01; x01; xbb] ++ [x00; x02; xaa].

Definition extend_op (id : Z) : BridgeOp := OpPrev (mkCell id CMD_EXTEND extend_first_body).
Definition extend_cont_op (id : Z) : BridgeOp := OpPrev (mkCell id CMD_EXTEND_CONT [xbb]).

Definition start : BridgeCircuitState := BridgeCircuitState_new BridgePolicy_default None.
Definition relay_start : BridgeCircuitState := new_relay BridgePolicy_default None.

Definition ids : list Z := seqZ 1 17.

(** Seventeen circuits, each with an EXTEND begun and then completed. *)
Definition flood : list BridgeOp :=
  concat (map open_ops ids) ++ map extend_op ids ++ map extend_cont_op ids.

End BridgeDemo.

(** The default policy allows 16 pending handshakes. An EXTEND is checked
    against that limit when its first cell arrives, while its circuit is still
    open and does not count; the last fragment is not checked again. Seventeen
    circuits that begin an EXTEND before any completes it all get through. *)
Theorem pending_cap_exceeded :
  ∃ log s, bridge_run (CC := CircuitDemo.crypto) BridgeDemo.start log s
    ∧ policy s = BridgePolicy_default
    ∧ pending_count s > max_pending_handshakes (policy s).
Proof.
  pose proof (run_ops_run (CC := CircuitDemo.crypto) BridgeDemo.start BridgeDemo.flood 0 []
    BridgeDemo.start ltac:(vm_compute; reflexivity) (br_init _)) as Hr.
  eexists _, _. split; [exact Hr|]. clear Hr.
  apply (bool_decide_unpack _). vm_compute. exact I.
Qed.

Section misread.
Context {CC : CircuitCrypto} {CL : CircuitCryptoLaws CC}.

(** A cell for the next hop is, to the hop that peels it, just bytes. When those
    bytes begin with the DESTROY command and a matching length, which the
    next hop's cipher produces once in about sixteen million cells of a given
    size, the hop does not forward the cell: it destroys the circuit. *)
Theorem ciphertext_read_as_destroy s id e ks out next p seq rest ct now :
  circuits s !! id = Some e → estate e = Open → prev_keys e = Some ks →
  out_circ_id e = Some out → forward_seq e + 1 ≤ u64_max → zlen rest ≤ u16_max →
  onion_seal [next] p DIR_CLIENT_TO_HOP 0 seq = Ok ([CMD_DESTROY] ++ be_bytes 2 (zlen rest) ++ rest) →
  onion_seal [forward ks] ([CMD_DESTROY] ++ be_bytes 2 (zlen rest) ++ rest) DIR_CLIENT_TO_HOP 0
    (forward_seq e) = Ok ct →
  ∃ e', handle_relay_from_prev id ct now s
        = (upd id e' s, Ok [DestroyNextLink out; DestroyPrevLink id])
    ∧ estate e' = Destroyed.
Proof.
  intros He Ho Hk Hout Hseq Hr _ Hct. apply onion_open_one in Hct.
  assert (RelaySubCell_decode ([CMD_DESTROY] ++ be_bytes 2 (zlen rest) ++ rest)
          = Ok (mkSub CMD_DESTROY rest)) as Hdec.
  { apply subcell_roundtrip; [done|]. unfold RelaySubCell_encode. cbn [sub_body].
    by rewrite bool_decide_false by lia. }
  unfold handle_relay_from_prev. unfold st_bind at 1, st_get.
  rewrite (bind_get_entry id e), (bool_decide_false (estate e ≠ Open)) by naive_solver.
  rewrite Hk. cbn [ok_or]. rewrite bind_lift_ok, Hct. cbn [map_err]. rewrite bind_lift_ok.
  unfold checked_add_u64. rewrite bool_decide_true by done. cbn [ok_or]. rewrite bind_lift_ok.
  rewrite (bind_modify id e) by done. unfold relay_dispatch. rewrite Hdec.
  unfold st_total, handle_destroy_from_prev. cbn [sub_command].
  rewrite lookup_upd. cbn. rewrite Ho, Hout, bool_decide_false by done.
  eexists. split; [unfold upd, set_circuits; cbn; by rewrite insert_insert_eq|done].
Qed.

End misread.

(** ** Witnesses *)
Import CircuitDemo.

Lemma start_empty : empty_bridge BridgeDemo.start.
Proof. split; [done|]. split; [done|]. vm_decide. Qed.

Lemma relay_start_empty : empty_bridge BridgeDemo.relay_start.
Proof. split; [done|]. split; [done|]. vm_decide. Qed.

(** A short life: create, open, extend, destroy. *)
Definition short_life : list BridgeOp :=
  BridgeDemo.open_ops 7 ++ [BridgeDemo.extend_op 7; BridgeDemo.extend_cont_op 7;
    OpPrev (mkCell 7 CMD_DESTROY [])].

Definition short_run := run_ops (CC := crypto) short_life 0 [] BridgeDemo.start.

Lemma short_run_ok : bridge_run (CC := crypto) BridgeDemo.start short_run.1 short_run.2.
Proof.
  exact (run_ops_run (CC := crypto) BridgeDemo.start short_life 0 [] BridgeDemo.start
           ltac:(vm_compute; reflexivity) (br_init _)).
Qed.

Lemma bridge_invariant_witness : bridge_inv short_run.2.
Proof. exact (bridge_invariant BridgeDemo.start _ _ start_empty short_run_ok). Defined.

Lemma teardown_exactly_once_witness :
  births 7 short_run.1 = 1 ∧ births 7 short_run.1 = closings 7 short_run.1 + live short_run.2 7.
Proof.
  split; [vm_compute; reflexivity|].
  exact (teardown_exactly_once BridgeDemo.start _ _ 7 start_empty short_run_ok).
Defined.

Lemma tick_exact_witness :
  op_ok (OpTick [7]) short_run.2
  ∧ circuits (tick [7] 0 short_run.2).1 !! 7 = None.
Proof.
  assert (op_ok (OpTick [7]) short_run.2) as Ho.
  { change ([7] ≡ₚ (map_to_list (circuits short_run.2)).*1).
    replace ((map_to_list (circuits short_run.2)).*1) with [7] by (vm_compute; reflexivity). done. }
  split; [exact Ho|]. rewrite (tick_exact [7] 0 short_run.2 7 Ho). vm_compute. reflexivity.
Defined.

(** A relay session: the circuit's token is verified, then a cell arrives. *)
Definition relayed_run :=
  run_ops (CC := crypto) (BridgeDemo.open_ops 7 ++ [OpVerified 7]) 0 [] BridgeDemo.relay_start.

Lemma relayed_run_ok : bridge_run (CC := crypto) BridgeDemo.relay_start relayed_run.1 relayed_run.2.
Proof.
  exact (run_ops_run (CC := crypto) BridgeDemo.relay_start (BridgeDemo.open_ops 7 ++ [OpVerified 7]) 0 []
           BridgeDemo.relay_start ltac:(vm_compute; reflexivity) (br_init _)).
Qed.

Definition relay_cell : Cell :=
  mkCell 7 CMD_RELAY
    match onion_seal (CC := crypto) [forward BridgeDemo.keys] [x07; x00; x01; xaa] DIR_CLIENT_TO_HOP 0 0 with
    | Ok ct => ct
    | Err _ => []
    end.

Lemma relay_gate_witness :
  (bridge_exec (CC := crypto) (OpPrev relay_cell) 0 relayed_run.2).2
  = [RelayPayloadAtExit 7 [x07; x00; x01; xaa]]
  ∧ verified_since 7 relayed_run.1 = true.
Proof.
  assert ((bridge_exec (CC := crypto) (OpPrev relay_cell) 0 relayed_run.2).2
    = [RelayPayloadAtExit 7 [x07; x00; x01; xaa]]) as Ha by (vm_compute; reflexivity).
  split; [exact Ha|].
  refine (relay_gate BridgeDemo.relay_start relayed_run.1 relayed_run.2 (OpPrev relay_cell) 0
    (RelayPayloadAtExit 7 [x07; x00; x01; xaa]) 7 relay_start_empty eq_refl relayed_run_ok I _ eq_refl).
  rewrite Ha. left.
Defined.

(** The entry of circuit 7 with a next hop. *)
Definition linked : CircuitEntry :=
  mkEntry 7 (Some 9) Open (Some BridgeDemo.keys) 0 0 0 0 None None None true false.

Lemma ciphertext_read_as_destroy_witness :
  ∃ e', handle_relay_from_prev (CC := crypto) 7
          match onion_seal (CC := crypto) [forward BridgeDemo.keys]
                  ([x09; x00; x10] ++ Demo.tag (aad DIR_CLIENT_TO_HOP 0 0)) DIR_CLIENT_TO_HOP 0 0 with
          | Ok ct => ct | Err _ => [] end 0 (upd 7 linked BridgeDemo.start)
        = (upd 7 e' (upd 7 linked BridgeDemo.start), Ok [DestroyNextLink 9; DestroyPrevLink 7])
    ∧ estate e' = Destroyed.
Proof.
  apply (ciphertext_read_as_destroy (CL := laws) (upd 7 linked BridgeDemo.start) 7 linked BridgeDemo.keys 9
    (layer x05) [x09; x00; x10] 0 (Demo.tag (aad DIR_CLIENT_TO_HOP 0 0)));
    first [reflexivity | vm_decide].
Defined.

Definition hs_message : list byte := replicate 1221 x42.

Lemma create_reassembles_witness :
  ∃ first conts e, HandshakeBody_encode_fragmented hs_message MAX_CELL_PAYLOAD = Ok (first, conts)
    ∧ Forall (λ b, zlen b ≤ MAX_CELL_PAYLOAD) (first :: conts)
    ∧ feed (λ c, process_inbound_from_prev (CC := crypto) c 0)
        (flight 7 CMD_CREATE CMD_CREATE_CONT first conts) BridgeDemo.start
      = (upd 7 e BridgeDemo.start, [PerformHandshake 7 hs_message])
    ∧ estate e = Creating ∧ pending_create e = None.
Proof.
  apply (create_reassembles 7 hs_message 0 BridgeDemo.start);
    first [reflexivity | apply empty_bridge_inv, start_empty | vm_decide].
Defined.

Definition opened : BridgeCircuitState :=
  (run_ops (CC := crypto) (BridgeDemo.open_ops 7) 0 [] BridgeDemo.start).2.

Definition opened_entry : CircuitEntry :=
  mkEntry 7 None Open (Some BridgeDemo.keys) 0 0 0 0 None None None true false.

Definition extend_body : ExtendBody := mkExtend (replicate 32 x03) (Ipv4 [x0a; x00; x00; x01] 443) hs_message.

Lemma extend_reassembles_witness :
  ∃ first conts e', ExtendBody_encode_fragmented extend_body MAX_CELL_PAYLOAD = Ok (first, conts)
    ∧ Forall (λ b, zlen b ≤ MAX_CELL_PAYLOAD) (first :: conts)
    ∧ feed (λ c, process_inbound_from_prev (CC := crypto) c 0)
        (flight 7 CMD_EXTEND CMD_EXTEND_CONT first conts) opened
      = (extending 7 (deterministic_out_circ_id_picker 1) e' (set_seq 1 opened),
         [OpenNextHop 7 (deterministic_out_circ_id_picker 1) (next_hop_pk extend_body)
            (endpoint extend_body) (hs_msg1 extend_body)])
    ∧ estate e' = Extending ∧ out_circ_id e' = Some (deterministic_out_circ_id_picker 1).
Proof.
  apply (extend_reassembles 7 extend_body 0 opened opened_entry (set_seq 1 opened)
           (deterministic_out_circ_id_picker 1)).
  - split; [reflexivity|]. split; [vm_decide|]. split; [by eexists|vm_decide].
  - vm_compute. reflexivity.
  - reflexivity.
  - reflexivity.
  - reflexivity.
  - intros _. reflexivity.
  - vm_decide.
  - apply allocate_first; [vm_compute; reflexivity|reflexivity|vm_decide|vm_compute; reflexivity].
Defined.

Definition waiting_entry : CircuitEntry :=
  mkEntry 7 (Some 9) Extending (Some BridgeDemo.keys) 0 0 0 0 None None None true false.
Definition waiting : BridgeCircuitState := extending 7 9 waiting_entry BridgeDemo.start.

Definition answer : list byte := replicate 1189 x24.
Definition answer_flight : list byte * list (list byte) :=
  match HandshakeBody_encode_fragmented answer MAX_CELL_PAYLOAD with Ok x => x | Err _ => ([], []) end.

Lemma created_becomes_extended_witness :
  ∃ first' conts' chunk e',
    feed (λ c, process_inbound_from_next (CC := crypto) c 0)
      (flight 9 CMD_CREATED CMD_CREATED_CONT answer_flight.1 answer_flight.2) waiting
    = (upd 7 e' waiting, map (SendToPrev 7) (flight 7 CMD_EXTENDED CMD_EXTENDED_CONT first' conts'))
    ∧ ExtendedBody_decode_partial first' = Ok (zlen answer, chunk) ∧ chunk ++ concat conts' = answer
    ∧ estate e' = Open ∧ out_circ_id e' = Some 9.
Proof.
  refine (created_becomes_extended 7 9 answer 0 waiting waiting_entry answer_flight.1 answer_flight.2
    _ _ eq_refl eq_refl _ _ _).
  - vm_compute. reflexivity.
  - vm_compute. reflexivity.
  - done.
  - vm_decide.
  - vm_compute. reflexivity.
Defined.
