(* ===== verification/CircuitPath.v ===== *)
(** * A circuit end to end

    The client's [Circuit] and the bridges along it, with the cells in flight
    on every link. Cells move one at a time and in any interleaving: the client
    seals and sends, each hop peels and forwards, the exit injects replies, each
    hop wraps them on the way back, the client opens them. The counters of the
    client and of the hops never disagree, so every cell is accepted where it
    arrives and payloads come out in the order they went in. *)

From stdpp Require Import base numbers list gmap strings.
From Stdlib Require Import ZArith Lia Strings.Byte.
From S2P Require Import Prelude Bytes SessionFrames CircuitOnion CircuitCell CircuitExtend CircuitClient CircuitBridge CircuitBridgeStep.

(** ** The system *)

(** A bridge on the path: its state, the circuit's identifier on the link
    towards the client, the cells on their way to it from that side and the
    cells it has sent back. *)
Record Hop : Type := mkHop {
  hstate : BridgeCircuitState;
  hid : Z;
  hfwd : list Cell;
  hrev : list Cell;
}.

Record Path : Type := mkPath {
  pclient : Circuit;
  phops : list Hop;
  psent : list (list byte);
  pdelivered : list (list byte);
  pinjected : list (list byte);
  preceived : list (list byte);
}.

Inductive PathAct : Type :=
| PSend (payload : list byte)
| PForward (i : nat)
| PInject (payload : list byte)
| PBack (i : nat)
| PRecv.

Definition push_fwd (c : Cell) (h : Hop) : Hop := mkHop (hstate h) (hid h) (hfwd h ++ [c]) (hrev h).
Definition push_rev (c : Cell) (h : Hop) : Hop := mkHop (hstate h) (hid h) (hfwd h) (hrev h ++ [c]).

Section system.
Context {CC : CircuitCrypto}.

(** Hop [i] processes the next cell from the client's side. [None]: there is
    none, or the bridge answered with anything but passing the payload on. *)
Fixpoint forward_at (now : Z) (i : nat) (hops : list Hop) : option (list Hop * list (list byte)) :=
  match hops, i with
  | h :: hs, O =>
    match hfwd h with
    | [] => None
    | c :: q =>
      match process_inbound_from_prev c now (hstate h), hs with
      | (s', Ok [SendToNext o cell]), h' :: hs' =>
        if bool_decide (o = hid h')
        then Some (mkHop s' (hid h) q (hrev h) :: push_fwd cell h' :: hs', [])
        else None
      | (s', Ok [RelayPayloadAtExit _ p]), _ => Some (mkHop s' (hid h) q (hrev h) :: hs, [p])
      | _, _ => None
      end
    end
  | h :: hs, S i =>
    match forward_at now i hs with
    | Some (hs', d) => Some (h :: hs', d)
    | None => None
    end
  | [], _ => None
  end.

(** The exit hop injects a reply. *)
Fixpoint inject_at (now : Z) (p : list byte) (hops : list Hop) : option (list Hop) :=
  match hops with
  | [] => None
  | [h] =>
    match inject_exit_response (hid h) p now (hstate h) with
    | (s', Ok [SendToPrev _ cell]) => Some [push_rev cell (mkHop s' (hid h) (hfwd h) (hrev h))]
    | _ => None
    end
  | h :: hs => match inject_at now p hs with Some hs' => Some (h :: hs') | None => None end
  end.

(** Hop [i] processes the next cell that hop [i + 1] sent back. *)
Fixpoint back_at (now : Z) (i : nat) (hops : list Hop) : option (list Hop) :=
  match hops, i with
  | h :: h' :: hs, O =>
    match hrev h' with
    | [] => None
    | c :: q =>
      match process_inbound_from_next c now (hstate h) with
      | (s', Ok [SendToPrev _ cell]) =>
        Some (push_rev cell (mkHop s' (hid h) (hfwd h) (hrev h))
              :: mkHop (hstate h') (hid h') (hfwd h') q :: hs)
      | _ => None
      end
    end
  | h :: hs, S i => match back_at now i hs with Some hs' => Some (h :: hs') | None => None end
  | _, _ => None
  end.

Definition path_exec (act : PathAct) (now : Z) (p : Path) : option Path :=
  match act with
  | PSend m =>
    match relay_seal m (pclient p), phops p with
    | (c', Ok ct), h :: hs =>
      match Cell_new (hid h) CMD_RELAY ct with
      | Ok cell => Some (mkPath c' (push_fwd cell h :: hs) (psent p ++ [m]) (pdelivered p)
                           (pinjected p) (preceived p))
      | Err _ => None
      end
    | _, _ => None
    end
  | PForward i =>
    match forward_at now i (phops p) with
    | Some (hs, d) => Some (mkPath (pclient p) hs (psent p) (pdelivered p ++ d) (pinjected p) (preceived p))
    | None => None
    end
  | PInject m =>
    match inject_at now m (phops p) with
    | Some hs => Some (mkPath (pclient p) hs (psent p) (pdelivered p) (pinjected p ++ [m]) (preceived p))
    | None => None
    end
  | PBack i =>
    match back_at now i (phops p) with
    | Some hs => Some (mkPath (pclient p) hs (psent p) (pdelivered p) (pinjected p) (preceived p))
    | None => None
    end
  | PRecv =>
    match phops p with
    | h :: hs =>
      match hrev h with
      | [] => None
      | c :: q =>
        match relay_open (body c) (pclient p) with
        | (c', Ok m) => Some (mkPath c' (mkHop (hstate h) (hid h) (hfwd h) q :: hs) (psent p)
                                (pdelivered p) (pinjected p) (preceived p ++ [m]))
        | _ => None
        end
      end
    | [] => None
    end
  end.

(** ** The onion of a message *)

(** A message under the layers [ls], each at its own counter. *)
Fixpoint sealed (dir : byte) (ls : list OnionLayer) (seqs : list Z) (p : list byte) : list byte :=
  match ls, seqs with
  | l :: ls, s :: seqs =>
    match onion_seal [l] (sealed dir ls seqs p) dir 0 s with Ok c => c | Err _ => [] end
  | _, _ => p
  end.

(** The counters after [k] cells. *)
Definition after (k : nat) (seqs : list Z) : list Z := map (λ s, s + Z.of_nat k) seqs.

(** Bytes that a hop takes as a command to itself. *)
Definition control (b : list byte) : bool :=
  match RelaySubCell_decode b with
  | Ok sub =>
    match sub_command sub with
    | CMD_EXTEND | CMD_EXTEND_CONT | CMD_EXTEND_FINISH | CMD_DESTROY | CMD_PADDING => true
    | _ => false
    end
  | Err _ => false
  end.

End system.

(** ** Synchronised paths *)

(** The entry of a hop that is open, authorised and linked to the next hop. *)
Record hop_entry (s : BridgeCircuitState) (id : Z) (l r : OnionLayer) (fs rs : Z) (next : option Z)
  (e : CircuitEntry) : Prop := {
  he_lookup : circuits s !! id = Some e;
  he_open : estate e = Open;
  he_keys : prev_keys e = Some (mkHopKeys l r);
  he_fwd : forward_seq e = fs;
  he_rev : reverse_seq e = rs;
  he_out : out_circ_id e = next;
  he_auth : auth (relay_mode s) e;
  he_link : match next with Some o => out_to_in s !! o = Some id ∧ o ≠ 0 | None => True end;
  he_id : id ≠ 0;
}.

(** Nothing in flight, and every hop's counters are the client's. *)
Fixpoint synced (ls rs : list OnionLayer) (ss ts : list Z) (hops : list Hop) : Prop :=
  match hops, ls, rs, ss, ts with
  | [], [], [], [], [] => True
  | h :: hs, l :: ls, r :: rs, s :: ss, t :: ts =>
    layer_wf l ∧ layer_wf r ∧ hfwd h = [] ∧ hrev h = []
    ∧ (∃ e, hop_entry (hstate h) (hid h) l r s t (hid <$> head hs) e)
    ∧ synced ls rs ss ts hs
  | _, _, _, _, _ => False
  end.

Definition path_synced (c : Circuit) (hops : list Hop) : Prop :=
  destroyed c = false ∧ circuit_inv c
  ∧ synced (c_forward c) (c_reverse c) (c2h_seq c) (h2c_seq c) hops.

(** ** Facts about the onion *)
Section onion_path.
Context {CC : CircuitCrypto} {CL : CircuitCryptoLaws CC}.

Lemma fits_cipher n : n ≤ MAX_CELL_PAYLOAD → n ≤ CHACHA_MAX_MSG.
Proof. unfold CHACHA_MAX_MSG. lia. Qed.

Lemma sealed_cons dir l ls s seqs p :
  layer_wf l → zlen (sealed dir ls seqs p) + 16 ≤ MAX_CELL_PAYLOAD →
  onion_seal [l] (sealed dir ls seqs p) dir 0 s = Ok (sealed dir (l :: ls) (s :: seqs) p)
  ∧ onion_open [l] (sealed dir (l :: ls) (s :: seqs) p) dir 0 s = Ok (sealed dir ls seqs p)
  ∧ zlen (sealed dir (l :: ls) (s :: seqs) p) = zlen (sealed dir ls seqs p) + 16.
Proof.
  intros Hl Hz. destruct (seal_open_one l (sealed dir ls seqs p) dir 0 s Hl) as (c & Hs & Ho & Hc);
    [vm_compute; done|apply fits_cipher; lia|].
  cbn [sealed]. rewrite Hs. done.
Qed.

Lemma sealed_len dir ls seqs p : Forall layer_wf ls → length seqs = length ls →
  zlen p + 16 * zlen ls ≤ MAX_CELL_PAYLOAD → zlen (sealed dir ls seqs p) = zlen p + 16 * zlen ls.
Proof.
  revert seqs. induction ls as [|l ls IH]; intros [|s seqs] Hw Hlen Hz; try done; cbn [sealed].
  { change (zlen (@nil OnionLayer)) with 0. lia. }
  apply Forall_cons_1 in Hw as [Hl Hw]. rewrite zlen_cons in *.
  assert (zlen (sealed dir ls seqs p) = zlen p + 16 * zlen ls) as HI by (apply IH; [done|by injection Hlen|lia]).
  destruct (sealed_cons dir l ls s seqs p Hl) as (Hs & _ & Hc); [lia|]. cbn [sealed] in Hc. lia.
Qed.

Lemma seal_hops_sealed ls seqs p : Forall layer_wf ls → length seqs = length ls →
  zlen p + 16 * zlen ls ≤ MAX_CELL_PAYLOAD →
  seal_hops ls seqs 0 p = Ok (sealed DIR_CLIENT_TO_HOP ls seqs p).
Proof.
  revert seqs. induction ls as [|l ls IH]; intros [|s seqs] Hw Hlen Hz; try done; cbn [seal_hops].
  apply Forall_cons_1 in Hw as [Hl Hw]. rewrite zlen_cons in Hz. injection Hlen as Hlen.
  rewrite IH by (done || lia). apply sealed_cons; [done|]. rewrite sealed_len by (done || lia). lia.
Qed.

Lemma open_hops_sealed ls seqs p : Forall layer_wf ls → length seqs = length ls →
  zlen p + 16 * zlen ls ≤ MAX_CELL_PAYLOAD →
  open_hops ls seqs 0 (sealed DIR_HOP_TO_CLIENT ls seqs p) = Ok p.
Proof.
  revert seqs. induction ls as [|l ls IH]; intros [|s seqs] Hw Hlen Hz; try done; cbn [open_hops].
  apply Forall_cons_1 in Hw as [Hl Hw]. rewrite zlen_cons in Hz. injection Hlen as Hlen.
  destruct (sealed_cons DIR_HOP_TO_CLIENT l ls s seqs p Hl) as (_ & Ho & _).
  { rewrite sealed_len by (done || lia). lia. }
  rewrite Ho. by apply IH; [| |lia].
Qed.

(** ** One hop *)
Lemma prev_relay id ct now :
  process_inbound_from_prev (mkCell id CMD_RELAY ct) now = handle_relay_from_prev id ct now.
Proof. reflexivity. Qed.

Lemma hop_relay_prev s id l r fs rs next e ct peeled now :
  hop_entry s id l r fs rs next e → onion_open [l] ct DIR_CLIENT_TO_HOP 0 fs = Ok peeled →
  fs + 1 ≤ u64_max → control peeled = false → zlen peeled ≤ MAX_CELL_PAYLOAD →
  ∃ e', process_inbound_from_prev (mkCell id CMD_RELAY ct) now s
        = (upd id e' s, Ok [match next with
                            | Some o => SendToNext o (mkCell o CMD_RELAY peeled)
                            | None => RelayPayloadAtExit id peeled
                            end])
    ∧ hop_entry (upd id e' s) id l r (fs + 1) rs next e'.
Proof.
  intros [He Hop Hk Hf Hr Ho Ha Hl Hid] Hopen Hmax Hctl Hz.
  rewrite prev_relay.
  unfold handle_relay_from_prev. unfold st_bind at 1, st_get.
  rewrite (bind_get_entry id e), (bool_decide_false (estate e ≠ Open)) by naive_solver.
  rewrite Hk. cbn [ok_or]. rewrite bind_lift_ok. cbn [forward]. rewrite Hf, Hopen.
  cbn [map_err]. rewrite bind_lift_ok. unfold checked_add_u64. rewrite bool_decide_true by done.
  cbn [ok_or]. rewrite bind_lift_ok, (bind_modify id e) by done. set (e1 := set_last_activity _ _).
  assert (relay_mode s && negb (token_verified e) = false) as ->.
  { destruct (relay_mode s) eqn:Erm; [|done]. by rewrite Ha. }
  exists e1. split.
  - assert (relay_dispatch id (out_circ_id e) false peeled now (upd id e1 s)
      = match out_circ_id e with
        | Some out => (new_cell <- st_lift (map_err CellErr (Cell_new out CMD_RELAY peeled)) ;;
                       st_ret [SendToNext out new_cell]) (upd id e1 s)
        | None => (upd id e1 s, Ok [RelayPayloadAtExit id peeled])
        end) as ->.
    { unfold relay_dispatch, control in *. destruct (RelaySubCell_decode peeled) as [sub|].
      - destruct (sub_command sub); try done; by destruct (out_circ_id e).
      - by destruct (out_circ_id e). }
    rewrite Ho. destruct next as [o|]; [|done]. destruct Hl as [_ Hl].
    by rewrite Cell_new_intro.
  - split; try done. apply lookup_upd.
Qed.

Lemma hop_relay_next s id l r fs rs next e bd wrapped now :
  hop_entry s id l r fs rs next e → onion_seal [r] bd DIR_HOP_TO_CLIENT 0 rs = Ok wrapped →
  rs + 1 ≤ u64_max → zlen wrapped ≤ MAX_CELL_PAYLOAD →
  ∃ e', handle_relay_from_next id bd now s
        = (upd id e' s, Ok [SendToPrev id (mkCell id CMD_RELAY wrapped)])
    ∧ hop_entry (upd id e' s) id l r fs (rs + 1) next e'.
Proof.
  intros [He Hop Hk Hf Hr Ho Ha Hl Hid] Hseal Hmax Hz. unfold handle_relay_from_next.
  rewrite (bind_get_entry id e), (bool_decide_false (estate e ≠ Open)) by naive_solver.
  rewrite Hk. cbn [ok_or]. rewrite bind_lift_ok. cbn [reverse]. rewrite Hr, Hseal.
  cbn [map_err]. rewrite bind_lift_ok. unfold checked_add_u64. rewrite bool_decide_true by done.
  cbn [ok_or]. rewrite bind_lift_ok, (bind_modify id e) by done. set (e1 := set_last_activity _ _).
  exists e1. unfold to_prev. rewrite Cell_new_intro by done. cbn [map_err]. split; [done|].
  split; try done. apply lookup_upd.
Qed.

Lemma hop_from_next s id l r fs rs o e bd now :
  hop_entry s id l r fs rs (Some o) e →
  process_inbound_from_next (mkCell o CMD_RELAY bd) now s = handle_relay_from_next id bd now s.
Proof.
  intros H. destruct (he_link _ _ _ _ _ _ _ _ H) as [Hl _].
  unfold process_inbound_from_next. unfold st_bind at 1, st_get. cbn [circ_id command body].
  by rewrite Hl.
Qed.

End onion_path.

(** ** The invariant of the path *)
Section path_facts.
Context {CC : CircuitCrypto} {CL : CircuitCryptoLaws CC}.

(** No hop takes the message as a command to itself: not the ciphertexts that
    the hops before the exit peel, nor the payload at the exit. *)
Fixpoint clean (ls : list OnionLayer) (seqs : list Z) (p : list byte) : Prop :=
  match ls, seqs with
  | _ :: ls, _ :: seqs =>
    control (sealed DIR_CLIENT_TO_HOP ls seqs p) = false ∧ clean ls seqs p
  | _, _ => True
  end.

(** The cells of the messages [msgs], the first of them being number [k]. *)
Fixpoint cells_from (dir : byte) (id : Z) (ls : list OnionLayer) (seqs : list Z) (k : nat)
  (msgs : list (list byte)) : list Cell :=
  match msgs with
  | [] => []
  | p :: msgs => mkCell id CMD_RELAY (sealed dir ls (after k seqs) p)
                 :: cells_from dir id ls seqs (S k) msgs
  end.

Lemma cells_from_snoc dir id ls seqs k msgs p :
  cells_from dir id ls seqs k (msgs ++ [p])
  = cells_from dir id ls seqs k msgs
    ++ [mkCell id CMD_RELAY (sealed dir ls (after (k + length msgs) seqs) p)].
Proof.
  revert k. induction msgs as [|m msgs IH]; intros k; cbn; [by rewrite Nat.add_0_r|].
  by rewrite IH, Nat.add_succ_comm.
Qed.

(** [fin]: the messages that entered the first of these hops; [taken]: how many
    of the replies [rmsgs] left it and were taken; [dlv]: what the exit
    delivered. A hop has peeled [n] of the messages and wrapped [q] of the
    replies. *)
Fixpoint path_inv (ls rs : list OnionLayer) (ss ts : list Z) (hops : list Hop)
  (fin : list (list byte)) (taken : nat) (rmsgs dlv : list (list byte)) : Prop :=
  match hops, ls, rs, ss, ts with
  | [], [], [], [], [] => dlv = fin ∧ taken = length rmsgs
  | h :: hs, l :: ls', r :: rs', s :: ss', t :: ts' =>
    Forall layer_wf ls ∧ Forall layer_wf rs ∧ ∃ n q : nat,
      (n ≤ length fin)%nat ∧ (taken ≤ q ≤ length rmsgs)%nat
      ∧ (∃ e, hop_entry (hstate h) (hid h) l r (s + Z.of_nat n) (t + Z.of_nat q) (hid <$> head hs) e)
      ∧ hfwd h = cells_from DIR_CLIENT_TO_HOP (hid h) ls ss n (drop n fin)
      ∧ hrev h = cells_from DIR_HOP_TO_CLIENT (hid h) rs ts taken (take (q - taken) (drop taken rmsgs))
      ∧ Forall (λ s, s + zlen fin ≤ u64_max) ss ∧ Forall (λ t, t + zlen rmsgs ≤ u64_max) ts
      ∧ (∀ k p, fin !! k = Some p → zlen p + 16 * zlen ls ≤ MAX_CELL_PAYLOAD ∧ clean ls (after k ss) p)
      ∧ (∀ k p, rmsgs !! k = Some p → zlen p + 16 * zlen rs ≤ MAX_CELL_PAYLOAD)
      ∧ path_inv ls' rs' ss' ts' hs (take n fin) q rmsgs dlv
  | _, _, _, _, _ => False
  end.

Lemma path_inv_lengths ls rs ss ts hops fin taken rmsgs dlv :
  path_inv ls rs ss ts hops fin taken rmsgs dlv →
  length ls = length hops ∧ length rs = length hops ∧ length ss = length hops ∧ length ts = length hops
  ∧ Forall layer_wf ls ∧ Forall layer_wf rs.
Proof.
  revert ls rs ss ts fin taken. induction hops as [|h hs IH]; intros [|l ls] [|r rs] [|s ss] [|t ts] fin taken H;
    cbn [path_inv] in H; try done.
  destruct H as (Hl & Hr & n & q & _ & _ & _ & _ & _ & _ & _ & _ & _ & H).
  apply IH in H as (? & ? & ? & ? & _). cbn. split_and!; try lia; done.
Qed.

(** A new message enters the first hop. *)
Lemma path_push ls rs ss ts h hs fin taken rmsgs dlv p :
  path_inv ls rs ss ts (h :: hs) fin taken rmsgs dlv →
  Forall (λ s, s + zlen fin + 1 ≤ u64_max) ss →
  zlen p + 16 * zlen ls ≤ MAX_CELL_PAYLOAD → clean ls (after (length fin) ss) p →
  path_inv ls rs ss ts
    (push_fwd (mkCell (hid h) CMD_RELAY (sealed DIR_CLIENT_TO_HOP ls (after (length fin) ss) p)) h :: hs)
    (fin ++ [p]) taken rmsgs dlv.
Proof.
  destruct ls as [|l ls], rs as [|r rs], ss as [|s ss], ts as [|t ts]; try done. cbn [path_inv].
  intros (Hl & Hr & n & q & Hn & Hq & He & Hfw & Hrv & Hss & Hts & Hfin & Hrm & H) Hroom Hz Hcl.
  split; [done|]. split; [done|]. exists n, q. rewrite length_app. cbn [length].
  split_and!; try done; try lia.
  - cbn. rewrite drop_app_le, cells_from_snoc, Hfw by done. do 2 f_equal.
    rewrite length_drop. replace (n + (length fin - n))%nat with (length fin) by lia. done.
  - eapply Forall_impl; [exact Hroom|]. intros x Hx. rewrite zlen_app. change (zlen [p]) with 1.
    cbn beta in Hx. lia.
  - intros k m Hk. apply lookup_app_Some in Hk as [Hk|[Hge Hk]]; [by apply Hfin|].
    destruct (k - length fin)%nat as [|j] eqn:Ej; [|done]. cbn in Hk. simplify_eq.
    replace k with (length fin) by lia. done.
  - by rewrite take_app_le.
Qed.

(** The oldest cell that the first hop sent back is taken. *)
Lemma path_pop ls rs ss ts h hs fin taken rmsgs dlv c q0 :
  path_inv ls rs ss ts (h :: hs) fin taken rmsgs dlv → hrev h = c :: q0 →
  ∃ p, rmsgs !! taken = Some p
    ∧ c = mkCell (hid h) CMD_RELAY (sealed DIR_HOP_TO_CLIENT rs (after taken ts) p)
    ∧ zlen p + 16 * zlen rs ≤ MAX_CELL_PAYLOAD
    ∧ path_inv ls rs ss ts (mkHop (hstate h) (hid h) (hfwd h) q0 :: hs) fin (S taken) rmsgs dlv.
Proof.
  destruct ls as [|l ls], rs as [|r rs], ss as [|s ss], ts as [|t ts]; try done. cbn [path_inv].
  intros (Hl & Hr & n & q & Hn & Hq & He & Hfw & Hrv & Hss & Hts & Hfin & Hrm & H) Hc.
  rewrite Hc in Hrv. destruct (drop taken rmsgs) as [|p rest] eqn:Ed.
  { by rewrite take_nil in Hrv. }
  assert (rmsgs !! taken = Some p) as Hp.
  { rewrite <- (Nat.add_0_r taken), <- lookup_drop, Ed. done. }
  destruct (q - taken)%nat as [|j] eqn:Ej; [done|]. cbn [take cells_from] in Hrv. simplify_eq.
  exists p. split; [done|]. split; [done|]. split; [by eapply Hrm|]. split; [done|]. split; [done|]. exists n, q.
  split_and!; try done; try lia.
  assert (drop (S taken) rmsgs = rest) as ->.
  { rewrite <- Nat.add_1_r, <- drop_drop, Ed. by rewrite skipn_cons, drop_0. }
  by replace (q - S taken)%nat with j by lia.
Qed.

(** A hop keeps its place: the identifiers on the links do not change. *)
Lemma head_hid (hs hs' : list Hop) : map hid hs' = map hid hs → hid <$> head hs' = hid <$> head hs.
Proof. destruct hs, hs'; cbn; congruence. Qed.

Lemma after_cons k s ss : after k (s :: ss) = (s + Z.of_nat k) :: after k ss.
Proof. reflexivity. Qed.

Lemma drop_lookup {A} (l : list A) n x rest : drop n l = x :: rest →
  l !! n = Some x ∧ (n < length l)%nat ∧ drop (S n) l = rest ∧ take (S n) l = take n l ++ [x].
Proof.
  intros H. assert (l !! n = Some x) as Hn.
  { rewrite <- (Nat.add_0_r n), <- lookup_drop, H. done. }
  split_and!; [done|by eapply lookup_lt_Some| |by apply take_S_r].
  rewrite <- Nat.add_1_r, <- drop_drop, H. by rewrite skipn_cons, drop_0.
Qed.

(** The first hop peels its next cell. *)
Lemma forward_head ls rs ss ts h hs fin taken rmsgs dlv now :
  path_inv ls rs ss ts (h :: hs) fin taken rmsgs dlv → hfwd h ≠ [] →
  ∃ hops' d, forward_at now 0 (h :: hs) = Some (hops', d)
    ∧ path_inv ls rs ss ts hops' fin taken rmsgs (dlv ++ d) ∧ map hid hops' = map hid (h :: hs).
Proof.
  destruct ls as [|l ls], rs as [|r rs], ss as [|s ss], ts as [|t ts]; try done. cbn [path_inv].
  intros (Hl & Hr & n & q & Hn & Hq & [e He] & Hfw & Hrv & Hss & Hts & Hfin & Hrm & H) Hne.
  destruct (drop n fin) as [|p rest] eqn:Ed; [by rewrite Hfw in Hne|].
  destruct (drop_lookup _ _ _ _ Ed) as (Hp & Hlt & Hrest & Htake).
  pose proof (path_inv_lengths _ _ _ _ _ _ _ _ _ H) as (Lls & _ & Lss & _ & Hwf & _).
  destruct (Hfin n p Hp) as [Hz Hcl]. rewrite zlen_cons in Hz. destruct Hcl as [Hctl Hcl].
  pose proof Hss as Hss0. apply Forall_cons_1 in Hss0 as [Hs Hss']. apply Forall_cons_1 in Hl as [Hl1 Hl2].
  assert (zlen (sealed DIR_CLIENT_TO_HOP ls (after n ss) p) = zlen p + 16 * zlen ls) as Hzs.
  { apply sealed_len; [done| |lia]. unfold after. rewrite length_map. lia. }
  destruct (sealed_cons DIR_CLIENT_TO_HOP l ls (s + Z.of_nat n) (after n ss) p Hl1) as (_ & Hopen & _); [lia|].
  destruct (hop_relay_prev (hstate h) (hid h) l r (s + Z.of_nat n) (t + Z.of_nat q) _ e _ _ now He Hopen)
    as (e' & HE & He'); [unfold zlen in Hs; lia|done|lia|].
  cbn [cells_from] in Hfw. cbn [forward_at]. rewrite Hfw, after_cons, HE.
  assert (s + Z.of_nat n + 1 = s + Z.of_nat (S n)) as Hsn by lia. rewrite Hsn in He'.
  assert (∀ hs' dlv', hid <$> head hs' = hid <$> head hs →
    path_inv ls rs ss ts hs' (take (S n) fin) q rmsgs dlv' →
    path_inv (l :: ls) (r :: rs) (s :: ss) (t :: ts)
      (mkHop (upd (hid h) e' (hstate h)) (hid h)
         (cells_from DIR_CLIENT_TO_HOP (hid h) (l :: ls) (s :: ss) (S n) rest) (hrev h) :: hs')
      fin taken rmsgs dlv') as Hback.
  { intros hs' dlv' Hhd Hinv. cbn [path_inv hstate hid hfwd hrev]. split; [by constructor|]. split; [done|].
    exists (S n), q. rewrite Hhd, Hrest. split_and!; try done; try lia. by exists e'. }
  destruct hs as [|h' hs]; cbn [head fmap option_fmap option_map].
  - eexists _, _. split; [reflexivity|]. split; [|done].
    apply (Hback [] (dlv ++ [sealed DIR_CLIENT_TO_HOP ls (after n ss) p])); [done|].
    destruct ls, rs, ss, ts; try done. cbn in H |- *. destruct H as [-> ->]. split; [|done]. by rewrite Htake.
  - rewrite bool_decide_true by done. eexists _, _. split; [reflexivity|]. split; [|done].
    rewrite app_nil_r. apply Hback; [done|]. rewrite Htake.
    assert (length (take n fin) = n) as Hln by (rewrite length_take; lia).
    pose proof (path_push ls rs ss ts h' hs (take n fin) q rmsgs dlv p H) as Hpush. rewrite Hln in Hpush.
    apply Hpush; [|lia|done]. eapply Forall_impl; [exact Hss'|]. intros x Hx. cbn beta in Hx.
    unfold zlen in *. lia.
Qed.

Lemma path_inv_tail l ls r rs s ss t ts h hs fin taken rmsgs dlv :
  path_inv (l :: ls) (r :: rs) (s :: ss) (t :: ts) (h :: hs) fin taken rmsgs dlv →
  ∃ n q, path_inv ls rs ss ts hs (take n fin) q rmsgs dlv
    ∧ ∀ hs' dlv', map hid hs' = map hid hs → path_inv ls rs ss ts hs' (take n fin) q rmsgs dlv' →
        path_inv (l :: ls) (r :: rs) (s :: ss) (t :: ts) (h :: hs') fin taken rmsgs dlv'.
Proof.
  cbn [path_inv].
  intros (Hl & Hr & n & q & Hn & Hq & He & Hfw & Hrv & Hss & Hts & Hfin & Hrm & H).
  exists n, q. split; [done|]. intros hs' dlv' Hhid H'. split; [done|]. split; [done|].
  exists n, q. rewrite (head_hid hs hs') by done. done.
Qed.

Lemma forward_step i ls rs ss ts hops fin taken rmsgs dlv now h :
  path_inv ls rs ss ts hops fin taken rmsgs dlv → hops !! i = Some h → hfwd h ≠ [] →
  ∃ hops' d, forward_at now i hops = Some (hops', d)
    ∧ path_inv ls rs ss ts hops' fin taken rmsgs (dlv ++ d) ∧ map hid hops' = map hid hops.
Proof.
  revert ls rs ss ts hops fin taken. induction i as [|i IH]; intros ls rs ss ts [|h0 hs] fin taken H Hi Hne; try done.
  { cbn in Hi. simplify_eq. by apply forward_head. }
  cbn in Hi. destruct ls as [|l ls], rs as [|r rs], ss as [|s ss], ts as [|t ts]; try done.
  destruct (path_inv_tail _ _ _ _ _ _ _ _ _ _ _ _ _ _ H) as (n & q & Ht & Hback).
  destruct (IH _ _ _ _ _ _ _ Ht Hi Hne) as (hs' & d & HE & Hinv & Hhid).
  exists (h0 :: hs'), d. cbn [forward_at]. rewrite HE. split; [done|]. split; [by apply Hback|].
  cbn. by rewrite Hhid.
Qed.

(** The first hop wraps the next reply of the hop behind it. *)
Lemma back_head ls rs ss ts h h' hs fin taken rmsgs dlv now :
  path_inv ls rs ss ts (h :: h' :: hs) fin taken rmsgs dlv → hrev h' ≠ [] →
  ∃ hops', back_at now 0 (h :: h' :: hs) = Some hops'
    ∧ path_inv ls rs ss ts hops' fin taken rmsgs dlv ∧ map hid hops' = map hid (h :: h' :: hs).
Proof.
  destruct ls as [|l ls], rs as [|r rs], ss as [|s ss], ts as [|t ts]; try done. cbn [path_inv].
  intros (Hl & Hr & n & q & Hn & Hq & [e He] & Hfw & Hrv & Hss & Hts & Hfin & Hrm & H) Hne.
  destruct (hrev h') as [|c q0] eqn:Ec; [done|].
  destruct (path_pop _ _ _ _ _ _ _ _ _ _ _ _ H Ec) as (p & Hp & -> & Hz & Hpop).
  pose proof (path_inv_lengths _ _ _ _ _ _ _ _ _ H) as (_ & Lrs & _ & Lts & _ & Hwf).
  pose proof (lookup_lt_Some _ _ _ Hp) as Hlt.
  assert (zlen p + 16 * zlen (r :: rs) ≤ MAX_CELL_PAYLOAD) as Hz1 by (by eapply Hrm).
  rewrite zlen_cons in Hz1. pose proof Hts as Hts0. apply Forall_cons_1 in Hts0 as [Ht0 Hts'].
  pose proof Hr as Hr0. apply Forall_cons_1 in Hr0 as [Hr1 Hr2].
  assert (zlen (sealed DIR_HOP_TO_CLIENT rs (after q ts) p) = zlen p + 16 * zlen rs) as Hzs.
  { apply sealed_len; [done| |lia]. unfold after. rewrite length_map. cbn in *. lia. }
  destruct (sealed_cons DIR_HOP_TO_CLIENT r rs (t + Z.of_nat q) (after q ts) p Hr1) as (Hseal & _ & Hzl); [lia|].
  destruct (hop_relay_next (hstate h) (hid h) l r (s + Z.of_nat n) (t + Z.of_nat q) _ e _ _ now He Hseal)
    as (e' & HE & He'); [unfold zlen in Ht0; lia|lia|].
  cbn [back_at]. rewrite Ec. cbn [head fmap option_fmap option_map] in He, He'.
  rewrite (hop_from_next _ _ _ _ _ _ _ _ _ _ He), HE.
  eexists. split; [reflexivity|]. split; [|done].
  replace (t + Z.of_nat q + 1) with (t + Z.of_nat (S q)) in He' by lia.
  cbn [path_inv push_rev hstate hid hfwd hrev]. split; [done|]. split; [done|]. exists n, (S q).
  split_and!; try done; try lia.
  - by exists e'.
  - rewrite Hrv. replace (S q - taken)%nat with (S (q - taken)) by lia.
    rewrite (take_S_r (drop taken rmsgs) (q - taken) p).
    + rewrite cells_from_snoc, length_take, length_drop, after_cons. do 2 f_equal.
      replace (taken + (q - taken) `min` (length rmsgs - taken))%nat with q by lia. done.
    + rewrite lookup_drop. by replace (taken + (q - taken))%nat with q by lia.
Qed.

Lemma back_step i ls rs ss ts hops fin taken rmsgs dlv now h' :
  path_inv ls rs ss ts hops fin taken rmsgs dlv → hops !! S i = Some h' → hrev h' ≠ [] →
  ∃ hops', back_at now i hops = Some hops'
    ∧ path_inv ls rs ss ts hops' fin taken rmsgs dlv ∧ map hid hops' = map hid hops.
Proof.
  revert ls rs ss ts hops fin taken. induction i as [|i IH]; intros ls rs ss ts [|h0 hs] fin taken H Hi Hne; try done.
  { cbn in Hi. destruct hs as [|h1 hs]; [done|]. cbn in Hi. simplify_eq. by apply back_head. }
  change (hs !! S i = Some h') in Hi.
  destruct ls as [|l ls], rs as [|r rs], ss as [|s ss], ts as [|t ts]; try done.
  destruct (path_inv_tail _ _ _ _ _ _ _ _ _ _ _ _ _ _ H) as (n & q & Ht & Hback).
  destruct (IH _ _ _ _ _ _ _ Ht Hi Hne) as (hs' & HE & Hinv & Hhid).
  exists (h0 :: hs'). split; [|split; [by apply Hback|cbn; by rewrite Hhid]].
  destruct hs as [|h1 hs]; [done|]. cbn [back_at]. cbn [back_at] in HE. by rewrite HE.
Qed.

(** The exit hop wraps a new reply. *)
Lemma inject_step ls rs ss ts hops fin taken rmsgs dlv now m :
  path_inv ls rs ss ts hops fin taken rmsgs dlv → hops ≠ [] →
  Forall (λ t, t + zlen rmsgs + 1 ≤ u64_max) ts → zlen m + 16 * zlen rs ≤ MAX_CELL_PAYLOAD →
  ∃ hops', inject_at now m hops = Some hops'
    ∧ path_inv ls rs ss ts hops' fin taken (rmsgs ++ [m]) dlv ∧ map hid hops' = map hid hops.
Proof.
  revert ls rs ss ts fin taken. induction hops as [|h hs IH];
    intros [|l ls] [|r rs] [|s ss] [|t ts] fin taken H Hne Hroom Hz; try done.
  cbn [path_inv] in H.
  destruct H as (Hl & Hr & n & q & Hn & Hq & [e He] & Hfw & Hrv & Hss & Hts & Hfin & Hrm & H).
  assert (Forall (λ t, t + zlen (rmsgs ++ [m]) ≤ u64_max) (t :: ts)) as Hts'.
  { eapply Forall_impl; [exact Hroom|]. intros x Hx. rewrite zlen_app. change (zlen [m]) with 1.
    cbn beta in Hx. lia. }
  assert (∀ k p, (rmsgs ++ [m]) !! k = Some p → zlen p + 16 * zlen (r :: rs) ≤ MAX_CELL_PAYLOAD) as Hrm'.
  { intros k p Hk. apply lookup_app_Some in Hk as [Hk|[_ Hk]]; [by eapply Hrm|].
    apply list_elem_of_lookup_2, list_elem_of_singleton in Hk as ->. done. }
  destruct hs as [|h' hs].
  - destruct ls, rs, ss, ts; try done. cbn in H. destruct H as [Hd ->]. cbn [inject_at].
    apply Forall_cons_1 in Hroom as [Hr0 _]. pose proof Hr as Hr1. apply Forall_cons_1 in Hr1 as [Hr1 _].
    change (zlen [r]) with 1 in Hz.
    destruct (sealed_cons DIR_HOP_TO_CLIENT r [] (t + Z.of_nat (length rmsgs)) [] m Hr1) as (Hseal & _ & Hzl);
      [cbn [sealed]; lia|]. cbn [sealed] in Hzl.
    destruct (hop_relay_next (hstate h) (hid h) l r _ _ _ e m _ now He Hseal) as (e' & HE & He');
      [unfold zlen in Hr0; lia|cbn [sealed]; lia|].
    unfold inject_exit_response. rewrite HE. eexists. split; [reflexivity|]. split; [|done].
    replace (t + Z.of_nat (length rmsgs) + 1) with (t + Z.of_nat (S (length rmsgs))) in He' by lia.
    cbn [path_inv push_rev hstate hid hfwd hrev]. split; [done|]. split; [done|].
    exists n, (S (length rmsgs)). rewrite length_app. cbn [length].
    split_and!; try done; try lia.
    + by exists e'.
    + rewrite Hrv, !take_ge by (rewrite length_drop, ?length_app; cbn; lia).
      rewrite drop_app_le, cells_from_snoc, length_drop by lia.
      by replace (taken + (length rmsgs - taken))%nat with (length rmsgs) by lia.
  - rewrite zlen_cons in Hz. apply Forall_cons_1 in Hroom as [_ Hroom].
    destruct (IH _ _ _ _ _ _ H ltac:(done) Hroom ltac:(lia)) as (hs' & HE & Hinv & Hhid).
    exists (h :: hs'). split; [|split; [|cbn in *; by rewrite Hhid]].
    { change (inject_at now m (h :: h' :: hs)) with
        (match inject_at now m (h' :: hs) with Some hs' => Some (h :: hs') | None => None end).
      by rewrite HE. }
    cbn [path_inv]. split; [done|]. split; [done|]. exists n, q.
    rewrite (head_hid (h' :: hs) hs' Hhid), length_app. cbn [length].
    split_and!; try done; try lia; [by exists e|].
    rewrite Hrv, drop_app_le, take_app_le by (rewrite ?length_drop; lia). done.
Qed.

(** ** The whole system *)
Record sys_inv (p : Path) : Prop := {
  sy_live : destroyed (pclient p) = false;
  sy_circuit : circuit_inv (pclient p);
  sy_prefix : preceived p = take (length (preceived p)) (pinjected p);
  sy_path : ∃ ss ts, c2h_seq (pclient p) = after (length (psent p)) ss
    ∧ h2c_seq (pclient p) = after (length (preceived p)) ts
    ∧ path_inv (c_forward (pclient p)) (c_reverse (pclient p)) ss ts (phops p)
        (psent p) (length (preceived p)) (pinjected p) (pdelivered p);
}.

(** What is asked of the caller: payloads fit a cell under all layers, the
    counters are not used up, and no hop mistakes the payload or its
    ciphertexts for a command. *)
Definition act_ok (act : PathAct) (p : Path) : Prop :=
  match act with
  | PSend m =>
    zlen m + 16 * zlen (phops p) ≤ MAX_CELL_PAYLOAD
    ∧ Forall (λ s, s + 1 ≤ u64_max) (c2h_seq (pclient p))
    ∧ clean (c_forward (pclient p)) (c2h_seq (pclient p)) m
  | PInject m =>
    zlen m + 16 * zlen (phops p) ≤ MAX_CELL_PAYLOAD
    ∧ Forall (λ t, t + (zlen (pinjected p) - zlen (preceived p)) + 1 ≤ u64_max) (h2c_seq (pclient p))
  | _ => True
  end.

(** The cell the action is about exists. *)
Definition enabled (act : PathAct) (p : Path) : Prop :=
  match act with
  | PSend _ | PInject _ => phops p ≠ []
  | PForward i => ∃ h, phops p !! i = Some h ∧ hfwd h ≠ []
  | PBack i => ∃ h, phops p !! S i = Some h ∧ hrev h ≠ []
  | PRecv => ∃ h, phops p !! 0%nat = Some h ∧ hrev h ≠ []
  end.

Lemma after_S k ss : after (S k) ss = map (λ x, x + 1) (after k ss).
Proof. unfold after. rewrite map_map. apply map_ext. intros x. lia. Qed.

Lemma send_step m p : sys_inv p → act_ok (PSend m) p → phops p ≠ [] →
  ∃ p', path_exec (PSend m) 0 p = Some p' ∧ sys_inv p'.
Proof.
  intros [S1 S2 S3 (ss & ts & Hc & Hh & Hp)] (Hz & Hroom & Hcl) Hne.
  pose proof (path_inv_lengths _ _ _ _ _ _ _ _ _ Hp) as (Lls & Lrs & Lss & Lts & Wl & Wr).
  destruct (phops p) as [|h hs] eqn:Eh; [done|].
  assert (zlen (h :: hs) = zlen (c_forward (pclient p))) as Hzl by (unfold zlen; lia). rewrite Hzl in Hz.
  pose proof (seal_hops_sealed (c_forward (pclient p)) (c2h_seq (pclient p)) m Wl) as Hseal.
  rewrite (ci_c2h _ S2) in Hseal. specialize (Hseal eq_refl Hz).
  assert (relay_seal m (pclient p) = (set_c2h (map (λ x, x + 1) (c2h_seq (pclient p))) (pclient p),
    Ok (sealed DIR_CLIENT_TO_HOP (c_forward (pclient p)) (c2h_seq (pclient p)) m))) as Hrs.
  { unfold relay_seal, st_bind, st_get, st_lift, st_mod, st_ret. rewrite S1, bool_decide_false.
    - by rewrite (ci_epoch _ S2), Hseal, bump_all_total by done.
    - intros E. rewrite E in Lls. done. }
  cbn [path_exec]. rewrite Hrs, Eh.
  assert (∃ l ls r rs s ss' t ts', c_forward (pclient p) = l :: ls ∧ c_reverse (pclient p) = r :: rs
    ∧ ss = s :: ss' ∧ ts = t :: ts') as (l & ls & r & rs & s & ss' & t & ts' & E1 & E2 & E3 & E4).
  { destruct (c_forward (pclient p)), (c_reverse (pclient p)), ss, ts; try done. eauto 12. }
  assert (hid h ≠ 0) as Hid.
  { rewrite E1, E2, E3, E4 in Hp. cbn [path_inv] in Hp. destruct Hp as (_ & _ & n & q & _ & _ & [e He] & _). apply He. }
  rewrite Cell_new_intro; [|done| |done].
  2:{ rewrite sealed_len; [lia|done|apply S2|done]. }
  eexists. split; [reflexivity|]. split; cbn [pclient phops psent pdelivered pinjected preceived]; [done| |done|].
  - pose proof (relay_seal_inv m (pclient p) S2) as HI. by rewrite Hrs in HI.
  - exists ss, ts. rewrite length_app. cbn [length]. rewrite Nat.add_1_r.
    split; [cbn; by rewrite Hc, after_S|]. split; [done|]. cbn [c_forward c_reverse set_c2h].
    rewrite Hc. rewrite Hc in Hcl. eapply path_push; [exact Hp| |done|done].
    rewrite Hc in Hroom. unfold after in Hroom. rewrite Forall_map in Hroom.
    eapply Forall_impl; [exact Hroom|]. intros x Hx. cbn beta in Hx. unfold zlen. lia.
Qed.

Lemma recv_step p now : sys_inv p → enabled PRecv p →
  ∃ p', path_exec PRecv now p = Some p' ∧ sys_inv p'.
Proof.
  intros [S1 S2 S3 (ss & ts & Hc & Hh & Hp)] (h & Hi & Hne).
  pose proof (path_inv_lengths _ _ _ _ _ _ _ _ _ Hp) as (Lls & Lrs & Lss & Lts & Wl & Wr).
  destruct (phops p) as [|h0 hs] eqn:Eh; [done|]. cbn in Hi. injection Hi as ->.
  destruct (hrev h) as [|c q0] eqn:Ec; [done|].
  destruct (path_pop _ _ _ _ _ _ _ _ _ _ _ _ Hp Ec) as (m & Hm & -> & Hz & Hpop).
  assert (Forall (λ x, x + 1 ≤ u64_max) (h2c_seq (pclient p))) as Hroom.
  { assert (Forall (λ t, t + zlen (pinjected p) ≤ u64_max) ts) as HF.
    { destruct (c_forward (pclient p)), (c_reverse (pclient p)), ss, ts; try done.
      cbn [path_inv] in Hp. destruct Hp as (_ & _ & n & q & _ & _ & _ & _ & _ & _ & HF & _). done. }
    rewrite Hh. unfold after. apply Forall_map. eapply Forall_impl; [exact HF|].
    intros x Hx. cbn beta in Hx. apply lookup_lt_Some in Hm. unfold zlen in Hx. lia. }
  assert (relay_open (sealed DIR_HOP_TO_CLIENT (c_reverse (pclient p)) (h2c_seq (pclient p)) m) (pclient p)
    = (set_h2c (map (λ x, x + 1) (h2c_seq (pclient p))) (pclient p), Ok m)) as Hro.
  { unfold relay_open, st_bind, st_get, st_lift, st_mod, st_ret. rewrite S1, bool_decide_false.
    - rewrite (ci_epoch _ S2), open_hops_sealed, bump_all_total by
        (done || (rewrite (ci_h2c _ S2), (ci_rev _ S2); done)). done.
    - intros E. rewrite E in Lrs. done. }
  cbn [path_exec]. rewrite Eh, Ec. cbn [body]. rewrite <- Hh, Hro.
  eexists. split; [reflexivity|]. split; cbn [pclient phops psent pdelivered pinjected preceived]; [done| | |].
  - pose proof (relay_open_inv (sealed DIR_HOP_TO_CLIENT (c_reverse (pclient p))
      (h2c_seq (pclient p)) m) (pclient p) S2) as HI. by rewrite Hro in HI.
  - rewrite length_app. cbn [length]. rewrite Nat.add_1_r, (take_S_r _ _ _ Hm). by rewrite <- S3.
  - exists ss, ts. rewrite length_app. cbn [length]. rewrite Nat.add_1_r.
    split; [done|]. split; [cbn; by rewrite Hh, after_S|]. done.
Qed.

Lemma act_step act now p : sys_inv p → act_ok act p → enabled act p →
  ∃ p', path_exec act now p = Some p' ∧ sys_inv p'.
Proof.
  intros HI Hok Hen. destruct act as [m|i|m|i|].
  - destruct (send_step m p HI Hok Hen) as (p' & HE & HI'). by exists p'.
  - destruct HI as [S1 S2 S3 (ss & ts & Hc & Hh & Hp)], Hen as (h & Hi & Hne).
    destruct (forward_step i _ _ _ _ _ _ _ _ _ now h Hp Hi Hne) as (hs & d & HE & Hp' & _).
    cbn [path_exec]. rewrite HE. eexists. split; [done|]. split; try done. by exists ss, ts.
  - destruct HI as [S1 S2 S3 (ss & ts & Hc & Hh & Hp)], Hok as [Hz Hroom].
    pose proof (path_inv_lengths _ _ _ _ _ _ _ _ _ Hp) as (_ & Lrs & _).
    assert (Forall (λ t, t + zlen (pinjected p) + 1 ≤ u64_max) ts) as Hts.
    { rewrite Hh in Hroom. unfold after in Hroom. rewrite Forall_map in Hroom.
      eapply Forall_impl; [exact Hroom|]. intros x Hx. cbn beta in Hx. unfold zlen in *. lia. }
    assert (zlen (phops p) = zlen (c_reverse (pclient p))) as Hzl by (unfold zlen; lia).
    rewrite Hzl in Hz.
    destruct (inject_step _ _ _ _ _ _ _ _ _ now m Hp Hen Hts Hz) as (hs & HE & Hp' & _).
    cbn [path_exec]. rewrite HE. eexists. split; [done|]. split; try done; [|by exists ss, ts].
    cbn. rewrite take_app_le; [done|]. rewrite S3 at 1. rewrite length_take. lia.
  - destruct HI as [S1 S2 S3 (ss & ts & Hc & Hh & Hp)], Hen as (h & Hi & Hne).
    destruct (back_step i _ _ _ _ _ _ _ _ _ now h Hp Hi Hne) as (hs & HE & Hp' & _).
    cbn [path_exec]. rewrite HE. eexists. split; [done|]. split; try done. by exists ss, ts.
  - by apply recv_step.
Qed.

(** An action succeeds only on a cell that is there. *)
Lemma forward_at_some i now hops r : forward_at now i hops = Some r →
  ∃ h, hops !! i = Some h ∧ hfwd h ≠ [].
Proof.
  revert hops r. induction i as [|i IH]; intros [|h hs] r H; try done; cbn [forward_at] in H.
  - exists h. split; [done|]. by destruct (hfwd h).
  - destruct (forward_at now i hs) as [[hs' d]|] eqn:E; [|done]. by apply IH in E.
Qed.

Lemma back_at_some i now hops r : back_at now i hops = Some r →
  ∃ h, hops !! S i = Some h ∧ hrev h ≠ [].
Proof.
  revert hops r. induction i as [|i IH]; intros [|h hs] r H; try done; cbn [back_at] in H.
  - destruct hs as [|h' hs]; [done|]. exists h'. split; [done|]. by destruct (hrev h').
  - destruct (back_at now i hs) as [hs'|] eqn:E; [|by destruct hs]. by apply IH in E.
Qed.

Lemma exec_enabled act now p p' : path_exec act now p = Some p' → enabled act p.
Proof.
  destruct act as [m|i|m|i|]; cbn [path_exec enabled]; intros H.
  - destruct (relay_seal m (pclient p)) as [? [?|?]], (phops p); done.
  - destruct (forward_at now i (phops p)) as [[hs d]|] eqn:E; [|done]. by eapply forward_at_some.
  - by destruct (phops p).
  - destruct (back_at now i (phops p)) as [hs|] eqn:E; [|done]. by eapply back_at_some.
  - destruct (phops p) as [|h hs]; [done|]. exists h. split; [done|]. by destruct (hrev h).
Qed.

(** ** What the invariant says of the traffic *)
Lemma path_inv_traffic ls rs ss ts hops fin taken rmsgs dlv :
  path_inv ls rs ss ts hops fin taken rmsgs dlv →
  dlv `prefix_of` fin ∧ (taken ≤ length rmsgs)%nat
  ∧ (Forall (λ h, hfwd h = []) hops → dlv = fin)
  ∧ (Forall (λ h, hrev h = []) hops → taken = length rmsgs).
Proof.
  revert ls rs ss ts fin taken. induction hops as [|h hs IH];
    intros [|l ls] [|r rs] [|s ss] [|t ts] fin taken H; try done.
  { destruct H as [-> ->]. done. }
  cbn [path_inv] in H.
  destruct H as (_ & _ & n & q & Hn & Hq & _ & Hfw & Hrv & _ & _ & _ & _ & H).
  destruct (IH _ _ _ _ _ _ H) as (Hpre & Hle & Hd & Ht).
  split; [etrans; [exact Hpre|apply prefix_take]|]. split; [lia|]. split.
  - intros [Hh HF]%Forall_cons_1. rewrite (Hd HF). rewrite Hfw in Hh.
    destruct (drop n fin) eqn:E; [|done]. apply (f_equal length) in E. rewrite length_drop in E.
    apply take_ge. cbn in E. lia.
  - intros [Hh HF]%Forall_cons_1. rewrite Hrv in Hh. specialize (Ht HF).
    destruct (take (q - taken) (drop taken rmsgs)) eqn:E; [|done]. apply (f_equal length) in E.
    rewrite length_take, length_drop in E. cbn in E. lia.
Qed.

(** A synchronised path is a state of the system. *)
Lemma synced_inv ls rs ss ts hops : synced ls rs ss ts hops →
  Forall in_u64 ss → Forall in_u64 ts → path_inv ls rs ss ts hops [] 0 [] [].
Proof.
  revert ls rs ss ts. induction hops as [|h hs IH]; intros [|l ls] [|r rs] [|s ss] [|t ts] H Hs Ht; try done.
  cbn [synced] in H. destruct H as (Hl & Hr & Hf & Hb & [e He] & H).
  assert (∀ us, Forall in_u64 us → Forall (λ u, u + zlen (@nil (list byte)) ≤ u64_max) us) as Hmax.
  { intros us HF. eapply Forall_impl; [exact HF|]. intros x Hx. unfold in_u64 in Hx.
    change (zlen (@nil (list byte))) with 0. lia. }
  pose proof (Forall_cons_1 _ _ _ Hs) as [_ Hs']. pose proof (Forall_cons_1 _ _ _ Ht) as [_ Ht'].
  specialize (IH _ _ _ _ H Hs' Ht').
  pose proof (path_inv_lengths _ _ _ _ _ _ _ _ _ IH) as (_ & _ & _ & _ & Wl & Wr).
  cbn [path_inv]. split; [by constructor|]. split; [by constructor|]. exists 0%nat, 0%nat.
  cbn [length take drop Nat.sub]. rewrite !Z.add_0_r. split_and!; try done; try lia; try by apply Hmax.
  by exists e.
Qed.

Lemma after_0 us : after 0 us = us.
Proof. unfold after. rewrite (map_ext _ id), map_id; [done|]. intros x. cbn. lia. Qed.

Definition idle_path (c : Circuit) (hops : list Hop) : Path := mkPath c hops [] [] [] [].

Lemma synced_sys c hops : path_synced c hops → sys_inv (idle_path c hops).
Proof.
  intros (Hd & HI & Hs). split; cbn; try done. exists (c2h_seq c), (h2c_seq c).
  rewrite !after_0. split; [done|]. split; [done|]. apply synced_inv; [done|apply HI|apply HI].
Qed.

End path_facts.

(** The states a path goes through under any interleaving of actions. *)
Inductive path_reach {CC : CircuitCrypto} (p0 : Path) : Path → Prop :=
| reach_start : path_reach p0 p0
| reach_act p act now p' : path_reach p0 p → act_ok act p → path_exec act now p = Some p' →
    path_reach p0 p'.

(** C6: A circuit is a pair of ordered, lossless pipes through all its hops.
    Take an idle path of as many hops as a circuit may have (one to
    MAX_CIRCUIT_HOPS) that hold the client's keys and counters, and payloads that
    fit a cell under all layers, whose counters are not used up, and that are
    clean: neither the payload, which the exit parses, nor one of the ciphertexts
    that the hops before the exit peel, which they parse too, spells a control
    sub-cell (for a ciphertext that is a matter of chance, and the code does act
    on it when it happens: CircuitBridgeRuns.ciphertext_read_as_destroy). Then,
    under any interleaving of sends, forwards, replies and receives: what the exit
    delivered is a prefix of what the client sent and what the client opened is
    a prefix of what the exit injected; every cell in flight is accepted by the
    hop or client it is addressed to; and once no cell is in flight everything sent has arrived, in both directions. *)
Theorem circuit_transparent {CC : CircuitCrypto} {CL : CircuitCryptoLaws CC} c hops p :
  path_synced c hops → path_reach (idle_path c hops) p →
  pdelivered p `prefix_of` psent p ∧ preceived p `prefix_of` pinjected p
  ∧ (∀ act now, act_ok act p → enabled act p → is_Some (path_exec act now p))
  ∧ (Forall (λ h, hfwd h = [] ∧ hrev h = []) (phops p) →
     pdelivered p = psent p ∧ preceived p = pinjected p).
Proof.
  intros Hs Hr. assert (sys_inv p) as HI.
  { induction Hr as [|q act now q' _ IH Hok HE]; [by apply synced_sys|].
    destruct (act_step act now q IH Hok (exec_enabled _ _ _ _ HE)) as (q'' & HE' & HI). congruence. }
  pose proof HI as [_ _ S3 (ss & ts & _ & _ & Hp)].
  destruct (path_inv_traffic _ _ _ _ _ _ _ _ _ Hp) as (Hpre & Hle & Hd & Ht).
  split; [done|]. split; [rewrite S3; apply prefix_take|]. split.
  - intros act now Hok Hen. destruct (act_step act now p HI Hok Hen) as (p' & HE & _). by exists p'.
  - intros HF. split; [apply Hd|rewrite S3, Ht; [apply firstn_all|]];
      (eapply Forall_impl; [exact HF|]; intros h Hh; apply Hh).
Qed.

(** ** A two-hop circuit *)
Module PathDemo.
#[local] Existing Instance CircuitDemo.crypto.

Definition f1 : OnionLayer := CircuitDemo.layer x01.
Definition f2 : OnionLayer := CircuitDemo.layer x02.
Definition r1 : OnionLayer := CircuitDemo.layer x03.
Definition r2 : OnionLayer := CircuitDemo.layer x04.

(** The guard's counters are ahead: it relayed the EXTEND exchange. *)
Definition client : Circuit := mkCircuit [f1; f2] [r1; r2] [3; 0] [2; 0] 0 false.
Definition entry (id : Z) (out : option Z) (l r : OnionLayer) (fs rs : Z) : CircuitEntry :=
  mkEntry id out Open (Some (mkHopKeys l r)) fs rs 0 0 None None None false true.
Definition bridge_with (id : Z) (e : CircuitEntry) (links : gmap Z Z) : BridgeCircuitState :=
  mkBridge {[ id := e ]} links BridgePolicy_default sequential_out_circ_id_picker 0 false.
Definition guard : Hop :=
  mkHop (bridge_with 7 (entry 7 (Some 9) f1 r1 3 2) {[ 9 := 7 ]}) 7 [] [].
Definition exit_hop : Hop := mkHop (bridge_with 9 (entry 9 None f2 r2 0 0) ∅) 9 [] [].
Definition start : Path := idle_path client [guard; exit_hop].

Definition run1 (a : PathAct) (p : Path) : Path := default p (path_exec a 0 p).
Definition ran (a : PathAct) (p : Path) : bool :=
  match path_exec a 0 p with Some _ => true | None => false end.

Lemma run1_reach p0 a p : path_reach p0 p → act_ok a p → ran a p = true → path_reach p0 (run1 a p).
Proof.
  intros H Ha Hr. apply (reach_act p0 p a 0); [exact H|exact Ha|]. unfold run1, ran in *.
  by destruct (path_exec a 0 p).
Qed.

(** One payload to the exit and a reply to the client, cell by cell. *)
Definition sent : Path := run1 (PSend [xaa]) start.
Definition arrived : Path := run1 (PForward 1) (run1 (PForward 0) sent).
Definition replied : Path := run1 (PInject [xbb; xcc]) arrived.
Definition finished : Path := run1 PRecv (run1 (PBack 0) replied).

Definition drained (p : Path) : bool :=
  forallb (λ h, match hfwd h, hrev h with [], [] => true | _, _ => false end) (phops p).

Lemma drained_spec p : drained p = true → Forall (λ h, hfwd h = [] ∧ hrev h = []) (phops p).
Proof.
  unfold drained. rewrite forallb_forall. intros H. apply Forall_forall. intros h Hh.
  apply list_elem_of_In in Hh. specialize (H h Hh). by destruct (hfwd h), (hrev h).
Qed.

Lemma synced_start : path_synced client [guard; exit_hop].
Proof.
  assert (∀ b, layer_wf (CircuitDemo.layer b)) as Hw by done.
  split; [reflexivity|]. split.
  - split; [reflexivity|reflexivity|reflexivity|vm_decide|vm_decide|vm_decide| | |reflexivity];
      cbn; repeat constructor; lia.
  - split; [apply Hw|]. split; [apply Hw|]. split; [reflexivity|]. split; [reflexivity|]. split.
    { exists (entry 7 (Some 9) f1 r1 3 2). split; try reflexivity; done. }
    split; [apply Hw|]. split; [apply Hw|]. split; [reflexivity|]. split; [reflexivity|]. split; [|exact I].
    exists (entry 9 None f2 r2 0 0). split; try reflexivity; done.
Qed.

Lemma reach_finished : path_reach start finished.
Proof.
  unfold finished, replied, arrived, sent.
  do 2 (apply run1_reach; [|exact I|vm_compute; reflexivity]).
  apply run1_reach; [|split; vm_decide|vm_compute; reflexivity].
  do 2 (apply run1_reach; [|exact I|vm_compute; reflexivity]).
  apply run1_reach; [apply reach_start| |vm_compute; reflexivity].
  split; [vm_decide|]. split; [vm_decide|]. split; [vm_compute; reflexivity|].
  split; [vm_compute; reflexivity|exact I].
Qed.

End PathDemo.

Lemma circuit_transparent_witness :
  pdelivered PathDemo.finished = psent PathDemo.finished
  ∧ preceived PathDemo.finished = pinjected PathDemo.finished
  ∧ psent PathDemo.finished = [[xaa]] ∧ pinjected PathDemo.finished = [[xbb; xcc]].
Proof.
  destruct (circuit_transparent (CL := CircuitDemo.laws) _ _ _
    PathDemo.synced_start PathDemo.reach_finished) as (_ & _ & _ & Hall).
  destruct (Hall (PathDemo.drained_spec PathDemo.finished ltac:(vm_compute; reflexivity))) as [H1 H2].
  split; [exact H1|]. split; [exact H2|]. split; vm_compute; reflexivity.
Defined.
