(* ===== verification/Signature.v ===== *)
(** * Ed25519 signatures

    What the repository uses of the ed25519-dalek package, as a class: keys and
    signatures as bytes, signing, and strict verification; and a scheme with
    one-byte keys for the concrete runs. *)

From stdpp Require Import base numbers list.
From Stdlib Require Import ZArith Lia Strings.Byte.
From S2P Require Import Prelude Bytes.

(** [from_seed] is [SigningKey::from_bytes]; [valid_point] tells whether
    [VerifyingKey::from_bytes] accepts a key. *)
Class Ed25519 := {
  SigningKey : Type;
  from_seed : list byte → SigningKey;
  verifying_key : SigningKey → list byte;
  sign : SigningKey → list byte → list byte;
  valid_point : list byte → bool;
  verify_strict : list byte → list byte → list byte → bool;
}.

Class Ed25519Laws (E : Ed25519) : Prop := {
  vk_len k : length (verifying_key k) = 32%nat;
  vk_valid k : valid_point (verifying_key k) = true;
  sig_len k m : length (sign k m) = 64%nat;
  sig_verifies k m : verify_strict (verifying_key k) m (sign k m) = true;
}.

(** A key none of whose signatures is forged among those in circulation: what a
    signature in [seen] verifies for is one of the messages [signed]. *)
Definition unforgeable {E : Ed25519} (seen : list byte → Prop) (pk : list byte) (signed : list byte → Prop) : Prop :=
  ∀ m sg, seen sg → verify_strict pk m sg = true → signed m.

(** A scheme with one-byte keys. *)
Module EdDemo.
#[export] Instance scheme : Ed25519 := {|
  SigningKey := byte;
  from_seed s := at_ s 0;
  verifying_key k := replicate 32 k;
  sign k _ := replicate 64 k;
  valid_point _ := true;
  verify_strict pk _ sg := bool_decide (take 32 sg = pk ∧ length sg = 64%nat);
|}.

#[export] Instance laws : Ed25519Laws scheme.
Proof.
  split; intros; try reflexivity. apply bool_decide_true. done.
Qed.
End EdDemo.
