(* ===== verification/Token.v ===== *)
(** * Capability tokens (crates/discovery/src/token.rs, token_fs.rs, refresh.rs)

    The three kinds of credential a client presents in a handshake: the token an
    operator signs for one bridge, the forward-secure token signed by an epoch
    subkey that the operator's root key has certified, and the refresh token the
    bridge signs itself. Their codecs, issuance and verification, and the bytes
    each signature covers, which no two kinds share. Random draws are arguments,
    [None] where the operating system's generator failed. *)

From stdpp Require Import base numbers list strings.
From Stdlib Require Import ZArith Lia Strings.Byte.
From S2P Require Import Prelude Bytes Signature.

Inductive DiscoveryError : Set :=
| DWire (msg : string)
| DSignature (msg : string)
| DDecrypt (msg : string)
| DTime (msg : string)
| DEd25519 (msg : string).

Abbreviation ED25519_PK_LEN := 32%nat (only parsing).
Abbreviation SIG_LEN := 64%nat (only parsing).
Abbreviation TOKEN_LEN := 136%nat (only parsing).
Abbreviation FS_CERT_LEN := 112%nat (only parsing).
Abbreviation FS_TOKEN_LEN := 248%nat (only parsing).
Abbreviation FS_CERT_DOMAIN := (String.list_byte_of_string "mirage-fs-cert-v1" ++ [x00]) (only parsing).
Abbreviation FS_TOKEN_DOMAIN := (String.list_byte_of_string "mirage-fs-token-v1" ++ [x00]) (only parsing).
Abbreviation REFRESH_SIGN_DOMAIN := (String.list_byte_of_string "mirage-refresh-v1" ++ [x00]) (only parsing).
Abbreviation DISCOVERY_EPOCH_SECONDS := 3600 (only parsing).

(** ** Operator-signed tokens *)
Record CapabilityToken : Set := mkToken {
  token_id : list byte;
  bridge_ed25519_pk : list byte;
  expires_at : Z;
  signature : list byte;
}.

Definition encode_signed_prefix (t : CapabilityToken) : list byte :=
  token_id t ++ bridge_ed25519_pk t ++ be_bytes 8 (expires_at t).

Definition CapabilityToken_encode (t : CapabilityToken) : list byte :=
  token_id t ++ bridge_ed25519_pk t ++ be_bytes 8 (expires_at t) ++ signature t.

Definition CapabilityToken_decode (buf : list byte) : result DiscoveryError CapabilityToken :=
  if bool_decide (length buf ≠ TOKEN_LEN) then Err (DWire "token: wrong length")
  else Ok (mkToken (slice buf 0 32) (slice buf 32 64) (be_val (slice buf 64 72)) (slice buf 72 136)).

Definition is_for_bridge (bridge_pk : list byte) (t : CapabilityToken) : bool :=
  bool_decide (bridge_ed25519_pk t = bridge_pk).

Definition is_expired (now_unix grace_seconds : Z) (t : CapabilityToken) : bool :=
  bool_decide (now_unix > saturating_add_u64 (expires_at t) grace_seconds).

(** The expiry jitter: the drawn number modulo the window. *)
Definition jitter_of (jitter_seconds : Z) (draw : option Z) : Z :=
  if bool_decide (jitter_seconds = 0) then 0
  else match draw with Some r => r `mod` jitter_seconds | None => 0 end.

(** ** Epoch certificates and forward-secure tokens *)
Record EpochSubkeyCert : Set := mkCert {
  cert_epoch : Z;
  subkey_pk : list byte;
  cert_valid_until : Z;
  root_sig : list byte;
}.

Definition cert_signed_prefix (c : EpochSubkeyCert) : list byte :=
  FS_CERT_DOMAIN ++ be_bytes 8 (cert_epoch c) ++ subkey_pk c ++ be_bytes 8 (cert_valid_until c).

Definition is_retired (now_unix grace_seconds : Z) (c : EpochSubkeyCert) : bool :=
  bool_decide (now_unix > saturating_add_u64 (cert_valid_until c) grace_seconds).

Definition EpochSubkeyCert_encode (c : EpochSubkeyCert) : list byte :=
  be_bytes 8 (cert_epoch c) ++ subkey_pk c ++ be_bytes 8 (cert_valid_until c) ++ root_sig c.

Definition EpochSubkeyCert_decode (buf : list byte) : result DiscoveryError EpochSubkeyCert :=
  if bool_decide (length buf ≠ FS_CERT_LEN) then Err (DWire "fs cert: wrong length")
  else Ok (mkCert (be_val (slice buf 0 8)) (slice buf 8 40) (be_val (slice buf 40 48)) (slice buf 48 112)).

Record FsCapabilityToken : Set := mkFsToken {
  fs_token_id : list byte;
  fs_bridge_pk : list byte;
  fs_expires_at : Z;
  fs_cert : EpochSubkeyCert;
  token_sig : list byte;
}.

Definition fs_signed_prefix (t : FsCapabilityToken) : list byte :=
  FS_TOKEN_DOMAIN ++ fs_token_id t ++ fs_bridge_pk t ++ be_bytes 8 (fs_expires_at t)
  ++ be_bytes 8 (cert_epoch (fs_cert t)) ++ subkey_pk (fs_cert t).

Definition fs_is_for_bridge (bridge_pk : list byte) (t : FsCapabilityToken) : bool :=
  bool_decide (fs_bridge_pk t = bridge_pk).

Definition fs_is_expired (now_unix grace_seconds : Z) (t : FsCapabilityToken) : bool :=
  bool_decide (now_unix > saturating_add_u64 (fs_expires_at t) grace_seconds).

Definition FsCapabilityToken_encode (t : FsCapabilityToken) : list byte :=
  fs_token_id t ++ fs_bridge_pk t ++ be_bytes 8 (fs_expires_at t)
  ++ EpochSubkeyCert_encode (fs_cert t) ++ token_sig t.

Definition FsCapabilityToken_decode (buf : list byte) : result DiscoveryError FsCapabilityToken :=
  if bool_decide (length buf ≠ FS_TOKEN_LEN) then Err (DWire "fs token: wrong length")
  else
    let? cert := EpochSubkeyCert_decode (slice buf 72 184) in
    Ok (mkFsToken (slice buf 0 32) (slice buf 32 64) (be_val (slice buf 64 72)) cert (slice buf 184 248)).

Abbreviation epoch_for_time unix_secs := (unix_secs / DISCOVERY_EPOCH_SECONDS) (only parsing).

(** ** Signing and verifying *)
Section signing.
Context {E : Ed25519}.

Definition verify_signature (operator_pk : list byte) (t : CapabilityToken) : result DiscoveryError unit :=
  if negb (valid_point operator_pk) then Err (DEd25519 "invalid operator pubkey")
  else if verify_strict operator_pk (encode_signed_prefix t) (signature t) then Ok tt
  else Err (DSignature "token: verification failed").

Definition sign_token (tid bridge_pk : list byte) (exp : Z) (operator_sk : SigningKey) : CapabilityToken :=
  let t := mkToken tid bridge_pk exp (replicate SIG_LEN x00) in
  mkToken tid bridge_pk exp (sign operator_sk (encode_signed_prefix t)).

Definition sign_token_jittered (tid bridge_pk : list byte) (nominal jitter_seconds : Z) (draw : option Z)
  (operator_sk : SigningKey) : CapabilityToken :=
  sign_token tid bridge_pk (saturating_add_u64 nominal (jitter_of jitter_seconds draw)) operator_sk.

Definition mint (root_sk : SigningKey) (epoch : Z) (pk : list byte) (until : Z) : EpochSubkeyCert :=
  let c := mkCert epoch pk until (replicate SIG_LEN x00) in
  mkCert epoch pk until (sign root_sk (cert_signed_prefix c)).

Definition verify_root_sig (root_pk : list byte) (c : EpochSubkeyCert) : result DiscoveryError unit :=
  if negb (valid_point root_pk) then Err (DEd25519 "fs cert: invalid root pubkey")
  else if verify_strict root_pk (cert_signed_prefix c) (root_sig c) then Ok tt
  else Err (DSignature "fs cert: root signature invalid").

Definition verify_chain (root_pk : list byte) (now_unix grace_seconds : Z) (t : FsCapabilityToken)
  : result DiscoveryError unit :=
  let? _ := verify_root_sig root_pk (fs_cert t) in
  if negb (valid_point (subkey_pk (fs_cert t))) then Err (DEd25519 "fs token: invalid subkey pubkey")
  else if negb (verify_strict (subkey_pk (fs_cert t)) (fs_signed_prefix t) (token_sig t))
  then Err (DSignature "fs token: subkey signature invalid")
  else if is_retired now_unix grace_seconds (fs_cert t) then Err (DTime "fs token: subkey retired")
  else Ok tt.

Definition generate_epoch_subkey (draw : option (list byte)) : result DiscoveryError (list byte * list byte) :=
  let? seed := ok_or draw (DWire "fs subkey: CSPRNG failure") in
  Ok (seed, verifying_key (from_seed seed)).

Record EpochSigner : Set := mkSigner { seed : list byte; signer_cert : EpochSubkeyCert }.

Definition EpochSigner_new (sd : list byte) (c : EpochSubkeyCert) : result DiscoveryError EpochSigner :=
  if bool_decide (verifying_key (from_seed sd) ≠ subkey_pk c)
  then Err (DEd25519 "fs signer: seed/cert pubkey mismatch")
  else Ok (mkSigner sd c).

Definition EpochSigner_generate (root_sk : SigningKey) (epoch until : Z) (draw : option (list byte))
  : result DiscoveryError EpochSigner :=
  let? (sd, pk) := generate_epoch_subkey draw in
  EpochSigner_new sd (mint root_sk epoch pk until).

Definition EpochSigner_sign_token (s : EpochSigner) (tid bridge_pk : list byte) (exp : Z) : FsCapabilityToken :=
  let t := mkFsToken tid bridge_pk exp (signer_cert s) (replicate SIG_LEN x00) in
  mkFsToken tid bridge_pk exp (signer_cert s) (sign (from_seed (seed s)) (fs_signed_prefix t)).

(** What one iteration of [mint_fs_tokens] draws: the subkey's seed, the token
    id, the jitter. *)
Record MintDraw : Set := mkDraw { d_seed : option (list byte); d_tid : option (list byte); d_jitter : option Z }.

Fixpoint mint_fs_tokens (root_sk : SigningKey) (bridge_pk : list byte) (now_unix until exp jitter_seconds : Z)
  (draws : list MintDraw) : result DiscoveryError (list FsCapabilityToken) :=
  match draws with
  | [] => Ok []
  | d :: draws =>
    let? signer := EpochSigner_generate root_sk (epoch_for_time now_unix) until (d_seed d) in
    let? tid := ok_or (d_tid d) (DWire "fs mint: CSPRNG failure") in
    let t := EpochSigner_sign_token signer tid bridge_pk
               (saturating_add_u64 exp (jitter_of jitter_seconds (d_jitter d))) in
    let? rest := mint_fs_tokens root_sk bridge_pk now_unix until exp jitter_seconds draws in
    Ok (t :: rest)
  end.

(** ** Refresh tokens: a token the bridge signs, under its own domain *)
Definition refresh_prefix (t : CapabilityToken) : list byte := REFRESH_SIGN_DOMAIN ++ encode_signed_prefix t.

Definition refresh_verify_signature (bridge_pk : list byte) (t : CapabilityToken) : result DiscoveryError unit :=
  if negb (valid_point bridge_pk) then Err (DEd25519 "invalid bridge pubkey")
  else if verify_strict bridge_pk (refresh_prefix t) (signature t) then Ok tt
  else Err (DSignature "refresh: verification failed").

Definition sign_refresh_token (tid : list byte) (bridge_sk : SigningKey) (exp : Z) : CapabilityToken :=
  let t := mkToken tid (verifying_key bridge_sk) exp (replicate SIG_LEN x00) in
  mkToken tid (verifying_key bridge_sk) exp (sign bridge_sk (refresh_prefix t)).
End signing.

(** ** Codecs *)
#[local] Arguments slice : simpl never.
#[local] Arguments be_bytes : simpl never.
#[local] Arguments be_val : simpl never.

Definition token_wf (t : CapabilityToken) : Prop :=
  length (token_id t) = 32%nat ∧ length (bridge_ed25519_pk t) = 32%nat ∧ in_u64 (expires_at t)
  ∧ length (signature t) = 64%nat.
Definition cert_wf (c : EpochSubkeyCert) : Prop :=
  in_u64 (cert_epoch c) ∧ length (subkey_pk c) = 32%nat ∧ in_u64 (cert_valid_until c)
  ∧ length (root_sig c) = 64%nat.
Definition fs_wf (t : FsCapabilityToken) : Prop :=
  length (fs_token_id t) = 32%nat ∧ length (fs_bridge_pk t) = 32%nat ∧ in_u64 (fs_expires_at t)
  ∧ cert_wf (fs_cert t) ∧ length (token_sig t) = 64%nat.

(** Adjacent fields of a layout. *)
Lemma slice_split {A} (l : list A) (a b c : nat) : (a ≤ b)%nat → (b ≤ c)%nat → (c ≤ length l)%nat →
  slice l a c = slice l a b ++ slice l b c.
Proof.
  intros Hab Hbc Hc. unfold slice.
  replace (c - a)%nat with (b - a + (c - b))%nat by lia.
  rewrite <- (take_take_drop (drop a l)), drop_drop. by replace (a + (b - a))%nat with b by lia.
Qed.

Lemma slice_first {A} (mid post : list A) n : n = length mid → slice (mid ++ post) 0 n = mid.
Proof. intros ->. by apply (slice_mid [] mid post). Qed.

Lemma slice_last {A} (pre mid : list A) n m :
  n = length pre → m = (length pre + length mid)%nat → slice (pre ++ mid) n m = mid.
Proof. intros. rewrite <- (app_nil_r mid) at 1. by apply slice_mid. Qed.

Lemma slice_whole {A} (l : list A) n : length l = n → slice l 0 n = l.
Proof. intros <-. unfold slice. rewrite drop_0, Nat.sub_0_r. apply firstn_all. Qed.

Lemma be_val_8_range l : length l = 8%nat → in_u64 (be_val l).
Proof.
  intros H. pose proof (be_val_range l) as R. unfold zlen in R. rewrite H in R.
  change (256 ^ Z.of_nat 8) with (u64_max + 1) in R. unfold in_u64. lia.
Qed.

Lemma be_bytes_8_val l : length l = 8%nat → be_bytes 8 (be_val l) = l.
Proof. intros H. rewrite <- H. apply be_bytes_be_val. Qed.

Ltac lens := rewrite ?length_app, ?length_be_bytes; cbn [length]; lia.

Lemma token_encode_len t : token_wf t → length (CapabilityToken_encode t) = 136%nat.
Proof. intros (? & ? & _ & ?). unfold CapabilityToken_encode. lens. Qed.

Lemma cert_encode_len c : cert_wf c → length (EpochSubkeyCert_encode c) = 112%nat.
Proof. intros (_ & ? & _ & ?). unfold EpochSubkeyCert_encode. lens. Qed.

Lemma fs_encode_len t : fs_wf t → length (FsCapabilityToken_encode t) = 248%nat.
Proof.
  intros (? & ? & _ & Hc & ?). unfold FsCapabilityToken_encode.
  rewrite !length_app, (cert_encode_len _ Hc). lens.
Qed.

Lemma token_roundtrip t : token_wf t → CapabilityToken_decode (CapabilityToken_encode t) = Ok t.
Proof.
  intros W. unfold CapabilityToken_decode. rewrite bool_decide_false by (rewrite token_encode_len by done; lia).
  destruct t as [i b e s], W as (Hi & Hb & He & Hs). unfold CapabilityToken_encode.
  cbn [token_id bridge_ed25519_pk expires_at signature] in *.
  rewrite (slice_first i), (slice_mid i b) by (done || lia).
  rewrite (assoc_L (++) i b), (slice_mid (i ++ b) (be_bytes 8 e)) by lens.
  rewrite (assoc_L (++) (i ++ b)).
  rewrite (slice_last ((i ++ b) ++ be_bytes 8 e) s) by lens. by rewrite be_u64_roundtrip.
Qed.

Lemma cert_roundtrip c : cert_wf c → EpochSubkeyCert_decode (EpochSubkeyCert_encode c) = Ok c.
Proof.
  intros W. unfold EpochSubkeyCert_decode. rewrite bool_decide_false by (rewrite cert_encode_len by done; lia).
  destruct c as [e p u s], W as (He & Hp & Hu & Hs). unfold EpochSubkeyCert_encode.
  cbn [cert_epoch subkey_pk cert_valid_until root_sig] in *.
  rewrite (slice_first (be_bytes 8 e)), (slice_mid (be_bytes 8 e) p) by lens.
  rewrite (assoc_L (++) (be_bytes 8 e) p), (slice_mid (be_bytes 8 e ++ p) (be_bytes 8 u)) by lens.
  rewrite (assoc_L (++) (be_bytes 8 e ++ p)).
  rewrite (slice_last ((be_bytes 8 e ++ p) ++ be_bytes 8 u) s) by lens. by rewrite !be_u64_roundtrip.
Qed.

Lemma fs_roundtrip t : fs_wf t → FsCapabilityToken_decode (FsCapabilityToken_encode t) = Ok t.
Proof.
  intros W. unfold FsCapabilityToken_decode. rewrite bool_decide_false by (rewrite fs_encode_len by done; lia).
  destruct t as [i b e c s], W as (Hi & Hb & He & Hc & Hs). unfold FsCapabilityToken_encode.
  cbn [fs_token_id fs_bridge_pk fs_expires_at fs_cert token_sig] in *.
  pose proof (cert_encode_len c Hc) as Lc.
  rewrite (slice_first i _ 32), (slice_mid i b _ 32 64) by (done || lia).
  rewrite (assoc_L (++) i b), (slice_mid (i ++ b) (be_bytes 8 e) _ 64 72) by lens.
  rewrite (assoc_L (++) (i ++ b)), (slice_mid ((i ++ b) ++ be_bytes 8 e) (EpochSubkeyCert_encode c) _ 72 184) by lens.
  rewrite cert_roundtrip by done. rewrite (assoc_L (++) ((i ++ b) ++ be_bytes 8 e)).
  rewrite (slice_last (((i ++ b) ++ be_bytes 8 e) ++ EpochSubkeyCert_encode c) s 184 248) by lens.
  by rewrite be_u64_roundtrip.
Qed.

(** What decodes is canonical: no second encoding of a token exists. *)
Lemma token_decode_inv buf t : CapabilityToken_decode buf = Ok t →
  token_wf t ∧ CapabilityToken_encode t = buf.
Proof.
  unfold CapabilityToken_decode. case_bool_decide as Hl; [done|].
  intros <-%Ok_inj. split.
  - unfold token_wf. cbn. rewrite !length_slice by lia. split_and!; [done..| |done].
    apply be_val_8_range. by rewrite length_slice by lia.
  - unfold CapabilityToken_encode. cbn [token_id bridge_ed25519_pk expires_at signature].
    rewrite be_bytes_8_val by (by rewrite length_slice by lia).
    rewrite <- !slice_split by lia. by apply slice_whole.
Qed.

Lemma cert_decode_inv buf c : EpochSubkeyCert_decode buf = Ok c → cert_wf c ∧ EpochSubkeyCert_encode c = buf.
Proof.
  unfold EpochSubkeyCert_decode. case_bool_decide as Hl; [done|].
  intros <-%Ok_inj. split.
  - unfold cert_wf. cbn. rewrite !length_slice by lia.
    split_and!; [apply be_val_8_range; by rewrite length_slice by lia|done| |done].
    apply be_val_8_range. by rewrite length_slice by lia.
  - unfold EpochSubkeyCert_encode. cbn [cert_epoch subkey_pk cert_valid_until root_sig].
    rewrite !be_bytes_8_val by (by rewrite length_slice by lia).
    rewrite <- !slice_split by lia. by apply slice_whole.
Qed.

Lemma fs_decode_inv buf t : FsCapabilityToken_decode buf = Ok t → fs_wf t ∧ FsCapabilityToken_encode t = buf.
Proof.
  unfold FsCapabilityToken_decode. case_bool_decide as Hl; [done|].
  destruct (EpochSubkeyCert_decode _) as [c|] eqn:Ec; [|done].
  destruct (cert_decode_inv _ _ Ec) as [Wc Hc]. intros <-%Ok_inj. split.
  - unfold fs_wf. cbn. rewrite !length_slice by lia. split_and!; [done..| |done|done].
    apply be_val_8_range. by rewrite length_slice by lia.
  - unfold FsCapabilityToken_encode. cbn [fs_token_id fs_bridge_pk fs_expires_at fs_cert token_sig].
    rewrite be_bytes_8_val by (by rewrite length_slice by lia). rewrite Hc.
    rewrite <- !slice_split by lia. by apply slice_whole.
Qed.

(** ** What a signature can mean

    Everything the repository signs about a token, with its fields. *)
Inductive Issue : Set :=
| IBootstrap (tid bridge : list byte) (exp : Z)
| IRefresh (tid bridge : list byte) (exp : Z)
| ICert (epoch : Z) (sub : list byte) (until : Z)
| IFs (tid bridge : list byte) (exp epoch : Z) (sub : list byte).

Definition issue_bytes (i : Issue) : list byte :=
  match i with
  | IBootstrap tid b e => encode_signed_prefix (mkToken tid b e [])
  | IRefresh tid b e => refresh_prefix (mkToken tid b e [])
  | ICert ep sub until => cert_signed_prefix (mkCert ep sub until [])
  | IFs tid b e ep sub => fs_signed_prefix (mkFsToken tid b e (mkCert ep sub 0 []) [])
  end.

Definition issue_wf (i : Issue) : Prop :=
  match i with
  | IBootstrap tid b e | IRefresh tid b e => length tid = 32%nat ∧ length b = 32%nat ∧ in_u64 e
  | ICert ep sub until => in_u64 ep ∧ length sub = 32%nat ∧ in_u64 until
  | IFs tid b e ep sub =>
    length tid = 32%nat ∧ length b = 32%nat ∧ in_u64 e ∧ in_u64 ep ∧ length sub = 32%nat
  end.

(** The number of bytes a signature of each kind covers. *)
Definition issue_len (i : Issue) : nat :=
  match i with IBootstrap _ _ _ => 72 | IRefresh _ _ _ => 90 | ICert _ _ _ => 66 | IFs _ _ _ _ _ => 131 end.

Lemma cert_domain_len : length FS_CERT_DOMAIN = 18%nat.
Proof. reflexivity. Qed.
Lemma fs_domain_len : length FS_TOKEN_DOMAIN = 19%nat.
Proof. reflexivity. Qed.
Lemma refresh_domain_len : length REFRESH_SIGN_DOMAIN = 18%nat.
Proof. reflexivity. Qed.

Lemma issue_bytes_len i : issue_wf i → length (issue_bytes i) = issue_len i.
Proof.
  destruct i; cbn [issue_wf issue_bytes issue_len]; intros W; destruct_and! W;
    unfold refresh_prefix, encode_signed_prefix, cert_signed_prefix, fs_signed_prefix;
    cbn [token_id bridge_ed25519_pk expires_at cert_epoch subkey_pk cert_valid_until
         fs_token_id fs_bridge_pk fs_expires_at fs_cert];
    rewrite ?length_app, ?length_be_bytes, <- ?length_app, ?cert_domain_len, ?fs_domain_len, ?refresh_domain_len; lia.
Qed.

Lemma be_u64_inj a b : in_u64 a → in_u64 b → be_bytes 8 a = be_bytes 8 b → a = b.
Proof. intros Ha Hb H. by rewrite <- (be_u64_roundtrip a Ha), H, be_u64_roundtrip. Qed.

(** Splitting equal concatenations at a known length. *)
Ltac split_app H :=
  repeat match type of H with
  | _ ++ _ = _ ++ _ =>
    let H1 := fresh "Hf" in apply app_inj_1 in H as [H1 H]; [|rewrite ?length_be_bytes; congruence]
  end.

(** No signature over a token, a refresh token, a certificate or a
    forward-secure token can be taken for another: the signed bytes determine
    the kind and every field. *)
Lemma issue_bytes_inj i j : issue_wf i → issue_wf j → issue_bytes i = issue_bytes j → i = j.
Proof.
  intros Wi Wj H. pose proof (issue_bytes_len i Wi) as Li. rewrite H, (issue_bytes_len j Wj) in Li.
  destruct i, j; try discriminate Li; clear Li;
    cbn [issue_bytes issue_wf] in *; unfold refresh_prefix, encode_signed_prefix, cert_signed_prefix, fs_signed_prefix in H;
    cbn [token_id bridge_ed25519_pk expires_at cert_epoch subkey_pk cert_valid_until
         fs_token_id fs_bridge_pk fs_expires_at fs_cert] in H; destruct_and! Wi; destruct_and! Wj;
    split_app H; f_equal; try done; by apply be_u64_inj.
Qed.

Section issuance.
Context {E : Ed25519} {EL : Ed25519Laws E}.

Lemma verify_signature_ok pk t : verify_signature pk t = Ok tt ↔
  valid_point pk = true ∧ verify_strict pk (encode_signed_prefix t) (signature t) = true.
Proof.
  unfold verify_signature. destruct (valid_point pk); cbn; [|naive_solver].
  destruct (verify_strict _ _ _); naive_solver.
Qed.

Lemma verify_chain_ok pk now g t : verify_chain pk now g t = Ok tt ↔
  valid_point pk = true ∧ verify_strict pk (cert_signed_prefix (fs_cert t)) (root_sig (fs_cert t)) = true
  ∧ valid_point (subkey_pk (fs_cert t)) = true
  ∧ verify_strict (subkey_pk (fs_cert t)) (fs_signed_prefix t) (token_sig t) = true
  ∧ now <= saturating_add_u64 (cert_valid_until (fs_cert t)) g.
Proof.
  unfold verify_chain, verify_root_sig, is_retired.
  destruct (valid_point pk); cbn; [|naive_solver].
  destruct (verify_strict pk _ _); cbn; [|naive_solver].
  destruct (valid_point (subkey_pk _)); cbn; [|naive_solver].
  destruct (verify_strict (subkey_pk _) _ _); cbn; [|naive_solver].
  case_bool_decide.
  - split; [done|]. intros (_ & _ & _ & _ & ?). lia.
  - split; [|done]. intros _. split_and!; done || lia.
Qed.

Lemma sign_token_verifies tid b e sk :
  verify_signature (verifying_key sk) (sign_token tid b e sk) = Ok tt.
Proof. apply verify_signature_ok. split; [apply vk_valid|apply sig_verifies]. Qed.

Lemma refresh_token_verifies tid e sk :
  refresh_verify_signature (verifying_key sk) (sign_refresh_token tid sk e) = Ok tt.
Proof.
  unfold refresh_verify_signature. rewrite vk_valid. cbn [negb].
  change (refresh_prefix (sign_refresh_token tid sk e))
    with (refresh_prefix (mkToken tid (verifying_key sk) e (replicate 64 x00))).
  unfold sign_refresh_token. cbn [signature]. by rewrite sig_verifies.
Qed.

Lemma jitter_window j d : 0 <= j → 0 <= jitter_of j d <= j ∧ (0 < j → jitter_of j d < j).
Proof.
  intros Hj. unfold jitter_of. case_bool_decide; [lia|]. destruct d as [r|]; [|lia].
  pose proof (Z.mod_pos_bound r j). lia.
Qed.

Lemma sign_token_wf tid b e sk : length tid = 32%nat → length b = 32%nat → in_u64 e →
  token_wf (sign_token tid b e sk).
Proof. intros. split_and!; [done..|apply sig_len]. Qed.

(** What a batch of forward-secure tokens looks like: each names the bridge,
    verifies under the root key exactly until its certificate's window ends, and
    expires within the jitter window. *)
Definition minted (root_sk : SigningKey) (bridge_pk : list byte) (until exp jit : Z) (t : FsCapabilityToken) : Prop :=
  fs_is_for_bridge bridge_pk t = true ∧ cert_valid_until (fs_cert t) = until
  ∧ (∀ now g, verify_chain (verifying_key root_sk) now g t = Ok tt ↔ now <= saturating_add_u64 until g)
  ∧ exp <= fs_expires_at t <= saturating_add_u64 exp jit.

Lemma signer_token_minted root_sk bridge_pk epoch until exp jit d sd tid s :
  in_u64 exp → 0 <= jit → EpochSigner_generate root_sk epoch until (Some sd) = Ok s →
  minted root_sk bridge_pk until exp jit
    (EpochSigner_sign_token s tid bridge_pk (saturating_add_u64 exp (jitter_of jit d))).
Proof.
  intros He Hj. unfold EpochSigner_generate, generate_epoch_subkey, EpochSigner_new. cbn [ok_or].
  case_bool_decide; [done|]. intros <-%Ok_inj.
  destruct (jitter_window jit d Hj) as [J0 J1].
  split_and!; cbn [EpochSigner_sign_token fs_is_for_bridge fs_bridge_pk fs_cert signer_cert mint cert_valid_until fs_expires_at].
  - by apply bool_decide_true.
  - done.
  - intros now g. rewrite verify_chain_ok. cbn [EpochSigner_sign_token fs_cert signer_cert mint subkey_pk root_sig token_sig cert_valid_until].
    split; [by intros (_ & _ & _ & _ & ?)|]. intros Hn. split_and!; [apply vk_valid|apply sig_verifies|apply vk_valid| |done].
    apply sig_verifies.
  - unfold saturating_add_u64, in_u64 in *. lia.
  - unfold saturating_add_u64, in_u64 in *. lia.
Qed.

(** C34: Every forward-secure token the operator's tooling mints is for the bridge
    it was minted for, verifies under the operator's root key exactly up to the
    end of its certificate's window plus the grace the bridge allows, and expires
    within the jitter window; a batch has as many tokens as were asked for. *)
Theorem fs_mint_valid root_sk bridge_pk now until exp jit draws ts :
  in_u64 exp → 0 <= jit → mint_fs_tokens root_sk bridge_pk now until exp jit draws = Ok ts →
  length ts = length draws ∧ Forall (minted root_sk bridge_pk until exp jit) ts.
Proof.
  intros He Hj. revert ts. induction draws as [|d draws IH]; intros ts; cbn [mint_fs_tokens].
  { intros <-%Ok_inj. by split. }
  destruct (d_seed d) as [sd|]; [|done].
  destruct (EpochSigner_generate _ _ _ _) as [s|] eqn:Es; [|done].
  destruct (d_tid d) as [tid|]; [|done]. cbn [ok_or].
  destruct (mint_fs_tokens _ _ _ _ _ _ _) as [rest|]; [|done]. intros <-%Ok_inj.
  destruct (IH _ eq_refl) as [Hl Hf]. split; [by cbn; rewrite Hl|]. constructor; [|done].
  by eapply signer_token_minted.
Qed.
End issuance.

Lemma fs_mint_valid_witness :
  match mint_fs_tokens (E := EdDemo.scheme) x07 (replicate 32 x08) 7200 9000 8000 100
          [mkDraw (Some [x09]) (Some (replicate 32 x01)) (Some 250);
           mkDraw (Some [x0a]) (Some (replicate 32 x02)) None] with
  | Ok ts => length ts = 2%nat
  | Err _ => False
  end.
Proof.
  destruct (mint_fs_tokens (E := EdDemo.scheme) x07 _ _ _ _ _ _) as [ts|] eqn:Em; [|discriminate Em].
  destruct (fs_mint_valid (E := EdDemo.scheme) (EL := EdDemo.laws) x07 (replicate 32 x08) 7200 9000 8000 100 _ ts
    ltac:(split; discriminate) ltac:(discriminate) Em) as [H _]. exact H.
Defined.
