(* ===== verification/HandshakeWire.v ===== *)
(** * Handshake messages on the wire (crates/session/src/wire.rs)

    The three handshake messages, each of a fixed length, and the alert of
    earlier versions that is still parsed. *)

From stdpp Require Import base numbers list strings.
From Stdlib Require Import ZArith Lia Strings.Byte.
From S2P Require Import Prelude Bytes SessionFrames.

Abbreviation MAGIC := [x4d; x49] (only parsing).
Abbreviation MSG_TYPE_1 := x01 (only parsing).
Abbreviation MSG_TYPE_2 := x02 (only parsing).
Abbreviation MSG_TYPE_3 := x03 (only parsing).
Abbreviation MSG_TYPE_3_FS := x04 (only parsing).
Abbreviation MSG_TYPE_ALERT := xfe (only parsing).
Abbreviation MLKEM_EK_LEN := 1184 (only parsing).
Abbreviation MLKEM_CT_LEN := 1088 (only parsing).
Abbreviation NOISE_MSG_1_LEN := (32 + MLKEM_EK_LEN) (only parsing).
Abbreviation NOISE_MSG_2_LEN := (32 + 48 + MLKEM_CT_LEN + 16) (only parsing).
Abbreviation NOISE_MSG_3_LEN_NO_TOKEN := 64 (only parsing).
Abbreviation NOISE_MSG_3_LEN_WITH_TOKEN := 200 (only parsing).
Abbreviation NOISE_MSG_3_LEN_WITH_FS_TOKEN := 312 (only parsing).
Abbreviation TOKEN_PAYLOAD_LEN := 136 (only parsing).
Abbreviation FS_TOKEN_PAYLOAD_LEN := 248 (only parsing).
Abbreviation MSG_1_LEN := (2 + 1 + 2 + NOISE_MSG_1_LEN) (only parsing).
Abbreviation MSG_2_LEN := (2 + 1 + 2 + NOISE_MSG_2_LEN) (only parsing).
Abbreviation MSG_3_LEN_NO_TOKEN := (2 + 1 + NOISE_MSG_3_LEN_NO_TOKEN) (only parsing).
Abbreviation MSG_3_LEN_WITH_TOKEN := (2 + 1 + NOISE_MSG_3_LEN_WITH_TOKEN) (only parsing).
Abbreviation MSG_3_LEN_WITH_FS_TOKEN := (2 + 1 + NOISE_MSG_3_LEN_WITH_FS_TOKEN) (only parsing).
Abbreviation ALERT_REASON_MAX := 1024 (only parsing).

Record Message1 : Set := mkM1 { m1_version : Z; noise_msg_1 : list byte }.
Record Message2 : Set := mkM2 { m2_version : Z; noise_msg_2 : list byte }.
Record Message3 : Set := mkM3 { noise_msg_3 : list byte }.
Record CleartextAlert : Set := mkAlert { code : Z; reason : list byte }.

Definition Message1_encode (m : Message1) : list byte :=
  MAGIC ++ [MSG_TYPE_1] ++ be_bytes 2 (m1_version m) ++ noise_msg_1 m.

Definition Message1_decode (buf : list byte) : result SessionError Message1 :=
  if bool_decide (zlen buf ≠ MSG_1_LEN) then Err (Wire "message 1: wrong length")
  else if bool_decide (slice buf 0 2 ≠ MAGIC) then Err (Wire "message 1: bad magic")
  else if bool_decide (at_ buf 2 ≠ MSG_TYPE_1) then Err (Wire "message 1: wrong msg_type")
  else Ok (mkM1 (be_val [at_ buf 3; at_ buf 4]) (slice buf 5 (Z.to_nat (5 + NOISE_MSG_1_LEN)))).

Definition Message2_encode (m : Message2) : list byte :=
  MAGIC ++ [MSG_TYPE_2] ++ be_bytes 2 (m2_version m) ++ noise_msg_2 m.

Definition Message2_decode (buf : list byte) : result SessionError Message2 :=
  if bool_decide (zlen buf ≠ MSG_2_LEN) then Err (Wire "message 2: wrong length")
  else if bool_decide (slice buf 0 2 ≠ MAGIC) then Err (Wire "message 2: bad magic")
  else if bool_decide (at_ buf 2 ≠ MSG_TYPE_2) then Err (Wire "message 2: wrong msg_type")
  else Ok (mkM2 (be_val [at_ buf 3; at_ buf 4]) (slice buf 5 (Z.to_nat (5 + NOISE_MSG_2_LEN)))).

Definition Message3_encode (m : Message3) : list byte :=
  MAGIC
  ++ [if bool_decide (zlen (noise_msg_3 m) = NOISE_MSG_3_LEN_WITH_FS_TOKEN) then MSG_TYPE_3_FS else MSG_TYPE_3]
  ++ noise_msg_3 m.

Definition Message3_decode (buf : list byte) : result SessionError Message3 :=
  if bool_decide (zlen buf ≠ MSG_3_LEN_NO_TOKEN) && bool_decide (zlen buf ≠ MSG_3_LEN_WITH_TOKEN)
     && bool_decide (zlen buf ≠ MSG_3_LEN_WITH_FS_TOKEN)
  then Err (Wire "message 3: wrong length")
  else if bool_decide (slice buf 0 2 ≠ MAGIC) then Err (Wire "message 3: bad magic")
  else
    let type_ok := if bool_decide (zlen buf = MSG_3_LEN_WITH_FS_TOKEN)
                   then bool_decide (at_ buf 2 = MSG_TYPE_3_FS) else bool_decide (at_ buf 2 = MSG_TYPE_3) in
    if negb type_ok then Err (Wire "message 3: wrong msg_type")
    else Ok (mkM3 (drop 3 buf)).

Definition CleartextAlert_decode (buf : list byte) : result SessionError CleartextAlert :=
  if bool_decide (zlen buf < 7) then Err (Wire "alert: too short")
  else if bool_decide (slice buf 0 2 ≠ MAGIC) then Err (Wire "alert: bad magic")
  else if bool_decide (at_ buf 2 ≠ MSG_TYPE_ALERT) then Err (Wire "alert: wrong msg_type")
  else
    let reason_len := be_val [at_ buf 5; at_ buf 6] in
    if bool_decide (reason_len > ALERT_REASON_MAX) then Err (Wire "alert: reason_len exceeds max")
    else if bool_decide (zlen buf ≠ 7 + reason_len) then Err (Wire "alert: length mismatch")
    else
      let text := slice buf 7 (Z.to_nat (7 + reason_len)) in
      if utf8_valid text then Ok (mkAlert (be_val [at_ buf 3; at_ buf 4]) text)
      else Err (Wire "alert: reason not UTF-8").

(** ** Round trips *)
Lemma header_slice (ty : byte) (rest : list byte) : slice (x4d :: x49 :: ty :: rest) 0 2 = MAGIC.
Proof. done. Qed.

(** A whole fixed-length message behind a five-byte header. *)
Lemma body_slice (ty a b : byte) (body : list byte) n :
  Z.of_nat n = 5 + zlen body → slice (x4d :: x49 :: ty :: a :: b :: body) 5 n = body.
Proof.
  intros Hn. unfold zlen in Hn. unfold slice. cbn [app drop].
  rewrite drop_0. by rewrite take_ge by lia.
Qed.

Lemma m1_encode_len m : zlen (Message1_encode m) = 5 + zlen (noise_msg_1 m).
Proof. unfold Message1_encode. rewrite be_bytes_2. cbn [app]. rewrite !zlen_cons. lia. Qed.
Lemma m2_encode_len m : zlen (Message2_encode m) = 5 + zlen (noise_msg_2 m).
Proof. unfold Message2_encode. rewrite be_bytes_2. cbn [app]. rewrite !zlen_cons. lia. Qed.
Lemma m3_encode_len m : zlen (Message3_encode m) = 3 + zlen (noise_msg_3 m).
Proof. unfold Message3_encode. cbn [app]. rewrite !zlen_cons. lia. Qed.

Lemma m1_roundtrip v n : in_u16 v → zlen n = NOISE_MSG_1_LEN →
  Message1_decode (Message1_encode (mkM1 v n)) = Ok (mkM1 v n).
Proof.
  intros Hv Hn. unfold Message1_decode, Message1_encode. rewrite be_bytes_2. cbn [m1_version noise_msg_1 app].
  rewrite bool_decide_false by (rewrite !zlen_cons; lia).
  rewrite (header_slice MSG_TYPE_1), !bool_decide_false by (cbn; intros H; done).
  rewrite (body_slice MSG_TYPE_1) by (rewrite Hn; lia).
  cbn [at_ nth]. rewrite <- be_bytes_2. by rewrite be_u16_roundtrip.
Qed.

Lemma m2_roundtrip v n : in_u16 v → zlen n = NOISE_MSG_2_LEN →
  Message2_decode (Message2_encode (mkM2 v n)) = Ok (mkM2 v n).
Proof.
  intros Hv Hn. unfold Message2_decode, Message2_encode. rewrite be_bytes_2. cbn [m2_version noise_msg_2 app].
  rewrite bool_decide_false by (rewrite !zlen_cons; lia).
  rewrite (header_slice MSG_TYPE_2), !bool_decide_false by (cbn; intros H; done).
  rewrite (body_slice MSG_TYPE_2) by (rewrite Hn; lia).
  cbn [at_ nth]. rewrite <- be_bytes_2. by rewrite be_u16_roundtrip.
Qed.

Definition m3_len (n : Z) : Prop :=
  n = NOISE_MSG_3_LEN_NO_TOKEN ∨ n = NOISE_MSG_3_LEN_WITH_TOKEN ∨ n = NOISE_MSG_3_LEN_WITH_FS_TOKEN.

Lemma m3_roundtrip n : m3_len (zlen n) → Message3_decode (Message3_encode (mkM3 n)) = Ok (mkM3 n).
Proof.
  intros Hn. unfold Message3_decode, Message3_encode. cbn [noise_msg_3 app]. rewrite !zlen_cons.
  rewrite header_slice, (bool_decide_false (MAGIC ≠ MAGIC)) by (intros H; done).
  destruct Hn as [Hn|[Hn|Hn]]; rewrite Hn; reflexivity.
Qed.

(** The type byte of message 3 determines its length, and an accepted buffer is
    the encoding of what it decodes to. *)
Lemma m3_decode_inv buf m : Message3_decode buf = Ok m →
  m3_len (zlen (noise_msg_3 m)) ∧ Message3_encode m = buf.
Proof.
  unfold Message3_decode. destruct (_ && _ && _) eqn:El; [done|].
  destruct (bool_decide (slice _ _ _ ≠ _)) eqn:Hm; [done|].
  apply bool_decide_eq_false, dec_stable in Hm. destruct (negb _) eqn:Et; [done|]. intros <-%Ok_inj.
  cbn [noise_msg_3]. assert (3 <= zlen buf ∧ m3_len (zlen buf - 3)) as [Hge Hlen].
  { unfold m3_len. rewrite !andb_false_iff, !bool_decide_eq_false in El. lia. }
  assert (zlen (drop 3 buf) = zlen buf - 3) as Hd by (rewrite zlen_drop; lia).
  rewrite Hd. split; [done|]. unfold Message3_encode. cbn [noise_msg_3]. rewrite Hd.
  destruct buf as [|a [|b [|c buf]]]; [done..|]. cbn in Hm. simplify_eq. cbn [drop app at_ nth] in *.
  do 3 f_equal. repeat case_bool_decide; done || lia.
Qed.
