(* ===== verification/Rendezvous.v ===== *)
(** * Introduction and rendezvous points (crates/circuit/src/rendezvous.rs)

    [RendezvousState]: the tables of a bridge that lets a hidden service and a
    client meet. A service registers an introduction key on a circuit, a client
    parks a cookie on another, and the service joins the client's circuit by
    presenting the cookie. The signature scheme is the class [Ed25519]; the
    order in which the hash maps iterate is an argument of [tick]. *)

From stdpp Require Import base numbers list gmap strings.
From Stdlib Require Import ZArith Lia Strings.Byte.
From S2P Require Import Prelude Bytes Signature.

(** ** Data *)
Abbreviation COOKIE_LEN := 32 (only parsing).
Abbreviation ESTABLISH_INTRO_BODY_LEN := (32 + 64) (only parsing).
Abbreviation RENDEZVOUS_BODY_LEN := (COOKIE_LEN + 32) (only parsing).
Abbreviation ESTABLISH_INTRO_CONTEXT := (String.list_byte_of_string "mirage-onion-establish-intro-v1") (only parsing).
Abbreviation RENDEZVOUS_COOKIE_TTL := (secs 120) (only parsing).
Abbreviation INTRO_REGISTRATION_TTL := (secs (30 * 60)) (only parsing).
Abbreviation MAX_INTRO_REGISTRATIONS := 512 (only parsing).
Abbreviation MAX_PARKED_COOKIES := 4096 (only parsing).
Abbreviation CMD_ESTABLISH_INTRO_OK := x14 (only parsing).
Abbreviation CMD_RENDEZVOUS_OK := x16 (only parsing).

Record CircuitRef : Set := mkRef { session : Z; circ_id : Z }.

#[global] Instance CircuitRef_eq_dec : EqDecision CircuitRef.
Proof. solve_decision. Defined.
#[global] Program Instance CircuitRef_countable : Countable CircuitRef :=
  inj_countable (λ c, (session c, circ_id c)) (λ p, Some (mkRef p.1 p.2)) _.
Next Obligation. by intros []. Qed.

Inductive RendezvousError : Set :=
| BadLength (what : string) (want got : Z)
| BadSignature
| BadKey
| CircuitBusy (circ : Z)
| IntroKeyTaken
| CookieTaken
| NoSuchIntro
| TableFull (which : string).

#[global] Instance RendezvousError_eq_dec : EqDecision RendezvousError.
Proof. solve_decision. Defined.

Record EstablishIntroBody : Set := mkEstablish { intro_auth_pk : list byte; signature : list byte }.
Record RendezvousBody : Set := mkRendezvousBody { cookie : list byte; service_eph_x25519_pk : list byte }.

Inductive RendezvousAction : Set :=
| Ack (circ : CircuitRef) (cmd : byte)
| ForwardIntroduce (to_circ : CircuitRef) (bd : list byte)
| Join (client_circ service_circ : CircuitRef) (eph : list byte)
| Expire (circ : CircuitRef).

Record IntroReg : Set := mkReg { ir_circ : CircuitRef; ir_at : Z }.
Record ParkedCookie : Set := mkParked { pc_circ : CircuitRef; pc_at : Z }.

Inductive Role : Set :=
| RIntro (pk : list byte)
| RCookie (c : list byte)
| RJoined.

Record RendezvousState : Type := mkRdv {
  intros : gmap (list byte) IntroReg;
  cookies : gmap (list byte) ParkedCookie;
  roles : gmap CircuitRef Role;
  joined : gmap CircuitRef CircuitRef;
}.

(** Field assignments. *)
Definition set_intros (m : gmap (list byte) IntroReg) (s : RendezvousState) : RendezvousState :=
  mkRdv m (cookies s) (roles s) (joined s).
Definition set_cookies (m : gmap (list byte) ParkedCookie) (s : RendezvousState) : RendezvousState :=
  mkRdv (intros s) m (roles s) (joined s).
Definition set_roles (m : gmap CircuitRef Role) (s : RendezvousState) : RendezvousState :=
  mkRdv (intros s) (cookies s) m (joined s).
Definition set_joined (m : gmap CircuitRef CircuitRef) (s : RendezvousState) : RendezvousState :=
  mkRdv (intros s) (cookies s) (roles s) m.

Abbreviation rdv := (stm RendezvousState RendezvousError).

(** ** Bodies *)
Definition signing_input (circ : Z) (pk : list byte) : list byte :=
  ESTABLISH_INTRO_CONTEXT ++ be_bytes 4 circ ++ pk.

Definition EstablishIntroBody_encode (b : EstablishIntroBody) : list byte :=
  intro_auth_pk b ++ signature b.

Definition EstablishIntroBody_decode (b : list byte) : result RendezvousError EstablishIntroBody :=
  if bool_decide (zlen b ≠ ESTABLISH_INTRO_BODY_LEN)
  then Err (BadLength "establish-intro" ESTABLISH_INTRO_BODY_LEN (zlen b))
  else Ok (mkEstablish (take 32 b) (drop 32 b)).

Definition RendezvousBody_encode (b : RendezvousBody) : list byte :=
  cookie b ++ service_eph_x25519_pk b.

Definition RendezvousBody_decode (b : list byte) : result RendezvousError RendezvousBody :=
  if bool_decide (zlen b ≠ RENDEZVOUS_BODY_LEN)
  then Err (BadLength "rendezvous" RENDEZVOUS_BODY_LEN (zlen b))
  else Ok (mkRendezvousBody (take (Z.to_nat COOKIE_LEN) b) (drop (Z.to_nat COOKIE_LEN) b)).

Abbreviation intro_count s := (Z.of_nat (size (intros s))) (only parsing).
Abbreviation parked_count s := (Z.of_nat (size (cookies s))) (only parsing).

Section machine.
Context {E : Ed25519}.

Definition EstablishIntroBody_new (signing : SigningKey) (circ : Z) : EstablishIntroBody :=
  let pk := verifying_key signing in
  mkEstablish pk (sign signing (signing_input circ pk)).

Definition EstablishIntroBody_verify (circ : Z) (b : EstablishIntroBody) : result RendezvousError unit :=
  if valid_point (intro_auth_pk b) then
    if verify_strict (intro_auth_pk b) (signing_input circ (intro_auth_pk b)) (signature b)
    then Ok tt else Err BadSignature
  else Err BadKey.

(** ** Operations *)
Definition RendezvousState_new : RendezvousState := mkRdv ∅ ∅ ∅ ∅.
Definition partner (s : RendezvousState) (circ : CircuitRef) : option CircuitRef := joined s !! circ.

(** The registration that refuses a new one of the same key. *)
Definition key_taken (s : RendezvousState) (pk : list byte) (circ : CircuitRef) (now : Z) : bool :=
  match intros s !! pk with
  | Some existing =>
    bool_decide (ir_circ existing ≠ circ)
    && bool_decide (duration_since now (ir_at existing) < INTRO_REGISTRATION_TTL)
  | None => false
  end.

Definition establish_intro (circ : CircuitRef) (bd : list byte) (now : Z) : rdv RendezvousAction :=
  parsed <- st_lift (EstablishIntroBody_decode bd) ;;
  st_lift (EstablishIntroBody_verify (circ_id circ) parsed) ;;;
  s <- st_get ;;
  match roles s !! circ with
  | Some _ => st_err (CircuitBusy (circ_id circ))
  | None =>
    if key_taken s (intro_auth_pk parsed) circ now then st_err IntroKeyTaken
    else if bool_decide (intro_count s >= MAX_INTRO_REGISTRATIONS)
    then st_err (TableFull "introduction")
    else
      st_mod (λ s, set_intros (<[intro_auth_pk parsed := mkReg circ now]> (intros s)) s) ;;;
      st_mod (λ s, set_roles (<[circ := RIntro (intro_auth_pk parsed)]> (roles s)) s) ;;;
      st_ret (Ack circ CMD_ESTABLISH_INTRO_OK)
  end.

Definition establish_rendezvous (circ : CircuitRef) (cookie_bytes : list byte) (now : Z)
  : rdv RendezvousAction :=
  if bool_decide (zlen cookie_bytes ≠ COOKIE_LEN)
  then st_err (BadLength "rendezvous cookie" COOKIE_LEN (zlen cookie_bytes))
  else
    s <- st_get ;;
    match roles s !! circ with
    | Some _ => st_err (CircuitBusy (circ_id circ))
    | None =>
      match cookies s !! cookie_bytes with
      | Some _ => st_err CookieTaken
      | None =>
        if bool_decide (parked_count s >= MAX_PARKED_COOKIES) then st_err (TableFull "rendezvous")
        else
          st_mod (λ s, set_cookies (<[cookie_bytes := mkParked circ now]> (cookies s)) s) ;;;
          st_mod (λ s, set_roles (<[circ := RCookie cookie_bytes]> (roles s)) s) ;;;
          st_ret (Ack circ CMD_RENDEZVOUS_OK)
      end
    end.

Definition introduce (pk bd : list byte) (now : Z) : rdv RendezvousAction :=
  s <- st_get ;;
  match intros s !! pk with
  | Some reg =>
    if bool_decide (duration_since now (ir_at reg) < INTRO_REGISTRATION_TTL)
    then st_ret (ForwardIntroduce (ir_circ reg) bd)
    else st_err NoSuchIntro
  | None => st_err NoSuchIntro
  end.

Definition rendezvous (service_circ : CircuitRef) (bd : list byte) (now : Z) : rdv RendezvousAction :=
  parsed <- st_lift (RendezvousBody_decode bd) ;;
  s <- st_get ;;
  match roles s !! service_circ with
  | Some _ => st_err (CircuitBusy (circ_id service_circ))
  | None =>
    match cookies s !! cookie parsed with
    | Some parked =>
      if bool_decide (duration_since now (pc_at parked) < RENDEZVOUS_COOKIE_TTL) then
        let client_circ := pc_circ parked in
        st_mod (λ s, set_cookies (delete (cookie parsed) (cookies s)) s) ;;;
        st_mod (λ s, set_roles (<[client_circ := RJoined]> (roles s)) s) ;;;
        st_mod (λ s, set_roles (<[service_circ := RJoined]> (roles s)) s) ;;;
        st_mod (λ s, set_joined (<[client_circ := service_circ]> (joined s)) s) ;;;
        st_mod (λ s, set_joined (<[service_circ := client_circ]> (joined s)) s) ;;;
        st_ret (Join client_circ service_circ (service_eph_x25519_pk parsed))
      else st_err CookieTaken
    | None => st_err CookieTaken
    end
  end.

(** [retain]: the entries kept, and the actions of those dropped in the order
    in which the map yields them. *)
Definition cookie_live (now : Z) (p : ParkedCookie) : bool :=
  bool_decide (duration_since now (pc_at p) < RENDEZVOUS_COOKIE_TTL).
Definition intro_live (now : Z) (r : IntroReg) : bool :=
  bool_decide (duration_since now (ir_at r) < INTRO_REGISTRATION_TTL).

Record Orders : Type := mkOrders {
  cookie_order : gmap (list byte) ParkedCookie → list (list byte * ParkedCookie);
  intro_order : gmap (list byte) IntroReg → list (list byte * IntroReg);
}.

Definition expired_cookies (ord : Orders) (now : Z) (s : RendezvousState) : list CircuitRef :=
  map (λ kv, pc_circ kv.2) (filter (λ kv, cookie_live now kv.2 = false) (cookie_order ord (cookies s))).
Definition expired_intros (ord : Orders) (now : Z) (s : RendezvousState) : list CircuitRef :=
  map (λ kv, ir_circ kv.2) (filter (λ kv, intro_live now kv.2 = false) (intro_order ord (intros s))).

Definition tick (ord : Orders) (now : Z) (s : RendezvousState) : RendezvousState * list RendezvousAction :=
  let out := expired_cookies ord now s ++ expired_intros ord now s in
  let s' := set_cookies (filter (λ kv, cookie_live now kv.2 = true) (cookies s)) s in
  let s' := set_intros (filter (λ kv, intro_live now kv.2 = true) (intros s)) s' in
  (set_roles (foldl (λ m c, delete c m) (roles s) out) s', map Expire out).

Definition forget (circ : CircuitRef) (s : RendezvousState) : RendezvousState * option CircuitRef :=
  let role := roles s !! circ in
  let s := set_roles (delete circ (roles s)) s in
  match role with
  | Some (RIntro pk) =>
    (match intros s !! pk with
     | Some r => if bool_decide (ir_circ r = circ) then set_intros (delete pk (intros s)) s else s
     | None => s
     end, None)
  | Some (RCookie c) =>
    (match cookies s !! c with
     | Some p => if bool_decide (pc_circ p = circ) then set_cookies (delete c (cookies s)) s else s
     | None => s
     end, None)
  | Some RJoined =>
    let partner := joined s !! circ in
    let s := set_joined (delete circ (joined s)) s in
    (match partner with
     | Some p => set_roles (delete p (roles s)) (set_joined (delete p (joined s)) s)
     | None => s
     end, partner)
  | None => (s, None)
  end.

End machine.
