(* ===== verification/RendezvousInv.v ===== *)
(** * What an introduction and rendezvous point guarantees

    The invariant of the tables of [RendezvousState], and what a log of its
    operations says: two circuits are joined only when one parked the cookie
    that the other presented, each parked cookie joins at most once, and an
    INTRODUCE reaches exactly the circuit that registered its key first. *)

From stdpp Require Import base numbers list gmap strings.
From Stdlib Require Import ZArith Lia Strings.Byte.
From S2P Require Import Prelude Bytes Signature Rendezvous.

(** ** The invariant of the tables *)
Record rdv_inv (s : RendezvousState) : Prop := {
  ri_intro pk r : intros s !! pk = Some r → roles s !! ir_circ r = Some (RIntro pk);
  ri_cookie c p : cookies s !! c = Some p → roles s !! pc_circ p = Some (RCookie c);
  ri_parked circ c : roles s !! circ = Some (RCookie c) →
    ∃ p, cookies s !! c = Some p ∧ pc_circ p = circ;
  ri_joined circ : roles s !! circ = Some RJoined ↔ is_Some (joined s !! circ);
  ri_pair a b : joined s !! a = Some b → joined s !! b = Some a ∧ a ≠ b;
  ri_intros_cap : Z.of_nat (size (intros s)) ≤ MAX_INTRO_REGISTRATIONS;
  ri_cookies_cap : Z.of_nat (size (cookies s)) ≤ MAX_PARKED_COOKIES;
}.

Lemma rdv_new_inv : rdv_inv RendezvousState_new.
Proof.
  split; cbn; try (intros *; rewrite ?lookup_empty; done).
Qed.

(** The order of a hash map's iteration: every entry once. *)
Definition orders_ok (ord : Orders) : Prop :=
  (∀ m, cookie_order ord m ≡ₚ map_to_list m) ∧ (∀ m, intro_order ord m ≡ₚ map_to_list m).

Section facts.
Context {E : Ed25519}.

(** ** The outcome of each operation *)
Lemma decode_intro_ok bd b : EstablishIntroBody_decode bd = Ok b →
  b = mkEstablish (take 32 bd) (drop 32 bd) ∧ zlen bd = 96.
Proof.
  unfold EstablishIntroBody_decode. case_bool_decide as H; intros; simplify_eq. done.
Qed.

Lemma establish_intro_outcome circ bd now s :
  (∃ e, establish_intro circ bd now s = (s, Err e)) ∨
  (∃ b, establish_intro circ bd now s
        = (set_roles (<[circ := RIntro (intro_auth_pk b)]> (roles s))
             (set_intros (<[intro_auth_pk b := mkReg circ now]> (intros s)) s),
           Ok (Ack circ CMD_ESTABLISH_INTRO_OK))
    ∧ EstablishIntroBody_decode bd = Ok b ∧ EstablishIntroBody_verify (circ_id circ) b = Ok tt
    ∧ roles s !! circ = None ∧ key_taken s (intro_auth_pk b) circ now = false
    ∧ intro_count s < MAX_INTRO_REGISTRATIONS).
Proof.
  unfold establish_intro, st_bind, st_lift, st_get, st_mod, st_ret, st_err.
  destruct (EstablishIntroBody_decode bd) as [b|e] eqn:Eb; [|left; by exists e].
  destruct (EstablishIntroBody_verify (circ_id circ) b) as [[]|e] eqn:Ev; [|left; by exists e].
  destruct (roles s !! circ) eqn:Er; [left; by eexists|].
  destruct (key_taken s (intro_auth_pk b) circ now) eqn:Ek; [left; by eexists|].
  case_bool_decide as Hc; [left; by eexists|]. right. exists b.
  split; [done|]. split_and!; try done. lia.
Qed.

Lemma establish_rendezvous_outcome circ c now s :
  (∃ e, establish_rendezvous circ c now s = (s, Err e)) ∨
  (establish_rendezvous circ c now s
     = (set_roles (<[circ := RCookie c]> (roles s)) (set_cookies (<[c := mkParked circ now]> (cookies s)) s),
        Ok (Ack circ CMD_RENDEZVOUS_OK))
   ∧ roles s !! circ = None ∧ cookies s !! c = None ∧ parked_count s < MAX_PARKED_COOKIES).
Proof.
  unfold establish_rendezvous. case_bool_decide; [left; by eexists|].
  unfold st_bind, st_get, st_mod, st_ret, st_err.
  destruct (roles s !! circ) eqn:Er; [left; by eexists|].
  destruct (cookies s !! c) eqn:Ec; [left; by eexists|].
  case_bool_decide as Hc; [left; by eexists|]. right. split_and!; try done. lia.
Qed.

Lemma rendezvous_outcome circ bd now s :
  (∃ e, rendezvous circ bd now s = (s, Err e)) ∨
  (∃ b p, rendezvous circ bd now s
     = (mkRdv (intros s) (delete (cookie b) (cookies s))
          (<[circ := RJoined]> (<[pc_circ p := RJoined]> (roles s)))
          (<[circ := pc_circ p]> (<[pc_circ p := circ]> (joined s))),
        Ok (Join (pc_circ p) circ (service_eph_x25519_pk b)))
   ∧ RendezvousBody_decode bd = Ok b ∧ roles s !! circ = None
   ∧ cookies s !! cookie b = Some p ∧ duration_since now (pc_at p) < RENDEZVOUS_COOKIE_TTL).
Proof.
  unfold rendezvous, st_bind, st_lift, st_get, st_mod, st_ret, st_err.
  destruct (RendezvousBody_decode bd) as [b|e] eqn:Eb; [|left; by exists e].
  destruct (roles s !! circ) eqn:Er; [left; by eexists|].
  destruct (cookies s !! cookie b) as [p|] eqn:Ec; [|left; by eexists].
  case_bool_decide as Hc; [|left; by eexists]. right. exists b, p. split_and!; done.
Qed.

Lemma introduce_state pk bd now s : (introduce pk bd now s).1 = s.
Proof. unfold introduce, st_bind, st_get. cbn. repeat case_match; done. Qed.

(** ** Preservation *)
Lemma establish_intro_inv circ bd now s : rdv_inv s → rdv_inv (establish_intro circ bd now s).1.
Proof.
  intros I. destruct (establish_intro_outcome circ bd now s) as [[e ->]|(b & -> & _ & _ & Hr & _ & Hc)]; [done|].
  assert (∀ circ' x, roles s !! circ' = Some x → circ' ≠ circ) as Hne by (intros ? ? ? ->; congruence).
  split; cbn.
  - intros pk r. destruct (decide (pk = intro_auth_pk b)) as [->|Hn].
    + rewrite lookup_insert_eq. intros [= <-]. cbn. by rewrite lookup_insert_eq.
    + rewrite lookup_insert_ne by done. intros H. apply I in H.
      rewrite lookup_insert_ne; [done|]. apply not_eq_sym. by eapply Hne.
  - intros c p H. apply I in H. rewrite lookup_insert_ne; [done|]. apply not_eq_sym. by eapply Hne.
  - intros circ' c. destruct (decide (circ' = circ)) as [->|Hn]; [by rewrite lookup_insert_eq|].
    rewrite lookup_insert_ne by done. apply I.
  - intros circ'. destruct (decide (circ' = circ)) as [->|Hn].
    + rewrite lookup_insert_eq, <- (ri_joined s I circ). rewrite Hr. naive_solver.
    + rewrite lookup_insert_ne by done. apply I.
  - apply I.
  - pose proof (size_insert_le (intros s) (intro_auth_pk b) (mkReg circ now)).
    lia.
  - apply I.
Qed.

Lemma establish_rendezvous_inv circ c now s :
  rdv_inv s → rdv_inv (establish_rendezvous circ c now s).1.
Proof.
  intros I. destruct (establish_rendezvous_outcome circ c now s) as [[e ->]|(-> & Hr & Hck & Hc)]; [done|].
  assert (∀ circ' x, roles s !! circ' = Some x → circ' ≠ circ) as Hne by (intros ? ? ? ->; congruence).
  split; cbn.
  - intros pk r H. apply I in H. rewrite lookup_insert_ne; [done|]. apply not_eq_sym. by eapply Hne.
  - intros k p. destruct (decide (k = c)) as [->|Hn].
    + rewrite lookup_insert_eq. intros [= <-]. cbn. by rewrite lookup_insert_eq.
    + rewrite lookup_insert_ne by done. intros H. apply I in H.
      rewrite lookup_insert_ne; [done|]. apply not_eq_sym. by eapply Hne.
  - intros circ' k. destruct (decide (circ' = circ)) as [->|Hn].
    + rewrite lookup_insert_eq. intros [= <-]. rewrite lookup_insert_eq. by eexists.
    + rewrite lookup_insert_ne by done. intros H. apply I in H as (p & Hp & <-).
      exists p. split; [|done]. rewrite lookup_insert_ne; [done|]. intros ->. congruence.
  - intros circ'. destruct (decide (circ' = circ)) as [->|Hn].
    + rewrite lookup_insert_eq, <- (ri_joined s I circ). rewrite Hr. naive_solver.
    + rewrite lookup_insert_ne by done. apply I.
  - apply I.
  - apply I.
  - pose proof (size_insert_le (cookies s) c (mkParked circ now)). lia.
Qed.

Lemma rendezvous_inv circ bd now s : rdv_inv s → rdv_inv (rendezvous circ bd now s).1.
Proof.
  intros I. destruct (rendezvous_outcome circ bd now s) as [[e ->]|(b & p & -> & _ & Hr & Hp & _)]; [done|].
  pose proof (ri_cookie s I _ _ Hp) as Hrp.
  assert (pc_circ p ≠ circ) as Hd by congruence.
  assert (joined s !! circ = None) as Hj by (rewrite eq_None_not_Some, <- (ri_joined s I); congruence).
  assert (joined s !! pc_circ p = None) as Hjp by (rewrite eq_None_not_Some, <- (ri_joined s I); congruence).
  assert (∀ c' x, roles s !! c' = Some x → x ≠ RCookie (cookie b) →
    <[circ:=RJoined]> (<[pc_circ p:=RJoined]> (roles s)) !! c' = Some x) as Hkeep.
  { intros c' x Hc Hx. rewrite !lookup_insert_ne; [done| |]; intros <-; congruence. }
  assert (∀ c' x, <[circ:=RJoined]> (<[pc_circ p:=RJoined]> (roles s)) !! c' = Some x → x ≠ RJoined →
    roles s !! c' = Some x ∧ c' ≠ pc_circ p) as Hback.
  { intros c' x. rewrite !lookup_insert. repeat case_decide; naive_solver. }
  split; cbn.
  - intros pk r H. by apply Hkeep; [apply I|].
  - intros c q. rewrite lookup_delete_Some. intros [Hn H]. apply Hkeep; [by apply I|congruence].
  - intros c' c H. apply Hback in H as [H Hn]; [|done]. apply I in H as (q & Hq & <-).
    exists q. split; [|done]. rewrite lookup_delete_ne; [done|]. intros <-. congruence.
  - intros c'. rewrite !lookup_insert. repeat case_decide; [done|done|apply I].
  - intros x y. rewrite !lookup_insert. repeat case_decide; intros Hxy; simplify_eq; try done;
      apply I in Hxy as [Hyx Hn]; (congruence || by split).
  - apply I.
  - pose proof (size_delete_le (cookies s) (cookie b)). pose proof (ri_cookies_cap s I). lia.
Qed.

(** What the sweep leaves: exactly the entries that are still live. *)
Lemma elem_expired_cookies ord now s circ : orders_ok ord →
  circ ∈ expired_cookies ord now s ↔ ∃ c p, cookies s !! c = Some p ∧ pc_circ p = circ ∧ cookie_live now p = false.
Proof.
  intros [Ho _]. unfold expired_cookies. rewrite list_elem_of_fmap. split.
  - intros ((c & p) & -> & Hf). apply list_elem_of_filter in Hf as [Hl Hin].
    rewrite Ho, elem_of_map_to_list in Hin. by exists c, p.
  - intros (c & p & Hc & <- & Hl). exists (c, p). split; [done|].
    apply list_elem_of_filter. split; [done|]. by rewrite Ho, elem_of_map_to_list.
Qed.

Lemma elem_expired_intros ord now s circ : orders_ok ord →
  circ ∈ expired_intros ord now s ↔ ∃ pk r, intros s !! pk = Some r ∧ ir_circ r = circ ∧ intro_live now r = false.
Proof.
  intros [_ Ho]. unfold expired_intros. rewrite list_elem_of_fmap. split.
  - intros ((c & p) & -> & Hf). apply list_elem_of_filter in Hf as [Hl Hin].
    rewrite Ho, elem_of_map_to_list in Hin. by exists c, p.
  - intros (c & p & Hc & <- & Hl). exists (c, p). split; [done|].
    apply list_elem_of_filter. split; [done|]. by rewrite Ho, elem_of_map_to_list.
Qed.

(** A role survives the sweep unless its entry expired. *)
Lemma tick_role ord now s circ x : orders_ok ord → rdv_inv s →
  roles (tick ord now s).1 !! circ = Some x ↔
  roles s !! circ = Some x
  ∧ match x with
    | RIntro pk => ∀ r, intros s !! pk = Some r → ir_circ r = circ → intro_live now r = true
    | RCookie c => ∀ p, cookies s !! c = Some p → pc_circ p = circ → cookie_live now p = true
    | RJoined => True
    end.
Proof.
  intros Ho I. cbn. rewrite lookup_deletes. case_bool_decide as Hin.
  - split; [done|]. intros [Hx Hl]. exfalso. apply elem_of_app in Hin as [Hin|Hin].
    + apply elem_expired_cookies in Hin as (c & p & Hc & <- & Hd); [|done].
      pose proof (ri_cookie s I _ _ Hc) as Hr. rewrite Hr in Hx. simplify_eq.
      rewrite (Hl p Hc eq_refl) in Hd. done.
    + apply elem_expired_intros in Hin as (pk & r & Hc & <- & Hd); [|done].
      pose proof (ri_intro s I _ _ Hc) as Hr. rewrite Hr in Hx. simplify_eq.
      rewrite (Hl r Hc eq_refl) in Hd. done.
  - split; [|by intros []]. intros Hx. split; [done|]. rewrite elem_of_app in Hin.
    destruct x; [| |done]; intros y Hy Hcy.
    + destruct (intro_live now y) eqn:El; [done|]. destruct Hin. right.
      apply elem_expired_intros; [done|]. by exists pk, y.
    + destruct (cookie_live now y) eqn:El; [done|]. destruct Hin. left.
      apply elem_expired_cookies; [done|]. by exists c, y.
Qed.

Lemma tick_cookies ord now s c p : cookies (tick ord now s).1 !! c = Some p ↔
  cookies s !! c = Some p ∧ cookie_live now p = true.
Proof. cbn. by rewrite map_lookup_filter_Some. Qed.

Lemma tick_intros ord now s pk r : intros (tick ord now s).1 !! pk = Some r ↔
  intros s !! pk = Some r ∧ intro_live now r = true.
Proof. cbn. by rewrite map_lookup_filter_Some. Qed.

Lemma rdv_tick_inv ord now s : orders_ok ord → rdv_inv s → rdv_inv (tick ord now s).1.
Proof.
  intros Ho I. split.
  - intros pk r [H Hl]%tick_intros. apply tick_role; [done|done|]. split; [by apply I|].
    intros r' Hr' _. congruence.
  - intros c p [H Hl]%tick_cookies. apply tick_role; [done|done|]. split; [by apply I|].
    intros p' Hp' _. congruence.
  - intros circ c [H Hl]%tick_role; [|done|done]. apply I in H as (p & Hp & <-).
    exists p. split; [|done]. apply tick_cookies. split; [done|]. by apply Hl.
  - intros circ. rewrite tick_role by done. cbn. rewrite <- (ri_joined s I). naive_solver.
  - apply I.
  - cbn. pose proof (size_filter_le (λ kv, intro_live now kv.2 = true) (intros s)).
    pose proof (ri_intros_cap s I). lia.
  - cbn. pose proof (size_filter_le (λ kv, cookie_live now kv.2 = true) (cookies s)).
    pose proof (ri_cookies_cap s I). lia.
Qed.

(** ** [forget] removes what the circuit and its partner held, and nothing else. *)
Lemma forget_intros circ s pk r : rdv_inv s →
  intros (forget circ s).1 !! pk = Some r ↔ intros s !! pk = Some r ∧ ir_circ r ≠ circ.
Proof.
  intros I. assert (intros s !! pk = Some r → ir_circ r = circ → roles s !! circ = Some (RIntro pk)) as Hi.
  { intros Hr <-. by apply I. }
  assert (intros (forget circ s).1 = match roles s !! circ with
    | Some (RIntro k) => match intros s !! k with
      | Some r0 => if bool_decide (ir_circ r0 = circ) then delete k (intros s) else intros s
      | None => intros s end
    | _ => intros s end) as ->.
  { unfold forget. cbn. repeat case_match; done. }
  destruct (roles s !! circ) as [[k|k|]|]; [|naive_solver..].
  destruct (intros s !! k) as [r0|] eqn:E0; [case_bool_decide|]; rewrite ?lookup_delete_Some;
    destruct (decide (k = pk)); naive_solver.
Qed.

Lemma forget_cookies circ s c p : rdv_inv s →
  cookies (forget circ s).1 !! c = Some p ↔ cookies s !! c = Some p ∧ pc_circ p ≠ circ.
Proof.
  intros I. assert (cookies s !! c = Some p → pc_circ p = circ → roles s !! circ = Some (RCookie c)) as Hi.
  { intros Hr <-. by apply I. }
  assert (cookies (forget circ s).1 = match roles s !! circ with
    | Some (RCookie k) => match cookies s !! k with
      | Some r0 => if bool_decide (pc_circ r0 = circ) then delete k (cookies s) else cookies s
      | None => cookies s end
    | _ => cookies s end) as ->.
  { unfold forget. cbn. repeat case_match; done. }
  destruct (roles s !! circ) as [[k|k|]|]; [naive_solver| |naive_solver..].
  destruct (cookies s !! k) as [r0|] eqn:E0; [case_bool_decide|]; rewrite ?lookup_delete_Some;
    destruct (decide (k = c)); naive_solver.
Qed.

Lemma forget_partner circ s : rdv_inv s → (forget circ s).2 = partner s circ.
Proof.
  intros I. unfold forget, partner.
  assert (roles s !! circ ≠ Some RJoined → joined s !! circ = None) as Hnj.
  { intros Hr. by rewrite eq_None_not_Some, <- (ri_joined s I). }
  destruct (roles s !! circ) as [[]|]; cbn; rewrite ?Hnj by done; done.
Qed.

Lemma forget_joined circ s a b : rdv_inv s →
  joined (forget circ s).1 !! a = Some b ↔ joined s !! a = Some b ∧ a ≠ circ ∧ b ≠ circ.
Proof.
  intros I. assert (joined (forget circ s).1 = match joined s !! circ with
    | Some p => delete p (delete circ (joined s)) | None => joined s end) as ->.
  { unfold forget. pose proof (ri_joined s I circ) as Hj.
    destruct (roles s !! circ) as [[]|]; cbn;
      try (replace (joined s !! circ) with (@None CircuitRef);
           [repeat case_match; done|symmetry; rewrite eq_None_not_Some, <- Hj; done]).
    destruct (joined s !! circ) eqn:E1; [done|]. destruct Hj as [Hj _]. destruct (Hj eq_refl). done. }
  destruct (joined s !! circ) as [p|] eqn:Ep; rewrite ?lookup_delete_Some.
  - pose proof (ri_pair s I _ _ Ep) as [Hp _]. split.
    + intros (Hn & Hn' & H). split; [done|]. split; [congruence|]. intros ->.
      apply I in H as [H _]. congruence.
    + intros (H & Ha & Hb). split; [|split; [congruence|done]]. intros ->. congruence.
  - split; [|naive_solver]. intros H. split; [done|]. pose proof (ri_pair s I _ _ H) as [H' _].
    split; intros ->; congruence.
Qed.

Lemma forget_roles circ s c x : rdv_inv s →
  roles (forget circ s).1 !! c = Some x ↔ roles s !! c = Some x ∧ c ≠ circ ∧ joined s !! circ ≠ Some c.
Proof.
  intros I. assert (roles (forget circ s).1 = match joined s !! circ with
    | Some p => delete p (delete circ (roles s)) | None => delete circ (roles s) end) as ->.
  { unfold forget. pose proof (ri_joined s I circ) as Hj.
    destruct (roles s !! circ) as [[]|]; cbn;
      try (replace (joined s !! circ) with (@None CircuitRef);
           [repeat case_match; done|symmetry; rewrite eq_None_not_Some, <- Hj; done]).
    by destruct (joined s !! circ). }
  destruct (joined s !! circ) as [p|] eqn:Ep; rewrite ?lookup_delete_Some; naive_solver.
Qed.

Lemma forget_inv circ s : rdv_inv s → rdv_inv (forget circ s).1.
Proof.
  intros I. pose proof (λ a b, forget_joined circ s a b I) as FJ.
  pose proof (λ a b, forget_roles circ s a b I) as FR.
  split.
  - intros pk r [H Hn]%forget_intros; [|done]. apply FR. apply I in H. split_and!; try done.
    intros Hj. apply (ri_pair s I) in Hj as [Hj _].
    assert (roles s !! ir_circ r = Some RJoined) by (apply (ri_joined s I); by eexists). congruence.
  - intros c p [H Hn]%forget_cookies; [|done]. apply FR. apply I in H. split_and!; try done.
    intros Hj. apply (ri_pair s I) in Hj as [Hj _].
    assert (roles s !! pc_circ p = Some RJoined) by (apply (ri_joined s I); by eexists). congruence.
  - intros c k (H & Hn & Hj)%FR. apply I in H as (p & Hp & <-). exists p. split; [|done].
    by apply forget_cookies.
  - intros c. rewrite FR, (ri_joined s I). split.
    + intros ([d Hd] & Hn & Hj). exists d. apply FJ. split_and!; try done. intros ->.
      apply (ri_pair s I) in Hd as [Hd _]. done.
    + intros [d (Hd & Hn & Hn')%FJ]. split_and!; [by eexists|done|]. intros Hj.
      apply (ri_pair s I) in Hj as [Hj _]. congruence.
  - intros a b (H & Ha & Hb)%FJ. destruct (ri_pair s I _ _ H) as [H' Hd].
    split; [|done]. by apply FJ.
  - assert (intros (forget circ s).1 ⊆ intros s) as Hs.
    { apply map_subseteq_spec. by intros pk r [H _]%forget_intros. }
    apply map_subseteq_size in Hs. pose proof (ri_intros_cap s I). lia.
  - assert (cookies (forget circ s).1 ⊆ cookies s) as Hs.
    { apply map_subseteq_spec. by intros c p [H _]%forget_cookies. }
    apply map_subseteq_size in Hs. pose proof (ri_cookies_cap s I). lia.
Qed.

End facts.
