(* ===== verification/RendezvousLog.v ===== *)
(** * Runs of an introduction and rendezvous point

    Any sequence of operations on [RendezvousState] at non-decreasing times, with
    a log of the registrations, parked cookies, forwarded introductions, joins
    and forgotten circuits. *)

From stdpp Require Import base numbers list gmap strings.
From Stdlib Require Import ZArith Lia Strings.Byte.
From S2P Require Import Prelude Bytes Signature Rendezvous RendezvousInv.

Inductive RdvOp : Type :=
| OpIntro (circ : CircuitRef) (bd : list byte)
| OpPark (circ : CircuitRef) (c : list byte)
| OpIntroduce (pk bd : list byte)
| OpMeet (circ : CircuitRef) (bd : list byte)
| OpTick (ord : Orders)
| OpForget (circ : CircuitRef).

(** What happened, with its time. *)
Inductive RdvEv : Type :=
| EvReg (circ : CircuitRef) (b : EstablishIntroBody) (at_ : Z)
| EvPark (circ : CircuitRef) (c : list byte) (at_ : Z)
| EvForward (pk : list byte) (to_circ : CircuitRef) (bd : list byte) (at_ : Z)
| EvJoin (client service : CircuitRef) (c : list byte) (at_ : Z)
| EvForget (circ : CircuitRef).

Definition op_ok (op : RdvOp) : Prop :=
  match op with OpTick ord => orders_ok ord | _ => True end.

Section runs.
Context {E : Ed25519}.

Definition rdv_exec (op : RdvOp) (now : Z) (s : RendezvousState) : RendezvousState * list RdvEv :=
  match op with
  | OpIntro circ bd =>
    match establish_intro circ bd now s with
    | (s', Ok _) => (s', [EvReg circ (mkEstablish (take 32 bd) (drop 32 bd)) now])
    | (s', Err _) => (s', [])
    end
  | OpPark circ c =>
    match establish_rendezvous circ c now s with
    | (s', Ok _) => (s', [EvPark circ c now])
    | (s', Err _) => (s', [])
    end
  | OpIntroduce pk bd =>
    match introduce pk bd now s with
    | (s', Ok (ForwardIntroduce to_circ bd')) => (s', [EvForward pk to_circ bd' now])
    | (s', _) => (s', [])
    end
  | OpMeet circ bd =>
    match rendezvous circ bd now s with
    | (s', Ok (Join client service _)) => (s', [EvJoin client service (take 32 bd) now])
    | (s', _) => (s', [])
    end
  | OpTick ord => ((tick ord now s).1, [])
  | OpForget circ => ((forget circ s).1, [EvForget circ])
  end.

Inductive rdv_run : Z → list RdvEv → RendezvousState → Prop :=
| run_new t : rdv_run t [] RendezvousState_new
| run_op t log s op now s' evs :
    rdv_run t log s → t ≤ now → op_ok op → rdv_exec op now s = (s', evs) →
    rdv_run now (log ++ evs) s'.

Lemma rdv_exec_inv op now s : op_ok op → rdv_inv s → rdv_inv (rdv_exec op now s).1.
Proof.
  intros Hok I. destruct op; cbn [rdv_exec].
  - pose proof (establish_intro_inv circ bd now s I). by destruct (establish_intro circ bd now s) as [? []].
  - pose proof (establish_rendezvous_inv circ c now s I). by destruct (establish_rendezvous circ c now s) as [? []].
  - pose proof (introduce_state pk bd now s). destruct (introduce pk bd now s) as [? [[]|]]; cbn in *; by subst.
  - pose proof (rendezvous_inv circ bd now s I). by destruct (rendezvous circ bd now s) as [? [[]|]].
  - by apply rdv_tick_inv.
  - by apply forget_inv.
Qed.

Lemma run_rdv_inv t log s : rdv_run t log s → rdv_inv s.
Proof.
  induction 1 as [|t log s op now s' evs _ IH _ Hok HE]; [apply rdv_new_inv|].
  pose proof (rdv_exec_inv op now s Hok IH) as H. by rewrite HE in H.
Qed.

(** ** What the tables remember of the log *)

Definition joins_cookie (c : list byte) (ev : RdvEv) : bool :=
  match ev with EvJoin _ _ k _ => bool_decide (k = c) | _ => false end.
Definition drops (circ : CircuitRef) (ev : RdvEv) : bool :=
  match ev with EvForget k => bool_decide (k = circ) | _ => false end.

(** [ev] is in the log and no event after it satisfies [P]. *)
Definition last_is (ev : RdvEv) (P : RdvEv → bool) (log : list RdvEv) : Prop :=
  ∃ a b, log = a ++ ev :: b ∧ Forall (λ x, P x = false) b.

Lemma last_is_app ev P log evs :
  last_is ev P log → Forall (λ x, P x = false) evs → last_is ev P (log ++ evs).
Proof.
  intros (a & b & -> & Hb) He. exists a, (b ++ evs). split; [by rewrite <- app_assoc|].
  by apply Forall_app.
Qed.
Lemma last_is_snoc ev P log : last_is ev P (log ++ [ev]).
Proof. exists log, []. done. Qed.

Definition linked (a b : CircuitRef) (log : list RdvEv) : Prop :=
  ∃ c t, last_is (EvJoin a b c t) (λ x, drops a x || drops b x) log
       ∨ last_is (EvJoin b a c t) (λ x, drops a x || drops b x) log.

Record remembers (t : Z) (log : list RdvEv) (s : RendezvousState) : Prop := {
  rm_intro pk r : intros s !! pk = Some r → ir_at r ≤ t ∧
    ∃ sg, last_is (EvReg (ir_circ r) (mkEstablish pk sg) (ir_at r)) (drops (ir_circ r)) log;
  rm_cookie c p : cookies s !! c = Some p → pc_at p ≤ t ∧
    last_is (EvPark (pc_circ p) c (pc_at p)) (λ x, joins_cookie c x || drops (pc_circ p) x) log;
  rm_joined a b : joined s !! a = Some b → linked a b log;
}.

Lemma linked_app a b log evs :
  linked a b log → Forall (λ x, drops a x = false ∧ drops b x = false) evs → linked a b (log ++ evs).
Proof.
  intros (c & t & H) He. exists c, t.
  assert (Forall (λ x, drops a x || drops b x = false) evs) as Hf.
  { eapply Forall_impl; [exact He|]. intros x [-> ->]. done. }
  destruct H as [H|H]; [left|right]; by apply last_is_app.
Qed.

(** Nothing in [evs] forgets a circuit or joins a cookie. *)
Definition quiet (evs : list RdvEv) : Prop :=
  Forall (λ x, match x with EvJoin _ _ _ _ | EvForget _ => False | _ => True end) evs.

Lemma remembers_quiet t now log s s' evs :
  remembers t log s → t ≤ now → quiet evs → joined s' = joined s →
  (∀ pk r, intros s' !! pk = Some r → intros s !! pk = Some r ∨
     ∃ sg, ir_at r = now ∧ evs = [EvReg (ir_circ r) (mkEstablish pk sg) now]) →
  (∀ c p, cookies s' !! c = Some p → cookies s !! c = Some p ∨
     pc_at p = now ∧ evs = [EvPark (pc_circ p) c now]) →
  remembers now (log ++ evs) s'.
Proof.
  intros R Ht Hq Hj Hi Hc.
  assert (∀ P, (∀ x, match x with EvJoin _ _ _ _ | EvForget _ => True | _ => P x = false end) →
    Forall (λ x, P x = false) evs) as HP.
  { intros P HP. eapply Forall_impl; [exact Hq|]. intros x Hx. specialize (HP x). by destruct x. }
  split.
  - intros pk r Hr. destruct (Hi pk r Hr) as [Ho|(sg & -> & ->)].
    + apply R in Ho as (Hl & sg & Ho). split; [lia|]. exists sg. apply last_is_app; [done|].
      apply HP. by intros [].
    + split; [lia|]. exists sg. apply last_is_snoc.
  - intros c p Hp. destruct (Hc c p Hp) as [Ho|(-> & ->)].
    + apply R in Ho as (Hl & Ho). split; [lia|]. apply last_is_app; [done|]. apply HP. by intros [].
    + split; [lia|]. apply last_is_snoc.
  - rewrite Hj. intros a b Hab. apply linked_app; [by apply R|].
    eapply Forall_impl; [exact Hq|]. by intros [].
Qed.

Lemma join_remembers t log s now circ b p : rdv_inv s → remembers t log s → t ≤ now →
  cookies s !! cookie b = Some p → roles s !! circ = None →
  remembers now (log ++ [EvJoin (pc_circ p) circ (cookie b) now])
    (mkRdv (intros s) (delete (cookie b) (cookies s))
       (<[circ := RJoined]> (<[pc_circ p := RJoined]> (roles s)))
       (<[circ := pc_circ p]> (<[pc_circ p := circ]> (joined s)))).
Proof.
  intros I R Ht Hp Hr. split; cbn.
  - intros pk r Hpk. apply R in Hpk as (Hl & sg & Hpk). split; [lia|]. exists sg.
    apply last_is_app; [done|by repeat constructor].
  - intros c q. rewrite lookup_delete_Some. intros [Hn Hq]. apply R in Hq as (Hl & Hq). split; [lia|].
    apply last_is_app; [done|]. repeat constructor. cbn. by rewrite bool_decide_false.
  - intros a d. rewrite !lookup_insert_Some.
    intros [[<- <-]|[Hn [[<- <-]|[Hn' H]]]].
    + exists (cookie b), now. right. apply last_is_snoc.
    + exists (cookie b), now. left. apply last_is_snoc.
    + apply linked_app; [by apply R|by repeat constructor].
Qed.

Lemma forget_remembers t log s circ now : rdv_inv s → remembers t log s → t ≤ now →
  remembers now (log ++ [EvForget circ]) (forget circ s).1.
Proof.
  intros I R Ht.
  assert (∀ x, x ≠ circ → drops x (EvForget circ) = false) as Hd.
  { intros x Hx. cbn. by rewrite bool_decide_false by congruence. }
  split.
  - intros pk r [H Hn]%forget_intros; [|done]. apply R in H as (Hl & sg & H). split; [lia|].
    exists sg. apply last_is_app; [done|]. repeat constructor. by apply Hd.
  - intros c p [H Hn]%forget_cookies; [|done]. apply R in H as (Hl & H). split; [lia|].
    apply last_is_app; [done|]. repeat constructor. rewrite Hd by done. done.
  - intros a b (H & Ha & Hb)%forget_joined; [|done]. apply linked_app; [by apply R|].
    repeat constructor; by apply Hd.
Qed.

Lemma exec_remembers t log s op now : rdv_inv s → remembers t log s → t ≤ now → op_ok op →
  remembers now (log ++ (rdv_exec op now s).2) (rdv_exec op now s).1.
Proof.
  intros I R Ht Hok. destruct op as [circ bd|circ c|pk bd|circ bd|ord|circ]; cbn [rdv_exec].
  - destruct (establish_intro_outcome circ bd now s) as [[e ->]|(b & -> & Hd & _)].
    { eapply remembers_quiet; [done|done|constructor|done|naive_solver..]. }
    apply decode_intro_ok in Hd as [-> _]. cbn [fst snd].
    eapply remembers_quiet; [done|done|by repeat constructor|done| |naive_solver].
    intros pk r. cbn. rewrite lookup_insert_Some. intros [[<- <-]|[_ H]]; [right|by left].
    by exists (drop 32 bd).
  - destruct (establish_rendezvous_outcome circ c now s) as [[e ->]|(-> & _)].
    { eapply remembers_quiet; [done|done|constructor|done|naive_solver..]. }
    cbn [fst snd]. eapply remembers_quiet; [done|done|by repeat constructor|done|naive_solver|].
    intros k p. cbn. rewrite lookup_insert_Some. intros [[<- <-]|[_ H]]; [by right|by left].
  - pose proof (introduce_state pk bd now s) as Hs.
    destruct (introduce pk bd now s) as [s' [[]|]]; cbn in *; subst;
      (eapply remembers_quiet; [done|done|by repeat constructor|done|naive_solver..]).
  - destruct (rendezvous_outcome circ bd now s) as [[e ->]|(b & p & -> & Hd & Hr & Hp & _)].
    { eapply remembers_quiet; [done|done|constructor|done|naive_solver..]. }
    unfold RendezvousBody_decode in Hd. case_bool_decide; simplify_eq.
    cbn [fst snd]. by apply (join_remembers t log s now circ (mkRendezvousBody (take 32 bd) (drop 32 bd))).
  - eapply remembers_quiet; [done|done|constructor|done| |].
    + intros pk r [H _]%tick_intros. by left.
    + intros c p [H _]%tick_cookies. by left.
  - by apply forget_remembers with t.
Qed.

Lemma run_remembers t log s : rdv_run t log s → remembers t log s.
Proof.
  induction 1 as [|t log s op now s' evs Hrun IH Ht Hok HE].
  { split; cbn; intros *; by rewrite lookup_empty. }
  pose proof (exec_remembers t log s op now (run_rdv_inv _ _ _ Hrun) IH Ht Hok) as H.
  by rewrite HE in H.
Qed.

(** An event of a longer log is one of the new ones or one of the old ones. *)
Lemma split_log {A} (log evs pre : list A) x post : log ++ evs = pre ++ x :: post →
  (∃ k, pre = log ++ k ∧ evs = k ++ x :: post) ∨ (∃ k, log = pre ++ x :: k ∧ post = k ++ evs).
Proof.
  intros H. apply app_eq_app in H as [l [[-> Hl]|[-> Hl]]]; [|left; by exists l].
  destruct l as [|y l]; cbn in Hl; [left; exists []; by rewrite !app_nil_r|].
  injection Hl as -> ->. right. by exists l.
Qed.

(** ** The tables *)

(** The tables of every reachable state: a circuit holds at most one role, an
    entry of either table is backed by its circuit's role, a joined circuit has
    exactly one partner, which is joined to it, and both tables are bounded. *)
Theorem rendezvous_tables t log s : rdv_run t log s → rdv_inv s.
Proof. apply run_rdv_inv. Qed.

(** ** Joins *)

Lemma exec_join t log s op now client service c u :
  rdv_run t log s → t ≤ now → EvJoin client service c u ∈ (rdv_exec op now s).2 →
  (rdv_exec op now s).2 = [EvJoin client service c u] ∧ u = now ∧ client ≠ service ∧
  ∃ p, cookies s !! c = Some p ∧ pc_circ p = client
    ∧ duration_since now (pc_at p) < RENDEZVOUS_COOKIE_TTL.
Proof.
  intros Hrun Ht Hin. pose proof (run_rdv_inv _ _ _ Hrun) as I.
  destruct op as [circ bd|circ k|pk bd|circ bd|ord|circ]; cbn [rdv_exec] in *.
  - destruct (establish_intro circ bd now s) as [? []]; set_solver.
  - destruct (establish_rendezvous circ k now s) as [? []]; set_solver.
  - destruct (introduce pk bd now s) as [? [[]|]]; set_solver.
  - destruct (rendezvous_outcome circ bd now s) as [[e HE]|(b & p & HE & Hd & Hr & Hp & Hl)];
      rewrite HE in *; [set_solver|]. cbn in *.
    unfold RendezvousBody_decode in Hd. case_bool_decide; simplify_eq. cbn in Hp.
    apply list_elem_of_singleton in Hin. simplify_eq. split; [done|]. split; [done|].
    split; [|by exists p]. intros <-. apply (ri_cookie s I) in Hp. congruence.
  - set_solver.
  - set_solver.
Qed.

(** C20: Two circuits meet only through a cookie. Whatever circuits do, in any
    order: when two circuits are joined, the client's circuit had parked the
    cookie that the service's circuit presented, at most two minutes before, had
    not been forgotten since, and the cookie had not joined anyone since it was
    parked: a parked cookie joins at most once. *)
Theorem rendezvous_join_sound t log s pre client service c now post :
  rdv_run t log s → log = pre ++ EvJoin client service c now :: post →
  client ≠ service ∧ ∃ a b u, pre = a ++ EvPark client c u :: b
    ∧ now - u < RENDEZVOUS_COOKIE_TTL
    ∧ Forall (λ x, joins_cookie c x = false ∧ drops client x = false) b.
Proof.
  intros Hrun. revert pre post. induction Hrun as [|t log s op u s' evs Hrun IH Ht Hok HE];
    intros pre post Hlog; [by destruct pre|].
  assert ((rdv_exec op u s).2 = evs) as Hev by (by rewrite HE).
  destruct (split_log _ _ _ _ _ Hlog) as [(k & -> & Hk)|(k & -> & _)]; [|by eapply IH].
  destruct (exec_join t log s op u client service c now Hrun Ht) as (Hone & -> & Hne & p & Hp & <- & Hl).
  { rewrite Hev, Hk. set_solver. }
  rewrite Hev, Hk in Hone. destruct k as [|? k]; [|by destruct k]. rewrite app_nil_r.
  split; [done|]. apply (rm_cookie _ _ _ (run_remembers _ _ _ Hrun)) in Hp as (Hle & a & b & Hab & Hb).
  exists a, b, (pc_at p). split; [done|]. split; [unfold duration_since in Hl; lia|].
  eapply Forall_impl; [exact Hb|]. intros x Hx. by apply orb_false_elim in Hx.
Qed.

(** ** Introductions *)

Lemma exec_reg circ b u op now s : EvReg circ b u ∈ (rdv_exec op now s).2 →
  (rdv_exec op now s).2 = [EvReg circ b u] ∧ u = now
  ∧ EstablishIntroBody_verify (circ_id circ) b = Ok tt
  ∧ intros (rdv_exec op now s).1 !! intro_auth_pk b = Some (mkReg circ now).
Proof.
  intros Hin. destruct op as [c bd|c k|pk bd|c bd|ord|c]; cbn [rdv_exec] in *.
  - destruct (establish_intro_outcome c bd now s) as [[e HE]|(b' & HE & Hd & Hv & _)];
      rewrite HE in *; [set_solver|].
    apply decode_intro_ok in Hd as [-> _]. cbn in *. apply list_elem_of_singleton in Hin. simplify_eq.
    cbn. by rewrite lookup_insert_eq.
  - destruct (establish_rendezvous c k now s) as [? []]; set_solver.
  - destruct (introduce pk bd now s) as [? [[]|]]; set_solver.
  - destruct (rendezvous c bd now s) as [? [[]|]]; set_solver.
  - set_solver.
  - set_solver.
Qed.

Lemma run_reg_verified t log s circ b u : rdv_run t log s → EvReg circ b u ∈ log →
  EstablishIntroBody_verify (circ_id circ) b = Ok tt.
Proof.
  induction 1 as [|t log s op now s' evs _ IH _ _ HE]; intros Hin; [set_solver|].
  apply elem_of_app in Hin as [Hin|Hin]; [by apply IH|].
  eapply (exec_reg circ b u op now s). by rewrite HE.
Qed.

(** A live registration stays until its circuit is forgotten. *)
Lemma exec_keeps_intro op now s pk r : rdv_inv s → op_ok op →
  intros s !! pk = Some r → now - ir_at r < INTRO_REGISTRATION_TTL →
  Forall (λ x, drops (ir_circ r) x = false) (rdv_exec op now s).2 →
  intros (rdv_exec op now s).1 !! pk = Some r.
Proof.
  intros I Hok Hr Ht Hd.
  assert (duration_since now (ir_at r) < INTRO_REGISTRATION_TTL) as Hl.
  { unfold duration_since, INTRO_REGISTRATION_TTL, secs in *. lia. }
  destruct op as [c bd|c k|pk' bd|c bd|ord|c]; cbn [rdv_exec] in *.
  - destruct (establish_intro_outcome c bd now s) as [[e ->]|(b' & -> & _ & _ & Hrole & Hk & _)]; [done|].
    cbn. rewrite lookup_insert_ne; [done|]. intros <-. unfold key_taken in Hk. rewrite Hr in Hk.
    apply andb_false_iff in Hk as [Hk|Hk]; apply bool_decide_eq_false in Hk; [|done].
    apply dec_stable in Hk as <-. apply (ri_intro s I) in Hr. congruence.
  - by destruct (establish_rendezvous_outcome c k now s) as [[e ->]|(-> & _)].
  - pose proof (introduce_state pk' bd now s) as Hs.
    destruct (introduce pk' bd now s) as [? [[]|]]; cbn in *; by subst.
  - by destruct (rendezvous_outcome c bd now s) as [[e ->]|(b & p & -> & _)].
  - apply tick_intros. split; [done|]. unfold intro_live. by rewrite bool_decide_true.
  - apply forget_intros; [done|]. split; [done|]. apply Forall_cons_1 in Hd as [Hd _]. cbn in Hd.
    apply bool_decide_eq_false in Hd. congruence.
Qed.

Lemma run_registered t log s a circ b u rest :
  rdv_run t log s → log = a ++ EvReg circ b u :: rest →
  Forall (λ x, drops circ x = false) rest → t - u < INTRO_REGISTRATION_TTL →
  intros s !! intro_auth_pk b = Some (mkReg circ u).
Proof.
  intros Hrun. revert rest. induction Hrun as [|t log s op now s' evs Hrun IH Ht Hok HE];
    intros rest Hlog Hd Hl; [by destruct a|].
  assert (s' = (rdv_exec op now s).1) as -> by (by rewrite HE).
  assert ((rdv_exec op now s).2 = evs) as Hev by (by rewrite HE).
  destruct (split_log _ _ _ _ _ Hlog) as [(k & _ & Hk)|(k & -> & ->)].
  - edestruct (exec_reg circ b u op now s) as (_ & -> & _ & H); [rewrite Hev, Hk; set_solver|done].
  - apply Forall_app in Hd as [Hd1 Hd2].
    apply exec_keeps_intro; [by eapply run_rdv_inv|done| |done|by rewrite Hev].
    eapply IH; [done|done|]. lia.
Qed.

(** C21: An introduction point cannot be hijacked. While a registration lives
    (thirty minutes, unless its circuit is forgotten), an INTRODUCE for its key
    goes to the circuit that registered it, whatever other circuits try; and
    an INTRODUCE never goes to a circuit that did not register the key itself
    with a signature over its own circuit identifier. *)
Theorem introduction_not_hijacked t log s pk bd now :
  rdv_run t log s → t ≤ now →
  (∀ a circ b u rest, log = a ++ EvReg circ b u :: rest → intro_auth_pk b = pk →
     Forall (λ x, drops circ x = false) rest → now - u < INTRO_REGISTRATION_TTL →
     introduce pk bd now s = (s, Ok (ForwardIntroduce circ bd)))
  ∧ (∀ s' act, introduce pk bd now s = (s', Ok act) →
     ∃ circ b u, act = ForwardIntroduce circ bd ∧ intro_auth_pk b = pk
       ∧ last_is (EvReg circ b u) (drops circ) log ∧ now - u < INTRO_REGISTRATION_TTL
       ∧ EstablishIntroBody_verify (circ_id circ) b = Ok tt).
Proof.
  intros Hrun Ht. split.
  - intros a circ b u rest Hlog <- Hd Hl. unfold introduce, st_bind, st_get.
    rewrite (run_registered t log s a circ b u rest Hrun Hlog Hd) by lia. cbn [ir_at ir_circ].
    rewrite bool_decide_true; [done|]. unfold duration_since, INTRO_REGISTRATION_TTL, secs in *. lia.
  - intros s' act. unfold introduce, st_bind, st_get. destruct (intros s !! pk) as [r|] eqn:Er; [|done].
    case_bool_decide as Hl; [|done]. intros [= _ <-].
    apply (rm_intro _ _ _ (run_remembers _ _ _ Hrun)) in Er as (Hle & sg & Hlast).
    exists (ir_circ r), (mkEstablish pk sg), (ir_at r). split; [done|]. split; [done|]. split; [done|].
    split; [unfold duration_since in Hl; lia|]. destruct Hlast as (a & b & -> & _).
    apply (run_reg_verified t _ s _ _ (ir_at r) Hrun). set_solver.
Qed.

(** A registration cannot be renewed: as long as it is in the table, whatever
    its own circuit sends is refused, so it ends when its time is over. *)
Theorem registration_not_renewable t log s pk r bd now :
  rdv_run t log s → intros s !! pk = Some r →
  ∃ e, establish_intro (ir_circ r) bd now s = (s, Err e).
Proof.
  intros Hrun Hr. pose proof (ri_intro s (run_rdv_inv _ _ _ Hrun) _ _ Hr) as Hrole.
  destruct (establish_intro_outcome (ir_circ r) bd now s) as [H|(b & _ & _ & _ & Hn & _)]; [done|congruence].
Qed.

End runs.

(** ** Concrete runs *)
Module SignDemo.
Export EdDemo.

Definition service : CircuitRef := mkRef 0 1.
Definition meeting : CircuitRef := mkRef 0 2.
Definition client : CircuitRef := mkRef 1 1.
Definition thief : CircuitRef := mkRef 2 1.
Definition registration (c : CircuitRef) : list byte :=
  EstablishIntroBody_encode (EstablishIntroBody_new (x07 : SigningKey) (circ_id c)).
Definition cookie1 : list byte := replicate 32 xcc.
Definition meet_body : list byte := RendezvousBody_encode (mkRendezvousBody cookie1 (replicate 32 xee)).

(** Run operations one second apart. *)
Fixpoint steps (ops : list RdvOp) (now : Z) (x : RendezvousState * list RdvEv)
  : RendezvousState * list RdvEv :=
  match ops with
  | [] => x
  | op :: ops =>
    let y := rdv_exec op now x.1 in
    steps ops (now + secs 1) (y.1, x.2 ++ y.2)
  end.

Lemma steps_run ops t now x : rdv_run t x.2 x.1 → t ≤ now → Forall op_ok ops →
  ∃ t', rdv_run t' (steps ops now x).2 (steps ops now x).1 ∧ t' ≤ now + secs (zlen ops).
Proof.
  revert t now x. induction ops as [|op ops IH]; intros t now x Hr Ht Hok; cbn [steps].
  { exists t. split; [done|]. change (zlen (@nil RdvOp)) with 0. unfold secs. lia. }
  apply Forall_cons_1 in Hok as [Hop Hok].
  destruct (IH now (now + secs 1) ((rdv_exec op now x.1).1, x.2 ++ (rdv_exec op now x.1).2))
    as (t' & H & Ht'); [|unfold secs; lia|done|].
  { cbn [fst snd]. eapply run_op; [exact Hr|done|done|apply surjective_pairing]. }
  exists t'. split; [done|]. rewrite zlen_cons. unfold secs in *. lia.
Qed.

Definition meet_ops : list RdvOp :=
  [OpIntro service (registration service); OpIntro thief (registration thief); OpPark client cookie1;
   OpMeet meeting meet_body].
Definition met : RendezvousState * list RdvEv := steps meet_ops 0 (RendezvousState_new, []).

Lemma met_run : ∃ t, rdv_run t met.2 met.1 ∧ t ≤ secs 4.
Proof. apply (steps_run meet_ops 0 0 (RendezvousState_new, [])); [constructor|done|by repeat constructor]. Qed.

End SignDemo.

Lemma rendezvous_tables_witness : rdv_inv SignDemo.met.1.
Proof.
  destruct SignDemo.met_run as (t & H & _).
  exact (rendezvous_tables (E := EdDemo.scheme) t _ _ H).
Defined.

Lemma rendezvous_join_sound_witness :
  SignDemo.client ≠ SignDemo.meeting ∧ ∃ a b u,
    take 2 SignDemo.met.2 = a ++ EvPark SignDemo.client SignDemo.cookie1 u :: b
    ∧ secs 3 - u < RENDEZVOUS_COOKIE_TTL
    ∧ Forall (λ x, joins_cookie SignDemo.cookie1 x = false ∧ drops SignDemo.client x = false) b.
Proof.
  destruct SignDemo.met_run as (t & H & _).
  apply (rendezvous_join_sound (E := EdDemo.scheme) t _ _ _ _ SignDemo.meeting
    SignDemo.cookie1 (secs 3) [] H). vm_compute. reflexivity.
Defined.

Lemma introduction_not_hijacked_witness :
  introduce (replicate 32 x07) [xaa] (secs 60) SignDemo.met.1
  = (SignDemo.met.1, Ok (ForwardIntroduce SignDemo.service [xaa])).
Proof.
  destruct SignDemo.met_run as (t & H & Ht).
  destruct (introduction_not_hijacked (E := EdDemo.scheme) t _ _ (replicate 32 x07) [xaa] (secs 60) H)
    as [Hfirst _]; [unfold secs in *; lia|].
  apply (Hfirst [] SignDemo.service (EstablishIntroBody_new (E := EdDemo.scheme) x07 1) 0 (drop 1 SignDemo.met.2)).
  - vm_compute. reflexivity.
  - reflexivity.
  - vm_compute. repeat constructor.
  - vm_compute. reflexivity.
Defined.
