(* ===== verification/RendezvousRouter.v ===== *)
(** * Routing between sessions (crates/bridge/src/rendezvous_router.rs)

    [RendezvousRouter]: the one place of a bridge that spans its sessions. It
    runs the tables of [RendezvousState] and hands cells from one session to
    another through bounded channels. A session's [Sender] is an index into an
    arena of channels, shared with the session task that receives from it. Every
    method runs under the router's lock, which nothing can poison here, so a
    method is one atomic step. *)

From stdpp Require Import base numbers list gmap strings.
From Stdlib Require Import ZArith Lia Strings.Byte.
From S2P Require Import Prelude Bytes Signature Rendezvous RendezvousInv RendezvousLog.

(** ** Data *)
Abbreviation DELIVERY_QUEUE := 64%Z (only parsing).
Abbreviation CMD_INTRODUCE := x17 (only parsing).
Abbreviation CMD_RENDEZVOUS := x18 (only parsing).

Record Delivery : Set := mkDelivery { dl_circ_id : Z; dl_cmd : byte; dl_body : list byte }.

Inductive RouteError : Set :=
| NoSuchSession
| Backlogged
| RendezvousErr (e : RendezvousError).

(** A bounded channel: its capacity, the cells not yet received, and whether
    the receiving task is gone. *)
Record Chan : Set := mkChan { capacity : Z; queue : list Delivery; closed : bool }.

Record Router : Type := mkRouter {
  rstate : RendezvousState;
  sessions : gmap Z nat;
  chans : list Chan;
  next_session : Z;
}.

Definition set_rstate (s : RendezvousState) (r : Router) : Router :=
  mkRouter s (sessions r) (chans r) (next_session r).
Definition set_sessions (m : gmap Z nat) (r : Router) : Router :=
  mkRouter (rstate r) m (chans r) (next_session r).
Definition set_chans (l : list Chan) (r : Router) : Router :=
  mkRouter (rstate r) (sessions r) l (next_session r).
Definition set_next (n : Z) (r : Router) : Router :=
  mkRouter (rstate r) (sessions r) (chans r) n.

Abbreviation router := (stm Router RouteError).

(** [tx.try_send(d)], with its error turned into a [RouteError]. *)
Definition try_send (d : Delivery) (ch : Chan) : result RouteError Chan :=
  if closed ch then Err NoSuchSession
  else if bool_decide (zlen (queue ch) >= capacity ch) then Err Backlogged
  else Ok (mkChan (capacity ch) (queue ch ++ [d]) false).

(** ** Operations *)
Abbreviation RendezvousRouter_new := (mkRouter RendezvousState_new ∅ [] 0) (only parsing).

Definition register_session (tx : nat) (r : Router) : Router * Z :=
  let h := next_session r in
  (set_sessions (<[h := tx]> (sessions r)) (set_next ((h + 1) `mod` (u64_max + 1)) r), h).

(** The loop of [forget_session] over the session's circuits. *)
Fixpoint forget_all (handle : Z) (circ_ids : list Z) (s : RendezvousState)
  : RendezvousState * list CircuitRef :=
  match circ_ids with
  | [] => (s, [])
  | c :: cs =>
    let '(s, p) := forget (mkRef handle c) s in
    let '(s, orphans) := forget_all handle cs s in
    (s, match p with Some p => p :: orphans | None => orphans end)
  end.

Definition forget_session (handle : Z) (circ_ids : list Z) (r : Router) : Router * list CircuitRef :=
  let '(s, orphans) := forget_all handle circ_ids (rstate r) in
  (set_rstate s (set_sessions (delete handle (sessions r)) r), orphans).

Definition router_partner (r : Router) (circ : CircuitRef) : option CircuitRef := partner (rstate r) circ.

(** Run an operation of the tables; its refusal becomes a [RouteError]. *)
Definition on_state {A} (m : rdv A) : router A :=
  λ r, let '(s, res) := m (rstate r) in (set_rstate s r, map_err RendezvousErr res).

(** Look up the session of a circuit and send a cell to it. *)
Definition deliver (to_circ : CircuitRef) (cmd : byte) (bd : list byte) : router unit :=
  r <- st_get ;;
  tx <- st_lift (ok_or (sessions r !! session to_circ) NoSuchSession) ;;
  match chans r !! tx with
  | Some ch =>
    ch' <- st_lift (try_send (mkDelivery (circ_id to_circ) cmd bd) ch) ;;
    st_mod (λ r, set_chans (<[tx := ch']> (chans r)) r)
  | None => st_err NoSuchSession
  end.

Section router.
Context {E : Ed25519}.

Definition router_establish_intro (circ : CircuitRef) (bd : list byte) (now : Z) : router RendezvousAction :=
  on_state (establish_intro circ bd now).

Definition router_establish_rendezvous (circ : CircuitRef) (c : list byte) (now : Z) : router RendezvousAction :=
  on_state (establish_rendezvous circ c now).

Definition router_introduce (pk bd : list byte) (now : Z) : router CircuitRef :=
  action <- on_state (introduce pk bd now) ;;
  match action with
  | ForwardIntroduce to_circ bd => deliver to_circ CMD_INTRODUCE bd ;;; st_ret to_circ
  | _ => st_err NoSuchSession
  end.

Definition router_rendezvous (service_circ : CircuitRef) (bd : list byte) (now : Z) : router CircuitRef :=
  action <- on_state (rendezvous service_circ bd now) ;;
  match action with
  | Join client_circ _ eph => deliver client_circ CMD_RENDEZVOUS eph ;;; st_ret client_circ
  | _ => st_err NoSuchSession
  end.

Definition relay_to_partner (from : CircuitRef) (cmd : byte) (bd : list byte) : router CircuitRef :=
  r <- st_get ;;
  p <- st_lift (ok_or (partner (rstate r) from) NoSuchSession) ;;
  deliver p cmd bd ;;;
  st_ret p.

Definition router_tick (ord : Orders) (now : Z) (r : Router) : Router * list RendezvousAction :=
  let '(s, acts) := tick ord now (rstate r) in (set_rstate s r, acts).

End router.

(** ** Runs *)
Inductive RouterOp : Type :=
| RSession (cap : Z)
| RReceive (tx n : nat)
| RGone (tx : nat)
| RForgetSession (handle : Z) (circ_ids : list Z)
| REstablishIntro (circ : CircuitRef) (bd : list byte)
| REstablishRendezvous (circ : CircuitRef) (c : list byte)
| RIntroduce (pk bd : list byte)
| RRendezvous (circ : CircuitRef) (bd : list byte)
| RRelay (from : CircuitRef) (cmd : byte) (bd : list byte)
| RTick (ord : Orders).

(** The operations of the tables that an operation of the router runs. *)
Definition table_ops (op : RouterOp) : list RdvOp :=
  match op with
  | RSession _ | RReceive _ _ | RGone _ | RRelay _ _ _ => []
  | RForgetSession handle ids => map (λ c, OpForget (mkRef handle c)) ids
  | REstablishIntro circ bd => [OpIntro circ bd]
  | REstablishRendezvous circ c => [OpPark circ c]
  | RIntroduce pk bd => [OpIntroduce pk bd]
  | RRendezvous circ bd => [OpMeet circ bd]
  | RTick ord => [OpTick ord]
  end.

Section runs.
Context {E : Ed25519}.

Fixpoint rdv_execs (ops : list RdvOp) (now : Z) (s : RendezvousState) : RendezvousState * list RdvEv :=
  match ops with
  | [] => (s, [])
  | op :: ops =>
    let '(s, e1) := rdv_exec op now s in
    let '(s, e2) := rdv_execs ops now s in
    (s, e1 ++ e2)
  end.

(** A session task starts with a channel of its own, receives from it, ends. *)
Definition router_exec (op : RouterOp) (now : Z) (r : Router) : Router :=
  match op with
  | RSession cap =>
    (register_session (length (chans r)) (set_chans (chans r ++ [mkChan cap [] false]) r)).1
  | RReceive tx n =>
    set_chans (alter (λ ch, mkChan (capacity ch) (drop n (queue ch)) (closed ch)) tx (chans r)) r
  | RGone tx => set_chans (alter (λ ch, mkChan (capacity ch) [] true) tx (chans r)) r
  | RForgetSession handle ids => (forget_session handle ids r).1
  | REstablishIntro circ bd => (router_establish_intro circ bd now r).1
  | REstablishRendezvous circ c => (router_establish_rendezvous circ c now r).1
  | RIntroduce pk bd => (router_introduce pk bd now r).1
  | RRendezvous circ bd => (router_rendezvous circ bd now r).1
  | RRelay from cmd bd => (relay_to_partner from cmd bd r).1
  | RTick ord => (router_tick ord now r).1
  end.

Definition router_ok (op : RouterOp) : Prop := Forall op_ok (table_ops op).

(** The log is that of the tables. *)
Inductive router_run : Z → list RdvEv → Router → Prop :=
| rr_new t : router_run t [] RendezvousRouter_new
| rr_op t log r op now :
    router_run t log r → t ≤ now → router_ok op →
    router_run now (log ++ (rdv_execs (table_ops op) now (rstate r)).2) (router_exec op now r).

(** ** Lemmas *)
Lemma deliver_outcome c cmd bd r :
  (∃ e, deliver c cmd bd r = (r, Err e)) ∨
  (∃ tx ch, deliver c cmd bd r = (set_chans (<[tx := mkChan (capacity ch)
       (queue ch ++ [mkDelivery (circ_id c) cmd bd]) false]> (chans r)) r, Ok tt)
     ∧ sessions r !! session c = Some tx ∧ chans r !! tx = Some ch ∧ closed ch = false
     ∧ zlen (queue ch) < capacity ch).
Proof.
  unfold deliver, st_bind, st_get, st_lift, st_mod, st_err, try_send.
  destruct (sessions r !! session c) as [tx|] eqn:Es; cbn; [|left; by eexists].
  destruct (chans r !! tx) as [ch|] eqn:Ec; cbn; [|left; by eexists].
  destruct (closed ch) eqn:Ecl; [left; by eexists|].
  case_bool_decide; [left; by eexists|]. right. exists tx, ch. split_and!; try done. lia.
Qed.

Lemma deliver_state c cmd bd r : rstate (deliver c cmd bd r).1 = rstate r.
Proof. destruct (deliver_outcome c cmd bd r) as [[e ->]|(tx & ch & -> & _)]; done. Qed.

Lemma forget_all_execs handle ids now s :
  (forget_all handle ids s).1 = (rdv_execs (map (λ c, OpForget (mkRef handle c)) ids) now s).1.
Proof.
  revert s. induction ids as [|c ids IH]; intros s; cbn; [done|]. specialize (IH (forget (mkRef handle c) s).1).
  destruct (forget (mkRef handle c) s) as [s1 p]. cbn in *.
  destruct (forget_all handle ids s1) as [s2 o], (rdv_execs _ now s1) as [s3 e]. exact IH.
Qed.

Lemma router_exec_tables op now r :
  rstate (router_exec op now r) = (rdv_execs (table_ops op) now (rstate r)).1.
Proof.
  destruct op as [cap|tx n|tx|h ids|circ bd|circ c|pk bd|circ bd|from cmd bd|ord];
    cbn [router_exec table_ops rdv_execs rdv_exec]; try done.
  - unfold forget_session. rewrite <- (forget_all_execs h ids now). by destruct (forget_all _ _ _).
  - unfold router_establish_intro, on_state. destruct (establish_intro circ bd now (rstate r)) as [? []]; done.
  - unfold router_establish_rendezvous, on_state. destruct (establish_rendezvous circ c now (rstate r)) as [? []]; done.
  - unfold router_introduce, st_bind, on_state.
    destruct (introduce pk bd now (rstate r)) as [s [[]|]]; try done. cbn [map_err].
    pose proof (deliver_state to_circ CMD_INTRODUCE bd0 (set_rstate s r)) as Hd.
    by destruct (deliver _ _ _ _) as [? []].
  - unfold router_rendezvous, st_bind, on_state.
    destruct (rendezvous circ bd now (rstate r)) as [s [[]|]]; try done. cbn [map_err].
    pose proof (deliver_state client_circ CMD_RENDEZVOUS eph (set_rstate s r)) as Hd.
    by destruct (deliver _ _ _ _) as [? []].
  - unfold relay_to_partner, st_bind, st_get, st_lift. destruct (partner (rstate r) from) as [p|]; [|done]. cbn [ok_or].
    pose proof (deliver_state p cmd bd r) as Hd. by destruct (deliver _ _ _ _) as [? []].
Qed.

Lemma execs_run t log s ops now : rdv_run t log s → t ≤ now → Forall op_ok ops →
  ∃ t', t' ≤ now ∧ rdv_run t' (log ++ (rdv_execs ops now s).2) (rdv_execs ops now s).1.
Proof.
  revert t log s. induction ops as [|op ops IH]; intros t log s Hr Ht Hok; cbn.
  { exists t. rewrite app_nil_r. done. }
  apply Forall_cons_1 in Hok as [Hop Hok]. destruct (rdv_exec op now s) as [s1 e1] eqn:E1.
  pose proof (run_op _ _ _ _ _ _ _ Hr Ht Hop E1) as Hr1.
  destruct (IH now (log ++ e1) s1 Hr1 ltac:(lia) Hok) as (t' & Ht' & H).
  destruct (rdv_execs ops now s1) as [s2 e2]. exists t'. cbn [fst snd] in *. by rewrite app_assoc.
Qed.

(** The router's tables are reached by a run of the tables alone. *)
Lemma router_tables t log r : router_run t log r → ∃ t', t' ≤ t ∧ rdv_run t' log (rstate r).
Proof.
  induction 1 as [t|t log r op now _ (t' & Ht' & IH) Ht Hok]; [exists t; split; [done|constructor]|].
  rewrite router_exec_tables. by apply (execs_run t' log (rstate r)); [|lia|].
Qed.

Lemma relay_unfold from cmd bd r : relay_to_partner from cmd bd r =
  match joined (rstate r) !! from with
  | Some p => match deliver p cmd bd r with (r', Ok _) => (r', Ok p) | (r', Err e) => (r', Err e) end
  | None => (r, Err NoSuchSession)
  end.
Proof.
  unfold relay_to_partner, st_bind at 1, st_get, st_bind at 1, st_lift, partner.
  by destruct (joined (rstate r) !! from).
Qed.

(** C19: Sessions are connected only where a meeting joined them. After any run
    of the router, a cell relayed from a circuit is either refused, with nothing
    changed, or it is appended, command and body as given, to the queue of the
    session of exactly one other circuit: the one that met it through a cookie
    and was not forgotten since, and whose own cells come back to the sender.
    No other queue and no table changes. *)
Theorem router_relay_isolated t log r from cmd bd :
  router_run t log r →
  (∃ e, relay_to_partner from cmd bd r = (r, Err e)) ∨
  (∃ p tx ch, relay_to_partner from cmd bd r
      = (set_chans (<[tx := mkChan (capacity ch) (queue ch ++ [mkDelivery (circ_id p) cmd bd]) false]>
           (chans r)) r, Ok p)
    ∧ sessions r !! session p = Some tx ∧ chans r !! tx = Some ch ∧ zlen (queue ch) < capacity ch
    ∧ p ≠ from ∧ linked from p log ∧ router_partner r p = Some from).
Proof.
  intros Hrun. destruct (router_tables _ _ _ Hrun) as (t' & _ & Ht).
  rewrite relay_unfold. destruct (joined (rstate r) !! from) as [p|] eqn:Ep; [|left; by eexists].
  destruct (deliver_outcome p cmd bd r) as [[e ->]|(tx & ch & -> & Hs & Hc & _ & Hq)];
    [left; by exists e|right].
  destruct (ri_pair _ (run_rdv_inv _ _ _ Ht) _ _ Ep) as [Hback Hne].
  exists p, tx, ch. split; [done|]. split_and!; try done. by apply (rm_joined _ _ _ (run_remembers _ _ _ Ht)).
Qed.

(** ** An honest meeting *)

(** A circuit whose session is registered and can take [n] more cells. *)
Definition reachable_for (c : CircuitRef) (n : Z) (r : Router) : Prop :=
  ∃ tx ch, sessions r !! session c = Some tx ∧ chans r !! tx = Some ch ∧ closed ch = false
    ∧ zlen (queue ch) + n ≤ capacity ch.

(** The cells waiting for a circuit's session. *)
Definition inbox (c : CircuitRef) (r : Router) : list Delivery :=
  match sessions r !! session c with
  | Some tx => match chans r !! tx with Some ch => queue ch | None => [] end
  | None => []
  end.

Lemma deliver_ok c cmd bd r : reachable_for c 1 r →
  ∃ r', deliver c cmd bd r = (r', Ok tt) ∧ rstate r' = rstate r ∧ sessions r' = sessions r
    ∧ inbox c r' = inbox c r ++ [mkDelivery (circ_id c) cmd bd].
Proof.
  intros (tx & ch & Hs & Hc & Hcl & Hq). unfold deliver, st_bind, st_get, st_lift, st_mod, try_send.
  rewrite Hs. cbn [ok_or]. rewrite Hc, Hcl, bool_decide_false by lia. eexists. split; [done|].
  split; [done|]. split; [done|]. unfold inbox. cbn. rewrite Hs, Hc.
  rewrite list_lookup_insert_eq; [done|]. by eapply lookup_lt_Some.
Qed.

Lemma reachable_after c cmd bd r d n r' :
  deliver c cmd bd r = (r', Ok tt) → reachable_for d (n + 1) r → reachable_for d n r'.
Proof.
  intros HE (tx & ch & Hs & Hc & Hcl & Hq).
  destruct (deliver_outcome c cmd bd r) as [[e He]|(tx' & ch' & He & Hs' & Hc' & Hcl' & Hq')];
    rewrite He in HE; simplify_eq. destruct (decide (tx = tx')) as [->|Hn].
  - simplify_eq. eexists tx', _. cbn. split; [done|]. split.
    { rewrite list_lookup_insert_eq; [done|]. by eapply lookup_lt_Some. }
    split; [done|]. cbn. rewrite zlen_app, zlen_cons, zlen_nil. lia.
  - exists tx, ch. cbn. rewrite list_lookup_insert_ne by done. split_and!; try done. lia.
Qed.

Context {L : Ed25519Laws E}.

Lemma own_registration k circ now s :
  roles s !! circ = None → intros s !! verifying_key k = None → intro_count s < MAX_INTRO_REGISTRATIONS →
  establish_intro circ (EstablishIntroBody_encode (EstablishIntroBody_new k (circ_id circ))) now s
  = (set_roles (<[circ := RIntro (verifying_key k)]> (roles s))
       (set_intros (<[verifying_key k := mkReg circ now]> (intros s)) s),
     Ok (Ack circ CMD_ESTABLISH_INTRO_OK)).
Proof.
  intros Hr Hi Hc. set (sg := sign k (signing_input (circ_id circ) (verifying_key k))).
  assert (EstablishIntroBody_decode (EstablishIntroBody_encode (EstablishIntroBody_new k (circ_id circ)))
    = Ok (mkEstablish (verifying_key k) sg)) as Hd.
  { unfold EstablishIntroBody_decode, EstablishIntroBody_encode, EstablishIntroBody_new. cbn [intro_auth_pk signature].
    fold sg. pose proof (vk_len k) as Hv. pose proof (sig_len k (signing_input (circ_id circ) (verifying_key k))) as Hs.
    fold sg in Hs. rewrite bool_decide_false.
    - by rewrite take_app_length', drop_app_length' by done.
    - intros HH. apply HH. unfold zlen. rewrite length_app, Hv, Hs. done. }
  assert (EstablishIntroBody_verify (circ_id circ) (mkEstablish (verifying_key k) sg) = Ok tt) as Hv.
  { unfold EstablishIntroBody_verify. cbn. unfold sg. by rewrite vk_valid, sig_verifies. }
  unfold establish_intro, st_bind, st_lift, st_get, st_mod, st_ret. rewrite Hd, Hv, Hr.
  unfold key_taken. cbn [intro_auth_pk]. rewrite Hi, bool_decide_false by lia. done.
Qed.

Lemma rendezvous_decode_encode c eph : length c = 32%nat → length eph = 32%nat →
  RendezvousBody_decode (RendezvousBody_encode (mkRendezvousBody c eph)) = Ok (mkRendezvousBody c eph).
Proof.
  intros Hc He. unfold RendezvousBody_decode, RendezvousBody_encode. cbn [cookie service_eph_x25519_pk].
  rewrite bool_decide_false.
  - by rewrite take_app_length', drop_app_length' by done.
  - intros HH. apply HH. unfold zlen. rewrite length_app, Hc, He. done.
Qed.

Lemma on_state_ok {A} (m : rdv A) r s a : m (rstate r) = (s, Ok a) → on_state m r = (set_rstate s r, Ok a).
Proof. intros H. unfold on_state. by rewrite H. Qed.

Lemma reachable_state c n r s : reachable_for c n r → reachable_for c n (set_rstate s r).
Proof. done. Qed.

Lemma park_ok circ c now s :
  roles s !! circ = None → cookies s !! c = None → parked_count s < MAX_PARKED_COOKIES → length c = 32%nat →
  establish_rendezvous circ c now s
  = (set_roles (<[circ := RCookie c]> (roles s)) (set_cookies (<[c := mkParked circ now]> (cookies s)) s),
     Ok (Ack circ CMD_RENDEZVOUS_OK)).
Proof.
  intros Hr Hc Hp Hl. unfold establish_rendezvous.
  rewrite bool_decide_false by (unfold zlen; rewrite Hl; intros HH; by apply HH).
  unfold st_bind, st_get, st_mod, st_ret. rewrite Hr, Hc, bool_decide_false by lia. done.
Qed.

Lemma introduce_ok pk bd now s reg :
  intros s !! pk = Some reg → now - ir_at reg < INTRO_REGISTRATION_TTL →
  introduce pk bd now s = (s, Ok (ForwardIntroduce (ir_circ reg) bd)).
Proof.
  intros Hi Ht. unfold introduce, st_bind, st_get. rewrite Hi, bool_decide_true; [done|].
  unfold duration_since, INTRO_REGISTRATION_TTL, secs in *. lia.
Qed.

Lemma meet_ok circ c eph now s p :
  roles s !! circ = None → cookies s !! c = Some p → now - pc_at p < RENDEZVOUS_COOKIE_TTL →
  length c = 32%nat → length eph = 32%nat →
  rendezvous circ (RendezvousBody_encode (mkRendezvousBody c eph)) now s
  = (mkRdv (intros s) (delete c (cookies s)) (<[circ := RJoined]> (<[pc_circ p := RJoined]> (roles s)))
       (<[circ := pc_circ p]> (<[pc_circ p := circ]> (joined s))),
     Ok (Join (pc_circ p) circ eph)).
Proof.
  intros Hr Hc Ht Hl He. unfold rendezvous, st_bind, st_lift, st_get, st_mod, st_ret.
  rewrite rendezvous_decode_encode, Hr by done. cbn [cookie]. rewrite Hc, bool_decide_true; [done|].
  unfold duration_since, RENDEZVOUS_COOKIE_TTL, secs in *. lia.
Qed.

(** C22: A service and a client that follow the protocol meet. With circuits that
    hold no role yet, room in the tables and in the two sessions' queues, and
    answers within two minutes: the registration, the parked cookie and the
    meeting are accepted, the introduction reaches the service and the service's
    key the client, and afterwards each circuit is the other's partner. *)
Theorem honest_meeting k svc meet cli c eph bd t0 t1 t2 t3 r :
  svc ≠ cli → svc ≠ meet → cli ≠ meet →
  Forall (λ x, roles (rstate r) !! x = None) [svc; meet; cli] →
  intros (rstate r) !! verifying_key k = None → cookies (rstate r) !! c = None →
  intro_count (rstate r) < MAX_INTRO_REGISTRATIONS → parked_count (rstate r) < MAX_PARKED_COOKIES →
  length c = 32%nat → length eph = 32%nat → reachable_for svc 1 r → reachable_for cli 2 r →
  t0 ≤ t1 ≤ t2 → t2 ≤ t3 → t3 - t0 < RENDEZVOUS_COOKIE_TTL →
  ∃ r1 r2 r3 r4,
    router_establish_intro svc (EstablishIntroBody_encode (EstablishIntroBody_new k (circ_id svc))) t0 r
      = (r1, Ok (Ack svc CMD_ESTABLISH_INTRO_OK))
    ∧ router_establish_rendezvous cli c t1 r1 = (r2, Ok (Ack cli CMD_RENDEZVOUS_OK))
    ∧ router_introduce (verifying_key k) bd t2 r2 = (r3, Ok svc)
    ∧ router_rendezvous meet (RendezvousBody_encode (mkRendezvousBody c eph)) t3 r3 = (r4, Ok cli)
    ∧ inbox svc r3 = inbox svc r ++ [mkDelivery (circ_id svc) CMD_INTRODUCE bd]
    ∧ inbox cli r4 = inbox cli r3 ++ [mkDelivery (circ_id cli) CMD_RENDEZVOUS eph]
    ∧ router_partner r4 cli = Some meet ∧ router_partner r4 meet = Some cli.
Proof.
  intros Hsc Hsm Hcm Hroles Hi Hck Hic Hpc Hlc Hle Hs Hcl Ht1 Ht2 Ht3.
  apply Forall_cons_1 in Hroles as [Rs Hroles]. apply Forall_cons_1 in Hroles as [Rm Hroles].
  apply Forall_cons_1 in Hroles as [Rc _].
  assert (RENDEZVOUS_COOKIE_TTL < INTRO_REGISTRATION_TTL) as Httl by (vm_compute; done).
  pose proof (own_registration k svc t0 (rstate r) Rs Hi Hic) as E1. apply on_state_ok in E1.
  set (r1 := set_rstate _ r) in E1. exists r1.
  assert (roles (rstate r1) !! cli = None) as Rc1 by (cbn; by rewrite lookup_insert_ne).
  pose proof (park_ok cli c t1 (rstate r1) Rc1 Hck Hpc Hlc) as E2. apply on_state_ok in E2.
  set (r2 := set_rstate _ r1) in E2. exists r2.
  assert (intros (rstate r2) !! verifying_key k = Some (mkReg svc t0)) as Hi2 by apply lookup_insert_eq.
  pose proof (introduce_ok _ bd t2 (rstate r2) _ Hi2 ltac:(cbn; lia)) as E3. apply on_state_ok in E3. cbn [ir_circ] in E3.
  destruct (deliver_ok svc CMD_INTRODUCE bd (set_rstate (rstate r2) r2)) as (r3 & E3' & S3 & _ & I3).
  { by repeat apply reachable_state. }
  assert (reachable_for cli 1 r3) as Hcl3 by (by eapply reachable_after; [exact E3'|repeat apply reachable_state]).
  assert (roles (rstate r3) !! meet = None) as Rm3 by (rewrite S3; cbn; by rewrite !lookup_insert_ne).
  assert (cookies (rstate r3) !! c = Some (mkParked cli t1)) as Hc3 by (rewrite S3; apply lookup_insert_eq).
  pose proof (meet_ok meet c eph t3 (rstate r3) _ Rm3 Hc3 ltac:(cbn; lia) Hlc Hle) as E4. apply on_state_ok in E4. cbn [pc_circ] in E4.
  set (r3' := set_rstate _ r3) in E4. destruct (deliver_ok cli CMD_RENDEZVOUS eph r3' Hcl3) as (r4 & E4' & S4 & _ & I4).
  exists r3, r4. split; [exact E1|]. split; [exact E2|].
  split; [unfold router_introduce, st_bind; by rewrite E3, E3'|].
  split; [unfold router_rendezvous, st_bind; by rewrite E4, E4'|].
  split; [exact I3|]. split; [exact I4|]. unfold router_partner, partner. rewrite S4. cbn.
  rewrite lookup_insert_ne, !lookup_insert_eq by done. done.
Qed.

(** A meeting that cannot be announced is made all the same: when the queue of the
    client's session is full, the service is told that its RENDEZVOUS failed, but
    the cookie is used up and the two circuits are joined. *)
Theorem refused_meeting_joins meet c eph now r p tx ch :
  roles (rstate r) !! meet = None → cookies (rstate r) !! c = Some p →
  now - pc_at p < RENDEZVOUS_COOKIE_TTL → length c = 32%nat → length eph = 32%nat → pc_circ p ≠ meet →
  sessions r !! session (pc_circ p) = Some tx → chans r !! tx = Some ch →
  closed ch = false → zlen (queue ch) = capacity ch →
  ∃ r', router_rendezvous meet (RendezvousBody_encode (mkRendezvousBody c eph)) now r = (r', Err Backlogged)
    ∧ cookies (rstate r') !! c = None ∧ router_partner r' (pc_circ p) = Some meet ∧ chans r' = chans r.
Proof.
  intros Hr Hc Ht Hl He Hne Hs Hch Hcl Hq.
  pose proof (meet_ok meet c eph now (rstate r) p Hr Hc Ht Hl He) as E1. apply on_state_ok in E1.
  unfold router_rendezvous, st_bind at 1. rewrite E1. unfold deliver, st_bind, st_get, st_lift, try_send. cbn.
  rewrite Hs. cbn. rewrite Hch, Hcl, bool_decide_true by lia. eexists. split; [done|]. cbn.
  rewrite lookup_delete_eq. split; [done|]. unfold router_partner, partner. cbn.
  by rewrite lookup_insert_ne, lookup_insert_eq by done.
Qed.

End runs.

(** ** A concrete router *)
Module RouterDemo.
Import SignDemo.

Fixpoint execs (ops : list RouterOp) (now : Z) (r : Router) : Router :=
  match ops with
  | [] => r
  | op :: ops => execs ops now (router_exec op now r)
  end.

Lemma router_execs_run ops t log r now : router_run t log r → t ≤ now → Forall router_ok ops →
  ∃ t' log', router_run t' log' (execs ops now r).
Proof.
  revert t log r. induction ops as [|op ops IH]; intros t log r Hr Ht Hok; cbn [execs]; [by eauto|].
  apply Forall_cons_1 in Hok as [Hop Hok]. eapply (IH now); [|done|done]. by eapply rr_op.
Qed.

(** Two sessions, session 0 of the service and session 1 of the client. *)
Definition idle_router : Router := execs [RSession 64; RSession 64] 0 RendezvousRouter_new.
Definition met_router : Router :=
  execs [REstablishIntro service (registration service); REstablishRendezvous client cookie1;
         RRendezvous meeting meet_body] 0 idle_router.

Lemma met_router_run : ∃ t log, router_run t log met_router.
Proof.
  apply (router_execs_run [RSession 64; RSession 64; REstablishIntro service (registration service);
    REstablishRendezvous client cookie1; RRendezvous meeting meet_body] 0 [] RendezvousRouter_new 0);
    [constructor|done|by repeat constructor].
Qed.

End RouterDemo.

Lemma router_relay_isolated_witness :
  (∃ e, relay_to_partner SignDemo.client x05 [xaa] RouterDemo.met_router = (RouterDemo.met_router, Err e)) ∨
  (∃ p tx ch log, relay_to_partner SignDemo.client x05 [xaa] RouterDemo.met_router
      = (set_chans (<[tx := mkChan (capacity ch) (queue ch ++ [mkDelivery (circ_id p) x05 [xaa]]) false]>
           (chans RouterDemo.met_router)) RouterDemo.met_router, Ok p)
    ∧ linked SignDemo.client p log ∧ router_partner RouterDemo.met_router p = Some SignDemo.client).
Proof.
  destruct RouterDemo.met_router_run as (t & log & H).
  destruct (router_relay_isolated (E := EdDemo.scheme) t log _ SignDemo.client x05 [xaa] H)
    as [He|(p & tx & ch & HE & _ & _ & _ & _ & Hl & Hp)]; [by left|right].
  exists p, tx, ch, log. split; [exact HE|]. split; [exact Hl|exact Hp].
Defined.

Lemma relay_reaches_partner : (relay_to_partner SignDemo.client x05 [xaa] RouterDemo.met_router).2 = Ok SignDemo.meeting.
Proof. vm_compute. reflexivity. Qed.

Lemma honest_meeting_witness :
  ∃ r4, router_partner r4 SignDemo.client = Some SignDemo.meeting
    ∧ router_partner r4 SignDemo.meeting = Some SignDemo.client.
Proof.
  destruct (honest_meeting (L := EdDemo.laws) x07 SignDemo.service SignDemo.meeting SignDemo.client
    SignDemo.cookie1 (replicate 32 xee) [xaa] 0 0 0 0 RouterDemo.idle_router)
    as (r1 & r2 & r3 & r4 & _ & _ & _ & _ & _ & _ & H1 & H2); try done; try (vm_compute; reflexivity).
  - repeat constructor; vm_compute; reflexivity.
  - exists 0%nat, (mkChan 64 [] false). repeat split; vm_compute; done.
  - exists 1%nat, (mkChan 64 [] false). repeat split; vm_compute; done.
  - by exists r4.
Defined.
