(* ===== verification/SplitExit.v ===== *)
(** * Split exit: bodies (crates/circuit/src/split_exit.rs)

    The exit role is divided between a resolver hop, which learns the
    destination's name, and a forwarder hop, which carries the bytes. Here are
    the three bodies they exchange. Socket addresses are octets and a port. The
    hostname validator and the IPv4-mapped test of split_exit.rs are, line for
    line, those of mux/src/target.rs, and MuxTarget.v's are used. *)

From stdpp Require Import base numbers list gmap strings.
From Stdlib Require Import ZArith Lia Strings.Byte.
From S2P Require Import Prelude Bytes Text MuxTarget.

(** ** Data *)
Inductive ResolverStreamState : Set := Resolving | Handing | ROpen | RClosed.
Inductive ForwarderStreamState : Set := Connecting | FOpen | FClosed.

#[global] Instance ResolverStreamState_eq_dec : EqDecision ResolverStreamState.
Proof. solve_decision. Defined.
#[global] Instance ForwarderStreamState_eq_dec : EqDecision ForwarderStreamState.
Proof. solve_decision. Defined.

Inductive SplitExitError : Set :=
| Wire (msg : string)
| HostLength (n : Z)
| HostNotLdh
| HostEncoding
| ZeroPort
| DomainNotAllowedInHandoff
| UnknownStatus (b : byte)
| ZeroStreamId
| StreamExists (id : Z)
| UnknownStream (id : Z)
| BadState (id : Z) (st : ResolverStreamState)
| BadForwarderState (id : Z) (st : ForwarderStreamState)
| ResolverPendingCap (cap : Z)
| ForwarderPendingCap (cap : Z)
| ResolverStreamCap (cap : Z)
| ForwarderStreamCap (cap : Z).

Abbreviation HANDOFF_ATYP_IPV4 := x01 (only parsing).
Abbreviation HANDOFF_ATYP_IPV6 := x04 (only parsing).
Abbreviation RESOLVE_ATYP_DOMAIN := x03 (only parsing).

Inductive HandoffStatus : Set :=
| StatusOk | PolicyDenied | ConnectRefused | ConnectTimeout | RateLimited | StatusInternal.

#[global] Instance HandoffStatus_eq_dec : EqDecision HandoffStatus.
Proof. solve_decision. Defined.

Definition from_byte (b : byte) : result SplitExitError HandoffStatus :=
  match b with
  | x00 => Ok StatusOk
  | x01 => Ok PolicyDenied
  | x02 => Ok ConnectRefused
  | x03 => Ok ConnectTimeout
  | x04 => Ok RateLimited
  | x05 => Ok StatusInternal
  | other => Err (UnknownStatus other)
  end.

Definition to_byte (s : HandoffStatus) : byte :=
  match s with
  | StatusOk => x00 | PolicyDenied => x01 | ConnectRefused => x02
  | ConnectTimeout => x03 | RateLimited => x04 | StatusInternal => x05
  end.

Definition is_ok (s : HandoffStatus) : bool := match s with StatusOk => true | _ => false end.

Inductive ResolveTarget : Set :=
| Ipv4 (addr : list byte) (port : Z)
| Ipv6 (addr : list byte) (port : Z)
| Domain (domain : list byte) (port : Z).

Record ResolveBody : Set := mkResolve { rb_stream_id : Z; rb_target : ResolveTarget }.

(** [IpAddr] and [SocketAddr] of the standard library. *)
Inductive IpAddr : Set := IpV4 (octets : list byte) | IpV6 (octets : list byte).
Record SocketAddr : Set := mkAddr { ip : IpAddr; port : Z }.

#[global] Instance IpAddr_eq_dec : EqDecision IpAddr.
Proof. solve_decision. Defined.
#[global] Instance SocketAddr_eq_dec : EqDecision SocketAddr.
Proof. solve_decision. Defined.

Record HandoffBody : Set := mkHandoff { hb_stream_id : Z; hb_addr : SocketAddr }.
Record HandoffResultBody : Set := mkResult { hr_stream_id : Z; hr_status : HandoffStatus }.

#[global] Instance HandoffResultBody_eq_dec : EqDecision HandoffResultBody.
Proof. solve_decision. Defined.

(** ** RESOLVE *)
Abbreviation resolve_port t := (match t with Ipv4 _ p | Ipv6 _ p | Domain _ p => p end) (only parsing).

Abbreviation MAPPED_MSG := "IPv4-mapped IPv6 must use IPv4 atyp"%string (only parsing).

Definition ResolveBody_encode (b : ResolveBody) : result SplitExitError (list byte) :=
  if bool_decide (rb_stream_id b = 0) then Err ZeroStreamId
  else if bool_decide (resolve_port (rb_target b) = 0) then Err ZeroPort
  else
    let out := be_bytes 4 (rb_stream_id b) in
    match rb_target b with
    | Ipv4 addr port => Ok (out ++ [HANDOFF_ATYP_IPV4] ++ addr ++ be_bytes 2 port)
    | Ipv6 addr port =>
      if is_ipv4_mapped addr then Err (Wire MAPPED_MSG)
      else Ok (out ++ [HANDOFF_ATYP_IPV6] ++ addr ++ be_bytes 2 port)
    | Domain domain port =>
      if bool_decide (domain = []) || bool_decide (zlen domain > 253) then Err (HostLength (zlen domain))
      else if negb (is_ldh_hostname domain) then Err HostNotLdh
      else Ok (out ++ [RESOLVE_ATYP_DOMAIN] ++ [b8 (zlen domain)] ++ domain ++ be_bytes 2 port)
    end.

(** The [match atyp] of [decode]: the target with its port still to be read,
    where the port is, and the length the body must have. *)
Definition resolve_target (buf : list byte)
  : result SplitExitError ((Z → ResolveTarget) * nat * Z) :=
  match at_ buf 4 with
  | HANDOFF_ATYP_IPV4 =>
    if bool_decide (zlen buf < 4 + 1 + 4 + 2) then Err (Wire "RESOLVE ipv4 truncated")
    else Ok (Ipv4 (slice buf 5 9), 9%nat, 11)
  | HANDOFF_ATYP_IPV6 =>
    if bool_decide (zlen buf < 4 + 1 + 16 + 2) then Err (Wire "RESOLVE ipv6 truncated")
    else if is_ipv4_mapped (slice buf 5 21) then Err (Wire MAPPED_MSG)
    else Ok (Ipv6 (slice buf 5 21), 21%nat, 23)
  | RESOLVE_ATYP_DOMAIN =>
    if bool_decide (zlen buf < 4 + 1 + 1) then Err (Wire "RESOLVE domain truncated at len")
    else
      let dlen := u8 (at_ buf 5) in
      if bool_decide (dlen = 0) || bool_decide (dlen > 253) then Err (HostLength dlen)
      else
        let domain_end := 6 + dlen in
        if bool_decide (zlen buf < domain_end + 2) then Err (Wire "RESOLVE domain truncated")
        else
          let domain := slice buf 6 (Z.to_nat domain_end) in
          if negb (utf8_valid domain) then Err HostEncoding
          else if negb (is_ldh_hostname domain) then Err HostNotLdh
          else Ok (Domain domain, Z.to_nat domain_end, domain_end + 2)
  | _ => Err (Wire "unknown RESOLVE atyp")
  end.

Definition ResolveBody_decode (buf : list byte) : result SplitExitError ResolveBody :=
  if bool_decide (zlen buf < 4 + 1) then Err (Wire "RESOLVE body too short")
  else
    let stream_id := be_val [at_ buf 0; at_ buf 1; at_ buf 2; at_ buf 3] in
    if bool_decide (stream_id = 0) then Err ZeroStreamId
    else
      let? (target, port_off, expected_total) := resolve_target buf in
      if bool_decide (zlen buf ≠ expected_total) then Err (Wire "RESOLVE trailing bytes")
      else
        let port := be_val [at_ buf port_off; at_ buf (port_off + 1)] in
        if bool_decide (port = 0) then Err ZeroPort
        else Ok (mkResolve stream_id (target port)).

(** ** HANDOFF *)

Definition HandoffBody_encode (b : HandoffBody) : result SplitExitError (list byte) :=
  if bool_decide (hb_stream_id b = 0) then Err ZeroStreamId
  else if bool_decide (port (hb_addr b) = 0) then Err ZeroPort
  else
    let out := be_bytes 4 (hb_stream_id b) in
    match ip (hb_addr b) with
    | IpV4 octets => Ok (out ++ [HANDOFF_ATYP_IPV4] ++ octets ++ be_bytes 2 (port (hb_addr b)))
    | IpV6 octets =>
      if is_ipv4_mapped octets then Err (Wire MAPPED_MSG)
      else Ok (out ++ [HANDOFF_ATYP_IPV6] ++ octets ++ be_bytes 2 (port (hb_addr b)))
    end.

Definition HandoffBody_decode (buf : list byte) : result SplitExitError HandoffBody :=
  if bool_decide (zlen buf < 4 + 1) then Err (Wire "HANDOFF body too short")
  else
    let stream_id := be_val [at_ buf 0; at_ buf 1; at_ buf 2; at_ buf 3] in
    if bool_decide (stream_id = 0) then Err ZeroStreamId
    else
      let? (addr, expected_total) :=
        match at_ buf 4 with
        | HANDOFF_ATYP_IPV4 =>
          if bool_decide (zlen buf ≠ 4 + 1 + 4 + 2) then Err (Wire "HANDOFF ipv4 wrong length")
          else Ok (mkAddr (IpV4 [at_ buf 5; at_ buf 6; at_ buf 7; at_ buf 8])
                     (be_val [at_ buf 9; at_ buf 10]), 11)
        | HANDOFF_ATYP_IPV6 =>
          if bool_decide (zlen buf ≠ 4 + 1 + 16 + 2) then Err (Wire "HANDOFF ipv6 wrong length")
          else if is_ipv4_mapped (slice buf 5 21) then Err (Wire MAPPED_MSG)
          else Ok (mkAddr (IpV6 (slice buf 5 21)) (be_val [at_ buf 21; at_ buf 22]), 23)
        | RESOLVE_ATYP_DOMAIN => Err DomainNotAllowedInHandoff
        | _ => Err (Wire "unknown HANDOFF atyp")
        end in
      if bool_decide (zlen buf ≠ expected_total) then Err (Wire "HANDOFF trailing bytes")
      else if bool_decide (port addr = 0) then Err ZeroPort
      else Ok (mkHandoff stream_id addr).

(** ** HANDOFF_RESULT *)
Abbreviation RESULT_WIRE_LEN := 5%Z (only parsing).

Definition HandoffResultBody_encode (b : HandoffResultBody) : result SplitExitError (list byte) :=
  if bool_decide (hr_stream_id b = 0) then Err ZeroStreamId
  else
    let out := splice (replicate 5 x00) 0 (be_bytes 4 (hr_stream_id b)) in
    Ok (<[4%nat := to_byte (hr_status b)]> out).

Definition HandoffResultBody_decode (buf : list byte) : result SplitExitError HandoffResultBody :=
  if bool_decide (zlen buf ≠ RESULT_WIRE_LEN) then Err (Wire "HANDOFF_RESULT wrong length")
  else
    let stream_id := be_val [at_ buf 0; at_ buf 1; at_ buf 2; at_ buf 3] in
    if bool_decide (stream_id = 0) then Err ZeroStreamId
    else
      let? status := from_byte (at_ buf 4) in
      Ok (mkResult stream_id status).

(** ** Values the Rust types allow *)
Definition ip_typed (a : IpAddr) : Prop :=
  match a with IpV4 o => length o = 4%nat | IpV6 o => length o = 16%nat end.
Definition handoff_typed (b : HandoffBody) : Prop :=
  in_u32 (hb_stream_id b) ∧ ip_typed (ip (hb_addr b)) ∧ in_u16 (port (hb_addr b)).
Definition resolve_typed (b : ResolveBody) : Prop :=
  in_u32 (rb_stream_id b) ∧ in_u16 (resolve_port (rb_target b)) ∧
  match rb_target b with
  | Ipv4 a _ => length a = 4%nat
  | Ipv6 a _ => length a = 16%nat
  | Domain d _ => utf8_valid d = true
  end.

#[global] Instance handoff_typed_dec b : Decision (handoff_typed b).
Proof. unfold handoff_typed, ip_typed. destruct (ip (hb_addr b)); apply _. Defined.
#[global] Instance resolve_typed_dec b : Decision (resolve_typed b).
Proof. unfold resolve_typed. destruct (rb_target b); apply _. Defined.

(** ** Round trips *)
Lemma id_at id rest : in_u32 id →
  be_val [at_ (be_bytes 4 id ++ rest) 0; at_ (be_bytes 4 id ++ rest) 1;
          at_ (be_bytes 4 id ++ rest) 2; at_ (be_bytes 4 id ++ rest) 3] = id.
Proof.
  intros H. rewrite be_bytes_4. cbn [at_ nth app]. rewrite <- be_bytes_4. by apply be_u32_roundtrip.
Qed.

Lemma atyp_at id a rest : at_ (be_bytes 4 id ++ a :: rest) 4 = a.
Proof. by rewrite be_bytes_4. Qed.

Lemma port_end pre p n : n = length pre → in_u16 p →
  be_val [at_ (pre ++ be_bytes 2 p) n; at_ (pre ++ be_bytes 2 p) (n + 1)] = p.
Proof.
  intros -> Hp. rewrite at_app_0, at_app_r.
  change (be_val [at_ (be_bytes 2 p) 0; at_ (be_bytes 2 p) 1]) with (be_val (be_bytes 2 p)).
  by apply be_u16_roundtrip.
Qed.

(** A body with an address of a fixed length. *)
Lemma addr_layout id a addr p : let buf := be_bytes 4 id ++ [a] ++ addr ++ be_bytes 2 p in
  in_u32 id → in_u16 p →
  zlen buf = 7 + zlen addr ∧ be_val [at_ buf 0; at_ buf 1; at_ buf 2; at_ buf 3] = id
  ∧ at_ buf 4 = a ∧ slice buf 5 (5 + length addr) = addr
  ∧ be_val [at_ buf (5 + length addr); at_ buf (5 + length addr + 1)] = p.
Proof.
  intros buf Hid Hp. unfold buf. split; [|split; [by apply id_at|split; [apply atyp_at|split]]].
  - rewrite !zlen_app, !zlen_be_bytes. change (zlen [a]) with 1. lia.
  - rewrite (app_assoc _ [a]). apply slice_mid; rewrite length_app, length_be_bytes; done.
  - rewrite (app_assoc _ [a]), (app_assoc (_ ++ _)). apply port_end; [|done].
    rewrite !length_app, length_be_bytes. done.
Qed.

(** The forwarder reads exactly the address the resolver wrote. *)
Lemma handoff_roundtrip b bs :
  handoff_typed b → HandoffBody_encode b = Ok bs → HandoffBody_decode bs = Ok b.
Proof.
  destruct b as [id [a p]]. intros (Hid & Ha & Hp). cbn in Hid, Ha, Hp.
  unfold HandoffBody_encode. cbn [hb_stream_id hb_addr ip port].
  case_bool_decide as H0; [done|]. case_bool_decide as Hp0; [done|]. unfold HandoffBody_decode.
  destruct a as [o|o]; [|destruct (is_ipv4_mapped o) eqn:Em; [done|]]; intros <-%Ok_inj; cbn in Ha.
  - destruct (addr_layout id HANDOFF_ATYP_IPV4 o p Hid Hp) as (Hz & Hi & Hat & Hs & Hport).
    rewrite Ha in Hs, Hport. unfold zlen at 2 in Hz. rewrite Ha in Hz. set (buf := be_bytes 4 id ++ _) in *.
    rewrite Hz, Hi, Hat, (bool_decide_false (id = 0)), !bool_decide_false by (done || lia).
    cbn [Nat.add] in Hport. rewrite Hport.
    assert (o = [at_ buf 5; at_ buf 6; at_ buf 7; at_ buf 8]) as <-.
    { destruct o as [|o0 [|o1 [|o2 [|o3 []]]]]; done. }
    cbn [port]. by rewrite (bool_decide_false (p = 0)).
  - destruct (addr_layout id HANDOFF_ATYP_IPV6 o p Hid Hp) as (Hz & Hi & Hat & Hs & Hport).
    rewrite Ha in Hs, Hport. unfold zlen at 2 in Hz. rewrite Ha in Hz. set (buf := be_bytes 4 id ++ _) in *.
    cbn [Nat.add] in Hs, Hport.
    rewrite Hz, Hi, Hat, (bool_decide_false (id = 0)), !bool_decide_false by (done || lia).
    rewrite Hs, Em, Hport. cbn [port]. by rewrite (bool_decide_false (p = 0)).
Qed.

Lemma result_roundtrip b bs : in_u32 (hr_stream_id b) →
  HandoffResultBody_encode b = Ok bs → HandoffResultBody_decode bs = Ok b.
Proof.
  destruct b as [id st]. cbn [hr_stream_id]. intros Hid. unfold HandoffResultBody_encode.
  cbn [hr_stream_id hr_status]. case_bool_decide as H0; [done|]. intros <-%Ok_inj.
  change (splice (replicate 5 x00) 0 (be_bytes 4 id)) with (be_bytes 4 id ++ [x00]).
  rewrite (insert_app_r (be_bytes 4 id) [x00] 0 (to_byte st) : <[4%nat := _]> _ = _). cbn [insert list_insert].
  unfold HandoffResultBody_decode. rewrite zlen_app, zlen_be_bytes.
  rewrite bool_decide_false by (intros HH; by apply HH). rewrite id_at by done.
  rewrite bool_decide_false, atyp_at by done. by destruct st.
Qed.

(** A body with a length-prefixed name. *)
Lemma domain_layout id a d p :
  let buf := be_bytes 4 id ++ [a] ++ [b8 (zlen d)] ++ d ++ be_bytes 2 p in
  in_u32 id → in_u16 p → 0 < zlen d <= 253 →
  zlen buf = 8 + zlen d ∧ be_val [at_ buf 0; at_ buf 1; at_ buf 2; at_ buf 3] = id
  ∧ at_ buf 4 = a ∧ u8 (at_ buf 5) = zlen d ∧ slice buf 6 (Z.to_nat (6 + zlen d)) = d
  ∧ be_val [at_ buf (Z.to_nat (6 + zlen d)); at_ buf (Z.to_nat (6 + zlen d) + 1)] = p.
Proof.
  intros buf Hid Hp Hd. unfold buf.
  split; [|split; [by apply id_at|split; [apply atyp_at|split; [|split]]]].
  - rewrite !zlen_app, !zlen_be_bytes. change (zlen [a]) with 1. change (zlen [_]) with 1. lia.
  - rewrite be_bytes_4. cbn [at_ nth app]. rewrite u8_b8. apply Z.mod_small. lia.
  - rewrite (app_assoc _ [a]), (app_assoc (_ ++ _) [_]).
    apply slice_mid; rewrite !length_app, length_be_bytes; [done|]. unfold zlen. cbn [length]. lia.
  - rewrite (app_assoc _ [a]), (app_assoc (_ ++ _) [_]), (app_assoc (_ ++ _) d). apply port_end; [|done].
    rewrite !length_app, length_be_bytes. unfold zlen. cbn [length]. lia.
Qed.

Lemma resolve_roundtrip b bs :
  resolve_typed b → ResolveBody_encode b = Ok bs → ResolveBody_decode bs = Ok b.
Proof.
  destruct b as [id t]. intros (Hid & Hp & Ht). cbn [rb_stream_id rb_target] in Hid, Hp, Ht.
  unfold ResolveBody_encode. cbn [rb_stream_id rb_target].
  case_bool_decide as H0; [done|]. case_bool_decide as Hp0; [done|]. unfold ResolveBody_decode, resolve_target.
  destruct t as [o p|o p|d p]; cbn match in Hp, Hp0.
  - intros <-%Ok_inj. destruct (addr_layout id HANDOFF_ATYP_IPV4 o p Hid Hp) as (Hz & Hi & Hat & Hs & Hport).
    rewrite Ht in Hs, Hport. unfold zlen at 2 in Hz. rewrite Ht in Hz. set (buf := be_bytes 4 id ++ _) in *.
    cbn [Nat.add] in Hs, Hport. rewrite Hz, Hi, Hat, (bool_decide_false (id = 0)), !bool_decide_false by (done || lia).
    cbn [Nat.add]. by rewrite Hs, Hport, bool_decide_false.
  - destruct (is_ipv4_mapped o) eqn:Em; [done|]. intros <-%Ok_inj.
    destruct (addr_layout id HANDOFF_ATYP_IPV6 o p Hid Hp) as (Hz & Hi & Hat & Hs & Hport).
    rewrite Ht in Hs, Hport. unfold zlen at 2 in Hz. rewrite Ht in Hz. set (buf := be_bytes 4 id ++ _) in *.
    cbn [Nat.add] in Hs, Hport. rewrite Hz, Hi, Hat, (bool_decide_false (id = 0)), !bool_decide_false by (done || lia).
    rewrite Hs, Em. rewrite bool_decide_false by lia. cbn [Nat.add]. by rewrite Hport, bool_decide_false.
  - destruct (bool_decide (d = []) || _) eqn:El; [done|]. apply orb_false_iff in El as [En El].
    apply bool_decide_eq_false in En, El.
    destruct (is_ldh_hostname d) eqn:Eh; [|done]. intros <-%Ok_inj.
    assert (0 < zlen d <= 253) as Hd by (destruct d; [done|]; unfold zlen in *; cbn [length] in *; lia).
    destruct (domain_layout id RESOLVE_ATYP_DOMAIN d p Hid Hp Hd) as (Hz & Hi & Hat & Hl & Hs & Hport).
    set (buf := be_bytes 4 id ++ _) in *.
    rewrite Hz, Hi, Hat, Hl, (bool_decide_false (id = 0)), !bool_decide_false by (done || lia). cbn [orb].
    rewrite ?bool_decide_false by lia. rewrite Hs, Ht, Eh. cbn [negb].
    rewrite bool_decide_false by lia. by rewrite Hport, bool_decide_false.
Qed.
