(* ===== verification/SplitExitState.v ===== *)
(** * Split exit: the two state machines (crates/circuit/src/split_exit.rs)

    [ResolverState] and [ForwarderState], the hops that share the exit role.
    The order in which a hash map iterates is an argument of the sweeps. The
    invariants: the pending counters count exactly the streams that are not
    open yet, and both caps hold. *)

From stdpp Require Import base numbers list gmap strings.
From Stdlib Require Import ZArith Lia Strings.Byte.
From S2P Require Import Prelude Bytes Text MuxTarget SplitExit.

(** ** Data *)
Record ResolverPolicy : Set := mkRPolicy {
  r_max_pending : Z;
  r_max_streams : Z;
  resolve_timeout : Z;
  handoff_timeout : Z;
}.
Abbreviation ResolverPolicy_default := (mkRPolicy 32 4096 (secs 10) (secs 15)) (only parsing).

Inductive ResolverDecision : Set :=
| NeedDns (stream_id : Z) (host : list byte) (p : Z)
| EmitHandoff (b : HandoffBody).

Record ResolverEntry : Set := mkREntry { re_state : ResolverStreamState; re_port : Z; re_entered : Z }.

Record ResolverState : Set := mkResolver {
  r_policy : ResolverPolicy;
  r_streams : gmap Z ResolverEntry;
  r_pending : Z;
}.

Record ForwarderPolicy : Set := mkFPolicy {
  f_max_pending : Z;
  f_max_streams : Z;
  connect_timeout : Z;
}.
Abbreviation ForwarderPolicy_default := (mkFPolicy 32 4096 (secs 10)) (only parsing).

Record ForwarderEntry : Set := mkFEntry {
  fe_state : ForwarderStreamState;
  fe_dest : SocketAddr;
  fe_entered : Z;
}.

Record ForwarderState : Set := mkForwarder {
  f_policy : ForwarderPolicy;
  f_streams : gmap Z ForwarderEntry;
  f_pending : Z;
}.

Abbreviation rstm := (stm ResolverState SplitExitError).
Abbreviation fstm := (stm ForwarderState SplitExitError).

(** ** The resolver hop *)
Abbreviation ResolverState_new policy := (mkResolver policy ∅ 0) (only parsing).

Definition r_insert (id : Z) (e : ResolverEntry) (s : ResolverState) : ResolverState :=
  mkResolver (r_policy s) (<[id := e]> (r_streams s)) (r_pending s).
Definition r_set_pending (n : Z) (s : ResolverState) : ResolverState :=
  mkResolver (r_policy s) (r_streams s) n.

Definition observe_resolve (body : ResolveBody) (now : Z) : rstm ResolverDecision :=
  s <- st_get ;;
  if bool_decide (is_Some (r_streams s !! rb_stream_id body))
  then st_err (StreamExists (rb_stream_id body))
  else if bool_decide (wrap_u32 (Z.of_nat (size (r_streams s))) >= r_max_streams (r_policy s))
  then st_err (ResolverStreamCap (r_max_streams (r_policy s)))
  else if bool_decide (r_pending s >= r_max_pending (r_policy s))
  then st_err (ResolverPendingCap (r_max_pending (r_policy s)))
  else
    match rb_target body with
    | Domain domain p =>
      st_mod (r_insert (rb_stream_id body) (mkREntry Resolving p now)) ;;;
      st_mod (λ s, r_set_pending (wrap_u32 (r_pending s + 1)) s) ;;;
      st_ret (NeedDns (rb_stream_id body) domain p)
    | Ipv4 addr p =>
      let socket := mkAddr (IpV4 addr) p in
      st_mod (r_insert (rb_stream_id body) (mkREntry Handing p now)) ;;;
      st_mod (λ s, r_set_pending (wrap_u32 (r_pending s + 1)) s) ;;;
      st_ret (EmitHandoff (mkHandoff (rb_stream_id body) socket))
    | Ipv6 addr p =>
      let socket := mkAddr (IpV6 addr) p in
      st_mod (r_insert (rb_stream_id body) (mkREntry Handing p now)) ;;;
      st_mod (λ s, r_set_pending (wrap_u32 (r_pending s + 1)) s) ;;;
      st_ret (EmitHandoff (mkHandoff (rb_stream_id body) socket))
    end.

Definition record_resolution (stream_id : Z) (addr : IpAddr) (now : Z) : rstm HandoffBody :=
  s <- st_get ;;
  match r_streams s !! stream_id with
  | None => st_err (UnknownStream stream_id)
  | Some entry =>
    if bool_decide (re_state entry ≠ Resolving) then st_err (BadState stream_id (re_state entry))
    else
      st_mod (r_insert stream_id (mkREntry Handing (re_port entry) now)) ;;;
      st_ret (mkHandoff stream_id (mkAddr addr (re_port entry)))
  end.

Definition r_close_stream (stream_id : Z) : rstm unit :=
  s <- st_get ;;
  match r_streams s !! stream_id with
  | None => st_err (UnknownStream stream_id)
  | Some entry =>
    st_mod (λ s, mkResolver (r_policy s) (delete stream_id (r_streams s)) (r_pending s)) ;;;
    match re_state entry with
    | Resolving | Handing => st_mod (λ s, r_set_pending (saturating_sub (r_pending s) 1) s)
    | _ => st_ret tt
    end
  end.

Definition record_resolution_failure (stream_id : Z) : rstm unit := r_close_stream stream_id.

Definition observe_handoff_result (body : HandoffResultBody) : rstm HandoffStatus :=
  s <- st_get ;;
  match r_streams s !! hr_stream_id body with
  | None => st_err (UnknownStream (hr_stream_id body))
  | Some entry =>
    if bool_decide (re_state entry ≠ Handing)
    then st_err (BadState (hr_stream_id body) (re_state entry))
    else if is_ok (hr_status body) then
      st_mod (r_insert (hr_stream_id body) (mkREntry ROpen (re_port entry) (re_entered entry))) ;;;
      st_mod (λ s, r_set_pending (saturating_sub (r_pending s) 1) s) ;;;
      st_ret (hr_status body)
    else
      r_close_stream (hr_stream_id body) ;;;
      st_ret (hr_status body)
  end.

Abbreviation r_stream_state s id := (re_state <$> r_streams s !! id) (only parsing).

(** The loop body of the sweep: a stream past the cap of its state. *)
Definition r_expired (p : ResolverPolicy) (now : Z) (entry : ResolverEntry) : bool :=
  match re_state entry with
  | Resolving => bool_decide (duration_since now (re_entered entry) >= resolve_timeout p)
  | Handing => bool_decide (duration_since now (re_entered entry) >= handoff_timeout p)
  | _ => false
  end.

(** [let _ = self.close_stream(id)] over the victims. *)
Definition r_close_all (ids : list Z) (s : ResolverState) : ResolverState :=
  foldl (λ s id, (r_close_stream id s).1) s ids.

Definition r_sweep_timeouts (order : gmap Z ResolverEntry → list (Z * ResolverEntry)) (now : Z)
  (s : ResolverState) : ResolverState * list Z :=
  let victims := (filter (λ p, r_expired (r_policy s) now p.2 = true) (order (r_streams s))).*1 in
  (r_close_all victims s, victims).

(** ** The forwarder hop *)
Abbreviation ForwarderState_new policy := (mkForwarder policy ∅ 0) (only parsing).

Definition f_insert (id : Z) (e : ForwarderEntry) (s : ForwarderState) : ForwarderState :=
  mkForwarder (f_policy s) (<[id := e]> (f_streams s)) (f_pending s).
Definition f_set_pending (n : Z) (s : ForwarderState) : ForwarderState :=
  mkForwarder (f_policy s) (f_streams s) n.

Definition observe_handoff (body : HandoffBody) (now : Z) : fstm unit :=
  s <- st_get ;;
  if bool_decide (is_Some (f_streams s !! hb_stream_id body))
  then st_err (StreamExists (hb_stream_id body))
  else if bool_decide (wrap_u32 (Z.of_nat (size (f_streams s))) >= f_max_streams (f_policy s))
  then st_err (ForwarderStreamCap (f_max_streams (f_policy s)))
  else if bool_decide (f_pending s >= f_max_pending (f_policy s))
  then st_err (ForwarderPendingCap (f_max_pending (f_policy s)))
  else
    st_mod (f_insert (hb_stream_id body) (mkFEntry Connecting (hb_addr body) now)) ;;;
    st_mod (λ s, f_set_pending (wrap_u32 (f_pending s + 1)) s).

Definition f_close_stream (stream_id : Z) : fstm unit :=
  s <- st_get ;;
  match f_streams s !! stream_id with
  | None => st_err (UnknownStream stream_id)
  | Some entry =>
    st_mod (λ s, mkForwarder (f_policy s) (delete stream_id (f_streams s)) (f_pending s)) ;;;
    if bool_decide (fe_state entry = Connecting)
    then st_mod (λ s, f_set_pending (saturating_sub (f_pending s) 1) s)
    else st_ret tt
  end.

Definition record_connect_result (stream_id : Z) (status : HandoffStatus) : fstm HandoffResultBody :=
  s <- st_get ;;
  match f_streams s !! stream_id with
  | None => st_err (UnknownStream stream_id)
  | Some entry =>
    if bool_decide (fe_state entry ≠ Connecting)
    then st_err (BadForwarderState stream_id (fe_state entry))
    else
      (if is_ok status then
         st_mod (f_insert stream_id (mkFEntry FOpen (fe_dest entry) (fe_entered entry))) ;;;
         st_mod (λ s, f_set_pending (saturating_sub (f_pending s) 1) s)
       else f_close_stream stream_id) ;;;
      st_ret (mkResult stream_id status)
  end.

Abbreviation f_stream_state s id := (fe_state <$> f_streams s !! id) (only parsing).
Abbreviation f_stream_dest s id := (fe_dest <$> f_streams s !! id) (only parsing).

Definition f_expired (p : ForwarderPolicy) (now : Z) (entry : ForwarderEntry) : bool :=
  if bool_decide (fe_state entry ≠ Connecting) then false
  else bool_decide (duration_since now (fe_entered entry) >= connect_timeout p).

Definition f_close_all (ids : list Z) (s : ForwarderState) : ForwarderState :=
  foldl (λ s id, (f_close_stream id s).1) s ids.

Definition f_sweep_timeouts (order : gmap Z ForwarderEntry → list (Z * ForwarderEntry)) (now : Z)
  (s : ForwarderState) : ForwarderState * list Z :=
  let victims := (filter (λ p, f_expired (f_policy s) now p.2 = true) (order (f_streams s))).*1 in
  (f_close_all victims s, victims).

(** ** Counting the entries of a map *)
Definition count_if {A} (f : A → bool) (m : gmap Z A) : Z :=
  Z.of_nat (size (filter (λ p, f p.2 = true) m)).
Definition one (b : bool) : Z := if b then 1 else 0.

Section counting.
Context {A : Type} (f : A → bool).

Lemma count_insert_new (m : gmap Z A) i x : m !! i = None →
  count_if f (<[i := x]> m) = count_if f m + one (f x).
Proof.
  intros Hi. unfold count_if. destruct (f x) eqn:Ef; cbn [one].
  - rewrite map_filter_insert_True by done. rewrite map_size_insert_None; [lia|].
    apply map_lookup_filter_None. by left.
  - rewrite map_filter_insert_False by (cbn; congruence). rewrite delete_id by done. lia.
Qed.

Lemma count_delete (m : gmap Z A) i y : m !! i = Some y →
  count_if f (delete i m) = count_if f m - one (f y).
Proof.
  intros Hi. pose proof (count_insert_new (delete i m) i y (lookup_delete_eq _ _)) as H.
  rewrite insert_delete_id in H by done. lia.
Qed.

Lemma count_update (m : gmap Z A) i x y : m !! i = Some y →
  count_if f (<[i := x]> m) = count_if f m - one (f y) + one (f x).
Proof.
  intros Hi. rewrite <- (insert_delete_eq m i x), count_insert_new by apply lookup_delete_eq.
  by rewrite (count_delete m i y).
Qed.

Lemma count_nonneg m : 0 <= count_if f m.
Proof. unfold count_if. lia. Qed.

Lemma count_pos (m : gmap Z A) i y : m !! i = Some y → f y = true → 0 < count_if f m.
Proof.
  intros Hi Hy. pose proof (count_delete m i y Hi) as H. rewrite Hy in H. cbn [one] in H.
  pose proof (count_nonneg (delete i m)). lia.
Qed.
End counting.

(** ** The invariants *)
Definition r_pre (e : ResolverEntry) : bool :=
  match re_state e with Resolving | Handing => true | _ => false end.
Definition f_pre (e : ForwarderEntry) : bool :=
  match fe_state e with Connecting => true | _ => false end.

Record r_inv (s : ResolverState) : Prop := {
  rv_pol : in_u32 (r_max_pending (r_policy s)) ∧ in_u32 (r_max_streams (r_policy s));
  rv_count : r_pending s = count_if r_pre (r_streams s);
  rv_pending : r_pending s <= r_max_pending (r_policy s);
  rv_streams : Z.of_nat (size (r_streams s)) <= r_max_streams (r_policy s);
  rv_closed id e : r_streams s !! id = Some e → re_state e ≠ RClosed;
  rv_typed id e : r_streams s !! id = Some e → in_u32 id ∧ id ≠ 0 ∧ in_u16 (re_port e);
}.

Record f_inv (s : ForwarderState) : Prop := {
  fv_pol : in_u32 (f_max_pending (f_policy s)) ∧ in_u32 (f_max_streams (f_policy s));
  fv_count : f_pending s = count_if f_pre (f_streams s);
  fv_pending : f_pending s <= f_max_pending (f_policy s);
  fv_streams : Z.of_nat (size (f_streams s)) <= f_max_streams (f_policy s);
  fv_closed id e : f_streams s !! id = Some e → fe_state e ≠ FClosed;
  fv_typed id e : f_streams s !! id = Some e → in_u32 id ∧ id ≠ 0;
}.

Lemma r_new_inv p : in_u32 (r_max_pending p) → in_u32 (r_max_streams p) → r_inv (ResolverState_new p).
Proof. intros [] []. split; cbn; try done; intros *; by rewrite lookup_empty. Qed.

Lemma f_new_inv p : in_u32 (f_max_pending p) → in_u32 (f_max_streams p) → f_inv (ForwarderState_new p).
Proof. intros [] []. split; cbn; try done; intros *; by rewrite lookup_empty. Qed.

Lemma wrap_small z : 0 <= z <= u32_max → wrap_u32 z = z.
Proof. intros. unfold wrap_u32. apply Z.mod_small. lia. Qed.

(** *** What each operation of the resolver does *)
Definition resolve_entry (t : ResolveTarget) (now : Z) : ResolverEntry :=
  match t with Domain _ p => mkREntry Resolving p now | Ipv4 _ p | Ipv6 _ p => mkREntry Handing p now end.
Definition resolve_decision (b : ResolveBody) : ResolverDecision :=
  match rb_target b with
  | Domain d p => NeedDns (rb_stream_id b) d p
  | Ipv4 a p => EmitHandoff (mkHandoff (rb_stream_id b) (mkAddr (IpV4 a) p))
  | Ipv6 a p => EmitHandoff (mkHandoff (rb_stream_id b) (mkAddr (IpV6 a) p))
  end.

Lemma observe_resolve_outcome b now s : r_inv s →
  (∃ e, observe_resolve b now s = (s, Err e)) ∨
  (observe_resolve b now s
     = (mkResolver (r_policy s) (<[rb_stream_id b := resolve_entry (rb_target b) now]> (r_streams s)) (r_pending s + 1),
        Ok (resolve_decision b))
   ∧ r_streams s !! rb_stream_id b = None
   ∧ Z.of_nat (size (r_streams s)) < r_max_streams (r_policy s) ∧ r_pending s < r_max_pending (r_policy s)).
Proof.
  intros I. destruct (rv_pol s I) as [[] []]. pose proof (rv_streams s I).
  pose proof (count_nonneg r_pre (r_streams s)) as Hn. rewrite <- (rv_count s I) in Hn.
  unfold observe_resolve, st_bind, st_get, st_mod, st_ret, st_err, r_insert, r_set_pending.
  case_bool_decide as He; [left; by eexists|]. rewrite (wrap_small (Z.of_nat _)) by lia.
  case_bool_decide; [left; by eexists|]. case_bool_decide; [left; by eexists|].
  right. split; [|split_and!; [by apply eq_None_not_Some|lia|lia]].
  unfold resolve_decision. destruct (rb_target b); cbn; rewrite wrap_small by lia; done.
Qed.

Lemma r_close_outcome id s : r_inv s →
  (r_streams s !! id = None ∧ r_close_stream id s = (s, Err (UnknownStream id))) ∨
  (∃ e, r_streams s !! id = Some e ∧
     r_close_stream id s = (mkResolver (r_policy s) (delete id (r_streams s)) (r_pending s - one (r_pre e)), Ok tt)).
Proof.
  intros I. unfold r_close_stream, st_bind, st_get, st_mod, st_ret, st_err.
  destruct (r_streams s !! id) as [e|] eqn:El; [right|by left]. exists e. split; [done|].
  assert (r_pre e = true → saturating_sub (r_pending s) 1 = r_pending s - 1) as Hs.
  { intros Hp. pose proof (count_pos r_pre _ _ _ El Hp). rewrite <- (rv_count s I) in *. unfold saturating_sub. lia. }
  unfold r_set_pending. destruct s as [pol m n]. cbn in *. unfold r_pre in *.
  destruct (re_state e); cbn; rewrite ?Hs, ?Z.sub_0_r by done; done.
Qed.

Lemma record_resolution_outcome id a now s :
  (∃ e, record_resolution id a now s = (s, Err e)) ∨
  (∃ e, r_streams s !! id = Some e ∧ re_state e = Resolving
   ∧ record_resolution id a now s
     = (mkResolver (r_policy s) (<[id := mkREntry Handing (re_port e) now]> (r_streams s)) (r_pending s),
        Ok (mkHandoff id (mkAddr a (re_port e))))).
Proof.
  unfold record_resolution, st_bind, st_get, st_mod, st_ret, st_err.
  destruct (r_streams s !! id) as [e|] eqn:El; [|left; by eexists].
  case_bool_decide as Hs; [left; by eexists|]. right. exists e. split_and!; [done| |done].
  destruct (re_state e); done || (by exfalso; apply Hs).
Qed.

Lemma observe_result_outcome b s : r_inv s →
  (∃ e, observe_handoff_result b s = (s, Err e)) ∨
  (∃ e, r_streams s !! hr_stream_id b = Some e ∧ re_state e = Handing
   ∧ observe_handoff_result b s
     = (mkResolver (r_policy s)
          (if is_ok (hr_status b)
           then <[hr_stream_id b := mkREntry ROpen (re_port e) (re_entered e)]> (r_streams s)
           else delete (hr_stream_id b) (r_streams s)) (r_pending s - 1), Ok (hr_status b))).
Proof.
  intros I. unfold observe_handoff_result, st_bind at 1, st_get at 1.
  destruct (r_streams s !! hr_stream_id b) as [e|] eqn:El; [|left; by eexists].
  case_bool_decide as Hs; [left; by eexists|]. right. exists e.
  assert (re_state e = Handing) as Hst by (destruct (re_state e); done || (by exfalso; apply Hs)).
  split_and!; [done..|]. destruct (is_ok (hr_status b)) eqn:Eo.
  - assert (r_pre e = true) as Hp by (unfold r_pre; by rewrite Hst).
    pose proof (count_pos r_pre _ _ _ El Hp). rewrite <- (rv_count s I) in *.
    assert (saturating_sub (r_pending s) 1 = r_pending s - 1) as Hs1 by (unfold saturating_sub; lia).
    unfold st_bind, st_get, st_mod, st_ret, r_insert, r_set_pending. rewrite El, Hst.
    rewrite bool_decide_false by (intros HH; by apply HH). cbn [r_policy r_streams r_pending]. by rewrite Hs1.
  - destruct (r_close_outcome (hr_stream_id b) s I) as [[? _]|(e' & El' & Hc)]; [congruence|].
    unfold st_bind, st_get, st_ret. rewrite El, Hst, bool_decide_false by (intros HH; by apply HH).
    rewrite Hc. assert (e' = e) as -> by congruence. unfold r_pre. by rewrite Hst.
Qed.

(** *** The resolver preserves its invariant *)
Lemma r_inv_new s id e : r_inv s → r_streams s !! id = None →
  Z.of_nat (size (r_streams s)) < r_max_streams (r_policy s) → r_pending s < r_max_pending (r_policy s) →
  r_pre e = true → in_u32 id → id ≠ 0 → in_u16 (re_port e) →
  r_inv (mkResolver (r_policy s) (<[id := e]> (r_streams s)) (r_pending s + 1)).
Proof.
  intros I Hi Hs Hp Hpre ? ? ?. split; cbn.
  - apply I.
  - rewrite count_insert_new, Hpre, (rv_count s I) by done. done.
  - lia.
  - rewrite map_size_insert_None by done. lia.
  - intros k e'. destruct (decide (k = id)) as [->|Hk]; [rewrite lookup_insert_eq|rewrite lookup_insert_ne by done].
    + intros [= <-] Hc. unfold r_pre in Hpre. by rewrite Hc in Hpre.
    + apply I.
  - intros k e'. destruct (decide (k = id)) as [->|Hk]; [rewrite lookup_insert_eq|rewrite lookup_insert_ne by done].
    + by intros [= <-].
    + apply I.
Qed.

Lemma r_inv_update s id e e' n : r_inv s → r_streams s !! id = Some e → re_state e' ≠ RClosed →
  re_port e' = re_port e → n = r_pending s - one (r_pre e) + one (r_pre e') → n <= r_pending s →
  r_inv (mkResolver (r_policy s) (<[id := e']> (r_streams s)) n).
Proof.
  intros I Hi Hc Hport -> Hle. pose proof (rv_pending s I). split; cbn.
  - apply I.
  - by rewrite (count_update _ _ _ _ e), (rv_count s I).
  - lia.
  - rewrite map_size_insert_Some by by eexists. apply I.
  - intros k x. destruct (decide (k = id)) as [->|Hk]; [rewrite lookup_insert_eq|rewrite lookup_insert_ne by done].
    + by intros [= <-].
    + apply I.
  - intros k x. destruct (decide (k = id)) as [->|Hk]; [rewrite lookup_insert_eq|rewrite lookup_insert_ne by done].
    + intros [= <-]. rewrite Hport. by apply I.
    + apply I.
Qed.

Lemma r_inv_delete s id e : r_inv s → r_streams s !! id = Some e →
  r_inv (mkResolver (r_policy s) (delete id (r_streams s)) (r_pending s - one (r_pre e))).
Proof.
  intros I Hi. pose proof (rv_pending s I). pose proof (rv_streams s I).
  pose proof (size_delete_le (r_streams s) id). split; cbn.
  - apply I.
  - by rewrite (count_delete _ _ _ e), (rv_count s I).
  - unfold one. destruct (r_pre e); lia.
  - lia.
  - intros k x [_ Hk]%lookup_delete_Some. by eapply I.
  - intros k x [_ Hk]%lookup_delete_Some. by eapply I.
Qed.

Lemma observe_resolve_inv b now s : resolve_typed b → rb_stream_id b ≠ 0 → r_inv s →
  r_inv (observe_resolve b now s).1.
Proof.
  intros (Hid & Hport & _) H0 I.
  destruct (observe_resolve_outcome b now s I) as [[e ->]|(-> & Hn & Hs & Hp)]; [done|].
  apply r_inv_new; try done; destruct (rb_target b); done.
Qed.

Lemma r_close_inv id s : r_inv s → r_inv (r_close_stream id s).1.
Proof.
  intros I. destruct (r_close_outcome id s I) as [[_ ->]|(e & He & ->)]; [done|]. by apply r_inv_delete.
Qed.

Lemma record_resolution_inv id a now s : r_inv s → r_inv (record_resolution id a now s).1.
Proof.
  intros I. destruct (record_resolution_outcome id a now s) as [[e ->]|(e & He & Hst & ->)]; [done|].
  apply (r_inv_update s id e); try done; cbn; unfold r_pre; rewrite ?Hst; cbn; lia.
Qed.

Lemma observe_result_inv b s : r_inv s → r_inv (observe_handoff_result b s).1.
Proof.
  intros I. destruct (observe_result_outcome b s I) as [[e ->]|(e & He & Hst & ->)]; [done|]. cbn.
  assert (one (r_pre e) = 1) as Hp by (unfold r_pre; by rewrite Hst).
  destruct (is_ok (hr_status b)).
  - apply (r_inv_update s _ e); try done; cbn; lia.
  - rewrite <- Hp. by apply r_inv_delete.
Qed.

Lemma r_close_all_inv ids s : r_inv s → r_inv (r_close_all ids s).
Proof.
  revert s. induction ids as [|id ids IH]; intros s I; [done|]. cbn. apply IH. by apply r_close_inv.
Qed.

(** A sweep removes exactly the streams past the cap of their state. *)
Lemma r_close_all_lookup ids s k : r_inv s →
  r_streams (r_close_all ids s) !! k = if bool_decide (k ∈ ids) then None else r_streams s !! k.
Proof.
  intros I. rewrite <- lookup_deletes. f_equal. unfold r_close_all. revert s I.
  induction ids as [|id ids IH]; intros s I; [done|]. cbn [foldl].
  rewrite IH by by apply r_close_inv. f_equal.
  destruct (r_close_outcome id s I) as [[Hn ->]|(e & _ & ->)]; cbn; [by rewrite delete_id|done].
Qed.

Lemma swept_iff {A} (P : A → bool) (order : gmap Z A → list (Z * A)) (m : gmap Z A) k :
  (∀ m, order m ≡ₚ map_to_list m) →
  k ∈ (filter (λ p, P p.2 = true) (order m)).*1 ↔ ∃ e, m !! k = Some e ∧ P e = true.
Proof.
  intros Ho. rewrite list_elem_of_fmap. split.
  - intros ([i e] & -> & H). apply list_elem_of_filter in H as [HP H].
    rewrite (Ho m) in H. apply elem_of_map_to_list in H. by exists e.
  - intros (e & Hk & HP). exists (k, e). split; [done|]. apply list_elem_of_filter. split; [done|].
    rewrite (Ho m). by apply elem_of_map_to_list.
Qed.

Lemma r_sweep_lookup order now s k : (∀ m, order m ≡ₚ map_to_list m) → r_inv s →
  r_streams (r_sweep_timeouts order now s).1 !! k
  = r_streams s !! k ≫= λ e, if r_expired (r_policy s) now e then None else Some e.
Proof.
  intros Ho I. cbn. rewrite r_close_all_lookup by done.
  destruct (r_streams s !! k) as [e|] eqn:Ek; cbn; [|by case_bool_decide].
  destruct (r_expired (r_policy s) now e) eqn:Ee.
  - rewrite bool_decide_true; [done|]. apply swept_iff; [done|]. by exists e.
  - rewrite bool_decide_false; [done|]. rewrite swept_iff by done. intros (e' & ? & ?). congruence.
Qed.

(** *** The forwarder *)
Lemma observe_handoff_outcome b now s : f_inv s →
  (∃ e, observe_handoff b now s = (s, Err e)) ∨
  (observe_handoff b now s
     = (mkForwarder (f_policy s) (<[hb_stream_id b := mkFEntry Connecting (hb_addr b) now]> (f_streams s))
          (f_pending s + 1), Ok tt)
   ∧ f_streams s !! hb_stream_id b = None
   ∧ Z.of_nat (size (f_streams s)) < f_max_streams (f_policy s) ∧ f_pending s < f_max_pending (f_policy s)).
Proof.
  intros I. destruct (fv_pol s I) as [[] []]. pose proof (fv_streams s I).
  pose proof (count_nonneg f_pre (f_streams s)) as Hn. rewrite <- (fv_count s I) in Hn.
  unfold observe_handoff, st_bind, st_get, st_mod, st_err, f_insert, f_set_pending.
  case_bool_decide as He; [left; by eexists|]. rewrite (wrap_small (Z.of_nat _)) by lia.
  case_bool_decide; [left; by eexists|]. case_bool_decide; [left; by eexists|].
  right. split; [|split_and!; [by apply eq_None_not_Some|lia|lia]]. cbn. by rewrite wrap_small by lia.
Qed.

Lemma f_close_outcome id s : f_inv s →
  (f_streams s !! id = None ∧ f_close_stream id s = (s, Err (UnknownStream id))) ∨
  (∃ e, f_streams s !! id = Some e ∧
     f_close_stream id s = (mkForwarder (f_policy s) (delete id (f_streams s)) (f_pending s - one (f_pre e)), Ok tt)).
Proof.
  intros I. unfold f_close_stream, st_bind, st_get, st_mod, st_ret, st_err.
  destruct (f_streams s !! id) as [e|] eqn:El; [right|by left]. exists e. split; [done|].
  assert (f_pre e = true → saturating_sub (f_pending s) 1 = f_pending s - 1) as Hs.
  { intros Hp. pose proof (count_pos f_pre _ _ _ El Hp). rewrite <- (fv_count s I) in *. unfold saturating_sub. lia. }
  unfold f_set_pending. destruct s as [pol m n]. cbn [f_policy f_streams f_pending] in *. unfold f_pre in *.
  case_bool_decide as Hc; [rewrite Hc in *; cbn [f_policy f_streams f_pending one]; by rewrite Hs|].
  destruct (fe_state e); [done|..]; cbn; by rewrite ?Z.sub_0_r.
Qed.

Lemma connect_result_outcome id st s : f_inv s →
  (∃ e, record_connect_result id st s = (s, Err e)) ∨
  (∃ e, f_streams s !! id = Some e ∧ fe_state e = Connecting
   ∧ record_connect_result id st s
     = (mkForwarder (f_policy s)
          (if is_ok st then <[id := mkFEntry FOpen (fe_dest e) (fe_entered e)]> (f_streams s)
           else delete id (f_streams s)) (f_pending s - 1), Ok (mkResult id st))).
Proof.
  intros I. unfold record_connect_result, st_bind, st_get, st_mod, st_ret, st_err, f_insert, f_set_pending.
  destruct (f_streams s !! id) as [e|] eqn:El; [|left; by eexists].
  case_bool_decide as Hs; [left; by eexists|]. right. exists e.
  assert (fe_state e = Connecting) as Hst by (destruct (fe_state e); done || (by exfalso; apply Hs)).
  split_and!; [done..|]. assert (f_pre e = true) as Hp by (unfold f_pre; by rewrite Hst).
  destruct (is_ok st).
  - pose proof (count_pos f_pre _ _ _ El Hp). rewrite <- (fv_count s I) in *.
    assert (saturating_sub (f_pending s) 1 = f_pending s - 1) as Hs1 by (unfold saturating_sub; lia).
    cbn [f_policy f_streams f_pending]. by rewrite Hs1.
  - destruct (f_close_outcome id s I) as [[? _]|(e' & El' & Hc)]; [congruence|].
    rewrite Hc. assert (e' = e) as -> by congruence. by rewrite Hp.
Qed.

Lemma f_inv_new s id e : f_inv s → f_streams s !! id = None →
  Z.of_nat (size (f_streams s)) < f_max_streams (f_policy s) → f_pending s < f_max_pending (f_policy s) →
  fe_state e = Connecting → in_u32 id → id ≠ 0 →
  f_inv (mkForwarder (f_policy s) (<[id := e]> (f_streams s)) (f_pending s + 1)).
Proof.
  intros I Hi Hs Hp Hst ? ?. split; cbn.
  - apply I.
  - rewrite count_insert_new, (fv_count s I) by done. unfold f_pre at 3. by rewrite Hst.
  - lia.
  - rewrite map_size_insert_None by done. lia.
  - intros k e'. destruct (decide (k = id)) as [->|Hk]; [rewrite lookup_insert_eq|rewrite lookup_insert_ne by done].
    + intros [= <-]. by rewrite Hst.
    + apply I.
  - intros k e'. destruct (decide (k = id)) as [->|Hk]; [done|rewrite lookup_insert_ne by done]. apply I.
Qed.

Lemma f_inv_open s id e : f_inv s → f_streams s !! id = Some e → fe_state e = Connecting →
  f_inv (mkForwarder (f_policy s) (<[id := mkFEntry FOpen (fe_dest e) (fe_entered e)]> (f_streams s)) (f_pending s - 1)).
Proof.
  intros I Hi Hst. pose proof (fv_pending s I). split; cbn.
  - apply I.
  - rewrite (count_update _ _ _ _ e), (fv_count s I) by done. unfold f_pre at 3. rewrite Hst. cbn. lia.
  - lia.
  - rewrite map_size_insert_Some by by eexists. apply I.
  - intros k x. destruct (decide (k = id)) as [->|Hk]; [rewrite lookup_insert_eq; by intros [= <-]|].
    rewrite lookup_insert_ne by done. apply I.
  - intros k x. destruct (decide (k = id)) as [->|Hk]; [intros _; by eapply I|].
    rewrite lookup_insert_ne by done. apply I.
Qed.

Lemma f_inv_delete s id e : f_inv s → f_streams s !! id = Some e →
  f_inv (mkForwarder (f_policy s) (delete id (f_streams s)) (f_pending s - one (f_pre e))).
Proof.
  intros I Hi. pose proof (fv_pending s I). pose proof (fv_streams s I).
  pose proof (size_delete_le (f_streams s) id). split; cbn.
  - apply I.
  - by rewrite (count_delete _ _ _ e), (fv_count s I).
  - unfold one. destruct (f_pre e); lia.
  - lia.
  - intros k x [_ Hk]%lookup_delete_Some. by eapply I.
  - intros k x [_ Hk]%lookup_delete_Some. by eapply I.
Qed.

Lemma observe_handoff_inv b now s : in_u32 (hb_stream_id b) → hb_stream_id b ≠ 0 → f_inv s →
  f_inv (observe_handoff b now s).1.
Proof.
  intros Hid H0 I. destruct (observe_handoff_outcome b now s I) as [[e ->]|(-> & Hn & Hs & Hp)]; [done|].
  by apply f_inv_new.
Qed.

Lemma f_close_inv id s : f_inv s → f_inv (f_close_stream id s).1.
Proof.
  intros I. destruct (f_close_outcome id s I) as [[_ ->]|(e & He & ->)]; [done|]. by apply f_inv_delete.
Qed.

Lemma connect_result_inv id st s : f_inv s → f_inv (record_connect_result id st s).1.
Proof.
  intros I. destruct (connect_result_outcome id st s I) as [[e ->]|(e & He & Hst & ->)]; [done|]. cbn.
  destruct (is_ok st); [by apply f_inv_open|].
  pose proof (f_inv_delete s id e I He) as H. unfold f_pre in H. by rewrite Hst in H.
Qed.

Lemma f_close_all_inv ids s : f_inv s → f_inv (f_close_all ids s).
Proof.
  revert s. induction ids as [|id ids IH]; intros s I; [done|]. cbn. apply IH. by apply f_close_inv.
Qed.

Lemma f_close_all_lookup ids s k : f_inv s →
  f_streams (f_close_all ids s) !! k = if bool_decide (k ∈ ids) then None else f_streams s !! k.
Proof.
  intros I. rewrite <- lookup_deletes. f_equal. unfold f_close_all. revert s I.
  induction ids as [|id ids IH]; intros s I; [done|]. cbn [foldl].
  rewrite IH by by apply f_close_inv. f_equal.
  destruct (f_close_outcome id s I) as [[Hn ->]|(e & _ & ->)]; cbn; [by rewrite delete_id|done].
Qed.
