(* ===== verification/SplitExitRun.v ===== *)
(** * Split exit: the resolver and the forwarder together

    The client's RESOLVE cells, the resolver, the forwarder and the two FIFO
    directions between them (the circuit's cell order), as a step function with
    a log. The DNS answers and the outcomes of the TCP connects are events. The
    theorems: an open stream is connected to the destination its client asked
    for, and nothing the forwarder holds or receives depends on a hostname. *)

From stdpp Require Import base numbers list gmap strings.
From Stdlib Require Import ZArith Lia Strings.Byte.
From S2P Require Import Prelude Bytes Text MuxTarget SplitExit SplitExitState.

(** ** What the decoders return is well typed *)
Lemma resolve_target_typed buf t off total : resolve_target buf = Ok (t, off, total) →
  ∀ p, (match t p with
        | Ipv4 a _ => length a = 4%nat
        | Ipv6 a _ => length a = 16%nat
        | Domain d _ => utf8_valid d = true
        end) ∧ resolve_port (t p) = p.
Proof.
  unfold resolve_target. intros H p.
  destruct (at_ buf 4); try done; case_bool_decide as Hl; try done.
  - simplify_eq. split; [|done]. apply length_slice. unfold zlen in Hl. lia.
  - destruct (_ || _); [done|]. case_bool_decide as Hd; [done|].
    destruct (utf8_valid _) eqn:Eu; [|done]. destruct (is_ldh_hostname _); [|done]. cbn in H. by simplify_eq.
  - destruct (is_ipv4_mapped _); [done|]. simplify_eq. split; [|done].
    apply length_slice. unfold zlen in Hl. lia.
Qed.

Lemma resolve_decode_typed bs b : ResolveBody_decode bs = Ok b → resolve_typed b ∧ rb_stream_id b ≠ 0.
Proof.
  unfold ResolveBody_decode. case_bool_decide; [done|]. case_bool_decide as H0; [done|].
  destruct (resolve_target bs) as [[[t off] total]|] eqn:Et; [|done].
  case_bool_decide; [done|]. case_bool_decide; [done|]. intros <-%Ok_inj.
  destruct (resolve_target_typed bs t off total Et (be_val [at_ bs off; at_ bs (off + 1)])) as [Ht Hp].
  split; [|done]. split; [apply be_val_u32|]. cbn [rb_target]. rewrite Hp. split; [apply be_val_u16|done].
Qed.

Lemma handoff_decode_id bs b : HandoffBody_decode bs = Ok b → in_u32 (hb_stream_id b) ∧ hb_stream_id b ≠ 0.
Proof.
  unfold HandoffBody_decode. case_bool_decide; [done|]. case_bool_decide as H0; [done|].
  destruct (match at_ bs 4 with x01 => _ | _ => _ end) as [[a total]|]; [|done].
  case_bool_decide; [done|]. case_bool_decide; [done|]. intros <-%Ok_inj. split; [apply be_val_u32|done].
Qed.

(** ** The system *)
Record Sys : Set := mkSys {
  sR : ResolverState;
  sF : ForwarderState;
  toF : list (list byte);
  toR : list (list byte);
}.

Inductive SEv : Set :=
| ClientResolve (bs : list byte) (now : Z)
| DnsDone (id : Z) (a : IpAddr) (now : Z)
| DnsFailed (id : Z)
| HandoffArrives (now : Z)
| Connected (id : Z) (st : HandoffStatus)
| ResultArrives
| CloseR (id : Z)
| CloseF (id : Z)
| SweepR (now : Z)
| SweepF (now : Z).

Inductive SLog : Set :=
| LResolve (b : ResolveBody)
| LAnswer (id : Z) (a : IpAddr)
| LHandoff (id : Z) (a : SocketAddr)
| LConnected (id : Z) (a : SocketAddr).

(** The orders in which the two hash maps iterate. *)
Record SOrders : Set := mkSOrders {
  r_order : gmap Z ResolverEntry → list (Z * ResolverEntry);
  f_order : gmap Z ForwarderEntry → list (Z * ForwarderEntry);
}.

Definition set_sR (r : ResolverState) (s : Sys) : Sys := mkSys r (sF s) (toF s) (toR s).
Definition set_sF (f : ForwarderState) (s : Sys) : Sys := mkSys (sR s) f (toF s) (toR s).

Definition emit_handoff (b : HandoffBody) (s : Sys) : Sys * list SLog :=
  match HandoffBody_encode b with
  | Ok bs => (mkSys (sR s) (sF s) (toF s ++ [bs]) (toR s), [LHandoff (hb_stream_id b) (hb_addr b)])
  | Err _ => (s, [])
  end.

Definition sys_step (ord : SOrders) (e : SEv) (s : Sys) : Sys * list SLog :=
  match e with
  | ClientResolve bs now =>
    match ResolveBody_decode bs with
    | Err _ => (s, [])
    | Ok b =>
      match observe_resolve b now (sR s) with
      | (r, Err _) => (set_sR r s, [])
      | (r, Ok (NeedDns _ _ _)) => (set_sR r s, [LResolve b])
      | (r, Ok (EmitHandoff hb)) =>
        let (s', l) := emit_handoff hb (set_sR r s) in (s', LResolve b :: l)
      end
    end
  | DnsDone id a now =>
    match record_resolution id a now (sR s) with
    | (r, Err _) => (set_sR r s, [])
    | (r, Ok hb) => let (s', l) := emit_handoff hb (set_sR r s) in (s', LAnswer id a :: l)
    end
  | DnsFailed id => (set_sR (record_resolution_failure id (sR s)).1 s, [])
  | HandoffArrives now =>
    match toF s with
    | [] => (s, [])
    | bs :: rest =>
      let s := mkSys (sR s) (sF s) rest (toR s) in
      match HandoffBody_decode bs with
      | Err _ => (s, [])
      | Ok b => (set_sF (observe_handoff b now (sF s)).1 s, [])
      end
    end
  | Connected id st =>
    match record_connect_result id st (sF s) with
    | (f, Err _) => (set_sF f s, [])
    | (f, Ok b) =>
      match HandoffResultBody_encode b with
      | Err _ => (set_sF f s, [])
      | Ok bs =>
        (mkSys (sR s) f (toF s) (toR s ++ [bs]),
         if is_ok st then match f_stream_dest (sF s) id with Some a => [LConnected id a] | None => [] end
         else [])
      end
    end
  | ResultArrives =>
    match toR s with
    | [] => (s, [])
    | bs :: rest =>
      let s := mkSys (sR s) (sF s) (toF s) rest in
      match HandoffResultBody_decode bs with
      | Err _ => (s, [])
      | Ok b => (set_sR (observe_handoff_result b (sR s)).1 s, [])
      end
    end
  | CloseR id => (set_sR (r_close_stream id (sR s)).1 s, [])
  | CloseF id => (set_sF (f_close_stream id (sF s)).1 s, [])
  | SweepR now => (set_sR (r_sweep_timeouts (r_order ord) now (sR s)).1 s, [])
  | SweepF now => (set_sF (f_sweep_timeouts (f_order ord) now (sF s)).1 s, [])
  end.

Fixpoint sys_run (ord : SOrders) (es : list SEv) (s : Sys) : Sys * list SLog :=
  match es with
  | [] => (s, [])
  | e :: es =>
    let (s1, l1) := sys_step ord e s in
    let (s2, l2) := sys_run ord es s1 in (s2, l1 ++ l2)
  end.

Definition sys_new (rp : ResolverPolicy) (fp : ForwarderPolicy) : Sys :=
  mkSys (ResolverState_new rp) (ForwarderState_new fp) [] [].

(** The stream ids of the RESOLVE cells that parse. *)
Definition resolve_ids (es : list SEv) : list Z :=
  omap (λ e, match e with
             | ClientResolve bs _ => match ResolveBody_decode bs with Ok b => Some (rb_stream_id b) | Err _ => None end
             | _ => None end) es.

(** Addresses have the length of their family, as in [IpAddr]. *)
Definition ev_typed (e : SEv) : Prop := match e with DnsDone _ a _ => ip_typed a | _ => True end.
#[global] Instance ev_typed_dec e : Decision (ev_typed e).
Proof. unfold ev_typed, ip_typed. destruct e as [|? []| | | | | | | |]; apply _. Defined.

(** The destination a request names: a literal itself, a name through an
    answer the resolver was given for it. *)
Definition fulfils (log : list SLog) (b : ResolveBody) (a : SocketAddr) : Prop :=
  match rb_target b with
  | Ipv4 o p => a = mkAddr (IpV4 o) p
  | Ipv6 o p => a = mkAddr (IpV6 o) p
  | Domain _ p => port a = p ∧ LAnswer (rb_stream_id b) (ip a) ∈ log
  end.

(** ** The invariant of a run *)
Record sys_inv (ids : list Z) (s : Sys) (log : list SLog) : Prop := {
  si_r : r_inv (sR s);
  si_f : f_inv (sF s);
  si_seen b : LResolve b ∈ log → rb_stream_id b ∈ ids ∧ resolve_typed b;
  si_once b b' : LResolve b ∈ log → LResolve b' ∈ log → rb_stream_id b = rb_stream_id b' → b = b';
  si_entry id e : r_streams (sR s) !! id = Some e →
    ∃ b, LResolve b ∈ log ∧ rb_stream_id b = id ∧ re_port e = resolve_port (rb_target b)
         ∧ (re_state e = Resolving → (∃ d p, rb_target b = Domain d p) ∧ ∀ a, LHandoff id a ∉ log)
         ∧ (re_state e = ROpen → ∃ a, LConnected id a ∈ log);
  si_hand id a : LHandoff id a ∈ log → ∃ b, LResolve b ∈ log ∧ rb_stream_id b = id ∧ fulfils log b a;
  si_hand_once id a a' : LHandoff id a ∈ log → LHandoff id a' ∈ log → a = a';
  si_toF bs : bs ∈ toF s → ∃ b, HandoffBody_decode bs = Ok b ∧ LHandoff (hb_stream_id b) (hb_addr b) ∈ log;
  si_dest id e : f_streams (sF s) !! id = Some e → LHandoff id (fe_dest e) ∈ log;
  si_toR bs : bs ∈ toR s → ∃ r, HandoffResultBody_decode bs = Ok r
    ∧ (is_ok (hr_status r) = true → ∃ a, LConnected (hr_stream_id r) a ∈ log);
  si_conn id a : LConnected id a ∈ log → LHandoff id a ∈ log;
}.

Lemma fulfils_mono log l b a : fulfils log b a → fulfils (log ++ l) b a.
Proof. unfold fulfils. destruct (rb_target b); [done..|]. intros [? ?]. split; [done|]. set_solver. Qed.

(** Membership in a log extended by one entry. *)
Ltac in_log H :=
  rewrite elem_of_app, list_elem_of_singleton in H; destruct H as [H|H]; simplify_eq.

(** Steps that only forget. *)
Lemma sys_inv_shrink ids s s' log : sys_inv ids s log → r_inv (sR s') → f_inv (sF s') →
  r_streams (sR s') ⊆ r_streams (sR s) → f_streams (sF s') ⊆ f_streams (sF s) →
  toF s' ⊆ toF s → toR s' ⊆ toR s → sys_inv ids s' log.
Proof.
  intros I Hr Hf HR HF HtF HtR. split; try done; try apply I.
  - intros id e He. apply (si_entry ids s log I). by eapply lookup_weaken.
  - intros bs Hbs. by apply I, HtF.
  - intros id e He. apply (si_dest ids s log I). by eapply lookup_weaken.
  - intros bs Hbs. by apply I, HtR.
Qed.

Lemma sys_inv_ids ids x s log : sys_inv ids s log → sys_inv (ids ++ x) s log.
Proof. intros I. split; try apply I. intros b Hb. apply I in Hb as [? ?]. set_solver. Qed.

(** A request accepted under a fresh stream id. *)
Lemma sys_inv_request ids s log b e n : sys_inv ids s log → resolve_typed b → rb_stream_id b ∉ ids →
  re_port e = resolve_port (rb_target b) → re_state e ≠ ROpen →
  (re_state e = Resolving → ∃ d p, rb_target b = Domain d p) →
  let r := mkResolver (r_policy (sR s)) (<[rb_stream_id b := e]> (r_streams (sR s))) n in
  r_inv r → sys_inv (ids ++ [rb_stream_id b]) (set_sR r s) (log ++ [LResolve b]).
Proof.
  intros I Hty Hfresh Hport Hno Hres r Ir.
  assert (∀ b', LResolve b' ∈ log → rb_stream_id b' ≠ rb_stream_id b) as Hnew.
  { intros b' Hb' Heq. apply Hfresh. rewrite <- Heq. by apply I. }
  assert (∀ id a, LHandoff id a ∈ log → id ≠ rb_stream_id b) as Hnh.
  { intros id a (b' & Hb' & <- & _)%(si_hand ids s log I). by apply Hnew. }
  split; cbn; try done.
  - apply I.
  - intros b' Hb'. in_log Hb'; [|set_solver]. apply I in Hb' as [? ?]. set_solver.
  - intros b1 b2 H1 H2 Heq. in_log H1; in_log H2; try done; [by eapply I|..]; exfalso.
    + by apply (Hnew b1).
    + by apply (Hnew b2).
  - intros id x. destruct (decide (id = rb_stream_id b)) as [->|Hn].
    + rewrite lookup_insert_eq. intros [= <-]. exists b. split_and!; [set_solver|done..| |done].
      intros Hst. split; [by apply Hres|]. intros a Ha. in_log Ha. by eapply Hnh.
    + rewrite lookup_insert_ne by done. intros (b' & Hb' & <- & Hp & Hr & Ho)%(si_entry ids s log I).
      exists b'. split_and!; [set_solver|done|done|..].
      * intros Hst. destruct (Hr Hst) as [Hd Hh]. split; [done|]. intros a Ha. in_log Ha. by eapply Hh.
      * intros Hst. destruct (Ho Hst) as [a Ha]. exists a. set_solver.
  - intros id a Ha. in_log Ha. apply I in Ha as (b' & Hb' & <- & Hf). exists b'.
    split_and!; [set_solver|done|by apply fulfils_mono].
  - intros id a a' Ha Ha'. in_log Ha. in_log Ha'. by eapply I.
  - intros bs (b' & Hb' & Hh)%(si_toF ids s log I). exists b'. set_solver.
  - intros id x Hx%(si_dest ids s log I). set_solver.
  - intros bs (x & Hx & Hc)%(si_toR ids s log I). exists x. split; [done|].
    intros Ho. destruct (Hc Ho) as [a Ha]. exists a. set_solver.
  - intros id a Ha. in_log Ha. apply I in Ha. set_solver.
Qed.

(** An answer for a stream that waits for one. *)
Lemma sys_inv_answer ids s log id x e ad : sys_inv ids s log →
  r_streams (sR s) !! id = Some x → re_port e = re_port x → re_state e = Handing →
  let r := mkResolver (r_policy (sR s)) (<[id := e]> (r_streams (sR s))) (r_pending (sR s)) in
  r_inv r → sys_inv ids (set_sR r s) (log ++ [LAnswer id ad]).
Proof.
  intros I Hx Hport Hst r Ir. split; cbn; try done.
  - apply I.
  - intros b Hb. in_log Hb. by apply I.
  - intros b b' Hb Hb'. in_log Hb. in_log Hb'. by apply I.
  - intros k y. destruct (decide (k = id)) as [->|Hn].
    + rewrite lookup_insert_eq. intros [= <-].
      apply (si_entry ids s log I) in Hx as (b & Hb & <- & Hp & _ & _).
      exists b. split_and!; [set_solver|done|congruence|congruence|congruence].
    + rewrite lookup_insert_ne by done. intros (b & Hb & <- & Hp & Hr & Ho)%(si_entry ids s log I).
      exists b. split_and!; [set_solver|done|done|..].
      * intros H. destruct (Hr H) as [Hd Hh]. split; [done|]. intros a Ha. in_log Ha. by eapply Hh.
      * intros H. destruct (Ho H) as [a Ha]. exists a. set_solver.
  - intros k a Ha. in_log Ha. apply I in Ha as (b & Hb & <- & Hf). exists b.
    split_and!; [set_solver|done|by apply fulfils_mono].
  - intros k a a' Ha Ha'. in_log Ha. in_log Ha'. by eapply I.
  - intros bs (b' & Hb' & Hh)%(si_toF ids s log I). exists b'. set_solver.
  - intros k y Hy%(si_dest ids s log I). set_solver.
  - intros bs (y & Hy & Hc)%(si_toR ids s log I). exists y. split; [done|].
    intros Ho. destruct (Hc Ho) as [a Ha]. exists a. set_solver.
  - intros k a Ha. in_log Ha. apply I in Ha. set_solver.
Qed.

(** A HANDOFF for the first time under its stream id. *)
Lemma sys_inv_emit ids s log hb b : sys_inv ids s log → handoff_typed hb →
  LResolve b ∈ log → rb_stream_id b = hb_stream_id hb → fulfils log b (hb_addr hb) →
  (∀ a, LHandoff (hb_stream_id hb) a ∉ log) →
  (∀ e, r_streams (sR s) !! hb_stream_id hb = Some e → re_state e ≠ Resolving) →
  sys_inv ids (emit_handoff hb s).1 (log ++ (emit_handoff hb s).2).
Proof.
  intros I Hty Hb Hid Hful Hnone Hres. unfold emit_handoff.
  destruct (HandoffBody_encode hb) as [bs|] eqn:Ee; cbn [fst snd]; [|by rewrite app_nil_r].
  apply handoff_roundtrip in Ee; [|done]. split; cbn.
  - apply I.
  - apply I.
  - intros b' Hb'. in_log Hb'. by apply I.
  - intros b1 b2 H1 H2. in_log H1. in_log H2. by apply I.
  - intros k y Hy. pose proof Hy as (b' & Hb' & <- & Hp & Hr & Ho)%(si_entry ids s log I).
    exists b'. split_and!; [set_solver|done|done|..].
    + intros H. destruct (Hr H) as [Hd Hh]. split; [done|]. intros a Ha. in_log Ha; [by eapply Hh|].
      by apply (Hres y); [congruence|].
    + intros H. destruct (Ho H) as [a Ha]. exists a. set_solver.
  - intros k a Ha. in_log Ha.
    + apply I in Ha as (b' & Hb' & <- & Hf). exists b'. split_and!; [set_solver|done|by apply fulfils_mono].
    + exists b. split_and!; [set_solver|done|by apply fulfils_mono].
  - intros k a a' Ha Ha'. in_log Ha; in_log Ha'; try done; [by eapply I|..]; exfalso; by eapply Hnone.
  - intros bs' Hbs. rewrite elem_of_app, list_elem_of_singleton in Hbs. destruct Hbs as [Hbs| ->].
    + apply I in Hbs as (b' & Hb' & Hh). exists b'. set_solver.
    + exists hb. split; [done|]. set_solver.
  - intros k y Hy%(si_dest ids s log I). set_solver.
  - intros bs' (y & Hy & Hc)%(si_toR ids s log I). exists y. split; [done|].
    intros Ho. destruct (Hc Ho) as [a Ha]. exists a. set_solver.
  - intros k a Ha. in_log Ha. apply I in Ha. set_solver.
Qed.

(** The forwarder connects. *)
Lemma sys_inv_connected ids s log id e bs : sys_inv ids s log →
  f_streams (sF s) !! id = Some e →
  HandoffResultBody_decode bs = Ok (mkResult id StatusOk) →
  let f := mkForwarder (f_policy (sF s)) (<[id := mkFEntry FOpen (fe_dest e) (fe_entered e)]> (f_streams (sF s)))
             (f_pending (sF s) - 1) in
  f_inv f → sys_inv ids (mkSys (sR s) f (toF s) (toR s ++ [bs])) (log ++ [LConnected id (fe_dest e)]).
Proof.
  intros I He Hdec f If. pose proof (si_dest ids s log I _ _ He) as Hd. split; cbn; try done.
  - apply I.
  - intros b Hb. in_log Hb. by apply I.
  - intros b b' Hb Hb'. in_log Hb. in_log Hb'. by apply I.
  - intros k y (b' & Hb' & <- & Hp & Hr & Ho)%(si_entry ids s log I).
    exists b'. split_and!; [set_solver|done|done|..].
    + intros H. destruct (Hr H) as [Hd' Hh]. split; [done|]. intros a Ha. in_log Ha. by eapply Hh.
    + intros H. destruct (Ho H) as [a Ha]. exists a. set_solver.
  - intros k a Ha. in_log Ha. apply I in Ha as (b' & Hb' & <- & Hf). exists b'.
    split_and!; [set_solver|done|by apply fulfils_mono].
  - intros k a a' Ha Ha'. in_log Ha. in_log Ha'. by eapply I.
  - intros bs' (b' & Hb' & Hh)%(si_toF ids s log I). exists b'. set_solver.
  - intros k y. destruct (decide (k = id)) as [->|Hn].
    + rewrite lookup_insert_eq. intros [= <-]. cbn. set_solver.
    + rewrite lookup_insert_ne by done. intros Hy%(si_dest ids s log I). set_solver.
  - intros bs' Hbs. rewrite elem_of_app, list_elem_of_singleton in Hbs. destruct Hbs as [Hbs| ->].
    + apply I in Hbs as (y & Hy & Hc). exists y. split; [done|].
      intros Ho. destruct (Hc Ho) as [a Ha]. exists a. set_solver.
    + eexists. split; [done|]. intros _. exists (fe_dest e). cbn. set_solver.
  - intros k a Ha. in_log Ha; [apply I in Ha|]; set_solver.
Qed.

(** The resolver learns that the forwarder has connected. *)
Lemma sys_inv_opened ids s log id x e n : sys_inv ids s log →
  r_streams (sR s) !! id = Some x → re_port e = re_port x → re_state e = ROpen →
  (∃ a, LConnected id a ∈ log) →
  let r := mkResolver (r_policy (sR s)) (<[id := e]> (r_streams (sR s))) n in
  r_inv r → sys_inv ids (set_sR r s) log.
Proof.
  intros I Hx Hport Hst Hc r Ir. split; cbn; try done; try apply I.
  intros k y. destruct (decide (k = id)) as [->|Hn].
  - rewrite lookup_insert_eq. intros [= <-].
    apply (si_entry ids s log I) in Hx as (b & Hb & <- & Hp & _ & _).
    exists b. split_and!; [done|done|congruence|congruence|done].
  - rewrite lookup_insert_ne by done. apply I.
Qed.

(** The forwarder accepts a HANDOFF. *)
Lemma sys_inv_accept ids s log id a now n : sys_inv ids s log → LHandoff id a ∈ log →
  let f := mkForwarder (f_policy (sF s)) (<[id := mkFEntry Connecting a now]> (f_streams (sF s))) n in
  f_inv f → sys_inv ids (set_sF f s) log.
Proof.
  intros I Ha f If. split; cbn; try done; try apply I.
  intros k y. destruct (decide (k = id)) as [->|Hn].
  - rewrite lookup_insert_eq. by intros [= <-].
  - rewrite lookup_insert_ne by done. apply I.
Qed.

(** *** One step *)
Section steps.
Context (ord : SOrders).

Definition step_ok (e : SEv) : Prop :=
  ∀ ids s log, sys_inv ids s log → ev_typed e → (∀ id, id ∈ resolve_ids [e] → id ∉ ids) →
  sys_inv (ids ++ resolve_ids [e]) (sys_step ord e s).1 (log ++ (sys_step ord e s).2).

Lemma step_resolve bs now : step_ok (ClientResolve bs now).
Proof.
  intros ids s log I _ Hfresh. cbn [sys_step]. unfold resolve_ids in *. cbn [omap list_omap] in *.
  destruct (ResolveBody_decode bs) as [b|] eqn:Ed; cbn [fst snd]; [|rewrite !app_nil_r; done].
  apply resolve_decode_typed in Ed as [Hty H0].
  assert (rb_stream_id b ∉ ids) as Hnew by (apply Hfresh; set_solver).
  pose proof (observe_resolve_inv b now (sR s) Hty H0 (si_r _ _ _ I)) as Ir.
  destruct (observe_resolve_outcome b now (sR s) (si_r _ _ _ I)) as [[e He]|(He & _)]; rewrite He in *; cbn [fst] in Ir.
  { rewrite app_nil_r. apply sys_inv_ids. by destruct s. }
  assert (sys_inv (ids ++ [rb_stream_id b]) (set_sR (mkResolver (r_policy (sR s))
    (<[rb_stream_id b := resolve_entry (rb_target b) now]> (r_streams (sR s))) (r_pending (sR s) + 1)) s)
    (log ++ [LResolve b])) as I1.
  { apply sys_inv_request; try done; destruct (rb_target b); try done. intros _. by eauto. }
  assert (∀ a, LHandoff (rb_stream_id b) a ∉ log ++ [LResolve b]) as Hnone.
  { intros a Ha. in_log Ha. apply (si_hand ids s log I) in Ha as (b' & Hb' & Hid & _).
    apply Hnew. rewrite <- Hid. by apply I. }
  destruct b as [id t]. destruct Hty as (Hid & Hp & Hl). cbn [rb_stream_id rb_target] in *.
  destruct t as [o p|o p|d p]; cbn [resolve_decision resolve_entry rb_target rb_stream_id] in *; [| |done].
  all: match goal with |- context [emit_handoff ?hb ?s0] =>
    pose proof (λ b, sys_inv_emit _ s0 _ hb b I1) as E end.
  all: destruct (emit_handoff _ _) as [s' l] eqn:Ee; cbn [fst snd] in *.
  all: setoid_rewrite <- app_assoc in E; eapply E; try done; [apply elem_of_app; right; by apply list_elem_of_singleton|done|done|].
  all: cbn; rewrite lookup_insert_eq; by intros e [= <-].
Qed.

Lemma step_dns id a now : step_ok (DnsDone id a now).
Proof.
  intros ids s log I Hty _. cbn [sys_step]. change (resolve_ids _) with (@nil Z). rewrite app_nil_r.
  pose proof (record_resolution_inv id a now (sR s) (si_r _ _ _ I)) as Ir.
  destruct (record_resolution_outcome id a now (sR s)) as [[e He]|(e & Hx & Hst & He)]; rewrite He in *; cbn [fst] in Ir.
  { cbn [fst snd]. rewrite app_nil_r. by destruct s. }
  destruct (si_entry _ _ _ I _ _ Hx) as (b & Hb & Hid & Hp & Hr & _).
  destruct (Hr Hst) as [(d & p & Hd) Hnone].
  destruct (rv_typed _ (si_r _ _ _ I) _ _ Hx) as (Hu & _ & Hu16).
  pose proof (sys_inv_answer ids s log id e (mkREntry Handing (re_port e) now) a I Hx eq_refl eq_refl Ir) as I1.
  match goal with |- context [emit_handoff ?hb ?s0] => pose proof (sys_inv_emit _ s0 _ hb b I1) as E end.
  destruct (emit_handoff _ _) as [s' l] eqn:Ee; cbn [fst snd] in *. rewrite <- app_assoc in E.
  eapply E; [done|set_solver|done|..].
  - unfold fulfils. rewrite Hd, Hid. cbn. split; [by rewrite Hp, Hd|set_solver].
  - cbn. intros a' Ha. in_log Ha. by eapply Hnone.
  - cbn. rewrite lookup_insert_eq. by intros x [= <-].
Qed.

Lemma step_handoff now : step_ok (HandoffArrives now).
Proof.
  intros ids s log I _ _. cbn [sys_step]. change (resolve_ids _) with (@nil Z). rewrite app_nil_r.
  destruct (toF s) as [|bs rest] eqn:Et; cbn [fst snd]; [by rewrite app_nil_r|].
  assert (sys_inv ids (mkSys (sR s) (sF s) rest (toR s)) log) as I1.
  { eapply sys_inv_shrink; try done; cbn; [apply I|apply I|rewrite Et; set_solver]. }
  destruct (si_toF _ _ _ I bs) as (b & Hb & Hh); [rewrite Et; set_solver|]. rewrite Hb. cbn [fst snd sF].
  rewrite app_nil_r. apply handoff_decode_id in Hb as [Hid H0].
  pose proof (observe_handoff_inv b now (sF s) Hid H0 (si_f _ _ _ I)) as If.
  destruct (observe_handoff_outcome b now (sF s) (si_f _ _ _ I)) as [[e He]|(He & _)]; rewrite He in *; cbn [fst] in *; [done|].
  by apply (sys_inv_accept ids _ log _ _ _ _ I1 Hh).
Qed.

Lemma step_connected id st : step_ok (Connected id st).
Proof.
  intros ids s log I _ _. cbn [sys_step]. change (resolve_ids _) with (@nil Z). rewrite app_nil_r.
  pose proof (connect_result_inv id st (sF s) (si_f _ _ _ I)) as If.
  destruct (connect_result_outcome id st (sF s) (si_f _ _ _ I)) as [[e He]|(e & Hx & Hst & He)]; rewrite He in *; cbn [fst] in *.
  { cbn [snd]. rewrite app_nil_r. by destruct s. }
  destruct (fv_typed _ (si_f _ _ _ I) _ _ Hx) as [Hu H0].
  destruct (HandoffResultBody_encode (mkResult id st)) as [bs|] eqn:Ee.
  2: { exfalso. unfold HandoffResultBody_encode in Ee. cbn [hr_stream_id] in Ee. by rewrite bool_decide_false in Ee. }
  apply result_roundtrip in Ee; [|done]. unfold f_stream_dest. rewrite Hx. cbn [fmap option_fmap option_map fst snd].
  destruct st; cbn [is_ok] in *; [by apply sys_inv_connected|..].
  all: rewrite app_nil_r; split; cbn; try done; try apply I.
  all: try (intros k y Hy; apply (si_dest _ _ _ I); by apply lookup_delete_Some in Hy as [_ ?]).
  all: intros bs' Hbs; rewrite elem_of_app, list_elem_of_singleton in Hbs; destruct Hbs as [Hbs| ->]; [by apply I|].
  all: eexists; split; [done|]; done.
Qed.

Lemma step_result : step_ok ResultArrives.
Proof.
  intros ids s log I _ _. cbn [sys_step]. change (resolve_ids _) with (@nil Z). rewrite app_nil_r.
  destruct (toR s) as [|bs rest] eqn:Et; cbn [fst snd]; [by rewrite app_nil_r|].
  assert (sys_inv ids (mkSys (sR s) (sF s) (toF s) rest) log) as I1.
  { eapply sys_inv_shrink; try done; cbn; [apply I|apply I|rewrite Et; set_solver]. }
  destruct (si_toR _ _ _ I bs) as (b & Hb & Hc); [rewrite Et; set_solver|]. rewrite Hb. cbn [fst snd sR].
  rewrite app_nil_r. pose proof (observe_result_inv b (sR s) (si_r _ _ _ I)) as Ir.
  destruct (observe_result_outcome b (sR s) (si_r _ _ _ I)) as [[e He]|(e & Hx & Hst & He)]; rewrite He in *; cbn [fst] in *; [done|].
  destruct (is_ok (hr_status b)) eqn:Eo.
  - apply (sys_inv_opened ids _ log _ e _ _ I1); try done. by apply Hc.
  - eapply sys_inv_shrink; [exact I1|done|apply I|..]; cbn; [apply delete_subseteq|done..].
Qed.

Lemma step_forget e s' : resolve_ids [e] = [] →
  (∀ s, sys_step ord e s = (s' s, [])) →
  (∀ s, r_inv (sR s) → r_inv (sR (s' s)) ∧ r_streams (sR (s' s)) ⊆ r_streams (sR s)) →
  (∀ s, f_inv (sF s) → f_inv (sF (s' s)) ∧ f_streams (sF (s' s)) ⊆ f_streams (sF s)) →
  (∀ s, toF (s' s) = toF s ∧ toR (s' s) = toR s) → step_ok e.
Proof.
  intros Hids Hs Hr Hf Hq ids s log I _ _. rewrite Hids, Hs, !app_nil_r. cbn [fst].
  destruct (Hr s (si_r _ _ _ I)), (Hf s (si_f _ _ _ I)), (Hq s) as [Hq1 Hq2].
  eapply sys_inv_shrink; try done; [by rewrite Hq1|by rewrite Hq2].
Qed.

Lemma r_close_sub id s : r_inv s → r_inv (r_close_stream id s).1 ∧ r_streams (r_close_stream id s).1 ⊆ r_streams s.
Proof.
  intros I. split; [by apply r_close_inv|].
  destruct (r_close_outcome id s I) as [[_ ->]|(e & _ & ->)]; [done|apply delete_subseteq].
Qed.

Lemma f_close_sub id s : f_inv s → f_inv (f_close_stream id s).1 ∧ f_streams (f_close_stream id s).1 ⊆ f_streams s.
Proof.
  intros I. split; [by apply f_close_inv|].
  destruct (f_close_outcome id s I) as [[_ ->]|(e & _ & ->)]; [done|apply delete_subseteq].
Qed.

Lemma r_close_all_sub ids s : r_inv s → r_inv (r_close_all ids s) ∧ r_streams (r_close_all ids s) ⊆ r_streams s.
Proof.
  intros I. split; [by apply r_close_all_inv|]. apply map_subseteq_spec. intros k x.
  rewrite r_close_all_lookup by done. by case_bool_decide.
Qed.

Lemma f_close_all_sub ids s : f_inv s → f_inv (f_close_all ids s) ∧ f_streams (f_close_all ids s) ⊆ f_streams s.
Proof.
  intros I. split; [by apply f_close_all_inv|]. apply map_subseteq_spec. intros k x.
  rewrite f_close_all_lookup by done. by case_bool_decide.
Qed.

Lemma step_inv e : step_ok e.
Proof.
  destruct e; eauto using step_resolve, step_dns, step_handoff, step_connected, step_result.
  all: eapply step_forget; [done|intros; reflexivity|intros; cbn|intros; cbn|intros; cbn; done].
  all: first [by split | by apply r_close_sub | by apply f_close_sub
              | by apply r_close_all_sub | by apply f_close_all_sub].
Qed.

Lemma resolve_ids_cons e es : resolve_ids (e :: es) = resolve_ids [e] ++ resolve_ids es.
Proof. unfold resolve_ids. cbn. by case_match. Qed.

Lemma sys_run_inv es : ∀ ids s log, sys_inv ids s log → Forall ev_typed es →
  NoDup (ids ++ resolve_ids es) →
  sys_inv (ids ++ resolve_ids es) (sys_run ord es s).1 (log ++ (sys_run ord es s).2).
Proof.
  induction es as [|e es IH]; intros ids s log I Hty Hnd; [by rewrite !app_nil_r|].
  rewrite resolve_ids_cons in *. rewrite app_assoc in *. apply Forall_cons in Hty as [He Hes].
  assert (sys_inv (ids ++ resolve_ids [e]) (sys_step ord e s).1 (log ++ (sys_step ord e s).2)) as I1.
  { apply step_inv; [done..|]. intros id Hid Hin.
    apply NoDup_app in Hnd as [Hnd _]. apply NoDup_app in Hnd as (_ & Hdis & _). by eapply Hdis. }
  cbn [sys_run]. destruct (sys_step ord e s) as [s1 l1]. cbn [fst snd] in I1.
  specialize (IH _ _ _ I1 Hes Hnd). destruct (sys_run ord es s1) as [s2 l2]. cbn [fst snd] in *.
  by rewrite app_assoc.
Qed.
End steps.

Lemma sys_new_inv rp fp : in_u32 (r_max_pending rp) → in_u32 (r_max_streams rp) →
  in_u32 (f_max_pending fp) → in_u32 (f_max_streams fp) → sys_inv [] (sys_new rp fp) [].
Proof.
  intros. split; cbn; try (intros *; rewrite ?lookup_empty; done || set_solver).
  - by apply r_new_inv.
  - by apply f_new_inv.
Qed.

(** ** The theorems *)

(** C18: When the resolver holds a stream as open, and no stream id was requested
    twice, the forwarder has connected that stream to one address only, and it
    is the destination of the client's RESOLVE: the literal it carried, or the
    port it carried at an address that was the resolver's DNS answer for that
    stream; the forwarder's entry, while it exists, has that destination. *)
Theorem split_exit_agrees ord rp fp es id :
  in_u32 (r_max_pending rp) → in_u32 (r_max_streams rp) →
  in_u32 (f_max_pending fp) → in_u32 (f_max_streams fp) →
  Forall ev_typed es → NoDup (resolve_ids es) →
  let s := (sys_run ord es (sys_new rp fp)).1 in
  let log := (sys_run ord es (sys_new rp fp)).2 in
  r_stream_state (sR s) id = Some ROpen →
  ∃ b a, LResolve b ∈ log ∧ rb_stream_id b = id ∧ fulfils log b a ∧ LConnected id a ∈ log
    ∧ (∀ a', LConnected id a' ∈ log → a' = a)
    ∧ (∀ d, f_stream_dest (sF s) id = Some d → d = a).
Proof.
  intros H1 H2 H3 H4 Hty Hnd s log Hopen.
  pose proof (sys_run_inv ord es [] _ [] (sys_new_inv rp fp H1 H2 H3 H4) Hty Hnd) as I. cbn [app] in I.
  fold s log in I.
  destruct (r_streams (sR s) !! id) as [e|] eqn:Ee; [|done]. cbn in Hopen. simplify_eq.
  destruct (si_entry _ _ _ I _ _ Ee) as (_ & _ & _ & _ & _ & Ho). destruct (Ho Hopen) as [a Ha].
  pose proof (si_conn _ _ _ I _ _ Ha) as Hh.
  destruct (si_hand _ _ _ I _ _ Hh) as (b & Hb & Hid & Hf).
  exists b, a. split_and!; [done..| |].
  - intros a' Ha'. by eapply (si_hand_once _ _ _ I); [apply (si_conn _ _ _ I)|].
  - intros d Hd. unfold f_stream_dest in Hd. destruct (f_streams (sF s) !! id) as [x|] eqn:Ex; [|done].
    cbn in Hd. simplify_eq. by eapply (si_hand_once _ _ _ I); [apply (si_dest _ _ _ I)|].
Qed.

(** The counters and the caps, whatever the two peers send. *)
Lemma caps_step ord e s : r_inv (sR s) → f_inv (sF s) →
  r_inv (sR (sys_step ord e s).1) ∧ f_inv (sF (sys_step ord e s).1).
Proof.
  intros Ir If.
  assert (∀ hb s0, sR (emit_handoff hb s0).1 = sR s0 ∧ sF (emit_handoff hb s0).1 = sF s0) as Hemit.
  { intros. unfold emit_handoff. by case_match. }
  destruct e; cbn [sys_step].
  - destruct (ResolveBody_decode bs) as [b|] eqn:Ed; [|done]. apply resolve_decode_typed in Ed as [Hty H0].
    pose proof (observe_resolve_inv b now (sR s) Hty H0 Ir) as I1.
    destruct (observe_resolve b now (sR s)) as [r [[]|]]; cbn [fst] in *; [done| |done].
    destruct (Hemit b0 (set_sR r s)) as [E1 E2]. destruct (emit_handoff _ _) as [s' l]. cbn [fst] in *. by rewrite E1, E2.
  - pose proof (record_resolution_inv id a now (sR s) Ir) as I1.
    destruct (record_resolution id a now (sR s)) as [r [hb|]]; cbn [fst] in *; [|done].
    destruct (Hemit hb (set_sR r s)) as [E1 E2]. destruct (emit_handoff _ _) as [s' l]. cbn [fst] in *. by rewrite E1, E2.
  - split; [by apply r_close_inv|done].
  - destruct (toF s) as [|bs rest]; [done|]. destruct (HandoffBody_decode bs) as [b|] eqn:Ed; [|done].
    apply handoff_decode_id in Ed as [Hid H0]. split; [done|]. by apply observe_handoff_inv.
  - pose proof (connect_result_inv id st (sF s) If) as I1.
    destruct (record_connect_result id st (sF s)) as [f [b|]]; cbn [fst] in *; [|done].
    by destruct (HandoffResultBody_encode b).
  - destruct (toR s) as [|bs rest]; [done|]. destruct (HandoffResultBody_decode bs) as [b|]; [|done].
    split; [by apply observe_result_inv|done].
  - split; [by apply r_close_inv|done].
  - split; [done|by apply f_close_inv].
  - split; [by apply r_close_all_inv|done].
  - split; [done|by apply f_close_all_inv].
Qed.

(** Whatever cells arrive, in whatever order, each hop's pending counter is
    the number of its streams that are not open yet, and both caps of both
    policies hold. *)
Theorem split_exit_caps ord rp fp es :
  in_u32 (r_max_pending rp) → in_u32 (r_max_streams rp) →
  in_u32 (f_max_pending fp) → in_u32 (f_max_streams fp) →
  let s := (sys_run ord es (sys_new rp fp)).1 in r_inv (sR s) ∧ f_inv (sF s).
Proof.
  intros H1 H2 H3 H4. cbv zeta.
  assert (∀ s, r_inv (sR s) → f_inv (sF s) →
    r_inv (sR (sys_run ord es s).1) ∧ f_inv (sF (sys_run ord es s).1)) as H.
  { induction es as [|e es IH]; intros s Ir If; [done|]. destruct (caps_step ord e s Ir If) as [I1 I2].
    cbn [sys_run]. destruct (sys_step ord e s) as [s1 l1]. cbn [fst] in *.
    specialize (IH s1 I1 I2). by destruct (sys_run ord es s1). }
  apply H; [by apply r_new_inv|by apply f_new_inv].
Qed.

(** ** Names *)

(** Two events that differ at most in the hostname of a RESOLVE. *)
Inductive blind : SEv → SEv → Prop :=
| blind_refl e : blind e e
| blind_name bs1 bs2 now id d1 d2 p :
    ResolveBody_decode bs1 = Ok (mkResolve id (Domain d1 p)) →
    ResolveBody_decode bs2 = Ok (mkResolve id (Domain d2 p)) →
    blind (ClientResolve bs1 now) (ClientResolve bs2 now).

Lemma observe_name id d1 d2 p now r :
  (observe_resolve (mkResolve id (Domain d1 p)) now r).1 = (observe_resolve (mkResolve id (Domain d2 p)) now r).1.
Proof.
  unfold observe_resolve, st_bind, st_get, st_err. cbn [rb_stream_id rb_target].
  by repeat case_bool_decide.
Qed.

Lemma observe_name_out id d p now r :
  let '(r', o) := observe_resolve (mkResolve id (Domain d p)) now r in
  o = Ok (NeedDns id d p) ∨ ∃ e, o = Err e.
Proof.
  unfold observe_resolve, st_bind, st_get, st_err. cbn [rb_stream_id rb_target].
  repeat case_bool_decide; cbn; eauto.
Qed.

Lemma step_name ord bs id d p now s : ResolveBody_decode bs = Ok (mkResolve id (Domain d p)) →
  (sys_step ord (ClientResolve bs now) s).1
  = set_sR (observe_resolve (mkResolve id (Domain d p)) now (sR s)).1 s.
Proof.
  intros Hd. cbn [sys_step]. rewrite Hd. pose proof (observe_name_out id d p now (sR s)) as H.
  destruct (observe_resolve _ now (sR s)) as [r' o]. by destruct H as [->|[e ->]].
Qed.

(** C24: The hostnames of the client's requests reach nothing past the resolver's
    DNS call. Two runs that differ only in hostnames, with the same answers,
    leave the same forwarder, the same cells in flight to it and back, and the
    same resolver tables: in particular every cell the forwarder is ever sent
    is the same. *)
Theorem forwarder_blind ord es1 es2 s :
  Forall2 blind es1 es2 → (sys_run ord es1 s).1 = (sys_run ord es2 s).1.
Proof.
  intros H. revert s. induction H as [|e1 e2 es1 es2 He _ IH]; intros s; [done|].
  assert ((sys_step ord e1 s).1 = (sys_step ord e2 s).1) as Hs.
  { destruct He as [|? ? ? ? ? ? ? H1 H2]; [done|].
    rewrite (step_name _ _ _ _ _ _ _ H1), (step_name _ _ _ _ _ _ _ H2). by f_equal; apply observe_name. }
  cbn [sys_run]. destruct (sys_step ord e1 s) as [s1 l1], (sys_step ord e2 s) as [s2 l2].
  cbn [fst] in Hs. subst s2. specialize (IH s1).
  by destruct (sys_run ord es1 s1), (sys_run ord es2 s1).
Qed.

(** ** The exchange completes *)
Lemma observe_resolve_ok b now r : r_inv r → r_streams r !! rb_stream_id b = None →
  Z.of_nat (size (r_streams r)) < r_max_streams (r_policy r) → r_pending r < r_max_pending (r_policy r) →
  observe_resolve b now r
  = (mkResolver (r_policy r) (<[rb_stream_id b := resolve_entry (rb_target b) now]> (r_streams r)) (r_pending r + 1),
     Ok (resolve_decision b)).
Proof.
  intros I Hn Hs Hp. destruct (observe_resolve_outcome b now r I) as [[e He]|[He _]]; [exfalso|done].
  destruct (rv_pol r I) as [[] []].
  unfold observe_resolve, st_bind, st_get, st_mod, st_ret, st_err in He.
  rewrite Hn, (bool_decide_false (is_Some None)), (wrap_small (Z.of_nat _)), !bool_decide_false in He by (lia || by intros []).
  by destruct (rb_target b).
Qed.

Lemma observe_handoff_ok b now f : f_inv f → f_streams f !! hb_stream_id b = None →
  Z.of_nat (size (f_streams f)) < f_max_streams (f_policy f) → f_pending f < f_max_pending (f_policy f) →
  observe_handoff b now f
  = (mkForwarder (f_policy f) (<[hb_stream_id b := mkFEntry Connecting (hb_addr b) now]> (f_streams f))
       (f_pending f + 1), Ok tt).
Proof.
  intros I Hn Hs Hp. destruct (observe_handoff_outcome b now f I) as [[e He]|[He _]]; [exfalso|done].
  destruct (fv_pol f I) as [[] []].
  unfold observe_handoff, st_bind, st_get, st_mod, st_err in He.
  by rewrite Hn, (bool_decide_false (is_Some None)), (wrap_small (Z.of_nat _)), !bool_decide_false in He by (lia || by intros []).
Qed.

Lemma record_resolution_ok id a now r e : r_streams r !! id = Some e → re_state e = Resolving →
  record_resolution id a now r
  = (mkResolver (r_policy r) (<[id := mkREntry Handing (re_port e) now]> (r_streams r)) (r_pending r),
     Ok (mkHandoff id (mkAddr a (re_port e)))).
Proof.
  intros He Hst. unfold record_resolution, st_bind, st_get. rewrite He, Hst.
  by rewrite bool_decide_false by (intros HH; by apply HH).
Qed.

Lemma connect_ok id f e : f_inv f → f_streams f !! id = Some e → fe_state e = Connecting →
  record_connect_result id StatusOk f
  = (mkForwarder (f_policy f) (<[id := mkFEntry FOpen (fe_dest e) (fe_entered e)]> (f_streams f)) (f_pending f - 1),
     Ok (mkResult id StatusOk)).
Proof.
  intros I He Hst. destruct (connect_result_outcome id StatusOk f I) as [[x Hx]|(x & Hx & _ & ->)]; [exfalso|].
  - unfold record_connect_result, st_bind, st_get in Hx. rewrite He, Hst in Hx.
    by rewrite bool_decide_false in Hx by (intros HH; by apply HH).
  - by assert (x = e) as -> by congruence.
Qed.

Lemma result_ok id r e : r_inv r → r_streams r !! id = Some e → re_state e = Handing →
  observe_handoff_result (mkResult id StatusOk) r
  = (mkResolver (r_policy r) (<[id := mkREntry ROpen (re_port e) (re_entered e)]> (r_streams r)) (r_pending r - 1),
     Ok StatusOk).
Proof.
  intros I He Hst. destruct (observe_result_outcome (mkResult id StatusOk) r I) as [[x Hx]|(x & Hx & _ & ->)]; [exfalso|].
  - unfold observe_handoff_result, st_bind, st_get in Hx. cbn [hr_stream_id] in Hx. rewrite He, Hst in Hx.
    by rewrite bool_decide_false in Hx by (intros HH; by apply HH).
  - cbn in Hx. by assert (x = e) as -> by congruence.
Qed.

(** Room for one more stream under an unused id. *)
Definition r_room (r : ResolverState) (id : Z) : Prop :=
  r_streams r !! id = None ∧ Z.of_nat (size (r_streams r)) < r_max_streams (r_policy r)
  ∧ r_pending r < r_max_pending (r_policy r).
Definition f_room (f : ForwarderState) (id : Z) : Prop :=
  f_streams f !! id = None ∧ Z.of_nat (size (f_streams f)) < f_max_streams (f_policy f)
  ∧ f_pending f < f_max_pending (f_policy f).

Definition not_mapped (a : IpAddr) : Prop :=
  match a with IpV4 _ => True | IpV6 o => is_ipv4_mapped o = false end.

Lemma handoff_encode_ok id a p : id ≠ 0 → p ≠ 0 → not_mapped a →
  is_Some (match HandoffBody_encode (mkHandoff id (mkAddr a p)) with Ok bs => Some bs | Err _ => None end).
Proof.
  intros Hid Hp Ha. unfold HandoffBody_encode. cbn [hb_stream_id hb_addr port ip].
  rewrite !bool_decide_false by done. destruct a; [by eexists|]. cbn in Ha. rewrite Ha. by eexists.
Qed.

Lemma resolve_encode_nonzero b bs : ResolveBody_encode b = Ok bs →
  rb_stream_id b ≠ 0 ∧ resolve_port (rb_target b) ≠ 0.
Proof. unfold ResolveBody_encode. by repeat case_bool_decide. Qed.

(** An IPv4-mapped answer moves the stream to [Handing], but its HANDOFF does not
    encode: nothing is sent, and the stream waits for the sweep. *)
Lemma mapped_answer_stalls ord s id o now e :
  r_streams (sR s) !! id = Some e → re_state e = Resolving → is_ipv4_mapped o = true →
  let s' := (sys_step ord (DnsDone id (IpV6 o) now) s).1 in
  r_stream_state (sR s') id = Some Handing ∧ toF s' = toF s ∧ toR s' = toR s ∧ sF s' = sF s.
Proof.
  intros He Hs Ho. cbn [sys_step]. unfold record_resolution, st_bind, st_get, st_mod, st_ret. rewrite He, Hs.
  rewrite bool_decide_false by (intros H; by apply H). unfold emit_handoff, HandoffBody_encode.
  cbn [hb_stream_id hb_addr port ip]. rewrite Ho.
  assert (Hl : re_state <$> r_streams (r_insert id (mkREntry Handing (re_port e) now) (sR s)) !! id = Some Handing)
    by (cbn; by rewrite lookup_insert_eq).
  case_bool_decide; [done|]. case_bool_decide; done.
Qed.

(** C25: From any state of the two hops with room for the stream and nothing in
    flight, a client's encoded RESOLVE of a name, the resolver's answer (an IPv4
    address, or an IPv6 address that is not an IPv4-mapped one, for which
    see [mapped_answer_stalls]), the HANDOFF, a successful connect and its result
    leave the stream open at both hops, the forwarder connected to the answered
    address at the requested port, nothing in flight, and both pending counters as
    they were. *)
Theorem split_exit_opens ord s id d p a bs t0 t1 t2 :
  r_inv (sR s) → f_inv (sF s) → toF s = [] → toR s = [] → r_room (sR s) id → f_room (sF s) id →
  resolve_typed (mkResolve id (Domain d p)) → ResolveBody_encode (mkResolve id (Domain d p)) = Ok bs →
  ip_typed a → not_mapped a →
  let s' := (sys_run ord [ClientResolve bs t0; DnsDone id a t1; HandoffArrives t2; Connected id StatusOk; ResultArrives] s).1 in
  r_stream_state (sR s') id = Some ROpen ∧ f_stream_state (sF s') id = Some FOpen
  ∧ f_stream_dest (sF s') id = Some (mkAddr a p) ∧ toF s' = [] ∧ toR s' = []
  ∧ r_pending (sR s') = r_pending (sR s) ∧ f_pending (sF s') = f_pending (sF s).
Proof.
  destruct s as [r f qF qR]. cbn [sR sF toF toR]. intros Ir If -> -> (Rn & Rs & Rp) (Fn & Fs & Fp) Hty Henc Ha Hm.
  destruct (resolve_encode_nonzero _ _ Henc) as [Hid0 Hp0]. cbn [rb_stream_id rb_target] in Hid0, Hp0.
  apply resolve_roundtrip in Henc; [|done]. pose proof Hty as (Hid & Hp & _). cbn [rb_stream_id rb_target] in Hid, Hp.
  destruct (handoff_encode_ok id a p Hid0 Hp0 Hm) as [hbs Hh].
  destruct (HandoffBody_encode _) as [x|] eqn:Eh in Hh; [|done]. injection Hh as ->.
  pose proof (handoff_roundtrip (mkHandoff id (mkAddr a p)) hbs (conj Hid (conj Ha Hp)) Eh) as Dh.
  destruct (HandoffResultBody_encode (mkResult id StatusOk)) as [rbs|] eqn:Er.
  2: { unfold HandoffResultBody_encode in Er. cbn [hr_stream_id] in Er. by rewrite bool_decide_false in Er. }
  pose proof (result_roundtrip (mkResult id StatusOk) rbs Hid Er) as Dr.
  pose proof (observe_resolve_inv _ t0 r Hty Hid0 Ir) as I1.
  rewrite observe_resolve_ok in I1 by done. cbn [fst rb_stream_id rb_target resolve_entry] in I1.
  pose proof (record_resolution_inv id a t1 _ I1) as I2.
  erewrite record_resolution_ok in I2 by (apply lookup_insert_eq || done).
  pose proof (observe_handoff_inv (mkHandoff id (mkAddr a p)) t2 f Hid Hid0 If) as J1.
  rewrite observe_handoff_ok in J1 by done. cbn [fst snd r_policy r_streams r_pending re_port hb_stream_id hb_addr] in *.
  cbn [sys_run sys_step sR]. rewrite Henc, observe_resolve_ok by done.
  cbn [resolve_decision rb_target rb_stream_id resolve_entry set_sR sR sF toF toR sys_step].
  erewrite record_resolution_ok by (apply lookup_insert_eq || done). cbn [re_port r_policy r_streams r_pending].
  unfold emit_handoff. rewrite Eh. cbn [app set_sR sR sF toF toR]. rewrite Dh.
  cbn [sF sR set_sF toF toR fst]. rewrite observe_handoff_ok by done. cbn [fst hb_stream_id hb_addr].
  erewrite connect_ok by (done || apply lookup_insert_eq). rewrite Er. cbn [app sF sR toF toR fst fe_dest fe_entered f_policy f_streams f_pending].
  rewrite Dr. erewrite result_ok by (done || apply lookup_insert_eq).
  cbn [fst set_sR sR sF toF toR r_pending f_pending].
  cbn [r_streams f_streams]. rewrite !lookup_insert_eq. split_and!; done || lia.
Qed.

(** ** Concrete runs *)
Module SplitDemo.
Definition ord : SOrders := mkSOrders map_to_list map_to_list.
Definition start : Sys := sys_new ResolverPolicy_default ForwarderPolicy_default.
Definition name1 : list byte := String.list_byte_of_string "example.org".
Definition name2 : list byte := String.list_byte_of_string "other.example".
Definition bytes_of (r : result SplitExitError (list byte)) : list byte :=
  match r with Ok bs => bs | Err _ => [] end.
Definition request (id : Z) (t : ResolveTarget) : list byte := bytes_of (ResolveBody_encode (mkResolve id t)).
Definition addr1 : IpAddr := IpV4 [x0a; x00; x00; x01].
Definition addr2 : IpAddr := IpV4 [x0a; x00; x00; x02].
Definition lookup_of (name : list byte) : list SEv :=
  [ClientResolve (request 7 (Domain name 443)) 0; DnsDone 7 addr1 (secs 1); HandoffArrives (secs 2);
   Connected 7 StatusOk; ResultArrives].

(** A request that the resolver gave up, and its stream id requested again. *)
Definition reused : list SEv :=
  [ClientResolve (request 7 (Ipv4 [x0a; x00; x00; x01] 80)) 0; HandoffArrives (secs 1);
   Connected 7 StatusOk; SweepR (secs 15);
   ClientResolve (request 7 (Ipv4 [x0a; x00; x00; x02] 80)) (secs 16); ResultArrives; HandoffArrives (secs 17)].
End SplitDemo.

Lemma split_exit_agrees_witness :
  ∃ b a, LResolve b ∈ (sys_run SplitDemo.ord (SplitDemo.lookup_of SplitDemo.name1) SplitDemo.start).2
    ∧ rb_stream_id b = 7
    ∧ fulfils (sys_run SplitDemo.ord (SplitDemo.lookup_of SplitDemo.name1) SplitDemo.start).2 b a.
Proof.
  destruct (split_exit_agrees SplitDemo.ord ResolverPolicy_default ForwarderPolicy_default
    (SplitDemo.lookup_of SplitDemo.name1) 7) as (b & a & H1 & H2 & H3 & _).
  1-6: vm_decide.
  - vm_compute. reflexivity.
  - exists b, a. split_and!; assumption.
Defined.

Lemma split_exit_caps_witness :
  r_inv (sR (sys_run SplitDemo.ord SplitDemo.reused SplitDemo.start).1).
Proof.
  apply (split_exit_caps SplitDemo.ord ResolverPolicy_default ForwarderPolicy_default SplitDemo.reused).
  all: vm_decide.
Defined.

Lemma forwarder_blind_witness :
  (sys_run SplitDemo.ord (SplitDemo.lookup_of SplitDemo.name1) SplitDemo.start).1
  = (sys_run SplitDemo.ord (SplitDemo.lookup_of SplitDemo.name2) SplitDemo.start).1.
Proof.
  apply (forwarder_blind SplitDemo.ord _ _ SplitDemo.start). unfold SplitDemo.lookup_of.
  constructor; [|repeat constructor].
  apply (blind_name _ _ _ 7 SplitDemo.name1 SplitDemo.name2 443); vm_compute; reflexivity.
Defined.

Lemma split_exit_opens_witness :
  r_stream_state (sR (sys_run SplitDemo.ord (SplitDemo.lookup_of SplitDemo.name1) SplitDemo.start).1) 7 = Some ROpen.
Proof.
  apply (split_exit_opens SplitDemo.ord SplitDemo.start 7 SplitDemo.name1 443 SplitDemo.addr1
    (SplitDemo.request 7 (Domain SplitDemo.name1 443)) 0 (secs 1) (secs 2)).
  - apply r_new_inv; vm_decide.
  - apply f_new_inv; vm_decide.
  - reflexivity.
  - reflexivity.
  - repeat split.
  - repeat split.
  - vm_decide.
  - vm_compute. reflexivity.
  - reflexivity.
  - exact I.
Defined.

(** Where a stream id is requested again, a result that was in flight opens the
    new stream: the resolver holds stream 7 as open for 10.0.0.2 while the
    forwarder is connected to 10.0.0.1 under that id and was never connected to
    10.0.0.2. The freshness hypothesis of the agreement theorem is needed. *)
Lemma stale_result_opens :
  let '(s, log) := sys_run SplitDemo.ord SplitDemo.reused SplitDemo.start in
  r_stream_state (sR s) 7 = Some ROpen
  ∧ last log = Some (LHandoff 7 (mkAddr SplitDemo.addr2 80))
  ∧ f_stream_dest (sF s) 7 = Some (mkAddr SplitDemo.addr1 80)
  ∧ f_stream_state (sF s) 7 = Some FOpen ∧ toF s = [] ∧ toR s = [].
Proof. vm_compute. repeat split. Qed.
