(* ===== verification/ReplayLog.v ===== *)
(** * The replay log on disk (crates/discovery/src/replay_log.rs)

    [PersistentReplayLog]: the append-only file behind the token replay set. The
    file is its bytes; the [BufWriter] is the bytes it still holds, with the
    standard library's behaviour on a failed flush: what the system accepted has
    left the buffer, the rest stays in it. How many bytes the system accepts
    before it reports an error is an argument of every flush; seeks on the open
    file succeed, and a read of a regular file returns all that is asked for or
    all that is left. *)

From stdpp Require Import base numbers list gmap strings.
From Stdlib Require Import ZArith Lia Strings.Byte.
From S2P Require Import Prelude Bytes.

(** ** Data *)
Abbreviation MRRL_MAGIC := (String.list_byte_of_string "MRRL") (only parsing).
Abbreviation MRRL_VERSION := x01 (only parsing).
Abbreviation MRRL_HEADER_LEN := 8%nat (only parsing).
Abbreviation MRRL_RECORD_LEN := 40%nat (only parsing).
Abbreviation BUF_CAPACITY := 8192%nat (only parsing).

Inductive ReplayLogError : Set := Io | BadHeader.

(** [file]: the content of the file behind the handle; [pending]: what the
    [BufWriter] holds. *)
Record PersistentReplayLog : Set := mkLog {
  file : list byte;
  pending : list byte;
  fsync_every_write : bool;
}.

Definition set_file (f : list byte) (l : PersistentReplayLog) : PersistentReplayLog :=
  mkLog f (pending l) (fsync_every_write l).

(** The outcomes of the system calls of one append: the bytes each flush gets
    accepted, and whether [sync_data] and [set_len] succeed. *)
Record Faults : Set := mkFaults {
  room_accepts : nat;
  flush_accepts : nat;
  sync_ok : bool;
  retry_accepts : nat;
  set_len_ok : bool;
}.

(** ** [BufWriter<File>] *)
Definition bw_flush (accepts : nat) (l : PersistentReplayLog) : PersistentReplayLog * result ReplayLogError unit :=
  (mkLog (file l ++ take accepts (pending l)) (drop accepts (pending l)) (fsync_every_write l),
   if bool_decide (length (pending l) ≤ accepts)%nat then Ok tt else Err Io).

(** [write_all] of a buffer smaller than the capacity: it is flushed first
    when it does not fit. *)
Definition bw_write_all (bs : list byte) (room : nat) (l : PersistentReplayLog)
  : PersistentReplayLog * result ReplayLogError unit :=
  let push l := mkLog (file l) (pending l ++ bs) (fsync_every_write l) in
  if bool_decide (BUF_CAPACITY - length (pending l) < length bs)%nat then
    match bw_flush room l with
    | (l', Err e) => (l', Err e)
    | (l', Ok _) => (push l', Ok tt)
    end
  else (push l, Ok tt).

(** ** Opening and reading *)

(** What [write_header] writes. *)
Definition header : list byte := splice (splice (replicate 8 x00) 0 MRRL_MAGIC) 4 [MRRL_VERSION].

Definition header_ok (content : list byte) : bool :=
  bool_decide (MRRL_HEADER_LEN <= length content)%nat
  && bool_decide (take 4 content = MRRL_MAGIC) && bool_decide (at_ content 4 = MRRL_VERSION).

(** Truncation to the last whole record. *)
Definition realigned (content : list byte) : list byte :=
  if bool_decide (MRRL_HEADER_LEN < length content)%nat
  then take (length content - (length content - MRRL_HEADER_LEN) mod MRRL_RECORD_LEN) content
  else content.

(** [disk]: the content at the path, [None] when there is no file. *)
Definition log_open (disk : option (list byte)) (fsync : bool) : result ReplayLogError PersistentReplayLog :=
  let? content :=
    match disk with
    | None => Ok header
    | Some [] => Ok header
    | Some c => if header_ok c then Ok c else Err BadHeader
    end in
  Ok (mkLog (realigned content) [] fsync).

Definition record_bytes (tid : list byte) (expires_at : Z) : list byte := tid ++ be_bytes 8 expires_at.

Definition write_record (rec : list byte) (flt : Faults) (l : PersistentReplayLog)
  : PersistentReplayLog * result ReplayLogError unit :=
  match bw_write_all rec (room_accepts flt) l with
  | (l, Err e) => (l, Err e)
  | (l, Ok _) =>
    match bw_flush (flush_accepts flt) l with
    | (l, Err e) => (l, Err e)
    | (l, Ok _) => (l, if fsync_every_write l && negb (sync_ok flt) then Err Io else Ok tt)
    end
  end.

Definition realign_to_record_boundary (flt : Faults) (l : PersistentReplayLog) : PersistentReplayLog :=
  let l := (bw_flush (retry_accepts flt) l).1 in
  if set_len_ok flt then set_file (realigned (file l)) l else l.

Definition append (token_id : list byte) (expires_at : Z) (flt : Faults) (l : PersistentReplayLog)
  : PersistentReplayLog * result ReplayLogError unit :=
  match write_record (record_bytes token_id expires_at) flt l with
  | (l, Err e) => (realign_to_record_boundary flt l, Err e)
  | (l, Ok _) => (l, Ok tt)
  end.

(** The loop of [load]; [fuel] bounds the number of records left. *)
Fixpoint read_loop (now_unix : Z) (fuel : nat) (rest : list byte) : list (list byte * Z) :=
  match fuel with
  | O => []
  | S fuel =>
    let rec := take MRRL_RECORD_LEN rest in
    if bool_decide (length rec < MRRL_RECORD_LEN)%nat then []
    else
      let token_id := take 32 rec in
      let expires_at := be_val (drop 32 rec) in
      let out := read_loop now_unix fuel (drop MRRL_RECORD_LEN rest) in
      if bool_decide (expires_at >= now_unix) then (token_id, expires_at) :: out else out
  end.

Definition load (disk : option (list byte)) (now_unix : Z) : result ReplayLogError (list (list byte * Z)) :=
  match disk with
  | None => Ok []
  | Some [] => Ok []
  | Some content =>
    if header_ok content
    then Ok (read_loop now_unix (length content) (drop MRRL_HEADER_LEN content))
    else Err BadHeader
  end.

(** The content of the file that replaces the log. *)
Definition compact (entries : list (list byte * Z)) : list byte :=
  header ++ concat ((λ e, record_bytes e.1 e.2) <$> entries).

(** ** Whole records *)
Definition rec_ok (r : list byte * Z) : Prop := length r.1 = 32%nat ∧ in_u64 r.2.
Definition enc (rs : list (list byte * Z)) : list byte := concat ((λ e, record_bytes e.1 e.2) <$> rs).

Lemma enc_app rs1 rs2 : enc (rs1 ++ rs2) = enc rs1 ++ enc rs2.
Proof. unfold enc. by rewrite fmap_app, concat_app. Qed.

Lemma enc_cons r rs : enc (r :: rs) = record_bytes r.1 r.2 ++ enc rs.
Proof. done. Qed.

Lemma length_record r : rec_ok r → length (record_bytes r.1 r.2) = 40%nat.
Proof. intros [H _]. unfold record_bytes. rewrite length_app, length_be_bytes, H. done. Qed.

Lemma length_enc rs : Forall rec_ok rs → length (enc rs) = (40 * length rs)%nat.
Proof.
  induction 1 as [|r rs Hr _ IH]; [done|]. rewrite enc_cons, length_app, length_record, IH by done. cbn [length]. lia.
Qed.

Lemma length_header : length header = 8%nat.
Proof. done. Qed.

(** A log of whole records: [fs] in the file, [ps] still in the buffer. *)
Record log_wf (l : PersistentReplayLog) (fs ps : list (list byte * Z)) : Prop := {
  lw_file : file l = header ++ enc fs;
  lw_pending : pending l = enc ps;
  lw_fs : Forall rec_ok fs;
  lw_ps : Forall rec_ok ps;
  lw_cap : (length (pending l) ≤ 8192)%nat;
}.

Lemma realigned_whole fs : Forall rec_ok fs → realigned (header ++ enc fs) = header ++ enc fs.
Proof.
  intros H. unfold realigned. case_bool_decide; [|done].
  rewrite length_app, length_header, length_enc by done.
  replace (8 + 40 * length fs - 8)%nat with (length fs * 40)%nat by lia.
  rewrite Nat.Div0.mod_mul, Nat.sub_0_r. apply take_ge. rewrite length_app, length_header, length_enc by done. lia.
Qed.

Lemma header_ok_whole x : header_ok (header ++ x) = true.
Proof.
  unfold header_ok. rewrite !bool_decide_true; [done| | |]; try done.
  rewrite length_app, length_header. lia.
Qed.

Lemma log_open_whole fs fsync : Forall rec_ok fs →
  log_open (Some (header ++ enc fs)) fsync = Ok (mkLog (header ++ enc fs) [] fsync).
Proof.
  intros H. unfold log_open. change (header ++ enc fs) with (x4d :: drop 1 header ++ enc fs) at 1.
  cbv iota beta. change (x4d :: drop 1 header ++ enc fs) with (header ++ enc fs).
  by rewrite header_ok_whole, realigned_whole.
Qed.

Lemma log_open_absent fsync : log_open None fsync = Ok (mkLog (header ++ enc []) [] fsync).
Proof. done. Qed.

(** Reading back: the unexpired records, in the order of the file. *)
Lemma read_loop_whole now fs fuel : Forall rec_ok fs → (length fs ≤ fuel)%nat →
  read_loop now fuel (enc fs) = filter (λ r, r.2 >= now) fs.
Proof.
  intros H. revert fuel. induction H as [|r fs Hr _ IH]; intros fuel Hf.
  - destruct fuel; done.
  - destruct fuel as [|fuel]; cbn [length] in Hf; [lia|]. cbn [read_loop]. rewrite enc_cons.
    pose proof (length_record r Hr) as Hl.
    rewrite (take_app_length' (record_bytes _ _)), (drop_app_length' (record_bytes _ _)) by done.
    rewrite bool_decide_false by lia. rewrite IH by lia. destruct Hr as [H32 Hu].
    unfold record_bytes. rewrite (take_app_length' r.1), (drop_app_length' r.1), be_u64_roundtrip by done.
    rewrite filter_cons. destruct r as [tid e]. cbn [fst snd]. repeat case_decide; case_bool_decide; done.
Qed.

Lemma load_whole now fs : Forall rec_ok fs →
  load (Some (header ++ enc fs)) now = Ok (filter (λ r, r.2 >= now) fs).
Proof.
  intros H. unfold load. change (header ++ enc fs) with (x4d :: drop 1 header ++ enc fs) at 1.
  cbv iota beta. change (x4d :: drop 1 header ++ enc fs) with (header ++ enc fs).
  rewrite header_ok_whole. change (drop 8 (header ++ enc fs)) with (enc fs). f_equal.
  apply read_loop_whole; [done|]. rewrite length_app, length_enc by done. lia.
Qed.

Lemma load_absent now : load None now = Ok [].
Proof. done. Qed.

(** The system accepts a buffer as a whole or not at all. *)
Definition whole (n : nat) : Prop := n = 0%nat ∨ (8192 ≤ n)%nat.
Definition whole_faults (flt : Faults) : Prop :=
  whole (room_accepts flt) ∧ whole (flush_accepts flt) ∧ whole (retry_accepts flt).
#[global] Instance whole_dec n : Decision (whole n).
Proof. unfold whole. apply _. Defined.
#[global] Instance whole_faults_dec flt : Decision (whole_faults flt).
Proof. unfold whole_faults. apply _. Defined.

Lemma flush_whole n l fs ps : whole n → log_wf l fs ps →
  (bw_flush n l).2 = Ok tt ∧ log_wf (bw_flush n l).1 (fs ++ ps) [] ∨
  (bw_flush n l).2 = Err Io ∧ log_wf (bw_flush n l).1 fs ps.
Proof.
  intros Hn [Hf Hp Hfs Hps Hc]. unfold bw_flush. cbn [fst snd].
  case_bool_decide as Hl; [left|right]; (split; [done|]).
  - rewrite take_ge, drop_ge by done. split; cbn [file pending]; [|done|by apply Forall_app|done|cbn; lia].
    by rewrite Hf, Hp, enc_app, app_assoc.
  - destruct Hn as [->|Hn]; [|lia]. rewrite take_0, drop_0, app_nil_r. by split.
Qed.

Lemma realign_whole flt l fs ps : whole_faults flt → log_wf l fs ps →
  log_wf (realign_to_record_boundary flt l) fs ps ∨ log_wf (realign_to_record_boundary flt l) (fs ++ ps) [].
Proof.
  intros (_ & _ & Hr) W.
  assert (∀ l fs ps, log_wf l fs ps → log_wf (if set_len_ok flt then set_file (realigned (file l)) l else l) fs ps) as Hs.
  { intros l0 fs0 ps0 []. destruct (set_len_ok flt); [|done]. split; cbn [set_file file pending]; try done.
    rewrite lw_file0. by apply realigned_whole. }
  unfold realign_to_record_boundary.
  destruct (flush_whole _ l fs ps Hr W) as [[_ W']|[_ W']]; [right|left]; by apply Hs.
Qed.

(** Pushing a record: the buffer is flushed first when it is full. *)
Lemma push_whole tid e room l fs ps : whole room → log_wf l fs ps → rec_ok (tid, e) →
  (bw_write_all (record_bytes tid e) room l).2 = Ok tt
    ∧ (log_wf (bw_write_all (record_bytes tid e) room l).1 fs (ps ++ [(tid, e)])
       ∨ log_wf (bw_write_all (record_bytes tid e) room l).1 (fs ++ ps) [(tid, e)]) ∨
  (bw_write_all (record_bytes tid e) room l).2 = Err Io
    ∧ log_wf (bw_write_all (record_bytes tid e) room l).1 fs ps.
Proof.
  intros Hn W Hr. pose proof (length_record _ Hr) as Hl. cbn [fst snd] in Hl.
  assert (∀ l fs ps, log_wf l fs ps → (length (pending l) + 40 ≤ 8192)%nat →
    log_wf (mkLog (file l) (pending l ++ record_bytes tid e) (fsync_every_write l)) fs (ps ++ [(tid, e)])) as Hpush.
  { intros l0 fs0 ps0 [] Hroom. split; cbn [file pending]; try done.
    - rewrite lw_pending0, enc_app, enc_cons. cbn [fst snd]. by rewrite app_nil_r.
    - by apply Forall_app; split; [|constructor].
    - rewrite length_app, Hl. done. }
  unfold bw_write_all. pose proof (lw_cap _ _ _ W). case_bool_decide as Hs.
  - destruct (flush_whole room l fs ps Hn W) as [[Hok W']|[Herr W']].
    + left. destruct (bw_flush room l) as [l' r]. cbn [fst snd] in *. rewrite Hok. cbn [fst snd]. split; [done|].
      right. apply (Hpush l' (fs ++ ps) [] W'). rewrite (lw_pending _ _ _ W'). cbn. lia.
    + right. destruct (bw_flush room l) as [l' r]. cbn [fst snd] in *. by rewrite Herr.
  - left. split; [done|]. left. apply Hpush; [done|]. lia.
Qed.

(** An append with whole writes: every record stays whole, in the order of the
    attempts; a success leaves the record in the file. *)
Lemma append_whole tid e flt l fs ps : whole_faults flt → log_wf l fs ps → rec_ok (tid, e) →
  ∃ fs' ps' q, log_wf (append tid e flt l).1 fs' ps' ∧ fs' ++ ps' = fs ++ ps ++ q
    ∧ (q = [] ∨ q = [(tid, e)]) ∧ (∃ x, fs' = fs ++ x)
    ∧ ((append tid e flt l).2 = Ok tt → ps' = [] ∧ q = [(tid, e)]).
Proof.
  intros Hw W Hr. destruct Hw as (Hroom & Hflush & Hretry) eqn:EHw. clear EHw.
  assert (∀ l1 fs1 ps1 q, log_wf l1 fs1 ps1 → fs1 ++ ps1 = fs ++ ps ++ q → (q = [] ∨ q = [(tid, e)]) →
    (∃ x, fs1 = fs ++ x) → ∃ fs' ps' q, log_wf (realign_to_record_boundary flt l1) fs' ps'
      ∧ fs' ++ ps' = fs ++ ps ++ q ∧ (q = [] ∨ q = [(tid, e)]) ∧ (∃ x, fs' = fs ++ x)) as Hre.
  { intros l1 fs1 ps1 q W1 Heq Hq [x Hx].
    destruct (realign_whole flt l1 fs1 ps1 (conj Hroom (conj Hflush Hretry)) W1) as [W2|W2].
    - exists fs1, ps1, q. eauto.
    - exists (fs1 ++ ps1), [], q. rewrite app_nil_r. split_and!; [done..|]. exists (ps ++ q). by rewrite Heq. }
  unfold append, write_record.
  destruct (push_whole tid e (room_accepts flt) l fs ps Hroom W Hr) as [[Hok Hcase]|[Herr W1]].
  - destruct (bw_write_all _ _ l) as [l1 r1]. cbn [fst snd] in Hok, Hcase. rewrite Hok.
    assert (∃ fs1 ps1, log_wf l1 fs1 ps1 ∧ fs1 ++ ps1 = fs ++ ps ++ [(tid, e)] ∧ ∃ x, fs1 = fs ++ x) as (fs1 & ps1 & W1 & Heq & Hx).
    { destruct Hcase as [W1|W1]; [exists fs, (ps ++ [(tid, e)])|exists (fs ++ ps), [(tid, e)]].
      - split_and!; [done..|]. exists []. by rewrite app_nil_r.
      - split_and!; [done|by rewrite app_assoc|]. by exists ps. }
    destruct (flush_whole (flush_accepts flt) l1 fs1 ps1 Hflush W1) as [[Hok2 W2]|[Herr2 W2]];
      destruct (bw_flush _ l1) as [l2 r2]; cbn [fst snd] in *.
    + rewrite Hok2. destruct (fsync_every_write l2 && negb (sync_ok flt)); cbn [fst snd].
      * destruct (Hre l2 (fs1 ++ ps1) [] [(tid, e)]) as (fs' & ps' & q & ?); [done|by rewrite app_nil_r|by right| |].
        { exists (ps ++ [(tid, e)]). by rewrite Heq. }
        exists fs', ps', q. naive_solver.
      * exists (fs1 ++ ps1), [], [(tid, e)]. rewrite app_nil_r. split_and!; [done|done|by right| |done].
        exists (ps ++ [(tid, e)]). by rewrite Heq.
    + rewrite Herr2. cbn [fst snd].
      destruct (Hre l2 fs1 ps1 [(tid, e)]) as (fs' & ps' & q & ?); [done|done|by right|done|].
      exists fs', ps', q. naive_solver.
  - destruct (bw_write_all _ _ l) as [l1 r1]. cbn [fst snd] in *. rewrite Herr. cbn [fst snd].
    destruct (Hre l1 fs ps []) as (fs' & ps' & q & ?); [done|by rewrite app_nil_r|by left|exists []; by rewrite app_nil_r|].
    exists fs', ps', q. naive_solver.
Qed.
