(* ===== verification/ReplaySet.v ===== *)
(** * Single-use tokens across restarts (crates/discovery/src/replay.rs)

    [ReplaySet], the set of token ids a bridge has accepted, with its log on
    disk, and a bridge process that presents tokens to it, evicts, dies and
    starts again on the same file. The theorem: a token is accepted at most once
    before its expiry, whatever dies in between. *)

From stdpp Require Import base numbers list gmap strings.
From Stdlib Require Import ZArith Lia Strings.Byte Sorting.Sorted.
From S2P Require Import Prelude Bytes ReplayLog.

(** ** The set *)
Record ReplaySet : Type := mkSet {
  rs_entries : gmap (list byte) Z;
  max_entries : Z;
  rs_log : option PersistentReplayLog;
}.

Abbreviation ReplaySet_new max := (mkSet ∅ max None) (only parsing).

Definition set_entries (m : gmap (list byte) Z) (s : ReplaySet) : ReplaySet :=
  mkSet m (max_entries s) (rs_log s).

Abbreviation rs_len s := (Z.of_nat (size (rs_entries s))) (only parsing).

Definition evict_expired (now_unix : Z) (s : ReplaySet) : ReplaySet :=
  set_entries (filter (λ p, p.2 >= now_unix) (rs_entries s)) s.

Definition rs_remove (tid : list byte) (s : ReplaySet) : ReplaySet * bool :=
  (set_entries (delete tid (rs_entries s)) s, bool_decide (is_Some (rs_entries s !! tid))).

(** The insertion once there is room: the record goes to disk before the
    token counts as accepted, and a failed write takes it back. *)
Definition insert_and_log (tid : list byte) (expires_at : Z) (flt : Faults) (s : ReplaySet) : ReplaySet * bool :=
  let s := set_entries (<[tid := expires_at]> (rs_entries s)) s in
  match rs_log s with
  | None => (s, true)
  | Some log =>
    match append tid expires_at flt log with
    | (log, Err _) => (mkSet (delete tid (rs_entries s)) (max_entries s) (Some log), false)
    | (log, Ok _) => (mkSet (rs_entries s) (max_entries s) (Some log), true)
    end
  end.

Definition check_and_insert (tid : list byte) (expires_at now_unix : Z) (flt : Faults) (s : ReplaySet)
  : ReplaySet * bool :=
  if bool_decide (is_Some (rs_entries s !! tid)) then (s, false)
  else if bool_decide (rs_len s >= max_entries s) then
    let s := evict_expired now_unix s in
    if bool_decide (rs_len s >= max_entries s) then (s, false)
    else insert_and_log tid expires_at flt s
  else insert_and_log tid expires_at flt s.

(** [SyncReplaySet]: the set behind a mutex, which a panic of a holder poisons. *)
Record SyncReplaySet : Type := mkSync { sy_inner : ReplaySet; sy_poisoned : bool }.

Definition sync_evict_expired (now_unix : Z) (s : SyncReplaySet) : SyncReplaySet :=
  if sy_poisoned s then s else mkSync (evict_expired now_unix (sy_inner s)) false.

Definition sync_check_and_insert (tid : list byte) (expires_at now_unix : Z) (flt : Faults) (s : SyncReplaySet)
  : SyncReplaySet * bool :=
  if sy_poisoned s then (s, false)
  else let (r, ok) := check_and_insert tid expires_at now_unix flt (sy_inner s) in (mkSync r false, ok).

(** The outcomes of start-up's system calls. *)
Record StartIo : Set := mkStartIo {
  load_ok : bool;
  drop_accepts : nat;
  compact_ok : bool;
  reopen_ok : bool;
}.

Section restore.
(** [sort_unstable_by] on the expiry, descending. *)
Context (sort : list (list byte * Z) → list (list byte * Z)).

Definition retained (max : Z) (entries : list (list byte * Z)) : list (list byte * Z) :=
  if bool_decide (zlen entries > max) then take (Z.to_nat max) (sort entries) else entries.

(** The content of the file afterwards, and the set. *)
Definition new_with_log (max : Z) (log : PersistentReplayLog) (now_unix : Z) (io : StartIo)
  : list byte * result ReplayLogError ReplaySet :=
  let dropped := (bw_flush (drop_accepts io) log).1 in
  if negb (load_ok io) then (file dropped, Err Io)
  else
    match load (Some (file log)) now_unix with
    | Err e => (file dropped, Err e)
    | Ok entries =>
      if negb (compact_ok io) then (file dropped, Err Io)
      else
        let content := compact entries in
        if negb (reopen_ok io) then (content, Err Io)
        else
          match log_open (Some content) (fsync_every_write log) with
          | Err e => (content, Err e)
          | Ok fresh =>
            let m := foldl (λ m e, <[e.1 := e.2]> m) ∅ (retained max entries) in
            (file fresh, Ok (mkSet m max (Some fresh)))
          end
    end.

(** ** The bridge process and its file *)
Record World : Type := mkWorld { disk : option (list byte); proc : option ReplaySet }.

Inductive REv : Set :=
| Present (tid : list byte) (expires_at now : Z) (flt : Faults)
| Evict (now : Z)
| Kill
| Stop (accepts : nat)
| Start (fsync : bool) (max now : Z) (io : StartIo).

(** What the process leaves at the path: [Kill] loses the buffer, [Stop] drops
    the writer, which flushes what the system accepts. *)
Definition left_behind (accepts : nat) (s : ReplaySet) (d : option (list byte)) : option (list byte) :=
  match rs_log s with Some log => Some (file (bw_flush accepts log).1) | None => d end.

Definition world_step (e : REv) (w : World) : World * list (list byte * Z * Z) :=
  match e, proc w with
  | Present tid exp now flt, Some s =>
    let (s, ok) := check_and_insert tid exp now flt s in
    (mkWorld (disk w) (Some s), if ok then [(tid, exp, now)] else [])
  | Evict now, Some s => (mkWorld (disk w) (Some (evict_expired now s)), [])
  | Kill, Some s => (mkWorld (left_behind 0 s (disk w)) None, [])
  | Stop accepts, Some s => (mkWorld (left_behind accepts s (disk w)) None, [])
  | Start fsync max now io, None =>
    match log_open (disk w) fsync with
    | Err _ => (w, [])
    | Ok log =>
      match new_with_log max log now io with
      | (content, Err _) => (mkWorld (Some content) None, [])
      | (content, Ok s) => (mkWorld (Some content) (Some s), [])
      end
    end
  | _, _ => (w, [])
  end.

Fixpoint world_run (es : list REv) (w : World) : World * list (list byte * Z * Z) :=
  match es with
  | [] => (w, [])
  | e :: es =>
    let (w1, a1) := world_step e w in
    let (w2, a2) := world_run es w1 in (w2, a1 ++ a2)
  end.

(** Every start finds no more unexpired records than the set may hold. *)
Definition start_fits (e : REv) (w : World) : bool :=
  match e, proc w with
  | Start _ max now _, None =>
    match load (disk w) now with Ok es => bool_decide (zlen es <= max) | Err _ => true end
  | _, _ => true
  end.

Fixpoint run_fits (es : list REv) (w : World) : bool :=
  match es with
  | [] => true
  | e :: es => start_fits e w && run_fits es (world_step e w).1
  end.
End restore.

Definition rev_typed (e : REv) : Prop :=
  match e with
  | Present tid exp _ flt => rec_ok (tid, exp) ∧ whole_faults flt
  | Stop accepts => whole accepts
  | Start _ _ _ io => whole (drop_accepts io)
  | _ => True
  end.
#[global] Instance rec_ok_dec r : Decision (rec_ok r).
Proof. unfold rec_ok. apply _. Defined.
#[global] Instance rev_typed_dec e : Decision (rev_typed e).
Proof. unfold rev_typed. destruct e; apply _. Defined.

(** The clock of the events never goes back. *)
Definition clock (t : Z) (e : REv) : Z :=
  match e with Present _ _ now _ | Evict now | Start _ _ now _ => now | _ => t end.
Fixpoint clock_ok (t : Z) (es : list REv) : Prop :=
  match es with [] => True | e :: es => t <= clock t e ∧ clock_ok (clock t e) es end.

(** No token is accepted again before the expiry it was accepted with. *)
Definition single_use (acc : list (list byte * Z * Z)) : Prop :=
  ∀ i j tid e1 n1 e2 n2, (i < j)%nat → acc !! i = Some (tid, e1, n1) → acc !! j = Some (tid, e2, n2) → e1 < n2.

(** ** Proof *)
Lemma single_use_snoc acc tid e n : single_use acc →
  (∀ e1 n1, (tid, e1, n1) ∈ acc → e1 < n) → single_use (acc ++ [(tid, e, n)]).
Proof.
  intros H Hnew i j tid' e1 n1 e2 n2 Hij Hi Hj.
  apply lookup_app_Some in Hj as [Hj|[Hge Hj]].
  - rewrite lookup_app_l in Hi by (apply lookup_lt_Some in Hj; lia). by eapply H.
  - apply list_lookup_singleton_Some in Hj as [Hj0 Hj]. simplify_eq.
    rewrite lookup_app_l in Hi by lia. eapply Hnew. by eapply list_elem_of_lookup_2.
Qed.

Lemma single_use_last acc tid e n e1 n1 : single_use (acc ++ [(tid, e, n)]) → (tid, e1, n1) ∈ acc → e1 < n.
Proof.
  intros H [i Hi]%list_elem_of_lookup. apply (H i (length acc) tid e1 n1 e n (lookup_lt_Some _ _ _ Hi)).
  - by rewrite lookup_app_l by (by eapply lookup_lt_Some).
  - by apply list_lookup_middle.
Qed.

(** The last record of a token, in the file and with nothing of it buffered. *)
Definition last_rec (fs ps : list (list byte * Z)) (tid : list byte) (e : Z) : Prop :=
  ∃ l1 l2, fs = l1 ++ (tid, e) :: l2 ∧ tid ∉ l2.*1 ∧ tid ∉ ps.*1.

Lemma last_rec_append fs ps q tid e fs' ps' x : last_rec fs ps tid e → tid ∉ q.*1 →
  fs' ++ ps' = fs ++ ps ++ q → fs' = fs ++ x → last_rec fs' ps' tid e.
Proof.
  intros (l1 & l2 & -> & H2 & Hp) Hq Heq ->. rewrite <- app_assoc in Heq. apply app_inv_head in Heq.
  assert (tid ∉ (x ++ ps').*1) as Hx by (rewrite Heq, fmap_app; set_solver).
  rewrite fmap_app in Hx. exists l1, (l2 ++ x). rewrite <- app_assoc. split; [done|]. rewrite fmap_app. set_solver.
Qed.

Lemma last_rec_filter fs tid e now : last_rec fs [] tid e → now <= e →
  last_rec (filter (λ r, r.2 >= now) fs) [] tid e.
Proof.
  intros (l1 & l2 & -> & H2 & _) He. rewrite filter_app, filter_cons_True by (cbn; lia).
  eexists _, _. split; [done|]. split; [|set_solver]. intros Hin. apply H2.
  apply list_elem_of_fmap in Hin as (r & -> & Hr). apply list_elem_of_filter in Hr as [_ Hr].
  by apply list_elem_of_fmap_2.
Qed.

Lemma restore_lookup (fs : list (list byte * Z)) (tid : list byte) (e : Z) (m : gmap (list byte) Z) : last_rec fs [] tid e →
  foldl (λ (m : gmap (list byte) Z) r, <[r.1 := r.2]> m) m fs !! tid = Some e.
Proof.
  intros (l1 & l2 & -> & H2 & _). rewrite foldl_app. cbn [foldl fst snd].
  generalize (foldl (λ (m : gmap (list byte) Z) r, <[r.1 := r.2]> m) m l1). clear m. intros m.
  assert (<[tid := e]> m !! tid = Some e) as Hm by apply lookup_insert_eq.
  revert Hm. generalize (<[tid := e]> m). clear m. induction l2 as [|[k x] l2 IH]; intros m Hm; [done|].
  cbn [foldl fst snd]. apply IH; [set_solver|]. rewrite lookup_insert_ne; [done|]. set_solver.
Qed.

Record world_inv (t : Z) (w : World) (acc : list (list byte * Z * Z)) (fs ps : list (list byte * Z)) : Prop := {
  wi_run : match proc w with
           | Some s => ∃ l, rs_log s = Some l ∧ log_wf l fs ps
           | None => ps = [] ∧ Forall rec_ok fs
                     ∧ (disk w = Some (header ++ enc fs) ∨ disk w = None ∧ fs = [])
           end;
  wi_acc tid e n : (tid, e, n) ∈ acc → t <= e →
    last_rec fs ps tid e ∧ ∀ s, proc w = Some s → rs_entries s !! tid = Some e;
  wi_once : single_use acc;
}.

Lemma evict_keeps now s tid e : rs_entries s !! tid = Some e → now <= e →
  rs_entries (evict_expired now s) !! tid = Some e.
Proof. intros. cbn. apply map_lookup_filter_Some. cbn. split; [done|lia]. Qed.

Lemma evict_log now s : rs_log (evict_expired now s) = rs_log s.
Proof. done. Qed.

(** Inserting a token that is not in the set. *)
Lemma insert_inv t d s acc fs ps tid e now flt : world_inv t (mkWorld d (Some s)) acc fs ps →
  rec_ok (tid, e) → whole_faults flt → t <= now → rs_entries s !! tid = None →
  (∀ k x n, (k, x, n) ∈ acc → now <= x → k ≠ tid) →
  ∃ fs' ps', world_inv now (mkWorld d (Some (insert_and_log tid e flt s).1))
    (acc ++ if (insert_and_log tid e flt s).2 then [(tid, e, now)] else []) fs' ps'.
Proof.
  intros [(l & Hl & W) Hacc Honce] Hr Hw Ht Hnone Hne. cbn [proc] in *.
  unfold insert_and_log. cbn [set_entries rs_log rs_entries max_entries]. rewrite Hl.
  destruct (append_whole tid e flt l fs ps Hw W Hr) as (fs' & ps' & q & W' & Heq & Hq & [x Hx] & Hok).
  assert (∀ k y n, (k, y, n) ∈ acc → now <= y → last_rec fs' ps' k y) as Hlast.
  { intros k y n Hk Hy. destruct (Hacc k y n Hk) as [Hlr _]; [lia|].
    eapply last_rec_append; [exact Hlr| |done|done]. pose proof (Hne k y n Hk Hy).
    destruct Hq as [->| ->]; set_solver. }
  exists fs', ps'. destruct (append tid e flt l) as [l' [[]|]] eqn:Ea; cbn [fst snd] in *.
  - destruct (Hok eq_refl) as [-> ->]. split; cbn [proc].
    + by exists l'.
    + intros k y n [Hk|Hk]%elem_of_app Hy.
      * split; [by eapply Hlast|]. intros ? [= <-]. cbn. rewrite lookup_insert_ne by (by apply not_eq_sym; eapply Hne).
        apply (proj2 (Hacc k y n Hk ltac:(lia))). done.
      * apply list_elem_of_singleton in Hk. simplify_eq. split; [|intros ? [= <-]; apply lookup_insert_eq].
        exists (fs ++ ps), []. rewrite app_nil_r in Heq. rewrite Heq, app_assoc. split; [done|]. set_solver.
    + apply single_use_snoc; [done|]. intros e1 n1 Hin. destruct (decide (e1 < now)) as [|Hge]; [done|].
      exfalso. eapply Hne; [exact Hin|lia|done].
  - rewrite app_nil_r. split; cbn [proc]; [by exists l'| |done].
    intros k y n Hk Hy. split; [by eapply Hlast|]. intros ? [= <-]. cbn.
    rewrite lookup_delete_ne, lookup_insert_ne by (by apply not_eq_sym; eapply Hne).
    apply (proj2 (Hacc k y n Hk ltac:(lia))). done.
Qed.

(** A later clock, and an eviction at it. *)
Lemma evict_inv t d s acc fs ps now : world_inv t (mkWorld d (Some s)) acc fs ps → t <= now →
  world_inv now (mkWorld d (Some (evict_expired now s))) acc fs ps.
Proof.
  intros [Hrun Hacc Honce] Ht. split; [exact Hrun| |done]. cbn [proc] in *.
  intros k y n Hk Hy. destruct (Hacc k y n Hk) as [? Hs]; [lia|]. split; [done|].
  intros ? [= <-]. apply evict_keeps; [by apply Hs|done].
Qed.

Lemma later_inv t w acc fs ps now : world_inv t w acc fs ps → t <= now → world_inv now w acc fs ps.
Proof. intros [? Hacc ?] Ht. split; [done| |done]. intros k y n Hk Hy. apply (Hacc k y n Hk). lia. Qed.

Lemma present_inv t d s acc fs ps tid e now flt : world_inv t (mkWorld d (Some s)) acc fs ps →
  rec_ok (tid, e) → whole_faults flt → t <= now →
  ∃ fs' ps', world_inv now (mkWorld d (Some (check_and_insert tid e now flt s).1))
    (acc ++ if (check_and_insert tid e now flt s).2 then [(tid, e, now)] else []) fs' ps'.
Proof.
  intros I Hr Hw Ht. unfold check_and_insert.
  case_bool_decide as Hin. { exists fs, ps. rewrite app_nil_r. by apply later_inv with t. }
  apply eq_None_not_Some in Hin.
  assert (∀ k x n, (k, x, n) ∈ acc → now <= x → k ≠ tid) as Hne.
  { intros k x n Hk Hx ->. pose proof (proj2 (wi_acc _ _ _ _ _ I _ _ _ Hk ltac:(lia)) s eq_refl). congruence. }
  pose proof (evict_inv _ _ _ _ _ _ _ I Ht) as I1.
  case_bool_decide; [case_bool_decide|].
  - exists fs, ps. by rewrite app_nil_r.
  - apply (insert_inv now d _ acc fs ps); try done.
    cbn. apply map_lookup_filter_None. by left.
  - by apply (insert_inv t d _ acc fs ps).
Qed.

(** The process ends: killed, or dropped with a last flush. *)
Lemma end_inv t d s acc fs ps n : world_inv t (mkWorld d (Some s)) acc fs ps → whole n →
  ∃ fs', world_inv t (mkWorld (left_behind n s d) None) acc fs' [].
Proof.
  intros [(l & Hl & W) Hacc Honce] Hn. cbn [proc] in *. unfold left_behind. rewrite Hl.
  assert (∀ k y m, (k, y, m) ∈ acc → t <= y → last_rec fs ps k y) as Hlast.
  { intros k y m Hk Hy. by apply (Hacc k y m Hk). }
  destruct (flush_whole n l fs ps Hn W) as [[_ W']|[_ W']]; [exists (fs ++ ps)|exists fs].
  all: destruct W' as [Hf _ Hfs _ _]; split; cbn [proc disk];
    [split_and!; [done|done|left; by rewrite Hf]| |done].
  - intros k y m Hk Hy. split; [|done].
    eapply (last_rec_append fs ps []); [by eapply Hlast|set_solver|by rewrite !app_nil_r|done].
  - intros k y m Hk Hy. split; [|done]. destruct (Hlast k y m Hk Hy) as (l1 & l2 & H1 & H2 & _).
    exists l1, l2. split_and!; [done..|set_solver].
Qed.

Lemma compact_open fs fsync : Forall rec_ok fs → log_open (Some (compact fs)) fsync = Ok (mkLog (header ++ enc fs) [] fsync).
Proof. apply log_open_whole. Qed.

Lemma live_ok (fs : list (list byte * Z)) now : Forall rec_ok fs → Forall rec_ok (filter (λ r, r.2 >= now) fs).
Proof.
  rewrite !Forall_forall. intros H r Hr. apply list_elem_of_filter in Hr as [_ Hr]. by apply H.
Qed.

(** Start-up on a file of whole records. *)
Lemma start_outcome sort max fsync fs now io : Forall rec_ok fs →
  let live := filter (λ r, r.2 >= now) fs in zlen live <= max →
  (∃ e, new_with_log sort max (mkLog (header ++ enc fs) [] fsync) now io = (header ++ enc fs, Err e)) ∨
  (∃ e, new_with_log sort max (mkLog (header ++ enc fs) [] fsync) now io = (header ++ enc live, Err e)) ∨
  new_with_log sort max (mkLog (header ++ enc fs) [] fsync) now io
  = (header ++ enc live,
     Ok (mkSet (foldl (λ m e, <[e.1 := e.2]> m) ∅ live) max (Some (mkLog (header ++ enc live) [] fsync)))).
Proof.
  intros Hfs live Hfit. unfold new_with_log, bw_flush. cbn [file pending fst fsync_every_write].
  rewrite take_nil, app_nil_r. rewrite load_whole by done. fold live.
  destruct (load_ok io); [|left; by eexists]. destruct (compact_ok io); [|left; by eexists]. right.
  destruct (reopen_ok io); [|left; by eexists]. right. cbn [negb].
  rewrite compact_open by by apply live_ok. cbn [file]. unfold retained. by rewrite bool_decide_false by lia.
Qed.

Lemma start_inv sort t d acc fs fsync max now io : world_inv t (mkWorld d None) acc fs [] → t <= now →
  start_fits (Start fsync max now io) (mkWorld d None) = true →
  ∃ fs' ps', world_inv now (world_step sort (Start fsync max now io) (mkWorld d None)).1 acc fs' ps'.
Proof.
  intros I Ht Hfit. destruct I as [(_ & Hfs & Hd) Hacc Honce]. cbn [proc disk] in *.
  assert (log_open d fsync = Ok (mkLog (header ++ enc fs) [] fsync)
    ∧ load d now = Ok (filter (λ r, r.2 >= now) fs)) as [Ho Hload].
  { destruct Hd as [->|[-> ->]]; [|done]. split; [by apply log_open_whole|by apply load_whole]. }
  cbn [start_fits proc disk] in Hfit. rewrite Hload in Hfit. apply bool_decide_eq_true in Hfit.
  cbn [world_step proc disk]. rewrite Ho.
  assert (∀ k y m, (k, y, m) ∈ acc → now <= y → last_rec fs [] k y) as Hlast.
  { intros k y m Hk Hy. apply (Hacc k y m Hk). lia. }
  destruct (start_outcome sort max fsync fs now io Hfs Hfit) as [[e ->]|[[e ->]| ->]]; cbn [fst].
  - exists fs, []. split; cbn [proc disk]; [by split_and!; [| |left]| |done].
    intros k y m Hk Hy. split; [by eapply Hlast|done].
  - eexists (filter _ fs), []. split; cbn [proc disk];
      [split_and!; [done|by apply live_ok|by left]| |done].
    intros k y m Hk Hy. split; [|done]. apply last_rec_filter; [by eapply Hlast|done].
  - eexists (filter _ fs), []. split; cbn [proc disk rs_log]; [| |done].
    + eexists. split; [done|]. split; [done|done|by apply live_ok|done|cbn; lia].
    + intros k y m Hk Hy. pose proof (last_rec_filter fs k y now (Hlast k y m Hk Hy) Hy) as Hl.
      split; [done|]. intros ? [= <-]. cbn. by apply restore_lookup.
Qed.

Lemma world_step_inv sort t e w acc fs ps : world_inv t w acc fs ps → rev_typed e →
  t <= clock t e → start_fits e w = true →
  ∃ fs' ps', world_inv (clock t e) (world_step sort e w).1 (acc ++ (world_step sort e w).2) fs' ps'.
Proof.
  intros I Hty Ht Hfit. destruct w as [d [s|]].
  - destruct e; cbn [world_step proc disk clock fst snd] in *; rewrite ?app_nil_r.
    + destruct Hty as [Hr Hw]. destruct (present_inv _ _ _ _ _ _ tid expires_at now flt I Hr Hw Ht) as (fs' & ps' & I').
      exists fs', ps'. by destruct (check_and_insert tid expires_at now flt s) as [s' []].
    + exists fs, ps. by eapply evict_inv.
    + destruct (end_inv _ _ _ _ _ _ 0 I) as [fs' I']; [by left|]. by exists fs', [].
    + destruct (end_inv _ _ _ _ _ _ accepts I) as [fs' I']; [done|]. by exists fs', [].
    + exists fs, ps. by eapply later_inv.
  - assert (ps = []) as -> by apply (wi_run _ _ _ _ _ I).
    destruct e; try (exists fs, []; cbn [world_step proc fst snd]; rewrite app_nil_r; by eapply later_inv).
    destruct (start_inv sort t d acc fs fsync max now io I Ht Hfit) as (fs' & ps' & I'). exists fs', ps'.
    cbn [world_step proc disk clock] in *. destruct (log_open d fsync) as [l|]; [|by rewrite app_nil_r].
    destruct (new_with_log sort max l now io) as [c [s|]]; cbn [fst snd] in *; by rewrite app_nil_r.
Qed.

Lemma world_inv_new t : world_inv t (mkWorld None None) [] [] [].
Proof.
  split; cbn; [by split_and!; [| |right]|intros *; set_solver|]. intros i j *. by rewrite lookup_nil.
Qed.

Lemma world_run_once sort es t w acc fs ps : world_inv t w acc fs ps → Forall rev_typed es → clock_ok t es →
  run_fits sort es w = true → single_use (acc ++ (world_run sort es w).2).
Proof.
  revert t w acc fs ps. induction es as [|e es IH]; intros t w acc fs ps I Hty Hck Hfit.
  { rewrite app_nil_r. apply (wi_once _ _ _ _ _ I). }
  apply Forall_cons in Hty as [He Hes]. destruct Hck as [Ht Hck].
  cbn [run_fits] in Hfit. apply andb_true_iff in Hfit as [Hf Hfit].
  destruct (world_step_inv sort t e w acc fs ps I He Ht Hf) as (fs' & ps' & I'). cbn [world_run].
  destruct (world_step sort e w) as [w1 a1]. cbn [fst snd] in *.
  specialize (IH _ _ _ _ _ I' Hes Hck Hfit). destruct (world_run sort es w1) as [w2 a2].
  cbn [snd] in *. by rewrite app_assoc.
Qed.

(** C16: A capability token is accepted at most once before the expiry it was
    accepted with, through any sequence of presentations, evictions, disk write
    failures, kills, clean stops and restarts on the same log, with a clock that
    does not go back, when the system takes or refuses each flushed buffer as a
    whole and no restart finds more unexpired records than the set may hold. *)
Theorem token_single_use sort es t :
  Forall rev_typed es → clock_ok t es → run_fits sort es (mkWorld None None) = true →
  single_use (world_run sort es (mkWorld None None)).2.
Proof. intros. by apply (world_run_once sort es t _ [] [] []); [apply world_inv_new|..]. Qed.

(** A restore that cannot hold every record drops none that expires later than
    one it keeps. *)
Lemma retained_latest sort max entries :
  (∀ l, sort l ≡ₚ l) → (∀ l, StronglySorted (λ a b, b.2 <= a.2) (sort l)) → 0 <= max →
  ∃ dropped, retained sort max entries ++ dropped ≡ₚ entries
    ∧ zlen (retained sort max entries) <= max
    ∧ ∀ a b, a ∈ retained sort max entries → b ∈ dropped → b.2 <= a.2.
Proof.
  intros Hp Hs Hmax. unfold retained. case_bool_decide as Hm.
  - exists (drop (Z.to_nat max) (sort entries)). rewrite take_drop. split_and!; [apply Hp|rewrite zlen_take; lia|].
    intros a b Ha Hb. pose proof (Hs entries) as H. rewrite <- (take_drop (Z.to_nat max) (sort entries)) in H.
    revert H Ha Hb. generalize (take (Z.to_nat max) (sort entries)), (drop (Z.to_nat max) (sort entries)).
    intros l1 l2. induction l1 as [|x l1 IH]; intros H Ha Hb; [set_solver|].
    apply StronglySorted_inv in H as [H Hx]. apply elem_of_cons in Ha as [->|Ha]; [|by apply IH].
    rewrite Forall_forall in Hx. apply Hx. set_solver.
  - exists []. rewrite app_nil_r. split_and!; [done|lia|set_solver].
Qed.

(** A token that is not in the set is accepted when there is room, or room
    after an eviction, and the disk takes the record. *)
Lemma fresh_token_accepted tid e now s l fs ps flt : rs_log s = Some l → log_wf l fs ps → rec_ok (tid, e) →
  rs_entries s !! tid = None →
  (rs_len s < max_entries s ∨ rs_len (evict_expired now s) < max_entries s) →
  (8192 ≤ room_accepts flt)%nat → (8192 ≤ flush_accepts flt)%nat → sync_ok flt = true → whole (retry_accepts flt) →
  (check_and_insert tid e now flt s).2 = true.
Proof.
  intros Hl W Hr Hn Hroom H1 H2 H3 H4.
  assert (append tid e flt l = ((append tid e flt l).1, Ok tt)) as Ha.
  { unfold append, write_record.
    destruct (push_whole tid e (room_accepts flt) l fs ps) as [[Hok Hw]|[Herr _]]; [by right|done|done|..].
    - destruct (bw_write_all _ _ l) as [l1 r1]. cbn [fst snd] in *. rewrite Hok.
      assert (length (pending l1) ≤ flush_accepts flt)%nat as Hle by (destruct Hw as [[]|[]]; lia).
      unfold bw_flush. rewrite bool_decide_true by done. by rewrite H3, andb_false_r.
    - exfalso. unfold bw_write_all, bw_flush in Herr. pose proof (lw_cap _ _ _ W).
      case_bool_decide; [|done]. rewrite bool_decide_true in Herr by lia. done. }
  assert (∀ s', rs_log s' = Some l → (insert_and_log tid e flt s').2 = true) as Hins.
  { intros s' Hs'. unfold insert_and_log. cbn [set_entries rs_log]. by rewrite Hs', Ha. }
  unfold check_and_insert. rewrite Hn, bool_decide_false by by intros [].
  case_bool_decide; [|by apply Hins]. destruct Hroom as [?|Hroom]; [lia|].
  rewrite bool_decide_false; [by apply Hins|]. cbn [max_entries evict_expired set_entries] in *. lia.
Qed.

(** ** Concrete runs *)
Module ReplayDemo.
Definition id_order (l : list (list byte * Z)) : list (list byte * Z) := l.
Definition tok (b : byte) : list byte := replicate 32 b.
Definition good : Faults := mkFaults 8192 8192 true 8192 true.
Definition full : Faults := mkFaults 0 0 true 0 true.
(** The system takes ten bytes, then no more until the tail is cut. *)
Definition torn : Faults := mkFaults 0 10 true 0 true.
Definition io : StartIo := mkStartIo true 0 true true.
Definition restarts : list REv :=
  [Start true 2 0 io; Present (tok x61) 100 1 good; Present (tok x62) 100 2 full; Kill;
   Start true 2 3 io; Present (tok x61) 100 4 good; Present (tok x62) 50 5 good; Stop 8192;
   Start true 2 60 io; Present (tok x62) 200 61 good; Present (tok x61) 100 62 good].
Definition after_torn : list REv :=
  [Start true 8 0 io; Present (tok x61) 100 1 torn; Present (tok x62) 100 2 good; Kill;
   Start true 8 3 io; Present (tok x62) 100 4 good].
End ReplayDemo.

Lemma token_single_use_witness :
  (world_run ReplayDemo.id_order ReplayDemo.restarts (mkWorld None None)).2
    = [(ReplayDemo.tok x61, 100, 1); (ReplayDemo.tok x62, 50, 5); (ReplayDemo.tok x62, 200, 61)]
  ∧ single_use (world_run ReplayDemo.id_order ReplayDemo.restarts (mkWorld None None)).2.
Proof.
  split; [vm_compute; reflexivity|].
  apply (token_single_use ReplayDemo.id_order ReplayDemo.restarts 0).
  - vm_decide.
  - cbn. lia.
  - vm_compute. reflexivity.
Defined.

(** A torn append desynchronises the log: the part of the refused record that
    the system did not take stays in the writer's buffer past the realignment,
    the next record is written behind it, and after a restart that next token,
    accepted before and unexpired, is accepted again. *)
Lemma torn_append_reopens :
  (world_run ReplayDemo.id_order ReplayDemo.after_torn (mkWorld None None)).2
  = [(ReplayDemo.tok x62, 100, 2); (ReplayDemo.tok x62, 100, 4)].
Proof. vm_compute. reflexivity. Qed.
