(* ===== verification/RealityProbe.v ===== *)
(** * The REALITY auth probe (crates/transport-reality/src/probe.rs, replay.rs)

    The 32 bytes a client hides in a TLS session id: [build_probe] on the client,
    [verify_probe] on the bridge with its replay set. X25519 and keyed BLAKE3
    are the class [ProbeCrypto]. The theorems: an honest probe within the clock
    window is accepted, and no probe is accepted twice. *)

From stdpp Require Import base numbers list gmap strings.
From Stdlib Require Import ZArith Lia Strings.Byte.
From S2P Require Import Prelude Bytes.

(** ** The primitives *)
Class ProbeCrypto := {
  StaticSecret : Type;
  public_key : StaticSecret → list byte;
  diffie_hellman : StaticSecret → list byte → list byte;
  blake3_keyed : list byte → list byte → list byte;
}.

Class ProbeCryptoLaws (C : ProbeCrypto) : Prop := {
  dh_agrees a b : diffie_hellman a (public_key b) = diffie_hellman b (public_key a);
  blake3_len k m : length (blake3_keyed k m) = 32%nat;
}.

(** ** The replay set *)
Record ReplayProbeSet : Type := mkProbeSet {
  ps_entries : gmap (list byte * Z) Z;
  ps_max_entries : Z;
  recently_full : bool;
}.

Abbreviation ReplayProbeSet_new max := (mkProbeSet ∅ max false) (only parsing).
Abbreviation ps_len s := (Z.of_nat (size (ps_entries s))) (only parsing).

Definition ps_evict_expired (now_unix : Z) (s : ReplayProbeSet) : ReplayProbeSet :=
  mkProbeSet (filter (λ p, p.2 >= now_unix) (ps_entries s)) (ps_max_entries s) (recently_full s).

Definition ps_check_and_insert (nonce : list byte) (timestamp retention_deadline now_unix : Z)
  (s : ReplayProbeSet) : ReplayProbeSet * bool :=
  let key := (nonce, timestamp) in
  let full (b : bool) (s : ReplayProbeSet) := mkProbeSet (ps_entries s) (ps_max_entries s) b in
  let insert (s : ReplayProbeSet) :=
    (mkProbeSet (<[key := retention_deadline]> (ps_entries s)) (ps_max_entries s) false, true) in
  if bool_decide (is_Some (ps_entries s !! key)) then (full false s, false)
  else if bool_decide (ps_len s >= ps_max_entries s) then
    let s := ps_evict_expired now_unix s in
    if bool_decide (ps_len s >= ps_max_entries s) then (full true s, false) else insert s
  else insert s.

(** ** The probe *)
Abbreviation SESSION_ID_LEN := 32 (only parsing).
Abbreviation NONCE_LEN := 12%nat (only parsing).
Abbreviation TAG_LEN := 16%nat (only parsing).
Abbreviation TIMESTAMP_WINDOW_SECONDS := 60 (only parsing).
Abbreviation PROBE_EPOCH_SECONDS := 86400 (only parsing).
Abbreviation AUTH_KEY_LABEL := (String.list_byte_of_string "mirage-reality-auth-key-v1") (only parsing).
Abbreviation PROBE_EPOCH_LABEL := (String.list_byte_of_string "mirage-reality-probe-epoch-v1") (only parsing).
Abbreviation PROBE_ROOT_LABEL := (String.list_byte_of_string "mirage-reality-probe-root-v1") (only parsing).
Abbreviation TS_MASK_LABEL := (String.list_byte_of_string "mirage-reality-probe-ts-mask-v1") (only parsing).
Abbreviation PROBE_ROOT_DISABLED := (replicate 32 x00) (only parsing).

Inductive RealityError : Set :=
| SessionIdLen | TimestampStale | TagMismatch | Replay | ReplaySetFull | ZeroPoint
| RealityIo (msg : string).

#[global] Instance RealityError_eq_dec : EqDecision RealityError.
Proof. solve_decision. Defined.

Record Probe : Set := mkProbe { pr_nonce : list byte; pr_timestamp : Z; pr_tag : list byte }.

Definition Probe_encode (p : Probe) : list byte :=
  let out := splice (replicate 32 x00) 0 (pr_nonce p) in
  let out := splice out NONCE_LEN (be_bytes 4 (pr_timestamp p)) in
  splice out (NONCE_LEN + 4) (pr_tag p).

Definition Probe_decode (bytes : list byte) : result RealityError Probe :=
  if bool_decide (zlen bytes ≠ SESSION_ID_LEN) then Err SessionIdLen
  else Ok (mkProbe (slice bytes 0 NONCE_LEN) (be_val (slice bytes NONCE_LEN (NONCE_LEN + 4)))
             (drop (NONCE_LEN + 4) bytes)).

Definition all_zero (bs : list byte) : bool := forallb (λ b, bool_decide (b = x00)) bs.

Section probe.
Context {C : ProbeCrypto}.

Definition derive_probe_root (bridge_x25519_sk : list byte) : list byte :=
  blake3_keyed bridge_x25519_sk PROBE_ROOT_LABEL.

Abbreviation probe_epoch unix_secs := (unix_secs / PROBE_EPOCH_SECONDS) (only parsing).

Definition derive_epoch_probe_secret (probe_root : list byte) (epoch : Z) : option (list byte) :=
  if bool_decide (probe_root = PROBE_ROOT_DISABLED) then None
  else Some (blake3_keyed probe_root (PROBE_EPOCH_LABEL ++ be_bytes 8 epoch)).

Definition derive_auth_key (shared : list byte) (epoch_secret : option (list byte)) : list byte :=
  blake3_keyed shared
    (AUTH_KEY_LABEL ++ match epoch_secret with Some es => es | None => [] end).

Definition compute_tag (auth_key nonce : list byte) (timestamp : Z) (ch_random eph_pk : list byte) : list byte :=
  take TAG_LEN (blake3_keyed auth_key (nonce ++ be_bytes 4 timestamp ++ ch_random ++ eph_pk)).

Definition probe_ts_mask (shared nonce : list byte) : Z :=
  let d := blake3_keyed shared (TS_MASK_LABEL ++ nonce) in
  be_val [at_ d 0; at_ d 1; at_ d 2; at_ d 3].

Record ClientProbeInputs := mkClientInputs {
  eph_sk : StaticSecret;
  bridge_static_pk : list byte;
  cl_ch_random : list byte;
  cl_nonce : list byte;
  cl_now_unix : Z;
  cl_probe_root : list byte;
}.

Definition build_probe (i : ClientProbeInputs) : result RealityError Probe :=
  let shared := diffie_hellman (eph_sk i) (bridge_static_pk i) in
  if all_zero shared then Err ZeroPoint
  else
    let eph_pk := public_key (eph_sk i) in
    let epoch := probe_epoch (cl_now_unix i) in
    let epoch_secret := derive_epoch_probe_secret (cl_probe_root i) epoch in
    let auth_key := derive_auth_key shared epoch_secret in
    let tag := compute_tag auth_key (cl_nonce i) (cl_now_unix i) (cl_ch_random i) eph_pk in
    Ok (mkProbe (cl_nonce i) (Z.lxor (cl_now_unix i) (probe_ts_mask shared (cl_nonce i))) tag).

Record BridgeProbeInputs := mkBridgeInputs {
  bridge_static_sk : StaticSecret;
  client_eph_pk : list byte;
  br_ch_random : list byte;
  br_now_unix : Z;
  wire_probe : list byte;
  br_probe_root : list byte;
  accept_legacy : bool;
}.

Definition verify_probe (i : BridgeProbeInputs) (replay_set : ReplayProbeSet)
  : ReplayProbeSet * result RealityError unit :=
  match Probe_decode (wire_probe i) with
  | Err e => (replay_set, Err e)
  | Ok probe =>
    let shared := diffie_hellman (bridge_static_sk i) (client_eph_pk i) in
    let zero_point := all_zero shared in
    let real_ts := Z.lxor (pr_timestamp probe) (probe_ts_mask shared (pr_nonce probe)) in
    let now := br_now_unix i in
    let skew := Z.max now real_ts - Z.min now real_ts in
    let stale := bool_decide (skew > TIMESTAMP_WINDOW_SECONDS) in
    let epoch_secret := derive_epoch_probe_secret (br_probe_root i) (probe_epoch real_ts) in
    let tag_for secret :=
      compute_tag (derive_auth_key shared secret) (pr_nonce probe) real_ts (br_ch_random i) (client_eph_pk i) in
    let bound_ok := bool_decide (pr_tag probe = tag_for epoch_secret) in
    let legacy_ok := bool_decide (pr_tag probe = tag_for None) in
    let tag_ok :=
      if bool_decide (is_Some epoch_secret) then bound_ok || (accept_legacy i && legacy_ok) else legacy_ok in
    if zero_point then (replay_set, Err ZeroPoint)
    else if stale then (replay_set, Err TimestampStale)
    else if negb tag_ok then (replay_set, Err TagMismatch)
    else
      let retention := saturating_add_u64 real_ts (TIMESTAMP_WINDOW_SECONDS * 2) in
      match ps_check_and_insert (pr_nonce probe) real_ts retention now replay_set with
      | (rs, true) => (rs, Ok tt)
      | (rs, false) => (rs, Err (if recently_full rs then ReplaySetFull else Replay))
      end
  end.
End probe.

(** ** Facts about the parts *)
Lemma probe_roundtrip p : length (pr_nonce p) = 12%nat → in_u32 (pr_timestamp p) → length (pr_tag p) = 16%nat →
  Probe_decode (Probe_encode p) = Ok p ∧ zlen (Probe_encode p) = 32.
Proof.
  intros Hn Hts Ht. destruct p as [n ts tag]. cbn [pr_nonce pr_timestamp pr_tag] in *.
  assert (Probe_encode (mkProbe n ts tag) = n ++ be_bytes 4 ts ++ tag) as ->.
  { unfold Probe_encode. cbn [pr_nonce pr_timestamp pr_tag].
    change (replicate 32 x00) with (replicate 12 x00 ++ replicate 4 x00 ++ replicate 16 x00).
    rewrite splice_head by (by rewrite length_replicate).
    rewrite splice_mid by (by rewrite ?length_replicate, ?length_be_bytes).
    rewrite app_assoc. rewrite <- (app_nil_r (replicate 16 x00)).
    rewrite splice_mid by (rewrite ?length_app, ?length_replicate, ?length_be_bytes; lia).
    by rewrite app_nil_r, <- app_assoc. }
  assert (zlen (n ++ be_bytes 4 ts ++ tag) = 32) as Hz by (rewrite !zlen_app, zlen_be_bytes; unfold zlen; lia).
  split; [|done]. unfold Probe_decode. rewrite Hz, bool_decide_false by (intros HH; by apply HH). do 2 f_equal.
  - apply (slice_mid [] n); [done|]. by rewrite Hn.
  - rewrite (slice_mid n (be_bytes 4 ts) tag) by (rewrite ?length_be_bytes; lia). by apply be_u32_roundtrip.
  - rewrite app_assoc. apply drop_app_length'. rewrite length_app, length_be_bytes. lia.
Qed.

Lemma lxor_u32 a b : in_u32 a → in_u32 b → in_u32 (Z.lxor a b).
Proof.
  unfold in_u32, u32_max. intros Ha Hb.
  assert (0 <= Z.lxor a b) by (apply Z.lxor_nonneg; lia). split; [lia|].
  destruct (decide (Z.lxor a b = 0)) as [->|]; [lia|].
  pose proof (Z.log2_lxor a b ltac:(lia) ltac:(lia)) as Hlog.
  assert (∀ x, 0 <= x <= 4294967295 → Z.log2 x <= 31) as Hl.
  { intros x Hx. destruct (decide (x = 0)) as [->|]; [done|]. change 31 with (Z.log2 4294967295). apply Z.log2_le_mono. lia. }
  pose proof (Hl a Ha). pose proof (Hl b Hb).
  apply Z.lt_succ_r. change (Z.succ 4294967295) with (2 ^ 32). apply Z.log2_lt_pow2; lia.
Qed.

Lemma lxor_twice a b : Z.lxor (Z.lxor a b) b = a.
Proof. by rewrite Z.lxor_assoc, Z.lxor_nilpotent, Z.lxor_0_r. Qed.

(** What an insertion does. *)
Lemma ps_outcome n ts d now s :
  (∃ m, (m = ps_entries s ∨ m = ps_entries (ps_evict_expired now s)) ∧
    ps_entries (ps_check_and_insert n ts d now s).1
      = (if (ps_check_and_insert n ts d now s).2 then <[(n, ts) := d]> m else m))
  ∧ ((ps_check_and_insert n ts d now s).2 = true → ps_entries s !! (n, ts) = None).
Proof.
  unfold ps_check_and_insert. repeat case_bool_decide; cbn [fst snd ps_entries];
    (split; [eexists; split; [|done]; by (left + right)|]); try done; intros _; by apply eq_None_not_Some.
Qed.

Section verified.
Context {C : ProbeCrypto}.

(** The replay key of a probe: its nonce and the timestamp under the mask. *)
Definition replay_key (i : BridgeProbeInputs) : list byte * Z :=
  let nonce := slice (wire_probe i) 0 12 in
  (nonce, Z.lxor (be_val (slice (wire_probe i) 12 16))
            (probe_ts_mask (diffie_hellman (bridge_static_sk i) (client_eph_pk i)) nonce)).

Lemma mask_u32 shared nonce : in_u32 (probe_ts_mask shared nonce).
Proof. apply be_val_u32. Qed.

Lemma replay_key_u32 i : length (wire_probe i) = 32%nat → in_u32 (replay_key i).2.
Proof.
  intros Hl. apply lxor_u32; [|apply mask_u32].
  pose proof (be_val_range (slice (wire_probe i) 12 16)) as H.
  unfold zlen in H. rewrite length_slice in H by lia. change (256 ^ Z.of_nat (16 - 12)) with 4294967296 in H.
  unfold in_u32, u32_max. lia.
Qed.

(** What one verification does to the set. *)
Lemma verify_outcome i s : in_u32 (br_now_unix i) →
  let now := br_now_unix i in let key := replay_key i in
  (∃ e, (verify_probe i s).2 = Err e ∧ ∃ m, (m = ps_entries s ∨ m = ps_entries (ps_evict_expired now s))
     ∧ ps_entries (verify_probe i s).1 = m) ∨
  ((verify_probe i s).2 = Ok tt ∧ ps_entries s !! key = None ∧ Z.abs (now - key.2) <= 60
   ∧ ∃ m, (m = ps_entries s ∨ m = ps_entries (ps_evict_expired now s))
     ∧ ps_entries (verify_probe i s).1 = <[key := key.2 + 120]> m).
Proof.
  intros Hnow now key. unfold verify_probe, Probe_decode.
  case_bool_decide as Hl; [left; by eauto 10|]. cbn [pr_nonce pr_timestamp pr_tag].
  change (12 + 4)%nat with 16%nat. fold (replay_key i). fold key.
  assert (in_u32 key.2) as Hk by (apply replay_key_u32; unfold zlen in Hl; lia).
  change (Z.lxor (be_val (slice (wire_probe i) 12 16)) _) with key.2.
  destruct (all_zero _); [left; by eauto 10|].
  case_bool_decide as Hs; [left; by eauto 10|].
  match goal with |- context [negb ?b] => destruct b end; cbn [negb]; [|left; by eauto 10].
  assert (saturating_add_u64 key.2 (60 * 2) = key.2 + 120) as ->.
  { unfold saturating_add_u64, u64_max, in_u32, u32_max in *. lia. }
  destruct (ps_outcome (slice (wire_probe i) 0 12) key.2 (key.2 + 120) (br_now_unix i) s) as [(m & Hm & He) Hn].
  destruct (ps_check_and_insert _ _ _ _ s) as [s' []]; cbn [fst snd] in *.
  - right. split_and!; [done|by apply Hn|unfold now; lia|]. exists m. done.
  - left. eexists. split; [done|]. eauto.
Qed.

(** ** Runs of a bridge *)
Fixpoint probe_run (ins : list BridgeProbeInputs) (s : ReplayProbeSet) : ReplayProbeSet * list BridgeProbeInputs :=
  match ins with
  | [] => (s, [])
  | i :: ins =>
    let (s1, r) := verify_probe i s in
    let (s2, acc) := probe_run ins s1 in
    (s2, match r with Ok _ => i :: acc | Err _ => acc end)
  end.

(** The clock of the bridge does not go back. *)
Fixpoint times_ok (t : Z) (ins : list BridgeProbeInputs) : Prop :=
  match ins with [] => True | i :: ins => t <= br_now_unix i ∧ in_u32 (br_now_unix i) ∧ times_ok (br_now_unix i) ins end.

(** A set that still holds every key of [ks] that could pass the window. *)
Definition remembers_keys (t : Z) (s : ReplayProbeSet) (ks : list (list byte * Z)) : Prop :=
  ∀ k, k ∈ ks → t <= k.2 + 120 → ps_entries s !! k = Some (k.2 + 120).

Lemma remembers_evict t now s ks m : remembers_keys t s ks → t <= now →
  m = ps_entries s ∨ m = ps_entries (ps_evict_expired now s) →
  ∀ k, k ∈ ks → now <= k.2 + 120 → m !! k = Some (k.2 + 120).
Proof.
  intros H Ht [->| ->] k Hk Hle; [apply H; [done|lia]|].
  cbn. apply map_lookup_filter_Some. split; [apply H; [done|lia]|cbn; lia].
Qed.

Lemma probe_run_fresh ins : ∀ t s ks, times_ok t ins → remembers_keys t s ks → NoDup ks →
  NoDup (ks ++ (replay_key <$> (probe_run ins s).2)).
Proof.
  induction ins as [|i ins IH]; intros t s ks Ht Hr Hnd; [by rewrite app_nil_r|].
  destruct Ht as (Hle & Hu & Ht). cbn [probe_run].
  destruct (verify_outcome i s Hu) as [(e & He & m & Hm & Hs)|(Hok & Hnone & Hskew & m & Hm & Hs)];
    destruct (verify_probe i s) as [s1 r]; cbn [fst snd] in *; subst r;
    pose proof (remembers_evict _ _ _ _ _ Hr Hle Hm) as Hm'.
  - specialize (IH (br_now_unix i) s1 ks Ht). destruct (probe_run ins s1) as [s2 acc]. cbn [snd] in *.
    apply IH; [|done]. intros k Hk Hkt. rewrite Hs. by apply Hm'.
  - assert (replay_key i ∉ ks) as Hnew.
    { intros Hin. rewrite (Hr _ Hin) in Hnone by lia. done. }
    specialize (IH (br_now_unix i) s1 (ks ++ [replay_key i]) Ht).
    destruct (probe_run ins s1) as [s2 acc]. cbn [snd] in *. rewrite fmap_cons, cons_middle, app_assoc.
    apply IH; [|apply NoDup_app; split_and!; [done|set_solver|apply NoDup_singleton]].
    intros k [Hk|Hk]%elem_of_app Hkt; rewrite Hs.
    + rewrite lookup_insert_ne by (intros <-; done). by apply Hm'.
    + apply list_elem_of_singleton in Hk as ->. apply lookup_insert_eq.
Qed.

(** C17: A bridge never authenticates the same probe twice. Over any sequence of
    handshakes, with whatever probes, key shares, secrets and capacity, and a
    clock that does not go back, no replay key is accepted twice, and so no
    pair of key share and session id. *)
Theorem probe_single_use ins max sk :
  times_ok 0 ins → Forall (λ i, bridge_static_sk i = sk) ins →
  let acc := (probe_run ins (ReplayProbeSet_new max)).2 in
  NoDup (replay_key <$> acc) ∧ NoDup ((λ i, (client_eph_pk i, wire_probe i)) <$> acc).
Proof.
  intros Ht Hsk acc.
  assert (NoDup (replay_key <$> acc)) as Hnd.
  { apply (probe_run_fresh ins 0 _ [] Ht); [|constructor]. intros k Hk. by apply not_elem_of_nil in Hk. }
  split; [done|].
  assert (Forall (λ i, bridge_static_sk i = sk) acc) as Hacc.
  { unfold acc. clear Ht Hnd acc. generalize (ReplayProbeSet_new max). induction Hsk as [|i ins Hi Hsk IH]; intros s; [constructor|].
    cbn [probe_run]. destruct (verify_probe i s) as [s1 r]. specialize (IH s1).
    destruct (probe_run ins s1) as [s2 acc]. cbn [snd] in *. destruct r; [by constructor|done]. }
  revert Hnd Hacc. generalize acc. clear. induction acc as [|i acc IH]; intros Hnd Hacc; [constructor|].
  change (NoDup (replay_key i :: (replay_key <$> acc))) in Hnd. apply NoDup_cons in Hnd as [Hni Hnd]. apply Forall_cons in Hacc as [Hi Hacc].
  constructor; [|by apply IH]. intros Hin. apply Hni.
  apply list_elem_of_fmap in Hin as (j & Hj & Hin). apply list_elem_of_fmap. exists j. split; [|done].
  rewrite Forall_forall in Hacc. specialize (Hacc j Hin). injection Hj as He Hw. unfold replay_key.
  by rewrite He, Hw, Hi, Hacc.
Qed.

(** C23: A probe built by a client that knows the bridge's key and its root, or
    has no root where the bridge takes legacy probes, is accepted at the bridge
    when the clocks differ by at most a minute, the pair of nonce and time is
    new, and the set has room, if need be after an eviction. *)
Theorem honest_probe_accepted {L : ProbeCryptoLaws C} ci bi p s :
  build_probe ci = Ok p → length (cl_nonce ci) = 12%nat → in_u32 (cl_now_unix ci) →
  bridge_static_pk ci = public_key (bridge_static_sk bi) → client_eph_pk bi = public_key (eph_sk ci) →
  br_ch_random bi = cl_ch_random ci → wire_probe bi = Probe_encode p →
  Z.abs (br_now_unix bi - cl_now_unix ci) <= 60 →
  (cl_probe_root ci = br_probe_root bi ∨ cl_probe_root ci = PROBE_ROOT_DISABLED ∧ accept_legacy bi = true) →
  ps_entries s !! (cl_nonce ci, cl_now_unix ci) = None →
  (ps_len s < ps_max_entries s ∨ ps_len (ps_evict_expired (br_now_unix bi) s) < ps_max_entries s) →
  (verify_probe bi s).2 = Ok tt
  ∧ ps_entries (verify_probe bi s).1 !! (cl_nonce ci, cl_now_unix ci) = Some (cl_now_unix ci + 120).
Proof.
  intros Hb Hn Hnow Hpk Heph Hch Hw Hskew Hroot Hnew Hroom. unfold build_probe in Hb. rewrite Hpk in Hb.
  set (shared := diffie_hellman (eph_sk ci) _) in *.
  destruct (all_zero shared) eqn:Ez; [done|]. apply Ok_inj in Hb. subst p.
  set (mask := probe_ts_mask shared (cl_nonce ci)) in *.
  unfold verify_probe. rewrite Hw. edestruct probe_roundtrip as [-> _]; cbn [pr_nonce pr_timestamp pr_tag].
  { done. } { apply lxor_u32; [done|apply mask_u32]. }
  { unfold compute_tag. rewrite length_take, blake3_len. done. }
  assert (diffie_hellman (bridge_static_sk bi) (client_eph_pk bi) = shared) as -> by (rewrite Heph; apply dh_agrees).
  fold mask. rewrite Ez, lxor_twice, bool_decide_false by lia. rewrite Heph, Hch.
  match goal with |- context [negb ?b] => assert (b = true) as -> end.
  { destruct Hroot as [->|[-> ->]].
    - destruct (derive_epoch_probe_secret (br_probe_root bi) _) as [es|].
      + rewrite (bool_decide_true (is_Some _)) by done. by rewrite bool_decide_true.
      + rewrite (bool_decide_false (is_Some _)) by by intros []. by rewrite bool_decide_true.
    - change (derive_epoch_probe_secret (replicate 32 x00) _) with (@None (list byte)).
      rewrite (bool_decide_true (compute_tag _ _ _ _ _ = compute_tag (derive_auth_key _ None) _ _ _ _)) by done.
      by case_bool_decide; rewrite ?orb_true_r. }
  cbn [negb]. assert (saturating_add_u64 (cl_now_unix ci) (60 * 2) = cl_now_unix ci + 120) as ->.
  { unfold saturating_add_u64, u64_max, in_u32, u32_max in *. lia. }
  unfold ps_check_and_insert. rewrite Hnew, bool_decide_false by by intros [].
  case_bool_decide as Hfull; [rewrite (bool_decide_false (_ >= _)) by (destruct Hroom; [lia|]; cbn [ps_max_entries ps_evict_expired]; lia)|].
  all: cbn [fst snd ps_entries]; split; [done|apply lookup_insert_eq].
Qed.
End verified.

(** ** Concrete runs *)
Module ProbeDemo.
Definition mix (l : list byte) : Z := foldr (λ x acc, (u8 x + 31 * acc) mod 251) 7 l.

#[export] Instance crypto : ProbeCrypto := {
  StaticSecret := byte;
  public_key b := b :: replicate 31 x00;
  diffie_hellman a pk := b8 (u8 a * u8 (at_ pk 0)) :: replicate 31 x01;
  blake3_keyed k m := b8 (mix (k ++ m)) :: replicate 31 (b8 (3 * mix (m ++ k)));
}.

#[export] Instance laws : ProbeCryptoLaws crypto.
Proof.
  split.
  - intros a b. cbn. by rewrite Z.mul_comm.
  - done.
Qed.

Definition root : list byte := derive_probe_root (replicate 32 x09).
Definition client : ClientProbeInputs :=
  mkClientInputs x05 (public_key x09) (replicate 32 x0c) (replicate 12 x0d) 1700000000 root.
Definition wire : list byte :=
  match build_probe client with Ok p => Probe_encode p | Err _ => [] end.
Definition at_bridge (now : Z) (legacy : bool) : BridgeProbeInputs :=
  mkBridgeInputs x09 (public_key x05) (replicate 32 x0c) now wire root legacy.
(** Accepted once, refused as a replay, as stale, and again as a replay in a
    set that is full. *)
Definition arrivals : list BridgeProbeInputs :=
  [at_bridge 1700000030 false; at_bridge 1700000031 true; at_bridge 1700000060 false; at_bridge 1700000200 false].
End ProbeDemo.


Lemma probe_single_use_witness :
  length (probe_run ProbeDemo.arrivals (ReplayProbeSet_new 1)).2 = 1%nat
  ∧ NoDup (replay_key <$> (probe_run ProbeDemo.arrivals (ReplayProbeSet_new 1)).2).
Proof.
  split; [vm_cast_no_check (eq_refl 1%nat)|].
  refine (proj1 (@probe_single_use ProbeDemo.crypto ProbeDemo.arrivals 1 x09 _ _)).
  - cbv [times_ok ProbeDemo.arrivals ProbeDemo.at_bridge br_now_unix in_u32 u32_max]. lia.
  - repeat constructor.
Defined.

Lemma honest_probe_accepted_witness :
  (verify_probe (ProbeDemo.at_bridge 1700000030 false) (ReplayProbeSet_new 1)).2 = Ok tt.
Proof.
  destruct (build_probe ProbeDemo.client) as [p|] eqn:Ep; [|exfalso; revert Ep; vm_compute; discriminate].
  apply (@honest_probe_accepted ProbeDemo.crypto ProbeDemo.laws ProbeDemo.client (ProbeDemo.at_bridge 1700000030 false) p (ReplayProbeSet_new 1)).
  - exact Ep.
  - reflexivity.
  - cbv [ProbeDemo.client cl_now_unix in_u32 u32_max]. lia.
  - reflexivity.
  - reflexivity.
  - reflexivity.
  - unfold ProbeDemo.at_bridge, ProbeDemo.wire. cbn [wire_probe]. rewrite Ep. reflexivity.
  - cbv [ProbeDemo.client ProbeDemo.at_bridge cl_now_unix br_now_unix]. lia.
  - left. reflexivity.
  - reflexivity.
  - left. reflexivity.
Defined.
