(* ===== verification/SeenNonce.v ===== *)
(** * The shared seen-nonce set (crates/common/src/replay_nonce.rs)

    [SeenNonceSet]: the bounded set with a time to live that several transports
    and the gossip layer use against replays. A nonce accepted for the first
    time is refused for its whole time to live, until as many nonces as the
    capacity have been accepted after it. *)

From stdpp Require Import base numbers list gmap strings.
From Stdlib Require Import ZArith Lia Strings.Byte.
From S2P Require Import Prelude Bytes.

Abbreviation DEFAULT_SEEN_NONCE_CAPACITY := 65536 (only parsing).

(** [poisoned]: a holder of the lock has panicked. *)
Record SeenNonceSet : Type := mkSeen {
  sn_map : gmap (list byte) Z;
  sn_order : list (list byte);
  sn_ttl : Z;
  sn_capacity : Z;
  sn_poisoned : bool;
}.

Definition with_capacity (ttl capacity : Z) : SeenNonceSet := mkSeen ∅ [] ttl (Z.max capacity 1) false.
Abbreviation SeenNonceSet_new ttl := (with_capacity ttl DEFAULT_SEEN_NONCE_CAPACITY) (only parsing).

(** [while let Some(victim) = order.pop_front()], until one is in the map. *)
Fixpoint evict_front (order : list (list byte)) (m : gmap (list byte) Z)
  : list (list byte) * gmap (list byte) Z :=
  match order with
  | [] => ([], m)
  | victim :: order =>
    match m !! victim with
    | Some _ => (order, delete victim m)
    | None => evict_front order m
    end
  end.

Definition seen_check_and_insert (nonce : list byte) (now : Z) (s : SeenNonceSet) : SeenNonceSet * bool :=
  if sn_poisoned s then (s, false)
  else if match sn_map s !! nonce with
          | Some seen_at => bool_decide (duration_since now seen_at <= sn_ttl s)
          | None => false
          end then (s, false)
  else
    let is_new := bool_decide (sn_map s !! nonce = None) in
    let (order, m) :=
      if is_new && bool_decide (Z.of_nat (size (sn_map s)) >= sn_capacity s)
      then evict_front (sn_order s) (sn_map s) else (sn_order s, sn_map s) in
    let order := if is_new then order ++ [nonce] else order in
    (mkSeen (<[nonce := now]> m) order (sn_ttl s) (sn_capacity s) (sn_poisoned s), true).

Definition reap (now : Z) (s : SeenNonceSet) : SeenNonceSet * Z :=
  if sn_poisoned s then (s, 0)
  else
    let m := filter (λ p, duration_since now p.2 <= sn_ttl s) (sn_map s) in
    (mkSeen m (filter (λ k, is_Some (m !! k)) (sn_order s)) (sn_ttl s) (sn_capacity s) (sn_poisoned s),
     Z.of_nat (size (sn_map s)) - Z.of_nat (size m)).

(** ** The invariant: the queue is the keys of the map, each once. *)
Record seen_inv (s : SeenNonceSet) : Prop := {
  se_nodup : NoDup (sn_order s);
  se_keys k : k ∈ sn_order s ↔ is_Some (sn_map s !! k);
  se_cap : Z.of_nat (size (sn_map s)) <= sn_capacity s;
  se_pos : 1 <= sn_capacity s;
}.

Lemma with_capacity_inv ttl cap : seen_inv (with_capacity ttl cap).
Proof.
  unfold with_capacity. split; cbn [sn_map sn_order sn_capacity];
    [apply NoDup_nil_2| |rewrite map_size_empty; lia|lia]. intros k. rewrite lookup_empty. split; [by intros ?%not_elem_of_nil|by intros []].
Qed.

Lemma size_order s : seen_inv s → size (sn_map s) = length (sn_order s).
Proof.
  intros I. rewrite <- length_map_to_list, <- (length_fmap fst). apply Permutation_length, NoDup_Permutation.
  - apply NoDup_fst_map_to_list.
  - apply I.
  - intros k. rewrite (se_keys s I). rewrite list_elem_of_fmap. split.
    + intros ([k' x] & -> & H%elem_of_map_to_list). by exists x.
    + intros [x H]. exists (k, x). split; [done|]. by apply elem_of_map_to_list.
Qed.

(** With the invariant the loop removes exactly the head of the queue. *)
Lemma evict_head s v order : seen_inv s → sn_order s = v :: order →
  evict_front (sn_order s) (sn_map s) = (order, delete v (sn_map s)).
Proof.
  intros I Ho. rewrite Ho. cbn. destruct (proj1 (se_keys s I v)) as [x ->]; [rewrite Ho; left|done].
Qed.

(** What a check does. *)
Lemma check_outcome nonce now s : seen_inv s → sn_poisoned s = false →
  seen_check_and_insert nonce now s = (s, false)
    ∧ (∃ t, sn_map s !! nonce = Some t ∧ duration_since now t <= sn_ttl s) ∨
  (∃ t, sn_map s !! nonce = Some t ∧ sn_ttl s < duration_since now t
    ∧ seen_check_and_insert nonce now s
      = (mkSeen (<[nonce := now]> (sn_map s)) (sn_order s) (sn_ttl s) (sn_capacity s) false, true)) ∨
  (sn_map s !! nonce = None ∧ Z.of_nat (size (sn_map s)) < sn_capacity s
    ∧ seen_check_and_insert nonce now s
      = (mkSeen (<[nonce := now]> (sn_map s)) (sn_order s ++ [nonce]) (sn_ttl s) (sn_capacity s) false, true)) ∨
  (∃ v order, sn_map s !! nonce = None ∧ Z.of_nat (size (sn_map s)) = sn_capacity s ∧ sn_order s = v :: order
    ∧ seen_check_and_insert nonce now s
      = (mkSeen (<[nonce := now]> (delete v (sn_map s))) (order ++ [nonce]) (sn_ttl s) (sn_capacity s) false, true)).
Proof.
  intros I Hp. unfold seen_check_and_insert. rewrite Hp. destruct (sn_map s !! nonce) as [t|] eqn:Em.
  - case_bool_decide as Ht; [left; eauto|]. right. left. exists t. split_and!; [done|lia|].
    by rewrite bool_decide_false by done.
  - right. right. rewrite bool_decide_true by done. pose proof (se_cap s I). cbn [andb].
    case_bool_decide as Hc; [right|left; split_and!; [done|lia|done]].
    destruct (sn_order s) as [|v order] eqn:Eo.
    { pose proof (size_order s I) as Hs. rewrite Eo in Hs. pose proof (se_pos s I). cbn in Hs. lia. }
    exists v, order. split_and!; [done|lia|done|]. rewrite <- Eo. by rewrite (evict_head s v order).
Qed.

(** ** Preservation *)
Lemma check_inv nonce now s : seen_inv s → sn_poisoned s = false → seen_inv (seen_check_and_insert nonce now s).1.
Proof.
  intros I Hp. destruct (check_outcome nonce now s I Hp)
    as [[-> _]|[(t & Hm & _ & ->)|[(Hm & Hc & ->)|(v & order & Hm & Hc & Ho & ->)]]]; [done|..].
  - split; cbn [fst sn_map sn_order sn_capacity]; try apply I.
    + intros k. rewrite (se_keys s I). destruct (decide (k = nonce)) as [->|]; [|by rewrite lookup_insert_ne].
      rewrite lookup_insert_eq, Hm. by split; eexists.
    + rewrite map_size_insert_Some by by eexists. apply I.
  - assert (nonce ∉ sn_order s) as Hn by (rewrite (se_keys s I), Hm; by intros []).
    split; cbn [fst sn_map sn_order sn_capacity]; [| | |apply I].
    + apply NoDup_app. split_and!; [apply I|set_solver|apply NoDup_singleton].
    + intros k. rewrite elem_of_app, list_elem_of_singleton, (se_keys s I).
      destruct (decide (k = nonce)) as [->|]; [rewrite lookup_insert_eq; naive_solver|].
      rewrite lookup_insert_ne by done. naive_solver.
    + rewrite map_size_insert_None by done. lia.
  - assert (nonce ∉ sn_order s) as Hn by (rewrite (se_keys s I), Hm; by intros []).
    pose proof (se_nodup s I) as Hnd. rewrite Ho in Hnd, Hn. apply NoDup_cons in Hnd as [Hv Hnd].
    assert (is_Some (sn_map s !! v)) as [x Hx] by (apply (se_keys s I); rewrite Ho; left).
    split; cbn [fst sn_map sn_order sn_capacity]; [| | |apply I].
    + apply NoDup_app. split_and!; [done|set_solver|apply NoDup_singleton].
    + intros k. rewrite elem_of_app, list_elem_of_singleton. pose proof (se_keys s I k) as Hk. rewrite Ho, elem_of_cons in Hk.
      destruct (decide (k = nonce)) as [->|]; [rewrite lookup_insert_eq; naive_solver|].
      rewrite lookup_insert_ne by done. destruct (decide (k = v)) as [->|].
      * rewrite lookup_delete_eq. split; [intros [?| ->]; done|by intros []].
      * rewrite lookup_delete_ne by done. naive_solver.
    + rewrite map_size_insert_None by (rewrite lookup_delete_ne; [done|set_solver]).
      rewrite map_size_delete_Some by by eexists. pose proof (se_pos s I). lia.
Qed.

Lemma reap_inv now s : seen_inv s → seen_inv (reap now s).1.
Proof.
  intros I. unfold reap. destruct (sn_poisoned s); [done|]. split; cbn [fst sn_map sn_order sn_capacity].
  - apply NoDup_filter, I.
  - intros k. rewrite list_elem_of_filter, (se_keys s I). split; [by intros [? _]|]. intros H. split; [done|].
    destruct H as [x [H _]%map_lookup_filter_Some]. by eexists.
  - pose proof (se_cap s I). pose proof (size_filter_le (λ p : list byte * Z, duration_since now p.2 <= sn_ttl s) (sn_map s)). lia.
  - apply I.
Qed.

(** ** Runs *)
Inductive SOp : Set := OCheck (nonce : list byte) (now : Z) | OReap (now : Z).

Definition sop_time (o : SOp) : Z := match o with OCheck _ now | OReap now => now end.

Definition seen_step (o : SOp) (s : SeenNonceSet) : SeenNonceSet * bool :=
  match o with
  | OCheck nonce now => seen_check_and_insert nonce now s
  | OReap now => ((reap now s).1, false)
  end.

(** The state after a run and how many nonces it accepted. *)
Fixpoint seen_run (os : list SOp) (s : SeenNonceSet) : SeenNonceSet * Z :=
  match os with
  | [] => (s, 0)
  | o :: os =>
    let (s1, ok) := seen_step o s in
    let (s2, n) := seen_run os s1 in (s2, (if ok then 1 else 0) + n)
  end.

(** A nonce recorded at [t] with [k] keys behind it in the queue. *)
Definition recorded (s : SeenNonceSet) (nonce : list byte) (t k : Z) : Prop :=
  sn_map s !! nonce = Some t ∧ ∃ before after, sn_order s = before ++ nonce :: after ∧ zlen after <= k.

Lemma recorded_step o s nonce t k : seen_inv s → sn_poisoned s = false → recorded s nonce t k →
  t <= sop_time o → sop_time o <= t + sn_ttl s →
  let (s', ok) := seen_step o s in k + (if ok then 1 else 0) < sn_capacity s →
  seen_inv s' ∧ sn_poisoned s' = false ∧ sn_ttl s' = sn_ttl s ∧ sn_capacity s' = sn_capacity s
  ∧ recorded s' nonce t (k + if ok then 1 else 0)
  ∧ (∀ now, o = OCheck nonce now → ok = false).
Proof.
  intros I Hp [Hm (before & after & Ho & Hk)] Hlo Hhi. destruct o as [n now|now]; cbn [sop_time seen_step] in *.
  - pose proof (check_inv n now s I Hp) as I'.
    destruct (check_outcome n now s I Hp)
      as [[-> _]|[(t' & Hm' & Hd & E)|[(Hm' & Hc & E)|(v & order & Hm' & Hc & Ho' & E)]]].
    { intros _. split_and!; try done. rewrite Z.add_0_r. by split; [|eauto]. }
    all: rewrite E in *; cbn [fst] in I'; intros Hcap.
    all: assert (n ≠ nonce) as Hne by (intros ->; rewrite Hm in Hm'; simplify_eq; unfold duration_since in *; lia).
    all: split_and!; [done..| |intros ? [= -> ->]; done].
    + split; [by cbn; rewrite lookup_insert_ne|]. exists before, after. cbn. split; [done|lia].
    + split; [by cbn; rewrite lookup_insert_ne|]. exists before, (after ++ [n]). cbn [sn_order].
      rewrite Ho, <- app_assoc. split; [done|]. rewrite zlen_app. change (zlen [n]) with 1. lia.
    + (* the head of the queue is older than the recorded nonce *)
      destruct before as [|b before].
      { exfalso. pose proof (size_order s I) as Hs. rewrite Ho in Hs. cbn in Hs. unfold zlen in Hk. lia. }
      rewrite Ho in Ho'. injection Ho' as <- Ho'.
      assert (b ≠ nonce) as Hb. { pose proof (se_nodup s I) as Hnd. rewrite Ho in Hnd. apply NoDup_cons in Hnd. set_solver. }
      split; [cbn; by rewrite lookup_insert_ne, lookup_delete_ne|]. exists before, (after ++ [n]). cbn [sn_order].
      rewrite <- Ho', <- app_assoc. split; [done|]. rewrite zlen_app. change (zlen [n]) with 1. lia.
  - intros _. split_and!; [by apply reap_inv| | | | |done]; unfold reap; rewrite Hp; try done. cbn [fst].
    set (m := filter (λ p, duration_since now p.2 <= sn_ttl s) (sn_map s)).
    assert (m !! nonce = Some t) as Hmm.
    { apply map_lookup_filter_Some. split; [done|]. cbn. unfold duration_since. lia. }
    split; [done|]. cbn [sn_order]. rewrite Ho, filter_app, filter_cons_True by (by rewrite Hmm).
    eexists _, _. split; [done|]. unfold zlen in *.
    pose proof (length_filter (λ k, is_Some (m !! k)) after). lia.
Qed.

(** The clock of the operations does not go back, and stays below [hi]. *)
Fixpoint ops_within (lo hi : Z) (os : list SOp) : Prop :=
  match os with
  | [] => lo <= hi
  | o :: os => lo <= sop_time o ∧ sop_time o <= hi ∧ ops_within (sop_time o) hi os
  end.

Lemma recorded_run os : ∀ s nonce t k lo hi, seen_inv s → sn_poisoned s = false → recorded s nonce t k →
  t <= lo → hi <= t + sn_ttl s → ops_within lo hi os → k + (seen_run os s).2 < sn_capacity s →
  let s' := (seen_run os s).1 in
  seen_inv s' ∧ sn_poisoned s' = false ∧ sn_ttl s' = sn_ttl s ∧ sn_map s' !! nonce = Some t.
Proof.
  induction os as [|o os IH]; intros s nonce t k lo hi I Hp Hr Ht Hhi Hw Hcap; [by destruct Hr|].
  destruct Hw as (Hlo & Hle & Hw). cbn [seen_run] in *.
  pose proof (recorded_step o s nonce t k I Hp Hr ltac:(lia) ltac:(lia)) as Hs.
  destruct (seen_step o s) as [s1 ok]. specialize (IH s1 nonce t (k + if ok then 1 else 0) (sop_time o) hi).
  assert (0 <= (seen_run os s1).2) as Hn.
  { clear. revert s1. induction os as [|o os IH]; intros s; [done|]. cbn [seen_run].
    destruct (seen_step o s) as [s1 b]. specialize (IH s1). destruct (seen_run os s1) as [s2 n]. cbn in *. destruct b; lia. }
  destruct (seen_run os s1) as [s2 n]. cbn [fst snd] in *.
  destruct Hs as (I1 & Hp1 & Httl & Hc1 & Hr1 & _); [lia|]. rewrite Httl, Hc1 in IH.
  apply IH; try done; lia.
Qed.

(** A nonce that enters the set is refused for its whole time to live, while
    the clock does not go back and fewer nonces than the capacity have been
    accepted since, whatever is presented and swept in between. *)
Theorem seen_nonce_single_use s nonce t os t' :
  seen_inv s → sn_poisoned s = false → sn_map s !! nonce = None →
  let s1 := (seen_check_and_insert nonce t s).1 in
  let s2 := (seen_run os s1).1 in
  ops_within t t' os → t' <= t + sn_ttl s → (seen_run os s1).2 < sn_capacity s →
  (seen_check_and_insert nonce t s).2 = true ∧ (seen_check_and_insert nonce t' s2).2 = false.
Proof.
  intros I Hp Hm s1 s2 Hw Ht Hcap. pose proof (check_inv nonce t s I Hp) as I1. fold s1 in I1.
  assert ((seen_check_and_insert nonce t s).2 = true ∧ sn_poisoned s1 = false ∧ sn_ttl s1 = sn_ttl s
    ∧ sn_capacity s1 = sn_capacity s ∧ recorded s1 nonce t 0) as (Hok & Hp1 & Httl & Hc1 & Hr).
  { unfold s1, recorded. destruct (check_outcome nonce t s I Hp)
      as [[_ (x & Hx & _)]|[(x & Hx & _)|[(_ & _ & ->)|(v & order & _ & _ & _ & ->)]]]; try congruence.
    all: cbn; rewrite lookup_insert_eq; split_and!; try done.
    all: eexists _, []; split; [done|done]. }
  split; [done|].
  assert (t <= t') as Htt.
  { clear -Hw. revert t Hw. induction os as [|o os IH]; intros t Hw; [done|]. destruct Hw as (? & ? & ?). lia. }
  destruct (recorded_run os s1 nonce t 0 t t' I1 Hp1 Hr) as (_ & Hp2 & Ht2 & Hm2); [lia|lia|done|lia|].
  fold s2 in Hp2, Ht2, Hm2. unfold seen_check_and_insert. rewrite Hp2, Hm2, bool_decide_true; [done|].
  unfold duration_since. rewrite Ht2, Httl. lia.
Qed.

(** ** Concrete runs *)
Module SeenDemo.
Definition nonce (b : byte) : list byte := replicate 32 b.
Definition others : list SOp := [OCheck (nonce x62) 2; OReap 3; OCheck (nonce x61) 4].
(** Two keys, a time to live of ten. *)
Definition history : list SOp :=
  [OCheck (nonce x61) 0; OCheck (nonce x62) 1; OCheck (nonce x61) 20; OCheck (nonce x63) 21].
End SeenDemo.

Lemma seen_nonce_single_use_witness :
  (seen_check_and_insert (SeenDemo.nonce x61) 11
     (seen_run SeenDemo.others (seen_check_and_insert (SeenDemo.nonce x61) 1 (with_capacity 10 2)).1).1).2 = false.
Proof.
  refine (proj2 (seen_nonce_single_use (with_capacity 10 2) (SeenDemo.nonce x61) 1 SeenDemo.others 11 _ _ _ _ _ _)).
  - apply with_capacity_inv.
  - reflexivity.
  - reflexivity.
  - cbn. lia.
  - cbn. lia.
  - vm_compute. reflexivity.
Defined.

(** A nonce accepted again after its time to live keeps its old place in the
    queue, so the next new nonce evicts it first: it is accepted a third time,
    two ticks later, with one nonce accepted in between and room for two. *)
Lemma reaccepted_nonce_evicted :
  let s := with_capacity 10 2 in
  (seen_run SeenDemo.history s).2 = 4
  ∧ (seen_check_and_insert (SeenDemo.nonce x61) 22 (seen_run SeenDemo.history s).1).2 = true.
Proof. vm_compute. split; reflexivity. Qed.
