(* ===== verification/Handshake.v ===== *)
(** * The session handshake (crates/session/src/handshake.rs, crates/crypto/src/hybrid_kem.rs)

    [HandshakeInitiator] and [HandshakeResponder]: Noise XX with an ML-KEM-768
    exchange in the payloads of its first two messages and a capability token in
    the payload of the third. The Noise implementation (snow) and ML-KEM are the
    classes [Snow] and [MlKem768]; the randomness they draw is an argument. *)

From stdpp Require Import base numbers list gmap strings.
From Stdlib Require Import ZArith Lia Strings.Byte.
From S2P Require Import Prelude Bytes SessionFrames Signature Token HandshakeWire ReplayLog ReplaySet.

Abbreviation NOISE_PATTERN := "Noise_XX_25519_ChaChaPoly_SHA256"%string (only parsing).
Abbreviation TOKEN_GRACE_SECONDS := 60 (only parsing).
Abbreviation WIRE_VERSION := 1 (only parsing).
Abbreviation MLKEM_EK_BYTES := 1184 (only parsing).
Abbreviation MLKEM_CT_BYTES := 1088 (only parsing).
Abbreviation MLKEM_SS_BYTES := 32 (only parsing).

(** ** The packages *)

(** snow: a handshake state built from a local secret (and the ephemeral it will
    draw), its two operations on a buffer of a given length, what it reports, and
    its end as a transport. An operation that fails leaves the state it leaves. *)
Class Snow (SC : SessionCrypto) : Type := {
  HandshakeState : Type;
  pattern_parses : string → bool;
  build_initiator : ∀ (ephemeral local_private_key remote_public_key : list byte), option HandshakeState;
  build_responder : ∀ (ephemeral local_private_key : list byte), option HandshakeState;
  hs_write_message : HandshakeState → list byte → Z → HandshakeState * option (list byte);
  hs_read_message : HandshakeState → list byte → Z → HandshakeState * option (list byte);
  get_handshake_hash : HandshakeState → list byte;
  get_remote_static : HandshakeState → option (list byte);
  into_transport_mode : HandshakeState → option TransportState;
  transport_remote_static : TransportState → option (list byte);
}.

(** ml_kem; [ek_new] is the key validation. *)
Class MlKem768 : Type := {
  DecapsulationKey : Type;
  EncapsulationKey : Type;
  kem_generate : list byte → DecapsulationKey * EncapsulationKey;
  ek_to_bytes : EncapsulationKey → list byte;
  ek_new : list byte → option EncapsulationKey;
  kem_encapsulate : list byte → EncapsulationKey → list byte * list byte;
  kem_decapsulate : DecapsulationKey → list byte → list byte;
}.

Inductive AcceptedTokenKind : Set := Bootstrap | Refresh.

Inductive ReplayBackend : Type :=
| Owned (rs : ReplaySet)
| Shared (rs : SyncReplaySet).

Definition backend_check_and_insert (tid : list byte) (expires now : Z) (flt : Faults) (b : ReplayBackend)
  : ReplayBackend * bool :=
  match b with
  | Owned rs => let (rs, ok) := check_and_insert tid expires now flt rs in (Owned rs, ok)
  | Shared rs => let (rs, ok) := sync_check_and_insert tid expires now flt rs in (Shared rs, ok)
  end.

Record TokenVerifier : Type := mkVerifier {
  replay_set : ReplayBackend;
  now_unix : Z;
  grace_seconds : Z;
  last_accepted_token_id : option (list byte);
  last_accepted_kind : option AcceptedTokenKind;
  accept_refresh_signed_by : option (list byte);
  accept_prev_operator_pk : option (list byte);
}.

Definition TokenVerifier_new (rs : ReplaySet) (now : Z) : TokenVerifier :=
  mkVerifier (Owned rs) now TOKEN_GRACE_SECONDS None None None None.
Definition TokenVerifier_new_shared (rs : SyncReplaySet) (now : Z) : TokenVerifier :=
  mkVerifier (Shared rs) now TOKEN_GRACE_SECONDS None None None None.
Definition with_refresh_issuer (bridge_pk : list byte) (v : TokenVerifier) : TokenVerifier :=
  mkVerifier (replay_set v) (now_unix v) (grace_seconds v) (last_accepted_token_id v) (last_accepted_kind v)
    (Some bridge_pk) (accept_prev_operator_pk v).
Definition with_prev_operator (prev_pk : list byte) (v : TokenVerifier) : TokenVerifier :=
  mkVerifier (replay_set v) (now_unix v) (grace_seconds v) (last_accepted_token_id v) (last_accepted_kind v)
    (accept_refresh_signed_by v) (Some prev_pk).

(** Field assignments of the verifier. *)
Definition set_replay (b : ReplayBackend) (v : TokenVerifier) : TokenVerifier :=
  mkVerifier b (now_unix v) (grace_seconds v) (last_accepted_token_id v) (last_accepted_kind v)
    (accept_refresh_signed_by v) (accept_prev_operator_pk v).
Definition set_last (tid : list byte) (k : AcceptedTokenKind) (v : TokenVerifier) : TokenVerifier :=
  mkVerifier (replay_set v) (now_unix v) (grace_seconds v) (Some tid) (Some k)
    (accept_refresh_signed_by v) (accept_prev_operator_pk v).

Inductive InitiatorState : Set := IFresh | IAwaitMessage2 | IComplete.
Inductive ResponderState : Set := RAwaitMessage1 | RAwaitMessage3 | RComplete.
#[global] Instance InitiatorState_eq_dec : EqDecision InitiatorState.
Proof. solve_decision. Defined.
#[global] Instance ResponderState_eq_dec : EqDecision ResponderState.
Proof. solve_decision. Defined.

Section handshake.
Context {SC : SessionCrypto} {NZ : Snow SC} {KM : MlKem768} {ED : Ed25519}.

(** ** ML-KEM *)
Definition generate_keypair (rnd : list byte) : EncapsulationKey * DecapsulationKey :=
  let (dk, ek) := kem_generate rnd in (ek, dk).

Definition MlKemEk_from_bytes (bytes : list byte) : result SessionError EncapsulationKey :=
  if bool_decide (zlen bytes ≠ MLKEM_EK_BYTES) then Err (MlKem "ek length mismatch")
  else ok_or (ek_new bytes) (MlKem "ek validation failed").

(** ** Keys *)
Record SessionKeys : Type := mkKeys {
  keys_binding : list byte;
  keys_transport : TransportState;
  keys_mlkem_ss : list byte;
}.

Definition derive_session_binding (version : Z) (noise_h ek ct ss : list byte) : list byte :=
  blake3 (label "mirage-session-binding-v1" ++ be_bytes 2 version ++ noise_h ++ ek ++ ct ++ ss).

Definition noise_h_32 (noise : HandshakeState) : result SessionError (list byte) :=
  let h := get_handshake_hash noise in
  if bool_decide (length h ≠ 32%nat) then Err (Wire "noise transcript hash unexpected length") else Ok h.

Definition build_noise_base : result SessionError unit :=
  if pattern_parses NOISE_PATTERN then Ok tt else Err (Wire "invalid noise pattern").

Definition verify_refresh_path (refresh_pk : list byte) (t : CapabilityToken) : result SessionError AcceptedTokenKind :=
  if negb (valid_point refresh_pk) then Err (TokenVerification "refresh issuer pk invalid")
  else if verify_strict refresh_pk (refresh_prefix t) (signature t) then Ok Refresh
  else Err (TokenVerification "signature verification failed").

(** ** Initiator *)
Record HandshakeInitiator : Type := mkInit {
  i_noise : HandshakeState;
  mlkem_dk : DecapsulationKey;
  mlkem_ek_bytes : list byte;
  i_mlkem_ct : option (list byte);
  i_mlkem_ss : option (list byte);
  i_version : Z;
  i_state : InitiatorState;
  expected_remote_static : list byte;
  token_bytes : option (list byte);
}.

Definition set_i_noise (n : HandshakeState) (i : HandshakeInitiator) : HandshakeInitiator :=
  mkInit n (mlkem_dk i) (mlkem_ek_bytes i) (i_mlkem_ct i) (i_mlkem_ss i) (i_version i) (i_state i)
    (expected_remote_static i) (token_bytes i).
Definition set_i_state (s : InitiatorState) (i : HandshakeInitiator) : HandshakeInitiator :=
  mkInit (i_noise i) (mlkem_dk i) (mlkem_ek_bytes i) (i_mlkem_ct i) (i_mlkem_ss i) (i_version i) s
    (expected_remote_static i) (token_bytes i).
Definition set_i_kem (ct ss : list byte) (i : HandshakeInitiator) : HandshakeInitiator :=
  mkInit (i_noise i) (mlkem_dk i) (mlkem_ek_bytes i) (Some ct) (Some ss) (i_version i) (i_state i)
    (expected_remote_static i) (token_bytes i).
Definition set_token_bytes (t : list byte) (i : HandshakeInitiator) : HandshakeInitiator :=
  mkInit (i_noise i) (mlkem_dk i) (mlkem_ek_bytes i) (i_mlkem_ct i) (i_mlkem_ss i) (i_version i) (i_state i)
    (expected_remote_static i) (Some t).

Definition new_common (eph krnd local_sk remote_pk : list byte) : result SessionError HandshakeInitiator :=
  let? _ := build_noise_base in
  let? noise := ok_or (build_initiator eph local_sk remote_pk) Noise in
  let (ek, dk) := generate_keypair krnd in
  Ok (mkInit noise dk (ek_to_bytes ek) None None WIRE_VERSION IFresh remote_pk None).

Definition HandshakeInitiator_new (eph krnd local_sk remote_pk : list byte) (token : CapabilityToken)
  : result SessionError HandshakeInitiator :=
  let? me := new_common eph krnd local_sk remote_pk in
  Ok (set_token_bytes (CapabilityToken_encode token) me).

Definition new_fs (eph krnd local_sk remote_pk : list byte) (token : FsCapabilityToken)
  : result SessionError HandshakeInitiator :=
  let? me := new_common eph krnd local_sk remote_pk in
  Ok (set_token_bytes (FsCapabilityToken_encode token) me).

Definition new_for_circuit_hop (eph krnd local_sk remote_pk : list byte) : result SessionError HandshakeInitiator :=
  new_common eph krnd local_sk remote_pk.

(** [self.noise.write_message(..)?] and [read_message(..)?] of either side. *)
Definition noise_write {S} (get : S → HandshakeState) (set : HandshakeState → S → S) (payload : list byte) (buf : Z)
  : stm S SessionError (list byte) :=
  λ s, match hs_write_message (get s) payload buf with
       | (n, Some m) => (set n s, Ok m)
       | (n, None) => (set n s, Err Noise)
       end.
Definition noise_read {S} (get : S → HandshakeState) (set : HandshakeState → S → S) (m : list byte) (buf : Z)
  : stm S SessionError (list byte) :=
  λ s, match hs_read_message (get s) m buf with
       | (n, Some p) => (set n s, Ok p)
       | (n, None) => (set n s, Err Noise)
       end.

Definition write_message_1 : stm HandshakeInitiator SessionError (list byte) :=
  i <- st_get ;;
  if bool_decide (i_state i ≠ IFresh) then st_err (State "write_message_1: wrong state")
  else
    m <- noise_write i_noise set_i_noise (mlkem_ek_bytes i) (NOISE_MSG_1_LEN + 16) ;;
    if bool_decide (zlen m ≠ NOISE_MSG_1_LEN) then st_err (State "noise msg 1: unexpected length")
    else
      st_mod (set_i_state IAwaitMessage2) ;;;
      st_ret (Message1_encode (mkM1 (i_version i) m)).

Definition read_message_2 (wire : list byte) : stm HandshakeInitiator SessionError unit :=
  i <- st_get ;;
  if bool_decide (i_state i ≠ IAwaitMessage2) then st_err (State "read_message_2: wrong state")
  else
    msg <- st_lift (Message2_decode wire) ;;
    if bool_decide (m2_version msg ≠ i_version i)
    then st_err (VersionMismatch (m2_version msg) WIRE_VERSION WIRE_VERSION)
    else
      payload <- noise_read i_noise set_i_noise (noise_msg_2 msg) NOISE_MSG_2_LEN ;;
      if bool_decide (zlen payload ≠ MLKEM_CT_BYTES) then st_err (Wire "message 2: unexpected mlkem_ct length")
      else
        i <- st_get ;;
        got_rs <- st_lift (ok_or (get_remote_static (i_noise i)) (State "no remote static after msg 2")) ;;
        if bool_decide (got_rs ≠ expected_remote_static i) then st_err Noise
        else st_mod (set_i_kem payload (kem_decapsulate (mlkem_dk i) payload)).

Definition circuit_hop_binding (i : HandshakeInitiator) : result SessionError (list byte * list byte) :=
  let? ss := ok_or (i_mlkem_ss i) (State "circuit_hop_binding: call after read_message_2") in
  let? ct := ok_or (i_mlkem_ct i) (State "circuit_hop_binding: mlkem_ct missing (call after read_message_2)") in
  let? h := noise_h_32 (i_noise i) in
  Ok (ss, derive_session_binding (i_version i) h (mlkem_ek_bytes i) ct ss).

(** The payload of message 3 and the length snow must report. *)
Definition m3_payload (i : HandshakeInitiator) : list byte * Z :=
  match token_bytes i with
  | Some bytes => if bool_decide (zlen bytes = FS_TOKEN_PAYLOAD_LEN) then (bytes, NOISE_MSG_3_LEN_WITH_FS_TOKEN)
                  else (bytes, NOISE_MSG_3_LEN_WITH_TOKEN)
  | None => ([], NOISE_MSG_3_LEN_NO_TOKEN)
  end.

Definition write_message_3 (i : HandshakeInitiator) : result SessionError (list byte * SessionKeys) :=
  if bool_decide (i_state i ≠ IAwaitMessage2) then Err (State "write_message_3: wrong state")
  else
    let (payload, expected) := m3_payload i in
    match hs_write_message (i_noise i) payload (256 + FS_TOKEN_PAYLOAD_LEN) with
    | (_, None) => Err Noise
    | (noise, Some m) =>
      if bool_decide (zlen m ≠ expected) then Err (State "noise msg 3: unexpected length")
      else
        let? h := noise_h_32 noise in
        let? ss := ok_or (i_mlkem_ss i) (State "mlkem_ss missing at msg 3") in
        let? ct := ok_or (i_mlkem_ct i) (State "mlkem_ct missing at msg 3") in
        let binding := derive_session_binding (i_version i) h (mlkem_ek_bytes i) ct ss in
        let? transport := ok_or (into_transport_mode noise) Noise in
        Ok (Message3_encode (mkM3 m), mkKeys binding transport ss)
    end.

(** ** Responder *)
Record HandshakeResponder : Type := mkResp {
  r_noise : HandshakeState;
  peer_mlkem_ek : option (list byte);
  r_mlkem_ct : option (list byte);
  r_mlkem_ss : option (list byte);
  r_version : Z;
  r_state : ResponderState;
  local_ed25519_pk : list byte;
  operator_pk : list byte;
  require_token : bool;
}.

Definition set_r_noise (n : HandshakeState) (r : HandshakeResponder) : HandshakeResponder :=
  mkResp n (peer_mlkem_ek r) (r_mlkem_ct r) (r_mlkem_ss r) (r_version r) (r_state r) (local_ed25519_pk r)
    (operator_pk r) (require_token r).
Definition set_r_await3 (ek : list byte) (r : HandshakeResponder) : HandshakeResponder :=
  mkResp (r_noise r) (Some ek) (r_mlkem_ct r) (r_mlkem_ss r) (r_version r) RAwaitMessage3 (local_ed25519_pk r)
    (operator_pk r) (require_token r).
Definition set_r_kem (ct ss : list byte) (r : HandshakeResponder) : HandshakeResponder :=
  mkResp (r_noise r) (peer_mlkem_ek r) (Some ct) (Some ss) (r_version r) (r_state r) (local_ed25519_pk r)
    (operator_pk r) (require_token r).

Definition HandshakeResponder_new (eph local_x25519_sk ed_pk op_pk : list byte) : result SessionError HandshakeResponder :=
  let? _ := build_noise_base in
  let? noise := ok_or (build_responder eph local_x25519_sk) Noise in
  Ok (mkResp noise None None None WIRE_VERSION RAwaitMessage1 ed_pk op_pk true).

Definition read_message_1 (wire : list byte) : stm HandshakeResponder SessionError unit :=
  r <- st_get ;;
  if bool_decide (r_state r ≠ RAwaitMessage1) then st_err (State "read_message_1: wrong state")
  else
    msg <- st_lift (Message1_decode wire) ;;
    if bool_decide (m1_version msg ≠ r_version r)
    then st_err (VersionMismatch (m1_version msg) WIRE_VERSION WIRE_VERSION)
    else
      payload <- noise_read r_noise set_r_noise (noise_msg_1 msg) NOISE_MSG_1_LEN ;;
      if bool_decide (zlen payload ≠ MLKEM_EK_BYTES) then st_err (Wire "message 1: unexpected mlkem_ek length")
      else st_mod (set_r_await3 payload).

Definition write_message_2 (krnd : list byte) : stm HandshakeResponder SessionError (list byte) :=
  r <- st_get ;;
  if bool_decide (r_state r ≠ RAwaitMessage3) then st_err (State "write_message_2: wrong state")
  else
    peer_ek_bytes <- st_lift (ok_or (peer_mlkem_ek r) (State "peer mlkem_ek missing at msg 2")) ;;
    peer_ek <- st_lift (MlKemEk_from_bytes peer_ek_bytes) ;;
    let (ct, ss) := kem_encapsulate krnd peer_ek in
    st_mod (set_r_kem ct ss) ;;;
    m <- noise_write r_noise set_r_noise ct (NOISE_MSG_2_LEN + 16) ;;
    if bool_decide (zlen m ≠ NOISE_MSG_2_LEN) then st_err (State "noise msg 2: unexpected length")
    else st_ret (Message2_encode (mkM2 (r_version r) m)).

Definition write_message_2_for_circuit_hop (krnd : list byte)
  : stm HandshakeResponder SessionError (list byte * list byte * list byte) :=
  hs_msg2 <- write_message_2 krnd ;;
  r <- st_get ;;
  h <- st_lift (noise_h_32 (r_noise r)) ;;
  ss <- st_lift (ok_or (r_mlkem_ss r) (State "mlkem_ss missing after msg2 circuit path")) ;;
  ek <- st_lift (ok_or (peer_mlkem_ek r) (State "mlkem_ek missing after msg2 circuit path")) ;;
  ct <- st_lift (ok_or (r_mlkem_ct r) (State "mlkem_ct missing after msg2 circuit path")) ;;
  st_ret (hs_msg2, ss, derive_session_binding (r_version r) h ek ct ss).

(** [verifier.replay_set.check_and_insert(..)]; [flt] is what the disk does. *)
Definition replay_insert (tid : list byte) (retention : Z) (flt : Faults) : stm TokenVerifier SessionError bool :=
  λ v, let (b, ok) := backend_check_and_insert tid retention (now_unix v) flt (replay_set v) in (set_replay b v, Ok ok).

Definition is_ok {E A} (r : result E A) : bool := match r with Ok _ => true | Err _ => false end.

(** The signature of a legacy token: every configured path is evaluated. *)
Definition token_kind_of (op_pk : list byte) (v : TokenVerifier) (t : CapabilityToken) : option AcceptedTokenKind :=
  let ok_operator := is_ok (verify_signature op_pk t) in
  let ok_prev := match accept_prev_operator_pk v with Some pk => is_ok (verify_signature pk t) | None => false end in
  let refresh_kind := match accept_refresh_signed_by v with
                      | Some pk => match verify_refresh_path pk t with Ok k => Some k | Err _ => None end
                      | None => None
                      end in
  if ok_operator || ok_prev then Some Bootstrap else refresh_kind.

(** The token-bearing branches of [read_message_3]. *)
Definition verify_legacy (r : HandshakeResponder) (payload : list byte) (flt : Faults) : stm TokenVerifier SessionError unit :=
  if bool_decide (zlen payload ≠ TOKEN_PAYLOAD_LEN) then st_err (TokenVerification "payload length mismatch")
  else
    match CapabilityToken_decode payload with
    | Err _ => st_err (TokenVerification "token decode failed")
    | Ok token =>
      v <- st_get ;;
      match token_kind_of (operator_pk r) v token with
      | None => st_err (TokenVerification "signature verification failed")
      | Some kind =>
        if negb (is_for_bridge (local_ed25519_pk r) token) then st_err (TokenVerification "token not for this bridge")
        else if is_expired (now_unix v) (grace_seconds v) token then st_err (TokenVerification "token expired")
        else
          ok <- replay_insert (token_id token) (saturating_add_u64 (expires_at token) (grace_seconds v)) flt ;;
          if negb ok then st_err (TokenVerification "token replayed or capacity")
          else st_mod (set_last (token_id token) kind)
      end
    end.

Definition verify_fs (r : HandshakeResponder) (payload : list byte) (flt : Faults) : stm TokenVerifier SessionError unit :=
  if bool_decide (zlen payload ≠ FS_TOKEN_PAYLOAD_LEN) then st_err (TokenVerification "fs payload length mismatch")
  else
    match FsCapabilityToken_decode payload with
    | Err _ => st_err (TokenVerification "fs token decode failed")
    | Ok token =>
      v <- st_get ;;
      let ok_root := is_ok (verify_chain (operator_pk r) (now_unix v) (grace_seconds v) token) in
      let ok_prev := match accept_prev_operator_pk v with
                     | Some pk => is_ok (verify_chain pk (now_unix v) (grace_seconds v) token)
                     | None => false
                     end in
      if negb (ok_root || ok_prev) then st_err (TokenVerification "fs chain verification failed")
      else if negb (fs_is_for_bridge (local_ed25519_pk r) token) then st_err (TokenVerification "token not for this bridge")
      else if fs_is_expired (now_unix v) (grace_seconds v) token then st_err (TokenVerification "token expired")
      else
        ok <- replay_insert (fs_token_id token) (saturating_add_u64 (fs_expires_at token) (grace_seconds v)) flt ;;
        if negb ok then st_err (TokenVerification "token replayed or capacity")
        else st_mod (set_last (fs_token_id token) Bootstrap)
    end.

(** The end of [read_message_3], with the Noise state after message 3. *)
Definition responder_keys (r : HandshakeResponder) (noise : HandshakeState) : result SessionError SessionKeys :=
  let? h := noise_h_32 noise in
  let? ek := ok_or (peer_mlkem_ek r) (State "peer_mlkem_ek missing at msg 3") in
  let? ct := ok_or (r_mlkem_ct r) (State "mlkem_ct missing at msg 3") in
  let? ss := ok_or (r_mlkem_ss r) (State "mlkem_ss missing at msg 3") in
  let binding := derive_session_binding (r_version r) h ek ct ss in
  let? transport := ok_or (into_transport_mode noise) Noise in
  Ok (mkKeys binding transport ss).

Definition read_message_3 (r : HandshakeResponder) (wire : list byte) (flt : Faults)
  : stm TokenVerifier SessionError SessionKeys :=
  if bool_decide (r_state r ≠ RAwaitMessage3) then st_err (State "read_message_3: wrong state")
  else
    msg <- st_lift (Message3_decode wire) ;;
    let is_legacy := bool_decide (zlen (noise_msg_3 msg) = NOISE_MSG_3_LEN_WITH_TOKEN) in
    let is_fs := bool_decide (zlen (noise_msg_3 msg) = NOISE_MSG_3_LEN_WITH_FS_TOKEN) in
    let is_conformant := is_legacy || is_fs in
    if require_token r && negb is_conformant then st_err (TokenVerification "token required but not presented")
    else if negb (require_token r) && is_conformant
    then st_err (Wire "test-only responder received token-bearing msg 3")
    else
      match hs_read_message (r_noise r) (noise_msg_3 msg) (256 + FS_TOKEN_PAYLOAD_LEN) with
      | (_, None) => st_err Noise
      | (noise, Some payload) =>
        (if is_legacy then verify_legacy r payload flt
         else if is_fs then verify_fs r payload flt
         else st_ret tt) ;;;
        st_lift (responder_keys r noise)
      end.
End handshake.
