(* ===== verification/HandshakeRun.v ===== *)
(** * Honest handshakes

    What the handshake relies on of snow and of ML-KEM, and the exchange of the
    three messages between an initiator and the responder it means to reach:
    every step succeeds and both ends hold the same binding and secret and the
    two ends of one Noise channel. *)

From stdpp Require Import base numbers list gmap strings.
From Stdlib Require Import ZArith Lia Strings.Byte.
From S2P Require Import Prelude Bytes SessionFrames Signature Token HandshakeWire ReplayLog ReplaySet Handshake.

(** Noise XX as snow implements it, for two parties that deliver each other's
    messages: [xx_pair ski skr n hi hr] are the states after [n] messages of an
    exchange between holders of the statics [ski] and [skr]. The messages carry
    the payload behind 32, 80 and 48 bytes of keys, with a tag on each encrypted
    part; buffers that leave room for one more tag are large enough. *)
Class SnowLaws (SC : SessionCrypto) (SL : SessionCryptoLaws SC) (NZ : Snow SC) : Type := {
  x25519_public : list byte → list byte;
  pattern_known : pattern_parses NOISE_PATTERN = true;
  xx_pair : list byte → list byte → nat → HandshakeState → HandshakeState → Prop;
  xx_build ei er ski skr rs : length ski = 32%nat → length skr = 32%nat → length rs = 32%nat →
    ∃ hi hr, build_initiator ei ski rs = Some hi ∧ build_responder er skr = Some hr ∧ xx_pair ski skr 0 hi hr;
  xx_msg1 ski skr hi hr p buf : xx_pair ski skr 0 hi hr → 32 + zlen p + 16 <= buf <= u16_max →
    ∃ hi' m, hs_write_message hi p buf = (hi', Some m) ∧ zlen m = 32 + zlen p
      ∧ ∀ rbuf, zlen m <= rbuf → ∃ hr', hs_read_message hr m rbuf = (hr', Some p) ∧ xx_pair ski skr 1 hi' hr';
  xx_msg2 ski skr hi hr p buf : xx_pair ski skr 1 hi hr → 96 + zlen p + 16 <= buf <= u16_max →
    ∃ hr' m, hs_write_message hr p buf = (hr', Some m) ∧ zlen m = 96 + zlen p
      ∧ ∀ rbuf, zlen m <= rbuf → ∃ hi', hs_read_message hi m rbuf = (hi', Some p) ∧ xx_pair ski skr 2 hi' hr';
  xx_msg3 ski skr hi hr p buf : xx_pair ski skr 2 hi hr → 64 + zlen p + 16 <= buf <= u16_max →
    ∃ hi' m, hs_write_message hi p buf = (hi', Some m) ∧ zlen m = 64 + zlen p
      ∧ ∀ rbuf, zlen m <= rbuf → ∃ hr', hs_read_message hr m rbuf = (hr', Some p) ∧ xx_pair ski skr 3 hi' hr';
  xx_hash ski skr n hi hr : xx_pair ski skr n hi hr →
    get_handshake_hash hi = get_handshake_hash hr ∧ length (get_handshake_hash hr) = 32%nat;
  xx_static ski skr hi hr : xx_pair ski skr 2 hi hr → get_remote_static hi = Some (x25519_public skr);
  xx_transport ski skr hi hr : xx_pair ski skr 3 hi hr →
    ∃ ti tr, into_transport_mode hi = Some ti ∧ into_transport_mode hr = Some tr
      ∧ noise_channel ti tr [] ∧ noise_channel tr ti []
      ∧ transport_remote_static tr = Some (x25519_public ski);
  x25519_public_len sk : length (x25519_public sk) = 32%nat;
}.

(** ML-KEM-768: lengths, key validation of exported keys, and decapsulation of
    what was encapsulated. *)
Class MlKemLaws (KM : MlKem768) : Prop := {
  ek_len ek : zlen (ek_to_bytes ek) = MLKEM_EK_BYTES;
  ek_valid ek : ek_new (ek_to_bytes ek) = Some ek;
  ct_len r ek : zlen (kem_encapsulate r ek).1 = MLKEM_CT_BYTES;
  kem_correct rnd dk ek r ct ss :
    kem_generate rnd = (dk, ek) → kem_encapsulate r ek = (ct, ss) → kem_decapsulate dk ct = ss;
}.

Section run.
Context {SC : SessionCrypto} {SL : SessionCryptoLaws SC} {NZ : Snow SC} {NL : SnowLaws SC SL NZ}.
Context {KM : MlKem768} {KL : MlKemLaws KM} {ED : Ed25519}.
Context (ski skr : list byte).

(** The two ends after [n] messages. *)
Record hs_link (n : nat) (i : HandshakeInitiator) (r : HandshakeResponder) (ek : EncapsulationKey) : Prop := {
  hl_noise : xx_pair ski skr n (i_noise i) (r_noise r);
  hl_iver : i_version i = WIRE_VERSION;
  hl_rver : r_version r = WIRE_VERSION;
  hl_kem : ∃ rnd, kem_generate rnd = (mlkem_dk i, ek);
  hl_ek : mlkem_ek_bytes i = ek_to_bytes ek;
  hl_rs : expected_remote_static i = x25519_public skr;
  hl_token : require_token r = true;
  hl_stage : match n with
             | 0%nat => i_state i = IFresh ∧ r_state r = RAwaitMessage1
             | 1%nat => i_state i = IAwaitMessage2 ∧ r_state r = RAwaitMessage3
                        ∧ peer_mlkem_ek r = Some (ek_to_bytes ek)
             | _ => i_state i = IAwaitMessage2 ∧ r_state r = RAwaitMessage3
                    ∧ peer_mlkem_ek r = Some (ek_to_bytes ek)
                    ∧ ∃ ct ss, i_mlkem_ct i = Some ct ∧ i_mlkem_ss i = Some ss
                               ∧ r_mlkem_ct r = Some ct ∧ r_mlkem_ss r = Some ss
             end;
}.

(** What the exchange never touches. *)
Definition i_frame (i i' : HandshakeInitiator) : Prop := token_bytes i' = token_bytes i.
Definition r_frame (r r' : HandshakeResponder) : Prop :=
  local_ed25519_pk r' = local_ed25519_pk r ∧ operator_pk r' = operator_pk r.

Lemma link_new ei krnd er ed_pk op_pk : length ski = 32%nat → length skr = 32%nat →
  ∃ i r ek, new_common ei krnd ski (x25519_public skr) = Ok i ∧ HandshakeResponder_new er skr ed_pk op_pk = Ok r
    ∧ hs_link 0 i r ek ∧ token_bytes i = None ∧ local_ed25519_pk r = ed_pk ∧ operator_pk r = op_pk.
Proof.
  intros H1 H2. destruct (xx_build ei er ski skr (x25519_public skr) H1 H2 (x25519_public_len _)) as (hi & hr & Hi & Hr & Hx).
  unfold new_common, HandshakeResponder_new, build_noise_base, generate_keypair.
  rewrite pattern_known, Hi, Hr. cbn [ok_or]. destruct (kem_generate krnd) as [dk ek] eqn:Ek.
  eexists _, _, ek. split_and!; [done|done| |done..].
  split; cbn; try done. by exists krnd.
Qed.

Lemma link_token n i r ek tb : hs_link n i r ek → hs_link n (set_token_bytes tb i) r ek.
Proof. intros []. by split. Qed.

(** Message 1. *)
Lemma exchange_1 i r ek : hs_link 0 i r ek →
  ∃ i' m r', write_message_1 i = (i', Ok m) ∧ zlen m = MSG_1_LEN ∧ read_message_1 m r = (r', Ok tt)
    ∧ hs_link 1 i' r' ek ∧ i_frame i i' ∧ r_frame r r'.
Proof.
  intros [Hx V1 V2 K E RS RT [S1 S2]].
  destruct (xx_msg1 _ _ _ _ (mlkem_ek_bytes i) (NOISE_MSG_1_LEN + 16) Hx) as (hi & m & Hw & Hm & Hrd).
  { rewrite E, ek_len. unfold u16_max. lia. }
  destruct (Hrd NOISE_MSG_1_LEN) as (hr & Hr & Hx1). { rewrite Hm, E, ek_len. lia. }
  assert (zlen m = NOISE_MSG_1_LEN) as Lm by (by rewrite Hm, E, ek_len).
  exists (set_i_state IAwaitMessage2 (set_i_noise hi i)), (Message1_encode (mkM1 WIRE_VERSION m)).
  exists (set_r_await3 (mlkem_ek_bytes i) (set_r_noise hr r)).
  split; [|split; [|split]].
  - unfold write_message_1, st_bind, st_get, noise_write. rewrite bool_decide_false by (by intros []).
    rewrite Hw, V1. by rewrite bool_decide_false by (rewrite Lm; by intros []).
  - rewrite m1_encode_len. cbn [noise_msg_1]. lia.
  - unfold read_message_1, st_bind, st_get, st_lift, noise_read. rewrite bool_decide_false by (by intros []).
    rewrite m1_roundtrip by (done || (unfold in_u16, u16_max; lia)). cbn [m1_version noise_msg_1].
    rewrite bool_decide_false by (rewrite V2; by intros []). rewrite Hr.
    rewrite bool_decide_false by (rewrite E, ek_len; by intros []). reflexivity.
  - split_and!; [|done..]. split; cbn; try done. by rewrite E.
Qed.

(** Message 2, with the responder's end also as [write_message_2_for_circuit_hop]
    reports it. *)
Lemma exchange_2 i r ek krnd : hs_link 1 i r ek →
  ∃ r' m i', write_message_2 krnd r = (r', Ok m) ∧ zlen m = MSG_2_LEN ∧ read_message_2 m i = (i', Ok tt)
    ∧ hs_link 2 i' r' ek ∧ i_frame i i' ∧ r_frame r r'.
Proof.
  intros [Hx V1 V2 [rnd K] E RS RT (S1 & S2 & Pk)].
  destruct (kem_encapsulate krnd ek) as [ct ss] eqn:Ec.
  assert (zlen ct = MLKEM_CT_BYTES) as Lc by (by rewrite <- (ct_len krnd ek), Ec).
  destruct (xx_msg2 _ _ _ _ ct (NOISE_MSG_2_LEN + 16) Hx) as (hr & m & Hw & Hm & Hrd).
  { rewrite Lc. unfold u16_max. lia. }
  assert (zlen m = NOISE_MSG_2_LEN) as Lm by (by rewrite Hm, Lc).
  destruct (Hrd NOISE_MSG_2_LEN) as (hi & Hr & Hx2). { lia. }
  exists (set_r_noise hr (set_r_kem ct ss r)), (Message2_encode (mkM2 WIRE_VERSION m)). exists (set_i_kem ct ss (set_i_noise hi i)).
  split; [|split; [|split]].
  - unfold write_message_2, st_bind, st_get, st_lift, st_mod, noise_write, MlKemEk_from_bytes.
    rewrite bool_decide_false by (by intros []). rewrite Pk. cbn [ok_or].
    rewrite bool_decide_false by (rewrite ek_len; by intros []). rewrite ek_valid. cbn [ok_or].
    rewrite Ec. cbn [r_noise set_r_kem]. rewrite Hw, V2.
    by rewrite bool_decide_false by (rewrite Lm; by intros []).
  - rewrite m2_encode_len. cbn [noise_msg_2]. lia.
  - unfold read_message_2, st_bind, st_get, st_lift, noise_read. rewrite bool_decide_false by (by intros []).
    rewrite m2_roundtrip by (done || (unfold in_u16, u16_max; lia)). cbn [m2_version noise_msg_2].
    rewrite bool_decide_false by (rewrite V1; by intros []). rewrite Hr.
    rewrite bool_decide_false by (rewrite Lc; by intros []). cbn [i_noise set_i_noise].
    rewrite (xx_static _ _ _ _ Hx2). cbn [ok_or expected_remote_static set_i_noise].
    rewrite bool_decide_false by (rewrite RS; by intros []). cbn [mlkem_dk set_i_noise].
    by rewrite (kem_correct rnd _ ek krnd ct ss K Ec).
  - split_and!; [|done..]. split; cbn; try done; [by exists rnd|]. split_and!; [done..|]. by exists ct, ss.
Qed.

(** The bytes both ends derive after message 2. *)
Lemma hop_agree i r ek : hs_link 2 i r ek →
  ∃ ss ct h, noise_h_32 (r_noise r) = Ok h ∧ r_mlkem_ss r = Some ss ∧ r_mlkem_ct r = Some ct
    ∧ peer_mlkem_ek r = Some (ek_to_bytes ek)
    ∧ circuit_hop_binding i = Ok (ss, derive_session_binding (r_version r) h (ek_to_bytes ek) ct ss).
Proof.
  intros [Hx V1 V2 _ E _ _ (_ & _ & Pk & ct & ss & I1 & I2 & R1 & R2)].
  destruct (xx_hash _ _ _ _ _ Hx) as [Hh Lh].
  exists ss, ct, (get_handshake_hash (r_noise r)). unfold circuit_hop_binding, noise_h_32.
  rewrite I2, I1, Hh. cbn [ok_or]. rewrite !bool_decide_false by (rewrite Lh; by intros []).
  by rewrite V1, V2, E.
Qed.

(** The verdict of the responder on the payload of message 3. *)
Definition judge (r : HandshakeResponder) (tb : list byte) (flt : Faults) : stm TokenVerifier SessionError unit :=
  if bool_decide (zlen tb = FS_TOKEN_PAYLOAD_LEN) then verify_fs r tb flt else verify_legacy r tb flt.

Definition token_sized (tb : list byte) : Prop := zlen tb = TOKEN_PAYLOAD_LEN ∨ zlen tb = FS_TOKEN_PAYLOAD_LEN.

Lemma judge_frame r r' tb flt : r_frame r r' → judge r' tb flt = judge r tb flt.
Proof. intros [H1 H2]. unfold judge, verify_fs, verify_legacy. by rewrite H1, H2. Qed.

(** The keys of the two ends of one session. *)
Definition keys_match (ki kr : SessionKeys) : Prop :=
  keys_binding ki = keys_binding kr ∧ keys_mlkem_ss ki = keys_mlkem_ss kr
  ∧ noise_channel (keys_transport ki) (keys_transport kr) []
  ∧ noise_channel (keys_transport kr) (keys_transport ki) []
  ∧ transport_remote_static (keys_transport kr) = Some (x25519_public ski).

Lemma m3_payload_len i tb : token_bytes i = Some tb → token_sized tb → m3_payload i = (tb, 64 + zlen tb).
Proof.
  intros Ht Hs. unfold m3_payload. rewrite Ht. case_bool_decide as H; [by rewrite H|].
  destruct Hs as [->|Hs]; done.
Qed.

(** Message 3. *)
Lemma exchange_3 i r ek tb flt v v' : hs_link 2 i r ek → token_bytes i = Some tb → token_sized tb →
  judge r tb flt v = (v', Ok tt) →
  ∃ n ki kr, write_message_3 i = Ok (Message3_encode (mkM3 n), ki) ∧ zlen n = 64 + zlen tb
    ∧ read_message_3 r (Message3_encode (mkM3 n)) flt v = (v', Ok kr) ∧ keys_match ki kr.
Proof.
  intros [Hx V1 V2 _ E _ RT (S1 & S2 & Pk & ct & ss & I1 & I2 & R1 & R2)] Ht Hs Hj.
  destruct (xx_msg3 _ _ _ _ tb (256 + FS_TOKEN_PAYLOAD_LEN) Hx) as (hi & m & Hw & Hm & Hrd).
  { unfold u16_max. destruct Hs as [->| ->]; lia. }
  destruct (Hrd (256 + FS_TOKEN_PAYLOAD_LEN)) as (hr & Hr & Hx3). { destruct Hs as [Hs|Hs]; lia. }
  destruct (xx_hash _ _ _ _ _ Hx3) as [Hh Lh].
  destruct (xx_transport _ _ _ _ Hx3) as (ti & tr & Ti & Tr & C1 & C2 & Ts).
  set (b := derive_session_binding WIRE_VERSION (get_handshake_hash hr) (ek_to_bytes ek) ct ss).
  exists m, (mkKeys b ti ss), (mkKeys b tr ss). split_and!; [|done| |done..].
  - unfold write_message_3. rewrite bool_decide_false by (rewrite S1; by intros []).
    rewrite (m3_payload_len i tb Ht Hs), Hw. rewrite bool_decide_false by (rewrite Hm; by intros []).
    unfold noise_h_32. rewrite Hh, bool_decide_false by (rewrite Lh; by intros []).
    rewrite I2, I1, Ti. cbn [ok_or]. by rewrite V1, E.
  - unfold read_message_3, st_bind, st_lift, st_ret. rewrite bool_decide_false by (rewrite S2; by intros []).
    rewrite m3_roundtrip by (rewrite Hm; unfold m3_len; destruct Hs as [->| ->]; lia).
    cbn [noise_msg_3]. rewrite Hm, RT, Hr. unfold responder_keys, noise_h_32.
    rewrite (bool_decide_false (length _ ≠ 32%nat)) by (rewrite Lh; by intros []). rewrite Pk, R1, R2, Tr, V2. cbn [ok_or].
    unfold judge in Hj. destruct Hs as [Hs|Hs]; rewrite Hs in Hj |- *.
    + rewrite bool_decide_false in Hj by lia. rewrite (bool_decide_true (64 + 136 = 200)) by lia.
      cbn [orb andb negb]. by rewrite Hj.
    + rewrite bool_decide_true in Hj by lia. rewrite (bool_decide_false (64 + 248 = 200)) by lia.
      rewrite (bool_decide_true (64 + 248 = 312)) by lia. cbn [orb andb negb]. by rewrite Hj.
Qed.

(** C26: A circuit hop's two ends agree. When a client extends a circuit to a
    bridge it knows, and both static keys have 32 bytes, the handshake succeeds
    on both sides and the secret and binding the client reads off after message 2 are those the bridge returns
    with it: what both derive their hop keys from. *)
Theorem circuit_hop_agreement ei krnd er erb ed_pk op_pk :
  length ski = 32%nat → length skr = 32%nat →
  ∃ i0 i1 i2 r0 r1 r2 m1 m2 ss b,
    new_for_circuit_hop ei krnd ski (x25519_public skr) = Ok i0 ∧ HandshakeResponder_new er skr ed_pk op_pk = Ok r0
    ∧ write_message_1 i0 = (i1, Ok m1) ∧ read_message_1 m1 r0 = (r1, Ok tt)
    ∧ write_message_2_for_circuit_hop erb r1 = (r2, Ok (m2, ss, b))
    ∧ read_message_2 m2 i1 = (i2, Ok tt) ∧ circuit_hop_binding i2 = Ok (ss, b).
Proof.
  intros H1 H2. destruct (link_new ei krnd er ed_pk op_pk H1 H2) as (i0 & r0 & ek & Hi & Hr & L0 & _ & _ & _).
  destruct (exchange_1 i0 r0 ek L0) as (i1 & m1 & r1 & W1 & _ & R1 & L1 & _ & _).
  destruct (exchange_2 i1 r1 ek erb L1) as (r2 & m2 & i2 & W2 & _ & R2 & L2 & _ & _).
  destruct (hop_agree i2 r2 ek L2) as (ss & ct & h & Hh & Hss & Hct & Hek & Hb).
  eexists i0, i1, i2, r0, r1, r2, m1, m2, ss, _. split_and!; [exact Hi|done..| |done|exact Hb].
  unfold write_message_2_for_circuit_hop, st_bind, st_get, st_lift, st_ret. by rewrite W2, Hh, Hss, Hek, Hct.
Qed.
End run.
