(* ===== verification/HandshakeAuth.v ===== *)
(** * Who is let in

    What it takes for a responder to complete a handshake: a credential for this
    bridge, signed by a key the bridge trusts, unexpired, and not presented
    before. Both directions: a session implies such a credential, and such a
    credential is let_in. *)

From stdpp Require Import base numbers list gmap strings.
From Stdlib Require Import ZArith Lia Strings.Byte.
From S2P Require Import Prelude Bytes SessionFrames Signature Token HandshakeWire ReplayLog ReplaySet Handshake HandshakeRun.

(** A credential as the responder reads it off message 3. *)
Inductive credential : Set :=
| CLegacy (t : CapabilityToken) (k : AcceptedTokenKind)
| CFs (t : FsCapabilityToken).

Definition cred_id (c : credential) : list byte :=
  match c with CLegacy t _ => token_id t | CFs t => fs_token_id t end.
Definition cred_expiry (c : credential) : Z :=
  match c with CLegacy t _ => expires_at t | CFs t => fs_expires_at t end.
Definition cred_bridge (c : credential) : list byte :=
  match c with CLegacy t _ => bridge_ed25519_pk t | CFs t => fs_bridge_pk t end.
Definition cred_kind (c : credential) : AcceptedTokenKind :=
  match c with CLegacy _ k => k | CFs _ => Bootstrap end.
Definition cred_bytes (c : credential) : list byte :=
  match c with CLegacy t _ => CapabilityToken_encode t | CFs t => FsCapabilityToken_encode t end.
Definition cred_wf (c : credential) : Prop :=
  match c with CLegacy t _ => token_wf t | CFs t => fs_wf t end.

(** How long the replay set keeps it. *)
Definition retention (v : TokenVerifier) (c : credential) : Z :=
  saturating_add_u64 (cred_expiry c) (grace_seconds v).

Section auth.
Context {SC : SessionCrypto} {NZ : Snow SC} {KM : MlKem768} {ED : Ed25519}.

(** The operator's key, or during a rotation the previous one. *)
Definition trusted_root (op_pk : list byte) (v : TokenVerifier) (pk : list byte) : Prop :=
  pk = op_pk ∨ accept_prev_operator_pk v = Some pk.

(** The signatures that stand behind a credential. *)
Definition cred_signed (op_pk : list byte) (v : TokenVerifier) (c : credential) : Prop :=
  match c with
  | CLegacy t Bootstrap => ∃ pk, trusted_root op_pk v pk ∧ valid_point pk = true
      ∧ verify_strict pk (encode_signed_prefix t) (signature t) = true
  | CLegacy t Refresh => ∃ pk, accept_refresh_signed_by v = Some pk ∧ valid_point pk = true
      ∧ verify_strict pk (refresh_prefix t) (signature t) = true
  | CFs t => ∃ pk, trusted_root op_pk v pk ∧ verify_chain pk (now_unix v) (grace_seconds v) t = Ok tt
  end.

(** Everything but the replay set. *)
Definition acceptable (ed_pk op_pk : list byte) (v : TokenVerifier) (c : credential) : Prop :=
  cred_wf c ∧ cred_signed op_pk v c ∧ cred_bridge c = ed_pk ∧ now_unix v <= retention v c.

Lemma is_ok_true {E A} (r : result E A) : is_ok r = true ↔ ∃ a, r = Ok a.
Proof. destruct r; naive_solver. Qed.

Lemma is_ok_signature pk t : is_ok (verify_signature pk t) = true ↔
  valid_point pk = true ∧ verify_strict pk (encode_signed_prefix t) (signature t) = true.
Proof.
  rewrite is_ok_true, <- verify_signature_ok. split; [intros [[] H]; exact H|by exists tt].
Qed.

Lemma is_ok_chain pk n g t : is_ok (verify_chain pk n g t) = true ↔ verify_chain pk n g t = Ok tt.
Proof. rewrite is_ok_true. split; [intros [[] H]; exact H|by exists tt]. Qed.

Lemma prev_path (P : list byte → bool) (o : option (list byte)) :
  match o with Some pk => P pk | None => false end = true ↔ ∃ pk, o = Some pk ∧ P pk = true.
Proof. destruct o; naive_solver. Qed.

Lemma refresh_path_ok pk t k : verify_refresh_path pk t = Ok k ↔
  k = Refresh ∧ valid_point pk = true ∧ verify_strict pk (refresh_prefix t) (signature t) = true.
Proof.
  unfold verify_refresh_path. destruct (valid_point pk); cbn; [|naive_solver].
  destruct (verify_strict _ _ _); naive_solver.
Qed.

(** The kind the responder settles on is one whose signature verified. *)
Lemma token_kind_sound op_pk v t k : token_kind_of op_pk v t = Some k → cred_signed op_pk v (CLegacy t k).
Proof.
  unfold token_kind_of. destruct (_ || _) eqn:Eo.
  - intros [= <-]. apply orb_true_iff in Eo as [H|H].
    + apply is_ok_signature in H. exists op_pk. by split; [left|].
    + apply (prev_path (λ pk, is_ok (verify_signature pk t))) in H as (pk & Hp & H%is_ok_signature).
      exists pk. by split; [right|].
  - destruct (accept_refresh_signed_by v) as [pk|] eqn:Er; [|done].
    destruct (verify_refresh_path pk t) as [k'|] eqn:Ep; [|done]. intros [= <-].
    apply refresh_path_ok in Ep as (-> & ? & ?). by exists pk.
Qed.

Lemma token_kind_root op_pk v t pk : trusted_root op_pk v pk → valid_point pk = true →
  verify_strict pk (encode_signed_prefix t) (signature t) = true → token_kind_of op_pk v t = Some Bootstrap.
Proof.
  intros Hr Hv Hs. assert (is_ok (verify_signature pk t) = true) as Hok by (by apply is_ok_signature).
  unfold token_kind_of. destruct Hr as [->|Hp]; [by rewrite Hok|].
  rewrite Hp, Hok, orb_true_r. done.
Qed.

Lemma chain_root op_pk v t : is_ok (verify_chain op_pk (now_unix v) (grace_seconds v) t)
  || match accept_prev_operator_pk v with
     | Some pk => is_ok (verify_chain pk (now_unix v) (grace_seconds v) t)
     | None => false
     end = true ↔ cred_signed op_pk v (CFs t).
Proof.
  rewrite orb_true_iff, is_ok_chain, (prev_path (λ pk, is_ok (verify_chain pk (now_unix v) (grace_seconds v) t))).
  split.
  - intros [H|(pk & Hp & H%is_ok_chain)]; [exists op_pk|exists pk]; unfold trusted_root; naive_solver.
  - intros (pk & [->|Hp] & H); [by left|]. right. exists pk. by rewrite is_ok_chain.
Qed.

(** The tail both branches share. *)
Definition insert_step (v : TokenVerifier) (c : credential) (flt : Faults) : ReplayBackend * bool :=
  backend_check_and_insert (cred_id c) (retention v c) (now_unix v) flt (replay_set v).

Definition let_in (v : TokenVerifier) (c : credential) (flt : Faults) (v' : TokenVerifier) : Prop :=
  (insert_step v c flt).2 = true ∧ v' = set_last (cred_id c) (cred_kind c) (set_replay (insert_step v c flt).1 v).

(** What judging a payload does to the verifier. *)
Definition verdict (ed_pk op_pk : list byte) (v : TokenVerifier) (p : list byte) (flt : Faults)
  (v' : TokenVerifier) (res : result SessionError unit) : Prop :=
  (v' = v ∧ res ≠ Ok tt)
  ∨ ∃ c, cred_bytes c = p ∧ acceptable ed_pk op_pk v c
      ∧ ((insert_step v c flt).2 = false ∧ v' = set_replay (insert_step v c flt).1 v ∧ res ≠ Ok tt
         ∨ let_in v c flt v' ∧ res = Ok tt).

Lemma insert_tail v c flt v' x ed_pk op_pk p :
  cred_bytes c = p → acceptable ed_pk op_pk v c →
  (ok <- replay_insert (cred_id c) (retention v c) flt ;;
   if negb ok then st_err (TokenVerification "token replayed or capacity")
   else st_mod (set_last (cred_id c) (cred_kind c))) v = (v', x) →
  verdict ed_pk op_pk v p flt v' x.
Proof.
  intros Hb Ha. unfold st_bind, replay_insert. destruct (backend_check_and_insert _ _ _ _ _) as [b ok] eqn:Eb.
  assert (insert_step v c flt = (b, ok)) as Hs by done.
  intros H. right. exists c. split_and!; [done..|]. unfold let_in. rewrite Hs.
  destruct ok; cbn in H; injection H as <- <-; [right|left]; by split_and!.
Qed.

Lemma verify_legacy_spec r p flt v v' x : verify_legacy r p flt v = (v', x) →
  verdict (local_ed25519_pk r) (operator_pk r) v p flt v' x.
Proof.
  unfold verify_legacy. case_bool_decide; [intros [= <- <-]; by left|].
  destruct (CapabilityToken_decode p) as [t|] eqn:Ed; [|intros [= <- <-]; by left].
  destruct (token_decode_inv p t Ed) as [W Hp]. unfold st_bind at 1, st_get.
  destruct (token_kind_of _ v t) as [k|] eqn:Ek; [|intros [= <- <-]; by left].
  apply token_kind_sound in Ek. unfold is_for_bridge, is_expired.
  case_bool_decide as Hbr; cbn [negb]; [|intros [= <- <-]; by left].
  case_bool_decide as Hex; [intros [= <- <-]; by left|].
  apply (insert_tail v (CLegacy t k) flt); [done|].
  split_and!; [done..|]. unfold retention. cbn. lia.
Qed.

Lemma verify_fs_spec r p flt v v' x : verify_fs r p flt v = (v', x) →
  verdict (local_ed25519_pk r) (operator_pk r) v p flt v' x.
Proof.
  unfold verify_fs. case_bool_decide; [intros [= <- <-]; by left|].
  destruct (FsCapabilityToken_decode p) as [t|] eqn:Ed; [|intros [= <- <-]; by left].
  destruct (fs_decode_inv p t Ed) as [W Hp]. unfold st_bind at 1, st_get.
  destruct (_ || _) eqn:Ek; cbn [negb]; [|intros [= <- <-]; by left].
  apply chain_root in Ek. unfold fs_is_for_bridge, fs_is_expired.
  case_bool_decide as Hbr; cbn [negb]; [|intros [= <- <-]; by left].
  case_bool_decide as Hex; [intros [= <- <-]; by left|].
  apply (insert_tail v (CFs t) flt); [done|].
  split_and!; [done..|]. unfold retention. cbn. lia.
Qed.

(** The converse: an acceptable credential that the replay set takes is let in. *)
Lemma verify_complete r c flt v : acceptable (local_ed25519_pk r) (operator_pk r) v c →
  (insert_step v c flt).2 = true → ∃ v', judge r (cred_bytes c) flt v = (v', Ok tt).
Proof.
  intros (W & S & B & N) Hi. unfold judge, retention in *.
  destruct c as [t k|t]; cbn [cred_bytes cred_wf cred_bridge cred_expiry] in *.
  - assert (zlen (CapabilityToken_encode t) = 136) as L by (unfold zlen; by rewrite token_encode_len).
    rewrite bool_decide_false by lia. unfold verify_legacy.
    rewrite bool_decide_false by (rewrite L; by intros []). rewrite token_roundtrip by done.
    unfold st_bind at 1, st_get. assert (∃ k', token_kind_of (operator_pk r) v t = Some k') as [k' ->].
    { destruct k; [destruct S as (pk & Hr & Hv & Hs); eexists; by eapply token_kind_root|].
      destruct S as (pk & Hr & Hv & Hs). unfold token_kind_of. rewrite Hr.
      rewrite (proj2 (refresh_path_ok pk t Refresh)) by done. destruct (_ || _); by eexists. }
    unfold is_for_bridge, is_expired. rewrite bool_decide_true by done. rewrite bool_decide_false by lia.
    cbn [negb]. unfold st_bind, replay_insert. unfold insert_step in Hi. cbn in Hi.
    destruct (backend_check_and_insert _ _ _ _ _) as [b ok]. cbn in Hi. subst ok. by eexists.
  - assert (zlen (FsCapabilityToken_encode t) = 248) as L by (unfold zlen; by rewrite fs_encode_len).
    rewrite bool_decide_true by lia. unfold verify_fs.
    rewrite bool_decide_false by (rewrite L; by intros []). rewrite fs_roundtrip by done.
    unfold st_bind at 1, st_get. apply chain_root in S. rewrite S. cbn [negb].
    unfold fs_is_for_bridge, fs_is_expired. rewrite bool_decide_true by done. rewrite bool_decide_false by lia.
    cbn [negb]. unfold st_bind, replay_insert. unfold insert_step in Hi. cbn in Hi.
    destruct (backend_check_and_insert _ _ _ _ _) as [b ok]. cbn in Hi. subst ok. by eexists.
Qed.

(** What a whole [read_message_3] does to the verifier, and when it succeeds. *)
Lemma read_message_3_spec r w flt v v' x : require_token r = true → read_message_3 r w flt v = (v', x) →
  (v' = v ∧ (∀ k, x ≠ Ok k)) ∨ ∃ c, acceptable (local_ed25519_pk r) (operator_pk r) v c
    ∧ (∃ hs n, Message3_decode w = Ok (mkM3 n)
         ∧ hs_read_message (r_noise r) n (256 + FS_TOKEN_PAYLOAD_LEN) = (hs, Some (cred_bytes c)))
    ∧ ((insert_step v c flt).2 = false ∧ v' = set_replay (insert_step v c flt).1 v ∧ (∀ k, x ≠ Ok k)
       ∨ let_in v c flt v').
Proof.
  intros RT. unfold read_message_3, st_bind at 1, st_lift at 1. rewrite RT.
  case_bool_decide; [intros [= <- <-]; by left|].
  destruct (Message3_decode w) as [[n]|]; [|intros [= <- <-]; by left]. cbn [noise_msg_3 andb negb].
  destruct (negb _) eqn:Ec; [intros [= <- <-]; by left|].
  destruct (hs_read_message _ _ _) as [hs [p|]] eqn:Eh; [|intros [= <- <-]; by left].
  set (j := if bool_decide (zlen n = 200) then verify_legacy r p flt
            else if bool_decide (zlen n = 312) then verify_fs r p flt else st_ret tt).
  unfold st_bind. destruct (j v) as [v1 y] eqn:Ej.
  assert (verdict (local_ed25519_pk r) (operator_pk r) v p flt v1 y) as V.
  { subst j. case_bool_decide; [by apply verify_legacy_spec|].
    case_bool_decide; [by apply verify_fs_spec|]. done. }
  intros Hx. destruct V as [[-> Hy]|(c & <- & Ha & Hc)].
  { destruct y as [[]|]; [done|]. injection Hx as <- <-. by left. }
  right. exists c. split_and!; [done|by exists hs, n|]. destruct Hc as [(Hf & -> & Hy)|[Hl ->]].
  - destruct y as [[]|]; [done|]. injection Hx as <- <-. by left.
  - unfold st_lift in Hx. injection Hx as <- <-. by right.
Qed.
End auth.

(** ** Unforgeable signatures

    [ledger pk i]: the holder of [pk] has issued [i]. [seen sg]: the signature
    [sg] is among those that clients can present. A key is honest when such
    signatures verify under it only for what it issued. *)
Section issued.
Context {ED : Ed25519} (ledger : list byte → Issue → Prop) (seen : list byte → Prop).

Definition honest_key (pk : list byte) : Prop :=
  unforgeable seen pk (λ m, ∃ i, ledger pk i ∧ issue_wf i ∧ m = issue_bytes i).

(** The keys a bridge relies on: its operators', its refresh issuer's, and the
    subkeys the operators certified. *)
Definition honest_keys (op_pk : list byte) (v : TokenVerifier) : Prop :=
  (∀ pk, trusted_root op_pk v pk → honest_key pk)
  ∧ (∀ pk, accept_refresh_signed_by v = Some pk → honest_key pk)
  ∧ (∀ pk ep sub until, trusted_root op_pk v pk → ledger pk (ICert ep sub until) → honest_key sub).

Definition cred_seen (c : credential) : Prop :=
  match c with CLegacy t _ => seen (signature t) | CFs t => seen (root_sig (fs_cert t)) ∧ seen (token_sig t) end.

Definition cred_issued (op_pk : list byte) (v : TokenVerifier) (c : credential) : Prop :=
  match c with
  | CLegacy t Bootstrap => ∃ pk, trusted_root op_pk v pk
      ∧ ledger pk (IBootstrap (token_id t) (bridge_ed25519_pk t) (expires_at t))
  | CLegacy t Refresh => ∃ pk, accept_refresh_signed_by v = Some pk
      ∧ ledger pk (IRefresh (token_id t) (bridge_ed25519_pk t) (expires_at t))
  | CFs t => ∃ pk, trusted_root op_pk v pk
      ∧ ledger pk (ICert (cert_epoch (fs_cert t)) (subkey_pk (fs_cert t)) (cert_valid_until (fs_cert t)))
      ∧ ledger (subkey_pk (fs_cert t)) (IFs (fs_token_id t) (fs_bridge_pk t) (fs_expires_at t)
                                            (cert_epoch (fs_cert t)) (subkey_pk (fs_cert t)))
      ∧ now_unix v <= saturating_add_u64 (cert_valid_until (fs_cert t)) (grace_seconds v)
  end.

(** What verifies as an issue of some kind was issued as that, with those
    fields. *)
Lemma honest_issue pk i sg : honest_key pk → issue_wf i → seen sg → verify_strict pk (issue_bytes i) sg = true → ledger pk i.
Proof.
  intros H W Hsg Hv. destruct (H _ _ Hsg Hv) as (j & Hj & Wj & Heq). by rewrite (issue_bytes_inj i j W Wj Heq).
Qed.

Lemma cred_signed_issued op_pk v c : honest_keys op_pk v → cred_wf c → cred_seen c →
  cred_signed op_pk v c → cred_issued op_pk v c.
Proof.
  intros (H1 & H2 & H3) W V S. destruct c as [t [|]|t]; cbn [cred_wf cred_seen] in W, V; [| |destruct V as [V1 V2]].
  - destruct S as (pk & Hr & _ & Hs), W as (? & ? & ? & _). exists pk. split; [done|].
    by apply (honest_issue pk (IBootstrap _ _ _) (signature t) (H1 pk Hr)).
  - destruct S as (pk & Hr & _ & Hs), W as (? & ? & ? & _). exists pk. split; [done|].
    by apply (honest_issue pk (IRefresh _ _ _) (signature t) (H2 pk Hr)).
  - destruct S as (pk & Hr & (_ & Hc & _ & Hs & Hn)%verify_chain_ok), W as (? & ? & ? & (? & ? & ? & _) & _).
    exists pk. assert (ledger pk (ICert (cert_epoch (fs_cert t)) (subkey_pk (fs_cert t)) (cert_valid_until (fs_cert t)))) as Hl.
    { by apply (honest_issue pk (ICert _ _ _) (root_sig (fs_cert t)) (H1 pk Hr)). }
    split_and!; [done..| |done].
    by apply (honest_issue _ (IFs _ _ _ _ _) (token_sig t) (H3 _ _ _ _ Hr Hl)).
Qed.
End issued.
