(* ===== verification/HandshakeTunnel.v ===== *)
(** * Tunnels: connect and accept (crates/session/src/tunnel.rs)

    The drivers that run a handshake over a byte stream, [connect] and
    [connect_fs] at the client, [accept] and [accept_with_peer_static] at the
    bridge, with the padded frames around the messages. A driver is a [proc]: a
    tree of the reads and writes it makes, with what it does when one fails. The
    random padding and the randomness of the handshake are arguments. *)

From stdpp Require Import base numbers list gmap strings relations.
From Stdlib Require Import ZArith Lia Strings.Byte.
From S2P Require Import Prelude Bytes SessionFrames SessionLink SessionStream Signature Token HandshakeWire ReplayLog ReplaySet Handshake HandshakeRun HandshakeAuth.

(** ** Programs on a byte stream *)
Inductive proc (A : Type) : Type :=
| PRet (a : A)
| PWrite (bs : list byte) (ok err : proc A)
| PRead (n : nat) (ok : list byte → proc A) (err : proc A).
Arguments PRet {A} a.
Arguments PWrite {A} bs ok err.
Arguments PRead {A} n ok err.

Fixpoint pbind {A B} (p : proc A) (k : A → proc B) : proc B :=
  match p with
  | PRet a => k a
  | PWrite bs ok err => PWrite bs (pbind ok k) (pbind err k)
  | PRead n ok err => PRead n (λ l, pbind (ok l) k) (pbind err k)
  end.

Abbreviation HS_PAD_MAX := 1023 (only parsing).

(** What the padding draws: the two bytes of its length (as a number) and its
    content. *)
Record PadDraw : Set := mkPad { pad_draw : option Z; pad_fill : list byte }.

(** ** Padded frames *)
Definition write_padded_handshake_floor (msg : list byte) (floor : Z) (d : PadDraw) : proc (result SessionError unit) :=
  let base := Z.max (zlen msg) floor in
  let pad_extra := match pad_draw d with Some v => v `mod` (HS_PAD_MAX + 1) | None => 0 end in
  let total := base + pad_extra in
  let pad_len := Z.to_nat (total - zlen msg) in
  if bool_decide (total > u16_max) then PRet (Err (Wire "handshake frame too large"))
  else PWrite (be_bytes 2 total ++ msg ++ take pad_len (pad_fill d ++ replicate pad_len x00))
         (PRet (Ok tt)) (PRet (Err SessionIo)).

Definition write_padded_handshake (msg : list byte) (d : PadDraw) : proc (result SessionError unit) :=
  write_padded_handshake_floor msg 0 d.

Definition read_padded_handshake (expected_msg_len : Z) : proc (result SessionError (list byte)) :=
  PRead 2 (λ lb,
    let total := be_val lb in
    if bool_decide (total < expected_msg_len) || bool_decide (total > expected_msg_len + HS_PAD_MAX)
    then PRet (Err (Wire "handshake frame length out of range"))
    else PRead (Z.to_nat total) (λ buf, PRet (Ok (take (Z.to_nat expected_msg_len) buf))) (PRet (Err SessionIo)))
  (PRet (Err SessionIo)).

Definition read_padded_handshake_m3 : proc (result SessionError (list byte)) :=
  PRead 2 (λ lb,
    let total := be_val lb in
    if negb (bool_decide (MSG_3_LEN_WITH_TOKEN <= total <= MSG_3_LEN_WITH_FS_TOKEN + HS_PAD_MAX))
    then PRet (Err (Wire "m3 frame length out of range"))
    else PRead (Z.to_nat total) (λ buf,
      match (match at_ buf 2 with
             | MSG_TYPE_3_FS => Some MSG_3_LEN_WITH_FS_TOKEN
             | MSG_TYPE_3 => Some MSG_3_LEN_WITH_TOKEN
             | _ => None
             end) with
      | None => PRet (Err (Wire "m3 unknown msg_type"))
      | Some msg_len =>
        if bool_decide (total < msg_len) then PRet (Err (Wire "m3 frame shorter than its message type"))
        else PRet (Ok (take (Z.to_nat msg_len) buf))
      end) (PRet (Err SessionIo)))
  (PRet (Err SessionIo)).

(** [p.await?] *)
Definition ptry {E A B} (p : proc (result E A)) (k : A → proc (result E B)) : proc (result E B) :=
  pbind p (λ r, match r with Ok a => k a | Err e => PRet (Err e) end).

Section tunnel.
Context {SC : SessionCrypto} {NZ : Snow SC} {KM : MlKem768} {ED : Ed25519}.

(** The randomness of one end: Noise's ephemeral, ML-KEM's, the paddings', and
    the instant at which the stream is made. *)
Record TunnelDraws : Set := mkDraws { t_eph : list byte; t_kem : list byte; t_pad1 : PadDraw; t_pad2 : PadDraw; t_now : Z }.

(** The body of [connect] and [connect_fs]. *)
Definition drive_initiator (i : HandshakeInitiator) (d : TunnelDraws) : proc (result SessionError SessionStream) :=
  match write_message_1 i with
  | (_, Err e) => PRet (Err e)
  | (i, Ok m1) =>
    ptry (write_padded_handshake m1 (t_pad1 d)) (λ _,
    ptry (read_padded_handshake MSG_2_LEN) (λ m2,
    match read_message_2 m2 i with
    | (_, Err e) => PRet (Err e)
    | (i, Ok _) =>
      match write_message_3 i with
      | Err e => PRet (Err e)
      | Ok (m3, keys) =>
        ptry (write_padded_handshake_floor m3 MSG_3_LEN_WITH_FS_TOKEN (t_pad2 d)) (λ _,
        match from_session_keys (keys_binding keys) (keys_mlkem_ss keys) (keys_transport keys) Initiator with
        | Err e => PRet (Err e)
        | Ok framer => PRet (Ok (SessionStream_new framer (t_now d)))
        end)
      end
    end))
  end.

Definition connect (d : TunnelDraws) (client_x25519_sk bridge_x25519_pk : list byte) (token : CapabilityToken)
  : proc (result SessionError SessionStream) :=
  match HandshakeInitiator_new (t_eph d) (t_kem d) client_x25519_sk bridge_x25519_pk token with
  | Err e => PRet (Err e)
  | Ok i => drive_initiator i d
  end.

Definition connect_fs (d : TunnelDraws) (client_x25519_sk bridge_x25519_pk : list byte) (token : FsCapabilityToken)
  : proc (result SessionError SessionStream) :=
  match new_fs (t_eph d) (t_kem d) client_x25519_sk bridge_x25519_pk token with
  | Err e => PRet (Err e)
  | Ok i => drive_initiator i d
  end.

(** The end of [accept_with_peer_static]: message 3 has been read. *)
Definition accept_finish (r : HandshakeResponder) (m3 : list byte) (flt : Faults) (now : Z) (v : TokenVerifier)
  : TokenVerifier * result SessionError (SessionStream * list byte) :=
  match read_message_3 r m3 flt v with
  | (v, Err e) => (v, Err e)
  | (v, Ok keys) =>
    match (match transport_remote_static (keys_transport keys) with
           | Some s => if bool_decide (length s = 32%nat) then Some s else None
           | None => None
           end) with
    | None => (v, Err (State "no remote static after handshake"))
    | Some peer_static =>
      match from_session_keys (keys_binding keys) (keys_mlkem_ss keys) (keys_transport keys) Responder with
      | Err e => (v, Err e)
      | Ok framer => (v, Ok (SessionStream_new framer now, peer_static))
      end
    end
  end.

(** The bridge's verifier is touched by message 3 only; [flt] is what its disk
    does then. *)
Definition accept_with_peer_static (d : TunnelDraws) (bridge_x25519_sk bridge_ed25519_pk operator_ed25519_pk : list byte)
  (flt : Faults) (v : TokenVerifier) : proc (TokenVerifier * result SessionError (SessionStream * list byte)) :=
  pbind
    (match HandshakeResponder_new (t_eph d) bridge_x25519_sk bridge_ed25519_pk operator_ed25519_pk with
     | Err e => PRet (Err e)
     | Ok r =>
       ptry (read_padded_handshake MSG_1_LEN) (λ m1,
       match read_message_1 m1 r with
       | (_, Err e) => PRet (Err e)
       | (r, Ok _) =>
         match write_message_2 (t_kem d) r with
         | (_, Err e) => PRet (Err e)
         | (r, Ok m2) =>
           ptry (write_padded_handshake m2 (t_pad1 d)) (λ _,
           ptry read_padded_handshake_m3 (λ m3, PRet (Ok (r, m3))))
         end
       end)
     end)
    (λ x, match x with
          | Err e => PRet (v, Err e)
          | Ok (r, m3) => PRet (accept_finish r m3 flt (t_now d) v)
          end).

Definition accept (d : TunnelDraws) (bridge_x25519_sk bridge_ed25519_pk operator_ed25519_pk : list byte)
  (flt : Faults) (v : TokenVerifier) : proc (TokenVerifier * result SessionError SessionStream) :=
  pbind (accept_with_peer_static d bridge_x25519_sk bridge_ed25519_pk operator_ed25519_pk flt v)
    (λ x, PRet (x.1, match x.2 with Ok (s, _) => Ok s | Err e => Err e end)).
End tunnel.
