(* ===== verification/HandshakeDuplex.v ===== *)
(** * Two programs on one connection

    How two [proc]s run against each other over a pair of byte pipes, in any
    interleaving: the order of the steps does not matter (the step relation is
    confluent) and every run ends. *)

From stdpp Require Import base numbers list relations.
From Stdlib Require Import ZArith Lia Strings.Byte.
From S2P Require Import Prelude Bytes HandshakeTunnel.

(** A program against an arbitrary environment: reads may deliver any bytes,
    reads and writes may fail. *)
Inductive returns {A} : proc A → A → Prop :=
| ret_ret a : returns (PRet a) a
| ret_write bs ok err a : returns ok a → returns (PWrite bs ok err) a
| ret_write_err bs ok err a : returns err a → returns (PWrite bs ok err) a
| ret_read n ok err l a : length l = n → returns (ok l) a → returns (PRead n ok err) a
| ret_read_err n ok err a : returns err a → returns (PRead n ok err) a.

Lemma returns_ret {A} (a b : A) : returns (PRet a) b → b = a.
Proof. inversion 1. done. Qed.

Lemma returns_bind {A B} (p : proc A) (k : A → proc B) b :
  returns (pbind p k) b → ∃ a, returns p a ∧ returns (k a) b.
Proof.
  induction p as [a|bs ok IH1 err IH2|n ok IH1 err IH2]; cbn [pbind]; intros H.
  - exists a. split; [constructor|done].
  - inversion H; subst; [destruct IH1 as (a & ? & ?)|destruct IH2 as (a & ? & ?)]; try done;
      exists a; split; eauto using @returns.
  - inversion H; subst; [edestruct IH1 as (a & ? & ?)|destruct IH2 as (a & ? & ?)]; try done;
      exists a; split; eauto using @returns.
Qed.

(** ** Steps *)

(** One step of a program that finds [inp] on its incoming pipe: what is left of
    it, and what the step puts on the outgoing pipe. *)
Definition pstep {A} (p : proc A) (inp : list byte) : option (proc A * list byte * list byte) :=
  match p with
  | PRet _ => None
  | PWrite bs ok _ => Some (ok, inp, bs)
  | PRead n ok _ => if bool_decide (n ≤ length inp)%nat then Some (ok (take n inp), drop n inp, []) else None
  end.

Record duplex (A B : Type) : Type := mkDuplex { left : proc A; right : proc B; l2r : list byte; r2l : list byte }.
Arguments mkDuplex {A B} _ _ _ _.
Arguments left {A B} _.
Arguments right {A B} _.
Arguments l2r {A B} _.
Arguments r2l {A B} _.

Inductive dstep {A B} : duplex A B → duplex A B → Prop :=
| step_left p q a b p' b' out : pstep p b = Some (p', b', out) →
    dstep (mkDuplex p q a b) (mkDuplex p' q (a ++ out) b')
| step_right p q a b q' a' out : pstep q a = Some (q', a', out) →
    dstep (mkDuplex p q a b) (mkDuplex p q' a' (b ++ out)).

(** More bytes behind those a step saw do not change it. *)
Lemma pstep_more {A} (p : proc A) inp p' inp' out more :
  pstep p inp = Some (p', inp', out) → pstep p (inp ++ more) = Some (p', inp' ++ more, out).
Proof.
  destruct p as [a|bs ok err|n ok err]; cbn; [done|by intros [= <- <- <-]|].
  case_bool_decide as H; [|done]. intros [= <- <- <-].
  rewrite bool_decide_true by (rewrite length_app; lia). by rewrite take_app_le, drop_app_le.
Qed.

Lemma dstep_commute {A B} : locally_confluent (@dstep A B).
Proof.
  intros x y1 y2 H1 H2. destruct H1 as [p q a b p' b' out Hp|p q a b q' a' out Hq]; inversion H2; subst.
  - exists (mkDuplex p' q (a ++ out) b'). simplify_eq. split; apply rtc_refl.
  - exists (mkDuplex p' q' (a' ++ out) (b' ++ out0)). split; apply rtc_once; constructor; by apply pstep_more.
  - exists (mkDuplex p' q' (a' ++ out0) (b' ++ out)). split; apply rtc_once; constructor; by apply pstep_more.
  - exists (mkDuplex p q' a' (b ++ out)). simplify_eq. split; apply rtc_refl.
Qed.

(** A step goes to a part of the program. *)
Inductive psub {A} : proc A → proc A → Prop :=
| sub_write bs ok err : psub ok (PWrite bs ok err)
| sub_read n ok err l : psub (ok l) (PRead n ok err).

Lemma psub_wf {A} : well_founded (@psub A).
Proof. intros p. induction p; constructor; intros q Hq; inversion Hq; subst; done. Qed.

Lemma pstep_sub {A} (p : proc A) inp p' inp' out : pstep p inp = Some (p', inp', out) → psub p' p.
Proof.
  destruct p as [a|bs ok err|n ok err]; cbn; [done|intros [= <- <- <-]; constructor|].
  case_bool_decide; [|done]. intros [= <- <- <-]. constructor.
Qed.

Lemma dstep_ends {A B} (x : duplex A B) : sn dstep x.
Proof.
  destruct x as [p q a b]. revert q a b. induction (psub_wf p) as [p _ IHp].
  intros q. induction (psub_wf q) as [q _ IHq]. intros a b.
  constructor. intros y Hy. inversion Hy; subst; [apply IHp|apply IHq]; by eapply pstep_sub.
Qed.

Lemma dstep_confluent {A B} : confluent (@dstep A B).
Proof. apply locally_confluent_confluent; [apply dstep_ends|apply dstep_commute]. Qed.

(** Two programs that can both return have no other outcome: wherever a run has
    got to, it can go on to that one, and every run is finite. *)
Lemma duplex_outcome {A B} (x : duplex A B) ra rb a b :
  rtc dstep x (mkDuplex (PRet ra) (PRet rb) a b) → ∀ y, rtc dstep x y →
  rtc dstep y (mkDuplex (PRet ra) (PRet rb) a b).
Proof.
  intros H y Hy. destruct (dstep_confluent x _ _ H Hy) as (z & Hz & Hyz).
  apply rtc_nf in Hz as <-; [done|]. intros [w Hw]. inversion Hw; simplify_eq.
Qed.

(** ** Running one end *)
Lemma left_write {A B} bs (ok err : proc A) (q : proc B) a b z :
  rtc dstep (mkDuplex ok q (a ++ bs) b) z → rtc dstep (mkDuplex (PWrite bs ok err) q a b) z.
Proof. intros H. eapply rtc_l; [|exact H]. by apply step_left. Qed.

Lemma right_write {A B} bs (ok err : proc B) (p : proc A) a b z :
  rtc dstep (mkDuplex p ok a (b ++ bs)) z → rtc dstep (mkDuplex p (PWrite bs ok err) a b) z.
Proof. intros H. eapply rtc_l; [|exact H]. by apply step_right. Qed.

Lemma left_read {A B} n (ok : list byte → proc A) err (q : proc B) a l b z : length l = n →
  rtc dstep (mkDuplex (ok l) q a b) z → rtc dstep (mkDuplex (PRead n ok err) q a (l ++ b)) z.
Proof.
  intros <- H. eapply rtc_l; [|exact H]. rewrite <- (app_nil_r a) at 2. apply step_left. cbn.
  rewrite bool_decide_true by (rewrite length_app; lia). by rewrite take_app_length, drop_app_length.
Qed.

Lemma right_read {A B} n (ok : list byte → proc B) err (p : proc A) l a b z : length l = n →
  rtc dstep (mkDuplex p (ok l) a b) z → rtc dstep (mkDuplex p (PRead n ok err) (l ++ a) b) z.
Proof.
  intros <- H. eapply rtc_l; [|exact H]. rewrite <- (app_nil_r b) at 2. apply step_right. cbn.
  rewrite bool_decide_true by (rewrite length_app; lia). by rewrite take_app_length, drop_app_length.
Qed.

(** A run of the pair is a run of each end. *)
Lemma pstep_returns {A} (p p' : proc A) inp inp' out r :
  pstep p inp = Some (p', inp', out) → returns p' r → returns p r.
Proof.
  destruct p as [|bs ok err|n ok err]; cbn; [done|by intros [= <- <- <-]; constructor|].
  case_bool_decide; [|done]. intros [= <- <- <-]. apply ret_read. rewrite length_take. lia.
Qed.

Lemma duplex_returns {A B} (x : duplex A B) ra rb a b :
  rtc dstep x (mkDuplex (PRet ra) (PRet rb) a b) → returns (left x) ra ∧ returns (right x) rb.
Proof.
  intros H. remember (mkDuplex (PRet ra) (PRet rb) a b) as z eqn:Hz. induction H as [x|x y z Hs _ IH].
  { subst x. split; constructor. }
  destruct (IH Hz) as [H1 H2]. destruct Hs; split; eauto using @pstep_returns.
Qed.

(** A run on given input, in which no read or write fails. *)
Fixpoint feed {A} (p : proc A) (inp : list byte) : option A :=
  match p with
  | PRet a => Some a
  | PWrite _ ok _ => feed ok inp
  | PRead n ok _ => if bool_decide (n ≤ length inp)%nat then feed (ok (take n inp)) (drop n inp) else None
  end.

Lemma feed_returns {A} (p : proc A) inp a : feed p inp = Some a → returns p a.
Proof.
  revert inp. induction p as [b|bs ok IH err _|n ok IH err _]; intros inp; cbn [feed].
  - intros [= ->]. constructor.
  - intros H. eapply ret_write, IH, H.
  - case_bool_decide; [|done]. intros H1. eapply ret_read, IH, H1. rewrite length_take. lia.
Qed.

(** ** What a program puts on the wire

    A run against an arbitrary environment, with the buffers it handed to the
    stream. *)
Inductive transcript {A} : proc A → list (list byte) → A → Prop :=
| tr_ret a : transcript (PRet a) [] a
| tr_write bs ok err l a : transcript ok l a → transcript (PWrite bs ok err) (bs :: l) a
| tr_write_err bs ok err l a : transcript err l a → transcript (PWrite bs ok err) (bs :: l) a
| tr_read n ok err x l a : length x = n → transcript (ok x) l a → transcript (PRead n ok err) l a
| tr_read_err n ok err l a : transcript err l a → transcript (PRead n ok err) l a.

Lemma transcript_ret {A} (a b : A) l : transcript (PRet a) l b → l = [] ∧ b = a.
Proof. by inversion 1. Qed.

Lemma transcript_bind {A B} (p : proc A) (k : A → proc B) l b :
  transcript (pbind p k) l b → ∃ l1 l2 a, l = l1 ++ l2 ∧ transcript p l1 a ∧ transcript (k a) l2 b.
Proof.
  revert l. induction p as [a|bs ok IH1 err IH2|n ok IH1 err IH2]; cbn [pbind]; intros l H.
  - exists [], l, a. split_and!; [done|constructor|done].
  - inversion H as [|? ? ? l' ? H1|? ? ? l' ? H1| |]; subst;
      [destruct (IH1 _ H1) as (l1 & l2 & a & -> & ? & ?)|destruct (IH2 _ H1) as (l1 & l2 & a & -> & ? & ?)];
      exists (bs :: l1), l2, a; split_and!; [done|by econstructor|done|done|by econstructor|done].
  - inversion H as [| | |? ? ? x ? ? Hx H1|? ? ? ? ? H1]; subst;
      [destruct (IH1 _ _ H1) as (l1 & l2 & a & -> & ? & ?)|destruct (IH2 _ H1) as (l1 & l2 & a & -> & ? & ?)];
      exists l1, l2, a; split_and!; [done|by eapply tr_read|done|done|by eapply tr_read_err|done].
Qed.

(** The run on given input, ended by a failing read when the input is used up. *)
Fixpoint play {A} (p : proc A) (inp : list byte) : list (list byte) * A :=
  match p with
  | PRet a => ([], a)
  | PWrite bs ok _ => let (l, a) := play ok inp in (bs :: l, a)
  | PRead n ok err =>
    if bool_decide (n ≤ length inp)%nat then play (ok (take n inp)) (drop n inp) else play err inp
  end.

Lemma play_transcript {A} (p : proc A) inp : transcript p (play p inp).1 (play p inp).2.
Proof.
  revert inp. induction p as [b|bs ok IH err _|n ok IH err IH2]; intros inp; cbn [play].
  - constructor.
  - specialize (IH inp). destruct (play ok inp). by apply tr_write.
  - case_bool_decide; [|by apply tr_read_err]. eapply tr_read, IH. rewrite length_take. lia.
Qed.
