(* ===== verification/Socks5.v ===== *)
(** * The SOCKS5 server of a bridge (crates/socks5/src/server.rs)

    The negotiation and the CONNECT request a client sends inside its tunnel, the
    destination policy, and the resolve, filter and dial of the target. What the
    operating system answers (the resolver and each connection attempt) is an
    argument of the definitions; the lookups and the dials they make are
    returned, in order. *)

From stdpp Require Import base numbers list strings relations.
From Stdlib Require Import ZArith Lia Btauto Strings.Byte.
From S2P Require Import Prelude Bytes SplitExit HandshakeTunnel HandshakeDuplex.

Abbreviation VERSION := x05 (only parsing).
Abbreviation METHOD_NO_AUTH := x00 (only parsing).
Abbreviation METHOD_NO_ACCEPTABLE := xff (only parsing).
Abbreviation CMD_CONNECT := x01 (only parsing).
Abbreviation ATYP_IPV4 := x01 (only parsing).
Abbreviation ATYP_DOMAIN := x03 (only parsing).
Abbreviation ATYP_IPV6 := x04 (only parsing).
Abbreviation REP_SUCCEEDED := x00 (only parsing).
Abbreviation REP_GENERAL_FAILURE := x01 (only parsing).
Abbreviation REP_NOT_ALLOWED := x02 (only parsing).
Abbreviation REP_NET_UNREACHABLE := x03 (only parsing).
Abbreviation REP_HOST_UNREACHABLE := x04 (only parsing).
Abbreviation REP_CONN_REFUSED := x05 (only parsing).
Abbreviation REP_CMD_NOT_SUPPORTED := x07 (only parsing).
Abbreviation REP_ATYP_NOT_SUPPORTED := x08 (only parsing).

(** The target of a CONNECT; a [String] is its bytes. *)
Inductive ConnectTarget : Set :=
| Ipv4 (addr : list byte) (port : Z)
| Ipv6 (addr : list byte) (port : Z)
| Domain (name : list byte) (port : Z).

(** The errors. The text of [Connect] is made from the target and the reply code. *)
Inductive Socks5Error : Set :=
| Socks5Io
| Protocol (m : string)
| BadDomain (m : string)
| UnsupportedCommand (cmd : byte)
| UnsupportedAddressType (atyp : byte)
| PolicyDenied (m : string)
| ResolveFailed (m : string)
| Connect (target : ConnectTarget) (rep : byte).

Record AllowlistPolicy : Set := mkAllow {
  deny_loopback : bool;
  deny_private_networks : bool;
  allowed_ports : option (list Z);
}.

Abbreviation safe_defaults := (mkAllow true true None) (only parsing).
Abbreviation permissive := (mkAllow false false None) (only parsing).

(** ** Addresses: the predicates of [Ipv4Addr] and [Ipv6Addr] *)
Definition v4_is_loopback (o : list byte) : bool := bool_decide (at_ o 0 = x7f).
Definition v4_is_private (o : list byte) : bool :=
  bool_decide (at_ o 0 = x0a)
  || bool_decide (at_ o 0 = xac) && bool_decide (16 <= u8 (at_ o 1) <= 31)
  || bool_decide (at_ o 0 = xc0) && bool_decide (at_ o 1 = xa8).
Definition v4_is_link_local (o : list byte) : bool := bool_decide (at_ o 0 = xa9) && bool_decide (at_ o 1 = xfe).
Definition v4_is_broadcast (o : list byte) : bool := bool_decide (o = [xff; xff; xff; xff]).
Definition v4_is_multicast (o : list byte) : bool := bool_decide (224 <= u8 (at_ o 0) <= 239).
Definition v4_is_unspecified (o : list byte) : bool := bool_decide (o = replicate 4 x00).

Definition segment (o : list byte) (i : nat) : Z := be_val (slice o (2 * i) (2 * i + 2)).
Definition v6_is_loopback (o : list byte) : bool := bool_decide (o = replicate 15 x00 ++ [x01]).
Definition v6_is_unspecified (o : list byte) : bool := bool_decide (o = replicate 16 x00).
Definition v6_is_multicast (o : list byte) : bool := bool_decide (Z.land (segment o 0) 0xff00 = 0xff00).
Definition to_ipv4_mapped (o : list byte) : option (list byte) :=
  if bool_decide (take 12 o = replicate 10 x00 ++ [xff; xff]) then Some (drop 12 o) else None.

Definition is_loopback (ip : IpAddr) : bool :=
  match ip with IpV4 o => v4_is_loopback o | IpV6 o => v6_is_loopback o end.

(** ** The destination policy *)
Definition canonicalise_ip (ip : IpAddr) : IpAddr :=
  match ip with
  | IpV4 _ => ip
  | IpV6 v6 => match to_ipv4_mapped v6 with Some v4 => IpV4 v4 | None => IpV6 v6 end
  end.

Definition is_private (ip : IpAddr) : bool :=
  match ip with
  | IpV4 a =>
    v4_is_private a || v4_is_link_local a || v4_is_broadcast a || v4_is_multicast a || v4_is_unspecified a
    || bool_decide (at_ a 0 = x64) && bool_decide (Z.land (u8 (at_ a 1)) 0xc0 = 0x40)
  | IpV6 a =>
    let v4_compatible_prefix :=
      bool_decide (segment a 0 = 0) && bool_decide (segment a 1 = 0) && bool_decide (segment a 2 = 0)
      && bool_decide (segment a 3 = 0) && bool_decide (segment a 4 = 0) && bool_decide (segment a 5 = 0) in
    v6_is_loopback a || v6_is_multicast a || v6_is_unspecified a
    || bool_decide (Z.land (segment a 0) 0xfe00 = 0xfc00)
    || bool_decide (Z.land (segment a 0) 0xffc0 = 0xfe80)
    || v4_compatible_prefix
  end.

Definition check (p : AllowlistPolicy) (addr : SocketAddr) : result string unit :=
  let ip := canonicalise_ip (ip addr) in
  if deny_loopback p && is_loopback ip then Err "loopback"%string
  else if deny_private_networks p && is_private ip then Err "private-network"%string
  else
    match allowed_ports p with
    | Some ports => if bool_decide (SplitExit.port addr ∈ ports) then Ok tt else Err "port-not-allowed"%string
    | None => Ok tt
    end.

Definition check_all (p : AllowlistPolicy) (addrs : list SocketAddr) : result string unit :=
  (fix go (any : bool) (addrs : list SocketAddr) :=
    match addrs with
    | [] => if any then Ok tt else Err "empty-resolution"%string
    | a :: l => let? _ := check p a in go true l
    end) false addrs.

(** ** Reading the request *)
Abbreviation anywhere := (mkAddr (IpV4 (replicate 4 x00)) 0) (only parsing).

Definition reply_bytes (rep : byte) (bnd : SocketAddr) : list byte :=
  [VERSION; rep; x00]
  ++ match ip bnd with IpV4 a => ATYP_IPV4 :: a | IpV6 a => ATYP_IPV6 :: a end
  ++ be_bytes 2 (SplitExit.port bnd).

Definition send_reply (rep : byte) (bnd : SocketAddr) : proc (result Socks5Error unit) :=
  PWrite (reply_bytes rep bnd) (PRet (Ok tt)) (PRet (Err Socks5Io)).

Definition send_success_reply_for_internal : proc (result Socks5Error unit) := send_reply REP_SUCCEEDED anywhere.

(** [stream.read_exact(..).await?] *)
Definition pread {A} (n : nat) (k : list byte → proc (result Socks5Error A)) : proc (result Socks5Error A) :=
  PRead n k (PRet (Err Socks5Io)).

(** The [match atyp] of the request. *)
Definition read_target (atyp : byte) : proc (result Socks5Error ConnectTarget) :=
  match atyp with
  | ATYP_IPV4 => pread 4 (λ a, pread 2 (λ p, PRet (Ok (Ipv4 a (be_val p)))))
  | ATYP_IPV6 => pread 16 (λ a, pread 2 (λ p, PRet (Ok (Ipv6 a (be_val p)))))
  | ATYP_DOMAIN =>
    pread 1 (λ len_buf,
      let dlen := u8 (at_ len_buf 0) in
      if bool_decide (dlen = 0) then PRet (Err (BadDomain "empty"))
      else pread (Z.to_nat dlen) (λ name,
        if negb (utf8_valid name) then PRet (Err (BadDomain "not UTF-8"))
        else if bool_decide (zlen name > 253) then PRet (Err (BadDomain "over RFC 1035 length cap"))
        else pread 2 (λ p, PRet (Ok (Domain name (be_val p))))))
  | _ => pbind (send_reply REP_ATYP_NOT_SUPPORTED anywhere) (λ _, PRet (Err (UnsupportedAddressType atyp)))
  end.

Definition read_request : proc (result Socks5Error ConnectTarget) :=
  pread 2 (λ hdr,
    if bool_decide (at_ hdr 0 ≠ VERSION) then PRet (Err (Protocol "bad version in greeting"))
    else
      let nmethods := u8 (at_ hdr 1) in
      if bool_decide (nmethods = 0) then PRet (Err (Protocol "nmethods=0"))
      else pread (Z.to_nat nmethods) (λ methods,
        if negb (bool_decide (METHOD_NO_AUTH ∈ methods))
        then PWrite [VERSION; METHOD_NO_ACCEPTABLE] (PRet (Err (Protocol "no acceptable auth method"))) (PRet (Err Socks5Io))
        else PWrite [VERSION; METHOD_NO_AUTH]
          (pread 4 (λ req_hdr,
            if bool_decide (at_ req_hdr 0 ≠ VERSION) then PRet (Err (Protocol "bad version in request"))
            else
              let cmd := at_ req_hdr 1 in
              if bool_decide (cmd ≠ CMD_CONNECT)
              then pbind (send_reply REP_CMD_NOT_SUPPORTED anywhere) (λ _, PRet (Err (UnsupportedCommand cmd)))
              else read_target (at_ req_hdr 3)))
          (PRet (Err Socks5Io)))).

(** ** Resolving and dialling *)
Inductive ErrorKind : Set := ConnectionRefused | NetworkUnreachable | HostUnreachable | TimedOut | OtherKind.

(** A connection attempt: open, with the address [local_addr] gives, or failed. *)
Inductive Dialled : Set := DialOk (local : option SocketAddr) | DialErr (k : ErrorKind).

Record TcpStream : Set := mkTcp { peer : SocketAddr; local_addr : option SocketAddr }.

(** What the bridge asks of its operating system. *)
Inductive NetOp : Set := Lookup (name : list byte) (port : Z) | Dial (dest : SocketAddr).

Definition byte_lower (b : byte) : byte := if bool_decide (65 <= u8 b <= 90) then b8 (u8 b + 32) else b.
Definition to_ascii_lowercase (l : list byte) : list byte := byte_lower <$> l.
Definition starts_with (l pre : list byte) : bool := bool_decide (take (length pre) l = pre).

Section net.
(** The resolver ([None]: an error or the timeout) and the attempts, by number. *)
Context (lookup_host : list byte → Z → option (list SocketAddr)) (dial : nat → SocketAddr → Dialled).

Definition magic_name (name : list byte) : bool :=
  starts_with name [x5f] && starts_with (to_ascii_lowercase name) (String.list_byte_of_string "_mirage_").

(** The loop over the allowed addresses. *)
Fixpoint dial_each (n : nat) (last_kind : ErrorKind) (allowed : list SocketAddr) : list NetOp * result byte TcpStream :=
  match allowed with
  | [] =>
    ([], Err match last_kind with
             | ConnectionRefused => REP_CONN_REFUSED
             | NetworkUnreachable => REP_NET_UNREACHABLE
             | HostUnreachable => REP_HOST_UNREACHABLE
             | TimedOut => REP_HOST_UNREACHABLE
             | OtherKind => REP_GENERAL_FAILURE
             end)
  | dest :: l =>
    match dial n dest with
    | DialOk local => ([Dial dest], Ok (mkTcp dest local))
    | DialErr k => let (ops, r) := dial_each (S n) k l in (Dial dest :: ops, r)
    end
  end.

Definition connect_target (target : ConnectTarget) (policy : AllowlistPolicy) : list NetOp * result byte TcpStream :=
  let dials (ops : list NetOp) (resolved : list SocketAddr) :=
    if bool_decide (resolved = []) then (ops, Err REP_HOST_UNREACHABLE)
    else
      let allowed := filter (λ a, check policy a = Ok tt) resolved in
      if bool_decide (allowed = []) then (ops, Err REP_NOT_ALLOWED)
      else let (more, r) := dial_each 0 OtherKind allowed in (ops ++ more, r) in
  match target with
  | Ipv4 a p => dials [] [mkAddr (IpV4 a) p]
  | Ipv6 a p => dials [] [mkAddr (IpV6 a) p]
  | Domain name p =>
    if magic_name name then ([], Err REP_HOST_UNREACHABLE)
    else
      match lookup_host name p with
      | Some addrs => dials [Lookup name p] addrs
      | None => ([Lookup name p], Err REP_HOST_UNREACHABLE)
      end
  end.

Definition connect_to_target (target : ConnectTarget) (policy : AllowlistPolicy)
  : proc (list NetOp * result Socks5Error TcpStream) :=
  match connect_target target policy with
  | (ops, Ok up) => PRet (ops, Ok up)
  | (ops, Err rep) => pbind (send_reply rep anywhere) (λ _, PRet (ops, Err (Connect target rep)))
  end.

Definition connect_and_reply (target : ConnectTarget) (policy : AllowlistPolicy)
  : proc (list NetOp * result Socks5Error TcpStream) :=
  pbind (connect_to_target target policy) (λ '(ops, r),
    match r with
    | Err e => PRet (ops, Err e)
    | Ok up =>
      pbind (send_reply REP_SUCCEEDED (default anywhere (local_addr up))) (λ w,
        PRet (ops, let? _ := w in Ok up))
    end).

Definition serve_one_connect (policy : AllowlistPolicy)
  : proc (list NetOp * result Socks5Error (ConnectTarget * TcpStream)) :=
  pbind read_request (λ r,
    match r with
    | Err e => PRet ([], Err e)
    | Ok req => pbind (connect_and_reply req policy) (λ '(ops, r), PRet (ops, let? up := r in Ok (req, up)))
    end).
End net.

(** ** The reserved ranges, as address blocks

    The reference for the policy: a block is a base address and a number of
    leading bits. An IPv4 block also reserves the IPv4-mapped IPv6 addresses of
    its members. *)
Definition bits8 (b : byte) : list bool := Z.testbit (u8 b) <$> [7; 6; 5; 4; 3; 2; 1; 0].

Definition same_prefix (n : nat) (o p : list byte) : bool :=
  bool_decide (take n (o ≫= bits8) = take n (p ≫= bits8)).

Definition octets (i : IpAddr) : list byte := match i with IpV4 o | IpV6 o => o end.

Definition in_blocks (i : IpAddr) (blocks : list (IpAddr * nat)) : bool :=
  existsb (λ b, match i, b.1 with
                | IpV4 o, IpV4 p | IpV6 o, IpV6 p => same_prefix b.2 o p
                | IpV6 o, IpV4 p => same_prefix (96 + b.2) o (replicate 10 x00 ++ [xff; xff] ++ p)
                | IpV4 _, IpV6 _ => false
                end) blocks.

(** 127.0.0.0/8 and ::1/128. *)
Definition loopback_blocks : list (IpAddr * nat) :=
  [(IpV4 [x7f; x00; x00; x00], 8); (IpV6 (replicate 15 x00 ++ [x01]), 128)]%nat.

(** 10.0.0.0/8, 172.16.0.0/12, 192.168.0.0/16, 169.254.0.0/16, 100.64.0.0/10,
    224.0.0.0/4, 255.255.255.255/32, 0.0.0.0/32, ::/96, fc00::/7, fe80::/10 and
    ff00::/8. *)
Definition private_blocks : list (IpAddr * nat) :=
  [(IpV4 [x0a; x00; x00; x00], 8); (IpV4 [xac; x10; x00; x00], 12); (IpV4 [xc0; xa8; x00; x00], 16);
   (IpV4 [xa9; xfe; x00; x00], 16); (IpV4 [x64; x40; x00; x00], 10); (IpV4 [xe0; x00; x00; x00], 4);
   (IpV4 [xff; xff; xff; xff], 32); (IpV4 [x00; x00; x00; x00], 32);
   (IpV6 (replicate 16 x00), 96); (IpV6 (xfc :: replicate 15 x00), 7); (IpV6 ([xfe; x80] ++ replicate 14 x00), 10);
   (IpV6 (xff :: replicate 15 x00), 8)]%nat.

(** ** Prefixes, byte by byte *)
Lemma bits8_inj a b : bits8 a = bits8 b → a = b.
Proof.
  intros H. apply u8_inj. unfold bits8 in H. cbn [fmap list_fmap] in H. simplify_eq.
  pose proof (u8_range a). pose proof (u8_range b). apply Z.bits_inj'. intros n Hn.
  assert (n ≤ 7 ∨ 8 ≤ n) as [Hs|Hl] by lia.
  - assert (n = 0 ∨ n = 1 ∨ n = 2 ∨ n = 3 ∨ n = 4 ∨ n = 5 ∨ n = 6 ∨ n = 7) as Hc by lia.
    destruct Hc as [->|[->|[->|[->|[->|[->|[->| ->]]]]]]]; done.
  - rewrite <- (Z.mod_small (u8 a) (2 ^ 8)), <- (Z.mod_small (u8 b) (2 ^ 8)) by lia.
    by rewrite !Z.mod_pow2_bits_high by lia.
Qed.

Lemma same_prefix_byte n a o b p :
  same_prefix (8 + n) (a :: o) (b :: p) = bool_decide (a = b) && same_prefix n o p.
Proof.
  unfold same_prefix. rewrite <- bool_decide_and. apply bool_decide_ext. cbn [mbind list_bind].
  rewrite !take_app_ge by (cbn; lia). replace (8 + n - length (bits8 a))%nat with n by (cbn; lia).
  replace (8 + n - length (bits8 b))%nat with n by (cbn; lia). split; [|by intros [-> ->]].
  intros [H1 H2]%app_inj_1; [|done]. split; [by apply bits8_inj|done].
Qed.

Lemma same_prefix_bits n a o b p : (n ≤ 8)%nat →
  same_prefix n (a :: o) (b :: p) = bool_decide (take n (bits8 a) = take n (bits8 b)).
Proof. intros Hn. unfold same_prefix. cbn [mbind list_bind]. by rewrite !take_app_le by (cbn; lia). Qed.

Lemma same_prefix_0 o p : same_prefix 0 o p = true.
Proof. done. Qed.

(** The masks on a 16-bit segment, on its two bytes. *)
Lemma land_range b d : 0 ≤ b < 256 → 0 ≤ Z.land b d < 256.
Proof.
  intros Hb. split; [apply Z.land_nonneg; lia|]. replace b with (b `mod` 2 ^ 8) by (apply Z.mod_small; lia).
  rewrite <- Z.land_ones, <- Z.land_assoc, (Z.land_comm _ d), Z.land_assoc, Z.land_ones by lia.
  apply (Z.mod_pos_bound _ (2 ^ 8)); lia.
Qed.

Lemma land_bytes a b c d : 0 ≤ b < 256 → 0 ≤ d < 256 →
  Z.land (a * 256 + b) (c * 256 + d) = Z.land a c * 256 + Z.land b d.
Proof.
  intros Hb Hd. pose proof (land_range b d Hb).
  apply Z.bits_inj'. intros n Hn. rewrite Z.land_spec.
  assert (Hs : ∀ x y, 0 ≤ y < 256 → Z.testbit (x * 256 + y) n = if bool_decide (n < 8) then Z.testbit y n else Z.testbit x (n - 8)).
  { intros x y Hy. case_bool_decide.
    - rewrite <- (Z.mod_pow2_bits_low (x * 256 + y) 8 n) by lia.
      replace ((x * 256 + y) `mod` 2 ^ 8) with y; [done|]. change (2 ^ 8) with 256.
      rewrite Z.add_comm, Z.mod_add by lia. symmetry. by apply Z.mod_small.
    - replace n with (n - 8 + 8) at 1 by lia. rewrite <- (Z.div_pow2_bits (x * 256 + y) 8 (n - 8)) by lia.
      replace ((x * 256 + y) / 2 ^ 8) with x; [done|]. change (2 ^ 8) with 256.
      rewrite Z.add_comm, Z.div_add by lia. rewrite Z.div_small; lia. }
  rewrite !Hs by done. case_bool_decide; by rewrite Z.land_spec.
Qed.

Lemma segment_0 a b o : segment (a :: b :: o) 0 = u8 a * 256 + u8 b.
Proof. unfold segment, slice. cbn. rewrite take_0. unfold be_val. cbn [foldl]. lia. Qed.

(** A condition on one byte, checked on all of them. *)
Ltac by_bytes b := destruct b; vm_compute; reflexivity.

Lemma prefix_12 b : bool_decide (take 4 (bits8 b) = take 4 (bits8 x10)) = bool_decide (16 <= u8 b <= 31).
Proof. by_bytes b. Qed.
Lemma prefix_10 b : bool_decide (take 2 (bits8 b) = take 2 (bits8 x40)) = bool_decide (Z.land (u8 b) 0xc0 = 0x40).
Proof. by_bytes b. Qed.
Lemma prefix_4 a : bool_decide (take 4 (bits8 a) = take 4 (bits8 xe0)) = bool_decide (224 <= u8 a <= 239).
Proof. by_bytes a. Qed.

Lemma decide_cons (a b : byte) l k : bool_decide (a :: l = b :: k) = bool_decide (a = b) && bool_decide (l = k).
Proof. rewrite <- bool_decide_and. apply bool_decide_ext. naive_solver. Qed.

Lemma same_prefix_app n h g o p : length h = length g →
  same_prefix (8 * length h + n) (h ++ o) (g ++ p) = bool_decide (h = g) && same_prefix n o p.
Proof.
  revert g. induction h as [|a h IH]; intros [|b g] Hl; try done.
  cbn [length app]. replace (8 * S (length h) + n)%nat with (8 + (8 * length h + n))%nat by lia.
  rewrite same_prefix_byte, IH, decide_cons by (cbn in Hl; lia). by rewrite andb_assoc.
Qed.

Lemma same_prefix_32 v p : length v = 4%nat → length p = 4%nat → same_prefix 32 v p = bool_decide (v = p).
Proof.
  intros Hv Hp. pose proof (same_prefix_app 0 v p [] [] ltac:(congruence)) as H.
  by rewrite !app_nil_r, Hv, same_prefix_0, andb_true_r in H.
Qed.

(** Blocks of IPv4 addresses. *)
Lemma v4_blocks a b c d :
  in_blocks (IpV4 [a; b; c; d]) loopback_blocks = v4_is_loopback [a; b; c; d]
  ∧ in_blocks (IpV4 [a; b; c; d]) private_blocks = is_private (IpV4 [a; b; c; d]).
Proof.
  unfold in_blocks, loopback_blocks, private_blocks. cbn [existsb fst snd].
  unfold v4_is_loopback, is_private, v4_is_private, v4_is_link_local, v4_is_broadcast, v4_is_multicast, v4_is_unspecified.
  cbn [at_ nth replicate]. rewrite !decide_cons, !(bool_decide_true ([] = [])) by done.
  rewrite !(same_prefix_byte 24), !(same_prefix_byte 16), !(same_prefix_byte 8), !(same_prefix_byte 4),
    !(same_prefix_byte 2), !(same_prefix_byte 0), !same_prefix_0.
  rewrite !same_prefix_bits by lia. rewrite prefix_12, prefix_10, prefix_4. split; btauto.
Qed.

(** Blocks of IPv6 addresses that map no IPv4 address. *)
Abbreviation MAPPED := (replicate 10 x00 ++ [xff; xff]) (only parsing).

Lemma v6_compatible h v : length h = 12%nat →
  (bool_decide (segment (h ++ v) 0 = 0) && bool_decide (segment (h ++ v) 1 = 0) && bool_decide (segment (h ++ v) 2 = 0)
   && bool_decide (segment (h ++ v) 3 = 0) && bool_decide (segment (h ++ v) 4 = 0) && bool_decide (segment (h ++ v) 5 = 0))
  = bool_decide (h = replicate 12 x00).
Proof.
  intros Hl. do 12 (destruct h as [|? h]; [done|]). destruct h; [|done].
  assert (Hz : ∀ a b, bool_decide (u8 a * 256 + u8 b = 0) = bool_decide (a = x00) && bool_decide (b = x00)).
  { intros x y. pose proof (u8_range x). pose proof (u8_range y). rewrite <- bool_decide_and. apply bool_decide_ext.
    split; [|by intros [-> ->]]. intros Hs. split; apply u8_inj; change (u8 x00) with 0; lia. }
  cbn [replicate]. rewrite !decide_cons, (bool_decide_true ([] = [])) by done.
  unfold segment, slice. cbn [Nat.mul Nat.add Nat.sub app drop take]. rewrite !take_0.
  unfold be_val. cbn [foldl]. rewrite !Z.add_0_l, !Hz. by rewrite !andb_assoc, andb_true_r.
Qed.

Lemma mapped_prefix n h v p : length h = 12%nat →
  same_prefix (96 + n) (h ++ v) (replicate 10 x00 ++ [xff; xff] ++ p) = bool_decide (h = MAPPED) && same_prefix n v p.
Proof.
  intros Hl. rewrite (assoc_L (++) (replicate 10 x00)), <- (same_prefix_app n h MAPPED v p) by done.
  f_equal. lia.
Qed.

Lemma high_mask a b m w : bool_decide (Z.land (u8 a * 256 + u8 b) (m * 256) = w * 256) = bool_decide (Z.land (u8 a) m = w).
Proof.
  pose proof (u8_range b). rewrite <- (Z.add_0_r (m * 256)), land_bytes, Z.land_0_r by lia.
  apply bool_decide_ext. lia.
Qed.

Lemma mask_ff a : bool_decide (Z.land (u8 a) 0xff = 0xff) = bool_decide (a = xff).
Proof. by_bytes a. Qed.
Lemma mask_fe a : bool_decide (Z.land (u8 a) 0xfe = 0xfc) = bool_decide (take 7 (bits8 a) = take 7 (bits8 xfc)).
Proof. by_bytes a. Qed.
Lemma mask_fe80 a b :
  bool_decide (Z.land (u8 a) 0xff = 0xfe) = bool_decide (a = xfe)
  ∧ bool_decide (Z.land (u8 b) 0xc0 = 0x80) = bool_decide (take 2 (bits8 b) = take 2 (bits8 x80)).
Proof. split; [by_bytes a|by_bytes b]. Qed.
Lemma mask_ffc0 a b : bool_decide (Z.land (u8 a * 256 + u8 b) 0xffc0 = 0xfe80)
  = bool_decide (a = xfe) && bool_decide (take 2 (bits8 b) = take 2 (bits8 x80)).
Proof.
  pose proof (u8_range b). change 0xffc0 with (0xff * 256 + 0xc0). rewrite land_bytes by lia.
  destruct (mask_fe80 a b) as [<- <-]. pose proof (land_range (u8 b) 0xc0).
  rewrite <- bool_decide_and. apply bool_decide_ext. lia.
Qed.

(** The leading bytes of a block of IPv6 addresses. *)
Lemma v6_prefix n h v g p : length h = 12%nat → length g = 12%nat →
  same_prefix (96 + n) (h ++ v) (g ++ p) = bool_decide (h = g) && same_prefix n v p.
Proof. intros Hh Hg. rewrite <- same_prefix_app by congruence. f_equal. lia. Qed.

Lemma decide_app (h g v w : list byte) : length h = length g →
  bool_decide (h ++ v = g ++ w) = bool_decide (h = g) && bool_decide (v = w).
Proof.
  intros Hl. rewrite <- bool_decide_and. apply bool_decide_ext. split; [intros H|by intros [-> ->]].
  by apply app_inj_1 in H.
Qed.

Lemma v6_first a b o p q :
  same_prefix 7 (a :: b :: o) (xfc :: p) = bool_decide (Z.land (segment (a :: b :: o) 0) 0xfe00 = 0xfc00)
  ∧ same_prefix 10 (a :: b :: o) (xfe :: x80 :: q) = bool_decide (Z.land (segment (a :: b :: o) 0) 0xffc0 = 0xfe80)
  ∧ same_prefix 8 (a :: b :: o) (xff :: p) = bool_decide (Z.land (segment (a :: b :: o) 0) 0xff00 = 0xff00).
Proof.
  rewrite segment_0. split_and!.
  - rewrite same_prefix_bits, <- mask_fe by lia. symmetry. exact (high_mask a b 0xfe 0xfc).
  - by rewrite (same_prefix_byte 2), same_prefix_bits, mask_ffc0 by lia.
  - rewrite (same_prefix_byte 0), same_prefix_0, andb_true_r, <- mask_ff. symmetry. exact (high_mask a b 0xff 0xff).
Qed.

Lemma v6_blocks h v : length h = 12%nat → length v = 4%nat → h ≠ MAPPED →
  in_blocks (IpV6 (h ++ v)) loopback_blocks = v6_is_loopback (h ++ v)
  ∧ in_blocks (IpV6 (h ++ v)) private_blocks = is_private (IpV6 (h ++ v)).
Proof.
  intros Hh Hv Hm. unfold in_blocks, loopback_blocks, private_blocks. cbn [existsb fst snd].
  rewrite !mapped_prefix, (bool_decide_false (h = MAPPED)) by done. cbn [andb orb].
  cbn [is_private]. rewrite (v6_compatible h v) by done. unfold v6_is_loopback, v6_is_unspecified, v6_is_multicast.
  change (replicate 15 x00 ++ [x01]) with (replicate 12 x00 ++ [x00; x00; x00; x01]).
  change (replicate 16 x00) with (replicate 12 x00 ++ replicate 4 x00).
  rewrite !decide_app, (v6_prefix 32), (v6_prefix 0), same_prefix_0 by done.
  rewrite same_prefix_32 by done. split; [btauto|].
  destruct h as [|a [|b h]]; [done|done|]. cbn [app].
  destruct (v6_first a b (h ++ v) (replicate 15 x00) (replicate 14 x00)) as (-> & -> & ->). btauto.
Qed.

(** ** What the policy allows *)
Lemma blocks_ok i : ip_typed i →
  in_blocks i loopback_blocks = is_loopback (canonicalise_ip i)
  ∧ in_blocks i private_blocks = is_private (canonicalise_ip i).
Proof.
  destruct i as [o|o]; intros Ht; cbn in Ht.
  { do 4 (destruct o as [|? o]; [done|]). destruct o; [|done]. apply v4_blocks. }
  rewrite <- (take_drop 12 o). set (h := take 12 o). set (v := drop 12 o).
  assert (Hh : length h = 12%nat) by (unfold h; rewrite length_take; lia).
  assert (Hv : length v = 4%nat) by (unfold v; rewrite length_drop; lia).
  clearbody h v. cbn [canonicalise_ip]. unfold to_ipv4_mapped.
  rewrite take_app_length', drop_app_length' by done.
  case_bool_decide as Hm; [|by apply v6_blocks].
  do 4 (destruct v as [|? v]; [done|]). destruct v; [|done].
  cbn [is_loopback]. destruct (v4_blocks b b0 b1 b2) as [<- <-]. subst h. unfold in_blocks, loopback_blocks, private_blocks.
  cbn [existsb fst snd]. rewrite !mapped_prefix, !(bool_decide_true (_ = MAPPED)) by done. split; reflexivity.
Qed.

(** The policy in terms of the blocks. *)
Definition permitted (p : AllowlistPolicy) (a : SocketAddr) : Prop :=
  (deny_loopback p = true → in_blocks (ip a) loopback_blocks = false)
  ∧ (deny_private_networks p = true → in_blocks (ip a) private_blocks = false)
  ∧ (∀ ports, allowed_ports p = Some ports → SplitExit.port a ∈ ports).

Lemma check_permitted p a : ip_typed (ip a) → check p a = Ok tt ↔ permitted p a.
Proof.
  intros Ht. destruct (blocks_ok _ Ht) as [Hl Hp]. unfold check, permitted. rewrite Hl, Hp. cbv zeta.
  generalize (is_loopback (canonicalise_ip (ip a))) (is_private (canonicalise_ip (ip a))). intros l m.
  assert (Hg : ∀ b c, b && c = false ↔ (b = true → c = false)) by (intros [] []; naive_solver).
  rewrite <- !Hg. destruct (deny_loopback p && l); [naive_solver|].
  destruct (deny_private_networks p && m); [naive_solver|].
  destruct (allowed_ports p) as [ports|]; [case_bool_decide|]; naive_solver.
Qed.

Lemma dial_each_spec dial n k l ops r : dial_each dial n k l = (ops, r) →
  (∀ o, o ∈ ops → ∃ a, o = Dial a ∧ a ∈ l) ∧ (∀ up, r = Ok up → Dial (peer up) ∈ ops).
Proof.
  revert n k ops r. induction l as [|a l IH]; intros n k ops r; cbn [dial_each].
  { intros [= <- <-]. split; [intros o Ho; by apply elem_of_nil in Ho|done]. }
  destruct (dial n a) as [loc|e].
  - intros [= <- <-]. split; [set_solver|]. intros up [= <-]. set_solver.
  - destruct (dial_each dial (S n) e l) as [ops' r'] eqn:E. intros [= <- <-]. apply IH in E as [E1 E2].
    split; [|set_solver]. intros o [->|Ho]%elem_of_cons; [set_solver|]. destruct (E1 o Ho) as (b & -> & Hb). set_solver.
Qed.

(** What a run may ask of the operating system, under a policy. *)
Definition op_allowed (p : AllowlistPolicy) (o : NetOp) : Prop :=
  match o with
  | Lookup name _ => magic_name name = false
  | Dial a => check p a = Ok tt
  end.

Lemma connect_target_spec lookup_host dial t p ops r : connect_target lookup_host dial t p = (ops, r) →
  Forall (op_allowed p) ops ∧ (∀ up, r = Ok up → Dial (peer up) ∈ ops).
Proof.
  assert (Hd : ∀ ops0 l ops r, Forall (op_allowed p) ops0 →
    (if bool_decide (l = []) then (ops0, Err REP_HOST_UNREACHABLE)
     else if bool_decide (filter (λ a, check p a = Ok tt) l = []) then (ops0, Err REP_NOT_ALLOWED)
     else let (more, r) := dial_each dial 0 OtherKind (filter (λ a, check p a = Ok tt) l) in (ops0 ++ more, r)) = (ops, r) →
    Forall (op_allowed p) ops ∧ (∀ up, r = Ok up → Dial (peer up) ∈ ops)).
  { intros ops0 l ops' r' H0. case_bool_decide; [by intros [= <- <-]|]. case_bool_decide; [by intros [= <- <-]|].
    destruct (dial_each _ _ _ _) as [more r1] eqn:E. intros [= <- <-]. apply dial_each_spec in E as [E1 E2]. split; [|set_solver].
    apply Forall_app. split; [done|]. apply Forall_forall. intros o Ho.
    destruct (E1 o Ho) as (a & -> & [Ha _]%list_elem_of_filter). exact Ha. }
  unfold connect_target. destruct t as [a po|a po|name po]; try (apply Hd; constructor).
  destruct (magic_name name) eqn:Em; [by intros [= <- <-]|]. destruct (lookup_host name po) as [l|].
  - apply Hd. by repeat constructor.
  - intros [= <- <-]. split; [by repeat constructor|done].
Qed.

Lemma connect_and_reply_spec lookup_host dial t p ops r : returns (connect_and_reply lookup_host dial t p) (ops, r) →
  Forall (op_allowed p) ops ∧ (∀ up, r = Ok up → Dial (peer up) ∈ ops).
Proof.
  unfold connect_and_reply, connect_to_target.
  destruct (connect_target lookup_host dial t p) as [ops0 r0] eqn:E. apply connect_target_spec in E as [E1 E2].
  intros ([ops1 r1] & H1 & H2)%returns_bind. destruct r0 as [up|rep].
  - apply returns_ret in H1 as [= -> ->]. apply returns_bind in H2 as (w & _ & [= -> ->]%returns_ret).
    split; [done|]. intros up'. destruct w; [|done]. intros [= <-]. by apply E2.
  - apply returns_bind in H1 as (w & _ & [= -> ->]%returns_ret). apply returns_ret in H2 as [= -> ->]. done.
Qed.

(** C15: whatever a client sends and however its stream, the resolver and the dials
    answer, every address the bridge dials for it is outside the ranges the
    policy denies (loopback and private blocks, IPv4-mapped forms included, and
    ports not listed), an upstream that is handed back was one of those dials,
    and no name of an internal service is ever given to the resolver. *)
Theorem exit_dials_permitted lookup_host dial p ops r :
  returns (serve_one_connect lookup_host dial p) (ops, r) →
  (∀ a, Dial a ∈ ops → ip_typed (ip a) → permitted p a)
  ∧ (∀ name po, Lookup name po ∈ ops → magic_name name = false)
  ∧ (∀ t up, r = Ok (t, up) → Dial (peer up) ∈ ops).
Proof.
  intros (q & _ & H)%returns_bind. assert (Forall (op_allowed p) ops ∧ ∀ t up, r = Ok (t, up) → Dial (peer up) ∈ ops) as [Ho Hu].
  { destruct q as [t|e]; [|apply returns_ret in H as [= -> ->]; by split].
    apply returns_bind in H as ([ops1 r1] & H1 & [= -> ->]%returns_ret).
    apply connect_and_reply_spec in H1 as [H1 H2]. split; [done|]. intros t' up. destruct r1; [|done].
    intros [= <- <-]. by apply H2. }
  rewrite Forall_forall in Ho. split_and!; [|intros name po Hl; exact (Ho _ Hl)|done].
  intros a Ha Ht. by apply check_permitted, (Ho _ Ha).
Qed.

(** A client asks for a name that resolves to a mapped loopback address and to a
    public one: the first is filtered out, the second is dialled. *)
Module ExitDemo.
Definition public : SocketAddr := mkAddr (IpV4 [x5d; xb8; xd8; x22]) 443.
Definition mapped_loopback : SocketAddr := mkAddr (IpV6 (replicate 10 x00 ++ [xff; xff; x7f; x00; x00; x01])) 443.
Definition name : list byte := String.list_byte_of_string "example.com".
Definition resolver (n : list byte) (p : Z) : option (list SocketAddr) :=
  if bool_decide (n = name) then Some [mapped_loopback; public] else None.
Definition network (n : nat) (a : SocketAddr) : Dialled := DialOk (Some (mkAddr (IpV4 [x0a; x00; x00; x02]) 40000)).
Definition request : list byte :=
  [x05; x01; x00] ++ [x05; x01; x00; x03; x0b] ++ name ++ [x01; xbb].
End ExitDemo.

Lemma exit_dials_permitted_witness :
  permitted safe_defaults ExitDemo.public ∧ ¬ permitted safe_defaults ExitDemo.mapped_loopback
  ∧ feed (serve_one_connect ExitDemo.resolver ExitDemo.network safe_defaults) ExitDemo.request
    = Some ([Lookup ExitDemo.name 443; Dial ExitDemo.public],
            Ok (Domain ExitDemo.name 443, mkTcp ExitDemo.public (Some (mkAddr (IpV4 [x0a; x00; x00; x02]) 40000)))).
Proof.
  assert (Hf : feed (serve_one_connect ExitDemo.resolver ExitDemo.network safe_defaults) ExitDemo.request
    = Some ([Lookup ExitDemo.name 443; Dial ExitDemo.public],
            Ok (Domain ExitDemo.name 443, mkTcp ExitDemo.public (Some (mkAddr (IpV4 [x0a; x00; x00; x02]) 40000)))))
    by (vm_compute; reflexivity).
  split; [|split; [|exact Hf]].
  - apply (proj1 (exit_dials_permitted _ _ _ _ _ (feed_returns _ _ _ Hf))); [set_solver|done].
  - intros (H & _). specialize (H eq_refl). vm_compute in H. discriminate.
Defined.

(** [connect_target] goes on with the records that pass where [check_all] would
    refuse the whole resolution. *)
Lemma mixed_resolution_dials :
  check_all safe_defaults [ExitDemo.mapped_loopback; ExitDemo.public] = Err "loopback"%string
  ∧ (connect_target ExitDemo.resolver ExitDemo.network (Domain ExitDemo.name 443) safe_defaults).1
    = [Lookup ExitDemo.name 443; Dial ExitDemo.public].
Proof. split; vm_compute; reflexivity. Qed.
