(* ===== verification/HandshakeSession.v ===== *)
(** * Sessions: what connect and accept establish

    The two drivers of the tunnel run against each other, and the bridge's driver
    run against anyone. An honest client with an acceptable credential always
    gets its session, whatever the padding and the scheduling, and the session is
    intact; a bridge that hands out a session has verified a credential. *)

From stdpp Require Import base numbers list gmap strings relations.
From Stdlib Require Import ZArith Lia Strings.Byte.
From S2P Require Import Prelude Bytes SessionFrames SessionLink SessionStream Signature Token HandshakeWire ReplayLog ReplaySet Handshake HandshakeRun HandshakeAuth HandshakeTunnel HandshakeDuplex.

(** ** Padded frames *)
Definition pad_of (msg : list byte) (floor : Z) (d : PadDraw) : list byte :=
  let extra := match pad_draw d with Some v => v `mod` (HS_PAD_MAX + 1) | None => 0 end in
  let n := Z.to_nat (Z.max (zlen msg) floor + extra - zlen msg) in
  take n (pad_fill d ++ replicate n x00).

Definition pframe (msg pad : list byte) : list byte := be_bytes 2 (zlen (msg ++ pad)) ++ msg ++ pad.

Lemma pframe_len msg pad : zlen (pframe msg pad) = 2 + zlen (msg ++ pad).
Proof. unfold pframe. by rewrite zlen_app, zlen_be_bytes. Qed.

Lemma pad_of_len msg floor d :
  zlen (msg ++ pad_of msg floor d)
  = Z.max (zlen msg) floor + match pad_draw d with Some v => v `mod` (HS_PAD_MAX + 1) | None => 0 end
  ∧ Z.max (zlen msg) floor <= zlen (msg ++ pad_of msg floor d) <= Z.max (zlen msg) floor + HS_PAD_MAX.
Proof.
  unfold pad_of. set (extra := match pad_draw d with Some v => v `mod` (1023 + 1) | None => 0 end).
  assert (0 <= extra <= 1023) as He.
  { subst extra. destruct (pad_draw d) as [v|]; [|lia]. pose proof (Z.mod_pos_bound v (1023 + 1)). lia. }
  pose proof (zlen_nonneg msg). cbn zeta. set (n := Z.to_nat _).
  assert (zlen (take n (pad_fill d ++ replicate n x00)) = Z.of_nat n) as Hn
    by (unfold zlen; rewrite length_take, length_app, length_replicate; lia).
  rewrite zlen_app, Hn. subst n. lia.
Qed.

Lemma write_padded_eq msg floor d : Z.max (zlen msg) floor + HS_PAD_MAX <= u16_max →
  write_padded_handshake_floor msg floor d
  = PWrite (pframe msg (pad_of msg floor d)) (PRet (Ok tt)) (PRet (Err SessionIo)).
Proof.
  intros Hm. destruct (pad_of_len msg floor d) as [Hl Hb]. unfold write_padded_handshake_floor, pframe.
  rewrite bool_decide_false by lia. rewrite Hl. done.
Qed.

Lemma be_val_frame (l : list byte) : zlen l <= u16_max → be_val (be_bytes 2 (zlen l)) = zlen l.
Proof. intros. apply be_u16_roundtrip. pose proof (zlen_nonneg l). unfold in_u16. lia. Qed.

Section frames.
Context {A B C : Type}.
Implicit Types (p : proc A) (q : proc B).

Lemma left_send msg floor d (k : unit → proc (result SessionError C)) q a b z :
  Z.max (zlen msg) floor + HS_PAD_MAX <= u16_max →
  rtc dstep (mkDuplex (k tt) q (a ++ pframe msg (pad_of msg floor d)) b) z →
  rtc dstep (mkDuplex (ptry (write_padded_handshake_floor msg floor d) k) q a b) z.
Proof. intros Hm H. rewrite write_padded_eq by done. cbn [ptry pbind]. by apply left_write. Qed.

Lemma right_send msg floor d (k : unit → proc (result SessionError C)) (h : result SessionError C → proc B) p a b z :
  Z.max (zlen msg) floor + HS_PAD_MAX <= u16_max →
  rtc dstep (mkDuplex p (pbind (k tt) h) a (b ++ pframe msg (pad_of msg floor d))) z →
  rtc dstep (mkDuplex p (pbind (ptry (write_padded_handshake_floor msg floor d) k) h) a b) z.
Proof. intros Hm H. rewrite write_padded_eq by done. cbn [ptry pbind]. by apply right_write. Qed.

Lemma left_recv msg pad n (k : list byte → proc (result SessionError C)) q a b z :
  zlen msg = n → zlen (msg ++ pad) <= n + HS_PAD_MAX → n + HS_PAD_MAX <= u16_max →
  rtc dstep (mkDuplex (k msg) q a b) z →
  rtc dstep (mkDuplex (ptry (read_padded_handshake n) k) q a (pframe msg pad ++ b)) z.
Proof.
  intros Hn Hp Hmax H. unfold pframe. rewrite <- (assoc_L (++)). cbn [ptry pbind read_padded_handshake].
  apply left_read; [apply length_be_bytes|]. rewrite be_val_frame by lia.
  rewrite zlen_app in Hp |- *. pose proof (zlen_nonneg pad).
  rewrite !bool_decide_false by lia. cbn [orb pbind]. apply left_read.
  { rewrite length_app. unfold zlen. lia. }
  by rewrite take_app_length' by (unfold zlen in *; lia).
Qed.

Lemma right_recv msg pad n (k : list byte → proc (result SessionError C)) (h : result SessionError C → proc B) p a b z :
  zlen msg = n → zlen (msg ++ pad) <= n + HS_PAD_MAX → n + HS_PAD_MAX <= u16_max →
  rtc dstep (mkDuplex p (pbind (k msg) h) a b) z →
  rtc dstep (mkDuplex p (pbind (ptry (read_padded_handshake n) k) h) (pframe msg pad ++ a) b) z.
Proof.
  intros Hn Hp Hmax H. unfold pframe. rewrite <- (assoc_L (++)). cbn [ptry pbind read_padded_handshake].
  apply right_read; [apply length_be_bytes|]. rewrite be_val_frame by lia.
  rewrite zlen_app in Hp |- *. pose proof (zlen_nonneg pad).
  rewrite !bool_decide_false by lia. cbn [orb pbind]. apply right_read.
  { rewrite length_app. unfold zlen. lia. }
  by rewrite take_app_length' by (unfold zlen in *; lia).
Qed.

(** Message 3, whose form the reader tells from its type byte. *)
Lemma right_recv_m3 n pad (k : list byte → proc (result SessionError C)) (h : result SessionError C → proc B) p a b z :
  zlen n = NOISE_MSG_3_LEN_WITH_TOKEN ∨ zlen n = NOISE_MSG_3_LEN_WITH_FS_TOKEN →
  let msg := Message3_encode (mkM3 n) in
  zlen (msg ++ pad) <= MSG_3_LEN_WITH_FS_TOKEN + HS_PAD_MAX →
  rtc dstep (mkDuplex p (pbind (k msg) h) a b) z →
  rtc dstep (mkDuplex p (pbind (ptry read_padded_handshake_m3 k) h) (pframe msg pad ++ a) b) z.
Proof.
  intros Hn msg Hp H. unfold pframe. rewrite <- (assoc_L (++)). cbn [ptry pbind read_padded_handshake_m3].
  assert (zlen msg = 3 + zlen n) as Hm by apply m3_encode_len.
  apply right_read; [apply length_be_bytes|]. rewrite be_val_frame by (unfold u16_max; lia).
  rewrite zlen_app in Hp |- *. pose proof (zlen_nonneg pad).
  rewrite bool_decide_true by lia. cbn [negb pbind]. apply right_read.
  { rewrite length_app. unfold zlen. lia. }
  assert (at_ (msg ++ pad) 2 = if bool_decide (zlen n = 312) then x04 else x03) as -> by done.
  destruct Hn as [Hn|Hn]; rewrite Hn; [rewrite bool_decide_false by lia|rewrite bool_decide_true by lia];
    cbn [pbind]; rewrite bool_decide_false by lia; cbn [pbind];
    by rewrite take_app_length' by (unfold zlen in *; lia).
Qed.
End frames.

(** ** An honest client at the bridge it means to reach *)
Section honest.
Context {SC : SessionCrypto} {SL : SessionCryptoLaws SC} {NZ : Snow SC} {NL : SnowLaws SC SL NZ}.
Context {KM : MlKem768} {KL : MlKemLaws KM} {ED : Ed25519}.
Context (ski skr : list byte).

(** [connect] or [connect_fs], by the credential the client holds. *)
Definition connect_with (d : TunnelDraws) (sk pk : list byte) (c : credential) : proc (result SessionError SessionStream) :=
  match c with CLegacy t _ => connect d sk pk t | CFs t => connect_fs d sk pk t end.

Lemma connect_with_eq d i c : new_common (t_eph d) (t_kem d) ski (x25519_public skr) = Ok i →
  connect_with d ski (x25519_public skr) c = drive_initiator (set_token_bytes (cred_bytes c) i) d.
Proof. intros H. destruct c; cbn; unfold connect, connect_fs, HandshakeInitiator_new, new_fs; by rewrite H. Qed.

Lemma cred_sized c : cred_wf c → token_sized (cred_bytes c).
Proof.
  unfold token_sized, zlen. destruct c; cbn; intros W; [left|right];
    [by rewrite token_encode_len|by rewrite fs_encode_len].
Qed.

(** The bytes of a credential determine it, but for the kind of key that signed. *)
Lemma cred_bytes_inj c c' : cred_wf c → cred_wf c' → cred_bytes c = cred_bytes c' →
  cred_id c = cred_id c' ∧ cred_expiry c = cred_expiry c'.
Proof.
  intros W W' H. assert (length (cred_bytes c) = length (cred_bytes c')) as Hl by (by rewrite H).
  destruct c as [t k|t], c' as [t' k'|t']; cbn [cred_wf cred_bytes] in *;
    rewrite ?token_encode_len, ?fs_encode_len in Hl by done; try discriminate Hl.
  - apply (f_equal CapabilityToken_decode) in H. rewrite !token_roundtrip in H by done. by injection H as <-.
  - apply (f_equal FsCapabilityToken_decode) in H. rewrite !fs_roundtrip in H by done. by injection H as <-.
Qed.

Lemma judge_lets_in r c flt v v' : cred_wf c → judge r (cred_bytes c) flt v = (v', Ok tt) →
  ∃ c', cred_id c' = cred_id c ∧ cred_expiry c' = cred_expiry c
    ∧ acceptable (local_ed25519_pk r) (operator_pk r) v c' ∧ let_in v c' flt v'.
Proof.
  intros W Hj. assert (verdict (local_ed25519_pk r) (operator_pk r) v (cred_bytes c) flt v' (Ok tt)) as V.
  { unfold judge in Hj. case_bool_decide; [by apply verify_fs_spec|by apply verify_legacy_spec]. }
  destruct V as [[_ V]|(c' & Hc & Ha & [(_ & _ & V)|[V _]])]; [done..|].
  exists c'. by destruct (cred_bytes_inj c' c (proj1 Ha) W Hc).
Qed.

(** What the two ends hold once the tunnel is up. *)
Record established (di dr : TunnelDraws) (si : SessionStream) (sr : SessionStream * list byte) : Prop := {
  est_streams : ∃ b ss ti tr fi f_r,
    si = SessionStream_new fi (t_now di) ∧ sr.1 = SessionStream_new f_r (t_now dr)
    ∧ from_session_keys b ss ti Initiator = Ok fi ∧ from_session_keys b ss tr Responder = Ok f_r
    ∧ noise_channel ti tr [] ∧ noise_channel tr ti []
    ∧ ∀ P L, stream_reachable P b ss ti tr L → intact L.1 L.2 ∧ intact L.2 L.1;
  est_peer : sr.2 = x25519_public ski;
}.

Lemma keys_established di dr ki kr : keys_match ski ki kr →
  ∃ si sr f_i f_r, from_session_keys (keys_binding ki) (keys_mlkem_ss ki) (keys_transport ki) Initiator = Ok f_i
    ∧ from_session_keys (keys_binding kr) (keys_mlkem_ss kr) (keys_transport kr) Responder = Ok f_r
    ∧ si = SessionStream_new f_i (t_now di) ∧ sr = (SessionStream_new f_r (t_now dr), x25519_public ski)
    ∧ established di dr si sr.
Proof.
  intros (Hb & Hs & C1 & C2 & _).
  destruct (from_session_keys_total (keys_binding ki) (keys_mlkem_ss ki) (keys_transport ki) Initiator) as [fi Hi].
  destruct (from_session_keys_total (keys_binding kr) (keys_mlkem_ss kr) (keys_transport kr) Responder) as [f_r Hr].
  eexists _, _, fi, f_r. split_and!; [done..|]. split; [|done].
  exists (keys_binding kr), (keys_mlkem_ss kr), (keys_transport ki), (keys_transport kr), fi, f_r.
  rewrite Hb, Hs in Hi. split_and!; [done..|]. intros P L. by apply stream_intact.
Qed.

(** The schedule in which each end runs as far as it can. *)
Lemma tunnel_schedule di dr ed_pk op_pk flt v c :
  length ski = 32%nat → length skr = 32%nat →
  acceptable ed_pk op_pk v c → (insert_step v c flt).2 = true →
  ∃ v' si sr, established di dr si sr ∧ (∃ c', cred_id c' = cred_id c ∧ cred_expiry c' = cred_expiry c ∧ acceptable ed_pk op_pk v c' ∧ let_in v c' flt v')
    ∧ rtc dstep (mkDuplex (connect_with di ski (x25519_public skr) c)
                          (accept_with_peer_static dr skr ed_pk op_pk flt v) [] [])
                (mkDuplex (PRet (Ok si)) (PRet (v', Ok sr)) [] []).
Proof.
  intros Li Lr Ha Hin.
  destruct (link_new ski skr (t_eph di) (t_kem di) (t_eph dr) ed_pk op_pk Li Lr)
    as (i & r0 & ek & Hi & Hr & L0 & _ & E0 & O0).
  apply (link_token _ _ _ _ _ _ (cred_bytes c)) in L0. rewrite (connect_with_eq di i c Hi).
  set (i0 := set_token_bytes (cred_bytes c) i) in *.
  destruct (exchange_1 ski skr i0 r0 ek L0) as (i1 & m1 & r1 & W1 & Lm1 & R1 & L1 & F1 & [G1 G1']).
  destruct (exchange_2 ski skr i1 r1 ek (t_kem dr) L1) as (r2 & m2 & i2 & W2 & Lm2 & R2 & L2 & F2 & [G2 G2']).
  assert (token_bytes i2 = Some (cred_bytes c)) as Ht by (rewrite F2, F1; done).
  assert (local_ed25519_pk r2 = ed_pk ∧ operator_pk r2 = op_pk) as [Er Or] by (split; congruence).
  destruct (verify_complete r2 c flt v) as [v' Hj]; [by rewrite Er, Or|done|].
  destruct (exchange_3 ski skr i2 r2 ek _ flt v v' L2 Ht (cred_sized c (proj1 Ha)) Hj)
    as (n & ki & kr & W3 & Ln & R3 & Hk).
  destruct (keys_established di dr ki kr Hk) as (si & sr & fi & f_r & Hfi & Hfr & Hsi & Hsr & Hest).
  exists v', si, sr. split; [done|]. split.
  { rewrite <- Er, <- Or. by eapply judge_lets_in; [apply Ha|]. }
  pose proof (cred_sized c (proj1 Ha)) as Hsz.
  unfold drive_initiator, accept_with_peer_static, write_padded_handshake. rewrite W1, Hr.
  apply left_send; [unfold u16_max; lia|]. rewrite app_nil_l.
  rewrite <- (app_nil_r (pframe m1 _)).
  apply right_recv; [done|destruct (pad_of_len m1 0 (t_pad1 di)) as [_ ?]; lia|unfold u16_max; lia|].
  rewrite R1, W2. apply right_send; [unfold u16_max; lia|]. rewrite app_nil_l.
  rewrite <- (app_nil_r (pframe m2 _)).
  apply left_recv; [done|destruct (pad_of_len m2 0 (t_pad1 dr)) as [_ ?]; lia|unfold u16_max; lia|].
  rewrite R2, W3. pose proof (m3_encode_len (mkM3 n)) as L3. cbn [noise_msg_3] in L3.
  apply left_send; [unfold u16_max; destruct Hsz; lia|]. rewrite app_nil_l, Hfi.
  rewrite <- (app_nil_r (pframe _ _)). apply right_recv_m3.
  { destruct Hsz; lia. }
  { destruct (pad_of_len (Message3_encode (mkM3 n)) MSG_3_LEN_WITH_FS_TOKEN (t_pad2 di)) as [_ ?]. destruct Hsz; lia. }
  cbn [pbind]. unfold accept_finish. rewrite R3.
  destruct Hk as (_ & _ & _ & _ & Hst). rewrite Hst, bool_decide_true by apply x25519_public_len.
  rewrite Hfr, <- Hsi, <- Hsr. apply rtc_refl.
Qed.

(** C2: An honest client gets its session. A client that holds a credential the
    bridge accepts and the bridge's public key runs [connect] (or [connect_fs])
    against the bridge's [accept]: whatever padding, ephemerals and scheduling,
    every run is finite and ends with both sides holding a stream; the bridge
    learns the client's static key and records the credential; the two streams
    share binding, secret and Noise channel, so everything later written into one
    comes out of the other intact. *)
Theorem tunnel_established di dr ed_pk op_pk flt v c :
  length ski = 32%nat → length skr = 32%nat →
  acceptable ed_pk op_pk v c → (insert_step v c flt).2 = true →
  let start := mkDuplex (connect_with di ski (x25519_public skr) c)
                        (accept_with_peer_static dr skr ed_pk op_pk flt v) [] [] in
  sn dstep start ∧
  ∃ v' si sr, established di dr si sr ∧ (∃ c', cred_id c' = cred_id c ∧ cred_expiry c' = cred_expiry c ∧ acceptable ed_pk op_pk v c' ∧ let_in v c' flt v')
    ∧ ∀ y, rtc dstep start y → rtc dstep y (mkDuplex (PRet (Ok si)) (PRet (v', Ok sr)) [] []).
Proof.
  intros Li Lr Ha Hin start. split; [apply dstep_ends|].
  destruct (tunnel_schedule di dr ed_pk op_pk flt v c Li Lr Ha Hin) as (v' & si & sr & He & Hl & Hr).
  exists v', si, sr. split_and!; [done..|]. by apply duplex_outcome.
Qed.
End honest.

(** ** Anyone at the bridge *)
Section anyone.
Context {SC : SessionCrypto} {NZ : Snow SC} {KM : MlKem768} {ED : Ed25519}.

(** What a responder is configured with. *)
Definition r_config (r : HandshakeResponder) : list byte * list byte * bool :=
  (local_ed25519_pk r, operator_pk r, require_token r).

Lemma responder_new_config eph sk ed_pk op_pk r :
  HandshakeResponder_new eph sk ed_pk op_pk = Ok r → r_config r = (ed_pk, op_pk, true).
Proof.
  unfold HandshakeResponder_new, build_noise_base. destruct (pattern_parses _); [|done].
  destruct (build_responder _ _); [|done]. by intros <-%Ok_inj.
Qed.

Lemma noise_read_config m buf r : r_config (noise_read r_noise set_r_noise m buf r).1 = r_config r.
Proof. unfold noise_read. by destruct (hs_read_message _ _ _) as [n [p|]]. Qed.
Lemma noise_write_config m buf r : r_config (noise_write r_noise set_r_noise m buf r).1 = r_config r.
Proof. unfold noise_write. by destruct (hs_write_message _ _ _) as [n [p|]]. Qed.

Lemma read_message_1_config w r : r_config (read_message_1 w r).1 = r_config r.
Proof.
  unfold read_message_1, st_bind, st_get, st_lift. case_bool_decide; [done|].
  destruct (Message1_decode w) as [msg|]; [|done]. case_bool_decide; [done|].
  pose proof (noise_read_config (noise_msg_1 msg) NOISE_MSG_1_LEN r) as Hc.
  destruct (noise_read _ _ _ _ r) as [r1 [p|]]; [|done]. by case_bool_decide.
Qed.

Lemma write_message_2_config k r : r_config (write_message_2 k r).1 = r_config r.
Proof.
  unfold write_message_2, st_bind, st_get, st_lift, st_mod. case_bool_decide; [done|].
  destruct (ok_or _ _) as [e|]; [|done]. destruct (MlKemEk_from_bytes e) as [ek|]; [|done].
  destruct (kem_encapsulate k ek) as [ct ss].
  pose proof (noise_write_config ct (NOISE_MSG_2_LEN + 16) (set_r_kem ct ss r)) as Hc.
  destruct (noise_write _ _ _ _ _) as [r1 [p|]]; [|done]. by case_bool_decide.
Qed.

Lemma returns_try {A B} (p : proc (result SessionError A)) (k : A → proc (result SessionError B)) b :
  returns (ptry p k) b → (∃ e, b = Err e) ∨ ∃ a, returns p (Ok a) ∧ returns (k a) b.
Proof.
  intros (r & Hp & Hk)%returns_bind. destruct r as [a|e]; [right; by exists a|].
  apply returns_ret in Hk. left. by exists e.
Qed.

(** Whatever a peer sends, the driver's verdict is that of [read_message_3] on a
    responder of this bridge. *)
Lemma accept_reduces d sk ed_pk op_pk flt v v' res :
  returns (accept_with_peer_static d sk ed_pk op_pk flt v) (v', res) →
  (v' = v ∧ ∀ s, res ≠ Ok s) ∨ ∃ r m3, r_config r = (ed_pk, op_pk, true)
    ∧ accept_finish r m3 flt (t_now d) v = (v', res).
Proof.
  unfold accept_with_peer_static. intros (x & Hx & Hr)%returns_bind.
  destruct x as [[r m3]|e]; apply returns_ret in Hr; [|by simplify_eq; left].
  right. exists r, m3. split; [|done].
  destruct (HandshakeResponder_new _ _ _ _) as [r0|] eqn:E0; [|by apply returns_ret in Hx].
  apply responder_new_config in E0.
  apply returns_try in Hx as [[? ?]|(m1 & _ & Hx)]; [done|].
  pose proof (read_message_1_config m1 r0) as C1.
  destruct (read_message_1 m1 r0) as [r1 [[]|]]; [|by apply returns_ret in Hx]. cbn in C1.
  pose proof (write_message_2_config (t_kem d) r1) as C2.
  destruct (write_message_2 (t_kem d) r1) as [r2 [m2|]]; [|by apply returns_ret in Hx]. cbn in C2.
  apply returns_try in Hx as [[? ?]|(_ & _ & Hx)]; [done|].
  apply returns_try in Hx as [[? ?]|(m & _ & Hx)]; [done|]. apply returns_ret in Hx. injection Hx as -> ->. by rewrite C2, C1.
Qed.

(** Every outcome: nothing presented, a credential the replay set refused, or a
    credential let in. *)
Lemma accept_spec d sk ed_pk op_pk flt v v' res :
  returns (accept_with_peer_static d sk ed_pk op_pk flt v) (v', res) →
  (v' = v ∧ (∀ s, res ≠ Ok s)) ∨ ∃ c, acceptable ed_pk op_pk v c
    ∧ ((insert_step v c flt).2 = false ∧ v' = set_replay (insert_step v c flt).1 v ∧ (∀ s, res ≠ Ok s)
       ∨ let_in v c flt v').
Proof.
  intros [H|(r & m3 & [= <- <- RT] & H)]%accept_reduces; [by left|]. unfold accept_finish in H.
  destruct (read_message_3 r m3 flt v) as [v1 x] eqn:E3.
  pose proof (read_message_3_spec r m3 flt v v1 x RT E3) as S.
  assert (v1 = v' ∧ ((∀ k, x ≠ Ok k) → ∀ s, res ≠ Ok s)) as [-> Hres].
  { destruct x as [keys|e]; [|by injection H as <- <-].
    split; [|intros Hk; by destruct (Hk keys)].
    destruct (match transport_remote_static _ with Some _ => _ | None => _ end) as [ps|]; [|by injection H].
    by destruct (from_session_keys _ _ _ _); injection H. }
  destruct S as [[-> Hx]|(c & Ha & _ & [(Hf & -> & Hx)|Hl])].
  - left. split; [done|by apply Hres].
  - right. exists c. split; [done|]. left. split_and!; [done..|by apply Hres].
  - right. exists c. split; [done|by right].
Qed.

(** C4: A bridge gives a session only for a credential. Whatever a peer sends and
    however reads and writes fail, when [accept] returns a session the peer has
    presented a token that names this bridge, is not past its expiry and grace,
    carries the signature of a configured key (operator, previous operator,
    refresh issuer, or a chain from an operator's root through an unretired
    subkey), and that the replay set took, and the verifier reports that token.
    If no signature in circulation is forged, the key's holder issued exactly
    these fields, as that kind of credential. *)
Theorem accept_authorised d sk ed_pk op_pk flt v v' s :
  returns (accept_with_peer_static d sk ed_pk op_pk flt v) (v', Ok s) →
  ∃ c, acceptable ed_pk op_pk v c ∧ let_in v c flt v'
    ∧ ∀ ledger seen, honest_keys ledger seen op_pk v → cred_seen seen c → cred_issued ledger op_pk v c.
Proof.
  intros [[_ H]|(c & Ha & [(_ & _ & H)|Hl])]%accept_spec; [by destruct (H s)..|].
  exists c. split_and!; [done..|]. intros ledger seen Hk Hs. destruct Ha as (W & S & _).
  by eapply cred_signed_issued.
Qed.
(** ** The client's side *)
Lemma write_message_1_pin i i' m : write_message_1 i = (i', Ok m) → expected_remote_static i' = expected_remote_static i.
Proof.
  unfold write_message_1, st_bind, st_get, noise_write. case_bool_decide; [done|].
  destruct (hs_write_message _ _ _) as [h [x|]]; [|done]. case_bool_decide; [done|]. by intros [= <- <-].
Qed.

Lemma read_message_2_pin w i i' : read_message_2 w i = (i', Ok tt) →
  get_remote_static (i_noise i') = Some (expected_remote_static i)
  ∧ ∃ ct, i_mlkem_ct i' = Some ct ∧ i_mlkem_ss i' = Some (kem_decapsulate (mlkem_dk i') ct).
Proof.
  unfold read_message_2, st_bind, st_get, st_lift, noise_read. case_bool_decide; [done|].
  destruct (Message2_decode w) as [msg|]; [|done]. case_bool_decide; [done|].
  destruct (hs_read_message _ _ _) as [h [p|]]; [|done]. case_bool_decide; [done|]. cbn [i_noise set_i_noise].
  destruct (get_remote_static h) as [rs|] eqn:Er; [|done]. cbn [ok_or expected_remote_static set_i_noise].
  case_bool_decide as Hrs; [done|]. intros [= <-]. cbn. rewrite Er. split; [congruence|]. by exists p.
Qed.

Lemma write_message_3_ss i m keys : write_message_3 i = Ok (m, keys) → i_mlkem_ss i = Some (keys_mlkem_ss keys).
Proof.
  unfold write_message_3. case_bool_decide; [done|]. destruct (m3_payload i) as [p n].
  destruct (hs_write_message _ _ _) as [h [x|]]; [|done]. case_bool_decide; [done|].
  destruct (noise_h_32 h); [|done]. destruct (i_mlkem_ss i) as [ss|]; [|done]. cbn [ok_or].
  destruct (ok_or (i_mlkem_ct i) _); [|done]. destruct (into_transport_mode h); [|done].
  cbn [ok_or]. intros [= <- <-]. done.
Qed.

End anyone.

(** ** Sizes on the wire *)
Section sizes.
Context {SC : SessionCrypto} {NZ : Snow SC} {KM : MlKem768} {ED : Ed25519}.

(** The drawn number of padding bytes. *)
Definition drawn (d : PadDraw) : Z := match pad_draw d with Some v => v `mod` (HS_PAD_MAX + 1) | None => 0 end.

Lemma transcript_try {E A B} (p : proc (result E A)) (k : A → proc (result E B)) l b : transcript (ptry p k) l b →
  ∃ l1 l2, l = l1 ++ l2 ∧ ((∃ e, transcript p l1 (Err e) ∧ l2 = []) ∨ ∃ a, transcript p l1 (Ok a) ∧ transcript (k a) l2 b).
Proof.
  intros (l1 & l2 & [a|e] & -> & H1 & H2)%transcript_bind; exists l1, l2; (split; [done|]); [right; by exists a|].
  apply transcript_ret in H2 as [-> _]. left. by exists e.
Qed.

Lemma padded_transcript msg floor d l r : Z.max (zlen msg) floor + HS_PAD_MAX <= u16_max →
  transcript (write_padded_handshake_floor msg floor d) l r →
  zlen <$> l = [2 + Z.max (zlen msg) floor + drawn d].
Proof.
  intros Hm. rewrite write_padded_eq by done. destruct (pad_of_len msg floor d) as [Hl _].
  inversion 1 as [|? ? ? l' ? H1|? ? ? l' ? H1| |]; subst; apply transcript_ret in H1 as [-> _];
    cbn [fmap list_fmap]; rewrite pframe_len, Hl; unfold drawn; f_equal; lia.
Qed.

Lemma read_transcript n l r : transcript (read_padded_handshake n) l r → l = [].
Proof.
  unfold read_padded_handshake. inversion 1 as [| | |? ? ? x ? ? Hx H1|? ? ? ? ? H1]; subst; [|by apply transcript_ret in H1 as [-> _]].
  cbv zeta in H1. destruct (_ || _); [by apply transcript_ret in H1 as [-> _]|].
  inversion H1 as [| | |? ? ? x' ? ? Hx' H2|? ? ? ? ? H2]; subst; by apply transcript_ret in H2 as [-> _].
Qed.

Lemma write_message_1_len i i' m : write_message_1 i = (i', Ok m) → zlen m = MSG_1_LEN.
Proof.
  unfold write_message_1, st_bind, st_get, st_mod, st_ret, noise_write. case_bool_decide; [done|].
  destruct (hs_write_message _ _ _) as [h [x|]]; [|done]. case_bool_decide as Hx; [done|]. intros [= _ <-].
  rewrite m1_encode_len. cbn [noise_msg_1]. lia.
Qed.

Lemma write_message_3_len i m keys : write_message_3 i = Ok (m, keys) → zlen m <= MSG_3_LEN_WITH_FS_TOKEN.
Proof.
  unfold write_message_3. case_bool_decide; [done|]. destruct (m3_payload i) as [p n] eqn:Ep.
  destruct (hs_write_message _ _ _) as [h [x|]]; [|done]. case_bool_decide as Hx; [done|].
  destruct (noise_h_32 h); [|done]. destruct (ok_or (i_mlkem_ss i) _); [|done].
  destruct (ok_or (i_mlkem_ct i) _); [|done]. destruct (ok_or (into_transport_mode h) _); [|done].
  intros [= <- <-]. rewrite m3_encode_len. cbn [noise_msg_3]. unfold m3_payload in Ep.
  destruct (token_bytes i); [case_bool_decide|]; simplify_eq; lia.
Qed.

Lemma drive_sizes i d l r : transcript (drive_initiator i d) l r →
  (zlen <$> l) `prefix_of` [2 + MSG_1_LEN + drawn (t_pad1 d); 2 + MSG_3_LEN_WITH_FS_TOKEN + drawn (t_pad2 d)].
Proof.
  unfold drive_initiator. destruct (write_message_1 i) as [i1 [m1|]] eqn:E1.
  2: { intros [-> _]%transcript_ret. apply prefix_nil. }
  apply write_message_1_len in E1. intros (l1 & l2 & -> & H)%transcript_try. rewrite fmap_app.
  assert (Hl1 : zlen <$> l1 = [2 + MSG_1_LEN + drawn (t_pad1 d)]).
  { assert (∃ r1, transcript (write_padded_handshake m1 (t_pad1 d)) l1 r1) as [r1 H1] by (destruct H as [(? & ? & _)|(? & ? & _)]; eauto).
    unfold write_padded_handshake in H1. apply padded_transcript in H1; [|unfold u16_max; lia]. rewrite H1. f_equal. lia. }
  rewrite Hl1. destruct H as [(e & _ & ->)|(_ & _ & H)]; [by eexists|]. apply prefix_cons.
  apply transcript_try in H as (l3 & l4 & -> & H).
  assert (l3 = []) as -> by (destruct H as [(? & H & _)|(? & H & _)]; by apply read_transcript in H).
  destruct H as [(e & _ & ->)|(m2 & _ & H)]; [apply prefix_nil|]. rewrite app_nil_l.
  destruct (read_message_2 m2 i1) as [i2 [[]|]]; [|apply transcript_ret in H as [-> _]; apply prefix_nil].
  destruct (write_message_3 i2) as [[m3 keys]|] eqn:E3; [|apply transcript_ret in H as [-> _]; apply prefix_nil].
  apply write_message_3_len in E3. apply transcript_try in H as (l5 & l6 & -> & H).
  assert (l6 = []) as ->.
  { destruct H as [(_ & _ & ->)|(_ & _ & H)]; [done|]. destruct (from_session_keys _ _ _ _); by apply transcript_ret in H as [-> _]. }
  rewrite app_nil_r. assert (∃ r5, transcript (write_padded_handshake_floor m3 MSG_3_LEN_WITH_FS_TOKEN (t_pad2 d)) l5 r5) as [r5 H5]
    by (destruct H as [(? & ? & _)|(? & ? & _)]; eauto).
  apply padded_transcript in H5; [|unfold u16_max; lia]. rewrite H5, Z.max_r by lia. by exists [].
Qed.

(** C36: the sizes of what a client sends do not depend on its credential. In any
    run of [connect] or [connect_fs], whatever the keys, the token and the
    answers and wherever the run ends, the client writes at most two buffers, and
    their sizes are those of a padded message 1 and of the longest message 3 with
    the drawn padding: a 203-byte message 3 with a bootstrap or refresh token and
    a 315-byte one with a forward-secure token give frames of one size. *)
Theorem client_frame_sizes d sk pk c l r : transcript (connect_with d sk pk c) l r →
  (zlen <$> l) `prefix_of` [2 + MSG_1_LEN + drawn (t_pad1 d); 2 + MSG_3_LEN_WITH_FS_TOKEN + drawn (t_pad2 d)].
Proof.
  destruct c; cbn [connect_with]; unfold connect, connect_fs;
    (case_match; [apply drive_sizes|intros [-> _]%transcript_ret; apply prefix_nil]).
Qed.
End sizes.
