(* ===== verification/HandshakeOnce.v ===== *)
(** * One session per token

    A bridge process over its lifetime: sessions accepted by the driver of
    crates/session/src/tunnel.rs with the verifier that crates/bridge/src/main.rs
    makes for each, over one replay set and its log, with evictions, kills and
    restarts in between. *)

From stdpp Require Import base numbers list gmap strings.
From Stdlib Require Import ZArith Lia Strings.Byte.
From S2P Require Import Prelude Bytes SessionFrames SessionStream Signature Token HandshakeWire ReplayLog ReplaySet Handshake HandshakeRun HandshakeAuth HandshakeTunnel HandshakeDuplex HandshakeSession.

(** The keys of a bridge. *)
Record KeysCopy : Set := mkKeysCopy {
  bridge_x25519_sk : list byte;
  bridge_ed_pk : list byte;
  operator_ed_pk : list byte;
  operator_ed_pk_prev : option (list byte);
}.

(** The verifier of one accepted connection. *)
Definition bridge_verifier (k : KeysCopy) (refresh : bool) (replay : SyncReplaySet) (now : Z) : TokenVerifier :=
  let v := TokenVerifier_new_shared replay now in
  let v := if refresh then with_refresh_issuer (bridge_ed_pk k) v else v in
  match operator_ed_pk_prev k with Some prev => with_prev_operator prev v | None => v end.

Definition set_of (v : TokenVerifier) : ReplaySet :=
  match replay_set v with Owned rs => rs | Shared s => sy_inner s end.

Lemma bridge_verifier_shape k refresh s now :
  replay_set (bridge_verifier k refresh s now) = Shared s ∧ now_unix (bridge_verifier k refresh s now) = now
  ∧ grace_seconds (bridge_verifier k refresh s now) = TOKEN_GRACE_SECONDS.
Proof. unfold bridge_verifier. by destruct refresh, (operator_ed_pk_prev k). Qed.

Section once.
Context {SC : SessionCrypto} {NZ : Snow SC} {KM : MlKem768} {ED : Ed25519}.
Context (sort : list (list byte * Z) → list (list byte * Z)) (k : KeysCopy) (refresh : bool).

Definition serve (d : TunnelDraws) (flt : Faults) (now : Z) (rs : ReplaySet)
  : proc (TokenVerifier * result SessionError (SessionStream * list byte)) :=
  accept_with_peer_static d (bridge_x25519_sk k) (bridge_ed_pk k) (operator_ed_pk k) flt
    (bridge_verifier k refresh (mkSync rs false) now).

(** The credential a session was opened with. *)
Definition opened (c : credential) (flt : Faults) (now : Z) (rs : ReplaySet) (v' : TokenVerifier) : Prop :=
  acceptable (bridge_ed_pk k) (operator_ed_pk k) (bridge_verifier k refresh (mkSync rs false) now) c
  ∧ let_in (bridge_verifier k refresh (mkSync rs false) now) c flt v'.

(** A life of the bridge at clock [t]: its process and disk, and the sessions it
    opened, oldest first. A handshake is placed where its message 3 is judged;
    [now] is the clock its verifier was made with. *)
Inductive bridge_run : Z → World → list (credential * Z) → Prop :=
| br_new t : bridge_run t (mkWorld None None) []
| br_session t d rs log dr flt now v' s c :
    bridge_run t (mkWorld d (Some rs)) log → t <= now → whole_faults flt →
    returns (serve dr flt now rs) (v', Ok s) → opened c flt now rs v' →
    bridge_run now (mkWorld d (Some (set_of v'))) (log ++ [(c, now)])
| br_refused t d rs log dr flt now v' e :
    bridge_run t (mkWorld d (Some rs)) log → t <= now → whole_faults flt →
    returns (serve dr flt now rs) (v', Err e) →
    bridge_run now (mkWorld d (Some (set_of v'))) log
| br_other t w log e :
    bridge_run t w log → rev_typed e → t <= clock t e → start_fits e w = true →
    bridge_run (clock t e) (world_step sort e w).1 log.

(** What a session leaves in the replay set's history. *)
Definition mark (x : credential * Z) : list byte * Z * Z :=
  (cred_id x.1, saturating_add_u64 (cred_expiry x.1) TOKEN_GRACE_SECONDS, x.2).

Lemma cred_rec_ok c : cred_wf c → rec_ok (cred_id c, saturating_add_u64 (cred_expiry c) TOKEN_GRACE_SECONDS).
Proof.
  intros W. assert (length (cred_id c) = 32%nat ∧ in_u64 (cred_expiry c)) as [Hl He].
  { destruct c; cbn in *; unfold token_wf, fs_wf in W; by destruct_and! W. }
  split; [done|]. unfold saturating_add_u64, in_u64, u64_max in *. cbn. lia.
Qed.

Lemma insert_step_shared c flt now rs :
  let v := bridge_verifier k refresh (mkSync rs false) now in
  let x := check_and_insert (cred_id c) (saturating_add_u64 (cred_expiry c) TOKEN_GRACE_SECONDS) now flt rs in
  (insert_step v c flt).2 = x.2 ∧ set_of (set_replay (insert_step v c flt).1 v) = x.1.
Proof.
  cbv zeta. destruct (bridge_verifier_shape k refresh (mkSync rs false) now) as (H1 & H2 & H3).
  unfold insert_step, retention, set_of. rewrite H1, H2, H3. cbn.
  by destruct (check_and_insert _ _ _ _ rs).
Qed.

(** Presenting a credential to the set, with the history it extends. *)
Lemma present_cred t d rs acc fs ps c flt now : world_inv t (mkWorld d (Some rs)) acc fs ps → cred_wf c →
  whole_faults flt → t <= now →
  let v := bridge_verifier k refresh (mkSync rs false) now in
  ∃ fs' ps', world_inv now (mkWorld d (Some (set_of (set_replay (insert_step v c flt).1 v))))
    (acc ++ if (insert_step v c flt).2 then [mark (c, now)] else []) fs' ps'.
Proof.
  intros I W Hf Ht v. destruct (insert_step_shared c flt now rs) as [H1 H2]. subst v. rewrite H1, H2.
  by apply (present_inv t d rs acc fs ps); [|apply cred_rec_ok|..].
Qed.

(** The set's history covers the sessions, and no token is accepted again while
    the set keeps it. *)
Lemma bridge_run_inv t w log : bridge_run t w log →
  ∃ acc fs ps, world_inv t w acc fs ps ∧ (∀ x, x ∈ log → mark x ∈ acc) ∧ single_use (mark <$> log)
    ∧ Forall (λ x, x.2 <= saturating_add_u64 (cred_expiry x.1) TOKEN_GRACE_SECONDS) log.
Proof.
  induction 1 as [t|t d rs log dr flt now v' s c _ (acc & fs & ps & I & Hin & Hone & Hall) Ht Hf Hret [Ha [Hok ->]]
    |t d rs log dr flt now v' e _ (acc & fs & ps & I & Hin & Hone & Hall) Ht Hf Hret
    |t w log e _ (acc & fs & ps & I & Hin & Hone & Hall) Hty Ht Hfit].
  - exists [], [], []. split_and!; [apply world_inv_new|set_solver| |constructor]. change (mark <$> []) with (@nil (list byte * Z * Z)). intros i j *. by rewrite lookup_nil.
  - destruct (present_cred t d rs acc fs ps c flt now I (proj1 Ha) Hf Ht) as (fs' & ps' & I').
    rewrite Hok in I'. exists (acc ++ [mark (c, now)]), fs', ps'. split_and!; [exact I'| | |].
    + intros x [Hx|Hx]%elem_of_app; [|apply list_elem_of_singleton in Hx as ->]; set_solver.
    + rewrite fmap_app. apply single_use_snoc; [done|]. intros e1 n1 (x & Heq & Hx)%list_elem_of_fmap.
      apply Hin in Hx. rewrite <- Heq in Hx. by eapply single_use_last; [apply (wi_once _ _ _ _ _ I')|].
    + apply Forall_app. split; [done|]. constructor; [|done].
      destruct Ha as (_ & _ & _ & Hn), (bridge_verifier_shape k refresh (mkSync rs false) now) as (_ & H2 & H3).
      unfold retention in Hn. by rewrite H2, H3 in Hn.
  - apply accept_spec in Hret as [[-> _]|(c & Ha & Hc)].
    { exists acc, fs, ps. split; [|done].
      replace (set_of _) with rs; [by apply later_inv with t|].
      unfold set_of. by rewrite (proj1 (bridge_verifier_shape k refresh (mkSync rs false) now)). }
    destruct (present_cred t d rs acc fs ps c flt now I (proj1 Ha) Hf Ht) as (fs' & ps' & I').
    destruct Hc as [(_ & -> & _)|[_ ->]]; eexists _, fs', ps'; (split_and!; [exact I'|set_solver|done..]).
  - destruct (world_step_inv sort t e w acc fs ps I Hty Ht Hfit) as (fs' & ps' & I').
    eexists _, fs', ps'. split_and!; [exact I'|set_solver|done..].
Qed.

(** C3: A token opens at most one session in the life of a bridge. Over any
    sequence of handshakes with anyone, gossiped burns, evictions, kills and
    restarts on the same log, under three conditions: a write to the log may fail,
    but the system takes or refuses each buffer as a whole (a torn write loses a
    record, ReplaySet.torn_append_reopens); no restart finds more unexpired
    records than the set may hold; and the clock that each handshake's verifier
    was made with is not behind the clock of any earlier use of the replay set
    (the daemon reads it before the handshake; HandshakeDemo.stale_clock_replays
    is what happens otherwise). Then, when two sessions were opened with tokens of
    the same id, the later token expires later (its issuer reused the id) and the
    earlier one was past its expiry and grace. *)
Theorem one_session_per_token t w log i j c1 n1 c2 n2 :
  bridge_run t w log → (i < j)%nat → log !! i = Some (c1, n1) → log !! j = Some (c2, n2) →
  cred_id c1 = cred_id c2 →
  saturating_add_u64 (cred_expiry c1) TOKEN_GRACE_SECONDS < n2 ∧ cred_expiry c1 < cred_expiry c2.
Proof.
  intros (acc & fs & ps & _ & _ & Hone & Hall)%bridge_run_inv Hij Hi Hj Hid.
  assert (saturating_add_u64 (cred_expiry c1) TOKEN_GRACE_SECONDS < n2) as Hlt.
  { apply (Hone i j (cred_id c1) _ n1 (saturating_add_u64 (cred_expiry c2) TOKEN_GRACE_SECONDS) n2 Hij);
      rewrite list_lookup_fmap, ?Hi, ?Hj; unfold mark; cbn; by rewrite ?Hid. }
  split; [done|]. rewrite Forall_lookup in Hall. specialize (Hall j _ Hj). cbn in Hall.
  unfold saturating_add_u64 in *. lia.
Qed.
End once.
