(* ===== verification/HandshakeDemo.v ===== *)
(** * Concrete handshakes

    A transparent Noise and a one-byte KEM that satisfy the laws, and runs of the
    handshake over them. *)

From stdpp Require Import base numbers list gmap strings relations.
From Stdlib Require Import ZArith Lia Strings.Byte.
From S2P Require Import Prelude Bytes SessionFrames SessionLink SessionStream Signature Token HandshakeWire ReplayLog ReplaySet Handshake HandshakeRun HandshakeAuth HandshakeTunnel HandshakeDuplex HandshakeSession HandshakeOnce.

Module HsDemo.
(** Static keys travel in the clear, the hash counts the messages, and the
    counters of the transport start at the initiator's key. *)
Record state : Set := mkState { initiator : bool; count : nat; self : list byte; peer : option (list byte) }.

Definition public (sk : list byte) : list byte := take 32 (sk ++ replicate 32 x00).

Definition write (s : state) (p : list byte) (buf : Z) : state * option (list byte) :=
  let out head := if bool_decide (zlen head + zlen p <= buf)
                  then (mkState (initiator s) (S (count s)) (self s) (peer s), Some (head ++ p)) else (s, None) in
  match initiator s, count s with
  | true, 0%nat => out (replicate 32 x00)
  | false, 1%nat => out (self s ++ replicate 64 x00)
  | true, 2%nat => out (self s ++ replicate 32 x00)
  | _, _ => (s, None)
  end.

Definition read (s : state) (m : list byte) (buf : Z) : state * option (list byte) :=
  let take_in n peer := if bool_decide (n <= zlen m <= buf)
                        then (mkState (initiator s) (S (count s)) (self s) peer, Some (drop (Z.to_nat n) m))
                        else (s, None) in
  match initiator s, count s with
  | false, 0%nat => take_in 32 (peer s)
  | true, 1%nat => take_in 96 (Some (take 32 m))
  | false, 2%nat => take_in 64 (Some (take 32 m))
  | _, _ => (s, None)
  end.

Definition transport (s : state) : option (@TransportState Demo.crypto) :=
  match initiator s, peer s with
  | true, _ => Some (be_val (self s), 0)
  | false, Some p => Some (0, be_val p)
  | false, None => None
  end.

#[export] Instance snow : Snow Demo.crypto := {|
  HandshakeState := state;
  pattern_parses s := bool_decide (s = NOISE_PATTERN);
  build_initiator _ sk _ := Some (mkState true 0 (public sk) None);
  build_responder _ sk := Some (mkState false 0 (public sk) None);
  hs_write_message := write;
  hs_read_message := read;
  get_handshake_hash s := be_bytes 32 (Z.of_nat (count s));
  get_remote_static s := peer s;
  into_transport_mode := transport;
  transport_remote_static (t : @TransportState Demo.crypto) := Some (be_bytes 32 t.2);
|}.

Lemma public_len sk : length (public sk) = 32%nat.
Proof. unfold public. rewrite length_take, length_app, length_replicate. lia. Qed.

Definition pair (ski skr : list byte) (n : nat) (hi hr : state) : Prop :=
  hi = mkState true n (public ski) (if bool_decide (2 ≤ n)%nat then Some (public skr) else None)
  ∧ hr = mkState false n (public skr) (if bool_decide (3 ≤ n)%nat then Some (public ski) else None).

(** The head of a message and its payload. *)
Lemma head_payload (head p : list byte) n : zlen head = n → drop (Z.to_nat n) (head ++ p) = p.
Proof. intros <-. apply drop_app_length'. unfold zlen. lia. Qed.

Lemma head_static (pk : list byte) (fill p : list byte) : length pk = 32%nat → take 32 ((pk ++ fill) ++ p) = pk.
Proof. intros H. rewrite <- (assoc_L (++)). by apply take_app_length'. Qed.

Lemma zlen_head sk n : zlen (public sk ++ replicate n x00) = 32 + Z.of_nat n.
Proof. unfold zlen. rewrite length_app, public_len, length_replicate. lia. Qed.

#[export] Program Instance snow_laws : SnowLaws Demo.crypto Demo.laws snow := {|
  x25519_public := public;
  xx_pair := pair;
|}.
Next Obligation. done. Qed.
Next Obligation. intros ei er ski skr rs _ _ _. by eexists _, _. Qed.
Next Obligation.
  intros ski skr hi hr p buf [-> ->] Hb. exists (mkState true 1 (public ski) None), (replicate 32 x00 ++ p).
  assert (zlen (replicate 32 x00) = 32) as L by done. pose proof (zlen_nonneg p).
  split; [|split; [by rewrite zlen_app|]].
  - unfold hs_write_message, snow, write. cbn -[replicate public]. by rewrite bool_decide_true by (rewrite L; lia).
  - intros rbuf Hr. exists (mkState false 1 (public skr) None). split; [|done].
    unfold hs_read_message, snow, read. cbn -[replicate public drop Z.to_nat].
    rewrite zlen_app, L in *. rewrite bool_decide_true by lia. by rewrite (head_payload (replicate 32 x00) p 32).
Qed.
Next Obligation.
  intros ski skr hi hr p buf [-> ->] Hb.
  exists (mkState false 2 (public skr) None), ((public skr ++ replicate 64 x00) ++ p).
  pose proof (zlen_head skr 64) as L. pose proof (zlen_nonneg p).
  split; [|split; [rewrite zlen_app, L; lia|]].
  - unfold hs_write_message, snow, write. cbn -[replicate public].
    by rewrite bool_decide_true by (rewrite L; lia).
  - intros rbuf Hr. exists (mkState true 2 (public ski) (Some (public skr))). split; [|done].
    unfold hs_read_message, snow, read. cbn -[replicate public take drop Z.to_nat].
    rewrite (zlen_app (_ ++ _)), L in Hr |- *. rewrite bool_decide_true by lia.
    rewrite (head_payload _ p 96) by (by rewrite L). by rewrite head_static by apply public_len.
Qed.
Next Obligation.
  intros ski skr hi hr p buf [-> ->] Hb.
  exists (mkState true 3 (public ski) (Some (public skr))), ((public ski ++ replicate 32 x00) ++ p).
  pose proof (zlen_head ski 32) as L. pose proof (zlen_nonneg p).
  split; [|split; [rewrite zlen_app, L; lia|]].
  - unfold hs_write_message, snow, write. cbn -[replicate public].
    by rewrite bool_decide_true by (rewrite L; lia).
  - intros rbuf Hr. exists (mkState false 3 (public skr) (Some (public ski))). split; [|done].
    unfold hs_read_message, snow, read. cbn -[replicate public take drop Z.to_nat].
    rewrite (zlen_app (_ ++ _)), L in Hr |- *. rewrite bool_decide_true by lia.
    rewrite (head_payload _ p 64) by (by rewrite L). by rewrite head_static by apply public_len.
Qed.
Next Obligation. intros ski skr n hi hr [-> ->]. split; [done|apply length_be_bytes]. Qed.
Next Obligation. intros ski skr hi hr [-> ->]. done. Qed.
Next Obligation.
  intros ski skr hi hr [-> ->].
  exists (be_val (public ski), 0), (0, be_val (public ski)). split_and!; try done.
  cbn -[be_bytes be_val]. f_equal. rewrite <- (public_len ski). apply be_bytes_be_val.
Qed.
Next Obligation. apply public_len. Qed.

(** A KEM on bytes. *)
#[export] Instance kem : MlKem768 := {|
  DecapsulationKey := byte;
  EncapsulationKey := byte;
  kem_generate r := (at_ r 0, at_ r 0);
  ek_to_bytes b := replicate 1184 b;
  ek_new l := head l;
  kem_encapsulate r b := (replicate 1088 (at_ r 0), replicate 32 (bxor b (at_ r 0)));
  kem_decapsulate b ct := replicate 32 (bxor b (at_ ct 0));
|}.

#[export] Instance kem_laws : MlKemLaws kem.
Proof. split; try done. intros rnd dk ek r ct ss [= <- <-] [= <- <-]. done. Qed.
End HsDemo.

(** ** A bridge, a client and two tokens of one id *)
Module HsRun.
Export HsDemo.
Definition ski : list byte := replicate 32 x11.
Definition skr : list byte := replicate 32 x22.
Definition ed_pk : list byte := replicate 32 x33.
Definition op_pk : list byte := replicate 32 x44.
Definition tid : list byte := replicate 32 x55.
Definition tok (exp : Z) : CapabilityToken := mkToken tid ed_pk exp (replicate 64 x66).

(** A scheme in which the operator has signed the two tokens and nothing else
    verifies. *)
#[export] Instance table : Ed25519 := {|
  SigningKey := unit;
  from_seed _ := tt;
  verifying_key _ := op_pk;
  sign _ _ := replicate 64 x66;
  valid_point pk := bool_decide (pk = op_pk);
  verify_strict pk m sg := bool_decide (pk = op_pk ∧ (m = encode_signed_prefix (tok 150) ∨ m = encode_signed_prefix (tok 1000)));
|}.

Definition keys : KeysCopy := mkKeysCopy skr ed_pk op_pk None.
Definition draws : TunnelDraws := mkDraws [x01] [x02] (mkPad (Some 7) [x0a]) (mkPad None []) 5.
Definition cred (exp : Z) : credential := CLegacy (tok exp) Bootstrap.
Definition verifier (rs : ReplaySet) (now : Z) : TokenVerifier := bridge_verifier keys false (mkSync rs false) now.

Lemma cred_acceptable rs now exp : exp = 150 ∨ exp = 1000 → now <= exp + 60 →
  acceptable ed_pk op_pk (verifier rs now) (cred exp).
Proof.
  intros He Hn. split_and!; [|exists op_pk; split_and!; [by left|done|]|done|].
  - split_and!; [done..| |done]. cbn. unfold in_u64, u64_max. lia.
  - apply bool_decide_true. split; [done|]. destruct He as [-> | ->]; [by left|by right].
  - unfold retention, saturating_add_u64, u64_max. cbn. lia.
Qed.

(** The bridge serves the client, and the set has taken the token. *)
Lemma served rs now exp flt : exp = 150 ∨ exp = 1000 → now <= exp + 60 →
  (check_and_insert tid (exp + 60) now flt rs).2 = true →
  ∃ v' si s c, returns (connect_with draws ski (public skr) (cred exp)) (Ok si)
    ∧ returns (serve keys false draws flt now rs) (v', Ok s) ∧ opened keys false c flt now rs v' ∧ cred_id c = tid ∧ cred_expiry c = exp
    ∧ set_of v' = (check_and_insert tid (exp + 60) now flt rs).1.
Proof.
  intros He Hn Hc. assert (saturating_add_u64 exp 60 = exp + 60) as Hs.
  { unfold saturating_add_u64, u64_max. lia. }
  destruct (insert_step_shared keys false (cred exp) flt now rs) as [I1 _].
  change (cred_id (cred exp)) with tid in I1. change (cred_expiry (cred exp)) with exp in I1. rewrite Hs, Hc in I1.
  destruct (tunnel_schedule (NL := snow_laws) ski skr draws draws ed_pk op_pk flt (verifier rs now) (cred exp))
    as (v' & si & s & _ & (c & Hid & Hex & Ha & Hl) & Hr); [done|done|by apply cred_acceptable|exact I1|].
  destruct (duplex_returns _ _ _ _ _ Hr) as [R1 R2]. cbn [left right] in R1, R2.
  exists v', si, s, c. split_and!; [done..|]. destruct Hl as [_ ->].
  destruct (insert_step_shared keys false c flt now rs) as [_ I3]. rewrite Hid, Hex in I3.
  change (cred_id (cred exp)) with tid in I3. change (cred_expiry (cred exp)) with exp in I3. by rewrite Hs in I3.
Qed.

Definition empty : ReplaySet := mkSet ∅ 8 (Some (mkLog header [] true)).
Definition after : ReplaySet := (check_and_insert tid (150 + 60) 100 ReplayDemo.good empty).1.
Definition evicted : ReplaySet := evict_expired 300 after.

Lemma start_world : (world_step ReplayDemo.id_order (Start true 8 0 ReplayDemo.io) (mkWorld None None)).1
  = mkWorld (Some header) (Some empty).
Proof. vm_compute. reflexivity. Qed.

Lemma evict_world d s : (world_step ReplayDemo.id_order (Evict 300) (mkWorld d (Some s))).1
  = mkWorld d (Some (evict_expired 300 s)).
Proof. reflexivity. Qed.

Lemma good_whole : whole_faults ReplayDemo.good.
Proof. vm_decide. Qed.

Lemma started : bridge_run (NZ := snow) ReplayDemo.id_order keys false 0 (mkWorld (Some header) (Some empty)) [].
Proof.
  rewrite <- start_world. apply (br_other _ _ _ 0 (mkWorld None None) [] (Start true 8 0 ReplayDemo.io));
    [exact (br_new _ _ _ 0)|by left|done|vm_compute; reflexivity].
Qed.

(** Start, a session at 100 with the token that expires at 150, an eviction at
    300, a session at 301 with the token of the same id that expires at 1000. *)
Lemma two_sessions : ∃ w c1 c2, bridge_run (NZ := snow) ReplayDemo.id_order keys false 301 w [(c1, 100); (c2, 301)]
  ∧ cred_id c1 = cred_id c2 ∧ cred_expiry c1 = 150 ∧ cred_expiry c2 = 1000.
Proof.
  destruct (served empty 100 150 ReplayDemo.good) as (v1 & _ & s1 & c1 & _ & R1 & O1 & Hi1 & He1 & S1);
    [by left|lia|vm_compute; reflexivity|].
  destruct (served evicted 301 1000 ReplayDemo.good) as (v2 & _ & s2 & c2 & _ & R2 & O2 & Hi2 & He2 & S2);
    [by right|lia|vm_compute; reflexivity|].
  exists (mkWorld (Some header) (Some (set_of v2))), c1, c2. split; [|rewrite Hi1, Hi2; exact (conj eq_refl (conj He1 He2))].
  pose proof (br_session _ _ _ _ _ _ _ draws ReplayDemo.good 100 v1 s1 c1 started ltac:(lia) good_whole R1 O1) as B1.
  rewrite S1 in B1. fold after in B1.
  assert (bridge_run (NZ := snow) ReplayDemo.id_order keys false 300 (mkWorld (Some header) (Some evicted)) [(c1, 100)]) as B2.
  { unfold evicted. rewrite <- evict_world. apply (br_other _ _ _ 100 _ _ (Evict 300)); [exact B1|exact I|cbn; lia|exact eq_refl]. }
  exact (br_session _ _ _ _ _ _ _ draws ReplayDemo.good 301 v2 s2 c2 B2 ltac:(lia) good_whole R2 O2).
Qed.
End HsRun.

#[local] Existing Instances Demo.crypto HsDemo.snow HsDemo.kem HsRun.table.

Lemma circuit_hop_agreement_witness : ∃ i r1 r2 m2 ss b,
  write_message_2_for_circuit_hop (NZ := HsDemo.snow) [x03] r1 = (r2, Ok (m2, ss, b))
  ∧ circuit_hop_binding (NZ := HsDemo.snow) i = Ok (ss, b).
Proof.
  destruct (circuit_hop_agreement (NL := HsDemo.snow_laws) (KL := HsDemo.kem_laws) HsRun.ski HsRun.skr
    [x01] [x02] [x04] [x03] HsRun.ed_pk HsRun.op_pk eq_refl eq_refl)
    as (i0 & i1 & i2 & r0 & r1 & r2 & m1 & m2 & ss & b & _ & _ & _ & _ & W2 & _ & Hb).
  exists i2, r1, r2, m2, ss, b. exact (conj W2 Hb).
Defined.

Lemma tunnel_established_witness :
  let start := mkDuplex (connect_with (NZ := HsDemo.snow) HsRun.draws HsRun.ski (HsDemo.public HsRun.skr) (HsRun.cred 150))
    (accept_with_peer_static (NZ := HsDemo.snow) HsRun.draws HsRun.skr HsRun.ed_pk HsRun.op_pk ReplayDemo.good
      (HsRun.verifier HsRun.empty 100)) [] [] in
  ∃ v' si sr, rtc dstep start (mkDuplex (PRet (Ok si)) (PRet (v', Ok sr)) [] []).
Proof.
  destruct (tunnel_established (NL := HsDemo.snow_laws) (KL := HsDemo.kem_laws) HsRun.ski HsRun.skr HsRun.draws HsRun.draws
    HsRun.ed_pk HsRun.op_pk ReplayDemo.good (HsRun.verifier HsRun.empty 100) (HsRun.cred 150))
    as (_ & v' & si & sr & _ & _ & H).
  - reflexivity.
  - reflexivity.
  - apply HsRun.cred_acceptable; [left; reflexivity|lia].
  - vm_compute. reflexivity.
  - exists v', si, sr. apply H. apply rtc_refl.
Defined.

(** What the operator of the example has issued. *)
Definition demo_ledger (pk : list byte) (i : Issue) : Prop :=
  pk = HsRun.op_pk ∧ (i = IBootstrap HsRun.tid HsRun.ed_pk 150 ∨ i = IBootstrap HsRun.tid HsRun.ed_pk 1000).

Lemma demo_honest rs now : honest_keys (ED := HsRun.table) demo_ledger (λ _, True) HsRun.op_pk (HsRun.verifier rs now).
Proof.
  split_and!.
  - intros pk Hr m sg _ Hv. apply bool_decide_eq_true in Hv as [-> Hm].
    destruct Hm as [-> | ->]; [exists (IBootstrap HsRun.tid HsRun.ed_pk 150)|exists (IBootstrap HsRun.tid HsRun.ed_pk 1000)];
      (split_and!; [split; [done|by (left + right)]|split_and!; [done..|cbn; unfold in_u64, u64_max; lia]|done]).
  - intros pk [=].
  - intros pk ep sub until _ [_ [[=]|[=]]].
Qed.

Lemma accept_authorised_witness : ∃ c, cred_issued demo_ledger HsRun.op_pk (HsRun.verifier HsRun.empty 100) c.
Proof.
  destruct (HsRun.served HsRun.empty 100 150 ReplayDemo.good) as (v1 & _ & s1 & _ & _ & R1 & _);
    [left; reflexivity|lia|vm_compute; reflexivity|].
  destruct (accept_authorised _ _ _ _ _ _ _ _ R1) as (c & _ & _ & H). exists c.
  apply (H demo_ledger (λ _, True)); [apply demo_honest|destruct c; [exact I|exact (conj I I)]].
Defined.


Lemma one_session_per_token_witness : 210 < 301 ∧ 150 < 1000.
Proof.
  destruct HsRun.two_sessions as (w & c1 & c2 & B & Hid & E1 & E2).
  destruct (one_session_per_token _ _ _ _ _ _ 0 1 c1 100 c2 301 B ltac:(lia) eq_refl eq_refl Hid) as [H1 H2].
  rewrite E1 in H1, H2. rewrite E2 in H2. split; [exact H1|exact H2].
Defined.

(** Two clients, with a bootstrap and with a forward-secure token, answered by the
    bridge of the example. *)
Definition fs_demo : credential :=
  CFs (mkFsToken HsRun.tid HsRun.ed_pk 150 (mkCert 0 (replicate 32 x05) 150 (replicate 64 x06)) (replicate 64 x07)).
Definition client_of (c : credential) : proc (result SessionError SessionStream) :=
  connect_with (NZ := HsDemo.snow) HsRun.draws HsRun.ski (HsDemo.public HsRun.skr) c.
Definition answer : list byte :=
  concat (play (accept_with_peer_static (NZ := HsDemo.snow) HsRun.draws HsRun.skr HsRun.ed_pk HsRun.op_pk ReplayDemo.good
    (HsRun.verifier HsRun.empty 100)) (concat (play (client_of (HsRun.cred 150)) []).1)).1.

Lemma client_frame_sizes_witness :
  let sizes := [2 + MSG_1_LEN + drawn (t_pad1 HsRun.draws); 2 + MSG_3_LEN_WITH_FS_TOKEN + drawn (t_pad2 HsRun.draws)] in
  zlen <$> (play (client_of (HsRun.cred 150)) answer).1 = sizes ∧ zlen <$> (play (client_of fs_demo) answer).1 = sizes
  ∧ (zlen <$> (play (client_of fs_demo) answer).1) `prefix_of` sizes.
Proof.
  intros sizes. split; [vm_compute; reflexivity|]. split; [vm_compute; reflexivity|].
  exact (client_frame_sizes _ _ _ _ _ _ (play_transcript (client_of fs_demo) answer)).
Defined.

(** ** A verifier's clock that is older than the set's

    The daemon reads the clock when the connection is accepted and judges the
    token when message 3 arrives. A handshake that began before a token's expiry
    and ends after another one has evicted the expired entries is let in with a
    token that was used before. *)
Module StaleClock.
#[export] Existing Instance EdDemo.scheme.
Definition op_sk : SigningKey := x44.
Definition op_pk : list byte := verifying_key op_sk.
Definition bridge_pk : list byte := replicate 32 x33.
Definition keys : KeysCopy := mkKeysCopy (replicate 32 x22) bridge_pk op_pk None.
Definition token (id : byte) (exp : Z) : list byte :=
  CapabilityToken_encode (sign_token (replicate 32 id) bridge_pk exp op_sk).
Definition responder : HandshakeResponder (NZ := HsDemo.snow) :=
  mkResp (HsDemo.mkState false 2 [] None) None None None 1 RAwaitMessage3 bridge_pk op_pk true.
Definition judged (id : byte) (exp now : Z) (rs : ReplaySet) : ReplaySet * bool :=
  let x := verify_legacy responder (token id exp) ReplayDemo.good (bridge_verifier keys false (mkSync rs false) now) in
  (set_of x.1, is_ok x.2).
End StaleClock.

(** A set of two entries, full of tokens that expire at 1160 with the grace; at
    1161 a third client's token evicts both; a handshake begun at 1155 then
    presents the first token again. *)
Lemma stale_clock_replays :
  let a := StaleClock.judged x01 1100 1150 (ReplaySet_new 2) in
  let b := StaleClock.judged x02 1100 1150 a.1 in
  let c := StaleClock.judged x03 5000 1161 b.1 in
  let d := StaleClock.judged x01 1100 1155 c.1 in
  (a.2, b.2, c.2, d.2) = (true, true, true, true).
Proof. vm_compute. reflexivity. Qed.
